(* ===== verification/_CoqProject ===== *)
-Q . S2P
Prelude.v
Errors.v
Stream.v
Source.v
Cache.v
Memory.v
Database.v
Schema.v
Locks.v
Hook.v
Local.v
LocalWatch.v
Server.v
Remote.v
Feed.v
Catalog.v
Cluster.v
Signal.v
Listener.v
Supervisor.v
Group.v
MessagePump.v
Handler.v
Recovery.v
Process.v
Execute.v
Consumer.v
Concurrency.v
Aggregate.v
Integration.v
Projection.v
Pump.v
Application.v
GrpcServer.v
RemoteEngine.v
Engine.v
System.v
DeadlinePumps.v
Marshal.v
EventLog.v
Following.v
Pipeline.v
Waiting.v
Fixtures.v
TestCluster.v
