(* ===== verification/Prelude.v ===== *)
(** * A verification development for the runkit Dogma engine

    runkit executes Dogma applications on PostgreSQL.  The engine keeps event
    streams, a command queue and the state of message handlers in one database;
    several engines ("nodes") may share it, and engines of other applications are
    read from over gRPC.  This library models the engine's own logic as executable
    definitions and proves what makes it correct.

    ** The program and the files that model it

    Events flow from a _source_ through a _feed_ of the _catalog_ to a _consumer_ and
    into the _sink_ of a handler; commands and deadlines flow from the queues in the
    database through a _message pump_ to a handler.  All paths below are under
    [src/].

    - [Errors]: Go's error values; [internal/supervisor/error.go], the sentinel
      errors of the packages and [internal/x/xsql/deadlock.go].
    - [Stream]: envelopes, segments ([internal/eventstream/source/segment.go]) and the
      specification that the pipeline is proved against: a history is a list of
      events at increasing offsets, a segment is [faithful] if it holds exactly the
      matching events of its range, and a [chain] is contiguous faithful delivery.
    - [Source]: callbacks, and the contract of [source.Source] ([serves]).
    - [Cache]: [internal/eventstream/internal/cache].
    - [Memory]: the in-memory source, [source/memory.go].
    - [Database]: the tables and SQL functions of [internal/schema/ddl], transactions
      ([internal/x/xsql]) and the invariant of the event tables.
    - [Schema]: the creation and removal of the schema, [internal/schema/schema.go] with
      the statements of its scripts, their objects and the shapes of these.
    - [Locks]: the locks that the statements of every transaction take, in order.
    - [Hook]: [internal/contexthook].
    - [Local], [LocalWatch]: the source that reads this engine's database,
      [source/local.go]: its reading, and its watching.
    - [Server], [Remote]: the gRPC source, [source/server.go] and [source/remote.go].
    - [Feed], [Catalog]: [internal/eventstream/feed.go] and [catalog.go].
    - [Cluster]: rendezvous hashing and membership, [internal/cluster].
    - [Signal], [Listener]: the bus of notifications, [internal/signal/bus.go]: its
      subscribers, and its connection to PostgreSQL.
    - [Supervisor], [Group]: retries with backoff, and groups of supervised functions,
      [internal/supervisor].
    - [MessagePump]: [internal/messagepump]: backoff, the acquisition and the handling
      of one delivery; [Pump]: the dispatchers and workers of all pumps together.
    - [Handler]: what handlers share: open transactions, recovery of panics and
      unpacking of messages ([internal/x/xerrors], [internal/x/xmessage]);
      [Recovery]: the recovery of panics with the stack on which it decides.
    - [Process]: process handlers, [internal/process].
    - [Consumer]: [internal/eventstream/consumer.go], with the class [Sink] of
      [sink.go] and the record [SinkSpec] of what a sink promises.
    - [Concurrency]: the lock of [internal/concurrency].
    - [Aggregate], [Integration], [Projection]: the other kinds of handlers,
      [internal/aggregate], [internal/integration] and [internal/projection].
    - [Execute]: [execute.go].
    - [Application]: [internal/application]; [GrpcServer]: [internal/grpcserver];
      [RemoteEngine]: [internal/remoteengine] and [remoteengine.go].
    - [Engine]: [engine.go] and [engineoption.go].
    - [System]: the transactions of all handlers together.
    - [DeadlinePumps]: the dispatchers and workers of the deadline pumps of all nodes,
      interleaved with the consumers of events.
    - [Marshal]: the values of columns, [internal/x/xsql/marshal.go].
    - [EventLog], [Following]: the local source over what the transactions of [System]
      record: reading it, and watching it by the signals that the triggers of
      [internal/schema/ddl/00-eventstream/20-triggers.sql] send.
    - [Pipeline]: the event log, the local source and the consumers of a process over one
      database: from the transaction that records an event to the one that applies it.
    - [Waiting], [Fixtures], [TestCluster]: the test support of [internal/x/xtesting]: what
      tests wait for and expect ([sync.go], [context.go], [expect.go], [database.go]), what
      they put into the database and find in it ([eventstream.go], [commandqueue.go],
      [deadline.go], [database.go]), and the clusters that they run and execute commands on
      ([cluster.go], [engine.go]).

    ** How the code is represented

    A Go function that may panic is a function into [go]; an error is a value of
    [error]; a goroutine's loop is a function of what it meets, one element of a list
    or one turn for each iteration; components that run concurrently are a step
    relation over their shared state, and theorems hold of every reachable state.
    Objects that are shared by reference (watchers, subscribers, streams and feeds)
    live on a heap, a map from addresses.  A Go [uint64] is a [Z] with its wrap-around
    written out ([u64]) wherever the code computes with it; an offset is a
    non-negative [Z].  Collections of UUIDs are stdpp's [gset] and [gmap].  An
    observable value (cosyne.Observable) is the value it holds: waiting for it to
    change is the end of a turn.  Contexts, clocks, random numbers and faults of the
    database or of a connection are inputs.

    A SQL statement is a function on the tables, by its effect.  A transaction
    holds the row locks of what it changes, so transactions are atomic steps; between
    the transactions of one component, those of the others may do anything that
    their own steps allow ([Process.turn], [Local.Read]'s answers).  The widths of
    integer columns are modelled for checkpoints and scanned offsets only.

    Code outside of the repository is a parameter with laws: [Server.Wire] (protocol
    buffers), [Server.Filters], [Cluster.Rendezvous] (the hash function),
    [MessagePump.Driver] (the handlers), [Handler.Messaging] (packing of messages),
    [Remote.connected] and [Remote.unbroken] (gRPC), [Marshal.UUIDText], [Group.Errgroup] (golang.org/x/sync/errgroup),
    [Fixtures.TestMessages] (the messages of tests), and the application's handlers: [ProcessMessageHandler],
    [AggregateMessageHandler] and [IntegrationMessageHandler], whose calls on their
    scope are an inductive type, and [ProjectionMessageHandler] with the contract of its
    checkpoint ([projection_contract]).  Each that theorems depend on has an instance,
    on which they are applied.  The application's configuration, which a library reads,
    is data ([Engine.Application]).

    A statement that fails for a reason outside of the model (a connection that is
    lost) aborts its transaction, of which nothing remains: faults are inputs of the
    transaction ([TxEnv], [MessagePump.faulty]).

    ** What is proved

    - Delivery: every source serves its stream contiguously and faithfully, whatever
      fails ([Memory_Read_spec], [Local_Read_serves], [Remote_Read_of_Server]);
      watching is contiguous for each stream under every interleaving
      ([Watch_contiguous]); a feed holds what it carries, and consuming it, from the
      cache or the source, and across changes of feed, gives the consumer each event
      exactly once ([feed_consume_contiguous], [Consume_across_feeds]).  Feeds are
      proved against [Source.serves], which the sources satisfy; the catalog against
      the theorems on feeds.
    - The catalog publishes exactly the streams that it can serve
      ([catalog_lists_delivered_streams]).
    - End to end: the stream consumer, over the catalog's feeds, the supervisor's
      retries and any sink that keeps [SinkSpec], applies each event exactly once, in
      order; the sinks of processes and of projections keep it
      ([stream_consumer_is_exactly_once], [projection_consumer_is_exactly_once]).
    - Effects: what it means to apply an event to a process is specified on the tables,
      apart from the code ([Process.event_effects]: the commands queued, the instance's
      state, its deadlines, its end, and the checkpoint, all in one transaction); what
      consumers do to a database refines a history of such steps ([Process.apply_step]) in
      which each event occurs exactly once, although any number of consumers race
      ([ConsumeSegment_exactly_once]); ended instances have no
      deadlines and deadlines are not lost; deliveries are atomic; commands with an
      idempotency key are queued once.
    - Commands: the root that an aggregate's command is given is the fold of the
      instance's events, whatever snapshots and races there are
      ([loaded_root_is_the_fold]); handling a command is atomic for aggregates and
      integrations, and a command is postponed for the reasons that are named and no
      others; handlers that ask for it are called by one session at a time, which holds
      the lock ([handlers_are_serialized]); the pumps of all nodes together handle each
      command once and lose none, a command being handled when its handler has returned
      nil and its effects are committed ([commands_are_handled_once]); so do the deadline
      pumps with deadlines, of which at most one of an instance is in progress
      ([deadlines_are_handled_once]).
    - Locks: each transaction of the engine waits for rows in one order, so that a deadlock
      always leads through a deadline that a pump has passed over and that stays locked
      ([transactions_never_deadlock]); such a deadlock can occur
      ([skipped_rows_can_deadlock]).
    - The whole: every transaction of every handler keeps the invariants of all of
      them, and the event log is append-only ([engine_state_is_well_formed], by the
      frames of [System] and the invariants of the components); an engine that starts
      gives its components what they rely on ([engine_meets_contracts]) and is reported
      as running only while it is.
    - The event log and its readers together: reading during an execution of the engine
      gives what the engine recorded, and ends ([local_source_reads_the_log]); the
      triggers, the bus, its connection and the followers of the local source miss
      nothing that any handler records, whatever is dropped or lost
      ([followers_miss_nothing]).  What is recorded is applied by a process exactly once
      and in order, by any number of consumers that read the same database
      ([recorded_events_are_applied_once]), and nothing but a failing handler keeps the
      process from catching up with the log ([process_catches_up]).
    - Test support: what a test appends to a stream is what the source serves and what
      [ExpectContiguousEvents] finds ([appended_events_are_expected]); streams are
      populated as they should be ([PopulateEventStreams_fills]); a test that has waited
      for a handler to consume all events sees a process that has applied them
      ([consumed_events_are_applied]); waits pass and fail when they should
      ([WaitForQueryResult_spec], [WaitForLatches_spec], [converge_spec]).
    - The schema is established on exactly the databases whose objects are no obstacle to
      its statements, atomically and idempotently, and removed with all that belongs to it
      ([schema_is_established]); removing it is not atomic
      ([failed_drop_loses_foreign_key]).
    - Projections are compacted at most once per interval; a database has one
      application; a gRPC server keeps its address.
    - Distribution: exactly one live node is responsible for a workload and consumes a
      stream; membership changes move only the workloads they must; the published
      membership is current.
    - Robustness: bounds of every backoff although shifts overflow, the delays of the
      supervisor for each kind of failure and the only ways in which it panics
      ([Run_delays_are_bounded]), no change that
      a watcher of signals does not come to know of, although signals are dropped and
      connections lost ([no_change_goes_unnoticed]), groups of functions that report the
      first failure and no cancelation ([Wait_returns_first_fatal_failure]), no send on a closed channel,
      recovery of the application's panics, classification of errors on both ends of a
      connection, rejection of malformed responses.

    ** Bounds and fuel

    Loops that follow the environment take one element of a list per iteration
    (turns, rounds, polls, acquisitions, attempts): the list is the execution, of any
    length.
    [Local.Read_loop] takes fuel: [Local_Read_total] shows that one query more than
    there are matching events is enough.  [doAcquireTask] takes acquisitions, each
    with the time, the locks and the transactions of others that it meets:
    [doAcquireTask_terminates] shows how many are enough, given the time that they take,
    the base delay and the number of commands that can not be decoded.  [Cache.Search_loop] takes fuel: the length of the list, which bounds the
    iterations of the binary search.  [Fixtures.populate_loop] takes fuel:
    [PopulateEventStreams_fills] shows that one pass more than the largest of the counts
    is enough.

    ** What is not modelled

    Logging, tracing and descriptions, and with them that an aggregate root may panic when
    it is asked for its description ([internal/aggregate/commandpump.go]); the widths of
    the integer columns that count failures; the supervisors of components under go test,
    where a deadlock panics (only [Supervisor] itself has both modes); timeouts of handlers (a handler may fail at
    any time); the goroutines of sync.WaitGroup, beyond what the step relations
    interleave; the clocks, loggers and accessors of the scopes of handlers, whose fields
    are arguments of the handlers here; and, of the test support, the container and the
    connections of the test database, gRPC connections ([grpc.go]) and [RunEngines], which
    call libraries with the configuration of a test.

    This file holds what all the others use: panics, machine integers, automation
    and generic lemmas. *)

From stdpp Require Export base tactics option list gmap strings numbers sorting.
From Stdlib Require Export ZArith Lia.

#[global] Open Scope Z_scope.
#[export] Set Warnings "-clear-no-such-hyp".

(** ** Go's panics

    A Go function that may panic is modelled by a function into [go]. *)

Inductive go (A : Type) : Type :=
| Ret (a : A)
| Panic (msg : string).
Arguments Ret {A} a.
Arguments Panic {A} msg.

#[global] Instance go_ret : MRet go := @Ret.
#[global] Instance go_bind : MBind go :=
  fun A B f m => match m with Ret a => f a | Panic msg => Panic msg end.

(** [l[i]], which panics when [i] is out of range. *)
Definition index {A} (l : list A) (i : Z) : go A :=
  match (if decide (0 <= i) then l !! Z.to_nat i else None) with
  | Some x => Ret x
  | None => Panic "index out of range"
  end.

(** [l[i:]], which panics when [i] is out of range. *)
Definition slice_from {A} (l : list A) (i : Z) : go (list A) :=
  if decide (0 <= i <= Z.of_nat (length l)) then Ret (drop (Z.to_nat i) l)
  else Panic "slice bounds out of range".

(** [len(l)]. *)
Definition len {A} (l : list A) : Z := Z.of_nat (length l).

(** ** Machine integers *)

Definition u64_modulus : Z := 2 ^ 64.

(** The value of a [uint64] expression: the mathematical value modulo 2^64. *)
Definition u64 (z : Z) : Z := z mod u64_modulus.

(** The value of an [int64] expression, in two's complement. *)
Definition i64 (z : Z) : Z := (z + 2 ^ 63) mod 2 ^ 64 - 2 ^ 63.

Definition is_u64 (z : Z) : Prop := 0 <= z < u64_modulus.
Definition is_i64 (z : Z) : Prop := - 2 ^ 63 <= z < 2 ^ 63.

Lemma u64_id z : is_u64 z -> u64 z = z.
Proof. apply Z.mod_small. Qed.

Lemma u64_range z : is_u64 (u64 z).
Proof. apply Z.mod_pos_bound. reflexivity. Qed.

Lemma i64_id z : is_i64 z -> i64 z = z.
Proof. unfold is_i64, i64. intros. rewrite Z.mod_small by lia. lia. Qed.

Lemma i64_range z : is_i64 (i64 z).
Proof.
  unfold is_i64, i64.
  pose proof (Z.mod_pos_bound (z + 2 ^ 63) (2 ^ 64) eq_refl). lia.
Qed.

(** ** Automation *)

Create HintDb runkit.
Create Rewrite HintDb runkit.

Lemma len_nil {A} : len (@nil A) = 0.
Proof. reflexivity. Qed.
Lemma len_cons {A} (x : A) l : len (x :: l) = 1 + len l.
Proof. unfold len. cbn [length]. lia. Qed.
Lemma len_app {A} (l1 l2 : list A) : len (l1 ++ l2) = len l1 + len l2.
Proof. unfold len. rewrite length_app. lia. Qed.
Lemma len_drop {A} (l : list A) n : len (drop n l) = Z.max 0 (len l - Z.of_nat n).
Proof. unfold len. rewrite length_drop. lia. Qed.
Lemma len_nonneg {A} (l : list A) : 0 <= len l.
Proof. unfold len. lia. Qed.

#[export] Hint Rewrite @len_nil @len_cons @len_app @len_drop @length_app @length_drop : runkit.
#[export] Hint Resolve len_nonneg : runkit.

(** Simplify lengths, then arithmetic. *)
Ltac len := autorewrite with runkit in *; unfold len in *; cbn [length] in *; lia.

(** Split every conjunction and existential of the context. *)
Ltac split_hyps :=
  repeat match goal with
  | H : _ /\ _ |- _ => destruct H
  | H : ex _ |- _ => destruct H
  end.

(** Case analysis on the boolean and decidable tests of the goal, innermost
    first, keeping the equations. *)
Ltac cases :=
  repeat match goal with
  | |- context [decide ?P] => destruct (decide P)
  | |- context [if ?b then _ else _] =>
      match type of b with bool => destruct b eqn:? end
  end.

(** ** Generic lemmas *)

Lemma index_Some {A} (l : list A) i x :
  0 <= i -> l !! Z.to_nat i = Some x -> index l i = Ret x.
Proof. intros Hi Hx. unfold index. rewrite decide_True by done. by rewrite Hx. Qed.

Lemma index_in_range {A} (l : list A) i :
  0 <= i < len l -> exists x, index l i = Ret x /\ l !! Z.to_nat i = Some x.
Proof.
  intros Hi. destruct (lookup_lt_is_Some_2 l (Z.to_nat i)) as [x Hx]; [len|].
  exists x. split; [|done]. apply index_Some; [lia|done].
Qed.

Lemma slice_from_in_range {A} (l : list A) i :
  0 <= i <= len l -> slice_from l i = Ret (drop (Z.to_nat i) l).
Proof. intros. unfold slice_from. by rewrite decide_True. Qed.

(** Splitting a list just after the element at a known index. *)
Lemma split_after {A} (l : list A) n x :
  l !! n = Some x -> l = (take n l ++ [x]) ++ drop (S n) l.
Proof. intros H. rewrite <- app_assoc. cbn. symmetry. by apply take_drop_middle. Qed.

(** A loop over the objects at the given addresses. *)
Fixpoint each {S} (f : nat -> S -> go S) (ps : list nat) (s : S) : go S :=
  match ps with
  | [] => Ret s
  | p :: ps' => s' ← f p s; each f ps' s'
  end.

(** A loop that updates each object of a heap by [g]. *)
Lemma each_heap {A} (f : nat -> gmap nat A -> go (gmap nat A)) (g : nat -> A -> A) (ok : A -> Prop) :
  (forall p m x, m !! p = Some x -> ok x -> f p m = Ret (<[p := g p x]> m)) ->
  forall ps m, NoDup ps -> (forall p, p ∈ ps -> exists x, m !! p = Some x /\ ok x) ->
  exists m', each f ps m = Ret m' /\
    forall p, m' !! p = if decide (p ∈ ps) then g p <$> m !! p else m !! p.
Proof.
  intros Hf. induction ps as [|p ps IH]; intros m Hnd Hok; cbn.
  { exists m. split; [done|]. intros p. rewrite decide_False; [done|]. apply not_elem_of_nil. }
  apply NoDup_cons in Hnd as [Hp Hnd]. destruct (Hok p ltac:(left)) as (x & Hx & Hx').
  rewrite (Hf p m x Hx Hx'). cbn.
  destruct (IH (<[p := g p x]> m) Hnd) as (m' & -> & Hm').
  { intros q Hq. rewrite lookup_insert_ne by (intros <-; done). apply Hok. by right. }
  exists m'. split; [done|]. intros q. rewrite Hm'. destruct (decide (q = p)) as [->|Hne].
  - rewrite lookup_insert_eq, decide_False, decide_True by (done || left). by rewrite Hx.
  - rewrite lookup_insert_ne by done. destruct (decide (q ∈ ps)) as [Hq|Hq].
    + by rewrite decide_True by (by right).
    + rewrite decide_False; [done|]. by intros [->|?]%elem_of_cons.
Qed.
