(* ===== verification/Errors.v ===== *)
(** * Error values

    Go's [error] values as the engine builds them: sentinel variables declared
    with [errors.New], opaque errors from the outside (the database, the
    application's handlers, gRPC), and the wrappers that [fmt.Errorf] with [%w]
    and the supervisor package add.  [errors.Is] and [errors.AsType] walk the
    tree of wrapped errors.

    Models [internal/supervisor/error.go], [internal/x/xsql/deadlock.go], the sentinels of
    [internal/eventstream], [internal/eventstream/source] and
    [internal/messagepump]. *)

From S2P Require Import Prelude.

(** The variables that the engine, or the standard library, declares with
    [errors.New] and that the engine compares against. *)
Inductive sentinel : Type :=
| Canceled | DeadlineExceeded                (* package context *)
| EOF                                        (* package io *)
| ErrNoRows                                  (* package database/sql *)
| ErrUnsupported                             (* package errors *)
| ErrConsumerTooSlow | ErrUnrecognizedStream
| ErrOffsetOutOfRange | ErrInvalidSegment    (* source/errors.go *)
| ErrStreamNotFound                          (* eventstream/catalog.go *)
| errFeedClosed | errCaughtUp                (* eventstream/feed.go *)
| ErrFailed | ErrBusy                        (* messagepump/driver.go *)
| ErrNotSupported                            (* package dogma *)
| ErrEventObserverNotSatisfied.              (* package dogma *)

#[global] Instance sentinel_eq_dec : EqDecision sentinel.
Proof. solve_decision. Defined.

(** The gRPC status codes that the engine sends or reacts to. *)
Inductive code : Type :=
| Aborted | Unimplemented | NotFound | OutOfRange | InvalidArgument | OtherCode.

#[global] Instance code_eq_dec : EqDecision code.
Proof. solve_decision. Defined.

Inductive error : Type :=
| Sentinel (s : sentinel)
| Opaque (msg : string)                      (* an error with nothing to unwrap *)
| Wrap (msg : string) (e : error)            (* fmt.Errorf with one %w *)
| Wrap2 (msg : string) (e1 e2 : error)       (* fmt.Errorf with two %w *)
| Status (c : code) (msg : string)           (* status.Error *)
| PanicError (value : string)                (* xerrors.PanicError *)
| PgError (code msg : string)                (* pgconn.PgError *)
| fatalError (e : error)
| persistentError (e : error).

#[global] Instance error_eq_dec : EqDecision error.
Proof. solve_decision. Defined.

(** [supervisor.Fatal] and [supervisor.Persistent]. *)
Definition Fatal (e : error) : error := fatalError e.
Definition Persistent (e : error) : error := persistentError e.

(** [errors.Is(e, s)] for a sentinel [s]. *)
Fixpoint Is (e : error) (s : sentinel) : bool :=
  match e with
  | Sentinel s' => bool_decide (s' = s)
  | Opaque _ | Status _ _ | PanicError _ | PgError _ _ => false
  | Wrap _ e' | fatalError e' | persistentError e' => Is e' s
  | Wrap2 _ e1 e2 => Is e1 s || Is e2 s
  end.

(** [errors.AsType[fatalError](e)], returning the wrapped error. *)
Fixpoint AsFatal (e : error) : option error :=
  match e with
  | fatalError e' => Some e'
  | Wrap _ e' | persistentError e' => AsFatal e'
  | Wrap2 _ e1 e2 =>
      match AsFatal e1 with Some f => Some f | None => AsFatal e2 end
  | Sentinel _ | Opaque _ | Status _ _ | PanicError _ | PgError _ _ => None
  end.

(** Whether [errors.AsType[persistentError](e)] succeeds. *)
Fixpoint IsPersistent (e : error) : bool :=
  match e with
  | persistentError _ => true
  | Wrap _ e' | fatalError e' => IsPersistent e'
  | Wrap2 _ e1 e2 => IsPersistent e1 || IsPersistent e2
  | Sentinel _ | Opaque _ | Status _ _ | PanicError _ | PgError _ _ => false
  end.

(** [errors.AsType[*pgconn.PgError](e)], returning its code. *)
Fixpoint AsPgError (e : error) : option string :=
  match e with
  | PgError code _ => Some code
  | Wrap _ e' | fatalError e' | persistentError e' => AsPgError e'
  | Wrap2 _ e1 e2 =>
      match AsPgError e1 with Some c => Some c | None => AsPgError e2 end
  | Sentinel _ | Opaque _ | Status _ _ | PanicError _ => None
  end.

(** [xsql.PanicOnDeadlock]; [testing] is [testing.Testing()]. *)
Definition PanicOnDeadlock (testing : bool) (err : error) : go unit :=
  if testing then
    match AsPgError err with
    | Some code => if decide (code = "40P01") then Panic "deadlock" else Ret tt
    | None => Ret tt
    end
  else Ret tt.

(** [errors.Is(err, s)] where [err] may be nil. *)
Definition IsOpt (e : option error) (s : sentinel) : bool :=
  match e with Some e' => Is e' s | None => false end.

Lemma Is_sentinel s s' : Is (Sentinel s) s' = bool_decide (s = s').
Proof. reflexivity. Qed.

Lemma Is_Persistent e s : Is (Persistent e) s = Is e s.
Proof. reflexivity. Qed.

#[export] Hint Rewrite Is_sentinel Is_Persistent : runkit.
