(* ===== verification/Stream.v ===== *)
(** * Event streams: envelopes, segments and what it means to deliver a stream

    The data that the event-stream packages exchange
    ([internal/eventstream/source/segment.go]), and the abstract specification
    that every part of the pipeline is proved against: a stream is a history of
    envelopes at strictly increasing offsets, a segment is faithful to a history
    if it holds exactly the matching events of its range, and delivery of a
    stream is a contiguous chain of faithful segments. *)

From S2P Require Import Prelude Errors.

(** A UUID ([uuidpb.UUID], two [uint64] halves), as a 128-bit number. *)
Abbreviation UUID := N (only parsing).

(** The [envelopepb.EventStreamPosition] extension of an envelope. *)
Record Position := mkPosition { pos_stream : UUID; pos_offset : Z }.

(** What [envelopepb.GetExtension] finds: nothing, something that can not be
    decoded, or a position. *)
Inductive Extension : Type :=
| NoPosition
| BadPosition (err : error)
| HasPosition (p : Position).

Record Header := mkHeader {
  hdr_correlation_id : UUID;
  hdr_handler_key : UUID;       (* source handler; zero if there is none *)
  hdr_instance_id : string;     (* empty if there is none *)
}.

Record Body := mkBody {
  body_message_id : UUID;
  body_type_id : UUID;
  body_idempotency_key : string;
  body_created_at : Z;
  body_scheduled_for : Z;
  body_data : string;
  body_position : Extension;
}.

Record Envelope := mkEnvelope { env_header : Header; env_body : Body }.

#[global] Instance Position_eq_dec : EqDecision Position.
Proof. solve_decision. Defined.
#[global] Instance Extension_eq_dec : EqDecision Extension.
Proof. solve_decision. Defined.
#[global] Instance Header_eq_dec : EqDecision Header.
Proof. solve_decision. Defined.
#[global] Instance Body_eq_dec : EqDecision Body.
Proof. solve_decision. Defined.
#[global] Instance Envelope_eq_dec : EqDecision Envelope.
Proof. solve_decision. Defined.

(** An event of the given stream, offset and type: for examples. *)
Definition event (sid : UUID) (o : Z) (ty : UUID) : Envelope :=
  mkEnvelope (mkHeader 0 0 "")
    (mkBody (Z.to_N o) ty "" 0 0 "" (HasPosition (mkPosition sid o))).

(** [env.GetBody().GetMessage().GetTypeId()]. *)
Definition type_of (e : Envelope) : UUID := body_type_id (env_body e).

(** [offsetOf], which panics for an envelope without a position. *)
Definition offsetOf (e : Envelope) : go Z :=
  match body_position (env_body e) with
  | HasPosition p => Ret (pos_offset p)
  | _ => Panic "envelope has no EventStreamPosition extension"
  end.

(** [envelopepb.SetExtension] on the body. *)
Definition set_position (p : Position) (e : Envelope) : Envelope :=
  let b := env_body e in
  mkEnvelope (env_header e)
    (mkBody (body_message_id b) (body_type_id b) (body_idempotency_key b)
       (body_created_at b) (body_scheduled_for b) (body_data b) (HasPosition p)).

(** A set of message types; [None] is Go's nil set, which means every type. *)
Abbreviation Types := (option (gset N)) (only parsing).

(** Whether a message type is one of the types. *)
Definition type_in (types : Types) (ty : UUID) : Prop :=
  match types with None => True | Some ts => ty ∈ ts end.

#[global] Instance type_in_dec types ty : Decision (type_in types ty).
Proof. unfold type_in. destruct types; apply _. Defined.

(** Whether an event is of one of the types. *)
Definition matches (types : Types) (e : Envelope) : Prop := type_in types (type_of e).

#[global] Instance matches_dec types e : Decision (matches types e).
Proof. apply _. Defined.

(** source.Segment: the half-open range [seg_begin, seg_end) of a stream. *)
Record Segment := mkSegment {
  seg_stream : UUID;
  seg_begin : Z;
  seg_end : Z;
  seg_envelopes : list Envelope;
}.

#[global] Instance Segment_eq_dec : EqDecision Segment.
Proof. solve_decision. Defined.

(** ** Histories *)

(** The offset of a positioned event, zero otherwise: for specifications. *)
Definition off (e : Envelope) : Z :=
  match body_position (env_body e) with HasPosition p => pos_offset p | _ => 0 end.

Definition positioned (sid : UUID) (e : Envelope) : Prop :=
  body_position (env_body e) = HasPosition (mkPosition sid (off e)).

(** The events of [l] belong to stream [sid] and lie, at strictly increasing
    offsets, within [lo, hi). *)
Fixpoint in_range (sid : UUID) (lo hi : Z) (l : list Envelope) : Prop :=
  match l with
  | [] => lo <= hi
  | e :: l' => positioned sid e /\ lo <= off e /\ in_range sid (off e + 1) hi l'
  end.

(** The events of a history within [lo, hi) that are of the given types. *)
Definition between (types : Types) (lo hi : Z) (h : list Envelope) : list Envelope :=
  filter (fun e => (lo <= off e < hi) /\ matches types e) h.

(** A segment holds exactly the matching events of its range. *)
Definition faithful (h : list Envelope) (types : Types) (seg : Segment) : Prop :=
  seg_begin seg <= seg_end seg /\
  seg_envelopes seg = between types (seg_begin seg) (seg_end seg) h.

(** Contiguous delivery of stream [sid] from offset [b] to offset [e]: every
    segment begins where the previous one ended and is faithful. *)
Inductive chain (sid : UUID) (h : list Envelope) (types : Types) :
    Z -> list Segment -> Z -> Prop :=
| chain_nil b : chain sid h types b [] b
| chain_cons b seg segs e :
    seg_stream seg = sid -> seg_begin seg = b -> faithful h types seg ->
    chain sid h types (seg_end seg) segs e ->
    chain sid h types b (seg :: segs) e.

#[export] Hint Constructors chain : runkit.

(** ** Lemmas on ranges *)

Lemma offsetOf_positioned sid e : positioned sid e -> offsetOf e = Ret (off e).
Proof. unfold positioned, offsetOf. intros ->. reflexivity. Qed.

Lemma in_range_le sid lo hi l : in_range sid lo hi l -> lo <= hi.
Proof.
  revert lo. induction l as [|e l IH]; cbn; intros lo H; [done|].
  destruct H as (_ & H1 & H2). apply IH in H2. lia.
Qed.

Lemma in_range_weaken sid lo hi lo' hi' l :
  in_range sid lo hi l -> lo' <= lo -> hi <= hi' -> in_range sid lo' hi' l.
Proof.
  revert lo lo'. induction l as [|e l IH]; cbn; intros lo lo' H Hl Hh; [lia|].
  destruct H as (? & ? & H). repeat split; try done; [lia|]. eapply IH; [done|lia|done].
Qed.

Lemma in_range_app sid lo mid hi l1 l2 :
  in_range sid lo mid l1 -> in_range sid mid hi l2 -> in_range sid lo hi (l1 ++ l2).
Proof.
  revert lo. induction l1 as [|e l1 IH]; cbn; intros lo H1 H2.
  - by eapply in_range_weaken.
  - destruct H1 as (? & ? & H1). eauto.
Qed.

Lemma in_range_app_inv sid lo hi l1 l2 :
  in_range sid lo hi (l1 ++ l2) ->
  exists mid, in_range sid lo mid l1 /\ in_range sid mid hi l2.
Proof.
  revert lo. induction l1 as [|e l1 IH]; cbn; intros lo H.
  - exists lo. split; [lia|done].
  - destruct H as (? & ? & H). destruct (IH _ H) as (mid & ? & ?). eauto 10.
Qed.

Lemma in_range_app_l sid lo hi l1 l2 : in_range sid lo hi (l1 ++ l2) -> in_range sid lo hi l1.
Proof.
  intros (mid & H1 & H2)%in_range_app_inv. pose proof (in_range_le _ _ _ _ H2).
  by eapply in_range_weaken.
Qed.

Lemma in_range_app_r sid lo hi l1 l2 : in_range sid lo hi (l1 ++ l2) -> in_range sid lo hi l2.
Proof.
  intros (mid & H1 & H2)%in_range_app_inv. pose proof (in_range_le _ _ _ _ H1).
  by eapply in_range_weaken.
Qed.

Lemma in_range_elem sid lo hi l e :
  in_range sid lo hi l -> e ∈ l -> positioned sid e /\ lo <= off e < hi.
Proof.
  intros H (l1 & l2 & ->)%list_elem_of_split.
  apply in_range_app_inv in H as (mid & H1 & Hp & H2 & H3).
  apply in_range_le in H1, H3. split; [done|lia].
Qed.

Lemma in_range_filter sid lo hi l P {dec : ∀ x : Envelope, Decision (P x)} :
  in_range sid lo hi l -> in_range sid lo hi (filter P l).
Proof.
  revert lo. induction l as [|e l IH]; cbn -[filter]; intros lo H; [done|].
  destruct H as (? & ? & H). rewrite filter_cons. case_decide; cbn.
  - eauto.
  - eapply in_range_weaken; [by apply IH|lia|done].
Qed.

(** Everything after a given element is beyond it. *)
Lemma in_range_after sid lo hi l n x :
  in_range sid lo hi l -> l !! n = Some x ->
  in_range sid lo (off x + 1) (take (S n) l) /\ in_range sid (off x + 1) hi (drop (S n) l).
Proof.
  intros H Hx. rewrite (take_S_r _ _ _ Hx).
  rewrite (split_after _ _ _ Hx) in H. apply in_range_app_inv in H as (mid & H1 & H2).
  apply in_range_app_inv in H1 as (m1 & H1 & Hp & ? & H3). cbn in H3.
  split; [|eapply in_range_weaken; [done|lia|done]].
  eapply in_range_app; [done|]. cbn. eauto with lia.
Qed.

Lemma filter_all {A} (P : A -> Prop) {dec : ∀ x, Decision (P x)} (l : list A) :
  (∀ x, x ∈ l -> P x) -> filter P l = l.
Proof.
  induction l as [|x l IH]; intros H; [done|].
  rewrite filter_cons_True by (apply H; left). by rewrite IH by (intros; apply H; by right).
Qed.

Lemma filter_none {A} (P : A -> Prop) {dec : ∀ x, Decision (P x)} (l : list A) :
  (∀ x, x ∈ l -> ~ P x) -> filter P l = [].
Proof.
  induction l as [|x l IH]; intros H; [done|].
  rewrite filter_cons_False by (apply H; left). apply IH. intros. apply H. by right.
Qed.

Lemma filter_ext_elem {A} (P Q : A -> Prop) {decP : ∀ x, Decision (P x)} {decQ : ∀ x, Decision (Q x)}
    (l : list A) : (∀ x, x ∈ l -> P x <-> Q x) -> filter P l = filter Q l.
Proof.
  induction l as [|x l IH]; intros H; [done|].
  rewrite !filter_cons, IH by (intros; apply H; by right).
  pose proof (H x ltac:(left)). repeat case_decide; tauto.
Qed.

(** Dropping the events up to and including index [n] leaves those beyond it. *)
Lemma filter_after sid lo hi l n x :
  in_range sid lo hi l -> l !! n = Some x ->
  filter (fun e => off x + 1 <= off e) l = drop (S n) l.
Proof.
  intros H Hx. destruct (in_range_after _ _ _ _ _ _ H Hx) as [H1 H2].
  rewrite <- (take_drop (S n) l) at 1. rewrite filter_app.
  rewrite filter_none, filter_all; [done| |].
  - intros e He. by apply (in_range_elem _ _ _ _ _ H2).
  - intros e He. pose proof (in_range_elem _ _ _ _ _ H1 He). lia.
Qed.

(** ** Lemmas on [between], faithful segments and chains *)

Lemma between_empty types lo hi h : hi <= lo -> between types lo hi h = [].
Proof. intros. apply filter_none. intros. lia. Qed.

Lemma between_in_range sid types lo hi b e h :
  in_range sid b e h -> lo <= hi -> in_range sid lo hi (between types lo hi h).
Proof.
  revert b lo. induction h as [|x h IH]; cbn -[filter between]; intros b lo H Hlo; [done|].
  destruct H as (Hp & Hx & H). unfold between. rewrite filter_cons. case_decide as Hd; cbn.
  - split_and!; [done|lia|].
    rewrite (filter_ext_elem _ (fun e => (off x + 1 <= off e < hi) /\ matches types e)).
    + apply (IH (off x + 1)); [done|lia].
    + intros y Hy. pose proof (in_range_elem _ _ _ _ _ H Hy). intuition lia.
  - eapply IH; [|done]. done.
Qed.

(** Close a goal by reflexivity, or by a range test that can not have failed. *)
Ltac range_contra :=
  first [ done
        | match goal with H : ~ (_ /\ _) |- _ => exfalso; apply H; split; [lia|tauto] end
        | exfalso; lia ].

(** Adjacent ranges of an ordered history concatenate. *)
Lemma between_app sid types b e h lo mid hi :
  in_range sid b e h -> lo <= mid <= hi ->
  between types lo mid h ++ between types mid hi h = between types lo hi h.
Proof.
  revert b. induction h as [|x h IH]; intros b H Hm; [done|]. cbn in H.
  destruct H as (Hp & Hx & H). specialize (IH _ H Hm). unfold between in *.
  rewrite !filter_cons.
  destruct (decide (mid <= off x)) as [Hge|Hlt].
  - rewrite (decide_False (P:=(lo <= off x < mid) /\ _)) by lia.
    assert (Hn : filter (fun e => (lo <= off e < mid) /\ matches types e) h = []).
    { apply filter_none. intros y Hy. pose proof (in_range_elem _ _ _ _ _ H Hy). lia. }
    rewrite Hn in *. cbn in *. rewrite IH. repeat case_decide; range_contra.
  - rewrite (decide_False (P:=(mid <= off x < hi) /\ _)) by lia.
    repeat case_decide; cbn; rewrite <- ?IH; range_contra.
Qed.

Lemma between_between types lo hi lo' hi' h :
  lo <= lo' -> hi' <= hi ->
  filter (fun e => (lo' <= off e < hi') /\ matches types e) (between None lo hi h)
  = between types lo' hi' h.
Proof.
  intros. unfold between. rewrite list_filter_filter.
  apply filter_ext_elem. cbn. intuition lia.
Qed.

(** A range within a range. *)
Lemma between_sub types lo hi lo' hi' h :
  lo <= lo' -> hi' <= hi ->
  filter (fun e => lo' <= off e < hi') (between types lo hi h) = between types lo' hi' h.
Proof.
  intros. unfold between. rewrite list_filter_filter. apply filter_ext_elem. intuition lia.
Qed.

(** The first event of a range, and what is after it. *)
Lemma between_head sid types b e_h lo hi h e es :
  in_range sid b e_h h -> lo <= hi -> between types lo hi h = e :: es ->
  lo <= off e < hi /\ positioned sid e /\ e ∈ h /\ matches types e /\
  es = between types (off e + 1) hi h /\
  forall lo', lo <= lo' <= off e -> between types lo' (off e + 1) h = [e].
Proof.
  intros Hh Hle Hb. pose proof (between_in_range _ types lo hi _ _ _ Hh Hle) as Hr.
  assert (He : e ∈ between types lo hi h) by (rewrite Hb; left).
  unfold between in He. apply list_elem_of_filter in He as [[He Hm] Hin].
  rewrite Hb in Hr. cbn in Hr. destruct Hr as (Hp & _ & Hr).
  split_and!; try done; try lia.
  - rewrite <- (between_sub types lo hi) by lia. rewrite Hb, filter_cons, decide_False by lia.
    symmetry. apply filter_all. intros x Hx. pose proof (in_range_elem _ _ _ _ _ Hr Hx). lia.
  - intros lo' Hlo. rewrite <- (between_sub types lo hi) by lia.
    rewrite Hb, filter_cons, decide_True by lia. f_equal. apply filter_none.
    intros x Hx. pose proof (in_range_elem _ _ _ _ _ Hr Hx). lia.
Qed.

(** Appending events beyond a range does not change the range. *)
Lemma between_extend sid types lo hi b e h h' :
  in_range sid b e h' -> hi <= b -> between types lo hi (h ++ h') = between types lo hi h.
Proof.
  intros H Hb. unfold between. rewrite filter_app, (filter_none _ h'), app_nil_r; [done|].
  intros x Hx. pose proof (in_range_elem _ _ _ _ _ H Hx). lia.
Qed.

(** The first events of a range make up the range that ends after the last of
    them. *)
Lemma between_take sid types lo hi b e h n x :
  in_range sid b e h -> lo <= hi -> between types lo hi h !! n = Some x ->
  between types lo (off x + 1) h = take (S n) (between types lo hi h).
Proof.
  intros Hh Hlo Hx. pose proof (between_in_range _ types lo hi _ _ _ Hh Hlo) as Hb.
  destruct (in_range_after _ _ _ _ _ _ Hb Hx) as [H1 H2].
  assert (Hxr : lo <= off x < hi).
  { apply (in_range_elem _ _ _ _ _ Hb). by eapply list_elem_of_lookup_2. }
  pose proof (between_app _ types _ _ _ lo (off x + 1) hi Hh ltac:(lia)) as Happ.
  assert (Hk : filter (fun y => off y < off x + 1) (between types lo hi h)
               = between types lo (off x + 1) h).
  { rewrite <- Happ, filter_app, filter_all, filter_none; [by rewrite app_nil_r| |].
    - intros y Hy. apply list_elem_of_filter in Hy. lia.
    - intros y Hy. apply list_elem_of_filter in Hy. lia. }
  rewrite <- Hk, <- (take_drop (S n) (between types lo hi h)) at 1.
  rewrite filter_app, filter_all, filter_none; [by rewrite app_nil_r| |].
  - intros y Hy. pose proof (in_range_elem _ _ _ _ _ H2 Hy). lia.
  - intros y Hy. pose proof (in_range_elem _ _ _ _ _ H1 Hy). lia.
Qed.

Lemma chain_le sid h types b segs e : chain sid h types b segs e -> b <= e.
Proof. induction 1 as [|b seg segs e ? ? [? ?]]; lia. Qed.

Lemma chain_app sid h types b segs1 m segs2 e :
  chain sid h types b segs1 m -> chain sid h types m segs2 e ->
  chain sid h types b (segs1 ++ segs2) e.
Proof. induction 1; cbn; eauto with runkit. Qed.

Lemma chain_snoc sid h types b segs m seg :
  chain sid h types b segs m -> seg_stream seg = sid -> seg_begin seg = m ->
  faithful h types seg -> chain sid h types b (segs ++ [seg]) (seg_end seg).
Proof. intros. eapply chain_app; eauto with runkit. Qed.

(** The segment that covers a whole range. *)
Definition whole (sid : UUID) (h : list Envelope) (types : Types) (b e : Z) : Segment :=
  mkSegment sid b e (between types b e h).

Lemma chain_whole sid h types b e : b <= e -> chain sid h types b [whole sid h types b e] e.
Proof. intros. apply (chain_cons _ _ _ b (whole sid h types b e)); by repeat constructor. Qed.

(** What a chain delivers: every matching event of its range, once, in order. *)
Lemma chain_events sid h types b segs e lo hi :
  in_range sid lo hi h -> chain sid h types b segs e ->
  concat (seg_envelopes <$> segs) = between types b e h.
Proof.
  intros Hh. induction 1 as [b|b seg segs e Hs <- [Hle Hf] Hc IH]; cbn.
  - by rewrite between_empty.
  - rewrite IH, Hf. eapply between_app; [done|]. apply chain_le in Hc. lia.
Qed.

Lemma faithful_extend sid types h h' b e seg :
  in_range sid b e h' -> seg_end seg <= b -> faithful h types seg ->
  faithful (h ++ h') types seg.
Proof. intros H Hb [Hle Hf]. split; [done|]. by rewrite (between_extend sid _ _ _ b e). Qed.

Lemma chain_extend sid types h h' lo hi b segs e :
  in_range sid lo hi h' -> e <= lo -> chain sid h types b segs e ->
  chain sid (h ++ h') types b segs e.
Proof.
  intros Hh. intros He. induction 1; [constructor|].
  pose proof (chain_le _ _ _ _ _ _ ltac:(eassumption)).
  constructor; eauto using faithful_extend with lia.
Qed.

Lemma chain_app_inv sid h types b segs1 segs2 e :
  chain sid h types b (segs1 ++ segs2) e ->
  exists m, chain sid h types b segs1 m /\ chain sid h types m segs2 e.
Proof.
  revert b. induction segs1 as [|seg segs1 IH]; cbn; intros b Hc.
  - exists b. split; [constructor|done].
  - inversion Hc; subst. destruct (IH _ ltac:(eassumption)) as (m & ? & ?).
    exists m. split; [by constructor|done].
Qed.

(** The events of a range, picked out of a longer history. *)
Lemma between_exact sid lo a b e pre cur post :
  in_range sid lo a pre -> in_range sid a b cur -> in_range sid b e post ->
  between None a b (pre ++ cur ++ post) = cur.
Proof.
  intros H1 H2 H3. unfold between. rewrite !filter_app.
  rewrite (filter_none _ pre), (filter_all _ cur), (filter_none _ post), app_nil_r; [done| | |].
  - intros x Hx. pose proof (in_range_elem _ _ _ _ _ H3 Hx). lia.
  - intros x Hx. pose proof (in_range_elem _ _ _ _ _ H2 Hx). split; [lia|done].
  - intros x Hx. pose proof (in_range_elem _ _ _ _ _ H1 Hx). lia.
Qed.

(** A chain through a segment's own events is a chain through the history that
    the segment is faithful to. *)
Lemma chain_within sid h types lo hi b segs e :
  chain sid (between types lo hi h) None b segs e -> lo <= b -> e <= hi ->
  chain sid h types b segs e.
Proof.
  intros Hc. induction Hc as [b|b seg segs e Hs <- [Hle Hf] Hc IH]; intros Hlo Hhi; [constructor|].
  apply chain_le in Hc as Hse. constructor; [done|done| |apply IH; lia].
  split; [done|]. rewrite Hf. unfold between. rewrite list_filter_filter.
  apply filter_ext_elem. intros x _. unfold matches at 1. cbn. intuition lia.
Qed.

Lemma chain_cons_inv sid h types b seg segs e :
  chain sid h types b (seg :: segs) e ->
  seg_stream seg = sid /\ seg_begin seg = b /\ faithful h types seg /\
  chain sid h types (seg_end seg) segs e.
Proof. inversion 1; by subst. Qed.

(** ** The segments of one stream among many *)

Definition of_stream (sid : UUID) (segs : list Segment) : list Segment :=
  filter (fun seg => seg_stream seg = sid) segs.

Lemma of_stream_app sid l1 l2 : of_stream sid (l1 ++ l2) = of_stream sid l1 ++ of_stream sid l2.
Proof. apply filter_app. Qed.

Lemma of_stream_one sid seg :
  of_stream sid [seg] = if decide (seg_stream seg = sid) then [seg] else [].
Proof. done. Qed.
