(* ===== verification/Source.v ===== *)
(** * The contract of an event-stream source

    Models the interface of [internal/eventstream/source/source.go].  A source
    delivers segments to a callback [fn], a Go closure with its own state: it is
    modelled as a state transformer that may return an error, which stops the
    delivery.  [serves] states what [Source.Read] promises; the in-memory, local
    and remote sources are proved to satisfy it, and the feeds of the catalog are
    proved correct against it. *)

From S2P Require Import Prelude Errors Stream.

(** The callback given to [Source.Read] and [Source.Watch]. *)
Definition callback (S : Type) : Type := S -> Segment -> S * option error.

(** Calls [fn] with each segment, stopping at the first error. *)
Fixpoint deliver {S} (fn : callback S) (s : S) (segs : list Segment) : S * option error :=
  match segs with
  | [] => (s, None)
  | seg :: segs' =>
      match fn s seg with
      | (s', Some e) => (s', Some e)
      | (s', None) => deliver fn s' segs'
      end
  end.

(** Returns [err] if the delivery itself did not fail. *)
Definition finish {S} (r : S * option error) (err : option error) : S * option error :=
  match r with
  | (s, Some e) => (s, Some e)
  | (s, None) => (s, err)
  end.

(** [panicIfEmpty]. *)
Definition panicIfEmpty (types : Types) : go unit :=
  match types with
  | Some ts => if decide (ts = ∅) then Panic "message types must not be empty" else Ret tt
  | None => Ret tt
  end.

(** A call to [Source.Read] for a given stream, types and offset. *)
Definition Reader : Type := forall S, callback S -> S -> S * option error.

(** [Source.Read] delivers a contiguous chain of faithful segments, beginning at
    the requested offset, and returns the callback's error unchanged if it
    returns one, or else an outcome of its own: nil at the end of the stream, or
    an error. *)
Definition serves (sid : UUID) (h : list Envelope) (types : Types) (begin : Z)
    (r : Reader) : Prop :=
  forall S (fn : callback S) (s : S), exists segs e err,
    chain sid h types begin segs e /\ r S fn s = finish (deliver fn s segs) err.

(** A call to [Source.Read] that also reaches [end_], the end of the stream,
    unless the callback stops it. *)
Definition serves_until (sid : UUID) (h : list Envelope) (types : Types) (begin end_ : Z)
    (r : Reader) : Prop :=
  forall S (fn : callback S) (s : S), exists segs,
    chain sid h types begin segs end_ /\ r S fn s = deliver fn s segs.

(** A callback that records what it is given and never fails. *)
Definition recorder : callback (list Segment) := fun l seg => (l ++ [seg], None).

Lemma deliver_recorder segs l : deliver recorder l segs = (l ++ segs, None).
Proof.
  revert l. induction segs as [|seg segs IH]; intros l; cbn; [by rewrite app_nil_r|].
  by rewrite IH, <- app_assoc.
Qed.

Lemma finish_None {S} (r : S * option error) : finish r None = r.
Proof. by destruct r as [s [e|]]. Qed.

Lemma deliver_cons_ok {S} (fn : callback S) s s' seg segs err :
  fn s seg = (s', None) ->
  finish (deliver fn s (seg :: segs)) err = finish (deliver fn s' segs) err.
Proof. intros H. cbn. by rewrite H. Qed.

Lemma deliver_cons_err {S} (fn : callback S) s s' e seg segs err :
  fn s seg = (s', Some e) -> finish (deliver fn s (seg :: segs)) err = (s', Some e).
Proof. intros H. cbn. by rewrite H. Qed.

Lemma deliver_app {S} (fn : callback S) s segs1 segs2 :
  deliver fn s (segs1 ++ segs2) =
    match deliver fn s segs1 with
    | (s', None) => deliver fn s' segs2
    | r => r
    end.
Proof.
  revert s. induction segs1 as [|seg segs1 IH]; intros s; cbn; [done|].
  destruct (fn s seg) as [s' [e|]]; [done|apply IH].
Qed.

(** Delivery to a consumer whose checkpoint is then [cp]: [fn] has accepted a
    contiguous chain of faithful segments from [begin] to [cp], and, if the
    delivery ended because [fn] failed, it failed on the segment at [cp], with the
    error returned. *)
Definition progressed {S} (sid : UUID) (h : list Envelope) (types : Types) (begin : Z)
    (fn : callback S) (s s' : S) (cp : Z) (err : option error) : Prop :=
  exists segs s1, chain sid h types begin segs cp /\ deliver fn s segs = (s1, None) /\
    (s1 = s' \/ exists seg e, err = Some e /\ fn s1 seg = (s', Some e) /\
       seg_stream seg = sid /\ seg_begin seg = cp /\ faithful h types seg).

Lemma progressed_nil {S} sid h types begin (fn : callback S) s err :
  progressed sid h types begin fn s s begin err.
Proof. exists [], s. split_and!; [constructor|done|by left]. Qed.

(** [fn] accepts a segment, and then the delivery goes on. *)
Lemma progressed_cons {S} sid h types (fn : callback S) s s1 s' seg cp err :
  seg_stream seg = sid -> faithful h types seg -> fn s seg = (s1, None) ->
  progressed sid h types (seg_end seg) fn s1 s' cp err ->
  progressed sid h types (seg_begin seg) fn s s' cp err.
Proof.
  intros Hs Hf Hfn (segs & s2 & Hc & Hd & Hr). exists (seg :: segs), s2.
  split_and!; [by constructor| |done]. cbn. by rewrite Hfn.
Qed.

(** [fn] fails on a segment. *)
Lemma progressed_fail {S} sid h types (fn : callback S) s s' seg e :
  seg_stream seg = sid -> faithful h types seg -> fn s seg = (s', Some e) ->
  progressed sid h types (seg_begin seg) fn s s' (seg_begin seg) (Some e).
Proof.
  intros Hs Hf Hfn. exists [], s. split_and!; [constructor|done|]. right. by exists seg, e.
Qed.

(** A delivery that ended without an error of [fn], followed by another. *)
Lemma progressed_trans {S} sid h types begin (fn : callback S) s s1 s' mid cp err :
  progressed sid h types begin fn s s1 mid None ->
  progressed sid h types mid fn s1 s' cp err ->
  progressed sid h types begin fn s s' cp err.
Proof.
  intros (segs1 & t1 & Hc1 & Hd1 & [->|(? & ? & ? & _)]) (segs2 & t2 & Hc2 & Hd2 & Hr); [|done].
  exists (segs1 ++ segs2), t2. split_and!; [by eapply chain_app| |done].
  by rewrite deliver_app, Hd1.
Qed.

(** The error of a delivery that did not fail in [fn] does not matter. *)
Lemma progressed_None {S} sid h types begin (fn : callback S) s s' cp err :
  progressed sid h types begin fn s s' cp None -> progressed sid h types begin fn s s' cp err.
Proof. intros (segs & s1 & ? & ? & [->|(? & ? & ? & _)]); [|done]. exists segs, s'. eauto. Qed.
