(* ===== verification/Cache.v ===== *)
(** * The cache of a stream's most recent events

    Models [internal/eventstream/internal/cache]: the cached segment, the
    writer's operations [New], [Reset] and [Append], and the readers' [Read]
    with the binary search of Go's [sort.Search].  The observable that holds the
    segment is modelled as the segment itself; readers see whole segments. *)

From S2P Require Import Prelude Errors Stream.

(** ** Data *)

(** cache.Segment: an immutable snapshot of what the cache holds. *)
Record CSegment := mkCSegment {
  cs_begin : Z;
  cs_end : Z;
  cs_events : list Envelope;
}.

(** cache.Cache. *)
Record Cache := mkCache { capacity : Z; segment : CSegment }.

Inductive Relation : Type := Before | Within | After.

#[global] Instance Relation_eq_dec : EqDecision Relation.
Proof. solve_decision. Defined.

(** ** Operations *)

(** Empties the cache, so that its segment begins and ends at [begin]. *)
Definition Reset (c : Cache) (begin : Z) : Cache :=
  mkCache (capacity c) (mkCSegment begin begin []).

Definition New (cap begin : Z) : go Cache :=
  if decide (cap <= 0) then Panic "capacity must be positive"
  else Ret (Reset (mkCache cap (mkCSegment 0 0 [])) begin).

(** Adds the events in the range [begin, end_) of the stream. *)
Definition Append (c : Cache) (begin end_ : Z) (envelopes : list Envelope) : go Cache :=
  let prev := segment c in
  if decide (begin <> cs_end prev) then
    Panic "range does not begin where the cache ends"
  else
    '(next, envelopes) ←
      (if decide (len envelopes = 0) then
         Ret (mkCSegment (cs_begin prev) end_ (cs_events prev), envelopes)
       else
         let evict := len envelopes - capacity c in
         if decide (evict > 0) then
           e ← index envelopes (evict - 1);
           o ← offsetOf e;
           rest ← slice_from envelopes evict;
           Ret (mkCSegment (u64 (o + 1)) end_ [], rest)
         else
           let evict := len (cs_events prev) + len envelopes - capacity c in
           if decide (evict > 0) then
             e ← index (cs_events prev) (evict - 1);
             o ← offsetOf e;
             kept ← slice_from (cs_events prev) evict;
             Ret (mkCSegment (u64 (o + 1)) end_ kept, envelopes)
           else
             Ret (mkCSegment (cs_begin prev) end_ (cs_events prev), envelopes));
    Ret (mkCache (capacity c)
           (mkCSegment (cs_begin next) (cs_end next) (cs_events next ++ envelopes))).

(** Go's [sort.Search]: the least index in [i, j) that satisfies [f], or [j]. *)
Fixpoint Search_loop (fuel : nat) (f : Z -> go bool) (i j : Z) : go Z :=
  match fuel with
  | O => Ret i
  | S fuel =>
      if decide (i < j) then
        let h := (i + j) / 2 in
        b ← f h;
        if (b : bool) then Search_loop fuel f i h
        else Search_loop fuel f (h + 1) j
      else Ret i
  end.

(** Each iteration at least halves the interval, so [n] iterations suffice. *)
Definition Search (n : Z) (f : Z -> go bool) : go Z :=
  Search_loop (Z.to_nat n) f 0 n.

(** Returns the events in the segment from the given checkpoint. *)
Definition Read (s : CSegment) (cp : Z) (types : gset UUID)
    : go (list Envelope * Relation) :=
  if decide (cp < cs_begin s) then Ret ([], Before)
  else if decide (cp >= cs_end s) then Ret ([], After)
  else
    first ← Search (len (cs_events s))
              (fun i => e ← index (cs_events s) i; o ← offsetOf e; Ret (bool_decide (o >= cp)));
    rest ← slice_from (cs_events s) first;
    Ret (filter (fun e => type_of e ∈ types) rest, Within).

(** ** Invariant and abstraction

    [holds sid h c]: the cache represents a suffix of the history [h], the
    events appended since the cache was created or last reset. *)

Definition cache_wf (sid : UUID) (c : Cache) : Prop :=
  0 < capacity c /\
  len (cs_events (segment c)) <= capacity c /\
  0 <= cs_begin (segment c) /\
  cs_end (segment c) < u64_modulus /\
  in_range sid (cs_begin (segment c)) (cs_end (segment c)) (cs_events (segment c)).

Definition holds (sid : UUID) (h : list Envelope) (c : Cache) : Prop :=
  cache_wf sid c /\
  cs_events (segment c) = between None (cs_begin (segment c)) (cs_end (segment c)) h.

(** ** The binary search *)

Lemma Search_loop_spec (P : Z -> bool) (f : Z -> go bool) n :
  (∀ k, 0 <= k < n -> f k = Ret (P k)) ->
  (∀ k1 k2, 0 <= k1 <= k2 -> k2 < n -> P k1 = true -> P k2 = true) ->
  ∀ fuel i j, 0 <= i <= j -> j <= n -> j - i <= Z.of_nat fuel ->
  (∀ k, 0 <= k < i -> P k = false) -> (∀ k, j <= k < n -> P k = true) ->
  exists r, Search_loop fuel f i j = Ret r /\ i <= r <= j /\
    (∀ k, 0 <= k < r -> P k = false) /\ (∀ k, r <= k < n -> P k = true).
Proof.
  intros Hf Hmono. induction fuel as [|fuel IH]; intros i j Hij Hj Hfuel Hlo Hhi.
  - exists i. replace j with i in * by lia. split_and!; try done; lia.
  - cbn [Search_loop]. case_decide as Hlt; last first.
    { exists i. replace j with i in * by lia. split_and!; try done; lia. }
    pose proof (Z.div_mod (i + j) 2 ltac:(lia)).
    pose proof (Z.mod_pos_bound (i + j) 2 ltac:(lia)).
    set (m := (i + j) / 2) in *.
    rewrite Hf by lia. cbn. destruct (P m) eqn:HP.
    + destruct (IH i m) as (r & -> & ? & ? & ?); try lia; try done.
      { intros k Hk. destruct (decide (j <= k)); [apply Hhi; lia|]. apply (Hmono m); [lia|lia|done]. }
      exists r. split_and!; try done; lia.
    + destruct (IH (m + 1) j) as (r & -> & ? & ? & ?); try lia; try done.
      { intros k Hk. destruct (decide (k < i)); [apply Hlo; lia|].
        destruct (P k) eqn:HPk; [|done]. rewrite (Hmono k m) in HP; [done|lia|lia|done]. }
      exists r. split_and!; try done; lia.
Qed.

(** The search over the cached offsets finds where the suffix at or beyond [cp]
    begins. *)
Lemma Search_offsets sid lo hi evs cp :
  in_range sid lo hi evs ->
  exists r, Search (len evs)
      (fun i => e ← index evs i; o ← offsetOf e; Ret (bool_decide (o >= cp))) = Ret r /\
    0 <= r <= len evs /\ drop (Z.to_nat r) evs = filter (fun e => cp <= off e) evs.
Proof.
  intros Hin.
  set (P := fun k : Z => match evs !! Z.to_nat k with
                         | Some e => bool_decide (off e >= cp) | None => false end).
  destruct (Search_loop_spec P
      (fun i => e ← index evs i; o ← offsetOf e; Ret (bool_decide (o >= cp))) (len evs))
    with (fuel := Z.to_nat (len evs)) (i := 0) (j := len evs)
    as (r & Hr & Hrange & Hlo & Hhi); try len.
  - intros k Hk. destruct (index_in_range evs k Hk) as (e & Hix & He). unfold P.
    rewrite Hix, He. cbn. apply list_elem_of_lookup_2 in He.
    rewrite (offsetOf_positioned sid) by by apply (in_range_elem _ _ _ _ _ Hin). done.
  - intros k1 k2 Hk1 Hk2. unfold P.
    destruct (evs !! Z.to_nat k1) as [e1|] eqn:H1; [|done].
    destruct (lookup_lt_is_Some_2 evs (Z.to_nat k2)) as [e2 H2]; [len|]. rewrite H2.
    destruct (decide (k1 = k2)) as [->|Hne]; [by simplify_eq|].
    rewrite !bool_decide_eq_true. intros.
    destruct (in_range_after _ _ _ _ _ _ Hin H1) as [_ Ha].
    assert (He2 : e2 ∈ drop (S (Z.to_nat k1)) evs).
    { apply (list_elem_of_lookup_2 _ (Z.to_nat k2 - S (Z.to_nat k1))).
      rewrite lookup_drop. rewrite <- H2. f_equal. lia. }
    pose proof (in_range_elem _ _ _ _ _ Ha He2). lia.
  - exists r. split_and!; [done|lia|lia|].
    rewrite <- (take_drop (Z.to_nat r) evs) at 2. rewrite filter_app.
    rewrite (filter_none _ (take _ _)), filter_all; [done| |].
    + intros e (k & He)%list_elem_of_lookup. rewrite lookup_drop in He.
      pose proof (lookup_lt_Some _ _ _ He).
      specialize (Hhi (Z.of_nat (Z.to_nat r + k)) ltac:(len)). unfold P in Hhi.
      rewrite Nat2Z.id, He in Hhi. apply bool_decide_eq_true in Hhi. lia.
    + intros e (k & He)%list_elem_of_lookup. apply lookup_take_Some in He as [He Hk].
      specialize (Hlo (Z.of_nat k) ltac:(lia)). unfold P in Hlo.
      rewrite Nat2Z.id, He in Hlo. apply bool_decide_eq_false in Hlo. lia.
Qed.

(** ** [Append] against a reference

    The code distinguishes four cases to avoid copying; they all keep the
    newest [capacity] events of everything held and appended. *)

Definition append_reference (c : Cache) (end_ : Z) (envelopes : list Envelope) : Cache :=
  let all := cs_events (segment c) ++ envelopes in
  let excess := (length all - Z.to_nat (capacity c))%nat in
  let begin :=
    match excess with
    | O => cs_begin (segment c)
    | S n => match all !! n with Some e => off e + 1 | None => cs_begin (segment c) end
    end in
  mkCache (capacity c) (mkCSegment begin end_ (drop excess all)).

Section append.
Context (sid : UUID) (c : Cache) (end_ : Z) (envelopes : list Envelope).
Context (Hwf : cache_wf sid c) (Hend : end_ < u64_modulus).
Context (Hnew : in_range sid (cs_end (segment c)) end_ envelopes).

Let all := cs_events (segment c) ++ envelopes.

Lemma all_in_range : in_range sid (cs_begin (segment c)) end_ all.
Proof using Hwf Hnew. destruct Hwf as (_ & _ & _ & _ & H). by eapply in_range_app. Qed.

(** The offset after a held or appended event is not truncated. *)
Lemma next_offset_u64 x : x ∈ all -> positioned sid x /\ u64 (off x + 1) = off x + 1.
Proof using Hwf Hend Hnew.
  intros Hx. pose proof (in_range_elem _ _ _ _ _ all_in_range Hx) as [Hp ?].
  destruct Hwf as (_ & _ & ? & _). split; [done|]. apply u64_id. unfold is_u64. lia.
Qed.

(** Evicting the first [S n] of everything, when they are the first [S n] of
    one of the two lists. *)
Lemma evict_from l n x :
  l !! n = Some x -> x ∈ all ->
  (e ← index l (Z.of_nat (S n) - 1); o ← offsetOf e; rest ← slice_from l (Z.of_nat (S n));
   Ret (u64 (o + 1), rest)) = Ret (off x + 1, drop (S n) l).
Proof using Hwf Hend Hnew.
  intros Hx Hall. destruct (next_offset_u64 x Hall) as [Hp Hu].
  rewrite (index_Some _ _ x) by (try lia; rewrite <- Hx; f_equal; lia). cbn -[Z.of_nat].
  rewrite (offsetOf_positioned _ _ Hp). cbn -[Z.of_nat].
  rewrite slice_from_in_range by (apply lookup_lt_Some in Hx; len). cbn -[Z.of_nat].
  by rewrite Hu, Nat2Z.id.
Qed.

Ltac evict_case Hev :=
  destruct (index _ _); cbn in *; [|done];
  destruct (offsetOf _); cbn in *; [|done];
  destruct (slice_from _ _); cbn in *; [|done];
  simplify_eq; rewrite Hev.

Lemma Append_eq_reference :
  Append c (cs_end (segment c)) end_ envelopes = Ret (append_reference c end_ envelopes).
Proof using Hwf Hend Hnew.
  pose proof Hwf as (Hcap & Hlen & _ & _ & Hin).
  unfold Append, append_reference. rewrite (decide_False (P:=_ <> _)) by tauto.
  pose proof (length_app (cs_events (segment c)) envelopes) as Hall.
  set (excess := (length (cs_events (segment c) ++ envelopes) - _)%nat).
  case_decide as Hempty; [|case_decide as Hbig; [|case_decide as Hover]].
  - replace excess with O by (unfold excess; len). cbn. done.
  - destruct (Z.to_nat (len envelopes - capacity c)) as [|n] eqn:Hn; [len|].
    replace (len envelopes - capacity c) with (Z.of_nat (S n)) by lia.
    destruct (lookup_lt_is_Some_2 envelopes n) as [x Hx]; [len|].
    assert (Hxall : x ∈ all) by (apply elem_of_app; right; by eapply list_elem_of_lookup_2).
    pose proof (evict_from _ _ _ Hx Hxall) as Hev.
    assert (Hexc : excess = S (length (cs_events (segment c)) + n)) by (unfold excess; len).
    rewrite Hexc, lookup_app_r, drop_app_ge by lia.
    replace (_ + n - _)%nat with n by lia. rewrite Hx.
    replace (S (_ + n) - _)%nat with (S n) by lia.
    by evict_case Hev.
  - destruct (Z.to_nat (len (cs_events (segment c)) + len envelopes - capacity c))
      as [|n] eqn:Hn; [len|].
    replace (len (cs_events (segment c)) + len envelopes - capacity c)
      with (Z.of_nat (S n)) by lia.
    destruct (lookup_lt_is_Some_2 (cs_events (segment c)) n) as [x Hx]; [len|].
    assert (Hxall : x ∈ all) by (apply elem_of_app; left; by eapply list_elem_of_lookup_2).
    pose proof (evict_from _ _ _ Hx Hxall) as Hev.
    assert (Hexc : excess = S n) by (unfold excess; len).
    rewrite Hexc, lookup_app_l, Hx, drop_app_le by (apply lookup_lt_Some in Hx; lia).
    by evict_case Hev.
  - replace excess with O by (unfold excess; len). cbn. done.
Qed.

End append.

(** The reference preserves the representation of the history. *)
Lemma append_reference_holds sid h lo c end_ envelopes :
  holds sid h c -> in_range sid lo (cs_end (segment c)) h -> lo <= cs_begin (segment c) ->
  end_ < u64_modulus -> in_range sid (cs_end (segment c)) end_ envelopes ->
  holds sid (h ++ envelopes) (append_reference c end_ envelopes) /\
  cs_begin (segment c) <= cs_begin (segment (append_reference c end_ envelopes)).
Proof.
  intros [Hwf Hev] Hh Hlo Hend Hnew.
  pose proof (all_in_range _ _ _ _ Hwf Hnew) as Hall.
  assert (Hh' : in_range sid lo end_ (h ++ envelopes)) by by eapply in_range_app.
  pose proof Hwf as (Hcap & Hlen & Hb & He & Hin).
  assert (Heq : cs_events (segment c) ++ envelopes
                = filter (fun e => cs_begin (segment c) <= off e) (h ++ envelopes)).
  { rewrite Hev, filter_app, (filter_all _ envelopes).
    - f_equal. apply filter_ext_elem. intros x Hx. cbn.
      pose proof (in_range_elem _ _ _ _ _ Hh Hx). intuition lia.
    - intros x Hx. pose proof (in_range_elem _ _ _ _ _ Hnew Hx).
      pose proof (in_range_le _ _ _ _ Hin). lia. }
  assert (Hbet : ∀ b, between None b end_ (h ++ envelopes)
                      = filter (fun e => b <= off e) (h ++ envelopes)).
  { intros b. apply filter_ext_elem. intros x Hx. cbn.
    pose proof (in_range_elem _ _ _ _ _ Hh' Hx). intuition lia. }
  unfold holds, cache_wf, append_reference.
  remember (length (cs_events (segment c) ++ envelopes) - Z.to_nat (capacity c))%nat
    as excess eqn:Hex. cbn. rewrite Hbet.
  destruct excess as [|n].
  - split_and!; try done; len.
  - destruct (lookup_lt_is_Some_2 (cs_events (segment c) ++ envelopes) n) as [x Hx]; [len|].
    rewrite Hx. destruct (in_range_after _ _ _ _ _ _ Hall Hx) as [Ha1 Ha2].
    pose proof (in_range_le _ _ _ _ Ha1). split_and!; try done; [len|lia|].
    rewrite <- (filter_after _ _ _ _ _ _ Hall Hx), Heq, list_filter_filter.
    apply filter_ext_elem. intros. cbn. intuition lia.
Qed.

(** ** Runs of the writer *)

(** What the writer of a cache does to it. *)
Inductive op : Type :=
| OpReset (begin : Z)
| OpAppend (begin end_ : Z) (envelopes : list Envelope).

Definition apply_op (c : Cache) (o : op) : go Cache :=
  match o with
  | OpReset b => Ret (Reset c b)
  | OpAppend b e envs => Append c b e envs
  end.

Fixpoint run (c : Cache) (ops : list op) : go Cache :=
  match ops with
  | [] => Ret c
  | o :: ops' => c' ← apply_op c o; run c' ops'
  end.

(** The operations follow the contract of the package, for a stream whose
    delivery stands at offset [at_]: an append begins where the last one ended,
    and its envelopes are positioned within its range, in order. *)
Fixpoint legal (sid : UUID) (at_ : Z) (ops : list op) : Prop :=
  match ops with
  | [] => True
  | OpReset b :: ops' => is_u64 b /\ legal sid b ops'
  | OpAppend b e envs :: ops' =>
      b = at_ /\ e < u64_modulus /\ in_range sid b e envs /\ legal sid e ops'
  end.

(** The events appended since the last reset. *)
Fixpoint appended (h : list Envelope) (ops : list op) : list Envelope :=
  match ops with
  | [] => h
  | OpReset _ :: ops' => appended [] ops'
  | OpAppend _ _ envs :: ops' => appended (h ++ envs) ops'
  end.

Lemma Reset_holds sid c b : 0 < capacity c -> is_u64 b -> holds sid [] (Reset c b).
Proof. intros Hc [? ?]. split; [|done]. unfold cache_wf. cbn -[u64_modulus]. split_and!; first [lia | len]. Qed.

Lemma run_holds sid ops : ∀ h lo c,
  holds sid h c -> in_range sid lo (cs_end (segment c)) h -> lo <= cs_begin (segment c) ->
  legal sid (cs_end (segment c)) ops ->
  exists c' lo', run c ops = Ret c' /\ holds sid (appended h ops) c' /\
    capacity c' = capacity c /\ in_range sid lo' (cs_end (segment c')) (appended h ops).
Proof.
  induction ops as [|[b|b e envs] ops IH]; intros h lo c Hc Hh Hlo Hl; cbn in *.
  - eauto 10.
  - destruct Hl as [Hb Hl]. apply (IH [] b (Reset c b)); cbn; try done.
    apply Reset_holds; [|done]. apply Hc.
  - destruct Hl as (-> & He & Hin & Hl).
    destruct (append_reference_holds sid h lo c e envs) as [Hr Hb]; try done.
    rewrite (Append_eq_reference sid); try done; [|apply Hc]. cbn.
    apply (IH (h ++ envs) lo (append_reference c e envs)); try done.
    + by eapply in_range_app.
    + lia.
Qed.

Lemma Read_holds sid h c cp types :
  holds sid h c ->
  Read (segment c) cp types =
    Ret (if decide (cp < cs_begin (segment c)) then ([], Before)
         else if decide (cs_end (segment c) <= cp) then ([], After)
         else (between (Some types) cp (cs_end (segment c)) h, Within)).
Proof.
  intros [(_ & _ & _ & _ & Hin) Hev]. unfold Read. case_decide as Hb; [done|].
  destruct (decide (cp >= _)) as [He|He]; [by rewrite decide_True by lia|].
  rewrite decide_False by lia.
  destruct (Search_offsets _ _ _ _ cp Hin) as (r & -> & Hr & Hd). cbn.
  rewrite slice_from_in_range by done. cbn. rewrite Hd, list_filter_filter, Hev.
  rewrite <- (between_between (Some types) (cs_begin (segment c)) (cs_end (segment c))) by lia.
  repeat f_equal. apply filter_ext_elem. intros x Hx. cbn.
  apply list_elem_of_filter in Hx. intuition lia.
Qed.

(** ** Properties *)

(** A cache that is created and then appended to and reset in any legal
    order never panics, never holds more than its capacity, and a read from any
    checkpoint answers [Before] or [After] outside its segment and otherwise
    exactly the events of the requested types that were appended since the last
    reset, from the checkpoint on, in order. *)
Theorem cache_reads_what_was_appended sid cap b ops c0 cp types :
  New cap b = Ret c0 -> is_u64 b -> legal sid b ops ->
  exists c, run c0 ops = Ret c /\ len (cs_events (segment c)) <= cap /\
    Read (segment c) cp types =
      Ret (if decide (cp < cs_begin (segment c)) then ([], Before)
           else if decide (cs_end (segment c) <= cp) then ([], After)
           else (filter (fun e => cp <= off e /\ type_of e ∈ types) (appended [] ops), Within)).
Proof.
  unfold New. case_decide as Hcap; [done|]. intros [= <-] Hb Hl.
  destruct (run_holds sid ops [] b (Reset (mkCache cap (mkCSegment 0 0 [])) b))
    as (c & lo & Hrun & Hc & Hcapc & Hlo); try done; [|cbn; lia|].
  { apply Reset_holds; [cbn; lia|done]. }
  exists c. split_and!; [done|by rewrite <- (Hcapc : _ = cap); apply Hc|].
  rewrite (Read_holds sid (appended [] ops)) by done.
  repeat case_decide; try done. do 2 f_equal. apply filter_ext_elem. intros x Hx. cbn.
  pose proof (in_range_elem _ _ _ _ _ Hlo Hx). intuition lia.
Qed.

Definition example_ops : list op :=
  [OpAppend 0 10 [event 7 2 1; event 7 5 1; event 7 7 2]; OpAppend 10 12 []].

Lemma cache_reads_what_was_appended_witness :
  exists c, run (mkCache 2 (mkCSegment 0 0 [])) example_ops = Ret c /\
    len (cs_events (segment c)) <= 2 /\
    Read (segment c) 3 {[1%N]} =
      Ret (if decide (3 < cs_begin (segment c)) then ([], Before)
           else if decide (cs_end (segment c) <= 3) then ([], After)
           else (filter (fun e => 3 <= off e /\ type_of e ∈ ({[1%N]} : gset N))
                   (appended [] example_ops), Within)).
Proof.
  apply (cache_reads_what_was_appended 7 2 0); [reflexivity|split; reflexivity|].
  cbn. repeat split; reflexivity || (cbn; lia).
Defined.

(** [Append] panics exactly when the range does not begin where the cache
    ends; otherwise, whichever of its four cases applies, it keeps the newest
    [capacity] events of those held and appended, and moves the beginning of
    the segment past the newest event evicted. *)
Theorem Append_keeps_newest sid c begin end_ envelopes :
  cache_wf sid c -> in_range sid begin end_ envelopes -> end_ < u64_modulus ->
  Append c begin end_ envelopes =
    (if decide (begin = cs_end (segment c)) then Ret (append_reference c end_ envelopes)
     else Panic "range does not begin where the cache ends").
Proof.
  intros Hwf Hin Hend. case_decide as Hb.
  - subst. by apply (Append_eq_reference sid).
  - unfold Append. by rewrite decide_True.
Qed.

Lemma Append_keeps_newest_witness :
  Append (mkCache 2 (mkCSegment 0 4 [event 7 1 1; event 7 3 1])) 4 6 [event 7 4 1] =
    Ret (mkCache 2 (mkCSegment 2 6 [event 7 3 1; event 7 4 1])).
Proof.
  rewrite (Append_keeps_newest 7 _ 4 6); [reflexivity| | |reflexivity].
  - unfold cache_wf. cbn. repeat split; cbn; lia || reflexivity.
  - cbn. repeat split; cbn; lia || reflexivity.
Defined.
