(* ===== verification/Memory.v ===== *)
(** * The in-memory source

    Models [internal/eventstream/source/memory.go].  Every operation takes the
    mutex, so the concurrent appends that may happen between two iterations of
    [Read] or [Watch] are modelled by giving each iteration its own state of the
    source. *)

From S2P Require Import Prelude Errors Stream Source.

Record memoryStream := mkMemoryStream { ms_envelopes : list Envelope; ms_end : Z }.

(** [changed] counts the notifications of the source's observable. *)
Record Memory := mkMemory {
  SegmentSize : Z;
  streams : gmap UUID memoryStream;
  changed : N;
}.

(** Appends a segment to the stream it belongs to, creating it if necessary. *)
Definition Append (s : Memory) (seg : Segment) : go Memory :=
  let ms := match streams s !! seg_stream seg with
            | Some ms => ms
            | None => mkMemoryStream [] (seg_begin seg)
            end in
  if decide (seg_begin seg <> ms_end ms) then
    Panic "segment does not begin where the stream ends"
  else
    Ret (mkMemory (SegmentSize s)
           (<[seg_stream seg := mkMemoryStream (ms_envelopes ms ++ seg_envelopes seg) (seg_end seg)]>
              (streams s))
           (changed s + 1)).

(** The events that [segment] selects, in the order of the loop. *)
Fixpoint select (types : Types) (begin end_ : Z) (envs : list Envelope) : go (list Envelope) :=
  match envs with
  | [] => Ret []
  | env :: envs' =>
      offset ← offsetOf env;
      if decide (offset < begin \/ offset >= end_) then select types begin end_ envs'
      else if decide (matches types env) then
        rest ← select types begin end_ envs'; Ret (env :: rest)
      else select types begin end_ envs'
  end.

(** The segment [begin, end_) of a stream, filtered to the given types. *)
Definition segment (sid : UUID) (ms : memoryStream) (types : Types) (begin end_ : Z)
    : go Segment :=
  envs ← select types begin end_ (ms_envelopes ms);
  Ret (mkSegment sid begin end_ envs).

(** The next segment of a stream from an offset, limited to [SegmentSize]
    events; nothing if the offset is at the end of the stream. *)
Definition unread (s : Memory) (sid : UUID) (types : Types) (begin : Z)
    : go (error + option Segment) :=
  match streams s !! sid with
  | None => Ret (inl (Wrap "unable to read event stream" (Sentinel ErrUnrecognizedStream)))
  | Some ms =>
      if decide (begin > ms_end ms) then
        Ret (inl (Wrap "unable to read event stream from offset" (Sentinel ErrOffsetOutOfRange)))
      else if decide (begin = ms_end ms) then Ret (inr None)
      else
        seg ← segment sid ms types begin (ms_end ms);
        if decide (SegmentSize s > 0 /\ len (seg_envelopes seg) > SegmentSize s) then
          e ← index (take (Z.to_nat (SegmentSize s)) (seg_envelopes seg)) (SegmentSize s - 1);
          o ← offsetOf e;
          Ret (inr (Some (mkSegment (seg_stream seg) (seg_begin seg) (u64 (o + 1))
                            (take (Z.to_nat (SegmentSize s)) (seg_envelopes seg)))))
        else Ret (inr (Some seg))
  end.

(** The loop of [Read]; iteration [i] sees the source in the state [world i].
    [None] means that the loop has not returned after [fuel] iterations. *)
Fixpoint Read_loop {S} (fuel : nat) (world : nat -> Memory) (i : nat) (sid : UUID)
    (types : Types) (begin : Z) (fn : callback S) (s : S) : go (option (S * option error)) :=
  match fuel with
  | O => Ret None
  | Datatypes.S fuel =>
      r ← unread (world i) sid types begin;
      match r with
      | inl err => Ret (Some (s, Some err))
      | inr None => Ret (Some (s, None))
      | inr (Some seg) =>
          match fn s seg with
          | (s', Some err) => Ret (Some (s', Some err))
          | (s', None) => Read_loop fuel world (Datatypes.S i) sid types (seg_end seg) fn s'
          end
      end
  end.

Definition Read {S} (fuel : nat) (world : nat -> Memory) (sid : UUID) (types : Types)
    (begin : Z) (fn : callback S) (s : S) : go (option (S * option error)) :=
  _ ← panicIfEmpty types;
  Read_loop fuel world 0 sid types begin fn s.

(** A segment of each stream that has grown since it was last delivered. *)
Fixpoint undelivered_loop (types : Types) (all : list (UUID * memoryStream))
    (delivered : gmap UUID Z) : go (list Segment * gmap UUID Z) :=
  match all with
  | [] => Ret ([], delivered)
  | (sid, ms) :: all' =>
      let '(begin, ok) := match delivered !! sid with
                          | Some b => (b, true) | None => (ms_end ms, false) end in
      if decide (ok = true /\ begin = ms_end ms) then undelivered_loop types all' delivered
      else
        seg ← segment sid ms types begin (ms_end ms);
        '(segs, delivered') ← undelivered_loop types all' (<[sid := ms_end ms]> delivered);
        Ret (seg :: segs, delivered')
  end.

Definition undelivered (s : Memory) (types : Types) (delivered : gmap UUID Z)
    : go (list Segment * gmap UUID Z) :=
  undelivered_loop types (map_to_list (streams s)) delivered.

(** The loop of [Watch], for the states of the source at its first and at each
    later iteration; ctx is canceled, with error [cerr], after the last. *)
Fixpoint Watch_loop {S} (w : Memory) (worlds : list Memory) (types : Types)
    (delivered : gmap UUID Z) (cerr : error) (fn : callback S) (s : S)
    : go (S * option error) :=
  '(segs, delivered') ← undelivered w types delivered;
  match deliver fn s segs with
  | (s', Some err) => Ret (s', Some err)
  | (s', None) =>
      match worlds with
      | [] => Ret (s', Some cerr)
      | w' :: worlds' => Watch_loop w' worlds' types delivered' cerr fn s'
      end
  end.

Definition Watch {S} (w : Memory) (worlds : list Memory) (types : Types) (cerr : error)
    (fn : callback S) (s : S) : go (S * option error) :=
  _ ← panicIfEmpty types;
  Watch_loop w worlds types ∅ cerr fn s.

(** ** Invariant *)

Definition stream_wf (sid : UUID) (ms : memoryStream) : Prop :=
  exists lo, 0 <= lo /\ in_range sid lo (ms_end ms) (ms_envelopes ms) /\
    ms_end ms < u64_modulus.

Definition wf (s : Memory) : Prop :=
  forall sid ms, streams s !! sid = Some ms -> stream_wf sid ms.

(** The stream, as it stands, is a prefix of the history [h]. *)
Definition prefix_of (sid : UUID) (h : list Envelope) (ms : memoryStream) : Prop :=
  stream_wf sid ms /\
  exists rest hi, h = ms_envelopes ms ++ rest /\ in_range sid (ms_end ms) hi rest.

Definition seg_wf (seg : Segment) : Prop :=
  0 <= seg_begin seg /\ seg_end seg < u64_modulus /\
  in_range (seg_stream seg) (seg_begin seg) (seg_end seg) (seg_envelopes seg).

(** ** Lemmas *)

Lemma select_spec sid types b e lo hi envs :
  in_range sid lo hi envs -> select types b e envs = Ret (between types b e envs).
Proof.
  revert lo. induction envs as [|x envs IH]; intros lo H; [done|]. cbn -[between] in *.
  destruct H as (Hp & Hlo & H). rewrite (offsetOf_positioned _ _ Hp), (IH _ H). cbn -[between].
  unfold between. rewrite filter_cons. repeat case_decide; cbn; try done; try tauto; range_contra.
Qed.

Lemma segment_spec sid ms types b e :
  stream_wf sid ms ->
  segment sid ms types b e = Ret (mkSegment sid b e (between types b e (ms_envelopes ms))).
Proof. intros (lo & _ & H & _). unfold segment. by rewrite (select_spec sid _ _ _ lo _ _ H). Qed.

(** A step of [Read] within the stream: a non-empty range, faithful to the
    stream, which either ends the stream or holds [SegmentSize] events. *)
Lemma unread_within s sid ms types b :
  streams s !! sid = Some ms -> stream_wf sid ms -> 0 <= b < ms_end ms ->
  exists seg, unread s sid types b = Ret (inr (Some seg)) /\
    seg_stream seg = sid /\ seg_begin seg = b /\ b < seg_end seg <= ms_end ms /\
    faithful (ms_envelopes ms) types seg /\
    (seg_end seg = ms_end ms \/ seg_envelopes seg <> []).
Proof.
  intros Hms Hwf Hb. pose proof Hwf as (lo & Hlo & Hin & Hmax).
  unfold unread. rewrite Hms, !decide_False by lia.
  rewrite (segment_spec _ _ _ _ _ Hwf). cbn -[between].
  case_decide as Hsz; last first.
  { eexists. split_and!; try done; cbn; try lia. split; cbn; [lia|done]. }
  set (n := (Z.to_nat (SegmentSize s) - 1)%nat).
  destruct (lookup_lt_is_Some_2 (between types b (ms_end ms) (ms_envelopes ms)) n)
    as [x Hx]; [len|].
  assert (Hxr : b <= off x < ms_end ms /\ positioned sid x).
  { pose proof (between_in_range sid types b (ms_end ms) _ _ _ Hin ltac:(lia)) as Hr.
    apply list_elem_of_lookup_2 in Hx. by apply (in_range_elem _ _ _ _ _ Hr) in Hx as [? ?]. }
  rewrite (index_Some _ _ x).
  - cbn -[between]. rewrite (offsetOf_positioned sid) by tauto. cbn -[between].
    rewrite u64_id by (unfold is_u64; lia).
    eexists. split_and!; try done; cbn -[between]; try lia.
    + split; cbn -[between]; [lia|]. rewrite (between_take sid types b (ms_end ms) _ _ _ n x Hin);
        [|lia|done]. f_equal. lia.
    + right. intros Hnil. apply (f_equal length) in Hnil. rewrite length_take in Hnil.
      cbn in Hnil. len.
  - lia.
  - rewrite lookup_take_lt by lia. rewrite <- Hx. f_equal. lia.
Qed.

Lemma faithful_prefix sid h ms types seg :
  prefix_of sid h ms -> seg_end seg <= ms_end ms ->
  faithful (ms_envelopes ms) types seg -> faithful h types seg.
Proof. intros (_ & rest & hi & -> & Hr) Hle Hf. by eapply faithful_extend. Qed.

(** [Append] preserves the invariant, and the stream's history grows by exactly
    the segment's events. *)
Lemma Append_wf s seg s' :
  wf s -> seg_wf seg -> Append s seg = Ret s' ->
  wf s' /\ streams s' !! seg_stream seg =
    Some (mkMemoryStream
            (match streams s !! seg_stream seg with Some ms => ms_envelopes ms | None => [] end
             ++ seg_envelopes seg) (seg_end seg)).
Proof.
  intros Hwf (Hb & Hmax & Hseg). unfold Append.
  destruct (streams s !! seg_stream seg) as [ms|] eqn:Hms; cbn; case_decide as Hne; try done;
    intros [= <-]; cbn; rewrite lookup_insert_eq; (split; [|done]);
    intros sid ms'; cbn; rewrite lookup_insert; case_decide as Hs; intros Hms'; simplify_eq;
    try by apply Hwf.
  - destruct (Hwf _ _ Hms) as (lo & Hlo & Hin & _). exists lo. split_and!; try done. cbn.
    eapply in_range_app; [done|]. by replace (ms_end ms) with (seg_begin seg) by lia.
  - by exists (seg_begin seg).
Qed.

Section read.
Context (sid : UUID) (h : list Envelope) (types : Types) (world : nat -> Memory).
Context (Hworld : forall i ms, streams (world i) !! sid = Some ms -> prefix_of sid h ms).

(** Whatever is appended while a read is in progress, the read delivers a
    contiguous chain of faithful segments. *)
Lemma memory_Read_loop_serves {S} (fn : callback S) fuel : forall i begin s, 0 <= begin ->
  exists r, Read_loop fuel world i sid types begin fn s = Ret r /\
    forall res, r = Some res -> exists segs e err,
      chain sid h types begin segs e /\ res = finish (deliver fn s segs) err.
Proof using Hworld.
  induction fuel as [|fuel IH]; intros i begin s Hb; cbn; [by eexists|].
  destruct (streams (world i) !! sid) as [ms|] eqn:Hms; last first.
  { unfold unread. rewrite Hms. cbn. eexists. split; [done|]. intros res [= <-].
    exists [], begin. eauto with runkit. }
  pose proof (Hworld _ _ Hms) as Hp.
  destruct (decide (begin < ms_end ms)) as [Hlt|Hge]; last first.
  { unfold unread. rewrite Hms. repeat case_decide; try lia; cbn; eexists; (split; [done|]);
      intros res [= <-]; exists [], begin; eauto with runkit. }
  destruct (unread_within (world i) sid ms types begin) as (seg & -> & Hs & Hbg & Hr & Hf & _);
    [done|apply Hp|lia|]. cbn.
  apply (faithful_prefix sid h ms) in Hf; [|done|lia].
  destruct (fn s seg) as [s' [err|]] eqn:Hfn.
  - eexists. split; [done|]. intros res [= <-]. exists [seg], (seg_end seg), None.
    split; [by eauto with runkit|]. by rewrite (deliver_cons_err _ _ _ _ _ _ _ Hfn).
  - destruct (IH (Datatypes.S i) (seg_end seg) s') as (r & -> & Hres); [lia|].
    eexists. split; [done|]. intros res Heq. destruct (Hres _ Heq) as (segs & e & err & Hc & ->).
    exists (seg :: segs), e, err. split; [by eauto with runkit|].
    by rewrite (deliver_cons_ok _ _ _ _ _ _ Hfn).
Qed.
End read.

(** A read of a stream that does not change ends, after at most two iterations
    more than there are matching events, having reached the end. *)
Lemma memory_Read_loop_until s sid ms types {S} (fn : callback S) :
  streams s !! sid = Some ms -> stream_wf sid ms ->
  forall fuel i begin st, 0 <= begin <= ms_end ms ->
    (length (between types begin (ms_end ms) (ms_envelopes ms))
     + (if decide (begin = ms_end ms) then 1 else 2) <= fuel)%nat ->
    exists segs, chain sid (ms_envelopes ms) types begin segs (ms_end ms) /\
      Read_loop fuel (fun _ => s) i sid types begin fn st = Ret (Some (deliver fn st segs)).
Proof.
  intros Hms Hwf. pose proof Hwf as (lo & _ & Hin & _).
  induction fuel as [|fuel IH]; intros i begin st Hb Hfuel;
    [case_decide; lia|]. cbn.
  destruct (decide (begin = ms_end ms)) as [->|Hne].
  { exists []. split; [constructor|]. unfold unread. rewrite Hms, decide_False, decide_True by lia.
    done. }
  destruct (unread_within s sid ms types begin) as (seg & -> & Hs & Hbg & Hr & Hf & Hor);
    [done|done|lia|]. cbn.
  assert (Hsplit : (length (seg_envelopes seg)
            + length (between types (seg_end seg) (ms_end ms) (ms_envelopes ms))
            = length (between types begin (ms_end ms) (ms_envelopes ms)))%nat).
  { rewrite <- (between_app sid types _ _ _ begin (seg_end seg) (ms_end ms) Hin) by lia.
    rewrite length_app. destruct Hf as [_ ->]. by rewrite Hbg. }
  destruct (fn st seg) as [st' [err|]] eqn:Hfn.
  - destruct (decide (seg_end seg = ms_end ms)) as [He|He].
    + exists [seg]. split; [rewrite <- He; by eauto with runkit|]. cbn. by rewrite Hfn.
    + exists (seg :: [whole sid (ms_envelopes ms) types (seg_end seg) (ms_end ms)]).
      split; [|cbn; by rewrite Hfn]. constructor; try done. apply chain_whole. lia.
  - destruct (decide (seg_end seg = ms_end ms)) as [He|He].
    + destruct (IH (Datatypes.S i) (seg_end seg) st') as (segs & Hc & ->); [lia| |].
      { rewrite decide_True by done. lia. }
      exists (seg :: segs). split; [by eauto with runkit|]. cbn. by rewrite Hfn.
    + destruct Hor as [?|Hnil]; [done|].
      assert (0 < length (seg_envelopes seg))%nat by (destruct (seg_envelopes seg); cbn; [done|lia]).
      destruct (IH (Datatypes.S i) (seg_end seg) st') as (segs & Hc & ->);
        [lia|rewrite decide_False by done; lia|].
      exists (seg :: segs). split; [by eauto with runkit|]. cbn. by rewrite Hfn.
Qed.

(** ** Properties *)

(** [Memory.Read] panics on an empty set of types, reports an unrecognized
    stream and an offset beyond the end of the stream, and otherwise ends,
    having delivered every event of the requested types from the offset to the
    end of the stream in contiguous faithful segments, unless the callback stops
    it, whose error it returns. *)
Theorem Memory_Read_spec s sid types begin fuel {S} (fn : callback S) st :
  wf s -> 0 <= begin ->
  (forall ms, streams s !! sid = Some ms -> (length (ms_envelopes ms) + 2 <= fuel)%nat) ->
  (1 <= fuel)%nat ->
  if decide (types = Some ∅) then
    Read fuel (fun _ => s) sid types begin fn st = Panic "message types must not be empty"
  else match streams s !! sid with
  | None => exists msg, Read fuel (fun _ => s) sid types begin fn st
              = Ret (Some (st, Some (Wrap msg (Sentinel ErrUnrecognizedStream))))
  | Some ms =>
      if decide (begin > ms_end ms) then
        exists msg, Read fuel (fun _ => s) sid types begin fn st
          = Ret (Some (st, Some (Wrap msg (Sentinel ErrOffsetOutOfRange))))
      else exists segs, chain sid (ms_envelopes ms) types begin segs (ms_end ms) /\
        Read fuel (fun _ => s) sid types begin fn st = Ret (Some (deliver fn st segs))
  end.
Proof.
  intros Hwf Hb Hfuel Hone. case_decide as Ht; [by subst|].
  assert (Hpanic : panicIfEmpty types = Ret tt).
  { unfold panicIfEmpty. destruct types as [ts|]; [|done]. rewrite decide_False; congruence. }
  unfold Read. rewrite Hpanic. cbn. destruct fuel as [|fuel]; [lia|].
  destruct (streams s !! sid) as [ms|] eqn:Hms; cbn -[Read_loop]; last first.
  { cbn. unfold unread. rewrite Hms. by eexists. }
  case_decide as Hgt.
  { cbn. unfold unread. rewrite Hms, decide_True by done. by eexists. }
  apply memory_Read_loop_until; [done|by apply Hwf|lia|].
  specialize (Hfuel ms eq_refl). pose proof (length_filter
    (fun e => (begin <= off e < ms_end ms) /\ matches types e) (ms_envelopes ms)).
  unfold between. case_decide; lia.
Qed.

Definition example_memory : Memory :=
  mkMemory 1 {[7%N := mkMemoryStream [event 7 0 1; event 7 1 2; event 7 2 1] 3]} 0.

Lemma Memory_Read_spec_witness :
  exists segs, chain 7 [event 7 0 1; event 7 1 2; event 7 2 1] (Some {[1%N]}) 0 segs 3 /\
    Read 5 (fun _ => example_memory) 7 (Some {[1%N]}) 0 recorder []
    = Ret (Some (deliver recorder [] segs)).
Proof.
  assert (Hwf : wf example_memory).
  { intros sid ms. cbn. rewrite lookup_singleton_Some. intros [<- <-].
    exists 0. cbn. repeat split; cbn; lia || reflexivity. }
  pose proof (Memory_Read_spec example_memory 7 (Some {[1%N]}) 0 5 recorder [] Hwf) as H.
  rewrite decide_False in H by discriminate.
  apply H; [lia|intros ms Hm; vm_compute in Hm; injection Hm as <-; cbn; lia|lia].
Defined.
