(* ===== verification/Database.v ===== *)
(** * The engine's PostgreSQL database

    The tables of [internal/schema/ddl] that the engine reads and writes, as
    finite maps keyed by their primary keys, and the schema's SQL functions.  A
    statement is a function from the state its transaction sees to an error or a
    result and a new state; a transaction that fails leaves the state it began
    with.  Row locks serialize the transactions that touch the same rows, so a
    transaction is an atomic step. *)

From S2P Require Import Prelude Errors Stream.

(** Binary columns ([bytea]). *)
Abbreviation bytes := string (only parsing).

(** eventstream.events *)
Record EventRow := mkEventRow {
  ev_message_id : UUID;
  ev_correlation_id : UUID;
  ev_type_id : UUID;
  ev_envelope : bytes;
  ev_stream : UUID;
  ev_offset : Z;
  ev_handler_key : option UUID;
  ev_instance_id : option string;
}.

(** commandqueue.commands; times are in nanoseconds. *)
Record CommandRow := mkCommandRow {
  cmd_type_id : UUID;
  cmd_envelope : bytes;
  cmd_failures : Z;
  cmd_deliver_at : Z;
}.

(** aggregate.instances *)
Record AggregateRow := mkAggregateRow {
  agg_stream : option UUID;
  agg_snapshot : option bytes;
  agg_snapshot_offset : option Z;
}.

(** process.instances *)
Record InstanceRow := mkInstanceRow { inst_ended : bool; inst_state : option bytes }.

(** process.deadlines *)
Record DeadlineRow := mkDeadlineRow {
  dl_type_id : UUID;
  dl_handler_key : UUID;
  dl_instance_id : string;
  dl_envelope : bytes;
  dl_failures : Z;
  dl_deliver_at : Z;
}.

Record DB := mkDB {
  streams : gmap UUID Z;                          (* id -> next_offset *)
  events : list EventRow;                         (* in order of insertion *)
  commands : gmap UUID CommandRow;
  idempotency_keys : gmap string UUID;
  aggregates : gmap (UUID * string) AggregateRow;
  checkpoints : gmap (UUID * UUID) Z;             (* (handler, stream) -> offset *)
  instances : gmap (UUID * string) InstanceRow;
  deadlines : gmap UUID DeadlineRow;
  compacted : gmap UUID Z;                        (* projection.handlers *)
  identity : option (UUID * string);              (* application.identity *)
}.

Definition empty_db : DB := mkDB ∅ [] ∅ ∅ ∅ ∅ ∅ ∅ ∅ None.

Definition set_streams db x := mkDB x (events db) (commands db) (idempotency_keys db)
  (aggregates db) (checkpoints db) (instances db) (deadlines db) (compacted db) (identity db).
Definition set_events db x := mkDB (streams db) x (commands db) (idempotency_keys db)
  (aggregates db) (checkpoints db) (instances db) (deadlines db) (compacted db) (identity db).
Definition set_commands db x := mkDB (streams db) (events db) x (idempotency_keys db)
  (aggregates db) (checkpoints db) (instances db) (deadlines db) (compacted db) (identity db).
Definition set_idempotency_keys db x := mkDB (streams db) (events db) (commands db) x
  (aggregates db) (checkpoints db) (instances db) (deadlines db) (compacted db) (identity db).
Definition set_aggregates db x := mkDB (streams db) (events db) (commands db)
  (idempotency_keys db) x (checkpoints db) (instances db) (deadlines db) (compacted db)
  (identity db).
Definition set_checkpoints db x := mkDB (streams db) (events db) (commands db)
  (idempotency_keys db) (aggregates db) x (instances db) (deadlines db) (compacted db)
  (identity db).
Definition set_instances db x := mkDB (streams db) (events db) (commands db)
  (idempotency_keys db) (aggregates db) (checkpoints db) x (deadlines db) (compacted db)
  (identity db).
Definition set_deadlines db x := mkDB (streams db) (events db) (commands db)
  (idempotency_keys db) (aggregates db) (checkpoints db) (instances db) x (compacted db)
  (identity db).
Definition set_compacted db x := mkDB (streams db) (events db) (commands db)
  (idempotency_keys db) (aggregates db) (checkpoints db) (instances db) (deadlines db) x
  (identity db).
Definition set_identity db x := mkDB (streams db) (events db) (commands db)
  (idempotency_keys db) (aggregates db) (checkpoints db) (instances db) (deadlines db)
  (compacted db) x.

(** ** Statements and transactions *)

Definition sql (A : Type) : Type := DB -> error + A * DB.

#[global] Instance sql_ret : MRet sql := fun A a db => inr (a, db).
#[global] Instance sql_bind : MBind sql := fun A B f m db =>
  match m db with inl e => inl e | inr (a, db') => f a db' end.

Definition fail {A} (e : error) : sql A := fun _ => inl e.
Definition gets {A} (f : DB -> A) : sql A := fun db => inr (f db, db).
Definition modify (f : DB -> DB) : sql unit := fun db => inr (tt, f db).

(** Wraps the error of a statement: [fmt.Errorf("...: %w", err)]. *)
Definition wrap {A} (msg : string) (m : sql A) : sql A := fun db =>
  match m db with inl e => inl (Wrap msg e) | inr r => inr r end.

Lemma sql_bind_inr {A B} (m : sql A) (f : A -> sql B) db r :
  (m ≫= f) db = inr r <-> exists a db1, m db = inr (a, db1) /\ f a db1 = inr r.
Proof. unfold mbind, sql_bind. destruct (m db) as [e|[a db1]]; naive_solver. Qed.

(** [xsql.ExecOne]: the statement, with the number of rows it affected, must
    have affected exactly one. *)
Definition ExecOne (m : sql nat) : sql unit :=
  n ← wrap "unable to execute query" m;
  if decide (n = 1%nat) then mret tt
  else fail (Opaque "expected exactly one row to be affected").

(** What may happen to a transaction besides the outcome of its statements:
    [BeginTx] or [Commit] fails, or ctx is canceled before it commits. *)
Record TxEnv := mkTxEnv {
  begin_err : option error;
  commit_err : option error;
  ctx_err : option error;
}.

Definition no_faults : TxEnv := mkTxEnv None None None.

(** [xsql.Transact]: commits what [fn] did, or rolls it back and returns an
    error, which is ctx's error if ctx is canceled.  [St] is the part of the database
    that it is used on. *)
Definition Transact {St A} (env : TxEnv) (fn : St -> error + A * St) (db : St) : (error + A) * St :=
  let failed e := inl (match ctx_err env with Some c => c | None => e end) in
  match begin_err env with
  | Some e => (failed (Wrap "unable to begin transaction" e), db)
  | None =>
      match fn db with
      | inl e => (failed e, db)
      | inr (a, db') =>
          match commit_err env with
          | Some e => (failed (Wrap "unable to commit transaction" e), db)
          | None => (inr a, db')
          end
      end
  end.

(** ** Functions of the schema *)

(** The composite type eventstream.event. *)
Record EventArg := mkEventArg {
  ea_message_id : UUID;
  ea_type_id : UUID;
  ea_envelope : bytes;
}.

(** The rows that eventstream.append inserts, from the given base offset. *)
Definition event_rows (sid cid : UUID) (hk : option UUID) (iid : option string)
    (base : Z) (evs : list EventArg) : list EventRow :=
  imap (fun i e => mkEventRow (ea_message_id e) cid (ea_type_id e) (ea_envelope e)
                     sid (base + Z.of_nat i) hk iid) evs.

(** eventstream.append; the result is NULL if the stream does not exist. *)
Definition append (sid cid : UUID) (hk : option UUID) (iid : option string)
    (evs : list EventArg) : sql (option Z) := fun db =>
  match streams db !! sid with
  | None => inr (None, db)
  | Some base =>
      if decide (evs = []) then inl (Opaque "null value in column next_offset")
      else if decide (NoDup ((ev_message_id <$> events db) ++ (ea_message_id <$> evs))) then
        let rows := event_rows sid cid hk iid base evs in
        inr (Some (base + len evs),
             set_events (set_streams db (<[sid := base + len evs]> (streams db)))
               (events db ++ rows))
      else inl (Opaque "duplicate key value violates unique constraint")
  end.

(** eventstream.acquire_for_write, where [chosen] is the stream that it selects
    or, if there is none by that ID, the generated ID of the one it creates. *)
Definition acquire_for_write (chosen : UUID) : sql UUID := fun db =>
  match streams db !! chosen with
  | Some _ => inr (chosen, db)
  | None => inr (chosen, set_streams db (<[chosen := 0]> (streams db)))
  end.

(** commandqueue.add, at time [now]. *)
Definition commandqueue_add (now : Z) (mid tid : UUID) (envelope : bytes) (key : string)
    : sql (UUID * bool) := fun db =>
  let insert db :=
    match commands db !! mid with
    | Some _ => inl (Opaque "duplicate key value violates unique constraint")
    | None => inr ((mid, true),
                   set_commands db (<[mid := mkCommandRow tid envelope 0 now]> (commands db)))
    end in
  if decide (key <> "") then
    match idempotency_keys db !! key with
    | Some original => inr ((original, false), db)
    | None =>
        if decide (mid ∈ (map_to_list (idempotency_keys db)).*2) then
          inl (Opaque "duplicate key value violates unique constraint")
        else insert (set_idempotency_keys db (<[key := mid]> (idempotency_keys db)))
    end
  else insert db.

(** commandqueue.remove *)
Definition commandqueue_remove (mid : UUID) : sql unit := fun db =>
  match commands db !! mid with
  | None => inl (Opaque "command does not exist in the queue")
  | Some _ => inr (tt, set_commands db (delete mid (commands db)))
  end.

Lemma commandqueue_remove_inr mid db db' :
  commandqueue_remove mid db = inr (tt, db') ->
  is_Some (commands db !! mid) /\ db' = set_commands db (delete mid (commands db)).
Proof. unfold commandqueue_remove. destruct (commands db !! mid); [|done]. intros [= <-]. by split. Qed.

(** ** The invariant of the event tables

    The events of each stream are at the offsets 0, 1, ..., next_offset - 1, in
    the order in which they were inserted, and every event is on a stream. *)

Definition stream_events (db : DB) (sid : UUID) : list EventRow :=
  filter (fun r => ev_stream r = sid) (events db).

Definition events_wf (db : DB) : Prop :=
  NoDup (ev_message_id <$> events db) /\
  forall sid,
    match streams db !! sid with
    | None => stream_events db sid = []
    | Some next => ev_offset <$> stream_events db sid = seqZ 0 next /\ 0 <= next
    end.

Lemma stream_events_append sid cid hk iid base evs sid' :
  filter (fun r => ev_stream r = sid') (event_rows sid cid hk iid base evs)
  = if decide (sid = sid') then event_rows sid cid hk iid base evs else [].
Proof.
  unfold event_rows. case_decide as Hs.
  - apply filter_all. intros r (i & e & -> & _)%elem_of_lookup_imap. done.
  - apply filter_none. intros r (i & e & -> & _)%elem_of_lookup_imap. done.
Qed.

Lemma event_rows_offsets sid cid hk iid base evs :
  ev_offset <$> event_rows sid cid hk iid base evs = seqZ base (len evs).
Proof.
  unfold event_rows. apply list_eq. intros i.
  rewrite list_lookup_fmap, list_lookup_imap, <- option_fmap_compose.
  destruct (evs !! i) as [e|] eqn:He; cbn.
  - symmetry. apply lookup_seqZ. split; [done|]. apply lookup_lt_Some in He. len.
  - symmetry. apply lookup_seqZ_ge. apply lookup_ge_None in He. len.
Qed.

Lemma event_rows_ids sid cid hk iid base evs :
  ev_message_id <$> event_rows sid cid hk iid base evs = ea_message_id <$> evs.
Proof. unfold event_rows. rewrite fmap_imap. apply imap_const. Qed.

(** Appending events preserves the invariant of the event tables. *)
Lemma append_wf sid cid hk iid evs db r db' :
  events_wf db -> append sid cid hk iid evs db = inr (r, db') -> events_wf db'.
Proof.
  intros [Hnd Hwf]. unfold append. destruct (streams db !! sid) as [base|] eqn:Hs;
    [|by intros [= <- <-]].
  case_decide; [done|]. case_decide as Hdup; [|done]. intros [= <- <-]. split; cbn.
  - by rewrite fmap_app, event_rows_ids.
  - intros sid'. unfold stream_events. cbn.
    rewrite filter_app, stream_events_append, lookup_insert.
    specialize (Hwf sid'). unfold stream_events in Hwf.
    case_decide; subst; [|by rewrite app_nil_r].
    rewrite Hs in Hwf. destruct Hwf as [Ho Hb]. split; [|len].
    rewrite fmap_app, Ho, event_rows_offsets.
    rewrite (seqZ_app 0 base (len evs)) by (try apply len_nonneg; lia). by rewrite Z.add_0_l.
Qed.

(** What appending does when it succeeds. *)
Lemma append_inr sid cid hk iid evs db r db' :
  append sid cid hk iid evs db = inr (r, db') ->
  (streams db !! sid = None /\ r = None /\ db' = db) \/
  (exists base, streams db !! sid = Some base /\ r = Some (base + len evs) /\ evs <> [] /\
     db' = set_events (set_streams db (<[sid := base + len evs]> (streams db)))
             (events db ++ event_rows sid cid hk iid base evs)).
Proof.
  unfold append. destruct (streams db !! sid) as [base|] eqn:Hs; [|intros [= <- <-]; by left].
  case_decide; [done|]. case_decide; [|done]. intros [= <- <-]. right. eauto.
Qed.

(** Acquiring a stream preserves the invariant of the event tables. *)
Lemma acquire_for_write_wf chosen db sid db' :
  events_wf db -> acquire_for_write chosen db = inr (sid, db') ->
  events_wf db' /\ sid = chosen /\ events db' = events db /\
  (streams db' = streams db \/ (streams db !! chosen = None /\ streams db' = <[chosen := 0]> (streams db))) /\
  is_Some (streams db' !! chosen).
Proof.
  intros Hev. unfold acquire_for_write. destruct (streams db !! chosen) as [n|] eqn:Hs.
  - intros [= <- <-]. split_and!; [done..|by left|by eexists].
  - intros [= <- <-].
    split_and!; [|done|done|by right|cbn; rewrite lookup_insert_eq; by eexists].
    destruct Hev as [Hnd Hwf]. split; [done|]. intros sid'. cbn. specialize (Hwf sid') as Hw.
    rewrite lookup_insert. case_decide; [|done]. subst sid'. rewrite Hs in Hw.
    split; [|lia]. unfold stream_events in *. cbn. by rewrite Hw.
Qed.

(** ** ORDER BY *)

Section order_by.
Context {A : Type} (f : A -> Z).

Definition col_le (a b : A) : Prop := f a <= f b.
#[local] Instance col_le_dec : RelDecision col_le.
Proof. intros x y. unfold col_le. apply _. Defined.

(** ORDER BY the integer column [f]. *)
Definition order_by (l : list A) : list A := merge_sort col_le l.

Lemma order_by_Permutation l : order_by l ≡ₚ l.
Proof. apply merge_sort_Permutation. Qed.

#[local] Instance order_by_trans : Transitive col_le.
Proof. intros x y z. unfold col_le. lia. Qed.
#[local] Instance order_by_total : Total col_le.
Proof. intros x y. unfold col_le. lia. Qed.

Lemma order_by_sorted l : StronglySorted col_le (order_by l).
Proof. apply (StronglySorted_merge_sort col_le). Qed.

(** Rows already in strictly increasing order stay as they are. *)
Lemma order_by_id l : StronglySorted (fun a b => f a < f b) l -> order_by l = l.
Proof.
  intros Hl.
  assert (Hinj : forall x y, x ∈ l -> y ∈ l -> f x = f y -> x = y).
  { induction Hl as [|a l Hl IH Ha]; intros x y; [by intros ?%not_elem_of_nil|].
    rewrite Forall_forall in Ha.
    intros [->|Hx]%elem_of_cons [->|Hy]%elem_of_cons ?; try done; [| |by apply IH].
    - specialize (Ha _ Hy). lia.
    - specialize (Ha _ Hx). lia. }
  apply (StronglySorted_unique_strong col_le).
  - intros x y Hx Hy. unfold col_le. intros. rewrite order_by_Permutation in Hx. apply Hinj; [done|done|lia].
  - apply order_by_sorted.
  - clear Hinj. induction Hl as [|a l Hl IH Ha]; constructor; [done|].
    eapply Forall_impl; [exact Ha|]. unfold col_le. cbn. lia.
  - apply order_by_Permutation.
Qed.
End order_by.

Lemma StronglySorted_filter {A} (R : A -> A -> Prop) (P : A -> Prop)
    {dec : ∀ x, Decision (P x)} (l : list A) :
  StronglySorted R l -> StronglySorted R (filter P l).
Proof.
  induction 1 as [|a l Hl IH Ha]; [constructor|]. rewrite filter_cons. case_decide; [|done].
  constructor; [done|]. rewrite Forall_forall in *. intros x Hx. apply Ha.
  by apply list_elem_of_filter in Hx as [_ ?].
Qed.

Lemma seqZ_sorted {A} (f : A -> Z) (l : list A) m n :
  f <$> l = seqZ m n -> StronglySorted (fun a b => f a < f b) l.
Proof.
  revert m n. induction l as [|a l IH]; intros m n H; [constructor|].
  destruct (decide (0 < n)); [|by rewrite seqZ_nil in H by lia].
  rewrite seqZ_cons in H by done. injection H as Ha Hl. change (f <$> l = seqZ (Z.succ m) (Z.pred n)) in Hl. constructor; [by eapply IH|].
  rewrite Forall_forall. intros x Hx. apply (list_elem_of_fmap_2 f) in Hx.
  rewrite Hl in Hx. apply elem_of_seqZ in Hx. lia.
Qed.
