(* ===== verification/Schema.v ===== *)
(** * The schema of the database

    Models [internal/schema/schema.go]: [Create], [Drop] and [schemas], over the embedded
    file system of DDL scripts [internal/schema/ddl].  A database maps each of its objects
    to its shape: the columns of a table, the fields of a type, the parameters and the
    result of a function.  A script is the list of its statements, each with what it needs
    and makes.  ([schema.go] at the root of the repository calls the two functions.)

    A statement that fails aborts the transaction.  "IF NOT EXISTS" skips an object that
    exists, whatever its shape, with all that belongs to it; "OR REPLACE" makes it anew,
    but fails if the parameters or the result of a function would change.  The bodies of
    functions in SQL are checked when they are made, those in PL/pgSQL are not.  Defaults
    and CHECK constraints are not modelled. *)

From S2P Require Import Prelude Errors Database.

(** ** Objects *)

(** The kind of an object, its schema, its name (that of a function with the types of its
    parameters, by which PostgreSQL identifies it) and the schema that it depends on, if
    it depends on another (an object on which others depend is only dropped with
    them). *)
Definition obj : Type := string * string * string * string.

Definition obj_kind (o : obj) : string := o.1.1.1.
Definition obj_schema (o : obj) : string := o.1.1.2.
Definition obj_uses (o : obj) : string := o.2.

(** Columns, fields or parameters with their types.  The primary key of a table and the
    result of a function are entries of their own. *)
Definition shape : Type := list (string * string).

Abbreviation Objects := (gmap obj shape).

Definition schema_ (s : string) : obj := ("schema", s, "", "").
Definition table (s t : string) : obj := ("table", s, t, "").
Definition index (s i : string) : obj := ("index", s, i, "").
Definition type_ (s t : string) : obj := ("type", s, t, "").
Definition func (s f uses : string) : obj := ("function", s, f, uses).
Definition trigger (s t : string) : obj := ("trigger", s, t, "").
Definition constraint (s c uses : string) : obj := ("constraint", s, c, uses).

(** ** Statements *)

Inductive statement : Type :=
| CreateSchema (s : string)                                   (* IF NOT EXISTS *)
| CreateTable (s t : string) (columns : shape) (keys : list (string * string * string * string))
    (* IF NOT EXISTS; the foreign keys, and the schema, table and column that each refers to *)
| CreateIndex (s i t : string) (columns : list string)        (* IF NOT EXISTS *)
| CreateType (s t : string) (fields : shape)                  (* unless it is a duplicate *)
| CreateFunction (s f uses : string) (sig : shape) (requires : list (obj * shape))    (* OR REPLACE *)
| CreateTrigger (s t f g : string)                            (* OR REPLACE *)
| DropConstraint (s t c : string).                            (* if it exists *)

(** The objects that a statement needs, each with what its shape must include; "" stands
    for any type. *)
Definition needs (st : statement) : list (obj * shape) :=
  match st with
  | CreateSchema s => []
  | CreateTable s t _ keys =>
      (schema_ s, []) :: ((fun '(_, s', t', c) => (table s' t', [(c, "uuid"); ("PRIMARY KEY", c)])) <$> keys)
  | CreateIndex s i t columns => [(table s t, (fun c => (c, "")) <$> columns)]
  | CreateType s t _ => [(schema_ s, [])]
  | CreateFunction s f uses _ requires => (schema_ s, []) :: requires
  | CreateTrigger s t f g => [(table s t, []); (func s g "", [("RETURNS", "trigger")])]
  | DropConstraint s t c => [(table s t, [])]
  end.

(** What a statement makes. *)
Definition makes (st : statement) : option (obj * shape) :=
  match st with
  | CreateSchema s => Some (schema_ s, [])
  | CreateTable s t columns _ => Some (table s t, columns)
  | CreateIndex s i _ _ => Some (index s i, [])
  | CreateType s t fields => Some (type_ s t, fields)
  | CreateFunction s f uses sig _ => Some (func s f uses, sig)
  | CreateTrigger s _ f _ => Some (trigger s f, [])
  | DropConstraint _ _ _ => None
  end.

(** Whether the statement does nothing if its object exists. *)
Definition skips (st : statement) : bool :=
  match st with
  | CreateSchema _ | CreateTable _ _ _ _ | CreateIndex _ _ _ _ | CreateType _ _ _ => true
  | _ => false
  end.

(** The foreign keys of a table are made with it. *)
Definition keys_of (st : statement) : list obj :=
  match st with
  | CreateTable s _ _ keys => (fun '(c, s', _, _) => constraint s c s') <$> keys
  | _ => []
  end.

Definition constraints_of (st : statement) : Objects := gset_to_gmap [] (list_to_set (keys_of st)).

Definition dropped (st : statement) (o : obj) : Prop :=
  match st with
  | DropConstraint s _ c => exists uses, o = constraint s c uses
  | _ => False
  end.

#[global] Instance dropped_dec st o : Decision (dropped st o).
Proof.
  destruct st as [| | | | | |s t c]; try apply _. destruct o as [[[k s'] c'] uses].
  destruct (decide (k = "constraint" /\ s' = s /\ c' = c)) as [(-> & -> & ->)|Hn]; [left; by exists uses|].
  right. intros (uses' & [= -> -> -> ->]). by apply Hn.
Defined.

(** The shape has an entry of that name and type. *)
Definition has (sh : shape) (e : string * string) : Prop :=
  Exists (fun e' => e'.1 = e.1 /\ (e.2 = "" \/ e'.2 = e.2)) sh.

Definition includes (sh req : shape) : Prop := Forall (has sh) req.

(** What is needed is there. *)
Definition met (db : Objects) (n : obj * shape) : Prop :=
  match db !! n.1 with Some sh => includes sh n.2 | None => False end.

#[global] Instance met_dec db n : Decision (met db n).
Proof. unfold met, includes, has. destruct (db !! n.1); apply _. Defined.

Definition exec (st : statement) (db : Objects) : error + Objects :=
  match makes st with
  | Some (o, sh) =>
      if decide (skips st = true /\ is_Some (db !! o)) then inr db
      else if decide (Forall (met db) (needs st)) then
        if decide (db !! o = None \/ db !! o = Some sh) then
          inr (<[o := sh]> db ∪ constraints_of st)
        else inl (Opaque "cannot change the parameters or the return type of an existing function")
      else inl (Opaque "does not exist")
  | None =>
      if decide (Forall (met db) (needs st)) then inr (filter (fun '(o, _) => ~ dropped st o) db)
      else inl (Opaque "does not exist")
  end.

Fixpoint exec_script (sts : list statement) (db : Objects) : error + Objects :=
  match sts with
  | [] => inr db
  | st :: sts' => match exec st db with inl e => inl e | inr db' => exec_script sts' db' end
  end.

(** ** The embedded file system *)

Inductive entry : Type :=
| File (name : string) (ddl : list statement)
| Dir (name : string) (entries : list entry).

Definition Name (e : entry) : string := match e with File n _ | Dir n _ => n end.

(** [path.Join], for the names that occur. *)
Definition join (path name : string) : string := if decide (path = ".") then name else path +:+ "/" +:+ name.

(** [fs.WalkDir], over entries in lexical order. *)
Fixpoint WalkDir {St} (fn : string -> entry -> St -> error + St) (path : string) (e : entry) (s : St)
    {struct e} : error + St :=
  match fn path e s with
  | inl err => inl err
  | inr s =>
      match e with
      | File _ _ => inr s
      | Dir _ es =>
          (fix loop (es : list entry) (s : St) : error + St :=
             match es with
             | [] => inr s
             | e :: es => match WalkDir fn (join path (Name e)) e s with inl err => inl err | inr s => loop es s end
             end) es s
      end
  end.

(** ** [Create] *)

(** What fails: the lock, a directory, a file or the execution of one. *)
Record Faults := mkFaults {
  lock_err : option error;
  walk_err : string -> option error;
  read_err : string -> option error;
  exec_err : string -> option error;
}.

Definition no_create_faults : Faults := mkFaults None (fun _ => None) (fun _ => None) (fun _ => None).

(** The function that [Create] walks with. *)
Definition apply_entry (f : Faults) (path : string) (d : entry) (db : Objects) : error + Objects :=
  match walk_err f path with
  | Some e => inl (Wrap "unable to read embedded schema" e)
  | None =>
      match d with
      | Dir _ _ => inr db
      | File _ ddl =>
          match read_err f path with
          | Some e => inl (Wrap "unable to read embedded schema" e)
          | None =>
              match exec_err f path with
              | Some e => inl (Wrap "unable to execute DDL" e)
              | None => match exec_script ddl db with
                        | inl e => inl (Wrap "unable to execute DDL" e)
                        | inr db' => inr db'
                        end
              end
          end
      end
  end.

(** [Create]; its lock excludes that others create the schema at the same time. *)
Definition Create (ddlFS : entry) (env : TxEnv) (f : Faults) (db : Objects) : (error + unit) * Objects :=
  Transact env (fun db =>
    match lock_err f with
    | Some e => inl (Wrap "unable to lock schema" e)
    | None => match WalkDir (apply_entry f) "." ddlFS db with inl e => inl e | inr db' => inr (tt, db') end
    end) db.

(** ** [Drop] *)

(** [strings.Cut] at the first dash: what is after it, or nothing. *)
Fixpoint after_dash (s : string) : string :=
  match s with
  | EmptyString => ""
  | String c s' => if decide (c = Ascii.ascii_of_nat 45) then s' else after_dash s'
  end.

(** [schemas], over the entries of the directory "ddl". *)
Definition schemas (ddl : list entry) : list string :=
  omap (fun e => match e with Dir name _ => Some (after_dash name) | File _ _ => None end) ddl.

(** DROP SCHEMA IF EXISTS ... CASCADE: also what depends on the schema's objects. *)
Definition drop_schema (s : string) (db : Objects) : Objects :=
  filter (fun '(o, _) => obj_schema o <> s /\ obj_uses o <> s) db.

Fixpoint drop_loop (faults : string -> option error) (names : list string) (db : Objects)
    : option error * Objects :=
  match names with
  | [] => (None, db)
  | s :: names' =>
      match faults s with
      | Some e => (Some (Wrap "unable to drop schema" e), db)
      | None => drop_loop faults names' (drop_schema s db)
      end
  end.

Definition Drop (ddl : list entry) (faults : string -> option error) (db : Objects)
    : option error * Objects :=
  drop_loop faults (schemas ddl) db.

(** ** The scripts of [internal/schema/ddl] *)

Definition application_tables : list statement :=
  [CreateSchema "application";
   CreateTable "application" "identity"
     [("singleton", "boolean"); ("key", "uuid"); ("name", "text"); ("PRIMARY KEY", "singleton")] []].

Definition streams_columns : shape := [("id", "uuid"); ("next_offset", "bigint"); ("PRIMARY KEY", "id")].

Definition events_columns : shape :=
  [("message_id", "uuid"); ("correlation_id", "uuid"); ("message_type_id", "uuid"); ("envelope", "bytea");
   ("stream_id", "uuid"); ("stream_offset", "bigint"); ("aggregate_handler_key", "uuid");
   ("aggregate_instance_id", "text"); ("recorded_at", "timestamptz"); ("PRIMARY KEY", "message_id")].

Definition eventstream_tables : list statement :=
  [CreateSchema "eventstream";
   CreateTable "eventstream" "streams" streams_columns [];
   CreateTable "eventstream" "events" events_columns [("events_stream_id_fkey", "eventstream", "streams", "id")];
   CreateIndex "eventstream" "events_by_aggregate_instance" "events"
     ["aggregate_handler_key"; "aggregate_instance_id"; "stream_offset"];
   CreateIndex "eventstream" "events_by_stream_and_offset" "events"
     ["stream_id"; "message_type_id"; "stream_offset"];
   CreateTable "eventstream" "handler_checkpoints"
     [("handler_key", "uuid"); ("stream_id", "uuid"); ("checkpoint_offset", "bigint"); ("failures", "int");
      ("resume_at", "timestamptz"); ("PRIMARY KEY", "handler_key, stream_id")] [];
   DropConstraint "eventstream" "handler_checkpoints" "handler_checkpoints_stream_id_fkey"].

Definition event_fields : shape := [("message_id", "uuid"); ("message_type_id", "uuid"); ("envelope", "bytea")].

(** The type that functions with events among their parameters need. *)
Definition event_type : obj := type_ "eventstream" "event".

Definition append_function : obj := func "eventstream" "append(uuid, uuid, uuid, text, eventstream.event[])" "".

Definition eventstream_funcs : list statement :=
  [CreateType "eventstream" "event" event_fields;
   CreateFunction "eventstream" "acquire_for_write()" "" [("RETURNS", "uuid")] [];
   CreateFunction "eventstream" "append(uuid, uuid, uuid, text, eventstream.event[])" ""
     [("stream_id", "uuid"); ("correlation_id", "uuid"); ("aggregate_handler_key", "uuid");
      ("aggregate_instance_id", "text"); ("events", "eventstream.event[]"); ("RETURNS", "bigint")]
     [(event_type, event_fields); (table "eventstream" "streams", [("id", "uuid"); ("next_offset", "bigint")]);
      (table "eventstream" "events",
        [("stream_id", "uuid"); ("stream_offset", "bigint"); ("message_id", "uuid"); ("correlation_id", "uuid");
         ("message_type_id", "uuid"); ("envelope", "bytea"); ("aggregate_handler_key", "uuid");
         ("aggregate_instance_id", "text")])];
   CreateFunction "eventstream" "append_any(uuid, uuid, text, eventstream.event[])" ""
     [("correlation_id", "uuid"); ("aggregate_handler_key", "uuid"); ("aggregate_instance_id", "text");
      ("events", "eventstream.event[]"); ("RETURNS", "TABLE(stream_id uuid, next_offset bigint)")]
     [(event_type, []); (func "eventstream" "acquire_for_write()" "", [("RETURNS", "uuid")]);
      (append_function, [("RETURNS", "bigint")])]].

Definition eventstream_triggers : list statement :=
  [CreateFunction "eventstream" "signal_create()" "" [("RETURNS", "trigger")] [];
   CreateTrigger "eventstream" "streams" "signal_create" "signal_create()";
   CreateFunction "eventstream" "signal_append()" "" [("RETURNS", "trigger")] [];
   CreateTrigger "eventstream" "events" "signal_append" "signal_append()"].

Definition commandqueue_tables : list statement :=
  [CreateSchema "commandqueue";
   CreateTable "commandqueue" "commands"
     [("message_id", "uuid"); ("message_type_id", "uuid"); ("envelope", "bytea"); ("failures", "int");
      ("enqueued_at", "timestamptz"); ("deliver_at", "timestamptz"); ("PRIMARY KEY", "message_id")] [];
   CreateIndex "commandqueue" "pending_commands_by_type" "commands" ["message_type_id"; "deliver_at"];
   CreateTable "commandqueue" "idempotency_keys"
     [("idempotency_key", "text"); ("message_id", "uuid"); ("PRIMARY KEY", "idempotency_key")] []].

Definition commandqueue_funcs : list statement :=
  [CreateFunction "commandqueue" "add(uuid, uuid, bytea, text)" ""
     [("message_id", "uuid"); ("message_type_id", "uuid"); ("envelope", "bytea"); ("idem_key", "text");
      ("RETURNS", "TABLE(actual_message_id uuid, enqueued boolean)")] [];
   CreateFunction "commandqueue" "remove(uuid)" "" [("message_id", "uuid"); ("RETURNS", "void")] []].

Definition aggregate_tables : list statement :=
  [CreateSchema "aggregate";
   CreateTable "aggregate" "instances"
     [("handler_key", "uuid"); ("instance_id", "text"); ("stream_id", "uuid"); ("snapshot", "bytea");
      ("snapshot_offset", "bigint"); ("PRIMARY KEY", "handler_key, instance_id")]
     [("instances_stream_id_fkey", "eventstream", "streams", "id")]].

Definition aggregate_funcs : list statement :=
  [CreateFunction "aggregate" "complete_without_events(uuid, uuid, text)" ""
     [("message_id", "uuid"); ("handler_key", "uuid"); ("instance_id", "text"); ("RETURNS", "void")] [];
   CreateFunction "aggregate" "complete_with_events(uuid, uuid, text, uuid, uuid, bytea, eventstream.event[])"
     "eventstream"
     [("message_id", "uuid"); ("handler_key", "uuid"); ("instance_id", "text"); ("stream_id", "uuid");
      ("correlation_id", "uuid"); ("snapshot", "bytea"); ("events", "eventstream.event[]"); ("RETURNS", "void")]
     [(event_type, [])]].

Definition integration_tables : list statement := [CreateSchema "integration"].

Definition integration_funcs : list statement :=
  [CreateFunction "integration" "complete_without_events(uuid)" "" [("message_id", "uuid"); ("RETURNS", "void")] [];
   CreateFunction "integration" "complete_with_events(uuid, uuid, eventstream.event[])" "eventstream"
     [("message_id", "uuid"); ("correlation_id", "uuid"); ("events", "eventstream.event[]"); ("RETURNS", "void")]
     [(event_type, [])]].

Definition process_tables : list statement :=
  [CreateSchema "process";
   CreateTable "process" "handlers"
     [("handler_key", "uuid"); ("has_checkpoint_offsets", "boolean"); ("PRIMARY KEY", "handler_key")] [];
   CreateTable "process" "instances"
     [("handler_key", "uuid"); ("instance_id", "text"); ("ended", "boolean"); ("state", "bytea");
      ("PRIMARY KEY", "handler_key, instance_id")] [];
   CreateTable "process" "deadlines"
     [("message_id", "uuid"); ("message_type_id", "uuid"); ("handler_key", "uuid"); ("instance_id", "text");
      ("envelope", "bytea"); ("failures", "int"); ("deliver_at", "timestamptz"); ("PRIMARY KEY", "message_id")] [];
   CreateIndex "process" "pending_deadlines_by_handler" "deadlines" ["handler_key"; "deliver_at"]].

Definition projection_tables : list statement :=
  [CreateSchema "projection";
   CreateTable "projection" "handlers"
     [("handler_key", "uuid"); ("last_compacted_at", "timestamptz"); ("PRIMARY KEY", "handler_key")] []].

Definition ddl : list entry :=
  [Dir "00-application" [File "00-tables.sql" application_tables];
   Dir "00-eventstream" [File "00-tables.sql" eventstream_tables; File "10-funcs.sql" eventstream_funcs;
     File "20-triggers.sql" eventstream_triggers];
   Dir "10-commandqueue" [File "00-tables.sql" commandqueue_tables; File "10-funcs.sql" commandqueue_funcs];
   Dir "20-aggregate" [File "00-tables.sql" aggregate_tables; File "10-funcs.sql" aggregate_funcs];
   Dir "20-integration" [File "00-tables.sql" integration_tables; File "10-funcs.sql" integration_funcs];
   Dir "20-process" [File "00-tables.sql" process_tables];
   Dir "20-projection" [File "00-tables.sql" projection_tables]].

Definition ddlFS : entry := Dir "." [Dir "ddl" ddl].

(** ** Walking without faults is executing every script in order *)

Fixpoint scripts (e : entry) : list statement :=
  match e with
  | File _ ddl => ddl
  | Dir _ es => (fix loop (es : list entry) := match es with [] => [] | e :: es => scripts e ++ loop es end) es
  end.

Lemma exec_script_app sts1 sts2 db :
  exec_script (sts1 ++ sts2) db = match exec_script sts1 db with inl e => inl e | inr db' => exec_script sts2 db' end.
Proof.
  revert db. induction sts1 as [|st sts1 IH]; intros db; cbn; [done|]. destruct (exec st db); [done|apply IH].
Qed.

Lemma walk_scripts : forall e path db,
  match WalkDir (apply_entry no_create_faults) path e db, exec_script (scripts e) db with
  | inr db1, inr db2 => db1 = db2
  | inl _, inl _ => True
  | _, _ => False
  end.
Proof.
  fix IH 1. intros [name sts|name es] path db; cbn; [destruct (exec_script sts db); done|].
  clear name. revert db. induction es as [|e es IHes]; intros db; [done|].
  specialize (IH e (join path (Name e)) db). rewrite exec_script_app.
  destruct (WalkDir _ _ e db) as [e1|db1], (exec_script (scripts e) db) as [e2|db2]; try done. subst db2. apply IHes.
Qed.

(** ** What the scripts establish *)

(** Statements make, and need, objects other than constraints, which is all that they
    drop. *)
Definition lasting (o : obj) : Prop := obj_kind o <> "constraint".

#[global] Instance lasting_dec o : Decision (lasting o).
Proof. unfold lasting. apply _. Defined.

Definition made (sts : list statement) : Objects := (list_to_map (omap makes sts) : gmap obj shape).

(** The object, if it is there, has what is needed of it. *)
Definition may_meet (db : Objects) (n : obj * shape) : Prop :=
  forall sh, db !! n.1 = Some sh -> includes sh n.2.

(** What is in the database is no obstacle to the statement: either it is skipped, or the
    objects that it needs have what is needed of them if they are there, and a function
    that it replaces has the same parameters and the same result. *)
Definition fits (db : Objects) (st : statement) : Prop :=
  match makes st with
  | Some (o, sh) =>
      skips st = true /\ is_Some (db !! o) \/
      Forall (may_meet db) (needs st) /\ (db !! o = None \/ db !! o = Some sh)
  | None => Forall (may_meet db) (needs st)
  end.

(** A static check: each statement finds what it needs among what the ones before it make,
    and makes what none of them makes. *)
Definition supported (pre : list statement) (st : statement) : Prop :=
  Forall (fun n => met (made pre) n /\ lasting n.1) (needs st) /\
  match makes st with Some (o, _) => lasting o /\ made pre !! o = None | None => True end.

#[global] Instance supported_dec pre st : Decision (supported pre st).
Proof. unfold supported. destruct (makes st) as [[o sh]|]; apply _. Defined.

Fixpoint sound (pre sts : list statement) : Prop :=
  match sts with
  | [] => True
  | st :: sts' => supported pre st /\ sound (pre ++ [st]) sts'
  end.

#[global] Instance sound_dec : forall sts pre, Decision (sound pre sts).
Proof. induction sts; intros pre; cbn; apply _. Defined.

(** The database after the statements of [pre], but for constraints. *)
Definition as_of (db : Objects) (pre : list statement) (db' : Objects) : Prop :=
  forall o, lasting o -> db' !! o = (db ∪ made pre) !! o.

Lemma made_snoc pre st :
  made (pre ++ [st]) = match makes st with Some (o, sh) => made pre ∪ {[o := sh]} | None => made pre end.
Proof.
  unfold made. rewrite omap_app, (list_to_map_app (M := gmap obj)).
  change (omap makes [st]) with (match makes st with Some x => [x] | None => [] end).
  destruct (makes st) as [[o sh]|]; [done|]. by rewrite list_to_map_nil, (right_id_L ∅ (∪)).
Qed.

Lemma keys_of_constraints st o : o ∈ keys_of st -> ~ lasting o.
Proof.
  destruct st; cbn; try (by intros ?%not_elem_of_nil). intros ([[[c s'] t'] c'] & -> & _)%list_elem_of_fmap Hl.
  by apply Hl.
Qed.

Lemma constraints_of_None st o : o ∉ keys_of st -> constraints_of st !! o = None.
Proof. intros Hk. unfold constraints_of. apply lookup_gset_to_gmap_None. by rewrite elem_of_list_to_set. Qed.

Lemma met_as_of db pre db' n :
  as_of db pre db' -> met (made pre) n -> lasting n.1 -> met db' n <-> may_meet db n.
Proof.
  intros Ha Hm Hl. unfold met, may_meet in *. rewrite (Ha _ Hl), lookup_union.
  destruct (db !! n.1) as [sh|], (made pre !! n.1) as [sh'|]; cbn; try done; split; try done;
    try (by intros ? ? [= <-]); by intros H; apply H.
Qed.

Lemma needs_as_of db pre db' st :
  as_of db pre db' -> supported pre st -> Forall (met db') (needs st) <-> Forall (may_meet db) (needs st).
Proof.
  intros Ha [Hn _]. rewrite !Forall_forall in *. split; intros H n Hin; destruct (Hn n Hin) as [Hm Hl];
    [apply (met_as_of db pre db')|apply (met_as_of db pre db' n Ha Hm Hl)]; auto.
Qed.

Lemma as_of_skip db pre st db' o sh :
  as_of db pre db' -> makes st = Some (o, sh) -> is_Some (db !! o) -> as_of db (pre ++ [st]) db'.
Proof.
  intros Ha Hm [sh' Hs] o' Hl. rewrite (Ha o' Hl), made_snoc, Hm, !lookup_union.
  destruct (decide (o = o')) as [->|Hne]; [rewrite Hs, lookup_singleton_eq; by destruct (made pre !! o')|].
  rewrite lookup_singleton_ne by done. by destruct (db !! o'), (made pre !! o').
Qed.

Lemma as_of_make db pre st db' o sh :
  as_of db pre db' -> makes st = Some (o, sh) -> made pre !! o = None ->
  db !! o = None \/ db !! o = Some sh ->
  as_of db (pre ++ [st]) (<[o := sh]> db' ∪ constraints_of st).
Proof.
  intros Ha Hm Hfresh Hdb o' Hl. rewrite made_snoc, Hm, !lookup_union.
  rewrite (constraints_of_None st o') by (by intros ?%keys_of_constraints).
  destruct (decide (o = o')) as [->|Hne].
  - rewrite lookup_insert_eq, lookup_singleton_eq, Hfresh. by destruct Hdb as [-> | ->].
  - rewrite lookup_insert_ne, lookup_singleton_ne, (Ha o' Hl), lookup_union by done.
    by destruct (db !! o'), (made pre !! o').
Qed.

Lemma as_of_drop db pre st db' :
  as_of db pre db' -> makes st = None -> as_of db (pre ++ [st]) (filter (fun '(o, _) => ~ dropped st o) db').
Proof.
  intros Ha Hm o Hl. rewrite made_snoc, Hm, <- (Ha o Hl).
  destruct (db' !! o) as [sh|] eqn:Ho; [|apply map_lookup_filter_None; by left].
  apply map_lookup_filter_Some. split; [done|]. intros Hd. destruct st; try done. destruct Hd as [uses ->]. by apply Hl.
Qed.

(** A statement succeeds if and only if the database is no obstacle to it. *)
Lemma exec_as_of db pre st db1 :
  as_of db pre db1 -> supported pre st ->
  (fits db st -> exists db2, exec st db1 = inr db2 /\ as_of db (pre ++ [st]) db2) /\
  (forall db2, exec st db1 = inr db2 -> fits db st).
Proof.
  intros Ha Hsup. pose proof (needs_as_of db pre db1 st Ha Hsup) as Hneeds. destruct Hsup as [_ Hmk].
  unfold fits, exec. destruct (makes st) as [[o sh]|] eqn:Hm.
  - destruct Hmk as [Hl Hfresh]. assert (Ho : db1 !! o = db !! o).
    { rewrite (Ha o Hl), lookup_union, Hfresh. by destruct (db !! o). }
    rewrite Ho. split.
    + intros [Hskip|[Hn Hdb]].
      * rewrite decide_True by done. exists db1. split; [done|]. destruct Hskip. by eapply as_of_skip.
      * case_decide as Hs; [exists db1; split; [done|]; destruct Hs; by eapply as_of_skip|].
        rewrite decide_True by (by apply Hneeds). rewrite decide_True by done.
        eexists. split; [done|]. by eapply as_of_make.
    + intros db2. case_decide; [by left|]. case_decide; [|done]. case_decide; [|done]. intros _. right. tauto.
  - split.
    + intros Hn. rewrite decide_True by (by apply Hneeds). eexists. split; [done|]. by apply as_of_drop.
    + intros db2. case_decide; [|done]. intros _. tauto.
Qed.

Lemma exec_script_as_of db sts : forall pre db1,
  as_of db pre db1 -> sound pre sts ->
  (Forall (fits db) sts -> exists db2, exec_script sts db1 = inr db2 /\ as_of db (pre ++ sts) db2) /\
  (forall db2, exec_script sts db1 = inr db2 -> Forall (fits db) sts).
Proof.
  induction sts as [|st sts IH]; intros pre db1 Ha Hs; cbn.
  { split; [|constructor]. intros _. exists db1. by rewrite app_nil_r. }
  destruct Hs as [Hst Hs]. destruct (exec_as_of db pre st db1 Ha Hst) as [Hok Hfits]. split.
  - intros [Hf Hfs]%Forall_cons. destruct (Hok Hf) as (db2 & -> & Ha2).
    destruct (IH (pre ++ [st]) db2 Ha2 Hs) as [Hok2 _]. rewrite <- app_assoc in Hok2. by apply Hok2.
  - intros db3. destruct (exec st db1) as [e|db2] eqn:He; [done|]. intros Hx.
    pose proof (Hfits db2 eq_refl) as Hf. destruct (Hok Hf) as (db2' & [= <-] & Ha2).
    constructor; [done|]. destruct (IH (pre ++ [st]) db2 Ha2 Hs) as [_ Hfs]. by eapply Hfs.
Qed.

(** ** Constraints *)

(** What is there stays as it is, unless it is dropped. *)
Lemma exec_keeps st db db' o sh :
  exec st db = inr db' -> db !! o = Some sh -> ~ dropped st o -> db' !! o = Some sh.
Proof.
  unfold exec. destruct (makes st) as [[o' sh']|].
  - case_decide; [by intros [= <-]|]. case_decide; [|done]. case_decide as Hdb; [|done]. intros [= <-] Ho _.
    rewrite lookup_union. destruct (decide (o' = o)) as [->|Hne].
    + rewrite lookup_insert_eq. rewrite Ho in Hdb. destruct Hdb as [|[= ->]]; [done|].
      by destruct (constraints_of st !! o).
    + rewrite lookup_insert_ne, Ho by done. by destruct (constraints_of st !! o).
  - case_decide; [|done]. intros [= <-] Ho Hd. by apply map_lookup_filter_Some.
Qed.

Lemma exec_script_keeps sts : forall db db' o sh,
  exec_script sts db = inr db' -> db !! o = Some sh -> Forall (fun st => ~ dropped st o) sts -> db' !! o = Some sh.
Proof.
  induction sts as [|st sts IH]; intros db db' o sh; cbn; [by intros [= <-]|].
  destruct (exec st db) as [e|db1] eqn:He; [done|]. intros Hx Ho [Hd Hds]%Forall_cons.
  eapply IH; [done| |done]. by eapply exec_keeps.
Qed.

(** What is there was there before, or was made. *)
Definition never_made (o : obj) (sts : list statement) : Prop :=
  Forall (fun st => (fst <$> makes st) <> Some o /\ o ∉ keys_of st) sts.

Lemma exec_never_made st db db' o :
  (fst <$> makes st) <> Some o -> o ∉ keys_of st -> exec st db = inr db' -> is_Some (db' !! o) -> is_Some (db !! o).
Proof.
  intros Hm Hk. unfold exec. destruct (makes st) as [[o' sh']|].
  - case_decide; [by intros [= <-]|]. case_decide; [|done]. case_decide; [|done]. intros [= <-].
    rewrite lookup_union, lookup_insert_ne by (intros ->; by apply Hm).
    rewrite (constraints_of_None st o) by done.
    by destruct (db !! o).
  - case_decide; [|done]. intros [= <-] [sh [? _]%map_lookup_filter_Some]. by exists sh.
Qed.

Lemma never_made_spec o sts : forall db db',
  never_made o sts -> exec_script sts db = inr db' -> is_Some (db' !! o) -> is_Some (db !! o).
Proof.
  induction sts as [|st sts IH]; intros db db' Hn; cbn; [by intros [= <-]|].
  apply Forall_cons in Hn as [[Hm Hk] Hn]. destruct (exec st db) as [e|db1] eqn:He; [done|]. intros Hx Ho.
  eapply exec_never_made; [done..|]. by eapply IH.
Qed.

(** ** The scripts of this schema *)

(** What [Create] establishes. *)
Definition declared : Objects := made (scripts ddlFS).

(** The constraint of older engines, which is removed. *)
Definition legacy (o : obj) : Prop :=
  exists uses, o = constraint "eventstream" "handler_checkpoints_stream_id_fkey" uses.

Definition instances_table : obj := table "aggregate" "instances".
Definition instances_key : obj := constraint "aggregate" "instances_stream_id_fkey" "eventstream".

Lemma scripts_sound : sound [] (scripts ddlFS).
Proof. apply (bool_decide_unpack (sound _ _)). vm_compute. reflexivity. Qed.

(** Once all is established a statement finds what it needs. *)
Definition redundant (st : statement) : Prop :=
  Forall (fun n => met declared n /\ lasting n.1) (needs st) /\
  match makes st with
  | Some (o, sh) => lasting o /\ declared !! o = Some sh /\ (skips st = true \/ keys_of st = [])
  | None => True
  end.

#[global] Instance redundant_dec st : Decision (redundant st).
Proof. unfold redundant. destruct (makes st) as [[o sh]|]; apply _. Defined.

Lemma scripts_redundant : Forall redundant (scripts ddlFS).
Proof. apply (bool_decide_unpack (Forall redundant _)). vm_compute. reflexivity. Qed.

Lemma dropped_legacy st o : st ∈ scripts ddlFS -> dropped st o -> legacy o.
Proof.
  intros Hin Hd. assert (Hall : Forall (fun st => match st with
    | DropConstraint s _ c => s = "eventstream" /\ c = "handler_checkpoints_stream_id_fkey" | _ => True end)
    (scripts ddlFS)) by (cbv [scripts ddlFS ddl]; repeat constructor).
  rewrite Forall_forall in Hall. specialize (Hall st Hin). destruct st; try done. by destruct Hall as [-> ->].
Qed.

(** The scripts, around the statements that matter for constraints. *)
Definition upto_legacy : list statement := application_tables ++ take 6 eventstream_tables.
Definition after_legacy : list statement :=
  eventstream_funcs ++ eventstream_triggers ++ commandqueue_tables ++ commandqueue_funcs ++ aggregate_tables ++
  aggregate_funcs ++ integration_tables ++ integration_funcs ++ process_tables ++ projection_tables.

Lemma scripts_split : scripts ddlFS = upto_legacy ++
  DropConstraint "eventstream" "handler_checkpoints" "handler_checkpoints_stream_id_fkey" :: after_legacy.
Proof. reflexivity. Qed.

Definition upto_instances : list statement :=
  application_tables ++ eventstream_tables ++ eventstream_funcs ++ eventstream_triggers ++ commandqueue_tables ++
  commandqueue_funcs ++ take 1 aggregate_tables.
Definition create_instances : list statement := drop 1 aggregate_tables.
Definition after_instances : list statement :=
  aggregate_funcs ++ integration_tables ++ integration_funcs ++ process_tables ++ projection_tables.

Lemma scripts_split_instances : scripts ddlFS = upto_instances ++ create_instances ++ after_instances.
Proof. reflexivity. Qed.

(** What remains when the first two schemas are dropped. *)
Definition in_half (o : obj) : Prop :=
  (obj_schema o <> "application" /\ obj_uses o <> "application") /\
  (obj_schema o <> "eventstream" /\ obj_uses o <> "eventstream").

#[global] Instance in_half_dec o : Decision (in_half o).
Proof. unfold in_half. apply _. Defined.

(** A statement whose object is dropped needs nothing of what is left but that it exists. *)
Definition remade (st : statement) : Prop :=
  match makes st with
  | Some (o, _) => in_half o \/ Forall (fun n => in_half n.1 -> n.2 = []) (needs st)
  | None => True
  end.

#[global] Instance remade_dec st : Decision (remade st).
Proof. unfold remade. destruct (makes st) as [[o sh]|]; apply _. Defined.

Lemma scripts_remade : Forall remade (scripts ddlFS).
Proof. apply (bool_decide_unpack (Forall remade _)). vm_compute. reflexivity. Qed.

Lemma declared_schemas : map_Forall (fun o _ => obj_schema o ∈ schemas ddl) declared.
Proof. apply (bool_decide_unpack (map_Forall _ _)). vm_compute. reflexivity. Qed.

#[local] Opaque ddlFS.

Lemma met_declared db db' n :
  as_of db (scripts ddlFS) db' -> met declared n -> lasting n.1 -> may_meet db n -> met db' n.
Proof. intros Ha Hd Hl Hm. by apply (met_as_of db (scripts ddlFS) db'). Qed.

Lemma redundant_needs db db' st :
  as_of db (scripts ddlFS) db' -> redundant st -> Forall (may_meet db) (needs st) -> Forall (met db') (needs st).
Proof.
  intros Ha [Hn _] Hm. rewrite !Forall_forall in *. intros n Hin. destruct (Hn n Hin). eapply met_declared; eauto.
Qed.

(** What a statement makes is there once all is established. *)
Lemma made_declared db db' st o sh :
  as_of db (scripts ddlFS) db' -> redundant st -> makes st = Some (o, sh) ->
  is_Some (db' !! o) /\ (db !! o = None \/ db !! o = Some sh -> db' !! o = Some sh).
Proof.
  intros Ha [_ Hm] Hmk. rewrite Hmk in Hm. destruct Hm as (Hl & Hd & _). unfold declared in Hd.
  rewrite (Ha o Hl), lookup_union, Hd. split; [destruct (db !! o); by eexists|]. by intros [-> | ->].
Qed.

(** Applied again, a statement does nothing. *)
Lemma exec_again db db' st :
  as_of db (scripts ddlFS) db' -> redundant st -> fits db st -> (forall o, dropped st o -> db' !! o = None) ->
  exec st db' = inr db'.
Proof.
  intros Ha Hr Hf Hd. pose proof (redundant_needs db db' st Ha Hr) as Hneeds. unfold fits, exec in *.
  destruct (makes st) as [[o sh]|] eqn:Hmk.
  - destruct (made_declared db db' st o sh Ha Hr Hmk) as [Hsome Hsame].
    case_decide as Hs; [done|]. destruct Hf as [[Hskip _]|[Hn Hdb]]; [by destruct Hs|].
    specialize (Hsame Hdb). rewrite decide_True by auto. rewrite decide_True by auto.
    destruct Hr as [_ Hr]. rewrite Hmk in Hr. destruct Hr as (_ & _ & [Hsk|Hk]); [by destruct Hs|].
    f_equal. rewrite insert_id by done. unfold constraints_of.
    rewrite Hk, list_to_set_nil, gset_to_gmap_empty. apply map_union_empty.
  - rewrite decide_True by auto. f_equal. apply map_filter_id. intros o sh Ho Hx. rewrite (Hd o Hx) in Ho. done.
Qed.

Lemma exec_script_again sts db : Forall (fun st => exec st db = inr db) sts -> exec_script sts db = inr db.
Proof. induction 1 as [|st sts Hs _ IH]; [done|]. cbn. by rewrite Hs. Qed.

Lemma makes_lasting st o sh : makes st = Some (o, sh) -> lasting o.
Proof. destruct st; cbn; intros [= <- _]; done. Qed.

Lemma scripts_remove_legacy db db' o :
  exec_script (scripts ddlFS) db = inr db' -> legacy o -> db' !! o = None.
Proof.
  rewrite scripts_split, exec_script_app. destruct (exec_script upto_legacy db) as [e|db1]; [done|].
  cbn [exec_script]. destruct (exec _ db1) as [e|db2] eqn:He; [done|]. intros Hx Hl.
  apply eq_None_not_Some. intros Ho.
  assert (Hn : never_made o after_legacy).
  { assert (Hk : Forall (fun st => keys_of st ⊆ [instances_key]) after_legacy)
      by (apply (bool_decide_unpack (Forall _ _)); vm_compute; reflexivity).
    destruct Hl as [uses ->]. eapply Forall_impl; [exact Hk|]. intros st Hst. split.
    - destruct (makes st) as [[o' sh]|] eqn:Hmk; [|done]. cbn. intros [= ->]. by apply makes_lasting in Hmk.
    - intros Hin%Hst. by apply list_elem_of_singleton in Hin. }
  pose proof (never_made_spec o _ _ _ Hn Hx Ho) as [sh Ho2]. revert He. unfold exec. cbn [makes].
  case_decide; [|done]. intros [= <-]. by apply map_lookup_filter_Some in Ho2 as [_ ?].
Qed.

Lemma instances_never_made : never_made instances_table upto_instances.
Proof. apply (bool_decide_unpack (Forall _ _)). vm_compute. reflexivity. Qed.

Lemma key_never_made : never_made instances_key (upto_instances ++ after_instances).
Proof. apply (bool_decide_unpack (Forall _ _)). vm_compute. reflexivity. Qed.

Lemma scripts_make_key db db' :
  exec_script (scripts ddlFS) db = inr db' -> db !! instances_table = None -> is_Some (db' !! instances_key).
Proof.
  rewrite scripts_split_instances, exec_script_app.
  destruct (exec_script upto_instances db) as [e|db1] eqn:H1; [done|]. rewrite exec_script_app. intros Hx Hno.
  assert (Hno1 : db1 !! instances_table = None).
  { apply eq_None_not_Some. intros Hin. apply (never_made_spec _ _ _ _ instances_never_made H1) in Hin.
    rewrite Hno in Hin. by destruct Hin. }
  destruct (exec_script create_instances db1) as [e|db2] eqn:He; [done|].
  assert (is_Some (db2 !! instances_key)) as [sh Hk].
  { revert He. unfold create_instances, exec_script, exec. cbn [makes skips drop aggregate_tables].
    change (table "aggregate" "instances") with instances_table. rewrite Hno1, decide_False by (intros [_ []]; done).
    case_decide; [|done]. rewrite decide_True by auto. intros [= <-]. rewrite lookup_union, lookup_insert_ne by done.
    destruct (db1 !! instances_key); by eexists. }
  exists sh. eapply exec_script_keeps; [exact Hx|done|repeat constructor; cbn; intros Hd; destruct Hd; done].
Qed.

(** The foreign key is not made where the table is. *)
Lemma scripts_keep_missing_key db db' :
  exec_script (scripts ddlFS) db = inr db' -> is_Some (db !! instances_table) -> db !! instances_key = None ->
  db' !! instances_key = None.
Proof.
  rewrite scripts_split_instances, exec_script_app.
  destruct (exec_script upto_instances db) as [e|db1] eqn:H1; [done|]. rewrite exec_script_app. intros Hx [sh Ht] Hk.
  assert (Ht1 : db1 !! instances_table = Some sh).
  { eapply exec_script_keeps; [exact H1|done|]. apply (bool_decide_unpack (Forall _ _)). vm_compute. reflexivity. }
  assert (Hskip : exec_script create_instances db1 = inr db1).
  { unfold create_instances, exec_script, exec. cbn [makes skips drop aggregate_tables].
    change (table "aggregate" "instances") with instances_table. by rewrite Ht1, decide_True by eauto. }
  rewrite Hskip in Hx. apply eq_None_not_Some. intros Hin. pose proof key_never_made as Hn.
  unfold never_made in Hn. apply Forall_app in Hn as [Hn1 Hn2].
  apply (never_made_spec _ _ _ _ Hn2 Hx), (never_made_spec _ _ _ _ Hn1 H1) in Hin. rewrite Hk in Hin. by destruct Hin.
Qed.

(** Applied again, the scripts do nothing. *)
Lemma scripts_idempotent db db' :
  exec_script (scripts ddlFS) db = inr db' -> exec_script (scripts ddlFS) db' = inr db'.
Proof.
  intros Hx. destruct (exec_script_as_of db (scripts ddlFS) [] db) as [Hok Hfits].
  { intros o _. unfold made. cbn. by rewrite map_union_empty. }
  { exact scripts_sound. }
  pose proof (Hfits db' Hx) as Hf. destruct (Hok Hf) as (db2 & Hx2 & Ha). rewrite Hx in Hx2. injection Hx2 as <-.
  apply exec_script_again. pose proof scripts_redundant as Hr. rewrite Forall_forall in *. intros st Hst.
  apply (exec_again db); auto. intros o Ho. apply (scripts_remove_legacy db); [done|]. by apply (dropped_legacy st).
Qed.

Lemma scripts_spec db :
  (Forall (fits db) (scripts ddlFS) ->
   exists db', exec_script (scripts ddlFS) db = inr db' /\ as_of db (scripts ddlFS) db') /\
  (forall db', exec_script (scripts ddlFS) db = inr db' -> Forall (fits db) (scripts ddlFS)).
Proof.
  apply (exec_script_as_of db (scripts ddlFS) [] db); [|exact scripts_sound].
  intros o _. unfold made. cbn. by rewrite map_union_empty.
Qed.

Lemma scripts_keep db db' o sh :
  exec_script (scripts ddlFS) db = inr db' -> db !! o = Some sh -> ~ legacy o -> db' !! o = Some sh.
Proof.
  intros Hx Ho Hl. eapply exec_script_keeps; [done..|]. apply Forall_forall. intros st Hst Hd.
  by apply Hl, (dropped_legacy st).
Qed.

(** ** [Create] and [Drop] *)

Lemma Create_scripts db db' :
  exec_script (scripts ddlFS) db = inr db' ->
  Create ddlFS no_faults no_create_faults db = (inr tt, db').
Proof.
  intros Hx. unfold Create, Transact. cbn [lock_err no_create_faults begin_err no_faults].
  pose proof (walk_scripts ddlFS "." db) as Hw. rewrite Hx in Hw.
  destruct (WalkDir (apply_entry no_create_faults) "." ddlFS db) as [e|db1]; [done|]. by subst db1.
Qed.

Lemma apply_entry_faults f path e db db' :
  apply_entry f path e db = inr db' -> apply_entry no_create_faults path e db = inr db'.
Proof.
  unfold apply_entry. cbn. destruct (walk_err f path); [done|]. destruct e; [|done].
  destruct (read_err f path); [done|]. by destruct (exec_err f path).
Qed.

(** A walk that succeeds is one without faults. *)
Lemma walk_faults f : forall e path db db',
  WalkDir (apply_entry f) path e db = inr db' -> WalkDir (apply_entry no_create_faults) path e db = inr db'.
Proof.
  fix IH 1. intros [name sts|name es] path db db'.
  - cbn [WalkDir]. destruct (apply_entry f path _ db) as [e|db1] eqn:Ha; [done|].
    by rewrite (apply_entry_faults _ _ _ _ _ Ha).
  - cbn [WalkDir]. destruct (apply_entry f path _ db) as [e|db1] eqn:Ha; [done|].
    rewrite (apply_entry_faults _ _ _ _ _ Ha). clear Ha. revert db1 db'.
    induction es as [|e es IHes]; intros db1 db'; [done|].
    destruct (WalkDir (apply_entry f) (join path (Name e)) e db1) as [er|db2] eqn:Hw; [done|].
    rewrite (IH _ _ _ _ Hw). apply IHes.
Qed.

Lemma Create_fails db e :
  exec_script (scripts ddlFS) db = inl e -> exists e', Create ddlFS no_faults no_create_faults db = (inl e', db).
Proof.
  intros Hx. unfold Create, Transact. cbn [lock_err no_create_faults begin_err no_faults].
  pose proof (walk_scripts ddlFS "." db) as Hw. rewrite Hx in Hw.
  destruct (WalkDir (apply_entry no_create_faults) "." ddlFS db) as [e1|db1]; [by eexists|done].
Qed.

Lemma Create_exec db db' :
  Create ddlFS no_faults no_create_faults db = (inr tt, db') -> exec_script (scripts ddlFS) db = inr db'.
Proof.
  intros Hc. destruct (exec_script (scripts ddlFS) db) as [e|db1] eqn:Hx.
  - destruct (Create_fails db e Hx) as [e' He]. congruence.
  - rewrite (Create_scripts db db1 Hx) in Hc. by injection Hc as <-.
Qed.

(** With any fault, [Create] does nothing or what it does without. *)
Lemma Create_atomic env f db :
  (exists e, Create ddlFS env f db = (inl e, db)) \/
  Create ddlFS env f db = Create ddlFS no_faults no_create_faults db.
Proof.
  unfold Create at 1 2, Transact. destruct (begin_err env); [left; by eexists|].
  destruct (lock_err f); [left; by eexists|].
  destruct (WalkDir (apply_entry f) "." ddlFS db) as [e|db1] eqn:Hw; [left; by eexists|].
  destruct (commit_err env); [left; by eexists|right]. apply walk_faults in Hw.
  pose proof (walk_scripts ddlFS "." db) as Hs. rewrite Hw in Hs.
  destruct (exec_script (scripts ddlFS) db) as [e|db2] eqn:Hx; [done|]. subst db2. by rewrite (Create_scripts _ _ Hx).
Qed.

Lemma drop_schema_spec s db o sh :
  drop_schema s db !! o = Some sh <-> db !! o = Some sh /\ obj_schema o <> s /\ obj_uses o <> s.
Proof. unfold drop_schema. apply map_lookup_filter_Some. Qed.

Lemma drop_loop_spec names : forall db o sh,
  (drop_loop (fun _ => None) names db).2 !! o = Some sh <->
  db !! o = Some sh /\ (obj_schema o ∉ names) /\ obj_uses o ∉ names.
Proof.
  induction names as [|s names IH]; intros db o sh; cbn; [set_solver|].
  rewrite IH, drop_schema_spec. set_solver.
Qed.

(** ** Properties *)


(** *** A [Drop] that fails *)

Definition fault_at (name s : string) : option error :=
  if decide (s = name) then Some (Opaque "connection lost") else None.

(** What is left by a [Drop] that fails at the third schema. *)
Definition half_dropped (db : Objects) : Objects := drop_schema "eventstream" (drop_schema "application" db).

Lemma Drop_fails_third db :
  exists e, Drop ddl (fault_at "commandqueue") db = (Some e, half_dropped db).
Proof. by eexists. Qed.

Lemma half_dropped_spec db o sh : half_dropped db !! o = Some sh <-> db !! o = Some sh /\ in_half o.
Proof. unfold half_dropped, in_half. rewrite !drop_schema_spec. tauto. Qed.

Lemma may_meet_half db n : may_meet db n -> may_meet (half_dropped db) n.
Proof. intros Hm sh [Ho _]%half_dropped_spec. by apply Hm. Qed.

Lemma fits_half db st : remade st -> fits db st -> fits (half_dropped db) st.
Proof.
  unfold remade, fits. destruct (makes st) as [[o sh]|] eqn:Hmk;
    [|intros _ Hn; eapply Forall_impl; [exact Hn|apply may_meet_half]].
  intros Hrem [[Hs [sh' Hsome]]|[Hn Hdb]].
  - destruct (decide (in_half o)) as [Hin|Hout].
    + left. split; [done|]. exists sh'. by apply half_dropped_spec.
    + right. destruct Hrem as [|Hrem]; [done|]. split.
      * rewrite Forall_forall in *. intros [o' req] Hin sh'' [_ Hh]%half_dropped_spec.
        specialize (Hrem _ Hin Hh). cbn in Hrem. subst req. constructor.
      * left. apply eq_None_not_Some. by intros [x [_ ?]%half_dropped_spec].
  - right. split; [eapply Forall_impl; [exact Hn|apply may_meet_half]|].
    destruct (half_dropped db !! o) as [x|] eqn:Hx; [|by left]. apply half_dropped_spec in Hx as [Hx _].
    rewrite Hx in Hdb. by right; destruct Hdb as [|[= ->]].
Qed.

(** C30: [Drop] is not atomic: it drops the schemas one by one, the event streams before the
    aggregates, whose foreign key goes with them while the table stays.  If it then fails,
    [Create] succeeds but does not make the foreign key again, as the table exists. *)
Theorem failed_drop_loses_foreign_key db created :
  db !! instances_table = None ->
  Create ddlFS no_faults no_create_faults db = (inr tt, created) ->
  is_Some (created !! instances_key) /\
  exists half e again,
    Drop ddl (fault_at "commandqueue") created = (Some e, half) /\
    Create ddlFS no_faults no_create_faults half = (inr tt, again) /\
    is_Some (again !! instances_table) /\ again !! instances_key = None.
Proof.
  intros Hno Hc%Create_exec. split; [by apply (scripts_make_key db)|].
  destruct (Drop_fails_third created) as [e Hd]. exists (half_dropped created), e.
  assert (Hf : Forall (fits (half_dropped created)) (scripts ddlFS)).
  { pose proof scripts_remade as Hr. apply scripts_idempotent in Hc. apply (proj2 (scripts_spec created)) in Hc.
    rewrite Forall_forall in *. intros st Hst. apply fits_half; auto. }
  destruct (proj1 (scripts_spec (half_dropped created)) Hf) as (again & Hx & Ha). exists again.
  split; [exact Hd|]. split; [by apply Create_scripts|].
  assert (is_Some (half_dropped created !! instances_table)) as [sh Ht].
  { destruct (proj1 (scripts_spec db) (proj2 (scripts_spec db) created Hc)) as (db' & Hx' & Ha').
    rewrite Hc in Hx'. injection Hx' as <-.
    assert (is_Some (created !! instances_table)) as [sh Hs].
    { rewrite (Ha' instances_table) by done. rewrite lookup_union, Hno. by eexists. }
    exists sh. apply half_dropped_spec. split; [done|]. by repeat split. }
  split.
  - exists sh. apply (scripts_keep (half_dropped created)); [done..|]. by intros [uses ?].
  - apply (scripts_keep_missing_key (half_dropped created)); [done|by eexists|].
    apply eq_None_not_Some. intros [x [_ [_ [_ Hu]]]%half_dropped_spec]. by apply Hu.
Qed.

(** *** Examples *)

(** A database in which "append" returns something else, and one with an older table of
    commands. *)
Definition example_other_result : Objects := {[append_function := [("RETURNS", "void")]]}.
Definition example_old_commands : Objects := {[table "commandqueue" "commands" := [("message_id", "uuid")]]}.

#[global] Instance may_meet_dec db n : Decision (may_meet db n).
Proof.
  unfold may_meet, includes, has. destruct (db !! n.1) as [sh|].
  - destruct (decide (Forall (fun e => Exists (fun e' => e'.1 = e.1 /\ (e.2 = "" \/ e'.2 = e.2)) sh) n.2)) as [Hi|Hi];
      [left; by intros ? [= <-]|right; intros Ha; by apply Hi, Ha].
  - left. by intros ? [=].
Defined.

#[global] Instance fits_dec db st : Decision (fits db st).
Proof. unfold fits. destruct (makes st) as [[o sh]|]; apply _. Defined.

Lemma empty_fits : Forall (fits ∅) (scripts ddlFS).
Proof. apply (bool_decide_unpack (Forall _ _)). vm_compute. reflexivity. Qed.


Lemma failed_drop_loses_foreign_key_witness :
  exists created half e again,
    Create ddlFS no_faults no_create_faults ∅ = (inr tt, created) /\ is_Some (created !! instances_key) /\
    Drop ddl (fault_at "commandqueue") created = (Some e, half) /\
    Create ddlFS no_faults no_create_faults half = (inr tt, again) /\
    is_Some (again !! instances_table) /\ again !! instances_key = None.
Proof.
  destruct (proj1 (scripts_spec ∅) empty_fits) as (created & Hx & _).
  pose proof (Create_scripts ∅ created Hx) as Hc.
  destruct (failed_drop_loses_foreign_key ∅ created (lookup_empty _) Hc) as (Hk & half & e & again & Hrest).
  exists created, half, e, again. split; [exact Hc|]. split; [exact Hk|exact Hrest].
Defined.
