(* ===== verification/Locks.v ===== *)
(** * The locks of transactions

    Which locks the transactions of the engine take, and in which order: the row locks of
    their statements and the advisory locks of [internal/concurrency/lock.go].  A
    deadlock "indicates a lock-ordering bug in the engine and should never occur"
    ([internal/x/xsql/deadlock.go]).

    A transaction is a [program]: a statement that waits for a row, one that passes over
    rows that are locked (SKIP LOCKED), with what is done if it has the rows and what
    otherwise, and the release of an advisory lock.  Everything else is released when the
    transaction ends.  Rows that a transaction inserts under a new ID are not visible to
    others and are left out; so are the schema's own statements. *)

From S2P Require Import Prelude Errors Stream Database.

Inductive lock : Type :=
| Checkpoint (hk sid : UUID)                          (* eventstream.handler_checkpoints *)
| Instance (hk : UUID) (iid : string)                 (* process.instances *)
| Deadline (hk : UUID) (iid : string) (id : UUID)     (* process.deadlines *)
| IdempotencyKey (k : string)                         (* commandqueue.idempotency_keys *)
| Command (id : UUID)                                 (* commandqueue.commands *)
| Advisory (key : Z)
| AggregateInstance (hk : UUID) (iid : string)        (* aggregate.instances *)
| Stream (sid : UUID)                                 (* eventstream.streams *)
| ProjectionHandler (hk : UUID)                       (* projection.handlers *)
| ApplicationIdentity.                                (* application.identity *)

#[global] Instance lock_eq_dec : EqDecision lock.
Proof. solve_decision. Defined.

Inductive program : Type :=
| Done
| Wait (l : lock) (k : program)
| Skip (ls : list lock) (k alt : program)
| Release (l : lock) (k : program).

(** ** The transactions of the engine *)

Definition waits_for (ls : list lock) (k : program) : program := foldr Wait k ls.

(** *** Processes *)

(** What a process does to its instance: it ends, and its deadlines are deleted, or its
    state is saved.  (The commands of a process have no idempotency key, which only
    [ExecuteCommand] sets.) *)
Inductive outcome : Type :=
| Ended (deadlines : list UUID)
| Mutated
| Unchanged.

Definition effects (hk : UUID) (iid : string) (o : outcome) (ended k : program) : program :=
  match o with
  | Ended ds => Wait (Instance hk iid) (waits_for (Deadline hk iid <$> ds) ended)
  | Mutated => Wait (Instance hk iid) k
  | Unchanged => k
  end.

(** [Sink.consume]: the event is routed to an instance, if it is, whose handler has an
    outcome unless the instance has ended. *)
Definition consume (hk sid : UUID) (routed : option (string * option outcome)) : program :=
  let update := Wait (Checkpoint hk sid) Done in
  Wait (Checkpoint hk sid)
    match routed with
    | None => update
    | Some (iid, None) => Wait (Instance hk iid) update
    | Some (iid, Some o) => Wait (Instance hk iid) (effects hk iid o update update)
    end.

(** The deadline pump: [AcquireDelivery], over the deadlines that are due, [HandleDelivery]
    and, if it fails, [PostponeDelivery]. *)
Definition handle_deadline (hk : UUID) (iid : string) (id : UUID) (o : option outcome) : program :=
  Wait (Instance hk iid)
    match o with
    | None => Wait (Deadline hk iid id) Done
    | Some o => effects hk iid o Done (Wait (Deadline hk iid id) Done)
    end.

Definition deadline_locks (hk : UUID) (iid : string) (id : UUID) : list lock :=
  [Deadline hk iid id; Instance hk iid].

Fixpoint deliver_deadline (hk : UUID) (due : list (UUID * string * option outcome)) : program :=
  match due with
  | [] => Done
  | (id, iid, o) :: due' =>
      Skip (deadline_locks hk iid id) (handle_deadline hk iid id o) (deliver_deadline hk due')
  end.

(** *** Commands *)

(** [acquire_for_write]: the first stream that is free; if all are locked and there is an
    empty one, any of them; otherwise a new one. *)
Fixpoint acquire_for_write (ss : list UUID) (blocked : option UUID) (new : UUID) (k : UUID -> program)
    : program :=
  match ss with
  | [] => match blocked with Some s => Wait (Stream s) (k s) | None => k new end
  | s :: ss' => Skip [Stream s] (k s) (acquire_for_write ss' blocked new k)
  end.

(** The streams that an aggregate or an integration appends to: the one that the instance
    is bound to, or any. *)
Record target := mkTarget { t_bound : option UUID; t_free : list UUID; t_blocked : option UUID; t_new : UUID }.

Definition append_to (t : target) (bind : program -> program) (k : program) : program :=
  match t_bound t with
  | Some s => Wait (Stream s) k
  | None => acquire_for_write (t_free t) (t_blocked t) (t_new t) (fun s => bind (Wait (Stream s) k))
  end.

(** [aggregate.complete_with_events] and [aggregate.complete_without_events]. *)
Definition complete_aggregate (hk : UUID) (iid : string) (id : UUID) (evs : option (target * bool)) : program :=
  let remove := Wait (Command id) Done in
  match evs with
  | None => Wait (AggregateInstance hk iid) remove
  | Some (t, snapshot) =>
      append_to t (Wait (AggregateInstance hk iid))
        (if snapshot then Wait (AggregateInstance hk iid) remove else remove)
  end.

(** The command pump of an aggregate: [tryLockInstance], or [tryCreateInstance] if there is
    none; a command that is not completed is postponed. *)
Definition handle_aggregate (hk : UUID) (iid : string) (id : UUID) (exists_ : bool)
    (completed : option (option (target * bool))) : program :=
  let postpone := Wait (Command id) Done in
  let handle := match completed with Some evs => complete_aggregate hk iid id evs | None => postpone end in
  if exists_ then Skip [AggregateInstance hk iid] handle postpone
  else Wait (AggregateInstance hk iid) handle.

(** The command pump of an integration; [adv] is the key of its advisory lock, if it
    prefers to minimize concurrency. *)
Definition handle_integration (adv : option Z) (id : UUID) (completed : option (option target)) : program :=
  let postpone := Wait (Command id) Done in
  let complete := match completed with
    | None => postpone
    | Some None => Wait (Command id) Done
    | Some (Some t) => Wait (Command id) (append_to t (fun p => p) Done)
    end in
  match adv with
  | Some key => Wait (Advisory key) (Release (Advisory key) complete)
  | None => complete
  end.

(** [AcquireCommandDelivery], over the commands that are due. *)
Fixpoint deliver_command (due : list (UUID * program)) : program :=
  match due with
  | [] => Done
  | (id, p) :: due' => Skip [Command id] p (deliver_command due')
  end.

(** *** All of them *)

Inductive transaction : program -> Prop :=
| tx_consume hk sid routed : transaction (consume hk sid routed)
| tx_deadline hk due : transaction (deliver_deadline hk due)
| tx_aggregate (due : list (UUID * (UUID * string * bool * option (option (target * bool))))) :
    transaction (deliver_command
      ((fun '(id, (hk, iid, e, c)) => (id, handle_aggregate hk iid id e c)) <$> due))
| tx_integration (due : list (UUID * (option Z * option (option target)))) :
    transaction (deliver_command ((fun '(id, (adv, c)) => (id, handle_integration adv id c)) <$> due))
| tx_execute (key : option string) :                 (* ExecuteCommand *)
    transaction (match key with Some k => Wait (IdempotencyKey k) Done | None => Done end)
| tx_compact hk :                                    (* tryCompact *)
    transaction (Skip [ProjectionHandler hk] (Wait (ProjectionHandler hk) Done) Done)
| tx_initialize hk : transaction (Wait (ProjectionHandler hk) Done)
| tx_bind : transaction (Wait ApplicationIdentity Done).

(** ** The lock manager *)

Record tx := mkTx { todo : program; locks : list lock }.

Definition free (s : gmap nat tx) (i : nat) (l : lock) : Prop :=
  map_Forall (fun j t => l ∈ locks t -> j = i) s.

#[global] Instance free_dec s i l : Decision (free s i l).
Proof. apply _. Defined.

(** The rows that a statement locks, in order, until it meets one that is locked. *)
Fixpoint takes (s : gmap nat tx) (i : nat) (ls : list lock) : list lock :=
  match ls with
  | [] => []
  | l :: ls' => if decide (free s i l) then l :: takes s i ls' else []
  end.

(** One statement of transaction [i], if it does not wait; [leaves] says whether a row that
    a statement has locked before it passed over another row of the same result stays
    locked. *)
Definition advance (leaves : bool) (s : gmap nat tx) (i : nat) (t : tx) : option (gmap nat tx) :=
  match todo t with
  | Done => Some (delete i s)
  | Wait l k => if decide (free s i l) then Some (<[i := mkTx k (l :: locks t)]> s) else None
  | Skip ls k alt =>
      if decide (Forall (free s i) ls) then Some (<[i := mkTx k (ls ++ locks t)]> s)
      else Some (<[i := mkTx alt ((if leaves then takes s i ls else []) ++ locks t)]> s)
  | Release l k => Some (<[i := mkTx k (filter (fun l' => l' <> l) (locks t))]> s)
  end.

Inductive lock_step (leaves : bool) (s : gmap nat tx) : gmap nat tx -> Prop :=
| step_begin i p : s !! i = None -> transaction p -> lock_step leaves s (<[i := mkTx p []]> s)
| step_advance i t s' : s !! i = Some t -> advance leaves s i t = Some s' -> lock_step leaves s s'
| step_abort i : lock_step leaves s (delete i s).

(** Transaction [i] waits for [j]. *)
Definition blocked_by (s : gmap nat tx) (i j : nat) : Prop :=
  exists t t' l k, s !! i = Some t /\ todo t = Wait l k /\ s !! j = Some t' /\ l ∈ locks t' /\ i <> j.

(** ** The order of locks *)

(** Rows that are waited for only by a transaction that has them, or that has the instance
    of a deadline. *)
Definition contended (l : lock) : Prop :=
  match l with Deadline _ _ _ | Command _ => False | _ => True end.

Definition rank (l : lock) : nat :=
  match l with
  | Checkpoint _ _ | ProjectionHandler _ | ApplicationIdentity => 0
  | Instance _ _ | AggregateInstance _ _ | Advisory _ | IdempotencyKey _ => 1
  | Stream _ => 2
  | Deadline _ _ _ | Command _ => 3
  end.

(** The lock of the instance of a deadline covers it. *)
Definition covered (held : list lock) (l : lock) : Prop :=
  match l with Deadline hk iid _ => Instance hk iid ∈ held | _ => False end.

Definition may_wait (held : list lock) (l : lock) : Prop :=
  l ∈ held \/ covered held l \/ contended l /\ Forall (fun h => contended h -> (rank h < rank l)%nat) held.

(** Deadlines are locked together with their instance. *)
Definition closed (held : list lock) : Prop :=
  Forall (fun l => match l with Deadline hk iid _ => Instance hk iid ∈ held | _ => True end) held.

(** The locks that a statement may have taken when it passes over a result. *)
Definition is_deadline (l : lock) : Prop := match l with Deadline _ _ _ => True | _ => False end.

Fixpoint ordered (held : list lock) (p : program) : Prop :=
  match p with
  | Done => True
  | Wait l k => may_wait held l /\ closed (l :: held) /\ ordered (l :: held) k
  | Skip ls k alt =>
      Forall is_deadline (removelast ls) /\ closed (ls ++ held) /\ ordered (ls ++ held) k /\ ordered held alt
  | Release l k =>
      closed (filter (fun l' => l' <> l) held) /\ ordered (filter (fun l' => l' <> l) held) k
  end.

(** *** Programs that keep the order *)

(** [p] waits for nothing but what it has, once it has [held]. *)
Definition settled (held : list lock) (p : program) : Prop :=
  forall held', held ⊆ held' -> closed held' -> ordered held' p.

Lemma closed_cons held l :
  closed held -> match l with Deadline hk iid _ => Instance hk iid ∈ held | _ => True end -> closed (l :: held).
Proof.
  intros Hc Hl. constructor; [destruct l; try done; by right|].
  eapply Forall_impl; [exact Hc|]. intros [] Hx; try done. by right.
Qed.

Lemma closed_again held l : closed held -> l ∈ held -> closed (l :: held).
Proof.
  intros Hc Hl. apply closed_cons; [done|]. unfold closed in Hc. rewrite Forall_forall in Hc. exact (Hc l Hl).
Qed.

Lemma settled_done held : settled held Done.
Proof. by intros held' _ _. Qed.

Lemma settled_again held l k : l ∈ held -> settled held k -> settled held (Wait l k).
Proof.
  intros Hl Hk held' Hsub Hc. cbn. assert (Hl' : l ∈ held') by (by apply Hsub).
  split; [by left|]. pose proof (closed_again _ _ Hc Hl'). split; [done|]. apply Hk; [|done]. set_solver.
Qed.

Lemma settled_deadline held hk iid id k :
  Instance hk iid ∈ held -> settled held k -> settled held (Wait (Deadline hk iid id) k).
Proof.
  intros Hl Hk held' Hsub Hc. cbn. assert (Hl' : Instance hk iid ∈ held') by (by apply Hsub).
  split; [right; by left|]. assert (closed (Deadline hk iid id :: held')) by (by apply closed_cons).
  split; [done|]. apply Hk; [|done]. set_solver.
Qed.

Lemma settled_deadlines held hk iid ds k :
  Instance hk iid ∈ held -> settled held k -> settled held (waits_for (Deadline hk iid <$> ds) k).
Proof. intros Hl Hk. induction ds as [|d ds IH]; [done|]. by apply settled_deadline. Qed.

(** Nothing but what is held or covered is waited for. *)
Ltac settle :=
  solve [repeat first
    [ apply settled_done
    | apply settled_again; [set_solver|]
    | apply settled_deadlines; [set_solver|]
    | apply settled_deadline; [set_solver|]
    | assumption ]].

Lemma settled_ordered held p : settled held p -> closed held -> ordered held p.
Proof. intros Hp. by apply Hp. Qed.

Lemma ordered_new held l k :
  contended l -> Forall (fun h => contended h -> (rank h < rank l)%nat) held -> closed held ->
  ordered (l :: held) k -> ordered held (Wait l k).
Proof.
  intros Hl Hr Hc Hk. cbn. split; [right; by right|]. split; [|done]. apply closed_cons; [done|]. by destruct l.
Qed.

Lemma settled_effects held hk iid o ended k :
  Instance hk iid ∈ held -> settled held ended -> settled held k -> settled held (effects hk iid o ended k).
Proof. intros Hl He Hk. destruct o; cbn; settle. Qed.

Lemma consume_ordered hk sid routed : ordered [] (consume hk sid routed).
Proof.
  apply ordered_new; [done|constructor|constructor|].
  assert (Hc : closed [Checkpoint hk sid]) by (by repeat constructor).
  destruct routed as [[iid o]|]; [|apply settled_ordered; [settle|done]].
  assert (Hc' : closed [Instance hk iid; Checkpoint hk sid]) by (by repeat constructor).
  destruct o as [o|]; (apply ordered_new; [done|by repeat constructor|done|]); apply settled_ordered; try done.
  - apply settled_effects; [set_solver|settle..].
  - settle.
Qed.

Lemma deliver_deadline_ordered hk due : ordered [] (deliver_deadline hk due).
Proof.
  induction due as [|[[id iid] o] due IH]; [done|]. cbn [deliver_deadline ordered].
  assert (Hc : closed (deadline_locks hk iid id ++ [])) by (repeat constructor; set_solver).
  split; [by repeat constructor|]. split; [done|]. split; [|done]. apply settled_ordered; [|done].
  destruct o as [o|]; apply settled_again; try set_solver.
  - apply settled_effects; [set_solver|settle|apply settled_again; [set_solver|settle]].
  - apply settled_again; [set_solver|settle].
Qed.

(** *** Appending to a stream *)

Definition below (n : nat) (held : list lock) : Prop :=
  Forall (fun h => contended h -> (rank h < n)%nat) held.

Lemma below_again n held l : below n held -> l ∈ held -> below n (l :: held).
Proof. intros Hb Hl. constructor; [|done]. unfold below in Hb. rewrite Forall_forall in Hb. by apply Hb. Qed.

Lemma closed_stream held s : closed held -> closed (Stream s :: held).
Proof. intros Hc. by apply closed_cons. Qed.

Lemma append_ordered held s k :
  closed held -> below 2 held -> settled held k -> ordered held (Wait (Stream s) k).
Proof.
  intros Hc Hb Hk. apply ordered_new; try done. apply Hk; [set_solver|by apply closed_stream].
Qed.

Lemma append_to_ordered held t bind k :
  closed held -> below 2 held -> settled held k ->
  (bind = (fun p => p) \/ exists l, l ∈ held /\ bind = Wait l) -> ordered held (append_to t bind k).
Proof.
  intros Hc Hb Hk Hbind. unfold append_to. destruct (t_bound t) as [s|]; [by apply append_ordered|].
  assert (Hhas : forall s, ordered (Stream s :: held) (bind (Wait (Stream s) k))).
  { intros s. apply settled_ordered; [|by apply closed_stream].
    assert (settled (Stream s :: held) (Wait (Stream s) k)).
    { apply settled_again; [left|]. intros held' Hsub. apply Hk. set_solver. }
    destruct Hbind as [->|(l & Hl & ->)]; [done|]. apply settled_again; [set_solver|done]. }
  assert (Hnew : ordered held (bind (Wait (Stream (t_new t)) k))).
  { destruct Hbind as [->|(l & Hl & ->)]; [by apply append_ordered|]. cbn [ordered].
    split; [by left|]. split; [by apply closed_again|]. apply append_ordered; [by apply closed_again|by apply below_again|].
    intros held' Hsub. apply Hk. set_solver. }
  induction (t_free t) as [|s ss IH]; cbn [acquire_for_write].
  - destruct (t_blocked t) as [s|]; [|done]. by apply ordered_new; try apply Hhas.
  - cbn [ordered]. split; [constructor|]. split; [by apply closed_stream|]. split; [apply Hhas|done].
Qed.

Lemma complete_aggregate_ordered hk iid id evs :
  ordered [AggregateInstance hk iid; Command id] (complete_aggregate hk iid id evs).
Proof.
  assert (Hc : closed [AggregateInstance hk iid; Command id]) by (by repeat constructor).
  destruct evs as [[t snapshot]|]; cbn [complete_aggregate]; [|apply settled_ordered; [settle|done]].
  apply append_to_ordered; [done| | |right; exists (AggregateInstance hk iid); split; [left|done]].
  - by repeat constructor.
  - destruct snapshot; settle.
Qed.

Lemma handle_aggregate_ordered hk iid id e c : ordered [Command id] (handle_aggregate hk iid id e c).
Proof.
  assert (Hc : closed [AggregateInstance hk iid; Command id]) by (by repeat constructor).
  assert (Hh : ordered [AggregateInstance hk iid; Command id]
    (match c with Some evs => complete_aggregate hk iid id evs | None => Wait (Command id) Done end)).
  { destruct c; [apply complete_aggregate_ordered|apply settled_ordered; [settle|done]]. }
  destruct e; cbn [handle_aggregate].
  - split; [constructor|]. split; [done|]. split; [done|]. apply settled_ordered; [settle|by repeat constructor].
  - apply ordered_new; [done|by repeat constructor|by repeat constructor|done].
Qed.

Lemma handle_integration_ordered adv id c : ordered [Command id] (handle_integration adv id c).
Proof.
  assert (Hc : closed [Command id]) by (by repeat constructor).
  assert (Hh : ordered [Command id] (match c with
    | None => Wait (Command id) Done
    | Some None => Wait (Command id) Done
    | Some (Some t) => Wait (Command id) (append_to t (fun p => p) Done)
    end)).
  { destruct c as [[t|]|]; try (apply settled_ordered; [settle|done]).
    cbn [ordered]. split; [left; left|]. split; [by repeat constructor|].
    apply append_to_ordered; [by repeat constructor|by repeat constructor|settle|by left]. }
  destruct adv as [key|]; [|done]. unfold handle_integration.
  apply ordered_new; [done|by repeat constructor|done|]. cbn [ordered].
  assert (Hf : filter (fun l' => l' <> Advisory key) [Advisory key; Command id] = [Command id]).
  { rewrite filter_cons_False by (intros Hn; by apply Hn). by rewrite filter_cons_True. }
  by rewrite Hf.
Qed.

Lemma deliver_command_ordered due :
  Forall (fun '(id, p) => ordered [Command id] p) due -> ordered [] (deliver_command due).
Proof.
  induction 1 as [|[id p] due Hp _ IH]; [done|]. cbn. split; [constructor|]. split; [by repeat constructor|]. by split.
Qed.

Lemma transaction_ordered p : transaction p -> ordered [] p.
Proof.
  intros [hk sid r|hk due|due|due|[k|]|hk|hk|].
  - apply consume_ordered.
  - apply deliver_deadline_ordered.
  - apply deliver_command_ordered, Forall_fmap, Forall_true. intros [id [[[hk iid] e] c]].
    apply handle_aggregate_ordered.
  - apply deliver_command_ordered, Forall_fmap, Forall_true. intros [id [adv c]].
    apply handle_integration_ordered.
  - by apply ordered_new; try constructor.
  - done.
  - split; [constructor|]. split; [by repeat constructor|]. split; [|done]. apply settled_ordered; [settle|by repeat constructor].
  - by apply ordered_new; try constructor.
  - by apply ordered_new; try constructor.
Qed.

(** ** The invariant *)

(** The locks of a transaction: those that its statements have taken to use, [held], and,
    if they stay locked, deadlines that were passed over. *)
Record coherent (leaves : bool) (held : list lock) (p : program) (ls : list lock) : Prop := mkCoherent {
  co_held : held ⊆ ls;
  co_ordered : ordered held p;
  co_closed : closed held;
  co_rest : forall l, l ∈ ls -> l ∈ held \/ leaves = true /\ is_deadline l;
}.

Record locks_inv (leaves : bool) (s : gmap nat tx) : Prop := mkInv {
  inv_coherent : forall i t, s !! i = Some t -> exists held, coherent leaves held (todo t) (locks t);
  inv_exclusive : forall i j t t' l, s !! i = Some t -> s !! j = Some t' -> l ∈ locks t -> l ∈ locks t' -> i = j;
}.

(** A transaction goes on with locks that it had or that are free. *)
Lemma insert_inv leaves s i p held ls :
  locks_inv leaves s -> coherent leaves held p ls ->
  (forall l, l ∈ ls -> (exists t, s !! i = Some t /\ l ∈ locks t) \/ free s i l) ->
  locks_inv leaves (<[i := mkTx p ls]> s).
Proof.
  intros [Ho Hx] Hp Hls.
  assert (Hother : forall j t' l, s !! j = Some t' -> l ∈ ls -> l ∈ locks t' -> j = i).
  { intros j t' l Hj Hl Hl'. destruct (Hls l Hl) as [(t0 & Hi & Ht)|Hf]; [by eapply Hx|by eapply Hf]. }
  split.
  - intros j t' [[<- <-]|[_ Hj]]%lookup_insert_Some; [by exists held|by eapply Ho].
  - intros j1 j2 t1 t2 l [[<- <-]|[_ H1]]%lookup_insert_Some [[<- <-]|[_ H2]]%lookup_insert_Some Hl1 Hl2;
      [done|symmetry; by eapply Hother|by eapply Hother|by eapply Hx].
Qed.

Lemma delete_inv leaves s i : locks_inv leaves s -> locks_inv leaves (delete i s).
Proof.
  intros [Ho Hx]. split.
  - intros j t [_ Hj]%lookup_delete_Some. by eapply Ho.
  - intros j1 j2 t1 t2 l [_ H1]%lookup_delete_Some [_ H2]%lookup_delete_Some. by apply Hx.
Qed.

(** What a statement locks before it passes over a result. *)
Lemma takes_removelast s i ls : ~ Forall (free s i) ls -> takes s i ls ⊆ removelast ls.
Proof.
  induction ls as [|l ls IH]; [intros Hn; by destruct Hn|]. cbn [takes]. intros Hn.
  case_decide as Hf; [|set_solver]. destruct ls as [|l' ls].
  - destruct Hn. by repeat constructor.
  - change (removelast (l :: l' :: ls)) with (l :: removelast (l' :: ls)).
    assert (takes s i (l' :: ls) ⊆ removelast (l' :: ls)) by (apply IH; intros Ha; apply Hn; by constructor).
    set_solver.
Qed.

Lemma takes_free s i ls l : l ∈ takes s i ls -> free s i l.
Proof.
  induction ls as [|l' ls IH]; cbn; [by intros ?%not_elem_of_nil|]. case_decide; [|by intros ?%not_elem_of_nil].
  by intros [->|?]%elem_of_cons; auto.
Qed.

Lemma advance_inv leaves s i t s' :
  locks_inv leaves s -> s !! i = Some t -> advance leaves s i t = Some s' -> locks_inv leaves s'.
Proof.
  intros Hs Hi. destruct (inv_coherent _ s Hs i t Hi) as [held [Hsub Ho Hc Hrest]].
  unfold advance. destruct (todo t) as [|l k|ls k alt|l k]; cbn in Ho.
  - intros [= <-]. by apply delete_inv.
  - case_decide as Hf; [|done]. intros [= <-]. destruct Ho as (_ & ? & ?).
    apply (insert_inv _ s i _ (l :: held)); [done|split; set_solver|].
    intros l' [->|Hl]%elem_of_cons; [by right|left; by exists t].
  - destruct Ho as (Hd & ? & ? & ?). case_decide as Hf; intros [= <-].
    + apply (insert_inv _ s i _ (ls ++ held)); [done|split; set_solver|].
      rewrite Forall_forall in Hf. intros l' [Hl|Hl]%elem_of_app; [right; by apply Hf|left; by exists t].
    + apply (insert_inv _ s i _ held); [done|split; [set_solver|done..|]|].
      * intros l' [Hl|Hl]%elem_of_app; [|by apply Hrest]. destruct leaves; [|by apply not_elem_of_nil in Hl].
        right. split; [done|]. rewrite Forall_forall in Hd. apply Hd. by apply (takes_removelast s i).
      * intros l' [Hl|Hl]%elem_of_app; [|left; by exists t]. right.
        destruct leaves; [by eapply takes_free|by apply not_elem_of_nil in Hl].
  - intros [= <-]. destruct Ho as (? & ?).
    apply (insert_inv _ s i _ (filter (fun l' => l' <> l) held)); [done|split; [|done..|]|].
    + intros l'. rewrite !list_elem_of_filter. intros [? ?]. split; [done|]. by apply Hsub.
    + intros l' [Hne Hl]%list_elem_of_filter. destruct (Hrest l' Hl) as [Hh|?]; [left|by right].
      by apply list_elem_of_filter.
    + intros l' [_ Hl]%list_elem_of_filter. left. by exists t.
Qed.

Lemma lock_step_inv leaves s s' : locks_inv leaves s -> lock_step leaves s s' -> locks_inv leaves s'.
Proof.
  intros Hs [i p Hi Hp|i t s1 Hi Ha|i].
  - apply (insert_inv _ s i _ []); [done|split|].
    + set_solver.
    + by apply transaction_ordered.
    + constructor.
    + by intros l ?%not_elem_of_nil.
    + by intros l ?%not_elem_of_nil.
  - by eapply advance_inv.
  - by apply delete_inv.
Qed.

Lemma lock_steps_inv leaves s : rtc (lock_step leaves) ∅ s -> locks_inv leaves s.
Proof.
  apply (rtc_ind_r (locks_inv leaves)); [|intros y z _ Hyz Hy; by eapply lock_step_inv].
  by split; intros *; rewrite lookup_empty.
Qed.

(** A statement does not go on if and only if its transaction is blocked. *)
Lemma advance_None leaves s i t :
  s !! i = Some t -> advance leaves s i t = None <-> exists j, blocked_by s i j.
Proof.
  intros Hi. unfold advance. split.
  - destruct (todo t) as [|l k|ls k alt|l k] eqn:Ht; [done| |by case_decide|done]. case_decide as Hf; [done|]. intros _.
    apply map_not_Forall in Hf as (j & t' & Hj & Hn); [|apply _]. exists j.
    assert (l ∈ locks t' /\ j <> i) as [Hl Hne].
    { destruct (decide (l ∈ locks t')), (decide (j = i)); tauto. }
    by exists t, t', l, k.
  - intros (j & t0 & t' & l & k & Hi0 & Ht & Hj & Hl & Hne). rewrite Hi in Hi0. injection Hi0 as <-. rewrite Ht.
    rewrite decide_False; [done|]. intros Hf. apply Hne. symmetry. by apply (Hf j t').
Qed.

(** The lock that a transaction waits for. *)
Definition waits_at (s : gmap nat tx) (i : nat) (l : lock) : Prop :=
  exists t k, s !! i = Some t /\ todo t = Wait l k.

(** Transaction [i], which has an instance, waits for one of its deadlines, which [j] has
    locked without the instance, having passed over it. *)
Definition passed_over (s : gmap nat tx) (i j : nat) : Prop :=
  exists t t' hk iid id k, s !! i = Some t /\ todo t = Wait (Deadline hk iid id) k /\ Instance hk iid ∈ locks t /\
    s !! j = Some t' /\ Deadline hk iid id ∈ locks t' /\ (Instance hk iid ∉ locks t') /\ i <> j.

(** What a blocked transaction waits for is contended and above what it has, or a deadline
    that was passed over. *)
Lemma blocked_above leaves s i j t l k :
  locks_inv leaves s -> s !! i = Some t -> todo t = Wait l k -> blocked_by s i j ->
  leaves = true /\ passed_over s i j \/
  contended l /\ Forall (fun h => contended h -> (rank h < rank l)%nat) (locks t).
Proof.
  intros Hs Hi Ht (t0 & t' & l0 & k0 & Hi0 & Ht0 & Hj & Hl & Hne).
  rewrite Hi in Hi0. injection Hi0 as <-. rewrite Ht in Ht0. injection Ht0 as <- <-.
  destruct (inv_coherent _ s Hs i t Hi) as [held [Hsub Ho _ Hrest]]. rewrite Ht in Ho.
  destruct Ho as ([Hin|[Hcov|[Hcon Hab]]] & _).
  - destruct Hne. eapply (inv_exclusive _ s Hs); eauto.
  - left. destruct l; try done. cbn in Hcov.
    assert (Hni : Instance hk iid ∉ locks t')
      by (intros Hin; destruct Hne; eapply (inv_exclusive _ s Hs); eauto).
    destruct (inv_coherent _ s Hs j t' Hj) as [held' [Hsub' _ Hc Hrest']].
    destruct (Hrest' _ Hl) as [Hh|[-> _]].
    + unfold closed in Hc. rewrite Forall_forall in Hc. specialize (Hc _ Hh). cbn in Hc. set_solver.
    + split; [done|]. exists t, t', hk, iid, id, k. split_and!; auto.
  - right. split; [done|]. rewrite Forall_forall in *. intros l' Hl' Hc'.
    destruct (Hrest l' Hl') as [Hh|[_ Hd]]; [by apply Hab|by destruct l'].
Qed.

Lemma blocked_waits s i j : blocked_by s i j -> exists l, waits_at s i l.
Proof. intros (t & t' & l & k & Hi & Ht & _). exists l. by exists t, k. Qed.

Lemma tc_first {A} (R : relation A) x y : tc R x y -> exists z, R x z /\ rtc R z y.
Proof. intros [x' y' H|x' z y' H1 H2]; [exists y'|exists z]; split; auto using rtc_refl, tc_rtc. Qed.

(** A wait between [i] and [j] that is for a deadline that was passed over. *)
Definition through (s : gmap nat tx) (i j : nat) : Prop :=
  exists a b, rtc (blocked_by s) i a /\ blocked_by s a b /\ passed_over s a b /\ rtc (blocked_by s) b j.

(** At the end of a chain of waits there is a lock of at least the rank of the first that
    is waited for, unless the chain leads through a deadline that was passed over. *)
Lemma blocked_chain leaves s i j l :
  locks_inv leaves s -> tc (blocked_by s) i j -> waits_at s i l ->
  leaves = true /\ through s i j \/
  exists t h, s !! j = Some t /\ h ∈ locks t /\ contended h /\ (rank l <= rank h)%nat.
Proof.
  intros Hs Hij. revert l. induction Hij as [i j Hij|i m j Him Hmj IH]; intros l (t & k & Hi & Ht).
  - destruct (blocked_above _ s i j t l k Hs Hi Ht Hij) as [[? ?]|[Hcon _]].
    { left. split; [done|]. exists i, j. split_and!; try done; apply rtc_refl. }
    right. destruct Hij as (t0 & t' & l0 & k0 & Hi0 & Ht0 & Hj & Hl & _).
    rewrite Hi in Hi0. injection Hi0 as <-. rewrite Ht in Ht0. injection Ht0 as <- <-.
    eexists t', _. split_and!; [done|exact Hl|done|lia].
  - destruct (blocked_above _ s i m t l k Hs Hi Ht Him) as [[? ?]|[Hcon _]].
    { left. split; [done|]. exists i, m. split_and!; [apply rtc_refl|done|done|by apply tc_rtc]. }
    destruct (tc_first _ _ _ Hmj) as (x & Hx & Hxj). destruct (blocked_waits _ _ _ Hx) as [lm Hlm].
    pose proof Hlm as (tm & km & Hm & Htm).
    destruct (blocked_above _ s m x tm lm km Hs Hm Htm Hx) as [[? ?]|[_ Hall]].
    { left. split; [done|]. exists m, x. split_and!; [by apply rtc_once|done..]. }
    destruct (IH lm Hlm) as [[? (a & b & ? & ? & ? & ?)]|(t' & h & Hj & Hh & Hc & Hr)].
    { left. split; [done|]. exists a, b. split_and!; try done. by eapply rtc_l. }
    right. exists t', h. split_and!; try done.
    destruct Him as (t0 & t1 & l0 & k0 & Hi0 & Ht0 & Hm0 & Hl0 & _).
    simplify_eq. rewrite Ht in Ht0. injection Ht0 as <- <-.
    rewrite Forall_forall in Hall. specialize (Hall _ Hl0 Hcon). lia.
Qed.

Lemma blocked_cycle leaves s i :
  locks_inv leaves s -> tc (blocked_by s) i i -> leaves = true /\ through s i i.
Proof.
  intros Hs Hc. destruct (tc_first _ _ _ Hc) as (j & Hj & Hji).
  destruct (blocked_waits _ _ _ Hj) as [l Hl]. pose proof Hl as (t & k & Hi & Ht).
  destruct (blocked_above _ s i j t l k Hs Hi Ht Hj) as [[? ?]|[_ Hall]].
  { split; [done|]. exists i, j. split_and!; auto using rtc_refl. }
  destruct (blocked_chain _ s i i l Hs Hc Hl) as [?|(t' & h & Hi' & Hh & Hch & Hr)]; [done|].
  simplify_eq. rewrite Forall_forall in Hall. specialize (Hall _ Hh Hch). lia.
Qed.

(** If every transaction were blocked, they would wait for locks of ever higher rank. *)
Lemma all_blocked_rank leaves s n :
  locks_inv leaves s -> (exists i, is_Some (s !! i)) -> (forall i, is_Some (s !! i) -> exists j, blocked_by s i j) ->
  (exists i j, leaves = true /\ passed_over s i j) \/
  exists i j l, blocked_by s i j /\ waits_at s i l /\ (n <= rank l)%nat.
Proof.
  intros Hs [i0 Hi0] Hall. induction n as [|n [?|(i & j & l & Hij & Hl & Hn)]]; [|by left|].
  - destruct (Hall i0 Hi0) as [j Hj]. destruct (blocked_waits _ _ _ Hj) as [l Hl]. right.
    exists i0, j, l. by split_and!; [..|lia].
  - pose proof Hl as (t & k & Hi & Ht).
    destruct (blocked_above _ s i j t l k Hs Hi Ht Hij) as [[? ?]|[Hcon _]]; [left; by exists i, j|].
    destruct Hij as (t0 & t' & l0 & k0 & Hi0' & Ht0 & Hj & Hlj & _).
    simplify_eq. rewrite Ht in Ht0. injection Ht0 as <- <-.
    destruct (Hall j ltac:(eauto)) as [m Hm]. destruct (blocked_waits _ _ _ Hm) as [l' Hl'].
    pose proof Hl' as (tj & kj & Hj' & Htj).
    destruct (blocked_above _ s j m tj l' kj Hs Hj' Htj Hm) as [[? ?]|[_ Hab]]; [left; by exists j, m|].
    simplify_eq. rewrite Forall_forall in Hab. specialize (Hab _ Hlj Hcon).
    right. exists j, m, l'. split_and!; [done..|lia].
Qed.

Lemma rank_bound l : (rank l <= 3)%nat.
Proof. destruct l; cbn; lia. Qed.

(** ** Properties *)


(** ** Examples *)

(** The given transactions go on, in that order. *)
Definition run (leaves : bool) (order : list nat) (s : gmap nat tx) : option (gmap nat tx) :=
  foldl (fun o i => s ← o; t ← s !! i; advance leaves s i t) (Some s) order.

Lemma run_steps leaves order s s' : run leaves order s = Some s' -> rtc (lock_step leaves) s s'.
Proof.
  assert (Hnone : forall order, foldl (fun o i => s ← o; t ← s !! i; advance leaves s i t) None order = None)
    by (intros l; by induction l).
  revert s. unfold run. induction order as [|i order IH]; intros s; cbn; [intros [= <-]; apply rtc_refl|].
  destruct (s !! i) as [t|] eqn:Hi; cbn; [|by rewrite Hnone].
  destruct (advance leaves s i t) as [s1|] eqn:Ha; [|by rewrite Hnone].
  intros Hr. eapply rtc_l; [|by apply IH]. by eapply step_advance.
Qed.

(** Two pumps have deadlines of the instances "i" and "j" of a handler, and each ends its
    instance; a third had "j" before. *)
Definition pump_a : program :=
  deliver_deadline 7 [(4%N, "j", None); (1%N, "i", Some (Ended [1%N; 2%N]))].
Definition pump_b : program :=
  deliver_deadline 7 [(2%N, "i", None); (4%N, "j", None); (3%N, "j", Some (Ended [3%N; 4%N]))].
Definition pump_c : program := deliver_deadline 7 [(5%N, "j", None)].

Definition open (i : nat) (p : program) (s : gmap nat tx) : gmap nat tx := <[i := mkTx p []]> s.

Definition two_pumps (leaves : bool) (order : list nat) : option (gmap nat tx) :=
  run leaves ([2; 0; 0; 2; 2; 2; 1; 1; 1; 0; 0; 0]%nat ++ order)
    (open 1%nat pump_b (open 0%nat pump_a (open 2%nat pump_c ∅))).

Lemma two_pumps_steps leaves order s : two_pumps leaves order = Some s -> rtc (lock_step leaves) ∅ s.
Proof.
  intros Hr%run_steps. eapply rtc_l; [by apply (step_begin _ _ 2%nat pump_c); [|constructor]|].
  eapply rtc_l; [by apply (step_begin _ _ 0%nat pump_a); [|constructor]|].
  eapply rtc_l; [by apply (step_begin _ _ 1%nat pump_b); [|constructor]|]. exact Hr.
Qed.

Lemma two_pumps_cycle s : two_pumps true [1; 1; 1]%nat = Some s -> tc (blocked_by s) 0%nat 0%nat.
Proof.
  intros Hs. vm_compute in Hs. injection Hs as <-.
  apply (tc_l _ _ 1%nat); [|apply tc_once].
  - do 4 eexists. split_and!; [vm_compute; reflexivity|reflexivity|vm_compute; reflexivity| |done].
    cbn. set_solver.
  - do 4 eexists. split_and!; [vm_compute; reflexivity|reflexivity|vm_compute; reflexivity| |done].
    cbn. set_solver.
Qed.

(** C31: if a row that was locked stays so although its deadline is passed over, as another
    row of the same result is locked, then the pumps deadlock: each deletes the deadlines
    of the instance that it ends, of which the other has passed over one. *)
Theorem skipped_rows_can_deadlock :
  exists s, rtc (lock_step true) ∅ s /\ tc (blocked_by s) 0%nat 0%nat.
Proof.
  destruct (two_pumps true [1; 1; 1]%nat) as [s|] eqn:Hs; [|by vm_compute in Hs]. exists s.
  split; [by eapply two_pumps_steps|by apply two_pumps_cycle].
Qed.

