(* ===== verification/Hook.v ===== *)
(** * Hooks in contexts

    Models [internal/contexthook/hook.go], by which tests observe the engine: a context holds
    at most one function for each type of value; adding another composes the two. *)

From S2P Require Import Prelude.

Section hook.
(** The types of values, and the state that hooks change. *)
Context {Tag : Type} `{!EqDecision Tag} (T : Tag -> Type) (S : Type).

Definition hook (t : Tag) : Type := T t -> S -> go S.

(** The values of [contextKey[T]{}], for each T. *)
Definition Context_ : Type := forall t, option (hook t).

Definition Background : Context_ := fun _ => None.

(** [get] *)
Definition get (t : Tag) (ctx : Context_) : option (hook t) := ctx t.

(** [context.WithValue] *)
Definition WithValue (t : Tag) (fn : hook t) (ctx : Context_) : Context_ := fun t' =>
  match decide (t = t') with
  | left eq => Some (match eq in _ = t' return hook t' with eq_refl => fn end)
  | right _ => ctx t'
  end.

(** [With] *)
Definition With (t : Tag) (fn : hook t) (ctx : Context_) : Context_ :=
  let fn := match get t ctx with
            | Some prev => fun v s => s ← prev v s; fn v s
            | None => fn
            end in
  WithValue t fn ctx.

(** [Invoke]; [testing] is [testing.Testing()]. *)
Definition Invoke (testing : bool) (t : Tag) (v : T t) (ctx : Context_) (s : S) : go S :=
  if testing then match get t ctx with Some h => h v s | None => Ret s end else Ret s.

(** ** The hooks that were added *)

(** Hooks, in the order in which they are added. *)
Definition hooks : Type := list {t : Tag & hook t}.

Definition add (h : {t : Tag & hook t}) : Context_ -> Context_ := With (projT1 h) (projT2 h).

(** Calling those for values of type [t], in that order. *)
Fixpoint call (hs : hooks) (t : Tag) (v : T t) (s : S) : go S :=
  match hs with
  | [] => Ret s
  | existT t' fn :: hs' =>
      s ← match decide (t' = t) with
          | left eq => (match eq in _ = t return T t -> S -> go S with eq_refl => fn end) v s
          | right _ => Ret s
          end;
      call hs' t v s
  end.

Lemma call_app hs1 hs2 t v s : call (hs1 ++ hs2) t v s = (s ← call hs1 t v s; call hs2 t v s).
Proof.
  revert s. induction hs1 as [|[t' fn] hs1 IH]; intros s; [done|]. cbn.
  destruct (match decide (t' = t) with left eq => _ | right _ => _ end) as [s'|]; cbn; [apply IH|done].
Qed.

(** Hooks are called in the order in which they were added, each for the values of its type
    and no others; outside of tests, none is called. *)
Theorem hooks_are_called_in_order hs t v s :
  Invoke true t v (foldl (fun ctx h => add h ctx) Background hs) s = call hs t v s /\
  Invoke false t v (foldl (fun ctx h => add h ctx) Background hs) s = Ret s.
Proof.
  split; [|done]. revert s. induction hs as [|[t' fn] hs IH] using rev_ind; intros s; [done|].
  rewrite foldl_app, call_app. cbn. set (ctx := foldl _ _ hs) in *.
  unfold Invoke, get, add, With, WithValue in *. cbn. destruct (decide (t' = t)) as [<-|Hne].
  - unfold get. destruct (ctx t') as [prev|]; rewrite <- IH; cbn; [|by destruct (fn v s)].
    destruct (prev v s) as [s'|]; cbn; [|done]. by destruct (fn v s').
  - rewrite IH. by destruct (call hs t v s).
Qed.
End hook.
