(* ===== verification/Local.v ===== *)
(** * The local source: reading the application's own streams

    Models the queries of [internal/eventstream/source/local.go] and
    [Local.Read]: [buildSegmentQuery], [loadSegment], [loadWatchOffset] and
    [loadStreamIDs].  (The watchers of [Local.Watch] are in [LocalWatch].)

    The SQL text is represented by what it selects.  The database that a call
    sees may change between its queries, and any query may fail: a call is given
    the answer to each of its queries, and the theorems assume only that an
    answer, if there is one, is what the query selects from some state of a
    database whose stream is a prefix of the stream's history. *)

From S2P Require Import Prelude Errors Stream Source.
From S2P Require Database.
Import Database (DB, EventRow, ev_offset, ev_envelope, ev_type_id, ev_stream, stream_events,
  events_wf, order_by, order_by_id).

(** ** Queries and their results *)

(** The constants that [buildSegmentQuery] embeds in the text. *)
Record SegmentQuery := mkSegmentQuery {
  q_stream : UUID;
  q_types : Types;
  q_limit : Z;
}.

Definition buildSegmentQuery (SegmentSize : Z) (sid : UUID) (types : Types) : SegmentQuery :=
  mkSegmentQuery sid types SegmentSize.

(** A row of the result: the stream's next offset with a NULL envelope, or an
    event's offset and envelope. *)
Inductive row : Type :=
| NextRow (next : Z)
| EventsRow (offset : Z) (envelope : string).

(** sql.Rows: the rows, and the error with which the iteration ends. *)
Record Rows := mkRows { rows : list row; rows_err : option error }.

(** What the query selects, for parameter [$1 = begin]. *)
Definition run_query (db : DB) (q : SegmentQuery) (begin : Z) : list row :=
  match Database.streams db !! q_stream q with
  | Some next => [NextRow next]
  | None => []
  end ++
  ((fun r => EventsRow (ev_offset r) (ev_envelope r)) <$>
    take (Z.to_nat (q_limit q))
      (order_by ev_offset
        (filter (fun r => ev_stream r = q_stream q /\ begin <= ev_offset r /\
                   type_in (q_types q) (ev_type_id r))
           (Database.events db)))).

(** [row.Scan] of a bigint into a uint64. *)
Definition scan_u64 (z : Z) : error + Z :=
  if decide (0 <= z < u64_modulus) then inr z else inl (Opaque "value out of range").

Section local.
(** [envelopepb.Envelope.UnmarshalBinary]. *)
Context (unmarshal : string -> error + Envelope).

(** The loop of [loadSegment] over the rows of events. *)
Fixpoint scan_events (sid : UUID) (rs : list row) (seg : Segment) : error + Segment :=
  match rs with
  | [] => inr seg
  | NextRow _ :: _ => inl (Opaque "unable to scan event")
  | EventsRow o bytes :: rs' =>
      match scan_u64 o, unmarshal bytes with
      | inl e, _ | _, inl e => inl (Wrap "unable to scan event" e)
      | inr offset, inr env =>
          let env := set_position (mkPosition sid offset) env in
          scan_events sid rs'
            (mkSegment (seg_stream seg) (seg_begin seg) (u64 (offset + 1))
               (seg_envelopes seg ++ [env]))
      end
  end.

(** Loads a segment from the answer to its query, and whether the stream is
    exhausted. *)
Definition loadSegment (SegmentSize : Z) (answer : error + Rows) (sid : UUID) (begin : Z)
    : error + Segment * bool :=
  match answer with
  | inl e => inl (Wrap "unable to query events" e)
  | inr rs =>
      match rows rs with
      | [] =>
          match rows_err rs with
          | Some e => inl (Wrap "unable to advance to first row" e)
          | None => inl (Wrap "unable to read event stream" (Sentinel ErrUnrecognizedStream))
          end
      | first :: rest =>
          match scan_u64 (match first with NextRow n => n | EventsRow o _ => o end) with
          | inl e => inl (Wrap "unable to scan next offset" e)
          | inr next =>
              if decide (begin > next) then
                inl (Wrap "unable to load event stream from offset" (Sentinel ErrOffsetOutOfRange))
              else
                match scan_events sid rest (mkSegment sid begin begin []) with
                | inl e => inl e
                | inr seg =>
                    match rows_err rs with
                    | Some e => inl (Wrap "unable to iterate events" e)
                    | None =>
                        let exhausted := bool_decide (len (seg_envelopes seg) < SegmentSize) in
                        let seg := if exhausted
                                   then mkSegment (seg_stream seg) (seg_begin seg)
                                          (Z.max (seg_end seg) next) (seg_envelopes seg)
                                   else seg in
                        inr (seg, exhausted)
                    end
                end
          end
      end
  end.

(** The loop of [Local.Read]; [query i b] is the answer to its [i]-th query. *)
Fixpoint Read_loop {S} (fuel : nat) (SegmentSize : Z) (query : nat -> Z -> error + Rows)
    (i : nat) (sid : UUID) (begin : Z) (fn : callback S) (s : S)
    : option (S * option error) :=
  match fuel with
  | O => None
  | Datatypes.S fuel =>
      match loadSegment SegmentSize (query i begin) sid begin with
      | inl e => Some (s, Some e)
      | inr (seg, exhausted) =>
          if decide (seg_end seg > seg_begin seg) then
            match fn s seg with
            | (s', Some e) => Some (s', Some e)
            | (s', None) =>
                if (exhausted : bool) then Some (s', None)
                else Read_loop fuel SegmentSize query (Datatypes.S i) sid (seg_end seg) fn s'
            end
          else if (exhausted : bool) then Some (s, None)
          else Read_loop fuel SegmentSize query (Datatypes.S i) sid begin fn s
      end
  end.

(** [Local.Read], where [conn i q b] is what the database answers to the [i]-th
    query of the call. *)
Definition Read {S} (fuel : nat) (SegmentSize : Z)
    (conn : nat -> SegmentQuery -> Z -> error + Rows)
    (sid : UUID) (types : Types) (begin : Z) (fn : callback S) (s : S)
    : go (option (S * option error)) :=
  _ ← panicIfEmpty types;
  if decide (SegmentSize <= 0) then Panic "segment size must be positive"
  else
    let query := buildSegmentQuery SegmentSize sid types in
    Ret (Read_loop fuel SegmentSize (fun i b => conn i query b) 0 sid begin fn s).

(** [loadWatchOffset], from the answer to its query: [None] is no row. *)
Definition loadWatchOffset (answer : error + option Z) : error + Z :=
  match answer with
  | inl e => inl (Wrap "unable to scan next stream offset" e)
  | inr None => inl (Opaque "event stream not found")
  | inr (Some z) =>
      match scan_u64 z with
      | inl e => inl (Wrap "unable to scan next stream offset" e)
      | inr next => inr next
      end
  end.

(** [loadStreamIDs], from the answer to its query. *)
Definition loadStreamIDs (answer : error + list UUID * option error) : error + gset UUID :=
  match answer with
  | inl e => inl (Wrap "unable to query event streams" e)
  | inr (ids, Some e) => inl (Wrap "unable to iterate event streams" e)
  | inr (ids, None) => inr (list_to_set ids)
  end.

(** ** The stream in the database *)

(** The envelope of an event row, as the source delivers it. *)
Definition decodes (sid : UUID) (r : EventRow) (e : Envelope) : Prop :=
  exists e0, unmarshal (ev_envelope r) = inr e0 /\
    e = set_position (mkPosition sid (ev_offset r)) e0 /\ type_of e = ev_type_id r.

(** The database holds the stream, ending at offset [next], and its events are
    the beginning of the history [h]. *)
Definition stored (sid : UUID) (h : list Envelope) (next : Z) (db : DB) : Prop :=
  events_wf db /\ Database.streams db !! sid = Some next /\ next < u64_modulus /\
  exists h0 rest hi, h = h0 ++ rest /\ in_range sid next hi rest /\
    Forall2 (decodes sid) (stream_events db sid) h0.

(** An answer to a query is an error, or rows that are cut short by an error, or
    what a database yields that holds the stream or does not have it yet; [seen] are
    the states that the database may be in. *)
Definition answers (seen : DB -> Prop) (sid : UUID) (h : list Envelope) (q : SegmentQuery) (begin : Z)
    (answer : error + Rows) : Prop :=
  forall rs, answer = inr rs -> rows_err rs = None ->
    rows rs = [] \/ exists next db, seen db /\ stored sid h next db /\
      rows rs = run_query db q begin.

Lemma off_set_position p e : off (set_position p e) = pos_offset p.
Proof. reflexivity. Qed.

Lemma decodes_off sid r e : decodes sid r e -> off e = ev_offset r /\ positioned sid e.
Proof. intros (e0 & _ & -> & _). done. Qed.

Lemma Forall2_filter_iff {A B} (R : A -> B -> Prop) (P : A -> Prop) (Q : B -> Prop)
    {decP : ∀ x, Decision (P x)} {decQ : ∀ x, Decision (Q x)} l k :
  Forall2 R l k -> (∀ x y, R x y -> P x <-> Q y) -> Forall2 R (filter P l) (filter Q k).
Proof.
  intros H Hiff. induction H as [|x y l k Hxy H IH]; [constructor|].
  rewrite !filter_cons. specialize (Hiff _ _ Hxy).
  repeat case_decide; try tauto. by constructor.
Qed.

(** The stored prefix is in range. *)
Lemma stored_in_range sid rs h0 m n :
  Forall2 (decodes sid) rs h0 -> ev_offset <$> rs = seqZ m n -> 0 <= n ->
  in_range sid m (m + n) h0.
Proof.
  intros H. revert m n. induction H as [|r e rs h0 Hd H IH]; intros m n Hs Hn.
  - cbn. lia.
  - destruct (decodes_off _ _ _ Hd) as [Ho Hp].
    destruct (decide (0 < n)); [|by rewrite seqZ_nil in Hs by lia].
    rewrite seqZ_cons in Hs by done. injection Hs as Hr Hs. cbn. split_and!; [done|lia|].
    replace (m + n) with (Z.succ m + Z.pred n) by lia. rewrite Ho, Hr.
    apply IH; [done|lia].
Qed.

Lemma scan_events_spec sid rs envs : Forall2 (decodes sid) rs envs ->
  forall lo hi seg, in_range sid lo hi envs -> 0 <= lo -> hi < u64_modulus ->
  scan_events sid ((fun r => EventsRow (ev_offset r) (ev_envelope r)) <$> rs) seg =
    inr (mkSegment (seg_stream seg) (seg_begin seg)
           (match last envs with Some x => off x + 1 | None => seg_end seg end)
           (seg_envelopes seg ++ envs)).
Proof.
  induction 1 as [|r e rs envs Hd H IH]; intros lo hi seg Hin Hlo Hhi.
  - cbn. destruct seg. by rewrite app_nil_r.
  - destruct (decodes_off _ _ _ Hd) as [Ho Hp]. cbn in Hin. destruct Hin as (_ & Hge & Hin).
    pose proof (in_range_le _ _ _ _ Hin). destruct Hd as (e0 & Hun & He & _).
    cbn -[scan_u64]. unfold scan_u64. rewrite decide_True, Hun by lia.
    rewrite <- He, u64_id by (unfold is_u64; lia).
    change (list_fmap EventRow row ?f rs) with (f <$> rs).
    rewrite (IH _ _ _ Hin) by lia. cbn. rewrite <- app_assoc. cbn. do 2 f_equal.
    rewrite <- Ho. destruct envs as [|e1 envs]; [done|]. rewrite !last_cons. by destruct (last envs).
Qed.

Lemma between_prefix sid types lo next h0 rest hi :
  in_range sid 0 next h0 -> in_range sid next hi rest ->
  between types lo next (h0 ++ rest) = filter (fun e => lo <= off e /\ matches types e) h0.
Proof.
  intros H0 Hr. rewrite (between_extend sid _ _ _ next hi) by (done || lia).
  apply filter_ext_elem. intros x Hx. cbn. pose proof (in_range_elem _ _ _ _ _ H0 Hx).
  intuition lia.
Qed.

(** What the query selects from a database that holds the stream. *)
Lemma run_query_stored sid h next db SegmentSize types begin :
  stored sid h next db ->
  exists rs, run_query db (buildSegmentQuery SegmentSize sid types) begin
      = NextRow next :: ((fun r => EventsRow (ev_offset r) (ev_envelope r)) <$> rs) /\
    Forall2 (decodes sid) rs (take (Z.to_nat SegmentSize) (between types begin next h)).
Proof.
  intros (Hwf & Hs & _ & h0 & rest & hi & -> & Hrest & Hdec).
  destruct Hwf as [_ Hwf]. specialize (Hwf sid). rewrite Hs in Hwf. destruct Hwf as [Hoff Hn].
  pose proof (stored_in_range _ _ _ _ _ Hdec Hoff Hn) as Hin.
  unfold run_query, buildSegmentQuery. cbn. rewrite Hs. eexists. split; [done|].
  rewrite (between_prefix sid _ _ _ _ _ hi) by done.
  apply Forall2_take.
  rewrite (filter_ext_elem _ (fun r => (begin <= ev_offset r /\ type_in types (ev_type_id r))
    /\ ev_stream r = sid)) by (intros; cbn; tauto).
  rewrite <- list_filter_filter. fold (stream_events db sid).
  rewrite order_by_id by (apply Database.StronglySorted_filter; by eapply Database.seqZ_sorted).
  eapply Forall2_filter_iff; [done|]. intros r e Hd.
  destruct (decodes_off _ _ _ Hd) as [-> _]. destruct Hd as (_ & _ & _ & Ht).
  unfold matches. by rewrite Ht.
Qed.

Section load.
Context (SegmentSize : Z) (sid : UUID) (types : Types) (h : list Envelope).
Context (Hsize : 0 < SegmentSize).

(** What a load yields: a faithful segment, at the end of the stream if it is
    exhausted, or else holding [SegmentSize] events. *)
Definition loaded (begin next : Z) (seg : Segment) (exhausted : bool) : Prop :=
  seg_stream seg = sid /\ seg_begin seg = begin /\ seg_end seg <= next /\
  faithful h types seg /\
  if exhausted then seg_end seg = next else len (seg_envelopes seg) = SegmentSize.

Lemma stored_history next db :
  stored sid h next db -> 0 <= next < u64_modulus /\ exists hi, in_range sid 0 hi h.
Proof.
  intros (Hwf & Hs & Hmax & h0 & rest & hi & -> & Hrest & Hdec).
  destruct Hwf as [_ Hwf]. specialize (Hwf sid). rewrite Hs in Hwf. destruct Hwf as [Hoff Hn].
  pose proof (stored_in_range _ _ _ _ _ Hdec Hoff Hn) as Hin.
  split; [lia|]. exists hi. by eapply in_range_app.
Qed.

Lemma loadSegment_stored begin next db :
  stored sid h next db -> 0 <= begin ->
  let answer := inr (mkRows (run_query db (buildSegmentQuery SegmentSize sid types) begin) None) in
  if decide (begin > next) then
    exists msg, loadSegment SegmentSize answer sid begin = inl (Wrap msg (Sentinel ErrOffsetOutOfRange))
  else exists seg exhausted,
    loadSegment SegmentSize answer sid begin = inr (seg, exhausted) /\
    loaded begin next seg exhausted.
Proof using Hsize.
  intros Hst Hb answer. unfold answer, loadSegment.
  destruct (stored_history _ _ Hst) as (Hn & hi & Hh).
  destruct (run_query_stored _ _ _ _ SegmentSize types begin Hst) as (rs & -> & Hrs). cbn -[scan_u64].
  unfold scan_u64. rewrite !(decide_True (P:=0 <= next < _)) by done.
  case_decide as Hgt; [by eexists|].
  set (all := between types begin next h) in *.
  assert (Hall : in_range sid begin next all) by (eapply between_in_range; [done|lia]).
  assert (Htake : in_range sid begin next (take (Z.to_nat SegmentSize) all)).
  { rewrite <- (take_drop (Z.to_nat SegmentSize) all) in Hall. by apply in_range_app_l in Hall. }
  rewrite (scan_events_spec _ _ _ Hrs begin next) by (done || lia). cbn.
  set (envs := take (Z.to_nat SegmentSize) all) in *.
  set (e := match last envs with Some x => off x + 1 | None => begin end).
  eexists _, _. split; [done|].
  destruct (decide (len envs < SegmentSize)) as [Hlt|Hge].
  - rewrite bool_decide_eq_true_2 by done.
    assert (He : e <= next).
    { unfold e. destruct (last envs) as [x|] eqn:Hx; [|lia].
      apply last_Some_elem_of, (in_range_elem _ _ _ _ _ Htake) in Hx. lia. }
    assert (Henvs : envs = all).
    { unfold envs. apply take_ge. unfold envs, len in Hlt. rewrite length_take in Hlt. lia. }
    unfold loaded. cbn. rewrite Z.max_r by done. split_and!; done || lia.
  - rewrite bool_decide_eq_false_2 by done.
    assert (Hlen : len envs = SegmentSize).
    { assert (length envs <= Z.to_nat SegmentSize)%nat
        by (unfold envs; rewrite length_take; lia). unfold len in *. lia. }
    destruct (last envs) as [x|] eqn:Hx; last first.
    { apply last_None in Hx. rewrite Hx, len_nil in Hlen. lia. }
    assert (He : e = off x + 1) by (unfold e; by rewrite ?Hx).
    clearbody e. subst e. rewrite last_lookup in Hx. unfold loaded, faithful. cbn -[between].
    set (n := pred (length envs)) in *.
    assert (Hx' : all !! n = Some x) by (unfold envs in Hx; by apply lookup_take_Some in Hx as [? _]).
    pose proof (between_take sid types begin next _ _ _ n x Hh ltac:(lia) Hx') as Hbt.
    assert (Hxr : begin <= off x < next).
    { apply (in_range_elem _ _ _ _ _ Hall). by eapply list_elem_of_lookup_2. }
    split_and!; try done; try lia.
    rewrite Hbt. unfold envs. f_equal. unfold n, len in *. lia.
Qed.

Lemma loadSegment_rows_err rs begin e :
  rows_err rs = Some e -> exists e', loadSegment SegmentSize (inr rs) sid begin = inl e'.
Proof.
  intros He. unfold loadSegment. rewrite He. destruct (rows rs) as [|r rest]; [by eexists|].
  destruct (scan_u64 _); [by eexists|]. case_decide; [by eexists|].
  destruct (scan_events _ _ _); by eexists.
Qed.

(** Any honest answer yields an error or a faithful segment. *)
Lemma loadSegment_answer seen answer begin :
  answers seen sid h (buildSegmentQuery SegmentSize sid types) begin answer -> 0 <= begin ->
  (exists e, loadSegment SegmentSize answer sid begin = inl e) \/
  exists seg exhausted next db, seen db /\ stored sid h next db /\
    loadSegment SegmentSize answer sid begin = inr (seg, exhausted) /\
    loaded begin next seg exhausted.
Proof using Hsize.
  intros Ha Hb. destruct answer as [e|[rs err]]; [left; by eexists|].
  destruct err as [e|].
  { left. by eapply loadSegment_rows_err. }
  destruct (Ha _ eq_refl eq_refl) as [Hrs|(next & db & Hseen & Hst & Hrs)]; cbn in Hrs; subst rs.
  { left. by eexists. }
  pose proof (loadSegment_stored begin next db Hst Hb) as H. cbn zeta in H.
  case_decide; [destruct H; left; by eexists|].
  destruct H as (seg & ex & H1 & H2). right. by exists seg, ex, next, db.
Qed.

(** Whatever the database does during a read, the read delivers a contiguous
    chain of faithful segments, and returns nil only at an end of the stream. *)
Lemma Read_loop_serves seen query {S} (fn : callback S) :
  (forall i b, answers seen sid h (buildSegmentQuery SegmentSize sid types) b (query i b)) ->
  forall fuel i begin s res, 0 <= begin ->
  Read_loop fuel SegmentSize query i sid begin fn s = Some res ->
  exists segs e err, chain sid h types begin segs e /\
    res = finish (deliver fn s segs) err /\
    (err = None -> res.2 = None -> exists db, seen db /\ stored sid h e db).
Proof using Hsize.
  intros Hq. induction fuel as [|fuel IH]; intros i begin s res Hb; cbn; [done|].
  destruct (loadSegment_answer seen (query i begin) begin (Hq _ _) Hb)
    as [[e ->]|(seg & ex & next & db & Hseen & Hst & -> & Hs & Hbg & Hle & Hf & Hex)].
  { intros [= <-]. exists [], begin, (Some e). split_and!; by eauto with runkit. }
  case_decide as Hadv; last first.
  { assert (Hend : seg_end seg = begin) by (destruct Hf; lia). destruct ex.
    - intros [= <-]. exists [], begin, None. split_and!; try by eauto with runkit.
      intros _ _. exists db. split; [done|]. by rewrite <- Hend, Hex.
    - exfalso. destruct Hf as [_ Hf]. rewrite Hf, Hbg, Hend, between_empty, len_nil in Hex; lia. }
  destruct (fn s seg) as [s' [err|]] eqn:Hfn.
  { intros [= <-]. exists [seg], (seg_end seg), None. split_and!; [by eauto with runkit| |done].
    by rewrite (deliver_cons_err _ _ _ _ _ _ _ Hfn). }
  destruct ex.
  - intros [= <-]. exists [seg], (seg_end seg), None. split_and!; [by eauto with runkit| |].
    + by rewrite (deliver_cons_ok _ _ _ _ _ _ Hfn).
    + intros _ _. exists db. split; [done|]. by rewrite Hex.
  - intros Hr. apply IH in Hr as (segs & e & err & Hc & -> & Hend); [|lia].
    exists (seg :: segs), e, err. split_and!; [by eauto with runkit| |done].
    by rewrite (deliver_cons_ok _ _ _ _ _ _ Hfn).
Qed.

(** A read of a stream that does not change ends, after at most one query more
    than there are matching events, having reached the end. *)
Lemma Read_loop_until next db {S} (fn : callback S) :
  stored sid h next db ->
  forall fuel i begin s, 0 <= begin <= next ->
  (length (between types begin next h) < fuel)%nat ->
  exists segs, chain sid h types begin segs next /\
    Read_loop fuel SegmentSize
      (fun _ b => inr (mkRows (run_query db (buildSegmentQuery SegmentSize sid types) b) None))
      i sid begin fn s = Some (deliver fn s segs).
Proof using Hsize.
  intros Hst. destruct (stored_history _ _ Hst) as (_ & hi & Hh).
  induction fuel as [|fuel IH]; intros i begin s Hb Hfuel; [lia|]. cbn -[loadSegment].
  pose proof (loadSegment_stored begin next db Hst ltac:(lia)) as H. cbn zeta in H.
  rewrite decide_False in H by lia. destruct H as (seg & ex & -> & Hs & Hbg & Hle & Hf & Hex).
  assert (Hsplit : (length (seg_envelopes seg) + length (between types (seg_end seg) next h)
            = length (between types begin next h))%nat).
  { rewrite <- (between_app sid types _ _ _ begin (seg_end seg) next Hh) by (destruct Hf; lia).
    rewrite length_app. destruct Hf as [_ ->]. by rewrite Hbg. }
  case_decide as Hadv; last first.
  { assert (Hend : seg_end seg = begin) by (destruct Hf; lia). destruct ex.
    - exists []. rewrite <- Hend, Hex. split; [constructor|done].
    - exfalso. destruct Hf as [_ Hf]. rewrite Hf, Hbg, Hend, between_empty, len_nil in Hex; lia. }
  destruct (fn s seg) as [s' [err|]] eqn:Hfn.
  { exists (seg :: [whole sid h types (seg_end seg) next]). split; [|cbn; by rewrite Hfn].
    constructor; try done. by apply chain_whole. }
  destruct ex.
  - exists [seg]. rewrite <- Hex. split; [by eauto with runkit|]. cbn. by rewrite Hfn.
  - destruct (IH (Datatypes.S i) (seg_end seg) s') as (segs & Hc & ->); [lia|unfold len in Hex; lia|].
    exists (seg :: segs). split; [by eauto with runkit|]. cbn. by rewrite Hfn.
Qed.

(** The events that a read from [begin] may deliver. *)
Definition remaining (begin : Z) : list Envelope :=
  filter (fun e => begin <= off e /\ matches types e) h.

Lemma remaining_split begin end_ :
  begin <= end_ ->
  length (remaining begin) = (length (between types begin end_ h) + length (remaining end_))%nat.
Proof.
  intros Hle. unfold remaining, between. induction h as [|e h' IHh]; [done|].
  rewrite !filter_cons. destruct (Z.lt_ge_cases (off e) end_), (Z.lt_ge_cases (off e) begin).
  all: repeat case_decide; cbn [length]; (lia || (exfalso; intuition lia)).
Qed.

(** A read ends whatever the database does, after at most one query more than there
    are matching events in all. *)
Lemma Read_loop_returns seen query {S} (fn : callback S) :
  (forall i b, answers seen sid h (buildSegmentQuery SegmentSize sid types) b (query i b)) ->
  forall fuel i begin s, 0 <= begin ->
  (length (remaining begin) < fuel)%nat ->
  is_Some (Read_loop fuel SegmentSize query i sid begin fn s).
Proof using Hsize.
  intros Hq. induction fuel as [|fuel IH]; intros i begin s Hb Hfuel; [lia|]. cbn -[loadSegment].
  destruct (loadSegment_answer seen (query i begin) begin (Hq _ _) Hb)
    as [[e ->]|(seg & ex & next & db & _ & _ & -> & Hs & Hbg & Hle & Hf & Hex)]; [by eexists|].
  destruct Hf as [Hse Hf]. rewrite Hbg in Hf.
  case_decide as Hadv; last first.
  { destruct ex; [by eexists|]. exfalso.
    rewrite Hf, between_empty, len_nil in Hex; lia. }
  destruct (fn s seg) as [s' [err|]]; [by eexists|]. destruct ex; [by eexists|].
  apply IH; [lia|].
  rewrite (remaining_split begin (seg_end seg)), <- Hf in Hfuel by lia.
  unfold len in Hex. lia.
Qed.
End load.
End local.

(** ** Properties *)

(** Whatever is appended to the stream while [Local.Read] is in progress,
    and whichever of its queries fail, it delivers the stream from the requested
    offset in contiguous segments, each holding exactly the events of the
    requested types in its range; it returns the callback's error unchanged, and
    returns nil only when it has delivered everything up to the end that the
    stream had in a state that one of its queries saw. *)
Theorem Local_Read_serves unmarshal seen SegmentSize sid types h conn fuel begin
    {S} (fn : callback S) s res :
  0 <= begin ->
  (forall i q b, q_stream q = sid -> answers unmarshal seen sid h q b (conn i q b)) ->
  Read unmarshal fuel SegmentSize conn sid types begin fn s = Ret (Some res) ->
  exists segs e err, chain sid h types begin segs e /\
    res = finish (deliver fn s segs) err /\
    (err = None -> res.2 = None -> exists db, seen db /\ stored unmarshal sid h e db).
Proof.
  intros Hb Hc. unfold Read. destruct (panicIfEmpty types); cbn; [|done].
  case_decide; [done|]. intros [= Hr].
  eapply Read_loop_serves in Hr; [done|lia| |done]. intros. by apply Hc.
Qed.

(** [Local.Read] panics on an empty set of types or a segment size that is
    not positive, reports a stream that does not exist and an offset beyond the
    end, and otherwise ends, after at most one query more than there are matching
    events, having delivered the stream up to its end. *)
Theorem Local_Read_total unmarshal SegmentSize sid types h next db fuel begin
    {S} (fn : callback S) s :
  0 <= begin -> stored unmarshal sid h next db ->
  (length (between types begin next h) < fuel)%nat ->
  let conn := fun (_ : nat) q b => inr (mkRows (run_query db q b) None) in
  if decide (types = Some ∅ \/ SegmentSize <= 0) then
    exists msg, Read unmarshal fuel SegmentSize conn sid types begin fn s = Panic msg
  else if decide (begin > next) then
    exists msg, Read unmarshal fuel SegmentSize conn sid types begin fn s
      = Ret (Some (s, Some (Wrap msg (Sentinel ErrOffsetOutOfRange))))
  else exists segs, chain sid h types begin segs next /\
    Read unmarshal fuel SegmentSize conn sid types begin fn s = Ret (Some (deliver fn s segs)).
Proof.
  intros Hb Hst Hfuel conn. unfold Read, panicIfEmpty.
  destruct (decide (types = Some ∅)) as [->|Ht].
  { rewrite decide_True by tauto. by eexists. }
  replace (match types with Some ts => _ | None => _ end) with (Ret tt); last first.
  { destruct types as [ts|]; [|done]. rewrite decide_False; congruence. }
  cbn -[Read_loop]. destruct (decide (SegmentSize <= 0)) as [Hsz|Hsz].
  { rewrite decide_True by tauto. by eexists. }
  rewrite decide_False by tauto. case_decide as Hgt.
  - destruct fuel as [|fuel]; [lia|]. cbn -[loadSegment].
    pose proof (loadSegment_stored unmarshal SegmentSize sid types h ltac:(lia) begin next db Hst Hb)
      as Hload. cbn zeta in Hload. rewrite decide_True in Hload by done.
    destruct Hload as [msg Hload]. unfold conn. rewrite Hload. by eexists.
  - destruct (Read_loop_until unmarshal SegmentSize sid types h ltac:(lia) next db fn Hst
      fuel 0 begin s) as (segs & Hch & Hr); [lia|done|].
    exists segs. split; [done|]. f_equal. exact Hr.
Qed.

Section example.
Definition example_unmarshal (s : string) : error + Envelope :=
  if decide (s = "") then inl (Opaque "invalid")
  else inr (mkEnvelope (mkHeader 0 0 "")
              (mkBody 0 (N.of_nat (String.length s)) "" 0 0 "" NoPosition)).

Definition example_row (o : Z) (bytes : string) : EventRow :=
  Database.mkEventRow (Z.to_N o) 0 (N.of_nat (String.length bytes)) bytes 7 o None None.

Definition example_db : DB :=
  Database.set_events (Database.set_streams Database.empty_db {[7%N := 3]})
    [example_row 0 "a"; example_row 1 "bb"; example_row 2 "c"].

Definition example_event (o : Z) (ty : UUID) : Envelope :=
  mkEnvelope (mkHeader 0 0 "") (mkBody 0 ty "" 0 0 "" (HasPosition (mkPosition 7 o))).

Definition example_history : list Envelope :=
  [example_event 0 1; example_event 1 2; example_event 2 1].

Lemma example_stored : stored example_unmarshal 7 example_history 3 example_db.
Proof.
  split; [split|split_and!].
  - apply (bool_decide_eq_true_1 _). vm_compute. reflexivity.
  - intros sid. destruct (decide (sid = 7%N)) as [->|Hne]; [by split|].
    replace (Database.streams example_db !! sid) with (@None Z)
      by (symmetry; by apply lookup_singleton_ne). 
    unfold stream_events. apply filter_none. intros x Hx Hs. cbn in Hx.
    rewrite !elem_of_cons, elem_of_nil in Hx. naive_solver.
  - reflexivity.
  - reflexivity.
  - exists example_history, [], 3. split_and!; [done|cbn; lia|].
    repeat constructor; eexists; by repeat split.
Qed.
End example.

Lemma Local_Read_serves_witness :
  exists segs e err, chain 7 example_history None 1 segs e /\
    (mkSegment 7 1 3 [example_event 1 2; example_event 2 1] :: [], None)
      = finish (deliver recorder [] segs) err /\
    (err = None -> @None error = None ->
     exists db, db = example_db /\ stored example_unmarshal 7 example_history e db).
Proof.
  apply (Local_Read_serves example_unmarshal (fun db => db = example_db) 10 7 None example_history
    (fun _ q b => if decide (q_stream q = 7%N)
                  then inr (mkRows (run_query example_db q b) None)
                  else inl (Opaque "connection lost")) 1 1 recorder []).
  - lia.
  - intros i q b _ rs. case_decide; [|done]. intros [= <-] _. right. exists 3, example_db.
    split; [reflexivity|]. split; [exact example_stored|done].
  - vm_compute. reflexivity.
Defined.

Lemma Local_Read_total_witness :
  exists segs, chain 7 example_history (Some {[1%N]}) 0 segs 3 /\
    Read example_unmarshal 4 1 (fun _ q b => inr (mkRows (run_query example_db q b) None))
      7 (Some {[1%N]}) 0 recorder [] = Ret (Some (deliver recorder [] segs)).
Proof.
  pose proof (Local_Read_total example_unmarshal 1 7 (Some {[1%N]}) example_history 3 example_db
    4 0 recorder [] ltac:(lia) example_stored) as H.
  rewrite decide_False in H by (intros [?|?]; [discriminate|lia]).
  apply H. vm_compute. lia.
Defined.
