(* ===== verification/LocalWatch.v ===== *)
(** * The local source: watching the application's own streams

    Models [Local.Run] and [Local.Watch] of
    [internal/eventstream/source/local.go].  The watchers are objects on a heap,
    shared between the calls that receive from their channels and the streams
    that send to them: a watcher is removed from the set, and its channel closed,
    by [remove], while its call may still hold segments it has not received.

    The operations on the shared state, which the code performs while it holds
    the mutex, are functions; the goroutines that perform them (a follower for
    each stream, and the calls to [Watch]) are interleaved by the relation
    [step].  Log messages and the text of errors are not modelled. *)

From S2P Require Import Prelude Errors Stream Source Local.

(** ** State *)

(** A [watcher], with the contents of its channel. *)
Record watcher := mkWatcher {
  Segments : list Segment;
  closed : bool;
  Err : option error;
}.

(** The fields of [Local] that the mutex guards; a watcher is identified by its
    address in [heap]. *)
Record Local := mkLocal {
  offsets : gmap UUID Z;
  watchers : gset nat;
  heap : gmap nat watcher;
}.

Definition set_heap (f : gmap nat watcher -> gmap nat watcher) (s : Local) : Local :=
  mkLocal (offsets s) (watchers s) (f (heap s)).

(** The empty segment that opens a stream. *)
Definition opening (sid : UUID) (offset : Z) : Segment := mkSegment sid offset offset [].

Section watch.
Context (BufferSize : Z).

(** ** Operations on the shared state *)

(** [register], where [p] is the address of the new watcher. *)
Definition register (p : nat) (s : Local) : Local * list Segment :=
  (mkLocal (offsets s) ({[p]} ∪ watchers s) (<[p := mkWatcher [] false None]> (heap s)),
   (fun '(sid, offset) => opening sid offset) <$> map_to_list (offsets s)).

(** [unregister]. *)
Definition unregister (p : nat) (s : Local) : Local :=
  mkLocal (offsets s) (watchers s ∖ {[p]}) (heap s).

(** [remove]; closing a channel twice panics. *)
Definition remove (p : nat) (err : error) (s : Local) : go Local :=
  match heap s !! p with
  | None => Panic "nil pointer dereference"
  | Some w =>
      if closed w then Panic "close of closed channel"
      else Ret (mkLocal (offsets s) (watchers s ∖ {[p]})
                  (<[p := mkWatcher (Segments w) true (Some err)]> (heap s)))
  end.

(** The body of the loop of [deliver]: sends without blocking, or removes the
    watcher.  Sending on a closed channel panics. *)
Definition send (seg : Segment) (p : nat) (s : Local) : go Local :=
  match heap s !! p with
  | None => Panic "nil pointer dereference"
  | Some w =>
      if closed w then Panic "send on closed channel"
      else if decide (len (Segments w) < BufferSize) then
        Ret (set_heap <[p := mkWatcher (Segments w ++ [seg]) false (Err w)]> s)
      else remove p (Wrap "unable to deliver event stream" (Sentinel ErrConsumerTooSlow)) s
  end.

(** [deliver]. *)
Definition deliver (seg : Segment) (s : Local) : go Local :=
  let s := mkLocal (<[seg_stream seg := seg_end seg]> (offsets s)) (watchers s) (heap s) in
  each (send seg) (elements (watchers s)) s.

(** [fail]. *)
Definition fail (sid : UUID) (err : error) (s : Local) : go Local :=
  let s := mkLocal (delete sid (offsets s)) (watchers s) (heap s) in
  each (fun p => remove p err) (elements (watchers s)) s.

(** [filterSegment]. *)
Definition filterSegment (types : Types) (seg : Segment) : Segment :=
  match types with
  | None => seg
  | Some ts =>
      mkSegment (seg_stream seg) (seg_begin seg) (seg_end seg)
        (filter (fun e => type_of e ∈ ts) (seg_envelopes seg))
  end.

(** ** Following a stream

    The local variables of [deliverStream], and whether it is within its inner
    loop rather than waiting for a signal. *)
Record follower := mkFollower { next : Z; opened : bool; loading : bool }.

Definition fresh_follower : follower := mkFollower 0 false false.

Section follow.
Context (unmarshal : string -> error + Envelope) (SegmentSize : Z).

(** [deliverStream] receives a signal, and opens the stream if it has not yet
    done so; [answer] is the database's answer to [loadWatchOffset]. *)
Definition deliverStream_signal (sid : UUID) (answer : error + option Z) (f : follower)
    (s : Local) : error + go (follower * Local) :=
  if opened f then inr (Ret (mkFollower (next f) true true, s))
  else
    match loadWatchOffset answer with
    | inl e => inl e
    | inr end_ => inr (s' ← deliver (opening sid end_) s; Ret (mkFollower end_ true true, s'))
    end.

(** One iteration of the inner loop of [deliverStream]; [answer] is the
    database's answer to the query. *)
Definition deliverStream_load (sid : UUID) (answer : error + Rows) (f : follower)
    (s : Local) : error + go (follower * Local) :=
  match loadSegment unmarshal SegmentSize answer sid (next f) with
  | inl e => inl e
  | inr (seg, exhausted) =>
      inr (if decide (seg_end seg > seg_begin seg) then
             s' ← deliver seg s;
             Ret (mkFollower (seg_end seg) (opened f) (negb exhausted), s')
           else Ret (mkFollower (next f) (opened f) (negb exhausted), s))
  end.

(** [watchStream], given what [deliverStream] returned or did: an error ends
    every call to [Watch], and the supervisor starts again. *)
Definition watchStream (sid : UUID) (r : error + go (follower * Local)) (s : Local)
    : go (follower * Local) :=
  match r with
  | inl e =>
      s' ← fail sid (Wrap "unable to watch event stream" e) s;
      Ret (fresh_follower, s')
  | inr m => m
  end.
End follow.

(** ** Calls to [Watch]

    The state of a call: the openings that have not been delivered, every segment
    that [fn] has been given, and what the call returned, if it has. *)
Record call := mkCall {
  c_types : Types;
  c_openings : list Segment;
  c_log : list Segment;
  c_result : option (option error);
}.

Definition Watch_begin (p : nat) (types : Types) (s : Local) : go (call * Local) :=
  _ ← panicIfEmpty types;
  if decide (BufferSize <= 0) then Panic "buffer size must be positive"
  else
    let '(s', openings) := register p s in
    Ret (mkCall types openings [] None, s').

(** The call gives [seg] to [fn], which returns [r]. *)
Definition call_fn (p : nat) (seg : Segment) (openings : list Segment) (r : option error)
    (c : call) (s : Local) : call * Local :=
  match r with
  | Some e => (mkCall (c_types c) openings (c_log c ++ [seg]) (Some (Some e)), unregister p s)
  | None => (mkCall (c_types c) openings (c_log c ++ [seg]) None, s)
  end.

(** The call returns without calling [fn]. *)
Definition call_return (p : nat) (e : option error) (c : call) (s : Local) : call * Local :=
  (mkCall (c_types c) (c_openings c) (c_log c) (Some e), unregister p s).

(** The next step of a call that has not returned, if it can take one: an opening
    is delivered, or else the [select] chooses the context, when it has been
    canceled ([ctx_err] is then its error), or the channel.  [r] is what [fn]
    returns. *)
Definition Watch_next (p : nat) (ctx_err : option error) (r : option error)
    (c : call) (s : Local) : option (call * Local) :=
  match c_openings c with
  | seg :: rest => Some (call_fn p seg rest r c s)
  | [] =>
      match ctx_err with
      | Some e => Some (call_return p (Some e) c s)
      | None =>
          match heap s !! p with
          | None => None
          | Some w =>
              match Segments w with
              | seg :: rest =>
                  Some (call_fn p (filterSegment (c_types c) seg) [] r c
                          (set_heap <[p := mkWatcher rest (closed w) (Err w)]> s))
              | [] => if closed w then Some (call_return p (Err w) c s) else None
              end
          end
      end
  end.

(** ** The system *)

Record System := mkSystem {
  local : Local;
  known : gset UUID;
  followers : gmap UUID follower;
  calls : gmap nat call;
}.

Definition initial : System := mkSystem (mkLocal ∅ ∅ ∅) ∅ ∅ ∅.

(** [discover], given the database's answer: a follower begins for each stream
    that was not known. *)
Definition discover (answer : error + list UUID * option error) (y : System) : System :=
  match loadStreamIDs answer with
  | inl _ => y
  | inr ids =>
      let new := ids ∖ known y in
      mkSystem (local y) (known y ∪ new)
        (followers y ∪ gset_to_gmap fresh_follower new) (calls y)
  end.

Context (unmarshal : string -> error + Envelope) (SegmentSize : Z).
Context (h : UUID -> list Envelope).

Inductive step (y : System) : System -> Prop :=
| step_discover answer : step y (discover answer y)
| step_signal sid f answer f' s' :
    followers y !! sid = Some f -> loading f = false ->
    watchStream sid (deliverStream_signal sid answer f (local y)) (local y) = Ret (f', s') ->
    step y (mkSystem s' (known y) (<[sid := f']> (followers y)) (calls y))
| step_load sid f answer f' s' :
    followers y !! sid = Some f -> loading f = true ->
    answers unmarshal (fun _ => True) sid (h sid) (buildSegmentQuery SegmentSize sid None) (next f) answer ->
    watchStream sid (deliverStream_load unmarshal SegmentSize sid answer f (local y)) (local y)
      = Ret (f', s') ->
    step y (mkSystem s' (known y) (<[sid := f']> (followers y)) (calls y))
| step_stop sid :                        (* the context of Run is canceled *)
    step y (mkSystem (local y) (known y) (delete sid (followers y)) (calls y))
| step_watch p types c s' :
    heap (local y) !! p = None -> Watch_begin p types (local y) = Ret (c, s') ->
    step y (mkSystem s' (known y) (followers y) (<[p := c]> (calls y)))
| step_next p ctx_err r c c' s' :
    calls y !! p = Some c -> c_result c = None ->
    Watch_next p ctx_err r c (local y) = Some (c', s') ->
    step y (mkSystem s' (known y) (followers y) (<[p := c']> (calls y))).

Definition reachable (y : System) : Prop := rtc step initial y.

(** ** Operations on well-formed states *)

Definition locals_wf (s : Local) : Prop :=
  forall p, p ∈ watchers s -> exists w, heap s !! p = Some w /\ closed w = false.

Definition full (w : watcher) : Prop := BufferSize <= len (Segments w).

(** What [deliver] does to a watcher. *)
Definition delivered (seg : Segment) (w : watcher) : watcher :=
  if decide (len (Segments w) < BufferSize) then mkWatcher (Segments w ++ [seg]) false (Err w)
  else mkWatcher (Segments w) true
         (Some (Wrap "unable to deliver event stream" (Sentinel ErrConsumerTooSlow))).

(** A loop over distinct watchers that updates each by [g], and keeps those that
    satisfy [keep]. *)
Lemma each_spec (f : nat -> Local -> go Local) (g : watcher -> watcher) (keep : watcher -> Prop) :
  (forall p w s, heap s !! p = Some w -> closed w = false ->
    exists ws, f p s = Ret (mkLocal (offsets s) ws (<[p := g w]> (heap s))) /\
      (forall q, q ∈ ws <-> q ∈ watchers s /\ (q = p -> keep w))) ->
  forall ps s, NoDup ps ->
  (forall p, p ∈ ps -> exists w, heap s !! p = Some w /\ closed w = false) ->
  exists s', each f ps s = Ret s' /\ offsets s' = offsets s /\
    (forall p, heap s' !! p = if decide (p ∈ ps) then g <$> heap s !! p else heap s !! p) /\
    (forall p, p ∈ watchers s' <-> p ∈ watchers s /\
       (p ∈ ps -> forall w, heap s !! p = Some w -> keep w)).
Proof.
  intros Hf. induction ps as [|p ps IH]; intros s Hnd Hopen.
  - exists s. split_and!; try done. set_solver.
  - apply NoDup_cons in Hnd as [Hp Hnd].
    destruct (Hopen p ltac:(left)) as (w & Hw & Hc).
    destruct (Hf p w s Hw Hc) as (ws & Hfp & Hws). cbn. rewrite Hfp. cbn.
    destruct (IH (mkLocal (offsets s) ws (<[p := g w]> (heap s))) Hnd)
      as (s' & -> & Ho & Hh & Hwt).
    { intros q Hq. cbn. rewrite lookup_insert_ne by set_solver. apply Hopen. by right. }
    exists s'. split_and!; [done|done| |].
    + intros q. rewrite Hh. cbn. destruct (decide (q = p)) as [->|Hne].
      * rewrite lookup_insert_eq, decide_False, decide_True by (done || left). by rewrite Hw.
      * rewrite lookup_insert_ne by done. repeat case_decide; set_solver.
    + intros q. rewrite Hwt. cbn. rewrite Hws. destruct (decide (q = p)) as [->|Hne].
      * rewrite Hw. split; [naive_solver|]. intros [? Hk]. split; [|done].
        split; [done|]. intros _. apply Hk; [left|done].
      * rewrite lookup_insert_ne by done. set_solver.
Qed.

Lemma remove_step err p w s :
  heap s !! p = Some w -> closed w = false ->
  exists ws, remove p err s
      = Ret (mkLocal (offsets s) ws (<[p := mkWatcher (Segments w) true (Some err)]> (heap s))) /\
    (forall q, q ∈ ws <-> q ∈ watchers s /\ (q = p -> False)).
Proof. intros Hw Hc. unfold remove. rewrite Hw, Hc. eexists. split; [done|]. set_solver. Qed.

Lemma send_step seg p w s :
  heap s !! p = Some w -> closed w = false ->
  exists ws, send seg p s = Ret (mkLocal (offsets s) ws (<[p := delivered seg w]> (heap s))) /\
    (forall q, q ∈ ws <-> q ∈ watchers s /\ (q = p -> ~ full w)).
Proof.
  intros Hw Hc. unfold send, delivered, full. rewrite Hw, Hc. case_decide.
  - eexists. split; [done|]. cbn. intros q. split; [intros; split; [done|intros; lia]|tauto].
  - destruct (remove_step (Wrap "unable to deliver event stream" (Sentinel ErrConsumerTooSlow))
      p w s Hw Hc) as (ws & -> & Hws).
    eexists. split; [done|]. intros q. rewrite Hws. split; intros [? H']; (split; [done|]).
    + intros Hq. by destruct H'.
    + intros Hq. apply H'; [done|lia].
Qed.

Lemma watch_deliver_spec seg s : locals_wf s ->
  exists s', deliver seg s = Ret s' /\
    offsets s' = <[seg_stream seg := seg_end seg]> (offsets s) /\
    (forall p, heap s' !! p = if decide (p ∈ watchers s) then delivered seg <$> heap s !! p
                              else heap s !! p) /\
    (forall p, p ∈ watchers s' <-> p ∈ watchers s /\ forall w, heap s !! p = Some w -> ~ full w).
Proof.
  intros Hwf. unfold deliver. cbn.
  destruct (each_spec (send seg) (delivered seg) (fun w => ~ full w) (send_step seg)
    (elements (watchers s))
    (mkLocal (<[seg_stream seg := seg_end seg]> (offsets s)) (watchers s) (heap s)))
    as (s' & Hd & Ho & Hh & Hw).
  - apply NoDup_elements.
  - intros p Hp. apply Hwf. set_solver.
  - exists s'. split_and!; [done|done| |].
    + intros p. rewrite Hh. cbn. repeat case_decide; set_solver.
    + intros p. rewrite Hw. cbn. set_solver.
Qed.

Lemma fail_spec sid err s : locals_wf s ->
  exists s', fail sid err s = Ret s' /\ offsets s' = delete sid (offsets s) /\
    (forall p, heap s' !! p = if decide (p ∈ watchers s)
       then (fun w => mkWatcher (Segments w) true (Some err)) <$> heap s !! p else heap s !! p) /\
    (forall p, p ∉ watchers s').
Proof.
  intros Hwf. unfold fail. cbn.
  destruct (each_spec (fun p => remove p err) (fun w => mkWatcher (Segments w) true (Some err))
    (fun _ => False) (remove_step err) (elements (watchers s))
    (mkLocal (delete sid (offsets s)) (watchers s) (heap s))) as (s' & Hd & Ho & Hh & Hw).
  - apply NoDup_elements.
  - intros p Hp. apply Hwf. set_solver.
  - exists s'. split_and!; [done|done| |].
    + intros p. rewrite Hh. cbn. repeat case_decide; set_solver.
    + intros p Hp. apply Hw in Hp as [Hp Hk]. cbn in *.
      destruct (Hwf p Hp) as (w & Hpw & _). apply (Hk ltac:(set_solver) w Hpw).
Qed.

(** ** The invariant *)

(** The segments that a call has been given, or will be given unless it ends. *)
Definition sent (c : call) (w : watcher) : list Segment :=
  c_log c ++ c_openings c ++ (filterSegment (c_types c) <$> Segments w).

(** The first segment of a stream is the empty one that opens it. *)
Definition opens (sid : UUID) (b : Z) (segs : list Segment) : Prop :=
  segs = [] \/ exists rest, segs = opening sid b :: rest.

(** A call is sent each stream contiguously, from where it was opened, and, while it is
    registered, up to the stream's offset. *)
Definition call_ok (s : Local) (p : nat) (c : call) : Prop :=
  exists w, heap s !! p = Some w /\ forall sid, exists b e,
    chain sid (h sid) (c_types c) b (of_stream sid (sent c w)) e /\
    opens sid b (of_stream sid (sent c w)) /\
    (p ∈ watchers s ->
      match offsets s !! sid with
      | Some o => e = o /\ of_stream sid (sent c w) <> []
      | None => of_stream sid (sent c w) = []
      end).

Record inv (y : System) : Prop := mkInv {
  inv_locals : locals_wf (local y);
  inv_calls : forall p c, calls y !! p = Some c -> call_ok (local y) p c;
  inv_followers : forall sid f, followers y !! sid = Some f ->
    0 <= next f /\ offsets (local y) !! sid = if opened f then Some (next f) else None;
  inv_loading : forall sid f, followers y !! sid = Some f -> loading f = true -> opened f = true;
  inv_known : forall sid, sid ∉ known y ->
    followers y !! sid = None /\ offsets (local y) !! sid = None;
}.

Lemma seg_stream_filter types seg : seg_stream (filterSegment types seg) = seg_stream seg.
Proof. by destruct types. Qed.

(** [filterSegment] keeps a segment faithful. *)
Lemma filterSegment_faithful hist types seg :
  faithful hist None seg -> faithful hist types (filterSegment types seg).
Proof.
  intros [Hle He]. destruct types as [ts|]; [|done]. split; [done|]. cbn -[between]. rewrite He.
  unfold between. rewrite list_filter_filter. apply filter_ext_elem. cbn.
  unfold matches, type_in. tauto.
Qed.

Lemma filterSegment_range types seg :
  seg_begin (filterSegment types seg) = seg_begin seg /\
  seg_end (filterSegment types seg) = seg_end seg.
Proof. by destruct types. Qed.

Lemma filterSegment_opening types sid o : filterSegment types (opening sid o) = opening sid o.
Proof. by destruct types. Qed.

Lemma opens_app sid b segs1 segs2 : opens sid b (segs1 ++ segs2) -> opens sid b segs1.
Proof.
  intros [[-> _]%app_nil|[rest H]]; [by left|]. destruct segs1 as [|seg segs1]; [by left|].
  right. exists segs1. by injection H as -> _.
Qed.

Lemma opens_snoc sid b segs seg : segs <> [] -> opens sid b segs -> opens sid b (segs ++ [seg]).
Proof. intros Hne [->|[rest ->]]; [done|]. right. by eexists. Qed.

Lemma sent_snoc c w seg b err :
  sent c (mkWatcher (Segments w ++ [seg]) b err) = sent c w ++ [filterSegment (c_types c) seg].
Proof. unfold sent. cbn. by rewrite fmap_app, !app_assoc. Qed.

(** A call depends only on its watcher, and, if it is registered, on the
    offsets. *)
Lemma call_ok_inactive s s' p c w w' :
  call_ok s p c -> heap s !! p = Some w -> heap s' !! p = Some w' ->
  Segments w' = Segments w -> p ∉ watchers s' -> call_ok s' p c.
Proof.
  intros (w0 & Hw0 & H) Hw Hw' Hseg Hp. simplify_eq. exists w'. split; [done|].
  intros sid. destruct (H sid) as (b & e & Hc & Hopn & _). exists b, e.
  unfold sent in *. by rewrite Hseg.
Qed.

Lemma call_ok_same s s' p c :
  call_ok s p c -> heap s' !! p = heap s !! p -> offsets s' = offsets s ->
  (p ∈ watchers s' -> p ∈ watchers s) -> call_ok s' p c.
Proof.
  intros (w & Hw & H) Hh Ho Hi. exists w. rewrite Hh, Ho. split; [done|]. intros sid.
  destruct (H sid) as (b & e & Hc & Hopn & Ha). exists b, e. split_and!; [done..|]. intros. apply Ha. auto.
Qed.

(** Delivery of a segment that continues its stream. *)
Lemma deliver_call_ok seg s s' p c :
  locals_wf s -> deliver seg s = Ret s' -> faithful (h (seg_stream seg)) None seg ->
  (forall o, offsets s !! seg_stream seg = Some o -> o = seg_begin seg) ->
  (offsets s !! seg_stream seg = None -> seg = opening (seg_stream seg) (seg_begin seg)) ->
  call_ok s p c -> call_ok s' p c.
Proof.
  intros Hwf Hd Hf Hcont Hnew Hok. destruct (watch_deliver_spec seg s Hwf) as (s1 & Hd' & Ho & Hh & Hw).
  rewrite Hd in Hd'; injection Hd' as <-. specialize (Hh p). specialize (Hw p).
  destruct Hok as (w & Hpw & Hok). rewrite Hpw in Hh. cbn in Hh.
  case_decide as Hin; last first.
  { apply (call_ok_inactive s s' p c w w); [by exists w|done|done|done|tauto]. }
  destruct (decide (len (Segments w) < BufferSize)) as [Hroom|Hfull]; last first.
  { eapply (call_ok_inactive s s' p c w); [by exists w|done|done| |].
    - unfold delivered. by rewrite decide_False.
    - rewrite Hw. intros [_ Hnf]. apply (Hnf w Hpw). unfold full. lia. }
  unfold delivered in Hh. rewrite decide_True in Hh by done.
  eexists. split; [done|]. intros sid. rewrite sent_snoc, of_stream_app, of_stream_one, Ho.
  destruct (Hok sid) as (b & e & Hc & Hopn & Ha). specialize (Ha Hin). rewrite seg_stream_filter.
  destruct (filterSegment_range (c_types c) seg) as [Hb He].
  destruct (decide (seg_stream seg = sid)) as [<-|Hne].
  - rewrite lookup_insert_eq.
    destruct (offsets s !! seg_stream seg) as [o|] eqn:Hoff.
    + destruct Ha as [-> Hne]. rewrite (Hcont o eq_refl) in *. exists b, (seg_end seg).
      split_and!; [|by apply opens_snoc|intros _; split; [done|by destruct (of_stream _ _)]].
      rewrite <- He. apply chain_snoc with (seg_begin seg); rewrite ?seg_stream_filter; try done.
      by apply filterSegment_faithful.
    + rewrite Ha. exists (seg_begin seg), (seg_end seg). split_and!; [| |done]; last first.
      { right. exists []. rewrite (Hnew eq_refl), filterSegment_opening. done. }
      rewrite <- He. apply (chain_snoc _ _ _ _ [] (seg_begin seg)); rewrite ?seg_stream_filter;
        try done; [constructor|by apply filterSegment_faithful].
  - rewrite lookup_insert_ne, app_nil_r by done. by exists b, e.
Qed.

Lemma locals_wf_deliver seg s s' : locals_wf s -> deliver seg s = Ret s' -> locals_wf s'.
Proof.
  intros Hwf Hd. destruct (watch_deliver_spec seg s Hwf) as (s1 & Hd' & Ho & Hh & Hw). rewrite Hd in Hd'; injection Hd' as <-.
  intros p Hp. apply Hw in Hp as [Hp Hk]. destruct (Hwf p Hp) as (w & Hpw & Hc).
  specialize (Hk w Hpw). rewrite Hh, decide_True, Hpw by done. eexists. split; [done|].
  unfold full, delivered in *. by rewrite decide_True by lia.
Qed.

Lemma fail_call_ok sid err s s' p c :
  locals_wf s -> fail sid err s = Ret s' -> call_ok s p c -> call_ok s' p c.
Proof.
  intros Hwf Hd Hok. destruct (fail_spec sid err s Hwf) as (s1 & Hd' & Ho & Hh & Hw). rewrite Hd in Hd'; injection Hd' as <-.
  pose proof Hok as (w & Hpw & _). specialize (Hh p). rewrite Hpw in Hh. cbn in Hh.
  case_decide; eapply call_ok_inactive; eauto; done.
Qed.

(** ** Every step preserves the invariant *)

Lemma watch_inv_deliver y sid f seg b s' :
  inv y -> followers y !! sid = Some f -> seg_stream seg = sid ->
  faithful (h sid) None seg -> (opened f = true -> seg_begin seg = next f) ->
  (opened f = false -> seg = opening sid (seg_begin seg)) ->
  0 <= seg_end seg -> deliver seg (local y) = Ret s' ->
  inv (mkSystem s' (known y) (<[sid := mkFollower (seg_end seg) true b]> (followers y)) (calls y)).
Proof.
  intros [Hwf Hc Hf Hl Hk] Hfol Hsid Hfa Hbeg Hnew Hend Hd. subst sid.
  destruct (watch_deliver_spec seg (local y) Hwf) as (s1 & Hd' & Ho & _).
  rewrite Hd in Hd'; injection Hd' as <-. destruct (Hf _ _ Hfol) as [_ Hoff].
  split; cbn.
  - by eapply locals_wf_deliver.
  - intros p c Hpc. eapply deliver_call_ok; eauto; rewrite Hoff; destruct (opened f); try done; [|auto].
    intros o [= <-]. symmetry. auto.
  - intros sid' f'. rewrite Ho. destruct (decide (sid' = seg_stream seg)) as [->|Hne].
    + rewrite !lookup_insert_eq. by intros [= <-].
    + rewrite !lookup_insert_ne by done. apply Hf.
  - intros sid' f'. destruct (decide (sid' = seg_stream seg)) as [->|Hne].
    + rewrite !lookup_insert_eq. by intros [= <-].
    + rewrite !lookup_insert_ne by done. apply Hl.
  - intros sid' Hsid. specialize (Hk sid' Hsid) as [Hk1 Hk2]. rewrite Ho.
    rewrite !lookup_insert_ne; [done| |]; intros <-; congruence.
Qed.

Lemma inv_fail y sid f err s' :
  inv y -> followers y !! sid = Some f -> fail sid err (local y) = Ret s' ->
  inv (mkSystem s' (known y) (<[sid := fresh_follower]> (followers y)) (calls y)).
Proof.
  intros [Hwf Hc Hf Hl Hk] Hfol Hd.
  destruct (fail_spec sid err (local y) Hwf) as (s1 & Hd' & Ho & Hh & Hw).
  rewrite Hd in Hd'; injection Hd' as <-. split; cbn.
  - intros p Hp. by apply Hw in Hp.
  - intros p c Hpc. eapply fail_call_ok; eauto.
  - intros sid' f'. rewrite Ho. destruct (decide (sid' = sid)) as [->|Hne].
    + rewrite lookup_insert_eq, lookup_delete_eq. by intros [= <-].
    + rewrite lookup_insert_ne, lookup_delete_ne by done. apply Hf.
  - intros sid' f'. destruct (decide (sid' = sid)) as [->|Hne].
    + rewrite !lookup_insert_eq. by intros [= <-].
    + rewrite !lookup_insert_ne by done. apply Hl.
  - intros sid' Hsid. specialize (Hk sid' Hsid) as [Hk1 Hk2]. rewrite Ho.
    rewrite lookup_insert_ne, lookup_delete_None by (intros <-; congruence). auto.
Qed.

(** A follower moves between its loops without delivering anything. *)
Lemma inv_quiet y sid f b :
  inv y -> followers y !! sid = Some f -> opened f = true ->
  inv (mkSystem (local y) (known y) (<[sid := mkFollower (next f) true b]> (followers y)) (calls y)).
Proof.
  intros [Hwf Hc Hf Hl Hk] Hfol Hop. split; cbn; try done.
  - intros sid' f'. destruct (decide (sid' = sid)) as [->|Hne].
    + rewrite lookup_insert_eq. intros [= <-]. cbn. specialize (Hf _ _ Hfol).
      by rewrite Hop in Hf.
    + rewrite lookup_insert_ne by done. apply Hf.
  - intros sid' f'. destruct (decide (sid' = sid)) as [->|Hne].
    + rewrite !lookup_insert_eq. by intros [= <-].
    + rewrite !lookup_insert_ne by done. apply Hl.
  - intros sid' Hsid. specialize (Hk sid' Hsid) as [Hk1 Hk2].
    rewrite lookup_insert_ne by (intros <-; congruence). auto.
Qed.

Lemma loadWatchOffset_nonneg answer z : loadWatchOffset answer = inr z -> 0 <= z.
Proof.
  unfold loadWatchOffset, scan_u64. destruct answer as [|[n|]]; try done.
  case_decide; [|done]. intros [= <-]. lia.
Qed.

Lemma opening_faithful sid o hist types : faithful hist types (opening sid o).
Proof. split; [done|]. symmetry. apply between_empty. done. Qed.

Lemma inv_signal y sid f answer f' s' :
  inv y -> followers y !! sid = Some f ->
  watchStream sid (deliverStream_signal sid answer f (local y)) (local y) = Ret (f', s') ->
  inv (mkSystem s' (known y) (<[sid := f']> (followers y)) (calls y)).
Proof.
  intros Hi Hfol. unfold deliverStream_signal. destruct (opened f) eqn:Hop; cbn.
  { intros [= <- <-]. by apply inv_quiet. }
  destruct (loadWatchOffset answer) as [e|z] eqn:Hz; cbn.
  - destruct (fail _ _ _) as [s1|] eqn:Hd; cbn; [|done]. intros [= <- <-]. by eapply inv_fail.
  - destruct (deliver _ _) as [s1|] eqn:Hd; cbn; [|done]. intros [= <- <-].
    apply (watch_inv_deliver y sid f (opening sid z) true); eauto using opening_faithful, loadWatchOffset_nonneg.
    by rewrite Hop.
Qed.

Lemma inv_load y sid f answer f' s' :
  0 < SegmentSize -> inv y -> followers y !! sid = Some f -> loading f = true ->
  answers unmarshal (fun _ => True) sid (h sid) (buildSegmentQuery SegmentSize sid None) (next f) answer ->
  watchStream sid (deliverStream_load unmarshal SegmentSize sid answer f (local y)) (local y)
    = Ret (f', s') ->
  inv (mkSystem s' (known y) (<[sid := f']> (followers y)) (calls y)).
Proof.
  intros Hsize Hi Hfol Hload Ha. pose proof (inv_loading y Hi sid f Hfol Hload) as Hop.
  destruct (inv_followers y Hi sid f Hfol) as [Hn _]. unfold deliverStream_load.
  destruct (loadSegment_answer _ SegmentSize sid None (h sid) Hsize _ answer (next f) Ha Hn)
    as [[e ->]|(seg & ex & nx & db & _ & _ & -> & Hs & Hb & _ & Hfa & _)]; cbn.
  { destruct (fail _ _ _) as [s1|] eqn:Hd; cbn; [|done]. intros [= <- <-]. by eapply inv_fail. }
  rewrite Hop. case_decide.
  - destruct (deliver _ _) as [s1|] eqn:Hd; cbn; [|done]. intros [= <- <-].
    apply (watch_inv_deliver y sid f seg); auto; [congruence|lia].
  - intros [= <- <-]. by apply inv_quiet.
Qed.

Lemma inv_discover y answer : inv y -> inv (discover answer y).
Proof.
  intros Hi. unfold discover. destruct (loadStreamIDs answer) as [e|ids]; [done|].
  destruct Hi as [Hwf Hc Hf Hl Hk].
  assert (Hnew : forall sid f,
    (followers y ∪ gset_to_gmap fresh_follower (ids ∖ known y)) !! sid = Some f ->
    followers y !! sid = Some f \/ ((sid ∉ known y) /\ f = fresh_follower)).
  { intros sid f [Hs|[_ Hs]]%lookup_union_Some_raw; [auto|].
    apply lookup_gset_to_gmap_Some in Hs as [Hs <-]. set_solver. }
  split; cbn; try done.
  - intros sid f [Hs|[Hs ->]]%Hnew; [by apply Hf|]. split; [done|]. by apply Hk.
  - intros sid f [Hs|[Hs ->]]%Hnew; [by apply (Hl sid)|done].
  - intros sid Hsid. destruct (Hk sid) as [Hk1 Hk2]; [set_solver|]. split; [|done].
    apply lookup_union_None. split; [done|]. apply lookup_gset_to_gmap_None. set_solver.
Qed.

Lemma inv_stop y sid : inv y ->
  inv (mkSystem (local y) (known y) (delete sid (followers y)) (calls y)).
Proof.
  intros [Hwf Hc Hf Hl Hk]. split; cbn; try done.
  - intros sid' f [_ H]%lookup_delete_Some. auto.
  - intros sid' f [_ H]%lookup_delete_Some. eauto.
  - intros sid' H. destruct (Hk sid' H). rewrite lookup_delete_None. auto.
Qed.

(** Each watched stream has one opening. *)
Lemma openings_of_stream sid (m : gmap UUID Z) :
  of_stream sid ((fun '(k, o) => opening k o) <$> map_to_list m)
  = match m !! sid with Some o => [opening sid o] | None => [] end.
Proof.
  pose proof (NoDup_fst_map_to_list m) as Hnd.
  assert (Hin : forall o, m !! sid = Some o <-> (sid, o) ∈ map_to_list m)
    by (intros; symmetry; apply elem_of_map_to_list).
  destruct (m !! sid) as [o|] eqn:Hm; clear Hm; revert Hnd Hin; generalize (map_to_list m).
  - intros l Hnd Hin. specialize (proj1 (Hin o) eq_refl) as Ho. clear Hin.
    induction l as [|[k v] l IH]; [by apply elem_of_nil in Ho|]. cbn in Hnd.
    apply NoDup_cons in Hnd as [Hk Hnd]. unfold of_stream in *. cbn -[filter].
    rewrite filter_cons. apply elem_of_cons in Ho as [Ho|Ho].
    + injection Ho as <- <-. rewrite decide_True by done. f_equal.
      apply filter_none. intros seg ([k' v'] & -> & Hv)%list_elem_of_fmap. cbn. intros ->.
      apply Hk. apply list_elem_of_fmap. by exists (sid, v').
    + rewrite decide_False, IH; [done|done|done|]. cbn. intros ->.
      apply Hk. apply list_elem_of_fmap. by exists (sid, o).
  - intros l _ Hin. apply filter_none. intros seg ([k v] & -> & Hv)%list_elem_of_fmap. cbn.
    intros ->. by apply Hin in Hv.
Qed.

Lemma inv_watch y p types c s' :
  inv y -> heap (local y) !! p = None -> Watch_begin p types (local y) = Ret (c, s') ->
  inv (mkSystem s' (known y) (followers y) (<[p := c]> (calls y))).
Proof.
  intros [Hwf Hc Hf Hl Hk] Hp. unfold Watch_begin.
  destruct (panicIfEmpty types); cbn; [|done]. case_decide; [done|]. intros [= <- <-].
  split; cbn; try done.
  - intros q Hq. destruct (decide (q = p)) as [->|Hne].
    + cbn. rewrite lookup_insert_eq. by eexists.
    + cbn. rewrite lookup_insert_ne by done. apply Hwf. set_solver.
  - intros q c. destruct (decide (q = p)) as [->|Hne].
    + rewrite lookup_insert_eq. intros [= <-]. exists (mkWatcher [] false None).
      split; [apply lookup_insert_eq|]. intros sid. unfold sent. cbn [c_log c_openings c_types Segments].
      rewrite fmap_nil, app_nil_r. change ([] ++ ?l) with l. rewrite openings_of_stream.
      cbn [offsets fst].
      destruct (offsets (local y) !! sid) as [o|].
      * exists o, o. split_and!; [|right; by exists []|done]. apply (chain_cons _ _ _ o (opening sid o)); try done;
          [apply opening_faithful|constructor].
      * exists 0, 0. split_and!; [constructor|by left|done].
    + rewrite lookup_insert_ne by done. intros Hq. eapply call_ok_same; [by apply Hc|..]; cbn.
      * by rewrite lookup_insert_ne.
      * done.
      * set_solver.
Qed.

(** A step of a call passes on what the call had been sent. *)
Lemma Watch_next_spec p ctx_err r c s c' s' w :
  heap s !! p = Some w -> Watch_next p ctx_err r c s = Some (c', s') ->
  exists w', heap s' !! p = Some w' /\ sent c' w' = sent c w /\ c_types c' = c_types c /\
    closed w' = closed w /\ offsets s' = offsets s /\ watchers s' ⊆ watchers s /\
    (forall q, q <> p -> heap s' !! q = heap s !! q).
Proof.
  intros Hw. unfold Watch_next. destruct (c_openings c) as [|seg rest] eqn:Hop; last first.
  { intros Hn. exists w. unfold sent. rewrite Hop. destruct r; injection Hn as <- <-; cbn;
      rewrite <- app_assoc; split_and!; set_solver. }
  destruct ctx_err as [e|].
  { intros [= <- <-]. exists w. unfold sent. cbn. rewrite Hop. split_and!; set_solver. }
  rewrite Hw. destruct (Segments w) as [|seg rest] eqn:Hseg.
  { destruct (closed w) eqn:Hcl; [|done]. intros [= <- <-]. exists w. unfold sent. cbn.
    rewrite Hop. split_and!; set_solver. }
  intros Hn. exists (mkWatcher rest (closed w) (Err w)). unfold sent. rewrite Hop, Hseg.
  destruct r; injection Hn as <- <-; cbn; rewrite lookup_insert_eq, <- app_assoc;
    split_and!; try set_solver; intros; by rewrite lookup_insert_ne.
Qed.

Lemma inv_next y p ctx_err r c c' s' :
  inv y -> calls y !! p = Some c -> Watch_next p ctx_err r c (local y) = Some (c', s') ->
  inv (mkSystem s' (known y) (followers y) (<[p := c']> (calls y))).
Proof.
  intros [Hwf Hc Hf Hl Hk] Hp Hn. destruct (Hc p c Hp) as (w & Hw & Hok).
  destruct (Watch_next_spec _ _ _ _ _ _ _ _ Hw Hn) as (w' & Hw' & Hs & Ht & Hcl & Ho & Hsub & Hh).
  split; cbn; rewrite ?Ho; try done.
  - intros q Hq. specialize (Hwf q (Hsub q Hq)) as (wq & Hwq & Hcq).
    destruct (decide (q = p)) as [->|Hne]; [|rewrite Hh by done; eauto].
    exists w'. split; [done|]. congruence.
  - intros q cq. destruct (decide (q = p)) as [->|Hne].
    + rewrite lookup_insert_eq. intros [= <-]. exists w'. split; [done|]. intros sid.
      rewrite Hs, Ht, Ho. destruct (Hok sid) as (b & e & Hch & Hopn & Ha). exists b, e.
      split_and!; [done..|]. intros Hin. apply Ha. by apply Hsub.
    + rewrite lookup_insert_ne by done. intros Hq.
      eapply call_ok_same; [by apply Hc|by apply Hh|done|apply Hsub].
Qed.

Lemma watch_step_inv y y' : 0 < SegmentSize -> inv y -> step y y' -> inv y'.
Proof.
  intros Hsize Hi []; eauto using inv_discover, inv_signal, inv_load, inv_stop, inv_watch, inv_next.
Qed.

Lemma watch_initial_inv : inv initial.
Proof. split; cbn; try done; set_solver. Qed.

Lemma watch_reachable_inv y : 0 < SegmentSize -> reachable y -> inv y.
Proof.
  intros Hsize. unfold reachable. apply (rtc_ind_r (fun y => inv y)).
  - apply watch_initial_inv.
  - intros y1 y2 _ Hs Hi. by eapply watch_step_inv.
Qed.
End watch.

(** A registered watcher that has received what it was sent is at the stream's offset. *)
Lemma Watch_quiet BufferSize unmarshal SegmentSize h y p c sid o :
  0 < SegmentSize -> reachable BufferSize unmarshal SegmentSize h y ->
  calls y !! p = Some c -> p ∈ watchers (local y) -> c_openings c = [] ->
  (Segments <$> heap (local y) !! p) = Some [] -> offsets (local y) !! sid = Some o ->
  exists b rest, chain sid (h sid) (c_types c) b (of_stream sid (c_log c)) o /\
    of_stream sid (c_log c) = opening sid b :: rest.
Proof.
  intros Hsize Hr Hp Hin Hop Hseg Ho. apply watch_reachable_inv in Hr; [|done].
  destruct (inv_calls _ _ Hr p c Hp) as (w & Hw & Hok). rewrite Hw in Hseg. injection Hseg as Hseg.
  destruct (Hok sid) as (b & e & Hc & Hopn & Ha). specialize (Ha Hin). rewrite Ho in Ha. destruct Ha as [-> Hne].
  unfold sent in *. rewrite Hop, Hseg in *. cbn in *. rewrite app_nil_r in *.
  destruct Hopn as [|[rest Hrest]]; [done|]. by exists b, rest.
Qed.

(** ** Properties *)

(** However the calls to [Watch], the followers of the streams and their
    failures interleave, the segments of a stream that a call has given to its
    callback are contiguous, the first being the empty one that opens the stream, each
    holding exactly the events of the call's types in its range; and a call that is still registered and has nothing left to
    receive has been given every stream that is being watched, up to the end of
    the last segment delivered. *)
Theorem Watch_contiguous BufferSize unmarshal SegmentSize h y p c sid :
  0 < SegmentSize -> reachable BufferSize unmarshal SegmentSize h y ->
  calls y !! p = Some c ->
  exists b e, chain sid (h sid) (c_types c) b (of_stream sid (c_log c)) e /\
    opens sid b (of_stream sid (c_log c)) /\
    (p ∈ watchers (local y) -> c_openings c = [] ->
     (Segments <$> heap (local y) !! p) = Some [] ->
     forall o, offsets (local y) !! sid = Some o -> e = o /\ of_stream sid (c_log c) <> []).
Proof.
  intros Hsize Hr Hp. apply watch_reachable_inv in Hr; [|done].
  destruct (inv_calls _ _ Hr p c Hp) as (w & Hw & Hok).
  destruct (Hok sid) as (b & e & Hc & Hopn & Ha). unfold sent in *.
  rewrite of_stream_app in Hc, Hopn. apply opens_app in Hopn. pose proof Hc as (m & Hc1 & _)%chain_app_inv. exists b.
  destruct (decide (c_openings c = [] /\ Segments w = [])) as [[Hop Hseg]|Hne].
  - exists e. rewrite Hop, Hseg, app_nil_r in *. split_and!; [done..|]. intros Hin _ _ o Ho.
    specialize (Ha Hin). rewrite Ho in Ha. cbn in Ha. by rewrite ?app_nil_r in Ha.
  - exists m. split_and!; [done..|]. intros _ Hop Hseg. rewrite Hw in Hseg. injection Hseg as Hseg. tauto.
Qed.

(** In every reachable state [deliver] and [fail] complete without sending on
    a closed channel or closing one twice; [deliver] records the end of the
    segment and appends the segment to the channel of every registered watcher
    that has room, and a watcher that has none is unregistered, keeps what it has
    not received, and ends with [ErrConsumerTooSlow]; [fail] ends every watcher
    with the error, and forgets the stream; neither affects a watcher that is not
    registered. *)
Theorem deliver_and_fail BufferSize unmarshal SegmentSize h y seg sid err :
  0 < SegmentSize -> reachable BufferSize unmarshal SegmentSize h y ->
  (exists s', deliver BufferSize seg (local y) = Ret s' /\
    offsets s' = <[seg_stream seg := seg_end seg]> (offsets (local y)) /\
    forall p w, heap (local y) !! p = Some w ->
      if decide (p ∈ watchers (local y)) then
        if decide (len (Segments w) < BufferSize) then
          p ∈ watchers s' /\ heap s' !! p = Some (mkWatcher (Segments w ++ [seg]) false (Err w))
        else
          ~ p ∈ watchers s' /\ exists e, heap s' !! p = Some (mkWatcher (Segments w) true (Some e)) /\
            Is e ErrConsumerTooSlow = true
      else ~ p ∈ watchers s' /\ heap s' !! p = Some w) /\
  (exists s', fail sid err (local y) = Ret s' /\ offsets s' !! sid = None /\ watchers s' = ∅ /\
    forall p w, heap (local y) !! p = Some w ->
      heap s' !! p = Some (if decide (p ∈ watchers (local y))
                           then mkWatcher (Segments w) true (Some err) else w)).
Proof.
  intros Hsize Hr. apply watch_reachable_inv in Hr; [|done]. pose proof (inv_locals _ _ Hr) as Hwf. split.
  - destruct (watch_deliver_spec BufferSize seg _ Hwf) as (s' & Hd & Ho & Hh & Hw).
    exists s'. split_and!; [done|done|]. intros p w Hp. rewrite Hh, Hp. specialize (Hw p).
    rewrite Hp in Hw. case_decide; cbn.
    + unfold delivered, full. case_decide.
      * split; [|done]. apply Hw. split; [done|]. unfold full. intros ? [= <-]. lia.
      * split; [|eexists; by split]. intros [_ Hf]%Hw. specialize (Hf w eq_refl).
        unfold full in Hf. lia.
    + split; [tauto|done].
  - destruct (fail_spec sid err _ Hwf) as (s' & Hd & Ho & Hh & Hw).
    exists s'. split_and!; [done| | |].
    + rewrite Ho. apply lookup_delete_eq.
    + apply set_eq. set_solver.
    + intros p w Hp. rewrite Hh, Hp. by case_decide.
Qed.

Section example.
Definition example_h (sid : UUID) : list Envelope := if decide (sid = 7%N) then example_history else [].

Definition example_call : call :=
  mkCall (Some {[1%N]}) [] [mkSegment 7 1 1 []; mkSegment 7 1 3 [example_event 2 1]] None.

(** The system after a call, for events of type 1, has received the opening of
    stream 7 and its next two events. *)
Lemma watch_example_reachable : exists y,
  reachable 5 example_unmarshal 10 example_h y /\ calls y !! 0%nat = Some example_call /\
  0%nat ∈ watchers (local y) /\ heap (local y) !! 0%nat = Some (mkWatcher [] false None) /\
  offsets (local y) !! 7%N = Some 3.
Proof.
  eexists. split.
  { unfold reachable. eapply rtc_l.
    { eapply (step_discover _ _ _ _ _ (inr ([7%N], None))). }
    eapply rtc_l.
    { eapply (step_watch _ _ _ _ _ 0 (Some {[1%N]})); [reflexivity|]. vm_compute; reflexivity. }
    eapply rtc_l.
    { eapply (step_signal _ _ _ _ _ 7 _ (inr (Some 1))); [vm_compute; reflexivity|reflexivity|].
      vm_compute; reflexivity. }
    eapply rtc_l.
    { eapply (step_load _ _ _ _ _ 7 _ (inr (mkRows (run_query example_db
        (buildSegmentQuery 10 7 None) 1) None))); [vm_compute; reflexivity|reflexivity| |].
      - intros rs [= <-] _. right. exists 3, example_db. split; [exact I|]. split; [exact example_stored|reflexivity].
      - vm_compute; reflexivity. }
    eapply rtc_l.
    { eapply (step_next _ _ _ _ _ 0 None None); [vm_compute; reflexivity|reflexivity|].
      vm_compute; reflexivity. }
    eapply rtc_l.
    { eapply (step_next _ _ _ _ _ 0 None None); [vm_compute; reflexivity|reflexivity|].
      vm_compute; reflexivity. }
    apply rtc_refl. }
  split_and!; try (vm_compute; reflexivity).
Qed.
End example.

Lemma Watch_contiguous_witness :
  exists y, calls y !! 0%nat = Some example_call /\ exists b e,
    chain 7 example_history (Some {[1%N]}) b (c_log example_call) e /\ e = 3.
Proof.
  destruct watch_example_reachable as (y & Hr & Hc & Hin & Hh & Ho). exists y. split; [done|].
  destruct (Watch_contiguous 5 example_unmarshal 10 example_h y 0 example_call 7 ltac:(lia) Hr Hc)
    as (b & e & Hch & _ & He).
  exists b, e. split; [exact Hch|]. rewrite Hh in He. by apply (He Hin eq_refl eq_refl 3 Ho).
Defined.

Lemma deliver_and_fail_witness :
  exists y s', calls y !! 0%nat = Some example_call /\
    deliver 5 (mkSegment 7 3 4 []) (local y) = Ret s' /\
    heap s' !! 0%nat = Some (mkWatcher [mkSegment 7 3 4 []] false None).
Proof.
  destruct watch_example_reachable as (y & Hr & Hc & Hin & Hh & Ho).
  destruct (deliver_and_fail 5 example_unmarshal 10 example_h y (mkSegment 7 3 4 []) 7
    (Opaque "lost") ltac:(lia) Hr) as [(s' & Hd & _ & Hw) _].
  exists y, s'. split; [done|]. split; [done|]. specialize (Hw _ _ Hh).
  rewrite decide_True in Hw by done. rewrite decide_True in Hw by (vm_compute; reflexivity).
  apply Hw.
Defined.
