(* ===== verification/Server.v ===== *)
(** * Serving event streams to remote engines

    Models [internal/eventstream/source/server.go].  The protocol-buffers
    library, the generated messages and gRPC are not part of the repository: what
    the server and its client use of them is the interface [Wire], whose laws
    state documented behaviour.

    A segment is sent as several parts, none of them larger than the maximum
    size unless it holds a single event; the parts are contiguous and together
    hold exactly the events of the segment ([splitSegment_parts]). *)

From S2P Require Import Prelude Errors Stream Source.

(** ** What the server and the client use of protocol buffers and gRPC *)

Class Wire := {
  (** [envelopepb.MultiEnvelope]: envelopes that share a header. *)
  MultiEnvelope : Type;
  All : MultiEnvelope -> list Envelope;
  AsMultiEnvelope : Envelope -> MultiEnvelope;
  (** the multi-envelope with the envelope appended, if their headers are equal *)
  TryAppendEnvelope : MultiEnvelope -> Envelope -> option MultiEnvelope;
  multi_Validate : MultiEnvelope -> option error;
  uuid_Validate : UUID -> option error;
  (** [proto.Size] *)
  header_size : Header -> Z;
  body_size : Body -> Z;
  (** [status.Code] *)
  status_Code : error -> code;
  (** what the client's [Recv] returns after the handler has returned *)
  received : option error -> error;

  All_AsMultiEnvelope e : All (AsMultiEnvelope e) = [e];
  All_TryAppendEnvelope m e m' : TryAppendEnvelope m e = Some m' -> All m' = All m ++ [e];
  multi_Validate_TryAppendEnvelope m e m' :
    multi_Validate m = None -> multi_Validate (AsMultiEnvelope e) = None ->
    TryAppendEnvelope m e = Some m' -> multi_Validate m' = None;
  header_size_nonneg hd : 0 <= header_size hd;
  body_size_pos b p : body_position b = HasPosition p -> 0 < body_size b;
  status_Code_Status c msg : status_Code (Status c msg) = c;
  received_nil : received None = Sentinel EOF;
  received_Status c msg : received (Some (Status c msg)) = Status c msg;
  received_error e : received (Some e) <> Sentinel EOF;
}.

(** messaginggrpc.MessageFilter, whose kind may be unset. *)
Inductive MessageFilter : Type :=
| FilterUnset
| FilterAll
| FilterSpecific (ids : list UUID).

(** [filter.Validate] is not part of the repository; it accepts the filters that
    [messageFilter] builds. *)
Class Filters := {
  filter_Validate : MessageFilter -> option error;
  filter_Validate_All : filter_Validate FilterAll = None;
  filter_Validate_Specific ids :
    ids <> [] -> NoDup ids -> filter_Validate (FilterSpecific ids) = None;
}.

Section server.
Context `{Wire, Filters}.

(** messaginggrpc.EventStreamSegment. *)
Record EventStreamSegment := mkPart {
  part_stream : UUID;
  part_begin : Z;
  part_end : Z;
  part_envelopes : list MultiEnvelope;
}.

(** [requestedTypes]. *)
Definition requestedTypes (f : MessageFilter) : error + Types :=
  match filter_Validate f with
  | Some e => inl (Status InvalidArgument "invalid message filter")
  | None =>
      match f with
      | FilterAll => inr None
      | FilterSpecific ids => inr (Some (list_to_set ids))
      | FilterUnset => inr (Some ∅)
      end
  end.

(** ** Splitting a segment

    The sequence that [splitSegment] returns calls [yield] with each part, until
    it returns false. *)

(** The variables of the loop: the part that is being built, without the
    multi-envelope that is being appended to, that multi-envelope, and the part's
    size. *)
Record builder := mkBuilder {
  b_begin : Z;
  b_done : list MultiEnvelope;
  b_multi : option MultiEnvelope;
  b_size : Z;
}.

(** The envelopes of the part, [multi] being the last of them. *)
Definition b_envelopes (b : builder) : list MultiEnvelope :=
  b_done b ++ match b_multi b with Some m => [m] | None => [] end.

Definition finish_part (sid : UUID) (b : builder) (end_ : Z) : EventStreamSegment :=
  mkPart sid (b_begin b) end_ (b_envelopes b).

(** Adds an envelope to the part. *)
Definition add_envelope (b : builder) (env : Envelope) : builder :=
  let headerSize := header_size (env_header env) in
  let bodySize := body_size (env_body env) in
  match (m ← b_multi b; TryAppendEnvelope m env) with
  | Some m' => mkBuilder (b_begin b) (b_done b) (Some m') (b_size b + bodySize)
  | None =>
      mkBuilder (b_begin b) (b_envelopes b) (Some (AsMultiEnvelope env))
        (b_size b + headerSize + bodySize)
  end.

Fixpoint split_loop {S} (yield : S -> EventStreamSegment -> S * bool) (maxBytes : Z) (sid : UUID)
    (end_ : Z) (envs : list Envelope) (b : builder) (s : S) : go S :=
  match envs with
  | [] => Ret (yield s (finish_part sid b end_)).1
  | env :: envs' =>
      let headerSize := header_size (env_header env) in
      let bodySize := body_size (env_body env) in
      if decide (b_size b > 0 /\ b_size b + headerSize + bodySize > maxBytes) then
        offset ← offsetOf env;
        match yield s (finish_part sid b offset) with
        | (s', true) =>
            split_loop yield maxBytes sid end_ envs'
              (add_envelope (mkBuilder offset [] None 0) env) s'
        | (s', false) => Ret s'
        end
      else split_loop yield maxBytes sid end_ envs' (add_envelope b env) s
  end.

Definition splitSegment {S} (seg : Segment) (maxBytes : Z)
    (yield : S -> EventStreamSegment -> S * bool) (s : S) : go S :=
  split_loop yield maxBytes (seg_stream seg) (seg_end seg) (seg_envelopes seg)
    (mkBuilder (seg_begin seg) [] None 0) s.

(** [splitAndSendSegment], where [Send] is [res.Send]. *)
Definition splitAndSendSegment {S} (Send : S -> EventStreamSegment -> S * option error)
    (s : S) (seg : Segment) (maxBytes : Z) : go (S * option error) :=
  splitSegment seg maxBytes
    (fun '(s, _) part =>
       match Send s part with
       | (s', Some e) => ((s', Some (Wrap "unable to send segment" e)), false)
       | (s', None) => ((s', None), true)
       end)
    (s, None).

(** ** The handlers *)

(** The error that [ReadEvents] returns for an error of the source. *)
Definition readStatus (err : option error) : option error :=
  if IsOpt err ErrUnrecognizedStream then Some (Status NotFound "stream is not recognized")
  else if IsOpt err ErrOffsetOutOfRange then Some (Status OutOfRange "offset is out of range")
  else err.

(** The error that [WatchEvents] returns for an error of the source. *)
Definition watchStatus (err : option error) : option error :=
  if IsOpt err ErrConsumerTooSlow then Some (Status Aborted "consumer is too slow") else err.

(** The callback that both handlers give to the source. *)
Definition send_callback {S} (Send : S -> EventStreamSegment -> S * option error) (maxBytes : Z)
    : callback S :=
  fun s seg =>
    match splitAndSendSegment Send s seg maxBytes with
    | Ret r => r
    | Panic msg => (s, Some (PanicError msg))
    end.

(** [ReadEvents], where [source_Read] is the source's Read method. *)
Definition ReadEvents {S} (source_Read : UUID -> Types -> Z -> Reader) (MaxSegmentBytes : Z)
    (Send : S -> EventStreamSegment -> S * option error)
    (sid : UUID) (f : MessageFilter) (begin : Z) (s : S) : go (S * option error) :=
  if decide (MaxSegmentBytes <= 0) then Panic "maximum segment size must be positive"
  else
    match uuid_Validate sid with
    | Some _ => Ret (s, Some (Status InvalidArgument "invalid event stream ID"))
    | None =>
        match requestedTypes f with
        | inl e => Ret (s, Some e)
        | inr types =>
            let '(s', err) := source_Read sid types begin S (send_callback Send MaxSegmentBytes) s in
            Ret (s', readStatus err)
        end
    end.

(** [WatchEvents]; the mutex makes the calls to the callback a sequence. *)
Definition WatchEvents {S} (source_Watch : Types -> Reader) (MaxSegmentBytes : Z)
    (Send : S -> EventStreamSegment -> S * option error) (f : MessageFilter) (s : S)
    : go (S * option error) :=
  if decide (MaxSegmentBytes <= 0) then Panic "maximum segment size must be positive"
  else
    match requestedTypes f with
    | inl e => Ret (s, Some e)
    | inr types =>
        let '(s', err) := source_Watch types S (send_callback Send MaxSegmentBytes) s in
        Ret (s', watchStatus err)
    end.

(** ** What a split yields *)

(** The segment that a part holds. *)
Definition part_segment (part : EventStreamSegment) : Segment :=
  mkSegment (part_stream part) (part_begin part) (part_end part)
    (concat (All <$> part_envelopes part)).

Definition bodies_size (envs : list Envelope) : Z :=
  foldr (fun e n => body_size (env_body e) + n) 0 envs.

(** The header counts once for each multi-envelope. *)
Definition multi_size (m : MultiEnvelope) : Z :=
  match All m with
  | [] => 0
  | e :: _ => header_size (env_header e) + bodies_size (All m)
  end.

Definition parts_size (ms : list MultiEnvelope) : Z :=
  foldr (fun m n => multi_size m + n) 0 ms.

(** A part is within the limit, or holds a single event. *)
Definition limited (maxBytes : Z) (ms : list MultiEnvelope) : Prop :=
  parts_size ms <= maxBytes \/ exists e, concat (All <$> ms) = [e].

(** Calls [yield] with each part until it returns false. *)
Fixpoint yields {S} (yield : S -> EventStreamSegment -> S * bool) (s : S)
    (parts : list EventStreamSegment) : S :=
  match parts with
  | [] => s
  | p :: ps => match yield s p with (s', true) => yields yield s' ps | (s', false) => s' end
  end.

(** An envelope that is valid on its own, and multi-envelopes that are valid
    whenever the envelopes they hold are. *)
Definition sendable (e : Envelope) : Prop := multi_Validate (AsMultiEnvelope e) = None.

Definition valid_multis (ms : list MultiEnvelope) : Prop :=
  Forall sendable (concat (All <$> ms)) -> Forall (fun m => multi_Validate m = None) ms.

Definition b_events (b : builder) : list Envelope := concat (All <$> b_envelopes b).

Definition builder_ok (maxBytes : Z) (b : builder) : Prop :=
  b_size b = parts_size (b_envelopes b) /\ limited maxBytes (b_envelopes b) /\
  0 <= b_size b /\ (b_size b = 0 -> b_events b = []) /\
  (forall m, b_multi b = Some m -> All m <> []) /\ valid_multis (b_envelopes b).

Lemma bodies_size_app l1 l2 : bodies_size (l1 ++ l2) = bodies_size l1 + bodies_size l2.
Proof. unfold bodies_size. induction l1 as [|x l1 IH]; cbn in *; lia. Qed.

Lemma parts_size_app l1 l2 : parts_size (l1 ++ l2) = parts_size l1 + parts_size l2.
Proof. unfold parts_size. induction l1 as [|x l1 IH]; cbn in *; lia. Qed.

Lemma multi_size_one e :
  multi_size (AsMultiEnvelope e) = header_size (env_header e) + body_size (env_body e).
Proof. unfold multi_size. rewrite All_AsMultiEnvelope. cbn. lia. Qed.

Lemma multi_size_append m e m' :
  All m <> [] -> TryAppendEnvelope m e = Some m' ->
  multi_size m' = multi_size m + body_size (env_body e).
Proof.
  intros Hne Ht. unfold multi_size. rewrite (All_TryAppendEnvelope _ _ _ Ht).
  destruct (All m) as [|e0 l]; [done|]. rewrite bodies_size_app. cbn. lia.
Qed.

Lemma add_envelope_begin b env : b_begin (add_envelope b env) = b_begin b.
Proof. unfold add_envelope. by destruct (m ← b_multi b; TryAppendEnvelope m env). Qed.

Lemma add_envelope_events b env : b_events (add_envelope b env) = b_events b ++ [env].
Proof.
  unfold add_envelope, b_events, b_envelopes. destruct (b_multi b) as [m|] eqn:Hm; cbn.
  - destruct (TryAppendEnvelope m env) as [m'|] eqn:Ht; cbn; rewrite !fmap_app, !concat_app; cbn.
    + rewrite (All_TryAppendEnvelope _ _ _ Ht). by rewrite !app_nil_r, app_assoc.
    + by rewrite All_AsMultiEnvelope, ?fmap_app, ?concat_app, !app_nil_r.
  - rewrite !fmap_app, !concat_app. cbn. by rewrite All_AsMultiEnvelope, !app_nil_r.
Qed.

Lemma add_envelope_size b env :
  (forall m, b_multi b = Some m -> All m <> []) ->
  b_size b = parts_size (b_envelopes b) ->
  let b' := add_envelope b env in
  b_size b' = parts_size (b_envelopes b') /\
  b_size b + body_size (env_body env) <= b_size b'
    <= b_size b + header_size (env_header env) + body_size (env_body env) /\
  (forall m, b_multi b' = Some m -> All m <> []).
Proof.
  intros Hne Hsz. pose proof (header_size_nonneg (env_header env)).
  unfold add_envelope, b_envelopes in *. destruct (b_multi b) as [m|] eqn:Hm; cbn.
  - destruct (TryAppendEnvelope m env) as [m'|] eqn:Ht; cbn.
    + rewrite Hsz, !parts_size_app. cbn.
      rewrite (multi_size_append m env m') by auto. split_and!; [lia|lia|lia|].
      intros ? [= <-]. rewrite (All_TryAppendEnvelope _ _ _ Ht). by destruct (All m).
    + rewrite Hsz, !parts_size_app. cbn. rewrite multi_size_one.
      split_and!; [lia|lia|lia|]. intros ? [= <-]. by rewrite All_AsMultiEnvelope.
  - rewrite Hsz, !parts_size_app. cbn. rewrite multi_size_one.
    split_and!; [lia|lia|lia|]. intros ? [= <-]. by rewrite All_AsMultiEnvelope.
Qed.

Lemma add_envelope_valid b env :
  valid_multis (b_envelopes b) -> valid_multis (b_envelopes (add_envelope b env)).
Proof.
  unfold valid_multis. fold (b_events b) (b_events (add_envelope b env)).
  rewrite add_envelope_events. intros Hv [Hb He]%Forall_app.
  rewrite Forall_singleton in He. specialize (Hv Hb). clear Hb.
  unfold add_envelope, b_envelopes in *. destruct (b_multi b) as [m|]; cbn.
  - destruct (TryAppendEnvelope m env) as [m'|] eqn:Ht; cbn.
    + apply Forall_app in Hv as [Hd Hm]. rewrite Forall_singleton in Hm.
      apply Forall_app. split; [done|]. apply Forall_singleton.
      exact (multi_Validate_TryAppendEnvelope m env m' Hm He Ht).
    + apply Forall_app. by rewrite Forall_singleton.
  - apply Forall_app. by rewrite Forall_singleton.
Qed.

Lemma add_envelope_ok maxBytes sid b env :
  builder_ok maxBytes b -> positioned sid env ->
  ~ (b_size b > 0 /\ b_size b + header_size (env_header env) + body_size (env_body env) > maxBytes) ->
  builder_ok maxBytes (add_envelope b env).
Proof.
  intros (Hsz & Hlim & Hnn & Hemp & Hne & Hval) Hp Hfit.
  destruct (add_envelope_size b env Hne Hsz) as (Hsz' & Hbnd & Hne').
  pose proof (body_size_pos _ _ Hp) as Hpos.
  split_and!; try done; try lia; try by apply add_envelope_valid.
  unfold limited. rewrite <- Hsz'. destruct (decide (b_size b > 0)) as [Hgt|Hle]; [left; lia|].
  right. exists env. fold (b_events (add_envelope b env)).
  rewrite add_envelope_events, Hemp by lia. done.
Qed.

Lemma new_builder_ok maxBytes o : 0 <= maxBytes -> builder_ok maxBytes (mkBuilder o [] None 0).
Proof. intros. split_and!; try done; [by left|constructor]. Qed.

Definition parts_ok (maxBytes : Z) (sid : UUID) (hist : list Envelope) (begin end_ : Z)
    (ps : list EventStreamSegment) : Prop :=
  chain sid hist None begin (part_segment <$> ps) end_ /\
  Forall (fun p => limited maxBytes (part_envelopes p) /\ valid_multis (part_envelopes p)) ps.

Lemma parts_ok_cons maxBytes sid pre b post lo mid end_ ps :
  builder_ok maxBytes b -> in_range sid lo (b_begin b) pre ->
  in_range sid (b_begin b) mid (b_events b) -> in_range sid mid end_ post ->
  parts_ok maxBytes sid (pre ++ b_events b ++ post) mid end_ ps ->
  parts_ok maxBytes sid (pre ++ b_events b ++ post) (b_begin b) end_ (finish_part sid b mid :: ps).
Proof.
  intros (_ & Hlim & _ & _ & _ & Hval) H1 H2 H3 [Hc Hl]. split; [|by constructor].
  cbn. apply (chain_cons _ _ _ _ (part_segment (finish_part sid b mid))); try done.
  apply in_range_le in H2 as Hle. split; [done|]. symmetry. by eapply between_exact.
Qed.

Lemma split_loop_parts maxBytes sid end_ envs : 0 <= maxBytes -> forall b pre lo mid,
  builder_ok maxBytes b -> in_range sid lo (b_begin b) pre ->
  in_range sid (b_begin b) mid (b_events b) -> in_range sid mid end_ envs ->
  exists ps, parts_ok maxBytes sid (pre ++ b_events b ++ envs) (b_begin b) end_ ps /\
    forall S (yield : S -> EventStreamSegment -> S * bool) s,
      split_loop yield maxBytes sid end_ envs b s = Ret (yields yield s ps).
Proof.
  intros Hmax. induction envs as [|env envs IH]; intros b pre lo mid Hb H1 H2 H3.
  - exists [finish_part sid b end_]. split.
    + eapply parts_ok_cons; [done|done| |by cbn|].
      * eapply in_range_weaken; [done|lia|]. by cbn in H3.
      * split; [constructor|constructor].
    + intros S yield s. cbn. by destruct (yield s _) as [s' []].
  - cbn in H3. destruct H3 as (Hp & Hge & H3). pose proof (in_range_le _ _ _ _ H3) as Hle. cbn.
    destruct (decide (b_size b > 0 /\ _)) as [Hsplit|Hfit].
    + set (b' := add_envelope (mkBuilder (off env) [] None 0) env).
      assert (Hev : b_events b' = [env]) by (unfold b'; by rewrite add_envelope_events).
      assert (Hbg : b_begin b' = off env) by (unfold b'; by rewrite add_envelope_begin).
      destruct (IH b' (pre ++ b_events b) lo (off env + 1)) as (ps & Hps & Hy).
      * apply (add_envelope_ok _ sid); [by apply new_builder_ok|done|]. cbn. lia.
      * rewrite Hbg. eapply in_range_app; [done|]. eapply in_range_weaken; [done|lia|lia].
      * rewrite Hbg, Hev. cbn. split_and!; [done|lia|lia].
      * done.
      * rewrite Hev, Hbg, <- app_assoc in Hps. exists (finish_part sid b (off env) :: ps). split.
        -- eapply parts_ok_cons; [done|done| | |done].
           ++ eapply in_range_weaken; [done|lia|lia].
           ++ cbn. split_and!; [done|lia|done].
        -- intros S yield s. rewrite (offsetOf_positioned _ _ Hp). cbn.
           destruct (yield s _) as [s' []]; [apply Hy|done].
    + destruct (IH (add_envelope b env) pre lo (off env + 1)) as (ps & Hps & Hy).
      * by eapply add_envelope_ok.
      * by rewrite add_envelope_begin.
      * rewrite add_envelope_begin, add_envelope_events.
        eapply in_range_app; [done|]. cbn. split_and!; [done|lia|lia].
      * done.
      * exists ps. rewrite add_envelope_begin, add_envelope_events, <- app_assoc in Hps.
        split; [exact Hps|apply Hy].
Qed.

(** Sends the parts, stopping at the first error. *)
Fixpoint send_all {S} (Send : S -> EventStreamSegment -> S * option error) (s : S)
    (ps : list EventStreamSegment) : S * option error :=
  match ps with
  | [] => (s, None)
  | p :: ps' =>
      match Send s p with
      | (s', Some e) => (s', Some (Wrap "unable to send segment" e))
      | (s', None) => send_all Send s' ps'
      end
  end.

Lemma splitSegment_parts_of seg maxBytes :
  0 <= maxBytes -> in_range (seg_stream seg) (seg_begin seg) (seg_end seg) (seg_envelopes seg) ->
  exists ps,
    parts_ok maxBytes (seg_stream seg) (seg_envelopes seg) (seg_begin seg) (seg_end seg) ps /\
    (forall S (yield : S -> EventStreamSegment -> S * bool) s,
      splitSegment seg maxBytes yield s = Ret (yields yield s ps)) /\
    (forall S (Send : S -> EventStreamSegment -> S * option error) s,
      splitAndSendSegment Send s seg maxBytes = Ret (send_all Send s ps)).
Proof.
  intros Hmax Hin.
  destruct (split_loop_parts maxBytes (seg_stream seg) (seg_end seg) (seg_envelopes seg) Hmax
    (mkBuilder (seg_begin seg) [] None 0) [] (seg_begin seg) (seg_begin seg))
    as (ps & Hps & Hy); [by apply new_builder_ok|cbn; lia|cbn; lia|done|].
  exists ps. split_and!; [done|apply Hy|].
  intros S Send s. unfold splitAndSendSegment, splitSegment. rewrite Hy. f_equal.
  clear. revert s. induction ps as [|p ps IH]; intros s; cbn; [done|].
  destruct (Send s p) as [s' [e|]]; [done|apply IH].
Qed.
End server.

(** ** Examples *)

(** Multi-envelopes as lists of envelopes with equal headers; a header takes two
    bytes and a body three. *)
#[export, refine] Instance example_wire : Wire := {
  MultiEnvelope := list Envelope;
  All := id;
  AsMultiEnvelope e := [e];
  TryAppendEnvelope m e :=
    match m with
    | e0 :: _ => if decide (env_header e0 = env_header e) then Some (m ++ [e]) else None
    | [] => None
    end;
  multi_Validate _ := None;
  uuid_Validate id := if decide (id = 0%N) then Some (Opaque "empty UUID") else None;
  header_size _ := 2;
  body_size _ := 3;
  status_Code e := match e with Status c _ => c | _ => OtherCode end;
  received r :=
    match r with
    | None => Sentinel EOF
    | Some (Status c msg) => Status c msg
    | Some _ => Status OtherCode "other"
    end;
}.
Proof.
  - done.
  - intros [|e0 m] e m'; [done|]. case_decide; [|done]. by intros [= <-].
  - done.
  - lia.
  - lia.
  - done.
  - done.
  - done.
  - by intros [].
Defined.

#[export, refine] Instance example_filters : Filters := {
  filter_Validate f := match f with FilterUnset => Some (Opaque "unset") | _ => None end;
}.
Proof. all: done. Defined.

(** ** Properties *)

(** C40: a segment whose events lie within its range is split without a panic into
    parts that are contiguous, that together cover the segment, and that each hold
    exactly the segment's events in their own range; every part is within the
    maximum size, headers included, unless it holds a single event.  The parts are
    sent in order until one can not be. *)
Theorem splitSegment_parts `{Wire} seg maxBytes :
  0 < maxBytes -> in_range (seg_stream seg) (seg_begin seg) (seg_end seg) (seg_envelopes seg) ->
  exists ps,
    chain (seg_stream seg) (seg_envelopes seg) None (seg_begin seg) (part_segment <$> ps)
      (seg_end seg) /\
    concat (seg_envelopes <$> (part_segment <$> ps)) = seg_envelopes seg /\
    Forall (fun p => limited maxBytes (part_envelopes p)) ps /\
    (forall S (Send : S -> EventStreamSegment -> S * option error) s,
      splitAndSendSegment Send s seg maxBytes = Ret (send_all Send s ps)).
Proof.
  intros Hmax Hin. destruct (splitSegment_parts_of seg maxBytes ltac:(lia) Hin)
    as (ps & [Hc Hl] & _ & Hs).
  exists ps. split_and!; [done| | |done].
  - rewrite (chain_events _ _ _ _ _ _ _ _ Hin Hc). apply filter_all. intros e He.
    apply (in_range_elem _ _ _ _ _ Hin) in He as [_ ?]. split; [lia|done].
  - eapply Forall_impl; [exact Hl|]. by intros p [? _].
Qed.

Lemma splitSegment_parts_witness :
  exists ps, length ps = 2%nat /\
    chain 7 [event 7 1 5; event 7 2 5; event 7 4 5] None 0 (part_segment <$> ps) 9 /\
    splitAndSendSegment (fun l p => (l ++ [p], None)) []
      (mkSegment 7 0 9 [event 7 1 5; event 7 2 5; event 7 4 5]) 10 = Ret (ps, None).
Proof.
  pose (seg := mkSegment 7 0 9 [event 7 1 5; event 7 2 5; event 7 4 5]).
  assert (Hin : in_range 7 0 9 (seg_envelopes seg)) by (cbn; split_and!; done || lia).
  destruct (splitSegment_parts seg 10 ltac:(lia) Hin) as (ps & Hc & _ & _ & Hs).
  specialize (Hs _ (fun l p => (l ++ [p], None)) []). exists ps.
  assert (Hall : forall l, send_all (fun l p => (l ++ [p], @None error)) l ps = (l ++ ps, None)).
  { clear. induction ps as [|p ps IH]; intros l; cbn; [by rewrite app_nil_r|].
    rewrite IH. by rewrite <- app_assoc. }
  rewrite Hall in Hs. split_and!; [|exact Hc|exact Hs].
  vm_compute in Hs. injection Hs as <-. reflexivity.
Defined.
