(* ===== verification/Remote.v ===== *)
(** * Consuming the event streams of a remote engine

    Models [internal/eventstream/source/remote.go].  A call to the remote engine
    either fails at once, or is a sequence of responses that ends with an error,
    [io.EOF] when the remote handler returned nil.  Nothing is assumed of the
    responses: [parseSegment] and the checks of [Read] and [Watch] establish that
    what they deliver is well-formed and contiguous. *)

From S2P Require Import Prelude Errors Stream Source Server.

Section remote.
Context `{Wire, Filters}.

(** A call to the remote engine. *)
Definition Call : Type := error + (list EventStreamSegment * error).

(** [messageFilter]. *)
Definition messageFilter (types : Types) : MessageFilter :=
  match types with
  | None => FilterAll
  | Some ts => FilterSpecific (elements ts)
  end.

(** [invalidSegment]. *)
Definition invalidSegment (reason : error) : error :=
  Wrap2 "invalid segment" (Sentinel ErrInvalidSegment) reason.

(** [watchError]; [ctx_err] is [ctx.Err()]. *)
Definition watchError (ctx_err : option error) (err : error) : error :=
  match ctx_err with
  | Some e => e
  | None =>
      if decide (err = Sentinel EOF) then Opaque "remote engine stopped watching events"
      else
        match status_Code err with
        | Aborted => Wrap2 "unable to watch events" err (Sentinel ErrConsumerTooSlow)
        | Unimplemented => Wrap2 "unable to watch events" err (Sentinel ErrUnsupported)
        | _ => Wrap "unable to watch events" err
        end
  end.

(** [readError]. *)
Definition readError (ctx_err : option error) (err : error) : error :=
  match ctx_err with
  | Some e => e
  | None =>
      match status_Code err with
      | NotFound => Wrap2 "unable to read event stream" err (Sentinel ErrUnrecognizedStream)
      | OutOfRange => Wrap2 "unable to read event stream" err (Sentinel ErrOffsetOutOfRange)
      | _ => Wrap "unable to read event stream" err
      end
  end.

(** ** Parsing a segment *)

(** The inner loop of [parseSegment]: [next] is the lowest offset that the next
    event may have. *)
Fixpoint parse_events (types : Types) (envs : list Envelope) (next : Z) (seg : Segment)
    : error + Z * Segment :=
  match envs with
  | [] => inr (next, seg)
  | env :: envs' =>
      match body_position (env_body env) with
      | BadPosition e =>
          inl (invalidSegment (Wrap "event has an invalid event stream position" e))
      | NoPosition => inl (invalidSegment (Opaque "event has no event stream position"))
      | HasPosition pos =>
          let offset := pos_offset pos in
          if decide (pos_stream pos <> seg_stream seg) then
            inl (invalidSegment (Opaque "event is from another event stream"))
          else if decide (offset < seg_begin seg) then
            inl (invalidSegment (Opaque "event is before the segment begins"))
          else if decide (offset >= seg_end seg) then
            inl (invalidSegment (Opaque "event is at or beyond the end of the segment"))
          else if decide (offset < next) then
            inl (invalidSegment (Opaque "event does not follow the previous event"))
          else if decide (~ matches types env) then
            inl (invalidSegment (Opaque "event is of a type that was not requested"))
          else
            parse_events types envs' (u64 (offset + 1))
              (mkSegment (seg_stream seg) (seg_begin seg) (seg_end seg)
                 (seg_envelopes seg ++ [env]))
      end
  end.

(** The outer loop of [parseSegment]. *)
Fixpoint parse_multis (types : Types) (multis : list MultiEnvelope) (next : Z) (seg : Segment)
    : error + Segment :=
  match multis with
  | [] => inr seg
  | multi :: multis' =>
      match multi_Validate multi with
      | Some e => inl (invalidSegment (Wrap "invalid envelope" e))
      | None =>
          match parse_events types (All multi) next seg with
          | inl e => inl e
          | inr (next', seg') => parse_multis types multis' next' seg'
          end
      end
  end.

(** [parseSegment]. *)
Definition parseSegment (res : EventStreamSegment) (types : Types) : error + Segment :=
  let seg := mkSegment (part_stream res) (part_begin res) (part_end res) [] in
  match uuid_Validate (seg_stream seg) with
  | Some e => inl (invalidSegment (Wrap "invalid event stream ID" e))
  | None =>
      if decide (seg_end seg < seg_begin seg) then
        inl (invalidSegment (Opaque "it ends before it begins"))
      else parse_multis types (part_envelopes res) (seg_begin seg) seg
  end.

(** ** The source *)

(** The loop of [Read] over the responses. *)
Fixpoint Read_loop {S} (ctx_err : option error) (sid : UUID) (types : Types) (begin : Z)
    (first : bool) (rs : list EventStreamSegment) (last : error) (fn : callback S) (s : S)
    : S * option error :=
  match rs with
  | [] =>
      if decide (last = Sentinel EOF) then (s, None) else (s, Some (readError ctx_err last))
  | res :: rs' =>
      match parseSegment res types with
      | inl e => (s, Some e)
      | inr seg =>
          if decide (seg_stream seg <> sid) then
            (s, Some (invalidSegment (Opaque "it is not a segment of the event stream requested")))
          else if decide (seg_begin seg <> begin) then
            (s, Some (invalidSegment (Opaque (if first
               then "it does not begin at the offset which was requested"
               else "it does not begin at the offset where the previous segment ended"))))
          else
            match fn s seg with
            | (s', Some e) => (s', Some e)
            | (s', None) => Read_loop ctx_err sid types (seg_end seg) false rs' last fn s'
            end
      end
  end.

(** [Remote.Read]; [client] is the client's ReadEvents method. *)
Definition Read {S} (client : UUID -> MessageFilter -> Z -> Call) (ctx_err : option error)
    (sid : UUID) (types : Types) (begin : Z) (fn : callback S) (s : S) : go (S * option error) :=
  _ ← panicIfEmpty types;
  match client sid (messageFilter types) begin with
  | inl e => Ret (s, Some (readError ctx_err e))
  | inr (rs, last) => Ret (Read_loop ctx_err sid types begin true rs last fn s)
  end.

(** The loop of [Watch] over the responses. *)
Fixpoint Watch_loop {S} (ctx_err : option error) (types : Types) (ends : gmap UUID Z)
    (rs : list EventStreamSegment) (last : error) (fn : callback S) (s : S) : S * option error :=
  match rs with
  | [] => (s, Some (watchError ctx_err last))
  | res :: rs' =>
      match parseSegment res types with
      | inl e => (s, Some e)
      | inr seg =>
          match ends !! seg_stream seg with
          | Some end_ =>
              if decide (seg_begin seg <> end_) then
                (s, Some (invalidSegment (Opaque "it does not begin where the previous segment ended")))
              else
                match fn s seg with
                | (s', Some e) => (s', Some e)
                | (s', None) =>
                    Watch_loop ctx_err types (<[seg_stream seg := seg_end seg]> ends) rs' last fn s'
                end
          | None =>
              match fn s seg with
              | (s', Some e) => (s', Some e)
              | (s', None) =>
                  Watch_loop ctx_err types (<[seg_stream seg := seg_end seg]> ends) rs' last fn s'
              end
          end
      end
  end.

(** [Remote.Watch]; [client] is the client's WatchEvents method. *)
Definition Watch {S} (client : MessageFilter -> Call) (ctx_err : option error)
    (types : Types) (fn : callback S) (s : S) : go (S * option error) :=
  _ ← panicIfEmpty types;
  match client (messageFilter types) with
  | inl e => Ret (s, Some (watchError ctx_err e))
  | inr (rs, last) => Ret (Watch_loop ctx_err types ∅ rs last fn s)
  end.

(** ** What parsing accepts *)

Definition well_formed (types : Types) (seg : Segment) : Prop :=
  in_range (seg_stream seg) (seg_begin seg) (seg_end seg) (seg_envelopes seg) /\
  Forall (matches types) (seg_envelopes seg).

Definition acceptable (res : EventStreamSegment) (types : Types) : Prop :=
  uuid_Validate (part_stream res) = None /\
  Forall (fun m => multi_Validate m = None) (part_envelopes res) /\
  well_formed types (part_segment res).

(** A response as it can be on the wire: its offsets are unsigned. *)
Definition unsigned (res : EventStreamSegment) : Prop :=
  is_u64 (part_begin res) /\ is_u64 (part_end res).

(** The outcome of parsing [envs] when the next event may have offset [next]. *)
Lemma parse_events_spec types envs : forall next seg,
  0 <= next -> is_u64 (seg_begin seg) -> is_u64 (seg_end seg) -> seg_begin seg <= next <= seg_end seg ->
  match parse_events types envs next seg with
  | inl e => Is e ErrInvalidSegment = true /\
      ~ (in_range (seg_stream seg) next (seg_end seg) envs /\ Forall (matches types) envs)
  | inr (next', seg') =>
      seg' = mkSegment (seg_stream seg) (seg_begin seg) (seg_end seg) (seg_envelopes seg ++ envs) /\
      seg_begin seg <= next' <= seg_end seg /\ Forall (matches types) envs /\
      in_range (seg_stream seg) next next' envs /\
      (forall envs', in_range (seg_stream seg) next (seg_end seg) (envs ++ envs') ->
         in_range (seg_stream seg) next' (seg_end seg) envs')
  end.
Proof.
  induction envs as [|env envs IH]; intros next seg Hn Hb He Hr; cbn -[matches_dec].
  { rewrite app_nil_r. destruct seg. split_and!; try done; cbn in *; lia. }
  destruct (body_position (env_body env)) as [|err|pos] eqn:Hpos.
  1,2: split; [done|]; intros [(Hp & _) _]; unfold positioned in Hp; congruence.
  assert (Hoff : off env = pos_offset pos) by (unfold off; by rewrite Hpos).
  case_decide as Hst.
  { split; [done|]. intros [(Hp & _) _]. unfold positioned in Hp. rewrite Hpos in Hp.
    by injection Hp as ->. }
  assert (Hp : positioned (seg_stream seg) env).
  { unfold positioned. rewrite Hpos, Hoff, <- Hst. by destruct pos. }
  case_decide; [split; [done|]; intros [(_ & ? & _) _]; lia|].
  case_decide; [split; [done|]; intros [(_ & _ & Hi%in_range_le) _]; lia|].
  case_decide; [split; [done|]; intros [(_ & ? & _) _]; lia|].
  case_decide as Hm; [split; [done|]; intros [_ Hf]; by inversion Hf|].
  unfold is_u64 in *.
  rewrite u64_id by (unfold is_u64; lia). rewrite <- Hoff in *.
  specialize (IH (off env + 1) (mkSegment (seg_stream seg) (seg_begin seg) (seg_end seg)
    (seg_envelopes seg ++ [env]))). cbn in IH.
  specialize (IH ltac:(lia) ltac:(done) ltac:(done) ltac:(lia)).
  destruct (parse_events types envs (off env + 1) _) as [e|[next' seg']].
  - destruct IH as [He' Hno]. split; [done|]. intros [(_ & _ & Hi) Hf]. apply Hno.
    split; [done|]. by inversion Hf.
  - destruct IH as (-> & Hr' & Hf & Hi & Hrest).
    rewrite <- app_assoc. split_and!; try done; try lia; [by constructor|].
    intros envs' (_ & _ & Hi'). auto.
Qed.

Lemma parse_multis_spec types multis : forall next seg,
  0 <= next -> is_u64 (seg_begin seg) -> is_u64 (seg_end seg) -> seg_begin seg <= next <= seg_end seg ->
  let envs := concat (All <$> multis) in
  let ok := Forall (fun m => multi_Validate m = None) multis /\
            in_range (seg_stream seg) next (seg_end seg) envs /\ Forall (matches types) envs in
  match parse_multis types multis next seg with
  | inl e => Is e ErrInvalidSegment = true /\ ~ ok
  | inr seg' => seg' = mkSegment (seg_stream seg) (seg_begin seg) (seg_end seg)
                         (seg_envelopes seg ++ envs) /\ ok
  end.
Proof.
  induction multis as [|multi multis IH]; intros next seg Hn Hb He Hr; cbn.
  { rewrite app_nil_r. destruct seg. split_and!; try done. cbn in *; lia. }
  destruct (multi_Validate multi) eqn:Hv.
  { split; [done|]. intros (Hf & _). inversion Hf; congruence. }
  pose proof (parse_events_spec types (All multi) next seg Hn Hb He Hr) as Hp.
  destruct (parse_events types (All multi) next seg) as [e|[next' seg']].
  - destruct Hp as [He' Hno]. split; [done|]. intros (_ & Hi & Hf). apply Hno.
    split; [by eapply in_range_app_l|]. by apply Forall_app in Hf as [? _].
  - destruct Hp as (-> & Hr' & Hf & Hi & Hrest).
    specialize (IH next' (mkSegment (seg_stream seg) (seg_begin seg) (seg_end seg)
      (seg_envelopes seg ++ All multi))). cbn in IH. unfold is_u64 in *.
    specialize (IH ltac:(lia) Hb He ltac:(lia)).
    destruct (parse_multis types multis next' _) as [e|seg''].
    + destruct IH as [He' Hno]. split; [done|]. intros (Hf1 & Hi1 & Hf2). apply Hno.
      inversion Hf1. apply Forall_app in Hf2 as [_ ?]. split_and!; auto.
    + destruct IH as (-> & Hf1 & Hi1 & Hf2). rewrite <- app_assoc.
      split_and!; [done|by constructor|by eapply in_range_app|by apply Forall_app].
Qed.

Lemma parseSegment_spec res types : unsigned res ->
  match parseSegment res types with
  | inl e => Is e ErrInvalidSegment = true /\ ~ acceptable res types
  | inr seg => seg = part_segment res /\ acceptable res types
  end.
Proof.
  intros [Hb He]. unfold parseSegment. cbn.
  destruct (uuid_Validate (part_stream res)) eqn:Hu.
  { split; [done|]. intros (Hu' & _). congruence. }
  case_decide.
  { split; [done|]. intros (_ & _ & Hi%in_range_le & _). cbn in Hi. lia. }
  unfold is_u64 in *.
  pose proof (parse_multis_spec types (part_envelopes res) (part_begin res)
    (mkSegment (part_stream res) (part_begin res) (part_end res) []) ltac:(lia) Hb He
    ltac:(cbn; lia)) as Hp. cbn in Hp.
  destruct (parse_multis _ _ _ _) as [e|seg'].
  - destruct Hp as [? Hno]. split; [done|]. intros (_ & Hf & Hi & Hm). by apply Hno.
  - destruct Hp as (-> & Hf & Hi & Hm). done.
Qed.

(** Well-formed contiguous segments deliver the history they hold. *)
Lemma chain_well_formed sid types pre seg post lo hi :
  in_range sid lo (seg_begin seg) pre -> seg_stream seg = sid -> well_formed types seg ->
  in_range sid (seg_end seg) hi post ->
  faithful (pre ++ seg_envelopes seg ++ post) types seg.
Proof.
  intros H1 <- [H2 Hm] H3. split; [by eapply in_range_le|].
  rewrite <- (between_exact _ _ _ _ _ _ _ _ H1 H2 H3) at 1. unfold between.
  apply filter_ext_elem. intros x Hx.
  rewrite !elem_of_app in Hx. split; [|unfold matches; cbn; tauto]. intros [Hr _].
  split; [done|]. destruct Hx as [Hx|[Hx|Hx]].
  - apply (in_range_elem _ _ _ _ _ H1) in Hx. lia.
  - rewrite Forall_forall in Hm. auto.
  - apply (in_range_elem _ _ _ _ _ H3) in Hx. lia.
Qed.

(** The segments are a contiguous delivery of some history of the stream. *)
Definition contiguous (sid : UUID) (types : Types) (b : Z) (segs : list Segment) (e : Z) : Prop :=
  exists post, in_range sid b e post /\
    forall pre lo, in_range sid lo b pre -> chain sid (pre ++ post) types b segs e.

Lemma contiguous_nil sid types b : contiguous sid types b [] b.
Proof. exists []. split; [cbn; lia|constructor]. Qed.

Lemma contiguous_cons sid types seg segs e :
  seg_stream seg = sid -> well_formed types seg -> contiguous sid types (seg_end seg) segs e ->
  contiguous sid types (seg_begin seg) (seg :: segs) e.
Proof.
  intros <- Hwf (post & Hi & Hc). pose proof Hwf as [Hin _].
  exists (seg_envelopes seg ++ post). split; [by eapply in_range_app|].
  intros pre lo Hpre. constructor; [done|done|by eapply chain_well_formed|].
  rewrite app_assoc. eapply Hc. by eapply in_range_app.
Qed.

(** Whatever the remote engine sends, what [Read] delivers is contiguous. *)
Lemma Read_loop_contiguous ctx_err sid types last {S} (fn : callback S) rs :
  Forall unsigned rs ->
  forall begin first s, exists segs e err, contiguous sid types begin segs e /\
    Read_loop ctx_err sid types begin first rs last fn s = finish (deliver fn s segs) err.
Proof.
  induction 1 as [|res rs Hu Hus IH]; intros begin first s; cbn.
  { exists [], begin. case_decide; eexists; (split; [apply contiguous_nil|done]). }
  assert (Hstop : forall err, exists segs e err', contiguous sid types begin segs e /\
    (s, Some err) = finish (deliver fn s segs) err').
  { intros err. exists [], begin, (Some err). split; [apply contiguous_nil|done]. }
  pose proof (parseSegment_spec res types Hu) as Hp.
  destruct (parseSegment res types) as [e|seg]; [apply Hstop|].
  destruct Hp as [-> (_ & _ & Hwf)]. set (seg := part_segment res) in *.
  case_decide as Hsid; [apply Hstop|]. case_decide as Hbg; [apply Hstop|]. rewrite <- Hbg.
  destruct (fn s seg) as [s' [err|]] eqn:Hfn.
  - exists [seg], (seg_end seg), None. split.
    + apply contiguous_cons; [done|done|apply contiguous_nil].
    + by rewrite (deliver_cons_err _ _ _ _ _ _ _ Hfn).
  - destruct (IH (seg_end seg) false s') as (segs & e & err & Hc & ->).
    exists (seg :: segs), e, err. split; [by apply contiguous_cons|].
    by rewrite (deliver_cons_ok _ _ _ _ _ _ Hfn).
Qed.

(** The segments of every stream that [Watch] delivers are contiguous. *)
Definition watched (types : Types) (ends : gmap UUID Z) (segs : list Segment) : Prop :=
  forall sid, exists b e, contiguous sid types b (of_stream sid segs) e /\
    forall o, ends !! sid = Some o -> b = o.

Lemma watched_nil types ends : watched types ends [].
Proof.
  intros sid. destruct (ends !! sid) as [o|].
  - exists o, o. split; [apply contiguous_nil|by intros ? [= ->]].
  - exists 0, 0. split; [apply contiguous_nil|done].
Qed.

Lemma watched_cons types ends seg segs :
  well_formed types seg -> (forall o, ends !! seg_stream seg = Some o -> seg_begin seg = o) ->
  watched types (<[seg_stream seg := seg_end seg]> ends) segs ->
  watched types ends (seg :: segs).
Proof.
  intros Hwf Hends Hw sid. destruct (Hw sid) as (b & e & Hc & Hb).
  unfold of_stream. rewrite filter_cons. case_decide as Hs.
  - subst sid. rewrite lookup_insert_eq in Hb. rewrite (Hb _ eq_refl) in Hc.
    exists (seg_begin seg), e. split; [by apply contiguous_cons|done].
  - rewrite lookup_insert_ne in Hb by done. by exists b, e.
Qed.

Lemma Watch_loop_contiguous ctx_err types last {S} (fn : callback S) rs :
  Forall unsigned rs -> forall ends s, exists segs err, watched types ends segs /\
    Watch_loop ctx_err types ends rs last fn s = finish (deliver fn s segs) (Some err).
Proof.
  induction 1 as [|res rs Hu Hus IH]; intros ends s; cbn.
  { eexists [], _. split; [apply watched_nil|done]. }
  pose proof (parseSegment_spec res types Hu) as Hp.
  destruct (parseSegment res types) as [e|seg].
  { exists [], e. split; [apply watched_nil|done]. }
  destruct Hp as [-> (_ & _ & Hwf)]. set (seg := part_segment res) in *.
  assert (Hgo : (forall o, ends !! seg_stream seg = Some o -> seg_begin seg = o) ->
    exists segs err, watched types ends segs /\
      match fn s seg with
      | (s', Some e) => (s', Some e)
      | (s', None) =>
          Watch_loop ctx_err types (<[seg_stream seg := seg_end seg]> ends) rs last fn s'
      end = finish (deliver fn s segs) (Some err)).
  { intros Hends. destruct (fn s seg) as [s' [err|]] eqn:Hfn.
    - exists [seg], err. rewrite (deliver_cons_err _ _ _ _ _ _ _ Hfn).
      split; [by apply watched_cons, watched_nil|done].
    - destruct (IH (<[seg_stream seg := seg_end seg]> ends) s') as (segs & err & Hw & ->).
      exists (seg :: segs), err. rewrite (deliver_cons_ok _ _ _ _ _ _ Hfn).
      split; [by apply watched_cons|done]. }
  destruct (ends !! seg_stream seg) as [o|]; [|by apply Hgo].
  case_decide as Hne; [|apply Hgo; by intros ? [= <-]].
  eexists [], _. split; [apply watched_nil|done].
Qed.

(** ** A client of the server *)

(** [Send] either sends the part or fails. *)
Definition sends (Send : list EventStreamSegment -> EventStreamSegment ->
    list EventStreamSegment * option error) : Prop :=
  forall l p, Send l p = (l ++ [p], None) \/ exists e, Send l p = (l, Some e).

Lemma requestedTypes_messageFilter types :
  types <> Some ∅ -> requestedTypes (messageFilter types) = inr types.
Proof.
  intros Hne. unfold requestedTypes, messageFilter. destruct types as [ts|].
  - rewrite filter_Validate_Specific.
    + by rewrite list_to_set_elements_L.
    + intros He. apply Hne. f_equal. by apply elements_empty_inv, leibniz_equiv in He.
    + apply NoDup_elements.
  - by rewrite filter_Validate_All.
Qed.

Section client.
Context (sid : UUID) (h : list Envelope) (types : Types) (hi : Z).
Context (Hh : in_range sid 0 hi h) (Hhi : hi < u64_modulus).
Context (Hsid : uuid_Validate sid = None) (Hsend : Forall sendable h).

(** A part that is faithful to the history is acceptable. *)
Lemma faithful_acceptable p :
  part_stream p = sid -> 0 <= part_begin p -> part_end p < u64_modulus ->
  faithful h types (part_segment p) -> valid_multis (part_envelopes p) ->
  unsigned p /\ acceptable p types.
Proof using Hh Hsid Hsend.
  intros Hs Hb He [Hle Hf] Hv. cbn -[between] in Hle, Hf. split; [split; unfold is_u64; lia|].
  split_and!; [by rewrite Hs| |split]; cbn -[between]; rewrite ?Hf.
  - apply Hv. rewrite Hf. rewrite Forall_forall in *. intros x Hx. apply Hsend.
    by apply list_elem_of_filter in Hx as [_ ?].
  - rewrite Hs. by eapply between_in_range.
  - apply Forall_forall. intros x Hx. by apply list_elem_of_filter in Hx as [[_ ?] _].
Qed.

(** Reading responses that deliver the history. *)
Lemma Read_loop_chain ctx_err last {S} (fn : callback S) ps : forall begin e first s,
  0 <= begin -> e < u64_modulus -> chain sid h types begin (part_segment <$> ps) e ->
  Forall (fun p => valid_multis (part_envelopes p)) ps ->
  Read_loop ctx_err sid types begin first ps last fn s =
    finish (deliver fn s (part_segment <$> ps))
      (if decide (last = Sentinel EOF) then None else Some (readError ctx_err last)).
Proof using Hh Hsid Hsend.
  induction ps as [|p ps IH]; intros begin e first s Hb He Hc Hv.
  { cbn. by case_decide. }
  cbn in Hc. apply chain_cons_inv in Hc as (Hs & Hbg & Hf & Hrest). subst begin. cbn in Hs, Hb.
  apply Forall_cons in Hv as [Hv1 Hv2]. apply chain_le in Hrest as Hle. cbn in Hle.
  destruct (faithful_acceptable p) as [Hu Ha]; try done; [lia|].
  pose proof (parseSegment_spec p types Hu) as Hp. cbn -[part_segment].
  destruct (parseSegment p types) as [err|seg]; [tauto|]. destruct Hp as [-> _].
  rewrite decide_False by (intros Hn; by apply Hn). rewrite decide_False by (intros Hn; by apply Hn).
  destruct (fn s (part_segment p)) as [s' [err|]] eqn:Hfn; [done|].
  destruct Hf as [Hle' _]. cbn in Hle'. rewrite (IH (seg_end (part_segment p)) e); try done. cbn. lia.
Qed.

(** What the server sends for segments of the history. *)
Lemma send_callback_chain Send maxBytes segs : sends Send -> 0 < maxBytes ->
  forall begin e l, chain sid h types begin segs e ->
  exists ps m err, deliver (send_callback Send maxBytes) l segs = (l ++ ps, err) /\
    chain sid h types begin (part_segment <$> ps) m /\ m <= e /\
    Forall (fun p => valid_multis (part_envelopes p)) ps /\
    (err = None -> m = e) /\ ((forall l p, Send l p = (l ++ [p], None)) -> err = None).
Proof using Hh.
  intros HS Hmax. induction segs as [|seg segs IH]; intros begin e l Hc.
  { inversion Hc; subst. exists [], e, None. cbn. rewrite app_nil_r.
    split_and!; try done; constructor. }
  apply chain_cons_inv in Hc as (Hs & Hbg & Hf & Hrest). subst begin. pose proof Hf as [Hle He].
  assert (Hin : in_range (seg_stream seg) (seg_begin seg) (seg_end seg) (seg_envelopes seg)).
  { rewrite He, Hs. by eapply between_in_range. }
  destruct (splitSegment_parts_of seg maxBytes ltac:(lia) Hin) as (qs & [Hqc Hql] & _ & Hsend').
  rewrite Hs, He in Hqc. apply chain_within in Hqc; [|lia|lia].
  apply chain_le in Hrest as Hle'.
  assert (Hall : exists n err, send_all Send l qs = (l ++ take n qs, err) /\
    (err = None -> (length qs <= n)%nat) /\ ((forall l p, Send l p = (l ++ [p], None)) -> err = None)).
  { clear -HS. revert l. induction qs as [|q qs IH]; intros l.
    - exists O, None. cbn. rewrite app_nil_r. split_and!; done || lia.
    - cbn. destruct (HS l q) as [Hq|[e Hq]]; rewrite Hq.
      + destruct (IH (l ++ [q])) as (n & err & -> & Hn & Hok). exists (Datatypes.S n), err.
        cbn. rewrite <- app_assoc. split_and!; [done| |done]. intros ?. specialize (Hn ltac:(done)). lia.
      + exists O, (Some (Wrap "unable to send segment" e)). cbn. rewrite app_nil_r.
        split_and!; [done|done|]. intros Hno. by rewrite Hno in Hq. }
  destruct Hall as (n & err & Hall & Hn & Hok). cbn. unfold send_callback at 1.
  rewrite Hsend', Hall. destruct err as [err|].
  - rewrite <- (take_drop n qs), fmap_app in Hqc. apply chain_app_inv in Hqc as (m & Hqc & Hqr).
    exists (take n qs), m, (Some err). apply chain_le in Hqr. split_and!; [done|done|lia| | |].
    + apply Forall_take. eapply Forall_impl; [exact Hql|]. by intros ? [_ ?].
    + done.
    + intros Hno. by apply Hok in Hno.
  - rewrite (take_ge qs) by (by apply Hn).
    destruct (IH (seg_end seg) e (l ++ qs) Hrest) as (ps & m & err & -> & Hpc & Hme & Hv & Hend & Hdone).
    exists (qs ++ ps), m, err. rewrite fmap_app, <- app_assoc. split_and!; [done| |done| |done|done].
    + by eapply chain_app.
    + apply Forall_app. split; [|done]. eapply Forall_impl; [exact Hql|]. by intros ? [_ ?].
Qed.
End client.

(** ** The connection

    What gRPC promises of a client that is connected to a server: a call fails at once, or
    its responses are the first of those that the handler sent for that request, and
    [Recv] returns [io.EOF] only after all of them, when the handler has returned nil. *)
Definition connected (source_Read : UUID -> Types -> Z -> Reader) (MaxSegmentBytes : Z)
    (Send : list EventStreamSegment -> EventStreamSegment -> list EventStreamSegment * option error)
    (client : UUID -> MessageFilter -> Z -> Call) : Prop :=
  forall sid f begin sent r,
  ReadEvents source_Read MaxSegmentBytes Send sid f begin [] = Ret (sent, r) ->
  (exists e, client sid f begin = inl e) \/
  exists k e, client sid f begin = inr (take k sent, e) /\
    (e = Sentinel EOF -> (length sent <= k)%nat /\ r = None).

(** A connection that does not break: every response is sent and received, and then what
    the handler returned. *)
Definition unbroken (source_Read : UUID -> Types -> Z -> Reader) (MaxSegmentBytes : Z)
    (client : UUID -> MessageFilter -> Z -> Call) : Prop :=
  forall sid f begin sent r,
  ReadEvents source_Read MaxSegmentBytes (fun l p => (l ++ [p], None)) sid f begin [] = Ret (sent, r) ->
  client sid f begin = inr (sent, received r).

Lemma sends_all : sends (fun l p => (l ++ [p], None)).
Proof. intros l p. by left. Qed.

Lemma unbroken_connected source_Read MaxSegmentBytes client :
  unbroken source_Read MaxSegmentBytes client ->
  connected source_Read MaxSegmentBytes (fun l p => (l ++ [p], None)) client.
Proof.
  intros Hun sid f begin sent r Hr. right. exists (length sent), (received r).
  rewrite take_ge by done. split; [by apply Hun|]. intros He. split; [done|].
  destruct r as [e|]; [|done]. by apply received_error in He.
Qed.

Lemma panicIfEmpty_types (types : Types) : types <> Some ∅ -> panicIfEmpty types = Ret tt.
Proof. intros Hne. unfold panicIfEmpty. destruct types; [|done]. rewrite decide_False; congruence. Qed.

(** The handler, for the request that [Read] builds. *)
Lemma ReadEvents_request {S} source_Read MaxSegmentBytes (Send : S -> _) sid types begin s :
  0 < MaxSegmentBytes -> uuid_Validate sid = None -> types <> Some ∅ ->
  ReadEvents source_Read MaxSegmentBytes Send sid (messageFilter types) begin s =
    let '(s', err) := source_Read sid types begin S (send_callback Send MaxSegmentBytes) s in
    Ret (s', readStatus err).
Proof.
  intros Hmax Hsid Hne. unfold ReadEvents. rewrite decide_False, Hsid by lia.
  by rewrite requestedTypes_messageFilter.
Qed.

Lemma readStatus_None err : readStatus err = None -> err = None.
Proof. unfold readStatus. destruct err as [e|]; [|done]. cbn. by repeat case_match. Qed.

Section connection.
Context (source_Read : UUID -> Types -> Z -> Reader) (MaxSegmentBytes : Z).
Context (sid : UUID) (h : list Envelope) (hi : Z) (types : Types) (begin : Z).
Context (Hh : in_range sid 0 hi h) (Hhi : hi < u64_modulus).
Context (Hsid : uuid_Validate sid = None) (Hsend : Forall sendable h).
Context (Hne : types <> Some ∅) (Hmax : 0 < MaxSegmentBytes) (Hb : 0 <= begin).

(** What the client reads of the segments that the server's source delivers, [sent] being
    what the server sends. *)
Lemma Read_connected Send client ctx_err {S} (fn : callback S) s segs e err :
  sends Send -> connected source_Read MaxSegmentBytes Send client ->
  chain sid h types begin segs e -> e <= hi ->
  source_Read sid types begin _ (send_callback Send MaxSegmentBytes) []
    = finish (deliver (send_callback Send MaxSegmentBytes) [] segs) err ->
  exists segs' e' err', chain sid h types begin segs' e' /\ e' <= e /\
    Read client ctx_err sid types begin fn s = Ret (finish (deliver fn s segs') err') /\
    (err' = None -> e' = e /\ err = None).
Proof using Hh Hhi Hsid Hsend Hne Hmax Hb.
  intros HS Hconn Hc He Hr.
  destruct (send_callback_chain sid h types hi Hh Send MaxSegmentBytes segs HS Hmax begin e [] Hc)
    as (ps & m & errs & Hd & Hpc & Hme & Hv & Hend & _).
  rewrite Hd in Hr.
  pose proof (ReadEvents_request source_Read MaxSegmentBytes Send sid types begin [] Hmax Hsid Hne) as Hreq.
  unfold Read. rewrite panicIfEmpty_types by done. cbn.
  assert (exists r, ReadEvents source_Read MaxSegmentBytes Send sid (messageFilter types) begin [] = Ret (ps, r) /\
    (r = None -> errs = None /\ err = None)) as (r & Hps & Hnil).
  { rewrite Hreq, Hr. destruct errs as [e0|]; cbn; eexists; (split; [reflexivity|]); intros Hx%readStatus_None; done. }
  destruct (Hconn _ _ _ _ _ Hps) as [[e0 ->]|(k & last & -> & Hlast)].
  { exists [], begin, (Some (readError ctx_err e0)). apply chain_le in Hpc. split_and!; [constructor|lia|done|done]. }
  rewrite <- (take_drop k ps), fmap_app in Hpc. apply chain_app_inv in Hpc as (m' & Hpc & Hpc').
  apply chain_le in Hpc' as Hle. eexists _, m', _. split; [exact Hpc|]. split; [lia|]. split.
  - f_equal. apply (Read_loop_chain sid h types hi Hh Hsid Hsend ctx_err last fn (take k ps) begin m');
      try done; [lia|by apply Forall_take].
  - case_decide as Heof; [|done]. intros _. destruct (Hlast Heof) as [Hk ->].
    destruct (Hnil eq_refl) as [-> ->]. rewrite drop_ge in Hpc' by done. inversion Hpc'; subst.
    split; [by apply Hend|done].
Qed.

Lemma Read_until Send client ctx_err {S} (fn : callback S) s end_ :
  sends Send -> connected source_Read MaxSegmentBytes Send client ->
  serves_until sid h types begin end_ (source_Read sid types begin) -> end_ <= hi ->
  exists segs e err, chain sid h types begin segs e /\
    Read client ctx_err sid types begin fn s = Ret (finish (deliver fn s segs) err) /\ (err = None -> e = end_).
Proof using Hh Hhi Hsid Hsend Hne Hmax Hb.
  intros HS Hconn Huntil Hend. destruct (Huntil _ (send_callback Send MaxSegmentBytes) []) as (segs & Hc & Hr).
  destruct (Read_connected Send client ctx_err fn s segs end_ None HS Hconn Hc Hend) as (segs' & e & err & ? & _ & ? & Hn).
  { by rewrite finish_None. }
  exists segs', e, err. split_and!; [done..|]. intros ->. by apply Hn.
Qed.
End connection.
End remote.

(** ** Properties *)

(** [parseSegment] accepts exactly the responses whose stream ID and
    envelopes are valid, whose events are of the requested types, belong to the
    stream and lie at increasing offsets within the range, and it then returns
    that range and those events; every other response is an
    [ErrInvalidSegment]. *)
Theorem parseSegment_accepts `{Wire} res types :
  unsigned res ->
  (forall seg, parseSegment res types = inr seg <-> acceptable res types /\ seg = part_segment res) /\
  (~ acceptable res types ->
   exists e, parseSegment res types = inl e /\ Is e ErrInvalidSegment = true).
Proof.
  intros Hu. pose proof (parseSegment_spec res types Hu) as Hp.
  destruct (parseSegment res types) as [e|seg].
  - destruct Hp as [He Hn]. split; [|eauto]. intros seg. split; [done|tauto].
  - destruct Hp as [-> Ha]. split; [|tauto]. intros seg. split; [by intros [= <-]|by intros [_ ->]].
Qed.

(** Whatever the remote engine sends, what [Remote.Read] gives to its
    callback is a contiguous delivery, from the requested offset, of events of the
    requested types, and [Remote.Watch] delivers each stream contiguously; the
    callback's error is returned unchanged, and a watch never ends without an
    error. *)
Theorem Remote_contiguous `{Wire, Filters} client wclient ctx_err sid types begin
    {S} (fn : callback S) s rs last :
  types <> Some ∅ ->
  client sid (messageFilter types) begin = inr (rs, last) ->
  wclient (messageFilter types) = inr (rs, last) -> Forall unsigned rs ->
  (exists segs e err, contiguous sid types begin segs e /\
     Read client ctx_err sid types begin fn s = Ret (finish (deliver fn s segs) err)) /\
  (exists segs err, (forall sid', exists b e, contiguous sid' types b (of_stream sid' segs) e) /\
     Watch wclient ctx_err types fn s = Ret (finish (deliver fn s segs) (Some err))).
Proof.
  intros Hne Hc Hw Hu. unfold Read, Watch. rewrite Hc, Hw.
  replace (panicIfEmpty types) with (Ret tt); last first.
  { unfold panicIfEmpty. destruct types; [|done]. rewrite decide_False; congruence. }
  cbn. split.
  - destruct (Read_loop_contiguous ctx_err sid types last fn rs Hu begin true s)
      as (segs & e & err & Hch & ->). eauto.
  - destruct (Watch_loop_contiguous ctx_err types last fn rs Hu ∅ s) as (segs & err & Hch & ->).
    exists segs, err. split; [|done]. intros sid'. destruct (Hch sid') as (b & e & ? & _). eauto.
Qed.

(** C16: a [Remote] that is connected to a [Server] whose source serves a stream
    is itself a source that serves the stream.  The server handles the request that [Read]
    builds.  Wherever the connection breaks, [Read] delivers the stream contiguously from
    the requested offset, each segment holding exactly the events of the requested types in
    its range.  When the server's source reaches the end of the stream, so does the client
    if it returns nil; and when the connection does not break either, it does so, and
    returns nil unless its callback fails. *)
Theorem Remote_Read_of_Server `{Wire, Filters} source_Read MaxSegmentBytes Send client sid h hi types
    begin ctx_err {S} (fn : callback S) s :
  in_range sid 0 hi h -> hi < u64_modulus -> uuid_Validate sid = None -> Forall sendable h ->
  types <> Some ∅ -> 0 < MaxSegmentBytes -> 0 <= begin -> sends Send ->
  (forall S fn s, exists segs e err, chain sid h types begin segs e /\ e <= hi /\
     source_Read sid types begin S fn s = finish (deliver fn s segs) err) ->
  (connected source_Read MaxSegmentBytes Send client ->
   exists segs e err, chain sid h types begin segs e /\
     Read client ctx_err sid types begin fn s = Ret (finish (deliver fn s segs) err)) /\
  (forall end_, serves_until sid h types begin end_ (source_Read sid types begin) -> end_ <= hi ->
   (connected source_Read MaxSegmentBytes Send client -> forall s',
    Read client ctx_err sid types begin fn s = Ret (s', None) ->
    exists segs, chain sid h types begin segs end_ /\ deliver fn s segs = (s', None)) /\
   (unbroken source_Read MaxSegmentBytes client ->
    exists segs, chain sid h types begin segs end_ /\
      Read client ctx_err sid types begin fn s = Ret (deliver fn s segs))).
Proof.
  intros Hh Hhi Hsid Hsend Hne Hmax Hb HS Hsrc. split; [|intros end_ Huntil Hend; split].
  - intros Hconn. destruct (Hsrc _ (send_callback Send MaxSegmentBytes) []) as (segs & e & err & Hc & He & Hr).
    destruct (Read_connected source_Read MaxSegmentBytes sid h hi types begin Hh Hhi Hsid Hsend Hne Hmax Hb
      Send client ctx_err fn s segs e err HS Hconn Hc He Hr) as (segs' & e' & err' & ? & _ & ? & _).
    by exists segs', e', err'.
  - intros Hconn s' Hread.
    destruct (Read_until source_Read MaxSegmentBytes sid h hi types begin Hh Hhi Hsid Hsend Hne Hmax Hb
      Send client ctx_err fn s end_ HS Hconn Huntil Hend) as (segs & e & err & Hc & Hr & Hnil).
    rewrite Hr in Hread. injection Hread as Hf. destruct (deliver fn s segs) as [s1 [e1|]] eqn:Hd; [done|].
    injection Hf as -> ->. rewrite <- (Hnil eq_refl). by exists segs.
  - intros Hun. destruct (Huntil _ (send_callback (fun l p => (l ++ [p], None)) MaxSegmentBytes) [])
      as (segs & Hc & Hr).
    destruct (send_callback_chain sid h types hi Hh (fun l p => (l ++ [p], None)) MaxSegmentBytes segs
      sends_all Hmax begin end_ [] Hc) as (ps & m & errs & Hd & Hpc & Hme & Hv & Hend' & Hdone).
    rewrite Hdone in * by done. rewrite (Hend' eq_refl) in *. rewrite Hd in Hr.
    assert (Hps : ReadEvents source_Read MaxSegmentBytes (fun l p => (l ++ [p], None)) sid (messageFilter types)
      begin [] = Ret (ps, None)) by (rewrite ReadEvents_request by done; by rewrite Hr).
    exists (part_segment <$> ps). split; [done|].
    unfold Read. rewrite panicIfEmpty_types by done. cbn. rewrite (Hun _ _ _ _ _ Hps). f_equal.
    rewrite (Read_loop_chain sid h types hi Hh Hsid Hsend ctx_err _ fn ps begin end_); try done; [|lia].
    rewrite received_nil, decide_True by done. apply finish_None.
Qed.

(** C33: the errors that a source reports survive the passage through the server
    and the client: a stream that is not recognized, an offset beyond the end of
    the stream and a consumer that is too slow are reported by [Remote] with the
    same sentinel errors, unless the client's context has been canceled, which
    takes precedence. *)
Theorem Remote_errors_round_trip `{Wire} err :
  (Is err ErrUnrecognizedStream = true ->
   Is (readError None (received (readStatus (Some err)))) ErrUnrecognizedStream = true) /\
  (Is err ErrUnrecognizedStream = false -> Is err ErrOffsetOutOfRange = true ->
   Is (readError None (received (readStatus (Some err)))) ErrOffsetOutOfRange = true) /\
  (Is err ErrConsumerTooSlow = true ->
   Is (watchError None (received (watchStatus (Some err)))) ErrConsumerTooSlow = true) /\
  (forall e last, readError (Some e) last = e /\ watchError (Some e) last = e).
Proof.
  unfold readStatus, watchStatus, readError, watchError. cbn. split_and!; try done.
  - intros ->. by rewrite received_Status, status_Code_Status.
  - intros -> ->. by rewrite received_Status, status_Code_Status.
  - intros ->. by rewrite received_Status, status_Code_Status.
Qed.

Lemma parseSegment_accepts_witness :
  parseSegment (@mkPart example_wire 7 0 5 [[event 7 1 5; event 7 3 5]]) None
  = inr (mkSegment 7 0 5 [event 7 1 5; event 7 3 5]).
Proof.
  apply (parseSegment_accepts (@mkPart example_wire 7 0 5 [[event 7 1 5; event 7 3 5]]) None).
  - split; by vm_compute.
  - split; [|done]. split_and!; [done|by repeat constructor|].
    split; [cbn; split_and!; done || lia|]. by repeat constructor.
Defined.

Lemma Remote_contiguous_witness :
  exists segs e err, contiguous 7 None 0 segs e /\
    ([mkSegment 7 0 5 [event 7 1 5]], None) = finish (deliver recorder [] segs) err.
Proof.
  destruct (Remote_contiguous
    (fun _ _ _ => inr ([@mkPart example_wire 7 0 5 [[event 7 1 5]]], Sentinel EOF))
    (fun _ => inr ([@mkPart example_wire 7 0 5 [[event 7 1 5]]], Sentinel EOF))
    None 7 None 0 recorder [] [@mkPart example_wire 7 0 5 [[event 7 1 5]]] (Sentinel EOF))
    as [(segs & e & err & Hc & Hr) _]; [done|done|done|repeat constructor; by vm_compute|].
  exists segs, e, err. split; [done|]. vm_compute in Hr. by injection Hr.
Defined.

(** A source that serves stream 7 only, and a connection to its server. *)
Definition example_read_history : list Envelope := [event 7 1 5; event 7 2 5; event 7 4 5].

Definition example_source_Read (sid : UUID) (types : Types) (begin : Z) : Reader := fun S fn s =>
  if decide (sid = 7%N) then deliver fn s [whole 7 example_read_history types begin 9]
  else (s, Some (Sentinel ErrUnrecognizedStream)).

Definition example_read_client (sid : UUID) (f : MessageFilter) (begin : Z) : Call :=
  match ReadEvents example_source_Read 10 (fun l p => (l ++ [p], None)) sid f begin [] with
  | Ret (sent, r) => inr (sent, received r)
  | Panic msg => inl (Opaque msg)
  end.

Lemma example_unbroken : unbroken example_source_Read 10 example_read_client.
Proof. intros sid f begin sent r Hr. unfold example_read_client. by rewrite Hr. Qed.

Lemma Remote_Read_of_Server_witness :
  let h := example_read_history in
  (exists segs e err, chain 7 h None 0 segs e /\
    Read example_read_client None 7 None 0 recorder [] = Ret (finish (deliver recorder [] segs) err)) /\
  exists segs, chain 7 h None 0 segs 9 /\ length segs = 2%nat /\
    Read example_read_client None 7 None 0 recorder [] = Ret (segs, None).
Proof.
  intros h.
  assert (Hin : in_range 7 0 9 h) by (cbn; split_and!; done || lia).
  assert (Hc : chain 7 h None 0 [whole 7 h None 0 9] 9) by (by apply chain_whole).
  destruct (Remote_Read_of_Server example_source_Read 10 (fun l p => (l ++ [p], None)) example_read_client
    7 h 9 None 0 None recorder []) as [H1 H2]; try done.
  - by repeat constructor.
  - exact sends_all.
  - intros S fn s. exists [whole 7 h None 0 9], 9, None. split_and!; [exact Hc|lia|].
    by rewrite finish_None.
  - split; [exact (H1 (unbroken_connected _ _ _ example_unbroken))|]. destruct (H2 9) as [_ H3]; [|lia|].
    + intros S fn s. exists [whole 7 h None 0 9]. split; [exact Hc|reflexivity].
    + destruct (H3 example_unbroken) as (segs & Hsc & Hr). exists segs. split; [exact Hsc|].
      rewrite deliver_recorder in Hr. rewrite Hr. split; [|reflexivity].
      vm_compute in Hr. by injection Hr as <-.
Defined.

Lemma Remote_errors_round_trip_witness :
  Is (readError None (received (readStatus
    (Some (Wrap "unable to read event stream" (Sentinel ErrUnrecognizedStream))))))
    ErrUnrecognizedStream = true.
Proof.
  apply (Remote_errors_round_trip (Wrap "unable to read event stream" (Sentinel ErrUnrecognizedStream))).
  reflexivity.
Defined.
