(* ===== verification/Feed.v ===== *)
(** * Feeds: serving consumers of one stream from one source

    Models [internal/eventstream/feed.go].  A feed's cache is written by the
    goroutine that watches the source and read by the consumers, so what a
    consumer observes changes while it runs: each iteration of the loop of
    [feed.consume] is given what it observes (a [turn]), and the theorems assume
    only that every cached segment observed is one that the feed held, and that
    every read from the source meets the contract [serves]. *)

From S2P Require Import Prelude Errors Stream Source.
From S2P Require Cache.
Import Cache (CSegment, cs_begin, cs_end, cs_events, segment, Before, Within, After).

(** ** The feed *)

Record feed := mkFeed {
  ID : UUID;
  feed_types : Types;
  cache : Cache.Cache;
  closed : bool;
  reads : Z;                  (* the reads from the source in progress *)
}.

(** [feed.Append]. *)
Definition Append (seg : Segment) (f : feed) : go feed :=
  if closed f then Ret f
  else
    let c := if decide (seg_begin seg <> cs_end (segment (cache f)))
             then Cache.Reset (cache f) (seg_begin seg) else cache f in
    c' ← Cache.Append c (seg_begin seg) (seg_end seg) (seg_envelopes seg);
    Ret (mkFeed (ID f) (feed_types f) c' (closed f) (reads f)).

(** [feed.Close]; canceling the feed's context is visible to the reads as their
    outcome. *)
Definition Close (f : feed) : feed :=
  mkFeed (ID f) (feed_types f) (cache f) true (reads f).

(** [feed.startRead]. *)
Definition startRead (f : feed) : feed * bool :=
  if closed f then (f, false)
  else (mkFeed (ID f) (feed_types f) (cache f) (closed f) (reads f + 1), true).

(** [f.reads.Done()], which panics if no read is in progress. *)
Definition endRead (f : feed) : go feed :=
  if decide (reads f <= 0) then Panic "negative WaitGroup counter"
  else Ret (mkFeed (ID f) (feed_types f) (cache f) (closed f) (reads f - 1)).

(** [feed.Wait] returns only when no read is in progress. *)
Definition Wait_returns (f : feed) : bool := bool_decide (reads f = 0).

(** ** Reading from the source *)

(** The callback that [feed.read] gives to the source.  Its state is [fn]'s, the
    checkpoint, [fnErr], and the number of segments delivered; [snap i] is the
    cached segment when the [i]-th of them has been delivered. *)
Definition read_callback {S} (snap : nat -> CSegment) (fn : callback S)
    : callback (S * Z * option error * nat) :=
  fun '(s, cp, fnErr, i) seg =>
    match fn s seg with
    | (s', Some e) => ((s', cp, Some e, i), Some e)
    | (s', None) =>
        let cp := seg_end seg in
        ((s', cp, fnErr, Datatypes.S i),
         if decide (cp >= cs_begin (snap i)) then Some (Sentinel errCaughtUp) else None)
    end.

(** [feed.read]: [can_start] is what [startRead] returned, [source_Read] is the
    call to the source, and [is_closed] is whether the feed is closed when that
    call has returned. *)
Definition read {S} (can_start : bool) (source_Read : Reader) (snap : nat -> CSegment)
    (is_closed : bool) (cp : Z) (fn : callback S) (s : S) : S * Z * option error :=
  if can_start then
    let '((s', cp', fnErr, _), err) := source_Read _ (read_callback snap fn) (s, cp, None, O) in
    match fnErr with
    | Some e => (s', cp', Some e)
    | None =>
        if IsOpt err errCaughtUp then (s', cp', None)
        else if is_closed then (s', cp', Some (Sentinel errFeedClosed))
        else
          match err with
          | Some e =>
              if Is e ErrUnrecognizedStream || Is e ErrOffsetOutOfRange || Is e ErrInvalidSegment
              then (s', cp', Some (Persistent e))
              else (s', cp', Some e)
          | None => (s', cp', None)
          end
    end
  else (s, cp, Some (Sentinel errFeedClosed)).

(** ** Consuming *)

(** How the [select] of [feed.consume] ends. *)
Inductive wait : Type :=
| Done (err : error)            (* ctx is canceled *)
| Changed                       (* the cached segment has changed *)
| Closed.                       (* the feed is closed *)

(** What one iteration of [feed.consume] observes: the cached segment, and, for a
    read or a wait that it makes, how that goes. *)
Record turn := mkTurn {
  t_segment : CSegment;
  t_can_start : bool;
  t_Read : Z -> Reader;
  t_snap : nat -> CSegment;
  t_closed : bool;
  t_wait : wait;
}.

Inductive outcome (S : Type) : Type :=
| Running (s : S) (cp : Z) (confirmed : bool)
| Returned (s : S) (cp : Z) (err : error).
Arguments Running {S} s cp confirmed.
Arguments Returned {S} s cp err.

(** One iteration of the loop of [feed.consume]. *)
Definition consume_turn {S} (sid : UUID) (types : gset UUID) (t : turn) (fn : callback S)
    (s : S) (cp : Z) (confirmed : bool) : go (outcome S) :=
  '(envelopes, rel) ← Cache.Read (t_segment t) cp types;
  match rel with
  | Within =>
      match fn s (mkSegment sid cp (cs_end (t_segment t)) envelopes) with
      | (s', Some e) => Ret (Returned s' cp e)
      | (s', None) => Ret (Running s' (cs_end (t_segment t)) true)
      end
  | Before =>
      match read (t_can_start t) (t_Read t cp) (t_snap t) (t_closed t) cp fn s with
      | (s', cp', Some e) => Ret (Returned s' cp' e)
      | (s', cp', None) =>
          if decide (cp' = cp) then
            Ret (Returned s' cp' (Opaque "event stream ends before the cached segment"))
          else Ret (Running s' cp' true)
      end
  | After =>
      if decide (cp > cs_end (t_segment t) /\ confirmed = false) then
        match read (t_can_start t) (t_Read t cp) (t_snap t) (t_closed t) cp fn s with
        | (s', cp', Some e) => Ret (Returned s' cp' e)
        | (s', cp', None) => Ret (Running s' cp' true)
        end
      else
        match t_wait t with
        | Done err => Ret (Returned s cp err)
        | Changed => Ret (Running s cp confirmed)
        | Closed => Ret (Returned s cp (Sentinel errFeedClosed))
        end
  end.

(** The loop, for as many iterations as there are turns. *)
Fixpoint consume_loop {S} (sid : UUID) (types : gset UUID) (turns : list turn) (fn : callback S)
    (s : S) (cp : Z) (confirmed : bool) : go (outcome S) :=
  match turns with
  | [] => Ret (Running s cp confirmed)
  | t :: turns' =>
      o ← consume_turn sid types t fn s cp confirmed;
      match o with
      | Running s' cp' confirmed' => consume_loop sid types turns' fn s' cp' confirmed'
      | Returned _ _ _ => Ret o
      end
  end.

Definition consume {S} (sid : UUID) (types : gset UUID) (turns : list turn) (begin : Z)
    (fn : callback S) (s : S) : go (outcome S) :=
  consume_loop sid types turns fn s begin false.

(** ** What a feed holds *)

(** The events of a history that a feed carries. *)
Definition carried (types : Types) (h : list Envelope) : list Envelope := filter (matches types) h.

(** A cached segment that a feed of the stream, carrying [types], may hold. *)
Definition held (sid : UUID) (h : list Envelope) (types : Types) (cs : CSegment) : Prop :=
  exists c, segment c = cs /\ Cache.holds sid (carried types h) c.

Definition feed_ok (h : list Envelope) (f : feed) : Prop :=
  Cache.holds (ID f) (carried (feed_types f) h) (cache f) /\ 0 <= reads f.

(** Whether every type of the set is among the types. *)
Definition covers (types : Types) (ts : gset UUID) : Prop := forall ty, ty ∈ ts -> type_in types ty.

Lemma carried_between types ts lo hi h :
  covers types ts -> between (Some ts) lo hi (carried types h) = between (Some ts) lo hi h.
Proof.
  intros Hc. unfold between, carried. rewrite list_filter_filter. apply filter_ext_elem.
  intros x _. unfold matches. cbn. specialize (Hc (type_of x)). tauto.
Qed.

Lemma carried_between_None types lo hi h : between None lo hi (carried types h) = between types lo hi h.
Proof.
  unfold between, carried. rewrite list_filter_filter. apply filter_ext_elem.
  intros x _. unfold matches. cbn. tauto.
Qed.

Lemma Reset_holds_any sid h c b : 0 < Cache.capacity c -> is_u64 b -> Cache.holds sid h (Cache.Reset c b).
Proof.
  intros Hc Hb. destruct (Cache.Reset_holds sid c b Hc Hb) as [Hwf _]. split; [done|].
  cbn -[between]. by rewrite between_empty.
Qed.

(** Appending a faithful segment to a cache that holds part of a history. *)
Lemma cache_Append_history sid hist lo hi c seg :
  in_range sid lo hi hist -> Cache.holds sid hist c -> seg_begin seg = cs_end (segment c) ->
  seg_end seg < u64_modulus -> faithful hist None seg ->
  exists c', Cache.Append c (seg_begin seg) (seg_end seg) (seg_envelopes seg) = Ret c' /\
    Cache.holds sid hist c' /\ cs_end (segment c') = seg_end seg.
Proof.
  intros Hh [Hwf Hev] Hb He [Hle Hf]. pose proof Hwf as (Hcap & _ & Hb0 & _ & Hin).
  assert (Hnew : in_range sid (cs_end (segment c)) (seg_end seg) (seg_envelopes seg)).
  { rewrite Hf, <- Hb. by eapply between_in_range. }
  rewrite Hb, (Cache.Append_eq_reference sid) by done. eexists. split; [done|].
  destruct (Cache.append_reference_holds sid (cs_events (segment c)) (cs_begin (segment c)) c
    (seg_end seg) (seg_envelopes seg)) as [[Hwf' Hev'] Hbeg]; try done.
  { split; [done|]. symmetry. apply filter_all. intros x Hx.
    apply (in_range_elem _ _ _ _ _ Hin) in Hx as [_ ?]. split; [lia|done]. }
  set (c' := Cache.append_reference c _ _) in *.
  assert (Hend : cs_end (segment c') = seg_end seg) by done. clearbody c'.
  split; [|done]. split; [done|]. rewrite Hev', Hev, Hf, Hb, Hend.
  rewrite (between_app sid _ lo hi); [|done|apply in_range_le in Hin; lia].
  unfold between. rewrite list_filter_filter. apply filter_ext_elem. intros x _.
  unfold matches, type_in. intuition lia.
Qed.

Lemma carried_in_range sid lo hi h types : in_range sid lo hi h -> in_range sid lo hi (carried types h).
Proof. apply in_range_filter. Qed.

(** [feed.Append] never panics, and the feed goes on holding part of the
    stream. *)
Lemma feed_Append_ok h lo hi f seg :
  in_range (ID f) lo hi h -> feed_ok h f -> is_u64 (seg_begin seg) -> seg_end seg < u64_modulus ->
  faithful h (feed_types f) seg ->
  exists f', Append seg f = Ret f' /\ feed_ok h f' /\ ID f' = ID f /\
    feed_types f' = feed_types f /\ closed f' = closed f /\
    (closed f = false -> cs_end (segment (cache f')) = seg_end seg).
Proof.
  intros Hh [Hc Hr] Hb He [Hle Hf]. unfold Append. destruct (closed f) eqn:Hcl.
  { exists f. by split_and!. }
  assert (Hfa : faithful (carried (feed_types f) h) None seg).
  { split; [done|]. by rewrite Hf, carried_between_None. }
  set (c := if decide _ then _ else _).
  assert (Hc' : Cache.holds (ID f) (carried (feed_types f) h) c /\ seg_begin seg = cs_end (segment c)).
  { unfold c. case_decide as Hd; [|done]. split; [|done].
    apply Reset_holds_any; [apply Hc|done]. }
  destruct Hc' as [Hc' Hend].
  destruct (cache_Append_history (ID f) _ lo hi c seg (carried_in_range _ _ _ _ _ Hh) Hc' Hend He Hfa)
    as (c2 & -> & Hc2 & Hend2). cbn. eexists. split; [done|]. by split_and!.
Qed.

(** ** What a consumer is given *)

Section consume.
Context (sid : UUID) (h : list Envelope) (types : Types) (ts : gset UUID).
Context (Hcov : covers types ts).

Lemma read_callback_deliver {S} snap (fn : callback S) segs : forall s cp i e,
  chain sid h (Some ts) cp segs e ->
  exists s' cp' fnErr i' err,
    deliver (read_callback snap fn) (s, cp, None, i) segs = ((s', cp', fnErr, i'), err) /\
    progressed sid h (Some ts) cp fn s s' cp' fnErr /\
    (err = None -> fnErr = None /\ cp' = e).
Proof.
  induction segs as [|seg segs IH]; intros s cp i e Hc.
  - exists s, cp, None, i, None. split_and!; [done|apply progressed_nil|].
    by inversion Hc.
  - apply chain_cons_inv in Hc as (Hs & <- & Hf & Hrest). cbn -[deliver].
    cbn [deliver read_callback].
    destruct (fn s seg) as [s1 [e1|]] eqn:Hfn.
    + exists s1, (seg_begin seg), (Some e1), i, (Some e1). split_and!; [done| |done].
      by apply progressed_fail.
    + case_decide.
      * exists s1, (seg_end seg), None, (Datatypes.S i), (Some (Sentinel errCaughtUp)).
        split_and!; [done| |done]. eapply progressed_cons; eauto using progressed_nil.
      * destruct (IH s1 (seg_end seg) (Datatypes.S i) e Hrest)
          as (s' & cp' & fnErr & i' & err & -> & Hp & Hd).
        exists s', cp', fnErr, i', err. split_and!; [done| |done]. by eapply progressed_cons.
Qed.

(** [feed.read] delivers contiguously, and its error is [fn]'s if [fn] failed. *)
Lemma read_progressed {S} can_start r snap is_closed cp (fn : callback S) s s' cp' err :
  serves sid h (Some ts) cp r -> read can_start r snap is_closed cp fn s = (s', cp', err) ->
  progressed sid h (Some ts) cp fn s s' cp' err.
Proof.
  intros Hr. unfold read. destruct can_start; last first.
  { intros [= <- <- <-]. apply progressed_nil. }
  destruct (Hr _ (read_callback snap fn) (s, cp, None, O)) as (segs & e & serr & Hc & ->).
  destruct (read_callback_deliver snap fn segs s cp 0 e Hc)
    as (s1 & cp1 & fnErr & i & derr & -> & Hp & _).
  assert (Hfin : exists serr', finish ((s1, cp1, fnErr, i), derr) serr = ((s1, cp1, fnErr, i), serr'))
    by (destruct derr; cbn; eauto). destruct Hfin as [serr' ->].
  destruct fnErr as [e1|]; [by intros [= <- <- <-]|].
  intros Heq. assert (s1 = s' /\ cp1 = cp') as [<- <-]; [|by apply progressed_None].
  revert Heq. repeat (case_match; try (intros [= -> -> _]; done)); by intros [= -> -> _].
Qed.

(** What is assumed of a turn. *)
Definition turn_ok (t : turn) : Prop :=
  held sid h types (t_segment t) /\ forall cp, serves sid h (Some ts) cp (t_Read t cp).

Definition outcome_ok {S} (begin : Z) (fn : callback S) (s : S) (o : outcome S) : Prop :=
  match o with
  | Running s' cp _ => progressed sid h (Some ts) begin fn s s' cp None
  | Returned s' cp e => progressed sid h (Some ts) begin fn s s' cp (Some e)
  end.

(** A read of a cached segment. *)
Lemma held_Read cs cp :
  held sid h types cs ->
  Cache.Read cs cp ts =
    Ret (if decide (cp < cs_begin cs) then ([], Before)
         else if decide (cs_end cs <= cp) then ([], After)
         else (between (Some ts) cp (cs_end cs) h, Within)).
Proof using Hcov.
  intros (c & <- & Hc). rewrite (Cache.Read_holds _ _ _ _ _ Hc).
  by rewrite (carried_between _ _ _ _ _ Hcov).
Qed.

Lemma consume_turn_ok {S} t (fn : callback S) s cp confirmed : turn_ok t ->
  exists o, consume_turn sid ts t fn s cp confirmed = Ret o /\ outcome_ok cp fn s o.
Proof using Hcov.
  intros [Hheld Hread]. unfold consume_turn. rewrite (held_Read _ _ Hheld). cbn -[between].
  case_decide as Hb; [|case_decide as Ha].
  - destruct (read _ _ _ _ _ _ _) as [[s' cp'] [e|]] eqn:Hr;
      apply read_progressed in Hr; [|done| |done].
    + eexists; by split.
    + case_decide; eexists; (split; [done|]); [by apply progressed_None|done].
  - case_decide.
    + destruct (read _ _ _ _ _ _ _) as [[s' cp'] [e|]] eqn:Hr;
        apply read_progressed in Hr; [|done| |done]; eexists; by split.
    + destruct (t_wait t); eexists; (split; [done|]); apply progressed_nil.
  - set (seg := mkSegment sid cp (cs_end (t_segment t)) _).
    assert (Hf : faithful h (Some ts) seg) by (split; [cbn; lia|done]).
    destruct (fn s seg) as [s' [e|]] eqn:Hfn; eexists; (split; [done|]).
    + by apply (progressed_fail _ _ _ _ _ _ seg).
    + apply (progressed_cons _ _ _ fn s s' s' seg); try done. apply progressed_nil.
Qed.

Lemma consume_loop_ok {S} (fn : callback S) turns : Forall turn_ok turns ->
  forall s cp confirmed,
  exists o, consume_loop sid ts turns fn s cp confirmed = Ret o /\ outcome_ok cp fn s o.
Proof using Hcov.
  induction 1 as [|t turns Ht Hts IH]; intros s cp confirmed; cbn.
  { eexists. split; [done|]. apply progressed_nil. }
  destruct (consume_turn_ok t fn s cp confirmed Ht) as (o & -> & Ho). cbn.
  destruct o as [s' cp' confirmed'|s' cp' e]; [|eauto].
  destruct (IH s' cp' confirmed') as (o & -> & Ho'). exists o. split; [done|].
  destruct o; cbn in *; by eapply progressed_trans.
Qed.
End consume.

(** A callback that never fails. *)
Definition accepting {S} (fn : callback S) : Prop := forall s seg, (fn s seg).2 = None.

Lemma read_callback_accepting {S} sid h types snap (fn : callback S) segs : accepting fn ->
  forall s cp i e, chain sid h types cp segs e ->
  exists s' cp' i' err,
    deliver (read_callback snap fn) (s, cp, None, i) segs = ((s', cp', None, i'), err) /\
    ((err = None /\ cp' = e) \/
     (err = Some (Sentinel errCaughtUp) /\ exists j, cs_begin (snap j) <= cp')).
Proof.
  intros Hacc. induction segs as [|seg segs IH]; intros s cp i e Hc.
  - exists s, cp, i, None. split; [done|]. left. by inversion Hc.
  - apply chain_cons_inv in Hc as (Hs & <- & Hf & Hrest). cbn [deliver read_callback].
    specialize (Hacc s seg). destruct (fn s seg) as [s1 [e1|]]; [done|]. case_decide.
    + eexists s1, (seg_end seg), _, _. split; [done|]. right. split; [done|]. exists i. lia.
    + apply IH. done.
Qed.

(** The callback of a read fails with the error of [fn], or after [fn] accepted
    everything it was given. *)
Lemma read_callback_outcome {S} snap (fn : callback S) segs : forall s cp i,
  exists s1 cp1 fnErr i1 derr,
    deliver (read_callback snap fn) (s, cp, None, i) segs = ((s1, cp1, fnErr, i1), derr) /\
    match fnErr with
    | Some e => exists segs1 t seg, deliver fn s segs1 = (t, None) /\ fn t seg = (s1, Some e)
    | None => exists segs1, deliver fn s segs1 = (s1, None)
    end.
Proof.
  induction segs as [|seg segs IH]; intros s cp i.
  - eexists _, _, _, _, _. split; [done|]. by exists [].
  - cbn [deliver read_callback]. destruct (fn s seg) as [s1 [e|]] eqn:Hfn.
    + eexists _, _, _, _, _. split; [done|]. by exists [], s, seg.
    + case_decide.
      { eexists _, _, _, _, _. split; [done|]. exists [seg]. cbn. by rewrite Hfn. }
      destruct (IH s1 (seg_end seg) (Datatypes.S i)) as (s2 & cp2 & fe & i2 & de & -> & Hx).
      eexists _, _, _, _, _. split; [done|]. destruct fe.
      * destruct Hx as (l & t & sg & H1 & H2). exists (seg :: l), t, sg. cbn. by rewrite Hfn.
      * destruct Hx as (l & H1). exists (seg :: l). cbn. by rewrite Hfn.
Qed.

(** ** Properties *)

(** What the watcher of the source does to a feed. *)
Inductive feed_op : Type :=
| DoAppend (seg : Segment)
| DoClose
| DoStartRead
| DoEndRead.

Definition apply_op (o : feed_op) (f : feed) : go feed :=
  match o with
  | DoAppend seg => Append seg f
  | DoClose => Ret (Close f)
  | DoStartRead => Ret (startRead f).1
  | DoEndRead => endRead f
  end.

Fixpoint run_ops (ops : list feed_op) (f : feed) : go feed :=
  match ops with
  | [] => Ret f
  | o :: ops' => f' ← apply_op o f; run_ops ops' f'
  end.

(** The source delivers faithful segments, and a read ends only if it began. *)
Fixpoint ops_ok (h : list Envelope) (types : Types) (is_closed : bool) (n : Z)
    (ops : list feed_op) : Prop :=
  match ops with
  | [] => True
  | DoAppend seg :: ops' =>
      is_u64 (seg_begin seg) /\ seg_end seg < u64_modulus /\ faithful h types seg /\
      ops_ok h types is_closed n ops'
  | DoClose :: ops' => ops_ok h types true n ops'
  | DoStartRead :: ops' => ops_ok h types is_closed (if is_closed then n else n + 1) ops'
  | DoEndRead :: ops' => 0 < n /\ ops_ok h types is_closed (n - 1) ops'
  end.

(** Nothing happens to a feed once it is closed. *)
Definition settled (f f' : feed) : Prop :=
  closed f = true ->
  segment (cache f') = segment (cache f) /\ closed f' = true /\ reads f' <= reads f.

Lemma apply_op_ok sid types h lo hi o ops f :
  in_range sid lo hi h -> ID f = sid -> feed_types f = types -> feed_ok h f ->
  ops_ok h types (closed f) (reads f) (o :: ops) ->
  exists f1, apply_op o f = Ret f1 /\ feed_ok h f1 /\ ID f1 = sid /\ feed_types f1 = types /\
    ops_ok h types (closed f1) (reads f1) ops /\ settled f f1.
Proof.
  intros Hh Hid Hty Hok Hops. unfold settled. destruct o as [seg| | |]; cbn in *.
  - destruct Hops as (Hb & He & Hf & Hops). rewrite <- Hid in Hh. rewrite <- Hty in Hf.
    destruct (feed_Append_ok h lo hi f seg Hh Hok Hb He Hf) as (f1 & Ha & Hok1 & ? & ? & Hcl & _).
    exists f1. rewrite Hcl. pose proof Ha as Ha'. unfold Append in Ha'.
    destruct (closed f) eqn:Hcf.
    + injection Ha' as <-. split_and!; try done; congruence.
    + destruct (Cache.Append _ _ _ _); [|done]. injection Ha' as <-. cbn in *.
      split_and!; try done; congruence.
  - exists (Close f). destruct Hok. by split_and!.
  - unfold startRead. destruct Hok. destruct (closed f) eqn:Hcl.
    + exists f. rewrite Hcl. by split_and!.
    + eexists. split; [done|]. cbn. split_and!; try done; split; [done|cbn; lia].
  - destruct Hops as [Hn Hops]. destruct Hok. unfold endRead. rewrite decide_False by lia.
    eexists. split; [done|]. cbn.
    split_and!; try done; try (split; [done|cbn; lia]).
    intros ?. split_and!; done || lia.
Qed.

Lemma run_ops_ok sid types h lo hi : in_range sid lo hi h ->
  forall ops f, ID f = sid -> feed_types f = types -> feed_ok h f ->
  ops_ok h types (closed f) (reads f) ops ->
  exists f', run_ops ops f = Ret f' /\ feed_ok h f' /\ ID f' = sid /\ feed_types f' = types /\
    settled f f'.
Proof.
  intros Hh. induction ops as [|o ops IH]; intros f Hid Hty Hok Hops.
  { exists f. split_and!; try done; apply Hok. }
  destruct (apply_op_ok sid types h lo hi o ops f Hh Hid Hty Hok Hops)
    as (f1 & Ho & Hok1 & Hid1 & Hty1 & Hops1 & Hcl).
  destruct (IH f1 Hid1 Hty1 Hok1 Hops1) as (f' & Hr & Hok' & Hid' & Hty' & Hcl').
  exists f'. cbn. rewrite Ho. cbn. split_and!; try done.
  intros Hc. destruct (Hcl Hc) as (H1 & H2 & H3).
  destruct (Hcl' H2) as (H4 & H5 & H6). split_and!; [congruence|done|lia].
Qed.

(** However often the watch of the source begins again, at whatever offset,
    and whenever the feed is closed, [feed.Append] never violates the contract of
    the cache and the cached segment holds exactly the events of the stream that
    the feed carries, within its range; once the feed is closed, the cached
    segment no longer changes, no read begins, and [feed.Wait] returns when those
    in progress have ended. *)
Theorem feed_holds_the_stream sid types h lo hi cap begin c ops :
  in_range sid lo hi h -> is_u64 begin -> Cache.New cap begin = Ret c ->
  ops_ok h types false 0 ops ->
  exists f, run_ops ops (mkFeed sid types c false 0) = Ret f /\
    held sid h types (segment (cache f)) /\ 0 <= reads f /\
    (closed f = true -> forall ops' f', ops_ok h types true (reads f) ops' ->
       run_ops ops' f = Ret f' ->
       segment (cache f') = segment (cache f) /\ startRead f' = (f', false) /\ reads f' <= reads f).
Proof.
  intros Hh Hb Hnew Hops.
  assert (Hc : Cache.holds sid (carried types h) c).
  { unfold Cache.New in Hnew. case_decide; [done|]. injection Hnew as <-.
    apply Reset_holds_any; [cbn; lia|done]. }
  destruct (run_ops_ok sid types h lo hi Hh ops (mkFeed sid types c false 0)) as (f & Hf & Hok & Hid & Hty & _); try done.
  exists f. split_and!; [done| |apply Hok|].
  - exists (cache f). rewrite <- Hid, <- Hty. split; [done|apply Hok].
  - intros Hcl ops' f' Hops' Hr'. rewrite <- Hcl in Hops'.
    destruct (run_ops_ok sid types h lo hi Hh ops' f Hid Hty Hok Hops') as (f2 & Hr2 & _ & _ & _ & Hc2).
    rewrite Hr2 in Hr'. injection Hr' as <-. destruct (Hc2 Hcl) as (? & Hcl2 & ?).
    unfold startRead. by rewrite Hcl2.
Qed.

(** C13: a consumer of a feed is given the stream contiguously from the offset it
    begins at, whether its segments come from the cache or from reads of the
    source, whatever is appended, restarted or closed in the meantime, and every
    segment holds exactly the events of its types in its range; the offset that
    [feed.consume] returns is the end of the last segment that the callback
    accepted, and an error of the callback is returned unchanged. *)
Theorem feed_consume_contiguous sid h types ts turns begin {S} (fn : callback S) s :
  covers types ts -> Forall (turn_ok sid h types ts) turns ->
  exists o, consume sid ts turns begin fn s = Ret o /\
    match o with
    | Running s' cp _ => progressed sid h (Some ts) begin fn s s' cp None
    | Returned s' cp e => progressed sid h (Some ts) begin fn s s' cp (Some e)
    end.
Proof. intros Hcov Ht. by apply (consume_loop_ok sid h types ts Hcov fn turns Ht). Qed.

(** While the cached segment ends beyond the consumer's checkpoint, the feed
    is open, the source reaches the end of a stream that is longer than the
    checkpoint and the callback accepts what it is given, every iteration advances
    the checkpoint; an iteration that is served from the cache brings it to the
    end of the cached segment. *)
Theorem feed_consume_advances sid h types ts t end_ cp confirmed {S} (fn : callback S) s :
  covers types ts -> held sid h types (t_segment t) -> accepting fn ->
  cp < cs_end (t_segment t) -> cp < end_ -> t_can_start t = true -> t_closed t = false ->
  serves_until sid h (Some ts) cp end_ (t_Read t cp) ->
  (forall i, cp < cs_begin (t_segment t) -> cp < cs_begin (t_snap t i)) ->
  exists s' cp', consume_turn sid ts t fn s cp confirmed = Ret (Running s' cp' true) /\ cp < cp' /\
    (cs_begin (t_segment t) <= cp -> cp' = cs_end (t_segment t)).
Proof.
  intros Hcov Hheld Hacc Hend Hlen Hstart Hopen Hsrc Hsnap. unfold consume_turn.
  rewrite (held_Read sid h types ts Hcov _ _ Hheld). cbn -[between].
  case_decide as Hb; [|rewrite decide_False by lia].
  - unfold read. rewrite Hstart, Hopen.
    destruct (Hsrc _ (read_callback (t_snap t) fn) (s, cp, None, O)) as (segs & Hc & ->).
    destruct (read_callback_accepting sid h (Some ts) (t_snap t) fn segs Hacc s cp 0 end_ Hc)
      as (s' & cp' & i & err & -> & Hr).
    assert (Hadv : cp < cp').
    { destruct Hr as [[_ ->]|[_ [j Hj]]]; [done|]. specialize (Hsnap j Hb). lia. }
    exists s', cp'. destruct Hr as [[-> _]|[-> _]]; cbn -[decide];
      rewrite ?(bool_decide_eq_true_2 (errCaughtUp = errCaughtUp)) by done; rewrite decide_False by lia; (split_and!; [done|done|lia]).
  - set (seg := mkSegment _ _ _ _). specialize (Hacc s seg).
    destruct (fn s seg) as [s' [e|]]; [done|]. eexists _, _. by split_and!.
Qed.

(** The outcome of a read from the source on every branch: a feed that is
    closed is not read; an error of the callback is returned unchanged even if the
    feed was closed during the read; a consumer that has caught up with the cache
    is not an error; a feed that was closed is reported as such; a stream that is
    not recognized, an offset beyond its end and an invalid segment are
    persistent, and other errors are returned unchanged. *)
Theorem feed_read_errors sid h types cp r snap is_closed {S} (fn : callback S) s s' cp' err :
  serves sid h types cp r -> read true r snap is_closed cp fn s = (s', cp', err) ->
  (exists segs s1 seg e, deliver fn s segs = (s1, None) /\ fn s1 seg = (s', Some e) /\ err = Some e) \/
  (exists segs, deliver fn s segs = (s', None) /\
    (err = None \/ (is_closed = true /\ err = Some (Sentinel errFeedClosed)) \/
     exists e, is_closed = false /\
       ((err = Some (Persistent e) /\ (Is e ErrUnrecognizedStream || Is e ErrOffsetOutOfRange
                                        || Is e ErrInvalidSegment) = true) \/
        (err = Some e /\ (Is e ErrUnrecognizedStream || Is e ErrOffsetOutOfRange
                           || Is e ErrInvalidSegment) = false)))).
Proof.
  intros Hr. unfold read.
  destruct (Hr _ (read_callback snap fn) (s, cp, None, O)) as (segs & e & serr & Hc & ->).
  destruct (read_callback_outcome snap fn segs s cp O) as (s1 & cp1 & fnErr & i1 & derr & -> & Hx).
  assert (Hfin : exists serr', finish ((s1, cp1, fnErr, i1), derr) serr = ((s1, cp1, fnErr, i1), serr'))
    by (destruct derr; cbn; eauto). destruct Hfin as [serr' ->].
  destruct fnErr as [e1|].
  { intros [= <- <- <-]. left. destruct Hx as (l & t & sg & ? & ?). by exists l, t, sg, e1. }
  destruct Hx as [l Hl]. intros Heq. right. exists l. revert Heq.
  destruct (IsOpt serr' errCaughtUp); [intros [= <- <- <-]; auto|].
  destruct is_closed; [intros [= <- <- <-]; auto|].
  destruct serr' as [e1|]; [|intros [= <- <- <-]; auto].
  destruct (_ || _ || _) eqn:Hp; intros [= <- <- <-]; (split; [done|]); right; right; exists e1; auto.
Qed.

Section example.
Definition example_h : list Envelope := [event 7 0 1; event 7 1 2; event 7 2 1; event 7 4 1].
Definition example_ts : gset UUID := {[1%N]}.
Definition example_cs : CSegment := Cache.mkCSegment 2 5 [event 7 2 1; event 7 4 1].

Lemma example_in_range : in_range 7 0 5 example_h.
Proof. cbn. split_and!; done || lia. Qed.

Lemma example_held : held 7 example_h None example_cs.
Proof.
  exists (Cache.mkCache 2 example_cs). split; [done|]. split; [|done].
  unfold Cache.cache_wf. cbn. split_and!; done || lia.
Qed.

Definition example_Read (cp : Z) : Reader :=
  fun S fn s => if decide (cp <= 5) then deliver fn s [whole 7 example_h (Some example_ts) cp 5]
                else (s, Some (Sentinel ErrOffsetOutOfRange)).

Lemma example_serves cp : serves 7 example_h (Some example_ts) cp (example_Read cp).
Proof.
  intros S fn s. unfold example_Read. case_decide.
  - exists [whole 7 example_h (Some example_ts) cp 5], 5, None.
    split; [by apply chain_whole|]. by rewrite finish_None.
  - exists [], cp, (Some (Sentinel ErrOffsetOutOfRange)). split; [constructor|done].
Qed.

Definition example_turn : turn :=
  mkTurn example_cs true example_Read (fun _ => example_cs) false Changed.
End example.

Lemma feed_holds_the_stream_witness :
  exists f, run_ops [DoAppend (mkSegment 7 0 3 [event 7 0 1; event 7 1 2; event 7 2 1]);
      DoStartRead; DoAppend (mkSegment 7 4 5 [event 7 4 1]); DoClose; DoEndRead]
      (mkFeed 7 None (Cache.mkCache 2 (Cache.mkCSegment 0 0 [])) false 0) = Ret f /\
    held 7 example_h None (segment (cache f)) /\ segment (cache f) = Cache.mkCSegment 4 5 [event 7 4 1].
Proof.
  destruct (feed_holds_the_stream 7 None example_h 0 5 2 0 (Cache.mkCache 2 (Cache.mkCSegment 0 0 []))
    [DoAppend (mkSegment 7 0 3 [event 7 0 1; event 7 1 2; event 7 2 1]);
      DoStartRead; DoAppend (mkSegment 7 4 5 [event 7 4 1]); DoClose; DoEndRead])
    as (f & Hr & Hh & _).
  - exact example_in_range.
  - by vm_compute.
  - reflexivity.
  - cbn -[faithful]. split_and!; try done; by vm_compute.
  - exists f. split_and!; [exact Hr|exact Hh|]. vm_compute in Hr. by injection Hr as <-.
Defined.

Lemma feed_consume_contiguous_witness :
  exists o, consume 7 example_ts [example_turn; example_turn] 1 recorder [] = Ret o /\
    match o with
    | Running s' cp _ => progressed 7 example_h (Some example_ts) 1 recorder [] s' cp None /\ cp = 5
    | Returned s' cp e => False
    end.
Proof.
  destruct (feed_consume_contiguous 7 example_h None example_ts [example_turn; example_turn] 1
    recorder []) as (o & Ho & Hp).
  - by intros ty _.
  - repeat constructor; try exact example_held; exact example_serves.
  - exists o. split; [exact Ho|]. vm_compute in Ho. injection Ho as <-. by split.
Defined.

Lemma feed_consume_advances_witness :
  exists s' cp', consume_turn 7 example_ts example_turn recorder [] 1 false
      = Ret (Running s' cp' true) /\ 1 < cp'.
Proof.
  destruct (feed_consume_advances 7 example_h None example_ts example_turn 5 1 false recorder [])
    as (s' & cp' & H1 & H2 & _); try done; try (cbn; lia).
  - exact example_held.
  - intros S fn s. exists [whole 7 example_h (Some example_ts) 1 5]. split; [by apply chain_whole|done].
  - by exists s', cp'.
Defined.

Lemma feed_read_errors_witness :
  exists e, read true (example_Read 9) (fun _ => example_cs) false 9 recorder []
    = ([], 9, Some (Persistent e)) /\ Is e ErrOffsetOutOfRange = true.
Proof.
  destruct (feed_read_errors 7 example_h (Some example_ts) 9 (example_Read 9) (fun _ => example_cs)
    false recorder [] [] 9 (Some (Persistent (Sentinel ErrOffsetOutOfRange))) (example_serves 9))
    as [(segs & s1 & seg & e & _ & Hf & _)|_].
  - reflexivity.
  - done.
  - exists (Sentinel ErrOffsetOutOfRange). split; reflexivity.
Defined.
