(* ===== verification/Catalog.v ===== *)
(** * The catalog of event streams

    Models [internal/eventstream/catalog.go].  Feeds and catalog streams are
    objects on a heap, because a consumer keeps its pointer to a catalog stream
    after the stream has left the catalog.  The observables are modelled by their
    values; the operations hold the catalog's mutex, and so are functions. *)

From S2P Require Import Prelude Errors Stream Source.
From S2P Require Cache Feed.
Import Feed (feed, ID, feed_types, cache, closed, turn, feed_ok, covers, turn_ok, outcome,
  Running, Returned).

(** ** State *)

(** catalogStream. *)
Record catalogStream := mkStream {
  AvailableFeeds : gset nat;
  CurrentFeed : option nat;
}.

Record Catalog := mkCatalog {
  CacheSize : Z;
  streams : gmap UUID nat;              (* pointers to objects *)
  objects : gmap nat catalogStream;
  feeds : gmap nat feed;
  streamIDs : option (gset UUID);       (* nil until a set is published *)
}.

(** ** Operations *)

(** [publish]. *)
Definition publish (id : UUID) (present : bool) (c : Catalog) : Catalog :=
  let prev := default ∅ (streamIDs c) in
  if decide (bool_decide (id ∈ prev) = present) then c
  else mkCatalog (CacheSize c) (streams c) (objects c) (feeds c)
         (Some (if present then {[id]} ∪ prev else prev ∖ {[id]})).

(** Stores a catalog stream at its address. *)
Definition put (p : nat) (cs : catalogStream) (c : Catalog) : Catalog :=
  mkCatalog (CacheSize c) (streams c) (<[p := cs]> (objects c)) (feeds c) (streamIDs c).

(** [add], where [fp] and [sp] are the addresses of the objects it creates. *)
Definition add (fp sp : nat) (id : UUID) (types : Types) (begin : Z) (c : Catalog) : go Catalog :=
  cache ← Cache.New (CacheSize c) begin;
  let f := Feed.mkFeed id types cache false 0 in
  let c := mkCatalog (CacheSize c) (streams c) (objects c) (<[fp := f]> (feeds c)) (streamIDs c) in
  let '(p, c) :=
    match streams c !! id with
    | Some p => (p, c)
    | None =>
        (sp, put sp (mkStream ∅ None)
               (mkCatalog (CacheSize c) (<[id := sp]> (streams c)) (objects c) (feeds c)
                  (streamIDs c)))
    end in
  match objects c !! p with
  | None => Panic "nil pointer dereference"
  | Some cs =>
      let available := {[fp]} ∪ AvailableFeeds cs in
      Ret (if decide (size available = 1%nat)
           then publish id true (put p (mkStream available (Some fp)) c)
           else put p (mkStream available (CurrentFeed cs)) c)
  end.

(** [remove]; [pick] is the key at which the iteration over the available feeds
    begins, if there are any. *)
Definition remove (pick : gset nat -> option nat) (fp : nat) (c : Catalog) : go Catalog :=
  match feeds c !! fp with
  | None => Panic "nil pointer dereference"
  | Some f =>
      match (p ← streams c !! ID f; cs ← objects c !! p; Some (p, cs)) with
      | None => Panic "nil pointer dereference"
      | Some (p, cs) =>
          let available := AvailableFeeds cs ∖ {[fp]} in
          let c :=
            if decide (CurrentFeed cs = Some fp) then
              let next := pick available in
              let c := put p (mkStream available next) c in
              match next with
              | Some _ => c
              | None =>
                  publish (ID f) false
                    (mkCatalog (CacheSize c) (delete (ID f) (streams c)) (objects c) (feeds c)
                       (streamIDs c))
              end
            else put p (mkStream available (CurrentFeed cs)) c in
          Ret (mkCatalog (CacheSize c) (streams c) (objects c) (<[fp := Feed.Close f]> (feeds c))
                 (streamIDs c))
      end
  end.

(** ** Watching a source

    [own] is the map that a call to [Catalog.Watch] keeps of its own feeds. *)

(** [feedFor] followed by [feed.Append]: the callback given to [Source.Watch]. *)
Definition deliver (fp sp : nat) (types : Types) (seg : Segment) (own : gmap UUID nat)
    (c : Catalog) : go (gmap UUID nat * Catalog) :=
  '(own, p, c) ←
    match own !! seg_stream seg with
    | Some p => Ret (own, p, c)
    | None =>
        c' ← add fp sp (seg_stream seg) types (seg_begin seg) c;
        Ret (<[seg_stream seg := fp]> own, fp, c')
    end;
  match feeds c !! p with
  | None => Panic "nil pointer dereference"
  | Some f =>
      f' ← Feed.Append seg f;
      Ret (own, mkCatalog (CacheSize c) (streams c) (objects c) (<[p := f']> (feeds c)) (streamIDs c))
  end.

(** The function deferred by [Catalog.Watch]: removes its feeds from the catalog.
    (It then waits for each of them.) *)
Fixpoint remove_all (pick : gset nat -> option nat) (ps : list nat) (c : Catalog) : go Catalog :=
  match ps with
  | [] => Ret c
  | p :: ps' => c' ← remove pick p c; remove_all pick ps' c'
  end.

(** What the supervised function does when [Source.Watch] has returned [err]:
    [None] is that it watches the source again. *)
Definition watch_returned (ctx_err err : option error) : option (option error) :=
  if IsOpt err ErrConsumerTooSlow then None
  else
    match err with
    | Some e =>
        if Is e ErrUnsupported || Is e ErrInvalidSegment then Some (Some (Persistent e))
        else Some (Some e)
    | None =>
        match ctx_err with
        | None => Some (Some (Opaque "source stopped watching before the context was canceled"))
        | Some _ => Some None
        end
    end.

(** ** Consuming

    One iteration of the loop of [Catalog.Consume]: the current feed, if there is
    one, what [feed.consume] observes while the consumer is served from it, and
    the context's error when it returns. *)
Record round := mkRound {
  r_current : option Types;        (* the types that the current feed carries *)
  r_turns : list turn;
  r_ctx_err : option error;
}.

(** A set difference with the feed's types that is not empty is a panic. *)
Definition unwatched (types : gset UUID) (carried : Types) : bool :=
  match carried with
  | None => false
  | Some ts => bool_decide (types ∖ ts <> ∅)
  end.

Fixpoint Consume_loop {S} (sid : UUID) (types : gset UUID) (rounds : list round) (fn : callback S)
    (s : S) (cp : Z) : go (outcome S) :=
  match rounds with
  | [] => Ret (Running s cp false)
  | r :: rounds' =>
      match r_current r with
      | None => Ret (Returned s cp (Sentinel ErrStreamNotFound))
      | Some carried =>
          if unwatched types carried then Panic "event stream is not watched for message types"
          else
            o ← Feed.consume sid types (r_turns r) cp fn s;
            match o with
            | Running _ _ _ => Ret o
            | Returned s' cp' err =>
                if Is err errFeedClosed then
                  match r_ctx_err r with
                  | Some e => Ret (Returned s' cp' e)
                  | None => Consume_loop sid types rounds' fn s' cp'
                  end
                else Ret (Returned s' cp' err)
            end
      end
  end.

(** [Catalog.Consume]; [known] is whether the catalog has the stream. *)
Definition Consume {S} (known : bool) (sid : UUID) (types : gset UUID) (rounds : list round)
    (begin : Z) (fn : callback S) (s : S) : go (outcome S) :=
  if decide (types = ∅) then Panic "message types must not be empty"
  else if known then Consume_loop sid types rounds fn s begin
  else Ret (Returned s begin (Sentinel ErrStreamNotFound)).

(** ** Invariant *)

Record wf (c : Catalog) : Prop := mkWf {
  wf_ids : default ∅ (streamIDs c) = dom (streams c);
  wf_streams : forall sid p, streams c !! sid = Some p ->
    exists cs f, objects c !! p = Some cs /\ CurrentFeed cs = Some f /\ f ∈ AvailableFeeds cs /\
      forall g, g ∈ AvailableFeeds cs ->
        exists fd, feeds c !! g = Some fd /\ ID fd = sid /\ closed fd = false;
  wf_inj : forall sid sid' p, streams c !! sid = Some p -> streams c !! sid' = Some p -> sid = sid';
  wf_stale : forall p cs, objects c !! p = Some cs -> (forall sid, streams c !! sid <> Some p) ->
    CurrentFeed cs = None;
  wf_open : forall g fd, feeds c !! g = Some fd -> closed fd = false ->
    exists p cs, streams c !! ID fd = Some p /\ objects c !! p = Some cs /\ g ∈ AvailableFeeds cs;
}.

(** The iteration over a map begins at one of its keys, if it has any. *)
Definition picks (pick : gset nat -> option nat) : Prop :=
  forall X, match pick X with Some x => x ∈ X | None => X = ∅ end.

Lemma publish_ids id present c :
  default ∅ (streamIDs (publish id present c))
  = if present then {[id]} ∪ default ∅ (streamIDs c) else default ∅ (streamIDs c) ∖ {[id]}.
Proof.
  unfold publish. case_decide as Hd; [|done]. subst present. cbn. case_bool_decide; set_solver.
Qed.

Lemma publish_rest id present c :
  streams (publish id present c) = streams c /\ objects (publish id present c) = objects c /\
  feeds (publish id present c) = feeds c /\ CacheSize (publish id present c) = CacheSize c.
Proof. unfold publish. by case_decide. Qed.

(** ** Adding a feed *)

Section add.
Context (c : Catalog) (fp sp : nat) (id : UUID) (f : feed).
Context (Hwf : wf c) (Hfp : feeds c !! fp = None) (Hsp : objects c !! sp = None).
Context (Hid : ID f = id) (Hopen : closed f = false).

(** The catalog has the stream: the feed becomes available. *)
Lemma add_known p cs :
  streams c !! id = Some p -> objects c !! p = Some cs ->
  size ({[fp]} ∪ AvailableFeeds cs) <> 1%nat /\
  wf (put p (mkStream ({[fp]} ∪ AvailableFeeds cs) (CurrentFeed cs))
        (mkCatalog (CacheSize c) (streams c) (objects c) (<[fp := f]> (feeds c)) (streamIDs c))).
Proof using Hwf Hfp Hid Hopen.
  clear sp Hsp. intros Hp Hcs. destruct (wf_streams c Hwf id p Hp) as (cs' & g & Hcs' & Hcur & Hg & Hall).
  rewrite Hcs in Hcs'. injection Hcs' as <-.
  assert (Hne : forall g', g' ∈ AvailableFeeds cs -> g' <> fp).
  { intros g' Hg' ->. destruct (Hall fp Hg') as (fd & Hfd & _). congruence. }
  split.
  { rewrite size_union, size_singleton; [|set_solver].
    intros Hsz. assert (size (AvailableFeeds cs) = 0%nat) as Hz by lia.
    apply size_empty_inv in Hz. set_solver. }
  split; cbn.
  - apply Hwf.
  - intros sid q Hq. destruct (decide (sid = id)) as [->|Hsid].
    + rewrite Hp in Hq. injection Hq as <-. rewrite lookup_insert_eq. eexists _, g.
      split_and!; [done|done|cbn; set_solver|]. cbn. intros g' Hg'.
      destruct (decide (g' = fp)) as [->|Hg'ne].
      * rewrite lookup_insert_eq. by exists f.
      * rewrite lookup_insert_ne by done. apply Hall. set_solver.
    + destruct (wf_streams c Hwf sid q Hq) as (csq & gq & Hcsq & Hcurq & Hgq & Hallq).
      rewrite lookup_insert_ne by (intros <-; apply Hsid; by apply (wf_inj c Hwf sid id p)).
      exists csq, gq. split_and!; try done. intros g' Hg'. destruct (Hallq g' Hg') as (fd & Hfd & ?).
      exists fd. by rewrite lookup_insert_ne by congruence.
  - apply Hwf.
  - intros q csq Hq Hst. destruct (decide (q = p)) as [->|Hqp]; [by destruct (Hst id)|].
    rewrite lookup_insert_ne in Hq by done. by apply (wf_stale c Hwf q).
  - intros g' fd Hg' Hcl. destruct (decide (g' = fp)) as [->|Hg'ne].
    + rewrite lookup_insert_eq in Hg'. injection Hg' as <-. rewrite Hid. exists p. eexists.
      rewrite lookup_insert_eq. split_and!; [done|done|cbn; set_solver].
    + rewrite lookup_insert_ne in Hg' by done.
      destruct (wf_open c Hwf g' fd Hg' Hcl) as (q & csq & Hq & Hcsq & Hin).
      exists q. destruct (decide (q = p)) as [->|Hqp].
      * rewrite lookup_insert_eq. eexists. split_and!; [done|done|]. cbn.
        rewrite Hcs in Hcsq. injection Hcsq as <-. set_solver.
      * rewrite lookup_insert_ne by done. eauto.
Qed.

(** The catalog does not have the stream: it is added, with the feed current. *)
Lemma add_new :
  streams c !! id = None ->
  wf (publish id true (put sp (mkStream {[fp]} (Some fp))
        (mkCatalog (CacheSize c) (<[id := sp]> (streams c)) (objects c) (<[fp := f]> (feeds c))
           (streamIDs c)))).
Proof using Hwf Hfp Hsp Hid Hopen.
  intros Hnew. set (c1 := put _ _ _).
  destruct (publish_rest id true c1) as (Hs & Ho & Hf & _).
  assert (Hnotsp : forall sid q, streams c !! sid = Some q -> q <> sp).
  { intros sid q Hq ->. destruct (wf_streams c Hwf sid sp Hq) as (? & ? & ? & _). congruence. }
  split; rewrite ?publish_ids, ?Hs, ?Ho, ?Hf; unfold c1; cbn.
  - rewrite dom_insert_L. f_equal. apply Hwf.
  - intros sid q Hq. destruct (decide (sid = id)) as [->|Hsid].
    + rewrite lookup_insert_eq in Hq. injection Hq as <-. rewrite lookup_insert_eq. eexists _, fp.
      split_and!; [done|done|cbn; set_solver|]. cbn. intros g' ->%elem_of_singleton.
      rewrite lookup_insert_eq. by exists f.
    + rewrite lookup_insert_ne in Hq by done.
      destruct (wf_streams c Hwf sid q Hq) as (csq & gq & Hcsq & Hcurq & Hgq & Hallq).
      rewrite lookup_insert_ne by (intros ->; by apply (Hnotsp sid q)).
      exists csq, gq. split_and!; try done. intros g' Hg'. destruct (Hallq g' Hg') as (fd & Hfd & ?).
      exists fd. by rewrite lookup_insert_ne by congruence.
  - intros sid sid' q Hq Hq'. rewrite lookup_insert_Some in Hq, Hq'.
    destruct Hq as [[<- <-]|[? Hq]], Hq' as [[<- Hx]|[? Hq']]; try done.
    + by destruct (Hnotsp sid' sp).
    + subst. by destruct (Hnotsp sid q).
    + by apply (wf_inj c Hwf sid sid' q).
  - intros q csq Hq Hst. destruct (decide (q = sp)) as [->|Hqp].
    { destruct (Hst id). by rewrite lookup_insert_eq. }
    rewrite lookup_insert_ne in Hq by done. apply (wf_stale c Hwf q); [done|]. intros sid Hsid.
    apply (Hst sid). rewrite lookup_insert_ne; [done|]. intros <-. congruence.
  - intros g' fd Hg' Hcl. destruct (decide (g' = fp)) as [->|Hg'ne].
    + rewrite lookup_insert_eq in Hg'. injection Hg' as <-. rewrite Hid. exists sp. eexists.
      rewrite !lookup_insert_eq. split_and!; [done|done|cbn; set_solver].
    + rewrite lookup_insert_ne in Hg' by done.
      destruct (wf_open c Hwf g' fd Hg' Hcl) as (q & csq & Hq & Hcsq & Hin).
      exists q, csq. rewrite (lookup_insert_ne (streams c)) by (intros Hx; rewrite <- Hx in Hq; congruence).
      by rewrite lookup_insert_ne by (intros Hx; by apply (Hnotsp (ID fd) q)).
Qed.
End add.

Lemma add_wf c fp sp id types begin :
  wf c -> 0 < CacheSize c -> feeds c !! fp = None -> objects c !! sp = None ->
  exists c' f, add fp sp id types begin c = Ret c' /\ wf c' /\ CacheSize c' = CacheSize c /\
    feeds c' = <[fp := f]> (feeds c) /\ ID f = id /\ feed_types f = types /\ closed f = false /\
    Cache.New (CacheSize c) begin = Ret (cache f) /\ Feed.reads f = 0 /\
    dom (streams c') = {[id]} ∪ dom (streams c).
Proof.
  intros Hwf Hsize Hfp Hsp. unfold add, Cache.New. rewrite decide_False by lia. cbn.
  set (f := Feed.mkFeed id types _ false 0).
  destruct (streams c !! id) as [p|] eqn:Hp.
  - destruct (wf_streams c Hwf id p Hp) as (cs & g & Hcs & _). cbn. rewrite Hcs.
    destruct (add_known c fp id f Hwf Hfp eq_refl eq_refl p cs Hp Hcs) as [Hne Hwf'].
    rewrite decide_False by done. eexists _, f. split_and!; try done. cbn.
    assert (id ∈ dom (streams c)) by (by eapply elem_of_dom_2). set_solver.
  - cbn. rewrite lookup_insert_eq. cbn. rewrite union_empty_r_L, size_singleton, decide_True by done.
    eexists _, f. split; [done|]. unfold put. cbn. rewrite insert_insert_eq.
    pose proof (add_new c fp sp id f Hwf Hfp Hsp eq_refl eq_refl Hp) as Hwf'.
    unfold put in Hwf'. cbn in Hwf'.
    destruct (publish_rest id true (mkCatalog (CacheSize c) (<[id:=sp]> (streams c))
      (<[sp:=mkStream {[fp]} (Some fp)]> (objects c)) (<[fp:=f]> (feeds c)) (streamIDs c)))
      as (Hs & Ho & Hf & Hc). rewrite Hs, Hf, Hc. split_and!; try done. cbn. by rewrite dom_insert_L.
Qed.

(** ** Removing a feed *)

Section remove.
Context (c : Catalog) (fp p : nat) (f : feed) (cs : catalogStream).
Context (Hwf : wf c) (Hfp : feeds c !! fp = Some f) (Hopen : closed f = false).
Context (Hp : streams c !! ID f = Some p) (Hcs : objects c !! p = Some cs).
Context (Hin : fp ∈ AvailableFeeds cs).

Let feeds' := <[fp := Feed.Close f]> (feeds c).

(** The feeds of other streams are as before. *)
Lemma remove_others sid q csq g :
  sid <> ID f -> streams c !! sid = Some q -> objects c !! q = Some csq -> g ∈ AvailableFeeds csq ->
  q <> p /\ exists fd, feeds' !! g = Some fd /\ ID fd = sid /\ closed fd = false.
Proof using Hwf Hfp Hp.
  clear Hcs Hin. intros Hsid Hq Hcsq Hg. split.
  { intros ->. apply Hsid. by apply (wf_inj c Hwf sid (ID f) p). }
  destruct (wf_streams c Hwf sid q Hq) as (cs' & _ & Hcs' & _ & _ & Hall).
  rewrite Hcsq in Hcs'. injection Hcs' as <-. destruct (Hall g Hg) as (fd & Hfd & Hid & Hcl).
  exists fd. unfold feeds'. rewrite lookup_insert_ne; [done|]. intros <-. congruence.
Qed.

(** The other feeds of the stream are as before. *)
Lemma remove_siblings g :
  g ∈ AvailableFeeds cs ∖ {[fp]} ->
  exists fd, feeds' !! g = Some fd /\ ID fd = ID f /\ closed fd = false.
Proof using Hwf Hp Hcs.
  clear Hin Hfp Hopen. intros Hg. destruct (wf_streams c Hwf (ID f) p Hp) as (cs' & _ & Hcs' & _ & _ & Hall).
  rewrite Hcs in Hcs'. injection Hcs' as <-. destruct (Hall g ltac:(set_solver)) as (fd & Hfd & ?).
  exists fd. unfold feeds'. rewrite lookup_insert_ne; [done|]. set_solver.
Qed.

(** An open feed is available from its stream. *)
Lemma remove_open g fd :
  feeds' !! g = Some fd -> closed fd = false ->
  exists q csq, streams c !! ID fd = Some q /\ objects c !! q = Some csq /\
    g ∈ AvailableFeeds csq ∖ {[fp]}.
Proof using Hwf.
  clear Hin Hcs Hp Hfp Hopen. intros Hg Hcl. unfold feeds' in Hg. rewrite lookup_insert_Some in Hg.
  destruct Hg as [[_ <-]|[Hne Hg]]; [done|].
  destruct (wf_open c Hwf g fd Hg Hcl) as (q & csq & ? & ? & ?). exists q, csq. set_solver.
Qed.

(** Another feed is current, or takes over. *)
Lemma remove_keep cur :
  cur ∈ AvailableFeeds cs ∖ {[fp]} ->
  wf (mkCatalog (CacheSize c) (streams c)
        (<[p := mkStream (AvailableFeeds cs ∖ {[fp]}) (Some cur)]> (objects c)) feeds' (streamIDs c)).
Proof using Hwf Hfp Hp Hcs.
  clear Hin Hopen. intros Hcur. split; cbn.
  - apply Hwf.
  - intros sid q Hq. destruct (decide (sid = ID f)) as [->|Hsid].
    + rewrite Hp in Hq. injection Hq as <-. rewrite lookup_insert_eq. eexists _, cur.
      split_and!; [done|done|done|]. apply remove_siblings.
    + destruct (wf_streams c Hwf sid q Hq) as (csq & gq & Hcsq & Hcurq & Hgq & _).
      destruct (remove_others sid q csq gq Hsid Hq Hcsq Hgq) as [Hne _].
      rewrite lookup_insert_ne by done. exists csq, gq. split_and!; try done. intros g Hg.
      by apply (remove_others sid q csq g).
  - apply Hwf.
  - intros q csq Hq Hst. destruct (decide (q = p)) as [->|Hqp]; [by destruct (Hst (ID f))|].
    rewrite lookup_insert_ne in Hq by done. by apply (wf_stale c Hwf q).
  - intros g fd Hg Hcl. destruct (remove_open g fd Hg Hcl) as (q & csq & Hq & Hcsq & Hgin).
    exists q. destruct (decide (q = p)) as [->|Hqp].
    + rewrite lookup_insert_eq. eexists. split_and!; [done|done|]. cbn.
      rewrite Hcs in Hcsq. by injection Hcsq as <-.
    + rewrite lookup_insert_ne by done. exists csq. set_solver.
Qed.

(** It was the last feed of its stream, which leaves the catalog. *)
Lemma remove_last :
  AvailableFeeds cs ∖ {[fp]} = ∅ ->
  wf (mkCatalog (CacheSize c) (delete (ID f) (streams c))
        (<[p := mkStream (AvailableFeeds cs ∖ {[fp]}) None]> (objects c)) feeds'
        (Some (dom (streams c) ∖ {[ID f]}))).
Proof using Hwf Hfp Hp Hcs.
  clear Hin Hopen. intros Hemp. split; cbn.
  - by rewrite dom_delete_L.
  - intros sid q [Hsid Hq]%lookup_delete_Some.
    destruct (wf_streams c Hwf sid q Hq) as (csq & gq & Hcsq & Hcurq & Hgq & _).
    destruct (remove_others sid q csq gq (not_eq_sym Hsid) Hq Hcsq Hgq) as [Hne _].
    rewrite lookup_insert_ne by done. exists csq, gq. split_and!; try done. intros g Hg.
    by apply (remove_others sid q csq g).
  - intros sid sid' q [_ Hq]%lookup_delete_Some [_ Hq']%lookup_delete_Some.
    by apply (wf_inj c Hwf sid sid' q).
  - intros q csq Hq Hst. destruct (decide (q = p)) as [->|Hqp].
    { rewrite lookup_insert_eq in Hq. by injection Hq as <-. }
    rewrite lookup_insert_ne in Hq by done. apply (wf_stale c Hwf q); [done|].
    intros sid Hsid. apply (Hst sid). apply lookup_delete_Some. split; [|done].
    intros <-. congruence.
  - intros g fd Hg Hcl. destruct (remove_open g fd Hg Hcl) as (q & csq & Hq & Hcsq & Hgin).
    assert (Hne : ID f <> ID fd).
    { intros Heq. rewrite <- Heq, Hp in Hq. injection Hq as <-. rewrite Hcs in Hcsq.
      injection Hcsq as <-. by rewrite Hemp in Hgin. }
    exists q, csq. rewrite lookup_delete_ne by done.
    rewrite lookup_insert_ne; [set_solver|]. intros <-. apply Hne.
    by apply (wf_inj c Hwf _ _ p).
Qed.
End remove.

(** [remove] of a feed that has not been removed. *)
Lemma remove_wf pick c fp f :
  picks pick -> wf c -> feeds c !! fp = Some f -> closed f = false ->
  exists c', remove pick fp c = Ret c' /\ wf c' /\ CacheSize c' = CacheSize c /\
    feeds c' = <[fp := Feed.Close f]> (feeds c) /\
    (forall sid, sid <> ID f -> streams c' !! sid = streams c !! sid).
Proof.
  intros Hpick Hwf Hfp Hopen. unfold remove. rewrite Hfp.
  destruct (wf_open c Hwf fp f Hfp Hopen) as (p & cs & Hp & Hcs & Hin). rewrite Hp. cbn.
  rewrite Hcs. cbn. destruct (wf_streams c Hwf _ _ Hp) as (cs' & cur & Hcs' & Hcur & Hcurin & _).
  rewrite Hcs in Hcs'. injection Hcs' as <-. rewrite Hcur.
  case_decide as Hd.
  - specialize (Hpick (AvailableFeeds cs ∖ {[fp]})).
    destruct (pick (AvailableFeeds cs ∖ {[fp]})) as [n|] eqn:Hn.
    + eexists. split; [done|]. split_and!; try done.
      exact (remove_keep c fp p f cs Hwf Hfp Hp Hcs n Hpick).
    + eexists. split; [done|].
      match goal with |- context [publish (ID f) false ?x] => set (c1 := x) end.
      destruct (publish_rest (ID f) false c1) as (Hs & Ho & Hf & Hsz).
      rewrite Hs, Ho, Hf, Hsz. cbn. split_and!; try done.
      * assert (Hids : streamIDs (publish (ID f) false c1) = Some (dom (streams c) ∖ {[ID f]})).
        { assert (Hin' : ID f ∈ default ∅ (streamIDs c1))
            by (cbn; rewrite (wf_ids c Hwf); by eapply elem_of_dom_2).
          unfold publish. rewrite bool_decide_eq_true_2, decide_False by done. cbn.
          by rewrite (wf_ids c Hwf). }
        rewrite Hids. exact (remove_last c fp p f cs Hwf Hfp Hp Hcs Hpick).
      * intros sid Hsid. by rewrite lookup_delete_ne.
  - eexists. split; [done|]. split_and!; try done.
    apply (remove_keep c fp p f cs Hwf Hfp Hp Hcs cur). set_solver.
Qed.

(** ** The catalog and the calls to [Watch] *)

Section system.
Context (pick : gset nat -> option nat) (Hpick : picks pick).
Context (h : UUID -> list Envelope) (hi : Z).
Context (Hh : forall sid, in_range sid 0 hi (h sid)) (Hhi : hi < u64_modulus).

(** The calls to [Catalog.Watch] that are in progress, each with its own feeds
    and the types it watches for. *)
Record System := mkSystem { catalog : Catalog; watches : gmap nat (gmap UUID nat * Types) }.

(** The feeds that a call removes when it ends. *)
Definition own_feeds (own : gmap UUID nat) : list nat := (map_to_list own).*2.

(** A segment that a source may deliver. *)
Definition segment_ok (types : Types) (seg : Segment) : Prop :=
  0 <= seg_begin seg /\ seg_end seg <= hi /\ faithful (h (seg_stream seg)) types seg.

Inductive step (y : System) : System -> Prop :=
| step_begin w types :
    watches y !! w = None ->
    step y (mkSystem (catalog y) (<[w := (∅, types)]> (watches y)))
| step_deliver w own types fp sp seg own' c' :
    watches y !! w = Some (own, types) -> segment_ok types seg ->
    feeds (catalog y) !! fp = None -> objects (catalog y) !! sp = None ->
    deliver fp sp types seg own (catalog y) = Ret (own', c') ->
    step y (mkSystem c' (<[w := (own', types)]> (watches y)))
| step_end w own types c' :
    watches y !! w = Some (own, types) ->
    remove_all pick (own_feeds own) (catalog y) = Ret c' ->
    step y (mkSystem c' (delete w (watches y))).

Definition initial (size : Z) : System := mkSystem (mkCatalog size ∅ ∅ ∅ None) ∅.

(** An open feed of a call. *)
Definition owned (c : Catalog) (sid : UUID) (types : Types) (p : nat) : Prop :=
  exists f, feeds c !! p = Some f /\ ID f = sid /\ feed_types f = types /\ closed f = false /\
    feed_ok (h sid) f.

Record inv (y : System) : Prop := mkInv {
  inv_wf : wf (catalog y);
  inv_size : 0 < CacheSize (catalog y);
  inv_owned : forall w own types sid p, watches y !! w = Some (own, types) -> own !! sid = Some p ->
    owned (catalog y) sid types p;
  inv_disjoint : forall w own types w' own' types' sid sid' p,
    watches y !! w = Some (own, types) -> watches y !! w' = Some (own', types') ->
    own !! sid = Some p -> own' !! sid' = Some p -> w = w';
  inv_owner : forall p f, feeds (catalog y) !! p = Some f -> closed f = false ->
    exists w own types, watches y !! w = Some (own, types) /\ own !! ID f = Some p;
}.

Lemma new_feed_ok sid types size begin f :
  ID f = sid -> feed_types f = types -> Cache.New size begin = Ret (cache f) -> is_u64 begin ->
  0 <= Feed.reads f -> feed_ok (h sid) f.
Proof.
  intros Hid Hty Hnew Hb Hr. split; [|done]. unfold Cache.New in Hnew. case_decide; [done|].
  injection Hnew as <-. apply Feed.Reset_holds_any; [cbn; lia|done].
Qed.

(** Appending to an open feed replaces it by an open feed of the same stream. *)
Lemma put_feed_wf c p f f' :
  wf c -> feeds c !! p = Some f -> ID f' = ID f -> closed f' = closed f ->
  wf (mkCatalog (CacheSize c) (streams c) (objects c) (<[p := f']> (feeds c)) (streamIDs c)).
Proof.
  intros [Hids Hst Hinj Hsta Hop] Hp Hid Hcl. split; cbn; try done.
  - intros sid q Hq. destruct (Hst sid q Hq) as (cs & g & ? & ? & ? & Hall). exists cs, g.
    split_and!; try done. intros g' Hg'. destruct (Hall g' Hg') as (fd & Hfd & ? & ?).
    destruct (decide (g' = p)) as [->|Hne].
    + rewrite lookup_insert_eq. exists f'. split_and!; [done|congruence|congruence].
    + rewrite lookup_insert_ne by done. eauto.
  - intros g fd Hg Hc. apply lookup_insert_Some in Hg as [[<- <-]|[Hne Hg]]; [|eauto].
    rewrite Hid. apply (Hop p f); congruence.
Qed.

(** A delivery: the segment's feed is found or added, and holds the segment. *)
Lemma catalog_deliver_spec fp sp types seg own c :
  wf c -> 0 < CacheSize c -> feeds c !! fp = None -> objects c !! sp = None ->
  segment_ok types seg ->
  (forall p, own !! seg_stream seg = Some p -> owned c (seg_stream seg) types p) ->
  exists own' c' p f', deliver fp sp types seg own c = Ret (own', c') /\ wf c' /\
    CacheSize c' = CacheSize c /\ own' = <[seg_stream seg := p]> own /\
    feeds c' = <[p := f']> (feeds c) /\ owned c' (seg_stream seg) types p /\
    ((own !! seg_stream seg = Some p) \/ (own !! seg_stream seg = None /\ p = fp)).
Proof using Hh Hhi.
  intros Hwf Hsize Hfp Hsp (Hb & He & Hf) Hown. unfold deliver.
  assert (Hu : is_u64 (seg_begin seg)) by (destruct Hf; unfold is_u64; lia).
  assert (Happ : forall c p f, wf c -> feeds c !! p = Some f -> ID f = seg_stream seg ->
    feed_types f = types -> closed f = false -> feed_ok (h (seg_stream seg)) f ->
    exists f', Feed.Append seg f = Ret f' /\
      let c' := mkCatalog (CacheSize c) (streams c) (objects c) (<[p := f']> (feeds c)) (streamIDs c) in
      wf c' /\ owned c' (seg_stream seg) types p).
  { intros c0 p f Hwf0 Hp Hid Hty Hcl Hok. pose proof (Hh (seg_stream seg)) as Hr.
    rewrite <- Hid in Hr, Hok, Hf. rewrite <- Hty in Hf.
    destruct (Feed.feed_Append_ok _ _ _ f seg Hr Hok Hu ltac:(lia) Hf)
      as (f' & -> & Hok' & Hid' & Hty' & Hcl' & _).
    exists f'. split; [done|]. split; [eapply put_feed_wf; eauto|].
    exists f'. cbn. rewrite lookup_insert_eq, <- Hid, <- Hty. by rewrite Hid', Hty', Hcl'. }
  destruct (own !! seg_stream seg) as [p|] eqn:Ho; cbn.
  - destruct (Hown p eq_refl) as (f & Hp & Hid & Hty & Hcl & Hok). rewrite Hp.
    destruct (Happ c p f) as (f' & -> & Hwf' & Hown'); try done. cbn.
    eexists _, _, p, f'. split; [done|]. split_and!; try done; [|auto]. by rewrite insert_id.
  - destruct (add_wf c fp sp (seg_stream seg) types (seg_begin seg) Hwf Hsize Hfp Hsp)
      as (c1 & f & -> & Hwf1 & Hsz & Hfeeds & Hid & Hty & Hcl & Hnew & Hreads & _). cbn.
    assert (Hp : feeds c1 !! fp = Some f) by (rewrite Hfeeds; apply lookup_insert_eq). rewrite Hp.
    destruct (Happ c1 fp f) as (f' & -> & Hwf' & Hown'); try done.
    { eapply new_feed_ok; eauto. by rewrite Hreads. }
    cbn. eexists _, _, fp, f'. split; [done|]. cbn. split_and!; try done; [|auto].
    by rewrite Hfeeds, insert_insert_eq.
Qed.

Lemma owned_insert c c' sid types p q f' :
  owned c sid types q -> feeds c' = <[p := f']> (feeds c) -> q <> p -> owned c' sid types q.
Proof. intros (f & Hq & Hf) Hc Hne. exists f. by rewrite Hc, lookup_insert_ne by congruence. Qed.

Lemma catalog_inv_deliver y w own types fp sp seg own' c' :
  inv y -> watches y !! w = Some (own, types) -> segment_ok types seg ->
  feeds (catalog y) !! fp = None -> objects (catalog y) !! sp = None ->
  deliver fp sp types seg own (catalog y) = Ret (own', c') ->
  inv (mkSystem c' (<[w := (own', types)]> (watches y))).
Proof using Hh Hhi.
  intros [Hwf Hsize Hown Hdis Howner] Hw Hseg Hfp Hsp Hd.
  destruct (catalog_deliver_spec fp sp types seg own (catalog y) Hwf Hsize Hfp Hsp Hseg)
    as (own1 & c1 & p & f' & Hd' & Hwf' & Hsz & -> & Hfeeds & Hnew & Hp); [eauto|].
  rewrite Hd in Hd'. injection Hd' as -> ->.
  assert (Hold : forall w' own2 types2 sid q, watches y !! w' = Some (own2, types2) ->
    own2 !! sid = Some q -> q = p -> w' = w /\ sid = seg_stream seg).
  { intros w' own2 types2 sid q Hw2 Hq ->. destruct (Hown _ _ _ _ _ Hw2 Hq) as (f & Hf & Hid & _).
    destruct Hp as [Hp|[_ ->]]; [|congruence].
    destruct (Hown _ _ _ _ _ Hw Hp) as (f2 & Hf2 & Hid2 & _).
    split; [by eapply Hdis|congruence]. }
  split; cbn.
  - done.
  - by rewrite Hsz.
  - intros w' own2 types2 sid q Hw2 Hq.
    destruct (decide (q = p)) as [->|Hqp].
    + destruct (decide (w' = w)) as [->|Hne].
      * rewrite lookup_insert_eq in Hw2. injection Hw2 as <- <-.
        apply lookup_insert_Some in Hq as [[<- _]|[Hs Hq]]; [done|].
        by destruct (Hold _ _ _ _ _ Hw Hq eq_refl) as [_ ->].
      * rewrite lookup_insert_ne in Hw2 by done. by destruct (Hold _ _ _ _ _ Hw2 Hq eq_refl).
    + eapply owned_insert; [|exact Hfeeds|done].
      apply lookup_insert_Some in Hw2 as [[<- [= <- <-]]|[_ Hw2]]; [|by eapply Hown].
      rewrite lookup_insert_ne in Hq by (intros <-; rewrite lookup_insert_eq in Hq; congruence).
      by eapply Hown.
  - assert (Hpre : forall w' own2 types2 sid q, <[w := (<[seg_stream seg := p]> own, types)]> (watches y)
      !! w' = Some (own2, types2) -> own2 !! sid = Some q ->
      (q = p /\ w' = w) \/ (q <> p /\ exists own3, watches y !! w' = Some (own3, types2) /\ own3 !! sid = Some q)).
    { intros w' own2 types2 sid q Hw2 Hq.
      apply lookup_insert_Some in Hw2 as [[<- [= <- <-]]|[Hne Hw2]].
      - destruct (decide (q = p)) as [->|Hqp]; [by left|]. right. split; [done|]. exists own.
        split; [done|]. apply lookup_insert_Some in Hq as [[_ <-]|[_ Hq]]; done.
      - destruct (decide (q = p)) as [Hqp|Hqp]; [|eauto]. left. split; [done|].
        by destruct (Hold _ _ _ _ _ Hw2 Hq Hqp). }
    intros w1 own1 types1 w2 own2 types2 sid1 sid2 q H1 H2 Hq1 Hq2.
    destruct (Hpre _ _ _ _ _ H1 Hq1) as [[Hx ->]|[Hx (o1 & ? & ?)]],
      (Hpre _ _ _ _ _ H2 Hq2) as [[Hy ->]|[Hy (o2 & ? & ?)]]; try done.
    by eapply Hdis.
  - intros q f Hq Hcl. destruct (decide (q = p)) as [->|Hqp].
    + destruct Hnew as (f2 & Hf2 & Hid & _). rewrite Hq in Hf2. injection Hf2 as <-.
      exists w. eexists _, _. rewrite lookup_insert_eq. split; [done|]. by rewrite Hid, lookup_insert_eq.
    + rewrite Hfeeds, lookup_insert_ne in Hq by done.
      destruct (Howner q f Hq Hcl) as (w' & own2 & types2 & Hw2 & Hq2). exists w'.
      destruct (decide (w' = w)) as [->|Hne].
      * rewrite lookup_insert_eq. eexists _, _. split; [done|]. rewrite Hw in Hw2.
        injection Hw2 as <- <-. rewrite lookup_insert_ne; [done|]. intros Heq. rewrite <- Heq in Hq2.
        destruct Hp as [Hp|[Hp _]]; congruence.
      * rewrite lookup_insert_ne by done. eauto.
Qed.

(** [remove_all] of open feeds closes them, and only them. *)
Lemma remove_all_spec ps : forall c,
  wf c -> NoDup ps -> (forall p, p ∈ ps -> exists f, feeds c !! p = Some f /\ closed f = false) ->
  exists c', remove_all pick ps c = Ret c' /\ wf c' /\ CacheSize c' = CacheSize c /\
    (forall p, p ∈ ps -> exists f, feeds c' !! p = Some f /\ closed f = true) /\
    (forall p, p ∉ ps -> feeds c' !! p = feeds c !! p).
Proof using Hpick.
  induction ps as [|p ps IH]; intros c Hwf Hnd Hopen; cbn.
  { exists c. split_and!; try done. intros p Hp. by apply elem_of_nil in Hp. }
  apply NoDup_cons in Hnd as [Hp Hnd]. destruct (Hopen p ltac:(left)) as (f & Hf & Hcl).
  destruct (remove_wf pick c p f Hpick Hwf Hf Hcl) as (c1 & -> & Hwf1 & Hsz & Hfeeds & _). cbn.
  destruct (IH c1 Hwf1 Hnd) as (c' & -> & Hwf' & Hsz' & Hin & Hout).
  { intros q Hq. rewrite Hfeeds, lookup_insert_ne by (intros <-; done). apply Hopen. by right. }
  exists c'. split_and!; try done; [congruence| |].
  - intros q [->|Hq]%elem_of_cons; [|auto]. rewrite Hout, Hfeeds, lookup_insert_eq by done.
    by eexists.
  - intros q Hq. rewrite elem_of_cons in Hq. rewrite Hout by tauto.
    rewrite Hfeeds, lookup_insert_ne by (intros ->; tauto). done.
Qed.

Lemma own_feeds_elem own p : p ∈ own_feeds own <-> exists sid, own !! sid = Some p.
Proof.
  unfold own_feeds. rewrite list_elem_of_fmap. split.
  - intros ([sid q] & -> & Hq). exists sid. by apply elem_of_map_to_list in Hq.
  - intros [sid Hq]. exists (sid, p). split; [done|]. by apply elem_of_map_to_list.
Qed.

Lemma own_feeds_NoDup y w own types :
  inv y -> watches y !! w = Some (own, types) -> NoDup (own_feeds own).
Proof.
  intros Hi Hw. apply NoDup_fmap_2_strong; [|apply NoDup_map_to_list].
  intros [sid p] [sid' p'] Hp Hp' Heq. cbn in Heq. subst p'.
  apply elem_of_map_to_list in Hp, Hp'.
  destruct (inv_owned y Hi _ _ _ _ _ Hw Hp) as (f & Hf & Hid & _).
  destruct (inv_owned y Hi _ _ _ _ _ Hw Hp') as (f' & Hf' & Hid' & _). congruence.
Qed.

(** The end of a call to [Watch] does not panic. *)
Lemma end_spec y w own types :
  inv y -> watches y !! w = Some (own, types) ->
  exists c', remove_all pick (own_feeds own) (catalog y) = Ret c' /\ wf c' /\
    CacheSize c' = CacheSize (catalog y) /\
    (forall p, p ∈ own_feeds own -> exists f, feeds c' !! p = Some f /\ closed f = true) /\
    (forall p, p ∉ own_feeds own -> feeds c' !! p = feeds (catalog y) !! p).
Proof using Hpick.
  intros Hi Hw. apply remove_all_spec; [apply Hi|by eapply own_feeds_NoDup|].
  intros p [sid Hp]%own_feeds_elem. destruct (inv_owned y Hi _ _ _ _ _ Hw Hp) as (f & ? & _ & _ & ? & _).
  eauto.
Qed.

Lemma inv_end y w own types c' :
  inv y -> watches y !! w = Some (own, types) ->
  remove_all pick (own_feeds own) (catalog y) = Ret c' ->
  inv (mkSystem c' (delete w (watches y))).
Proof using Hpick.
  intros Hi Hw Hr. destruct (end_spec y w own types Hi Hw) as (c1 & Hr' & Hwf' & Hsz & Hin & Hout).
  rewrite Hr in Hr'. injection Hr' as <-. destruct Hi as [Hwf Hsize Hown Hdis Howner].
  split; cbn.
  - done.
  - by rewrite Hsz.
  - intros w' own2 types2 sid p [Hne Hw2]%lookup_delete_Some Hp.
    destruct (Hown _ _ _ _ _ Hw2 Hp) as (f & Hf & Hrest). exists f. rewrite Hout; [done|].
    intros [sid' Hp']%own_feeds_elem. apply Hne. by eapply Hdis.
  - intros w1 own1 types1 w2 own2 types2 sid1 sid2 p [_ H1]%lookup_delete_Some
      [_ H2]%lookup_delete_Some. by eapply Hdis.
  - intros p f Hp Hcl. destruct (decide (p ∈ own_feeds own)) as [Hpo|Hpo].
    { destruct (Hin p Hpo) as (f' & Hf' & Hcl'). congruence. }
    rewrite Hout in Hp by done. destruct (Howner p f Hp Hcl) as (w' & own2 & types2 & Hw2 & Hp2).
    exists w', own2, types2. split; [|done]. apply lookup_delete_Some. split; [|done].
    intros <-. rewrite Hw in Hw2. injection Hw2 as <- <-. apply Hpo, own_feeds_elem. eauto.
Qed.

Lemma inv_begin y w types :
  inv y -> watches y !! w = None -> inv (mkSystem (catalog y) (<[w := (∅, types)]> (watches y))).
Proof.
  intros [Hwf Hsize Hown Hdis Howner] Hw.
  assert (Hold : forall w' own types' sid p, <[w := (∅, types)]> (watches y) !! w' = Some (own, types') ->
    own !! sid = Some p -> watches y !! w' = Some (own, types')).
  { intros w' own types' sid p [[<- [= <- <-]]|[_ ?]]%lookup_insert_Some; [|done].
    by rewrite lookup_empty. }
  split; cbn; try done.
  - intros w' own types' sid p Hw' Hp. by eapply Hown; [eapply Hold|].
  - intros w1 own1 types1 w2 own2 types2 sid1 sid2 p H1 H2 Hp1 Hp2.
    by eapply (Hdis w1 own1 types1 w2 own2 types2 sid1 sid2 p); [eapply Hold|eapply Hold|..].
  - intros p f Hp Hcl. destruct (Howner p f Hp Hcl) as (w' & own2 & types2 & Hw2 & Hp2).
    exists w', own2, types2. split; [|done]. rewrite lookup_insert_ne; [done|]. intros <-. congruence.
Qed.

Lemma catalog_initial_inv size : 0 < size -> inv (initial size).
Proof. intros. split; cbn; done. Qed.

Lemma catalog_reachable_inv size y : 0 < size -> rtc step (initial size) y -> inv y.
Proof using Hpick Hh Hhi.
  intros Hsize. apply (rtc_ind_r (fun y => inv y)); [by apply catalog_initial_inv|].
  intros y1 y2 _ Hs Hi. destruct Hs; eauto using inv_begin, catalog_inv_deliver, inv_end.
Qed.
End system.

(** ** Properties *)

(** C14: however the sources deliver streams and stop, the catalog publishes
    exactly the IDs of the streams that a watch in progress has delivered, and
    serves each of them from an open feed of that stream, from a watch in
    progress, whose cache holds exactly the events of the stream that it carries;
    neither a delivery nor the end of a watch panics. *)
Theorem catalog_lists_delivered_streams pick h hi size y sid :
  picks pick -> (forall sid, in_range sid 0 hi (h sid)) -> hi < u64_modulus -> 0 < size ->
  rtc (step pick h hi) (initial size) y ->
  (sid ∈ default ∅ (streamIDs (catalog y)) <->
   exists w own types p, watches y !! w = Some (own, types) /\ own !! sid = Some p) /\
  (forall p, streams (catalog y) !! sid = Some p -> exists cs f fd,
     objects (catalog y) !! p = Some cs /\ CurrentFeed cs = Some f /\
     feeds (catalog y) !! f = Some fd /\ ID fd = sid /\ closed fd = false /\ feed_ok (h sid) fd) /\
  (forall w own types, watches y !! w = Some (own, types) ->
     (exists c', remove_all pick (own_feeds own) (catalog y) = Ret c') /\
     forall fp sp seg, feeds (catalog y) !! fp = None -> objects (catalog y) !! sp = None ->
       segment_ok h hi types seg ->
       exists r, deliver fp sp types seg own (catalog y) = Ret r).
Proof.
  intros Hpick Hh Hhi Hsize Hr. pose proof (catalog_reachable_inv pick Hpick h hi Hh Hhi size y Hsize Hr) as Hi.
  pose proof (inv_wf _ _ Hi) as Hwf.
  assert (Hcur : forall p, streams (catalog y) !! sid = Some p -> exists cs f fd,
     objects (catalog y) !! p = Some cs /\ CurrentFeed cs = Some f /\
     feeds (catalog y) !! f = Some fd /\ ID fd = sid /\ closed fd = false).
  { intros p Hp. destruct (wf_streams _ Hwf sid p Hp) as (cs & f & Hcs & Hc & Hf & Hall).
    destruct (Hall f Hf) as (fd & ? & ? & ?). by exists cs, f, fd. }
  split_and!.
  - rewrite (wf_ids _ Hwf), elem_of_dom. split.
    + intros [p Hp]. destruct (Hcur p Hp) as (cs & f & fd & _ & _ & Hfd & <- & Hcl).
      destruct (inv_owner _ _ Hi f fd Hfd Hcl) as (w & own & types & ? & ?). eauto 10.
    + intros (w & own & types & p & Hw & Hp).
      destruct (inv_owned _ _ Hi _ _ _ _ _ Hw Hp) as (f & Hf & <- & _ & Hcl & _).
      destruct (wf_open _ Hwf p f Hf Hcl) as (q & cs & ? & _). by exists q.
  - intros p Hp. destruct (Hcur p Hp) as (cs & f & fd & ? & ? & Hfd & Hid & Hcl).
    exists cs, f, fd. split_and!; try done.
    destruct (inv_owner _ _ Hi f fd Hfd Hcl) as (w & own & types & Hw & Hown).
    destruct (inv_owned _ _ Hi _ _ _ _ _ Hw Hown) as (fd' & Hfd' & _ & _ & _ & Hok).
    rewrite Hfd in Hfd'. injection Hfd' as <-. by rewrite Hid in Hok.
  - intros w own types Hw. split.
    + destruct (end_spec pick Hpick h y w own types Hi Hw) as (c' & Hc & _). eauto.
    + intros fp sp seg Hfp Hsp Hseg.
      destruct (catalog_deliver_spec h hi Hh Hhi fp sp types seg own (catalog y) Hwf (inv_size _ _ Hi) Hfp Hsp Hseg)
        as (own' & c' & p & f' & Hd & _); [|eauto].
      intros p Hp. by apply (inv_owned _ _ Hi w own).
Qed.

(** A consumer that observes that its feed is closed finds the catalog
    already switched over: no catalog stream, not even one that has left the
    catalog but that a consumer still holds, has a closed feed as its current
    one. *)
Theorem closed_feed_is_never_current pick h hi size y p cs f fd :
  picks pick -> (forall sid, in_range sid 0 hi (h sid)) -> hi < u64_modulus -> 0 < size ->
  rtc (step pick h hi) (initial size) y ->
  objects (catalog y) !! p = Some cs -> CurrentFeed cs = Some f ->
  feeds (catalog y) !! f = Some fd -> closed fd = false.
Proof.
  intros Hpick Hh Hhi Hsize Hr Hp Hcur Hf.
  pose proof (catalog_reachable_inv pick Hpick h hi Hh Hhi size y Hsize Hr) as Hi.
  pose proof (inv_wf _ _ Hi) as Hwf.
  destruct (decide (map_Exists (fun _ q => q = p) (streams (catalog y)))) as [(sid & q & Hs & ->)|Hn].
  - destruct (wf_streams _ Hwf sid p Hs) as (cs' & f' & Hcs' & Hc' & Hin & Hall).
    rewrite Hp in Hcs'. injection Hcs' as <-. rewrite Hcur in Hc'. injection Hc' as <-.
    destruct (Hall f Hin) as (fd' & Hfd' & _ & ?). congruence.
  - rewrite (wf_stale _ Hwf p cs Hp) in Hcur; [done|]. intros sid Hs. apply Hn. by exists sid, p.
Qed.

(** What is assumed of a round of consumption. *)
Definition round_ok (sid : UUID) (h : list Envelope) (types : gset UUID) (r : round) : Prop :=
  forall carried, r_current r = Some carried ->
    covers carried types /\ Forall (turn_ok sid h carried types) (r_turns r).

Lemma unwatched_covers types carried : covers carried types -> unwatched types carried = false.
Proof.
  intros Hc. unfold unwatched. destruct carried as [ts|]; [|done].
  apply bool_decide_eq_false_2. intros Hn. apply Hn. apply set_eq. intros ty.
  specialize (Hc ty). cbn in Hc. set_solver.
Qed.

(** The callback does not fail with an error of the feeds' own. *)
Definition foreign {S} (fn : callback S) : Prop :=
  forall s seg e, (fn s seg).2 = Some e -> Is e errFeedClosed = false.

Lemma progressed_closed {S} sid h types begin (fn : callback S) s s' cp e :
  foreign fn -> Is e errFeedClosed = true ->
  progressed sid h types begin fn s s' cp (Some e) -> progressed sid h types begin fn s s' cp None.
Proof.
  intros Hfn He (segs & s1 & Hc & Hd & [->|(seg & e' & [= <-] & Hf & _)]).
  - exists segs, s'. auto.
  - specialize (Hfn s1 seg e). rewrite Hf in Hfn. specialize (Hfn eq_refl). congruence.
Qed.

Lemma Consume_loop_ok sid h types {S} (fn : callback S) rounds :
  foreign fn -> Forall (round_ok sid h types) rounds ->
  forall s cp, exists o, Consume_loop sid types rounds fn s cp = Ret o /\
    match o with
    | Running s' cp' _ => progressed sid h (Some types) cp fn s s' cp' None
    | Returned s' cp' e => progressed sid h (Some types) cp fn s s' cp' (Some e)
    end.
Proof.
  intros Hfn. induction 1 as [|r rounds Hr Hrs IH]; intros s cp; cbn.
  { eexists. split; [done|]. apply progressed_nil. }
  destruct (r_current r) as [carried|] eqn:Hcur; last first.
  { eexists. split; [done|]. apply progressed_nil. }
  destruct (Hr carried Hcur) as [Hcov Hturns]. rewrite (unwatched_covers _ _ Hcov).
  destruct (Feed.consume_loop_ok sid h carried types Hcov fn (r_turns r) Hturns s cp false)
    as (o & Ho & Hok). unfold Feed.consume. rewrite Ho. cbn.
  destruct o as [s1 cp1 b|s1 cp1 e]; cbn in Hok; [by eexists|].
  destruct (Is e errFeedClosed) eqn:He; [|by eexists].
  apply progressed_closed in Hok; [|done|done].
  destruct (r_ctx_err r) as [e'|].
  { eexists. split; [done|]. by apply progressed_None. }
  destruct (IH s1 cp1) as (o & -> & Ho'). exists o. split; [done|].
  destruct o; by eapply progressed_trans.
Qed.

(** A consumer is given a stream contiguously from the offset it begins at
    across any number of changes of feed, each of which may come from another
    source and carry other types, as long as they carry the consumer's; it is
    given no event twice and none is left out, an error of its callback is
    returned unchanged, and it is told that the stream is not found only when no
    feed is left. *)
Theorem Consume_across_feeds sid h types rounds begin {S} (fn : callback S) s :
  types <> ∅ -> foreign fn -> Forall (round_ok sid h types) rounds ->
  exists o, Consume true sid types rounds begin fn s = Ret o /\
    match o with
    | Running s' cp _ => progressed sid h (Some types) begin fn s s' cp None
    | Returned s' cp e => progressed sid h (Some types) begin fn s s' cp (Some e)
    end.
Proof.
  intros Hne Hfn Hr. unfold Consume. rewrite decide_False by done. by apply Consume_loop_ok.
Qed.

Lemma Consume_across_feeds_witness :
  exists o, Consume true 7 Feed.example_ts
      [mkRound (Some None) [Feed.mkTurn Feed.example_cs true Feed.example_Read (fun _ => Feed.example_cs)
          true Feed.Closed; Feed.mkTurn Feed.example_cs false Feed.example_Read
          (fun _ => Feed.example_cs) true Feed.Closed] None;
       mkRound None [] None] 1 recorder [] = Ret o /\
    match o with
    | Running s' cp _ => False
    | Returned s' cp e =>
        progressed 7 Feed.example_h (Some Feed.example_ts) 1 recorder [] s' cp (Some e) /\
        cp = 5 /\ e = Sentinel ErrStreamNotFound
    end.
Proof.
  destruct (Consume_across_feeds 7 Feed.example_h Feed.example_ts
    [mkRound (Some None) [Feed.mkTurn Feed.example_cs true Feed.example_Read (fun _ => Feed.example_cs)
          true Feed.Closed; Feed.mkTurn Feed.example_cs false Feed.example_Read
          (fun _ => Feed.example_cs) true Feed.Closed] None;
       mkRound None [] None] 1 recorder []) as (o & Ho & Hp).
  - discriminate.
  - by intros s seg e.
  - repeat constructor; try discriminate; injection H as <-; try done;
      repeat constructor; try exact Feed.example_held; exact Feed.example_serves.
  - exists o. split; [exact Ho|]. vm_compute in Ho. injection Ho as <-. by split_and!.
Defined.

Definition example_pick (X : gset nat) : option nat := head (elements X).

Lemma example_picks : picks example_pick.
Proof.
  intros X. unfold example_pick. destruct (elements X) as [|x l] eqn:He; cbn.
  - by apply elements_empty_inv, leibniz_equiv in He.
  - apply elem_of_elements. rewrite He. left.
Qed.

Definition example_h (sid : UUID) : list Envelope := if decide (sid = 7%N) then Feed.example_h else [].

Lemma example_h_range sid : in_range sid 0 5 (example_h sid).
Proof.
  unfold example_h. case_decide as Hs; [|cbn; lia]. rewrite Hs. apply Feed.example_in_range.
Qed.

Definition example_seg : Segment := mkSegment 7 0 3 [event 7 0 1; event 7 1 2; event 7 2 1].

(** Two sources deliver stream 7, and then the first ends. *)
Lemma catalog_example_reachable : exists y,
  rtc (step example_pick example_h 5) (initial 2) y /\
  watches y !! 1%nat = Some ({[7%N := 11%nat]}, None) /\
  objects (catalog y) !! 20%nat = Some (mkStream {[11%nat]} (Some 11%nat)) /\
  streams (catalog y) !! 7%N = Some 20%nat.
Proof.
  assert (Hseg : segment_ok example_h 5 None example_seg).
  { split_and!; try (cbn; lia). split; [cbn; lia|]. vm_compute. reflexivity. }
  eexists. split.
  { eapply rtc_l; [apply (step_begin _ _ _ _ 0%nat None); reflexivity|].
    eapply rtc_l; [apply (step_begin _ _ _ _ 1%nat None); reflexivity|].
    eapply rtc_l; [eapply (step_deliver _ _ _ _ 0%nat ∅ None 10 20 example_seg);
      [reflexivity|exact Hseg|reflexivity|reflexivity|vm_compute; reflexivity]|].
    eapply rtc_l; [eapply (step_deliver _ _ _ _ 1%nat ∅ None 11 21 example_seg);
      [reflexivity|exact Hseg|reflexivity|reflexivity|vm_compute; reflexivity]|].
    eapply rtc_l; [eapply (step_end _ _ _ _ 0%nat);
      [vm_compute; reflexivity|vm_compute; reflexivity]|].
    apply rtc_refl. }
  split_and!; vm_compute; reflexivity.
Qed.

Lemma catalog_lists_delivered_streams_witness :
  exists y, rtc (step example_pick example_h 5) (initial 2) y /\
    (7%N : UUID) ∈ default ∅ (streamIDs (catalog y)).
Proof.
  destruct catalog_example_reachable as (y & Hr & Hw & Ho & Hs). exists y. split; [exact Hr|].
  apply (catalog_lists_delivered_streams example_pick example_h 5 2 y 7 example_picks
    example_h_range ltac:(vm_compute; reflexivity) ltac:(lia) Hr).
  exists 1%nat, {[7%N := 11%nat]}, None, 11%nat. split; [exact Hw|reflexivity].
Defined.

Lemma closed_feed_is_never_current_witness :
  exists y, forall fd, feeds (catalog y) !! 11%nat = Some fd -> closed fd = false.
Proof.
  destruct catalog_example_reachable as (y & Hr & Hw & Ho & Hs). exists y. intros fd Hfd.
  exact (closed_feed_is_never_current example_pick example_h 5 2 y 20 _ 11 fd example_picks
    example_h_range ltac:(vm_compute; reflexivity) ltac:(lia) Hr Ho eq_refl Hfd).
Defined.
