(* ===== verification/Cluster.v ===== *)
(** * Cluster membership and rendezvous hashing

    Models [internal/cluster]: the membership view and the choice of the node
    responsible for a workload ([membership.go]), and the node that builds the
    view from heartbeats ([node.go]).  The hash function (xxh3) and the order and
    textual form of UUIDs come from other modules; they are the interface
    [Rendezvous].  Time is an argument of the operations that read the clock. *)

From S2P Require Import Prelude Errors Stream.

(** ** What the package uses of other modules *)

Class Rendezvous := {
  (** [xxh3.Hash] of the workload's bytes followed by the node's *)
  score : UUID -> UUID -> Z;
  (** [uuidpb.UUID.Less] *)
  Less : UUID -> UUID -> bool;
  (** [uuidpb.Parse] *)
  Parse : string -> option UUID;

  Less_irrefl a : Less a a = false;
  Less_trans a b c : Less a b = true -> Less b c = true -> Less a c = true;
  Less_total a b : a <> b -> Less a b = true \/ Less b a = true;
}.

(** A [*Membership]; nil is [None]. *)
Record Membership := mkMembership {
  m_nodeID : UUID;
  isLive : bool;
  peers : gset UUID;
}.

Section cluster.
Context `{Rendezvous}.

(** ** Membership *)

Definition Peers (m : option Membership) : gset UUID :=
  match m with None => ∅ | Some m => peers m end.

(** The body of the loop over the peers: whether the peer does not take the
    workload from the local node. *)
Definition yields_to_local (workload local peer : UUID) : bool :=
  if decide (score workload peer > score workload local) then false
  else if decide (score workload peer = score workload local) then negb (Less peer local)
  else true.

Definition LocalNodeIsResponsibleFor (m : option Membership) (workload : UUID) : bool :=
  match m with
  | None => false
  | Some m =>
      if negb (isLive m) then false
      else forallb (yields_to_local workload (m_nodeID m)) (elements (peers m))
  end.

(** ** The node *)

Record Node := mkNode {
  ID : UUID;
  Interval : Z;
  Timeout : Z;
  heartbeats : gmap UUID Z;           (* when each live node was last heard *)
  membership : option Membership;     (* the published membership *)
  sent : nat;                         (* the heartbeats sent *)
}.

(** [sendHeartbeat]; whether the signal is sent makes no difference here. *)
Definition sendHeartbeat (n : Node) : Node :=
  mkNode (ID n) (Interval n) (Timeout n) (heartbeats n) (membership n) (S (sent n)).

(** [recordHeartbeat] at time [now]: whether the node was not already live, and
    whether it is, in addition, another node. *)
Definition recordHeartbeat (id : string) (now : Z) (n : Node) : Node * bool * bool :=
  match Parse id with
  | None => (n, false, false)
  | Some nodeID =>
      let n' := mkNode (ID n) (Interval n) (Timeout n) (<[nodeID := now]> (heartbeats n))
                  (membership n) (sent n) in
      match heartbeats n !! nodeID with
      | Some _ => (n', false, false)
      | None => (n', true, negb (bool_decide (nodeID = ID n)))
      end
  end.

(** [handleHeartbeat]. *)
Definition handleHeartbeat (id : string) (now : Z) (n : Node) : Node * bool :=
  if decide (id = "") then (n, false)
  else
    let '(n, changed, joined) := recordHeartbeat id now n in
    ((if (joined : bool) then sendHeartbeat n else n), changed).

(** [drainHeartbeats]: the heartbeats waiting in the channel, each with the time
    at which it is read. *)
Fixpoint drainHeartbeats (waiting : list (string * Z)) (n : Node) (changed : bool) : Node * bool :=
  match waiting with
  | [] => (n, changed)
  | (id, now) :: waiting' =>
      let '(n, c) := handleHeartbeat id now n in
      drainHeartbeats waiting' n (changed || c)
  end.

(** The loop of [expireNodes] over the nodes, at time [now]. *)
Fixpoint expire (timeout now : Z) (nodes : list (UUID * Z)) (beats : gmap UUID Z) (changed : bool)
    : gmap UUID Z * bool :=
  match nodes with
  | [] => (beats, changed)
  | (nodeID, lastBeatAt) :: nodes' =>
      if decide (now - lastBeatAt <= timeout) then expire timeout now nodes' beats changed
      else expire timeout now nodes' (delete nodeID beats) true
  end.

(** [expireNodes] at time [now]. *)
Definition expireNodes (now : Z) (n : Node) : Node * bool :=
  let '(kept, changed) := expire (Timeout n) now (map_to_list (heartbeats n)) (heartbeats n) false in
  (mkNode (ID n) (Interval n) (Timeout n) kept (membership n) (sent n), changed).

(** [publishMembershipChange]. *)
Definition publishMembershipChange (n : Node) : Node :=
  let live := dom (heartbeats n) in
  mkNode (ID n) (Interval n) (Timeout n) (heartbeats n)
    (Some (mkMembership (ID n) (bool_decide (ID n ∈ live)) (live ∖ {[ID n]}))) (sent n).

(** The events that the loop of [Run] handles. *)
Inductive event : Type :=
| Heartbeat (id : string) (now : Z)
| Tick (waiting : list (string * Z)) (closed : bool) (now : Z)
| Stop.                          (* ctx is canceled, or the channel is closed *)

(** One iteration of the loop; the result is false if [Run] returns, which
    stores the membership without live nodes. *)
Definition Run_event (e : event) (n : Node) : Node * bool :=
  let stopped n := (mkNode (ID n) (Interval n) (Timeout n) (heartbeats n)
                      (Some (mkMembership 0 false ∅)) (sent n), false) in
  match e with
  | Stop => stopped n
  | Heartbeat id now =>
      let '(n, changed) := handleHeartbeat id now n in
      ((if (changed : bool) then publishMembershipChange n else n), true)
  | Tick waiting closed now =>
      let n := sendHeartbeat n in
      let '(n, changed) := drainHeartbeats waiting n false in
      if closed then stopped n
      else
        let '(n, expired) := expireNodes now n in
        ((if (changed || expired : bool) then publishMembershipChange n else n), true)
  end.

(** [Run], for a sequence of events. *)
Fixpoint Run_loop (es : list event) (n : Node) : Node * bool :=
  match es with
  | [] => (n, true)
  | e :: es' =>
      match Run_event e n with
      | (n', true) => Run_loop es' n'
      | r => r
      end
  end.

Definition Run (es : list event) (n : Node) : go (Node * bool) :=
  if decide (Interval n <= 0) then Panic "heartbeat interval must be positive"
  else if decide (Timeout n <= Interval n) then
    Panic "heartbeat timeout must be greater than the heartbeat interval"
  else Ret (Run_loop es (sendHeartbeat n)).

(** ** Rendezvous hashing *)

(** The order in which the nodes are preferred for a workload. *)
Definition preferred (workload a b : UUID) : Prop :=
  score workload b < score workload a \/
  (score workload a = score workload b /\ Less a b = true).

Lemma preferred_irrefl w a : ~ preferred w a a.
Proof. unfold preferred. rewrite Less_irrefl. intros [?|[_ ?]]; [lia|done]. Qed.

Lemma preferred_trans w a b c : preferred w a b -> preferred w b c -> preferred w a c.
Proof.
  unfold preferred. intros [?|[? ?]] [?|[? ?]]; try (left; lia).
  right. split; [lia|]. by eapply Less_trans.
Qed.

Lemma preferred_total w a b : a <> b -> preferred w a b \/ preferred w b a.
Proof.
  intros Hne. unfold preferred.
  destruct (Z.lt_trichotomy (score w a) (score w b)) as [?|[?|?]]; [auto| |auto].
  destruct (Less_total a b Hne); auto with lia.
Qed.

Lemma yields_to_local_preferred w local peer :
  peer <> local -> yields_to_local w local peer = true <-> preferred w local peer.
Proof.
  intros Hne. unfold yields_to_local, preferred. case_decide; [split; [done|lia]|].
  case_decide as Heq.
  - rewrite negb_true_iff. split.
    + intros Hl. right. split; [lia|]. destruct (Less_total local peer); congruence.
    + intros [?|[_ Hl]]; [lia|]. destruct (Less peer local) eqn:Hp; [|done].
      pose proof (Less_trans _ _ _ Hl Hp). by rewrite Less_irrefl in *.
  - split; [intros _; left; lia|done].
Qed.

(** The membership that a node publishes when it hears the nodes of [live]. *)
Definition view (n : UUID) (live : gset UUID) : option Membership :=
  Some (mkMembership n (bool_decide (n ∈ live)) (live ∖ {[n]})).

(** A node is responsible if it is live and preferred to every other. *)
Lemma responsible_iff n live w :
  LocalNodeIsResponsibleFor (view n live) w = true <->
  n ∈ live /\ forall p, p ∈ live -> p <> n -> preferred w n p.
Proof.
  unfold LocalNodeIsResponsibleFor, view. cbn. case_bool_decide as Hn; cbn; [|by split; [|intros []]].
  rewrite forallb_forall. split.
  - intros Hf. split; [done|]. intros p Hp Hne. apply yields_to_local_preferred; [done|].
    apply Hf. apply list_elem_of_In. set_solver.
  - intros [_ Hf] p Hp%list_elem_of_In. apply elem_of_elements in Hp.
    apply yields_to_local_preferred; [set_solver|]. apply Hf; set_solver.
Qed.

(** A set of nodes that is not empty has a preferred one. *)
Lemma preferred_exists w (live : gset UUID) :
  live <> ∅ -> exists n, n ∈ live /\ forall p, p ∈ live -> p <> n -> preferred w n p.
Proof.
  induction live as [|a X Ha IH] using set_ind_L; [done|]. intros _.
  destruct (decide (X = ∅)) as [->|HX].
  { exists a. set_solver. }
  destruct (IH HX) as (n & Hn & Hp).
  destruct (preferred_total w a n ltac:(set_solver)) as [Han|Hna].
  - exists a. split; [set_solver|]. intros p Hpin Hne.
    destruct (decide (p = n)) as [->|Hpn]; [done|].
    eapply preferred_trans; [done|]. apply Hp; set_solver.
  - exists n. split; [set_solver|]. intros p Hpin Hne.
    destruct (decide (p = a)) as [->|Hpa]; [done|]. apply Hp; set_solver.
Qed.

(** ** The published membership *)

(** The published membership is the view of the nodes that are live. *)
Definition current (n : Node) : Prop :=
  membership n = view (ID n) (dom (heartbeats n)) \/
  (membership n = None /\ heartbeats n = ∅).

Lemma publish_current n : current (publishMembershipChange n).
Proof. left. reflexivity. Qed.

(** A change of the heartbeats that does not change who is live. *)
Lemma current_same_nodes n n' :
  ID n' = ID n -> membership n' = membership n -> dom (heartbeats n') = dom (heartbeats n) ->
  current n -> current n'.
Proof.
  intros Hid Hm Hd [Hc|[Hc He]].
  - left. by rewrite Hm, Hid, Hd.
  - right. rewrite Hm. split; [done|]. apply dom_empty_inv_L. by rewrite Hd, He, dom_empty_L.
Qed.

Lemma handleHeartbeat_spec id now n n' changed :
  handleHeartbeat id now n = (n', changed) ->
  ID n' = ID n /\ Timeout n' = Timeout n /\ membership n' = membership n /\
  (changed = false -> dom (heartbeats n') = dom (heartbeats n)) /\
  heartbeats n' = match (if decide (id = "") then None else Parse id) with
                  | Some k => <[k := now]> (heartbeats n)
                  | None => heartbeats n
                  end.
Proof.
  unfold handleHeartbeat, recordHeartbeat. case_decide as Hid.
  { intros [= <- <-]. by split_and!. }
  destruct (Parse id) as [nid|]; last first.
  { intros [= <- <-]. by split_and!. }
  destruct (heartbeats n !! nid) as [t0|] eqn:Hl.
  - intros [= <- <-]. cbn. split_and!; try done. intros _. rewrite dom_insert_L.
    apply elem_of_dom_2 in Hl. set_solver.
  - intros [= <- <-]. destruct (negb _); cbn; split_and!; done.
Qed.

Lemma drainHeartbeats_spec waiting : forall n c n' changed,
  drainHeartbeats waiting n c = (n', changed) ->
  ID n' = ID n /\ Timeout n' = Timeout n /\ membership n' = membership n /\
  (c = true -> changed = true) /\
  (changed = false -> dom (heartbeats n') = dom (heartbeats n)).
Proof.
  induction waiting as [|[id now] waiting IH]; intros n c n' changed; cbn.
  { intros [= <- <-]. by split_and!. }
  destruct (handleHeartbeat id now n) as [n1 c1] eqn:Hh.
  destruct (handleHeartbeat_spec _ _ _ _ _ Hh) as (Hid & Ht & Hm & Hd & _). intros Hr.
  destruct (IH _ _ _ _ Hr) as (Hid' & Ht' & Hm' & Hc' & Hd').
  split_and!; try congruence.
  - intros ->. by apply Hc'.
  - intros ->. rewrite Hd' by done. apply Hd. destruct c1; [|done].
    destruct c; cbn in Hc'; by specialize (Hc' eq_refl).
Qed.

(** The time at which a node was last heard, after a drain. *)
Lemma drainHeartbeats_keeps waiting : forall n c k t,
  heartbeats n !! k = Some t -> exists t', heartbeats (drainHeartbeats waiting n c).1 !! k = Some t' /\
    (t' = t \/ exists id, (id, t') ∈ waiting).
Proof.
  induction waiting as [|[id now] waiting IH]; intros n c k t Hk; cbn; [eauto|].
  destruct (handleHeartbeat id now n) as [n1 c1] eqn:Hh.
  destruct (handleHeartbeat_spec _ _ _ _ _ Hh) as (_ & _ & _ & _ & Hb).
  assert (Hk1 : exists t1, heartbeats n1 !! k = Some t1 /\ (t1 = t \/ t1 = now)).
  { rewrite Hb. destruct (if decide (id = "") then None else Parse id) as [k'|]; [|eauto].
    destruct (decide (k' = k)) as [->|Hne]; [rewrite lookup_insert_eq; eauto|].
    rewrite lookup_insert_ne by done. eauto. }
  destruct Hk1 as (t1 & Hk1 & Ht1). destruct (IH n1 (c || c1) k t1 Hk1) as (t' & Ht' & Hor).
  exists t'. split; [done|]. destruct Hor as [->|[id' Hin]].
  - destruct Ht1 as [->| ->]; [by left|]. right. exists id. left.
  - right. exists id'. by right.
Qed.

Lemma drainHeartbeats_hears waiting : forall n c id t k,
  (id, t) ∈ waiting -> id <> "" -> Parse id = Some k ->
  exists id' t', (id', t') ∈ waiting /\ heartbeats (drainHeartbeats waiting n c).1 !! k = Some t'.
Proof.
  induction waiting as [|[id0 t0] waiting IH]; intros n c id t k Hin Hid Hp.
  { by apply elem_of_nil in Hin. }
  cbn. destruct (handleHeartbeat id0 t0 n) as [n1 c1] eqn:Hh.
  apply elem_of_cons in Hin as [[= <- <-]|Hin].
  - destruct (handleHeartbeat_spec _ _ _ _ _ Hh) as (_ & _ & _ & _ & Hb).
    rewrite decide_False, Hp in Hb by done.
    destruct (drainHeartbeats_keeps waiting n1 (c || c1) k t) as (t' & Ht' & Hor).
    { rewrite Hb. apply lookup_insert_eq. }
    destruct Hor as [->|[id' Hin]].
    + exists id, t. split; [left|done].
    + exists id', t'. split; [by right|done].
  - destruct (IH n1 (c || c1) id t k Hin Hid Hp) as (id' & t' & Hin' & Ht').
    exists id', t'. split; [by right|done].
Qed.

Lemma expire_keeps_changed timeout now nodes : forall beats, (expire timeout now nodes beats true).2 = true.
Proof. induction nodes as [|[id t0] nodes IH]; intros beats; cbn; [done|]. case_decide; apply IH. Qed.

Lemma expire_spec timeout now nodes : forall beats c,
  let r := expire timeout now nodes beats c in
  (forall k t, r.1 !! k = Some t <->
     beats !! k = Some t /\ forall t', (k, t') ∈ nodes -> now - t' <= timeout) /\
  (r.2 = false -> r.1 = beats).
Proof.
  induction nodes as [|[id t0] nodes IH]; intros beats c; cbn.
  { split; [|done]. intros k t. split; [|by intros []]. intros Hk. split; [done|].
    intros t' Ht. by apply elem_of_nil in Ht. }
  case_decide as Hle.
  - destruct (IH beats c) as [Hk Hc]. split; [|done]. intros k t. rewrite Hk.
    setoid_rewrite elem_of_cons. naive_solver.
  - destruct (IH (delete id beats) true) as [Hk _]. split.
    + intros k t. rewrite Hk, lookup_delete_Some. setoid_rewrite elem_of_cons. naive_solver.
    + by rewrite expire_keeps_changed.
Qed.

(** The nodes that remain are those heard within the timeout. *)
Lemma expireNodes_spec now n n' changed :
  expireNodes now n = (n', changed) ->
  ID n' = ID n /\ Timeout n' = Timeout n /\ membership n' = membership n /\
  (changed = false -> heartbeats n' = heartbeats n) /\
  (forall k t, heartbeats n' !! k = Some t <->
     heartbeats n !! k = Some t /\ now - t <= Timeout n).
Proof.
  unfold expireNodes.
  destruct (expire_spec (Timeout n) now (map_to_list (heartbeats n)) (heartbeats n) false) as [Hk Hc].
  destruct (expire _ _ _ _ _) as [kept c]. cbn in Hk, Hc. intros [= <- <-]. cbn.
  split_and!; try done. intros k t. rewrite Hk. setoid_rewrite elem_of_map_to_list. naive_solver.
Qed.

Lemma Run_event_current e n n' b :
  current n -> Run_event e n = (n', b) ->
  ID n' = ID n /\ (b = true -> current n') /\
  (b = false -> membership n' = Some (mkMembership 0 false ∅)).
Proof.
  intros Hc. destruct e as [id now|waiting closed now|]; cbn.
  - destruct (handleHeartbeat id now n) as [n1 c] eqn:Hh.
    destruct (handleHeartbeat_spec _ _ _ _ _ Hh) as (Hid & _ & Hm & Hd & _).
    intros [= <- <-]. destruct c; split_and!; try done.
    + intros _. apply publish_current.
    + intros _. eapply current_same_nodes; eauto.
  - destruct (drainHeartbeats waiting (sendHeartbeat n) false) as [n1 c] eqn:Hdr.
    destruct (drainHeartbeats_spec _ _ _ _ _ Hdr) as (Hid & _ & Hm & _ & Hd). cbn in *.
    destruct closed; [by intros [= <- <-]|].
    destruct (expireNodes now n1) as [n2 c2] eqn:Hex.
    destruct (expireNodes_spec _ _ _ _ Hex) as (Hid2 & _ & Hm2 & Hd2 & _).
    intros [= <- <-]. destruct (c || c2) eqn:Hcc; cbn.
    + split_and!; try congruence. intros _. apply publish_current.
    + apply orb_false_iff in Hcc as [-> ->]. split_and!; try congruence. intros _.
      apply (current_same_nodes n); try congruence. rewrite Hd2 by done. by apply Hd.
  - by intros [= <- <-].
Qed.

Lemma Run_loop_current es : forall n n' b,
  current n -> Run_loop es n = (n', b) ->
  ID n' = ID n /\ (b = true -> current n') /\
  (b = false -> membership n' = Some (mkMembership 0 false ∅)).
Proof.
  induction es as [|e es IH]; intros n n' b Hc; cbn; [by intros [= <- <-]|].
  destruct (Run_event e n) as [n1 b1] eqn:He.
  destruct (Run_event_current _ _ _ _ Hc He) as (Hid & Ht & Hf).
  destruct b1; [|by intros [= <- <-]]. intros Hr.
  destruct (IH _ _ _ (Ht eq_refl) Hr) as (Hid' & ? & ?). split_and!; [congruence|done|done].
Qed.
End cluster.

(** ** Properties *)

(** C17: while the nodes of a cluster agree on who is live, every workload is the
    responsibility of exactly one of them, whatever the hash function; a node that
    does not hear its own heartbeats is responsible for nothing. *)
Theorem exactly_one_node_is_responsible `{Rendezvous} (live : gset UUID) (w : UUID) :
  live <> ∅ ->
  (exists n, n ∈ live /\ LocalNodeIsResponsibleFor (view n live) w = true /\
     forall n', LocalNodeIsResponsibleFor (view n' live) w = true -> n' = n) /\
  (forall n, n ∉ live -> LocalNodeIsResponsibleFor (view n live) w = false) /\
  LocalNodeIsResponsibleFor None w = false.
Proof.
  intros Hne. split_and!; [| |done].
  - destruct (preferred_exists w live Hne) as (n & Hn & Hp). exists n.
    split_and!; [done|by apply responsible_iff|]. intros n' [Hn' Hp']%responsible_iff.
    destruct (decide (n' = n)) as [|Hd]; [done|]. exfalso. apply (preferred_irrefl w n).
    eapply preferred_trans; [by apply Hp|by apply Hp'].
  - intros n Hn. apply not_true_iff_false. intros [? _]%responsible_iff. done.
Qed.

(** When a node joins, a workload stays where it is or moves to the node
    that joined; when a node leaves, the workloads of the other nodes stay where
    they are. *)
Theorem membership_change_moves_little `{Rendezvous} (live : gset UUID) (joined n : UUID) (w : UUID) :
  joined ∉ live ->
  (LocalNodeIsResponsibleFor (view n live) w = true ->
   LocalNodeIsResponsibleFor (view n ({[joined]} ∪ live)) w = true \/
   LocalNodeIsResponsibleFor (view joined ({[joined]} ∪ live)) w = true) /\
  (n <> joined -> LocalNodeIsResponsibleFor (view n ({[joined]} ∪ live)) w = true ->
   LocalNodeIsResponsibleFor (view n live) w = true).
Proof.
  intros Hj. rewrite !responsible_iff. split.
  - intros [Hn Hp]. destruct (preferred_total w joined n ltac:(set_solver)) as [Hjn|Hnj].
    + right. split; [set_solver|]. intros p Hpin Hne.
      destruct (decide (p = n)) as [->|Hpn]; [done|]. eapply preferred_trans; [done|].
      apply Hp; set_solver.
    + left. split; [set_solver|]. intros p Hpin Hne.
      destruct (decide (p = joined)) as [->|Hpj]; [done|]. apply Hp; set_solver.
  - intros Hnj [Hn Hp]. split; [set_solver|]. intros p Hpin Hne. apply Hp; [set_solver|done].
Qed.

(** C34: [Node.Run] panics exactly when its interval is not positive or its
    timeout does not exceed the interval; at every point of its loop, the
    membership it has published is the view of exactly the nodes it holds to be
    live, although it publishes only when a handler reports a change; and once it
    returns, the membership has no live nodes. *)
Theorem published_membership_is_current `{Rendezvous} es n :
  membership n = None -> heartbeats n = ∅ ->
  match Run es n with
  | Panic _ => Interval n <= 0 \/ Timeout n <= Interval n
  | Ret (n', b) =>
      0 < Interval n < Timeout n /\
      (if (b : bool) then current n'
       else forall w, LocalNodeIsResponsibleFor (membership n') w = false)
  end.
Proof.
  intros Hm Hb. unfold Run. case_decide; [by left|]. case_decide; [by right|].
  destruct (Run_loop es (sendHeartbeat n)) as [n' b] eqn:Hr.
  destruct (Run_loop_current es (sendHeartbeat n) n' b) as (_ & Ht & Hf); [by right|done|].
  split; [lia|]. destruct b; [by apply Ht|]. intros w. by rewrite Hf.
Qed.

(** A tick expires exactly the nodes that have not been heard within the
    timeout, counting the heartbeats that were waiting when the tick was handled;
    so a node whose heartbeat was waiting is kept, however long ago its previous
    one was read, as long as the waiting heartbeats are read within the timeout
    before the expiry. *)
Theorem tick_expires_silent_nodes `{Rendezvous} n waiting now :
  let n1 := (drainHeartbeats waiting (sendHeartbeat n) false).1 in
  let r := Run_event (Tick waiting false now) n in
  r.2 = true /\
  (forall k t, heartbeats r.1 !! k = Some t <-> heartbeats n1 !! k = Some t /\ now - t <= Timeout n) /\
  ((forall id t, (id, t) ∈ waiting -> now - t <= Timeout n) ->
   forall k id t, (id, t) ∈ waiting -> id <> "" -> Parse id = Some k -> k ∈ dom (heartbeats r.1)).
Proof.
  cbn. destruct (drainHeartbeats waiting (sendHeartbeat n) false) as [n1 c] eqn:Hd.
  destruct (drainHeartbeats_spec _ _ _ _ _ Hd) as (_ & Ht & _). cbn in Ht.
  destruct (expireNodes now n1) as [n2 c2] eqn:Hex.
  destruct (expireNodes_spec _ _ _ _ Hex) as (_ & _ & _ & _ & Hk). rewrite Ht in Hk. cbn.
  assert (Hn2 : heartbeats (if c || c2 then publishMembershipChange n2 else n2) = heartbeats n2)
    by (by destruct (c || c2)). rewrite Hn2.
  split_and!; [done|done|]. intros Hwin k id t Hin Hid Hp.
  destruct (drainHeartbeats_hears waiting (sendHeartbeat n) false id t k Hin Hid Hp)
    as (id' & t' & Hin' & Ht'). rewrite Hd in Ht'. apply elem_of_dom. exists t'. apply Hk.
  split; [done|]. by eapply Hwin.
Qed.

(** UUIDs ordered as numbers, with a hash function that has ties. *)
#[export, refine] Instance example_rendezvous : Rendezvous := {
  score w n := Z.of_N ((w + n) mod 3);
  Less a b := (a <? b)%N;
  Parse s := match s with String a EmptyString => Some (Ascii.N_of_ascii a) | _ => None end;
}.
Proof.
  - intros a. apply N.ltb_irrefl.
  - intros a b c. rewrite !N.ltb_lt. lia.
  - intros a b. rewrite !N.ltb_lt. lia.
Defined.

Lemma exactly_one_node_is_responsible_witness :
  exists n, n ∈ ({[1%N; 4%N; 5%N]} : gset UUID) /\
    LocalNodeIsResponsibleFor (view n {[1%N; 4%N; 5%N]}) 1 = true /\
    forall n', LocalNodeIsResponsibleFor (view n' {[1%N; 4%N; 5%N]}) 1 = true -> n' = n.
Proof. apply (exactly_one_node_is_responsible {[1%N; 4%N; 5%N]} 1). discriminate. Defined.

Lemma membership_change_moves_little_witness :
  LocalNodeIsResponsibleFor (view 1 {[1%N; 5%N]}) 1 = true.
Proof.
  apply (membership_change_moves_little {[1%N; 5%N]} 4 1 1).
  - intros Hin. apply (bool_decide_eq_true_2 _) in Hin. vm_compute in Hin. discriminate.
  - discriminate.
  - vm_compute. reflexivity.
Defined.

Lemma published_membership_is_current_witness :
  match Run [Heartbeat "A" 1; Heartbeat "B" 2; Tick [("B", 12)] false 12]
          (mkNode 65 3 10 ∅ None 0) with
  | Panic _ => False
  | Ret (n', b) => current n' /\ b = true /\ dom (heartbeats n') = {[66%N]}
  end.
Proof.
  pose proof (published_membership_is_current
    [Heartbeat "A" 1; Heartbeat "B" 2; Tick [("B", 12)] false 12] (mkNode 65 3 10 ∅ None 0)
    eq_refl eq_refl) as H.
  destruct (Run _ _) as [[n' b]|msg] eqn:Hr; [|vm_compute in Hr; discriminate].
  vm_compute in Hr. injection Hr as <- <-. destruct H as [_ H]. split_and!; [exact H|reflexivity|].
  vm_compute. reflexivity.
Defined.

Lemma tick_expires_silent_nodes_witness :
  (66%N : UUID) ∈ dom (heartbeats
    (Run_event (Tick [("B", 95)] false 100) (mkNode 65 3 10 {[66%N := 1]} None 0)).1).
Proof.
  apply (tick_expires_silent_nodes (mkNode 65 3 10 {[66%N := 1]} None 0) [("B", 95)] 100)
    with (id := "B") (t := 95).
  - intros id t [= -> ->]%list_elem_of_singleton. cbn. lia.
  - left.
  - discriminate.
  - reflexivity.
Defined.
