(* ===== verification/Signal.v ===== *)
(** * The signal bus

    Models [internal/signal/bus.go]: subscriptions to a hierarchy of topics, whose
    channels are bounded and lossy.  Here a notification that arrives is a call of
    [dispatch], and a new connection is a call of [wake]; [Listener] has the
    connection on which they arrive.  A subscriber is an object on a heap; it is
    removed from the set of subscribers under the mutex and its channel is closed
    afterwards, without it. *)

From S2P Require Import Prelude Errors.

(** ** Topics *)

(** [strings.CutPrefix]. *)
Fixpoint CutPrefix (s prefix : string) {struct prefix} : option string :=
  match prefix, s with
  | EmptyString, _ => Some s
  | String a prefix', String b s' => if decide (a = b) then CutPrefix s' prefix' else None
  | String _ _, EmptyString => None
  end.

(** [subtopicOf]; [None] is false. *)
Definition subtopicOf (parent topic : string) : option string :=
  if decide (topic = parent) then Some ""
  else CutPrefix topic (parent +:+ ".").

(** ** State *)

Record subscriber := mkSubscriber {
  Topic : string;
  channel : list string;        (* the contents of the channel *)
  capacity : Z;
  closed : bool;
}.

Record Bus := mkBus {
  subscribers : gset nat;
  heap : gmap nat subscriber;
}.

(** ** Operations *)

(** A send that does not block: a signal that finds the channel full is dropped.
    Sending on a closed channel panics. *)
Definition try_send (v : string) (p : nat) (h : gmap nat subscriber) : go (gmap nat subscriber) :=
  match h !! p with
  | None => Panic "nil pointer dereference"
  | Some sub =>
      if closed sub then Panic "send on closed channel"
      else if decide (len (channel sub) < capacity sub) then
        Ret (<[p := mkSubscriber (Topic sub) (channel sub ++ [v]) (capacity sub) false]> h)
      else Ret h
  end.

(** [Watch], where [p] is the address of the new subscriber. *)
Definition Watch (p : nat) (topic : string) (cap : Z) (b : Bus) : go Bus :=
  if decide (cap <= 0) then Panic "capacity must be positive"
  else Ret (mkBus ({[p]} ∪ subscribers b) (<[p := mkSubscriber topic [""] cap false]> (heap b))).

(** The part of [unsubscribe] that holds the mutex. *)
Definition unsubscribe (p : nat) (b : Bus) : Bus := mkBus (subscribers b ∖ {[p]}) (heap b).

(** The rest of [unsubscribe], which [sync.OnceFunc] performs once. *)
Definition close_channel (p : nat) (b : Bus) : go Bus :=
  match heap b !! p with
  | None => Panic "nil pointer dereference"
  | Some sub =>
      if closed sub then Panic "close of closed channel"
      else Ret (mkBus (subscribers b)
                  (<[p := mkSubscriber (Topic sub) (channel sub) (capacity sub) true]> (heap b)))
  end.

(** [wake]. *)
Definition wake (b : Bus) : go Bus :=
  h ← each (try_send "") (elements (subscribers b)) (heap b);
  Ret (mkBus (subscribers b) h).

(** The body of the loop of [dispatch]. *)
Definition dispatch_to (topic : string) (p : nat) (h : gmap nat subscriber)
    : go (gmap nat subscriber) :=
  match h !! p with
  | None => Panic "nil pointer dereference"
  | Some sub =>
      match subtopicOf (Topic sub) topic with
      | Some subtopic => try_send subtopic p h
      | None => Ret h
      end
  end.

(** [dispatch]. *)
Definition dispatch (topic : string) (b : Bus) : go Bus :=
  h ← each (dispatch_to topic) (elements (subscribers b)) (heap b);
  Ret (mkBus (subscribers b) h).

(** A watcher receives from its channel. *)
Definition receive (p : nat) (b : Bus) : option (string * Bus) :=
  match heap b !! p with
  | Some sub =>
      match channel sub with
      | v :: rest =>
          Some (v, mkBus (subscribers b)
                     (<[p := mkSubscriber (Topic sub) rest (capacity sub) (closed sub)]> (heap b)))
      | [] => None
      end
  | None => None
  end.

(** ** Interleavings *)

(** The subscribers whose [unsubscribe] has begun are in [stopping] until their
    channel is closed. *)
Record System := mkSystem { bus : Bus; stopping : gset nat; stopped : gset nat }.

Inductive step (y : System) : System -> Prop :=
| step_watch p topic cap b' :
    heap (bus y) !! p = None -> Watch p topic cap (bus y) = Ret b' ->
    step y (mkSystem b' (stopping y) (stopped y))
| step_unsubscribe p sub :
    heap (bus y) !! p = Some sub -> p ∉ stopping y -> p ∉ stopped y ->
    step y (mkSystem (unsubscribe p (bus y)) ({[p]} ∪ stopping y) (stopped y))
| step_close p b' :
    p ∈ stopping y -> close_channel p (bus y) = Ret b' ->
    step y (mkSystem b' (stopping y ∖ {[p]}) ({[p]} ∪ stopped y))
| step_wake b' : wake (bus y) = Ret b' -> step y (mkSystem b' (stopping y) (stopped y))
| step_dispatch topic b' :
    dispatch topic (bus y) = Ret b' -> step y (mkSystem b' (stopping y) (stopped y))
| step_receive p v b' :
    receive p (bus y) = Some (v, b') -> step y (mkSystem b' (stopping y) (stopped y)).

Definition initial : System := mkSystem (mkBus ∅ ∅) ∅ ∅.

(** ** Topics: lemmas *)

Lemma CutPrefix_spec prefix : forall s rest, CutPrefix s prefix = Some rest <-> s = prefix +:+ rest.
Proof.
  induction prefix as [|a prefix IH]; intros s rest; cbn.
  - split; [by intros [= ->]|by intros ->].
  - destruct s as [|b s]; [done|]. case_decide as Hab.
    + subst b. rewrite IH. split; [by intros ->|by intros [= ->]].
    + split; [done|]. intros [= ->]. done.
Qed.

Lemma app_dot_neq s rest : s +:+ "." +:+ rest <> s.
Proof. induction s as [|a s IH]; cbn; [done|]. intros [= Hs]. by apply IH. Qed.

Lemma string_app_assoc (a b c : string) : (a +:+ b) +:+ c = a +:+ b +:+ c.
Proof.
  induction a as [|x a IH]; [done|].
  change (String x ((a +:+ b) +:+ c) = String x (a +:+ b +:+ c)). by rewrite IH.
Qed.

(** ** The invariant *)

(** A subscriber to which a signal may be sent. *)
Definition live (sub : subscriber) : Prop :=
  closed sub = false /\ 0 < capacity sub /\ len (channel sub) <= capacity sub.

Record inv (y : System) : Prop := mkInv {
  inv_subs : forall p, p ∈ subscribers (bus y) ->
    (exists sub, heap (bus y) !! p = Some sub /\ live sub) /\ (p ∉ stopping y) /\ (p ∉ stopped y);
  inv_stopping : forall p, p ∈ stopping y ->
    (exists sub, heap (bus y) !! p = Some sub /\ closed sub = false) /\ (p ∉ stopped y);
  inv_stopped : forall p, p ∈ stopped y -> exists sub, heap (bus y) !! p = Some sub;
  inv_all : forall p sub, heap (bus y) !! p = Some sub ->
    p ∈ subscribers (bus y) \/ p ∈ stopping y \/ p ∈ stopped y;
}.

(** What a signal does to a subscriber's channel. *)
Definition sent (v : string) (sub : subscriber) : subscriber :=
  if decide (len (channel sub) < capacity sub)
  then mkSubscriber (Topic sub) (channel sub ++ [v]) (capacity sub) false else sub.

Definition dispatched (topic : string) (sub : subscriber) : subscriber :=
  match subtopicOf (Topic sub) topic with Some v => sent v sub | None => sub end.

Lemma sent_live v sub : live sub -> live (sent v sub) /\ channel (sent v sub) <> [].
Proof.
  unfold live, sent. intros (Hc & Hcap & Hlen). case_decide as Hroom; cbn.
  - split; [split_and!; [done|done|]|by destruct (channel sub)]. rewrite len_app, len_cons, len_nil. lia.
  - split; [done|]. intros He. rewrite He, len_nil in Hroom. lia.
Qed.

Lemma try_send_live v p h sub :
  h !! p = Some sub -> live sub -> try_send v p h = Ret (<[p := sent v sub]> h).
Proof.
  intros Hp (Hc & _). unfold try_send, sent. rewrite Hp, Hc. case_decide; [done|].
  by rewrite insert_id.
Qed.

Lemma dispatch_to_live topic p h sub :
  h !! p = Some sub -> live sub -> dispatch_to topic p h = Ret (<[p := dispatched topic sub]> h).
Proof.
  intros Hp Hl. unfold dispatch_to, dispatched. rewrite Hp. destruct (subtopicOf _ _).
  - by apply try_send_live.
  - by rewrite insert_id.
Qed.

(** A loop over the subscribers. *)
Lemma each_subscriber f g y :
  inv y -> (forall p h sub, h !! p = Some sub -> live sub -> f p h = Ret (<[p := g sub]> h)) ->
  exists h', each f (elements (subscribers (bus y))) (heap (bus y)) = Ret h' /\
    forall p, h' !! p = if decide (p ∈ subscribers (bus y)) then g <$> heap (bus y) !! p
                        else heap (bus y) !! p.
Proof.
  intros Hi Hf. destruct (each_heap f (fun _ => g) live Hf (elements (subscribers (bus y))) (heap (bus y)))
    as (h' & He & Hh').
  - apply NoDup_elements.
  - intros p Hp. apply (inv_subs y Hi). by apply elem_of_elements.
  - exists h'. split; [done|]. intros p. rewrite Hh'.
    destruct (decide (p ∈ subscribers (bus y))) as [Hp|Hp].
    + by rewrite decide_True by (by apply elem_of_elements).
    + by rewrite decide_False by (by rewrite elem_of_elements).
Qed.

Lemma inv_each y g h' :
  inv y -> (forall sub, live sub -> live (g sub)) ->
  (forall p, h' !! p = if decide (p ∈ subscribers (bus y)) then g <$> heap (bus y) !! p
                       else heap (bus y) !! p) ->
  inv (mkSystem (mkBus (subscribers (bus y)) h') (stopping y) (stopped y)).
Proof.
  intros [H1 H2 H3 H4] Hg Hh. split; cbn.
  - intros p Hp. destruct (H1 p Hp) as ((sub & Hs & Hl) & ?). split; [|done].
    exists (g sub). rewrite Hh, decide_True, Hs by done. split; [done|auto].
  - intros p Hp. destruct (H2 p Hp) as ((sub & Hs & Hl) & ?). split; [|done].
    exists sub. rewrite Hh, decide_False; [done|]. intros Hp'. by apply H1 in Hp' as (_ & ? & _).
  - intros p Hp. destruct (H3 p Hp) as (sub & Hs). exists sub. rewrite Hh, decide_False; [done|].
    intros Hp'. by apply H1 in Hp' as (_ & _ & ?).
  - intros p sub Hp. rewrite Hh in Hp. case_decide; [by left|eauto].
Qed.

Lemma wake_spec y : inv y -> exists h', wake (bus y) = Ret (mkBus (subscribers (bus y)) h') /\
  forall p, h' !! p = if decide (p ∈ subscribers (bus y)) then sent "" <$> heap (bus y) !! p
                      else heap (bus y) !! p.
Proof.
  intros Hi. unfold wake. destruct (each_subscriber _ _ y Hi (try_send_live "")) as (h' & -> & Hh).
  by exists h'.
Qed.

Lemma dispatch_spec topic y : inv y ->
  exists h', dispatch topic (bus y) = Ret (mkBus (subscribers (bus y)) h') /\
  forall p, h' !! p = if decide (p ∈ subscribers (bus y)) then dispatched topic <$> heap (bus y) !! p
                      else heap (bus y) !! p.
Proof.
  intros Hi. unfold dispatch.
  destruct (each_subscriber _ _ y Hi (dispatch_to_live topic)) as (h' & -> & Hh). by exists h'.
Qed.

(** Replacing a subscriber by one that is at least as live. *)
Lemma inv_put y p sub sub' :
  inv y -> heap (bus y) !! p = Some sub ->
  (p ∈ subscribers (bus y) -> live sub -> live sub') ->
  (p ∈ stopping y -> closed sub = false -> closed sub' = false) ->
  inv (mkSystem (mkBus (subscribers (bus y)) (<[p := sub']> (heap (bus y)))) (stopping y) (stopped y)).
Proof.
  intros [H1 H2 H3 H4] Hp Hl Hs. split; cbn.
  - intros q Hq. destruct (H1 q Hq) as ((s & Hsq & Hlq) & ?). split; [|done].
    destruct (decide (q = p)) as [->|Hne].
    + rewrite lookup_insert_eq. exists sub'. split; [done|]. apply Hl; [done|congruence].
    + rewrite lookup_insert_ne by done. eauto.
  - intros q Hq. destruct (H2 q Hq) as ((s & Hsq & Hlq) & ?). split; [|done].
    destruct (decide (q = p)) as [->|Hne].
    + rewrite lookup_insert_eq. exists sub'. split; [done|]. apply Hs; [done|congruence].
    + rewrite lookup_insert_ne by done. eauto.
  - intros q Hq. destruct (H3 q Hq) as (s & Hsq).
    destruct (decide (q = p)) as [->|Hne]; [rewrite lookup_insert_eq; eauto|].
    rewrite lookup_insert_ne by done. eauto.
  - intros q s [[<- _]|[_ Hq]]%lookup_insert_Some; eauto.
Qed.

Lemma inv_close y p b' :
  inv y -> p ∈ stopping y -> close_channel p (bus y) = Ret b' ->
  inv (mkSystem b' (stopping y ∖ {[p]}) ({[p]} ∪ stopped y)).
Proof.
  intros [H1 H2 H3 H4] Hp. unfold close_channel.
  destruct (heap (bus y) !! p) as [sub|] eqn:Hs; [|done]. destruct (closed sub); [done|].
  intros [= <-]. split; cbn.
  - intros q Hq. destruct (H1 q Hq) as ((s & Hsq & Hlq) & Hn1 & Hn2).
    assert (q <> p) by (by intros ->). rewrite lookup_insert_ne by done.
    split; [eauto|]. set_solver.
  - intros q Hq. destruct (H2 q ltac:(set_solver)) as ((s & Hsq & Hlq) & ?).
    rewrite lookup_insert_ne by set_solver. split; [eauto|set_solver].
  - intros q Hq. destruct (decide (q = p)) as [->|Hne]; [rewrite lookup_insert_eq; eauto|].
    rewrite lookup_insert_ne by done. apply H3. set_solver.
  - intros q s [[<- _]|[Hne Hq]]%lookup_insert_Some; [set_solver|]. apply H4 in Hq. set_solver.
Qed.

Lemma bus_step_inv y y' : inv y -> step y y' -> inv y'.
Proof.
  intros Hi []; subst.
  - unfold Watch in *. case_decide; [done|]. simplify_eq. destruct Hi as [I1 I2 I3 I4]. split; cbn.
    + intros q Hq. destruct (decide (q = p)) as [->|Hne].
      * rewrite lookup_insert_eq. split.
        { eexists. split; [done|]. unfold live. cbn. split_and!; [done|lia|rewrite len_cons, len_nil; lia]. }
        split; intros Hx; [apply I2 in Hx as ((? & ? & _) & _)|apply I3 in Hx as (? & ?)]; congruence.
      * rewrite lookup_insert_ne by done. apply I1. set_solver.
    + intros q Hq. rewrite lookup_insert_ne; [auto|]. intros <-.
      apply I2 in Hq as ((? & ? & _) & _). congruence.
    + intros q Hq. rewrite lookup_insert_ne; [auto|]. intros <-.
      apply I3 in Hq as (? & ?). congruence.
    + intros q s [[<- _]|[_ Hq]]%lookup_insert_Some; [set_solver|]. apply I4 in Hq. set_solver.
  - destruct Hi as [I1 I2 I3 I4]. split; cbn.
    + intros q Hq. destruct (I1 q ltac:(set_solver)) as (? & ? & ?). set_solver.
    + intros q [->%elem_of_singleton|Hq]%elem_of_union; [|by apply I2].
      split; [|done]. destruct (decide (p ∈ subscribers (bus y))) as [Hin|Hout].
      * destruct (I1 p Hin) as ((s & Hs & Hc & _) & _). eauto.
      * exfalso. destruct (I4 p sub ltac:(done)) as [?|[?|?]]; done.
    + done.
    + intros q s Hq. destruct (decide (q = p)) as [->|Hne]; [set_solver|].
      apply I4 in Hq. set_solver.
  - by eapply inv_close.
  - destruct (wake_spec y Hi) as (h' & Hw & Hh). rewrite Hw in *. simplify_eq.
    eapply inv_each; [done| |exact Hh]. intros sub Hl. by apply sent_live.
  - destruct (dispatch_spec topic y Hi) as (h' & Hw & Hh). rewrite Hw in *. simplify_eq.
    eapply inv_each; [done| |exact Hh]. intros sub Hl. unfold dispatched.
    destruct (subtopicOf _ _); [by apply sent_live|done].
  - unfold receive in *. destruct (heap (bus y) !! p) as [sub|] eqn:Hs; [|done].
    destruct (channel sub) as [|v' rest] eqn:Hch; [done|]. simplify_eq.
    eapply inv_put; [done|done| |done]. intros _ (Hc & Hcap & Hlen). split_and!; try done. cbn.
    rewrite Hch, len_cons in Hlen. lia.
Qed.

Lemma bus_reachable_inv y : rtc step initial y -> inv y.
Proof.
  apply (rtc_ind_r (fun y => inv y)).
  - split; cbn; try done; set_solver.
  - intros y1 y2 _ Hs Hi. by eapply bus_step_inv.
Qed.

(** ** Properties *)

(** A subscriber of a topic is signaled for exactly that topic and those
    beneath it, and the value it receives is the part of the signal's topic
    beneath its own. *)
Theorem subtopicOf_hierarchy parent topic sub :
  subtopicOf parent topic = Some sub <->
  (topic = parent /\ sub = "") \/ topic = parent +:+ "." +:+ sub.
Proof.
  unfold subtopicOf. case_decide as Ht.
  - subst. split; [intros [= <-]; by left|]. intros [[_ ->]|Hs]; [done|].
    symmetry in Hs. by apply app_dot_neq in Hs.
  - rewrite CutPrefix_spec, string_app_assoc. naive_solver.
Qed.

(** However subscriptions, signals and the two parts of [unsubscribe]
    interleave, [wake], [dispatch] and the closing of a channel never panic, no
    channel exceeds its capacity, and no signal is lost altogether: after a signal
    on a topic that a subscriber watches, and after [wake], the subscriber's
    channel is not empty, so that the watcher will read its state again. *)
Theorem signals_are_not_lost y topic p sub :
  rtc step initial y ->
  (exists b', wake (bus y) = Ret b') /\ (exists b', dispatch topic (bus y) = Ret b') /\
  (forall q, q ∈ stopping y -> exists b', close_channel q (bus y) = Ret b') /\
  (p ∈ subscribers (bus y) -> heap (bus y) !! p = Some sub ->
   len (channel sub) <= capacity sub /\
   (forall b', wake (bus y) = Ret b' ->
      exists sub', heap b' !! p = Some sub' /\ channel sub' <> []) /\
   (forall b' v, dispatch topic (bus y) = Ret b' -> subtopicOf (Topic sub) topic = Some v ->
      exists sub', heap b' !! p = Some sub' /\ channel sub' <> [] /\
        (len (channel sub) < capacity sub -> channel sub' = channel sub ++ [v]))).
Proof.
  intros Hr. apply bus_reachable_inv in Hr as Hi.
  destruct (wake_spec y Hi) as (hw & Hw & Hhw). destruct (dispatch_spec topic y Hi) as (hd & Hd & Hhd).
  split_and!; [by eexists|by eexists| |].
  - intros q Hq. destruct (inv_stopping y Hi q Hq) as ((s & Hs & Hc) & _).
    unfold close_channel. rewrite Hs, Hc. by eexists.
  - intros Hp Hs. destruct (inv_subs y Hi p Hp) as ((s & Hs' & Hl) & _).
    rewrite Hs in Hs'. injection Hs' as <-. split_and!; [apply Hl| |].
    + intros b'. rewrite Hw. intros [= <-]. exists (sent "" sub). cbn.
      rewrite Hhw, decide_True, Hs by done. split; [done|]. by apply sent_live.
    + intros b' v. rewrite Hd. intros [= <-] Hsub. exists (sent v sub). cbn.
      rewrite Hhd, decide_True, Hs by done. cbn. unfold dispatched. rewrite Hsub.
      split_and!; [done|by apply sent_live|]. intros Hroom. unfold sent. by rewrite decide_True.
Qed.

(** A subscriber of "a", after it has received the first signal. *)
Lemma bus_example_reachable : exists y,
  rtc step initial y /\ 0%nat ∈ subscribers (bus y) /\
  heap (bus y) !! 0%nat = Some (mkSubscriber "a" [] 1 false).
Proof.
  eexists. split; [|split].
  { eapply rtc_l; [apply (step_watch _ 0 "a" 1); [reflexivity|vm_compute; reflexivity]|].
    eapply rtc_l; [eapply (step_receive _ 0); vm_compute; reflexivity|]. apply rtc_refl. }
  all: vm_compute; reflexivity.
Qed.

Lemma signals_are_not_lost_witness :
  exists y b' sub', dispatch "a.b" (bus y) = Ret b' /\ heap b' !! 0%nat = Some sub' /\
    channel sub' = ["b"].
Proof.
  destruct bus_example_reachable as (y & Hr & Hp & Hs).
  destruct (signals_are_not_lost y "a.b" 0 (mkSubscriber "a" [] 1 false) Hr)
    as (_ & (b' & Hd) & _ & H). destruct (H Hp Hs) as (_ & _ & Hdis).
  destruct (Hdis b' "b" Hd eq_refl) as (sub' & Hs' & _ & Hch).
  exists y, b', sub'. split; [exact Hd|]. split; [exact Hs'|]. apply Hch. reflexivity.
Defined.
