(* ===== verification/Listener.v ===== *)
(** * The connection of the signal bus

    Models the rest of [internal/signal/bus.go]: [Send], and [run] with the
    dedicated connection on which it listens.  PostgreSQL appends a notification,
    when the transaction that sends it commits, to the queue of every session on
    which LISTEN is active; what a session has not received is lost with it.  [run]
    is a machine whose program counter says what it waits for, and which holds the
    queue of its session, so that signals, subscriptions and the watchers'
    receives interleave with it. *)

From S2P Require Import Prelude Errors Signal.

(** ** The machine of [run] *)

Inductive pc : Type :=
| Connecting                       (* [b.DB.Conn] *)
| Executing                        (* the LISTEN command *)
| Waking (queue : list string)     (* LISTEN is active, before [b.wake] *)
| Waiting (queue : list string)    (* [WaitForNotification] *)
| Returned (err : error).

(** How the database answers; [ctx_err] is [ctx.Err()] after a failure. *)
Inductive answer : Type :=
| Ok
| OtherDriver                      (* the connection is not a [*stdlib.Conn] *)
| Failed (err : error) (ctx_err : option error).

(** [run], from one answer to the next.  [WaitForNotification] does not answer
    while there is nothing in the queue, except with an error. *)
Definition run_step (a : answer) (c : pc) (b : Bus) : go (pc * Bus) :=
  match c, a with
  | Connecting, Ok => Ret (Executing, b)
  | Connecting, OtherDriver => Ret (Returned (Opaque "unexpected connection type"), b)
  | Connecting, Failed e _ => Ret (Returned e, b)
  | Executing, Failed e _ => Ret (Returned (Wrap "unable to listen for signals" e), b)
  | Executing, _ => Ret (Waking [], b)
  | Waking queue, _ => b' ← wake b; Ret (Waiting queue, b')
  | Waiting _, Failed _ (Some ctx_err) => Ret (Returned ctx_err, b)
  | Waiting _, Failed e None => Ret (Returned (Wrap "unable to wait for signal" e), b)
  | Waiting (topic :: queue), _ => b' ← dispatch topic b; Ret (Waiting queue, b')
  | Waiting [], _ => Ret (Waiting [], b)
  | Returned e, _ => Ret (Returned e, b)
  end.

(** A notification is committed. *)
Definition notify (topic : string) (c : pc) : pc :=
  match c with
  | Waking queue => Waking (queue ++ [topic])
  | Waiting queue => Waiting (queue ++ [topic])
  | _ => c
  end.

(** [Send], by any node.  [fault] is the error of the statement, which does not say
    whether it was committed. *)
Definition Send (fault : option error) (committed : bool) (topic : string) (c : pc)
    : option error * pc :=
  match fault with
  | Some e => (Some (Wrap "unable to send signal" e), if committed then notify topic c else c)
  | None => (None, notify topic c)
  end.

(** ** Interleavings *)

(** A bus with its connection, and the subscribers on whose topic a signal has
    been sent since they last received from their channel. *)
Record Net := mkNet { sys : System; conn : pc; stale : gset nat }.

Definition watches (topic : string) (b : Bus) (p : nat) : bool :=
  match heap b !! p with
  | Some sub => bool_decide (is_Some (subtopicOf (Topic sub) topic))
  | None => false
  end.

Definition watchers (topic : string) (b : Bus) : gset nat := filter (watches topic b) (subscribers b).

(** What watchers do, other than to receive. *)
Inductive watching (y : System) : System -> Prop :=
| watching_watch p topic cap b' :
    heap (bus y) !! p = None -> Watch p topic cap (bus y) = Ret b' ->
    watching y (mkSystem b' (stopping y) (stopped y))
| watching_unsubscribe p sub :
    heap (bus y) !! p = Some sub -> p ∉ stopping y -> p ∉ stopped y ->
    watching y (mkSystem (unsubscribe p (bus y)) ({[p]} ∪ stopping y) (stopped y))
| watching_close p b' :
    p ∈ stopping y -> close_channel p (bus y) = Ret b' ->
    watching y (mkSystem b' (stopping y ∖ {[p]}) ({[p]} ∪ stopped y)).

Definition with_bus (b : Bus) (y : System) : System := mkSystem b (stopping y) (stopped y).

Inductive net_step (n : Net) : Net -> Prop :=
| net_watching y' : watching (sys n) y' -> net_step n (mkNet y' (conn n) (stale n))
| net_receive p v b' :
    receive p (bus (sys n)) = Some (v, b') ->
    net_step n (mkNet (with_bus b' (sys n)) (conn n) (stale n ∖ {[p]}))
| net_send fault committed topic :
    let c' := (Send fault committed topic (conn n)).2 in
    let sent := if committed then true else bool_decide (fault = None) in
    net_step n (mkNet (sys n) c'
      (if sent then stale n ∪ watchers topic (bus (sys n)) else stale n))
| net_run a c' b' :
    run_step a (conn n) (bus (sys n)) = Ret (c', b') ->
    net_step n (mkNet (with_bus b' (sys n)) c' (stale n))
| net_retry e :                   (* by the supervisor *)
    conn n = Returned e -> net_step n (mkNet (sys n) Connecting (stale n)).

Definition net_initial : Net := mkNet initial Connecting ∅.

(** [run] while no answer is an error. *)
Fixpoint runs (k : nat) (c : pc) (b : Bus) : go (pc * Bus) :=
  match k with
  | O => Ret (c, b)
  | S k => '(c', b') ← run_step Ok c b; runs k c' b'
  end.

Definition steps_left (c : pc) : nat :=
  match c with
  | Connecting => 3
  | Executing => 2
  | Waking queue => S (length queue)
  | Waiting queue => length queue
  | Returned _ => 0
  end.

(** ** The invariant *)

(** A subscriber will be signaled by what [run] has yet to do. *)
Definition pending (c : pc) (sub : subscriber) : Prop :=
  match c with
  | Waiting queue => Exists (fun t => is_Some (subtopicOf (Topic sub) t)) queue
  | _ => True
  end.

Definition noticed (c : pc) (h : gmap nat subscriber) (p : nat) : Prop :=
  exists sub, h !! p = Some sub /\ (channel sub <> [] \/ pending c sub).

Record net_inv (n : Net) : Prop := mkNetInv {
  net_bus : inv (sys n);
  net_stale : forall p, p ∈ stale n -> p ∈ subscribers (bus (sys n)) ->
    noticed (conn n) (heap (bus (sys n))) p;
}.

Lemma watching_step y y' : watching y y' -> step y y'.
Proof. destruct 1; econstructor; eauto. Qed.

Lemma pending_notify topic c sub : pending c sub -> pending (notify topic c) sub.
Proof. destruct c; cbn; try done. intros H. apply Exists_app. by left. Qed.

Lemma noticed_notify topic c h p : noticed c h p -> noticed (notify topic c) h p.
Proof. intros (sub & Hs & H). exists sub. split; [done|]. destruct H; [by left|]. right. by apply pending_notify. Qed.

Lemma notify_watcher topic c b p : p ∈ watchers topic b -> noticed (notify topic c) (heap b) p.
Proof.
  unfold watchers. intros [Hw _]%elem_of_filter. unfold watches in Hw.
  destruct (heap b !! p) as [sub|] eqn:Hp; [|done]. apply bool_decide_unpack in Hw.
  exists sub. split; [done|]. right. destruct c; cbn; try done.
  apply Exists_app. right. by constructor.
Qed.

(** What a step of [run] promises. *)
Definition promised (y : System) (c : pc) (r : go (pc * Bus)) : Prop :=
  exists c' b', r = Ret (c', b') /\ inv (with_bus b' y) /\ subscribers b' = subscribers (bus y) /\
    forall p, p ∈ subscribers (bus y) -> noticed c (heap (bus y)) p -> noticed c' (heap b') p.

(** The bus is as before, and what was pending is. *)
Lemma promised_same y c c' :
  inv y -> (forall sub, pending c sub -> pending c' sub) -> promised y c (Ret (c', bus y)).
Proof.
  intros Hi Hc. exists c', (bus y). split_and!; [done|by destruct y|done|].
  intros p _ (sub & Hs & [?|?]); exists sub; split; auto.
Qed.

(** [wake] signals everyone. *)
Lemma promised_wake y c c' : inv y -> promised y c (b' ← wake (bus y); Ret (c', b')).
Proof.
  intros Hi. destruct (wake_spec y Hi) as (h' & Hw & Hh). rewrite Hw. cbn [mbind go_bind].
  eexists _, _. split; [done|]. split_and!; [|done|].
  - apply (bus_step_inv y); [done|by constructor].
  - intros p Hp _. destruct (inv_subs y Hi p Hp) as ((sub & Hs & Hl) & _).
    exists (sent "" sub). cbn. rewrite Hh, decide_True, Hs by done. split; [done|left; by apply sent_live].
Qed.

(** A subscriber for which something else is in the queue remains so. *)
Lemma dispatched_topic topic sub : Topic (dispatched topic sub) = Topic sub.
Proof. unfold dispatched, sent. destruct (subtopicOf _ _); [|done]. by case_decide. Qed.

Lemma dispatched_channel topic sub :
  live sub -> channel sub <> [] \/ is_Some (subtopicOf (Topic sub) topic) ->
  channel (dispatched topic sub) <> [].
Proof.
  intros Hl H. unfold dispatched. destruct (subtopicOf (Topic sub) topic) as [v|].
  - by apply sent_live.
  - destruct H as [H|H]; [done|by destruct H].
Qed.

(** [dispatch] signals those for whom the first signal of the queue is. *)
Lemma promised_dispatch y topic queue :
  inv y -> promised y (Waiting (topic :: queue)) (b' ← dispatch topic (bus y); Ret (Waiting queue, b')).
Proof.
  intros Hi. destruct (dispatch_spec topic y Hi) as (h' & Hd & Hh). rewrite Hd. cbn [mbind go_bind].
  eexists _, _. split; [done|]. split_and!; [|done|].
  - apply (bus_step_inv y); [done|]. by apply (step_dispatch _ topic).
  - intros p Hp (sub0 & Hs0 & Hn). destruct (inv_subs y Hi p Hp) as ((sub & Hs & Hl) & _).
    rewrite Hs in Hs0. injection Hs0 as <-. exists (dispatched topic sub). cbn.
    rewrite Hh, decide_True, Hs by done. split; [done|]. rewrite dispatched_topic.
    cbn in Hn. rewrite Exists_cons in Hn. destruct Hn as [Hn|[Hn|Hn]]; [| |by right].
    all: left; apply dispatched_channel; auto.
Qed.

(** [run_step] never panics, and does not forget a subscriber. *)
Lemma run_step_spec y a c : inv y -> promised y c (run_step a c (bus y)).
Proof.
  intros Hi. destruct c as [| |q|[|t q]|e]; destruct a as [| |e' [e''|]]; cbn [run_step];
    (by apply promised_same) || (by apply promised_wake) || (by apply promised_dispatch).
Qed.

(** A watcher that subscribes, or another that stops, changes no other. *)
Lemma watching_noticed y y' c p :
  watching y y' -> p ∈ subscribers (bus y') ->
  (p ∈ subscribers (bus y) -> noticed c (heap (bus y)) p) -> noticed c (heap (bus y')) p.
Proof.
  intros [q topic cap b' Hq Hw|q sub Hq _ _|q b' Hq Hc] Hp Hold; cbn in *.
  - unfold Watch in Hw. case_decide; [done|]. injection Hw as <-. cbn in *.
    destruct (decide (p = q)) as [->|Hne].
    + eexists. rewrite lookup_insert_eq. split; [done|]. by left.
    + destruct (Hold ltac:(set_solver)) as (sub & Hs & ?). exists sub. by rewrite lookup_insert_ne.
  - apply Hold. set_solver.
  - unfold close_channel in Hc. destruct (heap (bus y) !! q) as [sub|] eqn:Hs; [|done].
    destruct (closed sub); [done|]. injection Hc as <-. cbn in *.
    destruct (Hold Hp) as (sub' & Hs' & Hn). destruct (decide (p = q)) as [->|Hne].
    + eexists. rewrite lookup_insert_eq. split; [done|].
      rewrite Hs in Hs'. injection Hs' as <-. destruct Hn; [by left|right]. by destruct c.
    + exists sub'. by rewrite lookup_insert_ne.
Qed.

Lemma receive_inv p v b' y :
  receive p (bus y) = Some (v, b') ->
  subscribers b' = subscribers (bus y) /\ forall q, q <> p -> heap b' !! q = heap (bus y) !! q.
Proof.
  unfold receive. destruct (heap (bus y) !! p) as [sub|]; [|done].
  destruct (channel sub); [done|]. intros [= _ <-]. split; [done|]. intros q Hq. cbn.
  by rewrite lookup_insert_ne.
Qed.

Lemma net_step_inv n n' : net_inv n -> net_step n n' -> net_inv n'.
Proof.
  intros [Hi Hn] []; split; cbn [sys conn stale].
  - eapply bus_step_inv; [done|]. by apply watching_step.
  - intros p Hp Hsub. eapply watching_noticed; eauto.
  - eapply bus_step_inv; [done|]. by eapply step_receive.
  - apply receive_inv in H as [Hs Hh]. intros q [Hq Hne]%elem_of_difference Hsub. cbn in *.
    rewrite Hs in Hsub. destruct (Hn q Hq Hsub) as (sub & Hsq & ?). exists sub.
    rewrite Hh; [done|]. set_solver.
  - done.
  - intros p Hp Hsub. subst c' sent. unfold Send. destruct fault as [e|], committed; cbn in *.
    2: { by apply Hn. }
    all: apply elem_of_union in Hp as [Hp|Hp]; [apply noticed_notify; by apply Hn|by apply notify_watcher].
  - destruct (run_step_spec (sys n) a (conn n) Hi) as (c2 & b2 & Hr & Hi2 & _).
    rewrite Hr in H. injection H as <- <-. done.
  - destruct (run_step_spec (sys n) a (conn n) Hi) as (c2 & b2 & Hr & _ & Hs & Hp2).
    rewrite Hr in H. injection H as <- <-. cbn. intros p Hp Hsub. rewrite Hs in Hsub. auto.
  - done.
  - intros p Hp Hsub. destruct (Hn p Hp Hsub) as (sub & Hs & _). exists sub. cbn. auto.
Qed.

Lemma net_reachable_inv n : rtc net_step net_initial n -> net_inv n.
Proof.
  apply (rtc_ind_r (fun n => net_inv n)).
  - split; [apply bus_reachable_inv, rtc_refl|]. cbn. set_solver.
  - intros n1 n2 _ Hs Hi. by eapply net_step_inv.
Qed.

(** [run] catches up. *)
Lemma runs_drains k : forall y c,
  inv y -> (forall e, c <> Returned e) -> k = steps_left c ->
  exists b', runs k c (bus y) = Ret (Waiting [], b') /\ subscribers b' = subscribers (bus y) /\
    forall p, p ∈ subscribers (bus y) -> noticed c (heap (bus y)) p -> noticed (Waiting []) (heap b') p.
Proof.
  induction k as [|k IH]; intros y c Hi Hc Hk; cbn [runs].
  { destruct c as [| |q|[|t q]|e]; try done; [|by destruct (Hc e)]. exists (bus y). by split_and!. }
  destruct (run_step_spec y Ok c Hi) as (c' & b1 & Hr & Hi1 & Hs1 & Hp1). rewrite Hr. cbn [mbind go_bind].
  assert (k = steps_left c' /\ forall e, c' <> Returned e) as [Hk' Hne].
  { destruct c as [| |q|[|t q]|e]; try done; cbn in Hr, Hk; try (injection Hr as <- <-; split; [cbn; lia|done]);
      [destruct (wake (bus y))|destruct (dispatch t (bus y))]; try done;
      injection Hr as <- <-; (split; [cbn in *; lia|done]). }
  destruct (IH (with_bus b1 y) c' Hi1 Hne Hk') as (b' & Hb & Hs & Hp). cbn in *.
  exists b'. split_and!; [done|congruence|]. intros p Hsub Hn. apply Hp; [congruence|auto].
Qed.

(** ** Properties *)

(** C35: signals may be dropped by full channels, and are lost while the bus has
    no connection, but a subscriber is never left with a change that it does not
    know of.  However signals, subscriptions, receives, failures of the connection
    and its restarts interleave, [run] does not panic; and whenever a signal has
    been sent on the topic of a subscriber since it last received, then [run], once
    it is not interrupted by errors, comes to wait for the next notification after
    [steps_left] steps, with something for the subscriber to receive. *)
Theorem no_change_goes_unnoticed n p :
  rtc net_step net_initial n ->
  (forall a, exists c' b', run_step a (conn n) (bus (sys n)) = Ret (c', b')) /\
  ((forall e, conn n <> Returned e) -> p ∈ stale n -> p ∈ subscribers (bus (sys n)) ->
   exists b' sub, runs (steps_left (conn n)) (conn n) (bus (sys n)) = Ret (Waiting [], b') /\
     p ∈ subscribers b' /\ heap b' !! p = Some sub /\ channel sub <> []).
Proof.
  intros [Hi Hn]%net_reachable_inv. split.
  - intros a. destruct (run_step_spec (sys n) a (conn n) Hi) as (c' & b' & Hr & _). eauto.
  - intros Hc Hp Hsub. destruct (runs_drains _ (sys n) (conn n) Hi Hc eq_refl) as (b' & Hr & Hs & Hd).
    destruct (Hd p Hsub (Hn p Hp Hsub)) as (sub & Hps & [?|H]); [|by inversion H].
    exists b', sub. split_and!; [done|congruence|done|done].
Qed.

(** [Send] tells of every error, and after it has succeeded the notification is
    the last of a session that listens, and every subscriber of the topic has a
    signal to receive. *)
Theorem Send_spec fault committed topic c :
  let '(err, c') := Send fault committed topic c in
  (err = None <-> fault = None) /\
  (err = None -> forall b p, p ∈ watchers topic b -> noticed c' (heap b) p).
Proof.
  unfold Send. destruct fault as [e|]; (split; [by split|]); [done|].
  intros _ b p. apply notify_watcher.
Qed.

(** A signal is sent while the connection is down, to a subscriber that has
    received the first signal. *)
Lemma listener_example_reachable : exists n,
  rtc net_step net_initial n /\ 0%nat ∈ stale n /\ 0%nat ∈ subscribers (bus (sys n)) /\ conn n = Connecting.
Proof.
  eexists. split; [|split_and!].
  { eapply rtc_l; [apply net_watching; apply (watching_watch _ 0 "a" 1);
      [reflexivity|vm_compute; reflexivity]|].
    eapply rtc_l; [eapply (net_receive _ 0); vm_compute; reflexivity|].
    eapply rtc_l; [apply (net_send _ None true "a.b")|]. apply rtc_refl. }
  all: vm_compute; reflexivity.
Qed.

Lemma no_change_goes_unnoticed_witness :
  exists n b' sub, runs 3 Connecting (bus (sys n)) = Ret (Waiting [], b') /\
    heap b' !! 0%nat = Some sub /\ channel sub <> [].
Proof.
  destruct listener_example_reachable as (n & Hr & Hst & Hsub & Hc).
  destruct (no_change_goes_unnoticed n 0 Hr) as [_ H]. rewrite Hc in H.
  destruct (H ltac:(discriminate) Hst Hsub) as (b' & sub & Hruns & _ & Hs & Hch).
  exists n, b', sub. split; [exact Hruns|]. split; assumption.
Defined.
