(* ===== verification/Supervisor.v ===== *)
(** * The supervisor

    Models [internal/supervisor]: [Run], which retries a function with an
    exponential backoff, [Jitter] and [Group.Go].  ([Fatal] and [Persistent] are
    in [Errors].)  Durations are in nanoseconds.  What each attempt does, the
    clock, the random numbers and the cancelation of the context are inputs. *)

From S2P Require Import Prelude Errors.

Definition Millisecond : Z := 1000000.
Definition Second : Z := 1000 * Millisecond.
Definition Minute : Z := 60 * Second.

Definition baseDelay : Z := 100 * Millisecond.
Definition transientMaxDelay : Z := 15 * Second.
Definition persistentMaxDelay : Z := 5 * Minute.
Definition resetThreshold : Z := 3 * Minute.

(** [rand.N(n)], which panics if [n] is not positive; [r] is the random source. *)
Definition rand_N (r n : Z) : go Z :=
  if decide (n <= 0) then Panic "invalid argument to N" else Ret (r mod n).

(** [Jitter]. *)
Definition Jitter (r d : Z) : go Z :=
  let half := d ÷ 2 in
  x ← rand_N r (d - half + 1);
  Ret (half + x).

(** One call of the supervised function that returns, and what happens around it. *)
Record attempt := mkAttempt {
  a_err : option error;           (* what fn returns *)
  a_ctx_err : option error;       (* ctx.Err() when it has returned *)
  a_elapsed : Z;                  (* how long it ran *)
  a_rand : Z;                     (* the random number for the delay *)
  a_canceled : option error;      (* ctx.Err(), if ctx is canceled during the delay *)
}.

(** The state of the loop: the backoff, the failures, and the delays waited for. *)
Record state := mkState { backoff : Z; failures : Z; delays : list Z }.

Inductive result : Type :=
| Return (err : option error)
| Retrying.                       (* the attempts given are used up *)

(** The next backoff after a failure. *)
Definition next_backoff (err : error) (elapsed backoff : Z) : Z :=
  let limit := if IsPersistent err then persistentMaxDelay else transientMaxDelay in
  if decide (backoff = 0 \/ elapsed >= resetThreshold) then baseDelay
  else Z.min (i64 (2 * backoff)) limit.

(** The loop of [Run], under go test if [testing]; [last] is the panic of the call that
    follows those that are given, if it panics. *)
Fixpoint Run_loop (testing : bool) (attempts : list attempt) (last : option string) (s : state)
    : go (result * state) :=
  match attempts with
  | [] => match last with Some msg => Panic msg | None => Ret (Retrying, s) end
  | a :: attempts' =>
      match a_ctx_err a, a_err a with
      | Some e, _ => Ret (Return (Some e), s)
      | None, None => Ret (Return None, s)
      | None, Some err =>
          match AsFatal err with
          | Some fatal => Ret (Return (Some fatal), s)
          | None =>
              _ ← PanicOnDeadlock testing err;
              let b := next_backoff err (a_elapsed a) (backoff s) in
              let n := u64 ((if decide (backoff s = 0 \/ a_elapsed a >= resetThreshold)
                             then 0 else failures s) + 1) in
              delay ← Jitter (a_rand a) b;
              let s := mkState b n (delays s ++ [delay]) in
              match a_canceled a with
              | Some e => Ret (Return (Some e), s)
              | None => Run_loop testing attempts' last s
              end
          end
      end
  end.

Definition Run (testing : bool) (attempts : list attempt) (last : option string) : go (result * state) :=
  Run_loop testing attempts last (mkState 0 0 []).

(** The function that [Group.Go] gives to the errgroup, given what [Run] returned
    and the error of the group's context when it did. *)
Definition Group_Go (err : option error) (ctx_err : option sentinel) : option error :=
  match ctx_err with
  | Some c => if IsOpt err c then None else err
  | None => err
  end.

(** ** Delays *)

Definition backoff_ok (b : Z) : Prop := b = 0 \/ baseDelay <= b <= persistentMaxDelay.

Lemma next_backoff_bounds err elapsed b :
  backoff_ok b ->
  baseDelay <= next_backoff err elapsed b <=
    (if IsPersistent err then persistentMaxDelay else transientMaxDelay).
Proof.
  unfold backoff_ok, next_backoff, baseDelay, persistentMaxDelay, transientMaxDelay, Minute, Second,
    Millisecond. intros Hb. case_decide as Hr; [destruct (IsPersistent err); lia|].
  rewrite i64_id by (unfold is_i64; lia). destruct (IsPersistent err); lia.
Qed.

Lemma next_backoff_ok err elapsed b : backoff_ok b -> backoff_ok (next_backoff err elapsed b).
Proof.
  intros Hb. pose proof (next_backoff_bounds err elapsed b Hb) as H. right.
  unfold transientMaxDelay, persistentMaxDelay, Minute, Second, Millisecond in *.
  destruct (IsPersistent err); lia.
Qed.

(** [Jitter] returns between half and all of the duration. *)
Lemma Jitter_bounds r d : 0 <= d -> exists x, Jitter r d = Ret x /\ d ÷ 2 <= x <= d.
Proof.
  intros Hd. unfold Jitter, rand_N. pose proof (Z.quot_div_nonneg d 2 Hd ltac:(lia)) as Hq.
  pose proof (Z.div_mod d 2 ltac:(lia)). pose proof (Z.mod_pos_bound d 2 ltac:(lia)).
  rewrite decide_False by lia. cbn. eexists. split; [done|].
  pose proof (Z.mod_pos_bound r (d - d ÷ 2 + 1) ltac:(lia)). lia.
Qed.

(** The kind of failure of an attempt, and the maximum of the delay after it. *)
Definition is_persistent (a : attempt) : bool :=
  match a_err a with Some e => IsPersistent e | None => false end.

Definition max_delay (persistent : bool) : Z :=
  if persistent then persistentMaxDelay else transientMaxDelay.

Definition delay_ok (a : attempt) (d : Z) : Prop := baseDelay ÷ 2 <= d <= max_delay (is_persistent a).

Lemma delay_bounds a err b : a_err a = Some err -> backoff_ok b ->
  exists x, Jitter (a_rand a) (next_backoff err (a_elapsed a) b) = Ret x /\ delay_ok a x /\
    next_backoff err (a_elapsed a) b ÷ 2 <= x <= next_backoff err (a_elapsed a) b.
Proof.
  intros Ha Hb. pose proof (next_backoff_bounds err (a_elapsed a) b Hb) as Hn.
  set (n := next_backoff err (a_elapsed a) b) in *. clearbody n.
  destruct (Jitter_bounds (a_rand a) n) as (x & -> & Hx); [unfold baseDelay, Millisecond in Hn; lia|].
  exists x. split; [done|]. split; [|done]. unfold delay_ok, is_persistent, max_delay. rewrite Ha.
  pose proof (Z.quot_le_mono baseDelay n 2 ltac:(lia) ltac:(lia)). lia.
Qed.

(** The state after a failure that is not fatal, with the given delay. *)
Definition failed (a : attempt) (err : error) (delay : Z) (s : state) : state :=
  mkState (next_backoff err (a_elapsed a) (backoff s))
    (u64 ((if decide (backoff s = 0 \/ a_elapsed a >= resetThreshold) then 0 else failures s) + 1))
    (delays s ++ [delay]).

(** An attempt after which [fn] is called again. *)
Definition retried (testing : bool) (a : attempt) : Prop :=
  a_ctx_err a = None /\
  (exists e, a_err a = Some e /\ AsFatal e = None /\ PanicOnDeadlock testing e = Ret tt) /\
  a_canceled a = None.

(** An attempt that fails because of a deadlock, under go test. *)
Definition deadlocks (testing : bool) (a : attempt) : Prop :=
  testing = true /\ a_ctx_err a = None /\
  exists e, a_err a = Some e /\ AsFatal e = None /\ AsPgError e = Some "40P01".

Lemma PanicOnDeadlock_cases testing e :
  PanicOnDeadlock testing e = Ret tt \/
  PanicOnDeadlock testing e = Panic "deadlock" /\ testing = true /\ AsPgError e = Some "40P01".
Proof.
  unfold PanicOnDeadlock. destruct testing; [|by left]. destruct (AsPgError e) as [c|]; [|by left].
  case_decide; [right|by left]. by subst.
Qed.

(** The attempt with which [Run] ends, and what it then returns. *)
Definition ends (a : attempt) (err : option error) : Prop :=
  (exists e, a_ctx_err a = Some e /\ err = Some e) \/
  (a_ctx_err a = None /\ a_err a = None /\ err = None) \/
  (a_ctx_err a = None /\ exists e f, a_err a = Some e /\ AsFatal e = Some f /\ err = Some f) \/
  (a_ctx_err a = None /\ exists e c, a_err a = Some e /\ AsFatal e = None /\
     a_canceled a = Some c /\ err = Some c).

(** What [Run] does, and what it waits for. *)
Definition outcome_ok (testing : bool) (attempts : list attempt) (last : option string) (s : state)
    (o : go (result * state)) : Prop :=
  match o with
  | Panic msg =>
      Forall (retried testing) attempts /\ last = Some msg \/
      exists pre a post, attempts = pre ++ a :: post /\ Forall (retried testing) pre /\ deadlocks testing a
  | Ret (r, s') =>
      (exists ds, delays s' = delays s ++ ds /\ Forall2 delay_ok (take (length ds) attempts) ds /\
         (r = Retrying -> length ds = length attempts)) /\
      match r with
      | Retrying => Forall (retried testing) attempts /\ last = None
      | Return err =>
          exists pre a post, attempts = pre ++ a :: post /\ Forall (retried testing) pre /\ ends a err
      end
  end.

Lemma outcome_stop testing attempts last s a err :
  ends a err -> outcome_ok testing (a :: attempts) last s (Ret (Return err, s)).
Proof.
  intros He. split; [|by exists [], a, attempts]. exists []. rewrite app_nil_r. split_and!; [done|constructor|done].
Qed.

Lemma outcome_next testing attempts last s a err d o :
  retried testing a -> delay_ok a d ->
  outcome_ok testing attempts last (failed a err d s) o -> outcome_ok testing (a :: attempts) last s o.
Proof.
  intros Ha Hd. destruct o as [[r s']|msg]; cbn -[failed].
  - intros [(ds & Hds & Hall & Hlen) Hr]. split.
    + exists (d :: ds). cbn in *. rewrite Hds, <- app_assoc. split_and!; [done|by constructor|].
      intros Hret. f_equal. by apply Hlen.
    + destruct r as [e|]; [|destruct Hr; by split; [constructor|]].
      destruct Hr as (pre & a' & post & -> & ? & ?). exists (a :: pre), a', post. split_and!; [done|by constructor|done].
  - intros [[? ?]|(pre & a' & post & -> & ? & ?)]; [left; by split; [constructor|]|right].
    exists (a :: pre), a', post. split_and!; [done|by constructor|done].
Qed.

Lemma Run_loop_spec testing last attempts : forall s,
  backoff_ok (backoff s) -> outcome_ok testing attempts last s (Run_loop testing attempts last s).
Proof.
  induction attempts as [|a attempts IH]; intros s Hb; cbn [Run_loop].
  { destruct last as [msg|]; cbn; [by left|]. split; [|by split]. exists []. by rewrite app_nil_r. }
  destruct (a_ctx_err a) as [e|] eqn:Hctx; [apply outcome_stop; left; eauto|].
  destruct (a_err a) as [err|] eqn:Herr; [|apply outcome_stop; right; left; auto].
  destruct (AsFatal err) as [f|] eqn:Hf; [apply outcome_stop; right; right; left; eauto 10|].
  destruct (PanicOnDeadlock_cases testing err) as [Hok|(-> & Ht & Hpg)]; last first.
  { right. exists [], a, attempts. split_and!; [done|constructor|]. unfold deadlocks. eauto 10. }
  rewrite Hok. cbn [mbind go_bind].
  destruct (delay_bounds a err (backoff s) Herr Hb) as (x & -> & Hx & _). cbn [mbind go_bind].
  destruct (a_canceled a) as [c|] eqn:Hc.
  - split; [|exists [], a, attempts; split_and!; [done|constructor|right; right; right; eauto 10]].
    exists [x]. split_and!; [done| |done]. constructor; [done|constructor].
  - apply (outcome_next _ _ _ _ a err x); [by split_and!; eauto|done|].
    apply (IH (failed a err x s)). by apply next_backoff_ok.
Qed.

(** A failure, of the given kind, that comes before the backoff is reset. *)
Definition quick_failure (testing persistent : bool) (a : attempt) : Prop :=
  retried testing a /\ a_elapsed a < resetThreshold /\ is_persistent a = persistent.

(** A failure that sets the backoff to the initial delay. *)
Definition resetting (testing : bool) (before : list attempt) (a : attempt) : Prop :=
  retried testing a /\ (before = [] \/ a_elapsed a >= resetThreshold).

(** [Run] goes on after attempts that are retried. *)
Lemma Run_loop_retried testing last rest pre : forall s,
  Forall (retried testing) pre -> backoff_ok (backoff s) ->
  exists s', Run_loop testing (pre ++ rest) last s = Run_loop testing rest last s' /\
    backoff_ok (backoff s') /\ (pre = [] -> s' = s).
Proof.
  induction pre as [|a pre IH]; intros s Hpre Hb; [by exists s|].
  apply Forall_cons in Hpre as [(Hctx & (e & He & Hf & Hok) & Hc) Hpre]. cbn [app Run_loop].
  rewrite Hctx, He, Hf, Hok. cbn [mbind go_bind].
  destruct (delay_bounds a e (backoff s) He Hb) as (x & -> & _ & _). cbn [mbind go_bind]. rewrite Hc.
  destruct (IH (failed a e x s) Hpre) as (s' & Hs' & ? & _); [by apply next_backoff_ok|]. by exists s'.
Qed.

(** The delay after [k] doublings. *)
Definition paced_delay (limit k d : Z) : Prop :=
  let b := Z.min (baseDelay * 2 ^ k) limit in b ÷ 2 <= d <= b.

Lemma max_delay_bounds persistent : baseDelay <= max_delay persistent <= 300000000000.
Proof.
  unfold max_delay, baseDelay, persistentMaxDelay, transientMaxDelay, Minute, Second, Millisecond.
  destruct persistent; lia.
Qed.

Lemma next_backoff_doubles p e elapsed b k :
  IsPersistent e = p -> elapsed < resetThreshold -> 0 <= k -> b = Z.min (baseDelay * 2 ^ k) (max_delay p) ->
  next_backoff e elapsed b = Z.min (baseDelay * 2 ^ (k + 1)) (max_delay p).
Proof.
  intros Hp He Hk Hb. pose proof (max_delay_bounds p) as Hm. unfold next_backoff. rewrite Hp.
  change (if p then persistentMaxDelay else transientMaxDelay) with (max_delay p).
  pose proof (Z.pow_pos_nonneg 2 k ltac:(lia) Hk). rewrite Z.pow_add_r, Z.pow_1_r by lia.
  unfold baseDelay, Millisecond in *. rewrite decide_False by lia.
  rewrite i64_id by (unfold is_i64; lia). lia.
Qed.

Lemma Run_loop_doubles testing p quick : forall s k ds d,
  Forall (quick_failure testing p) quick -> 0 <= k -> backoff s = Z.min (baseDelay * 2 ^ k) (max_delay p) ->
  delays s = ds ++ [d] -> paced_delay (max_delay p) k d ->
  exists s' ds' d', Run_loop testing quick None s = Ret (Retrying, s') /\ delays s' = ds' ++ [d'] /\
    paced_delay (max_delay p) (k + len quick) d'.
Proof.
  induction quick as [|a quick IH]; intros s k ds d Hq Hk Hb Hds Hd.
  { exists s, ds, d. rewrite len_nil, Z.add_0_r. by split_and!. }
  apply Forall_cons in Hq as [((Hctx & (e & He & Hf & Hok) & Hc) & Hel & Hp) Hq]. cbn [Run_loop].
  rewrite Hctx, He, Hf, Hok. cbn [mbind go_bind]. unfold is_persistent in Hp. rewrite He in Hp.
  assert (Hbo : backoff_ok (backoff s)).
  { right. rewrite Hb. pose proof (max_delay_bounds p). pose proof (Z.pow_pos_nonneg 2 k ltac:(lia) Hk).
    unfold max_delay, baseDelay, persistentMaxDelay, transientMaxDelay, Minute, Second, Millisecond in *.
    destruct p; lia. }
  pose proof (next_backoff_doubles p e (a_elapsed a) (backoff s) k Hp Hel Hk Hb) as Hn.
  destruct (delay_bounds a e (backoff s) He Hbo) as (x & -> & _ & Hx). cbn [mbind go_bind]. rewrite Hc.
  rewrite Hn in Hx.
  destruct (IH (failed a e x s) (k + 1) (delays s) x) as (s' & ds' & d' & Hr & Hds' & Hd'); try done; [lia|].
  exists s', ds', d'. split_and!; [done..|]. rewrite len_cons. by replace (k + (1 + len quick)) with (k + 1 + len quick) by lia.
Qed.

(** The first failure, or one of a call that ran for long, sets the initial delay. *)
Lemma Run_loop_resets testing p pre a quick :
  Forall (retried testing) pre -> resetting testing pre a -> Forall (quick_failure testing p) quick ->
  exists s ds d, Run testing (pre ++ a :: quick) None = Ret (Retrying, s) /\ delays s = ds ++ [d] /\
    paced_delay (max_delay p) (len quick) d.
Proof.
  intros Hpre [(Hctx & (e & He & Hf & Hok) & Hc) Hreset] Hq. unfold Run.
  destruct (Run_loop_retried testing None (a :: quick) pre (mkState 0 0 []) Hpre) as (s & -> & Hb & Hnil);
    [by left|]. cbn [Run_loop]. rewrite Hctx, He, Hf, Hok. cbn [mbind go_bind].
  assert (Hn : next_backoff e (a_elapsed a) (backoff s) = baseDelay).
  { unfold next_backoff. rewrite decide_True; [done|]. destruct Hreset as [Hp|]; [left|by right].
    by rewrite (Hnil Hp). }
  destruct (delay_bounds a e (backoff s) He Hb) as (x & -> & _ & Hx). cbn [mbind go_bind]. rewrite Hc.
  rewrite Hn in Hx. pose proof (max_delay_bounds p) as Hm.
  assert (Hmin : Z.min (baseDelay * 2 ^ 0) (max_delay p) = baseDelay) by (rewrite Z.pow_0_r; lia).
  apply (Run_loop_doubles testing p quick (failed a e x s) 0 (delays s) x Hq); [lia| |done|].
  - by rewrite Hmin.
  - unfold paced_delay. by rewrite Hmin.
Qed.

(** ** Properties *)

(** C36: the supervisor calls the function again only after it has failed neither fatally
    nor with the context canceled, and each time only after a delay of at least half the
    initial one and at most the maximum for the kind of failure, transient or persistent.
    It panics only if the function panics, or, under go test, if the function fails because
    of a deadlock.  After a failure that resets the backoff, the first or one of a call
    that ran for long, followed by [n] quick failures of one kind, the delay is between
    half and all of the initial delay doubled [n] times, up to the maximum for that
    kind. *)
Theorem Run_delays_are_bounded testing attempts last :
  outcome_ok testing attempts last (mkState 0 0 []) (Run testing attempts last) /\
  forall pre a quick persistent, Forall (retried testing) pre -> resetting testing pre a ->
    Forall (quick_failure testing persistent) quick ->
    exists s ds d, Run testing (pre ++ a :: quick) None = Ret (Retrying, s) /\ delays s = ds ++ [d] /\
      paced_delay (if persistent then 300000000000 else 15000000000) (len quick) d.
Proof.
  split; [apply Run_loop_spec; by left|]. intros pre a quick persistent Hpre Ha Hq.
  destruct (Run_loop_resets testing persistent pre a quick Hpre Ha Hq) as (s & ds & d & ? & ? & ?).
  exists s, ds, d. split_and!; [done..|]. by destruct persistent.
Qed.

(** [Run] returns nil only if the function succeeded, the context's error
    only if the context was canceled, and otherwise the error inside the first
    fatal failure; every failure before it is retried. *)
Theorem Run_returns_only_final_outcomes testing attempts last err s :
  Run testing attempts last = Ret (Return err, s) ->
  exists pre a post, attempts = pre ++ a :: post /\ Forall (retried testing) pre /\ ends a err.
Proof.
  intros Hr. pose proof (Run_loop_spec testing last attempts (mkState 0 0 []) ltac:(by left)) as Ho.
  unfold Run in Hr. rewrite Hr in Ho. by destruct Ho as [_ ?].
Qed.

(** Outside of tests, [Run] does not panic unless the function does. *)
Lemma Run_production attempts : exists r s, Run false attempts None = Ret (r, s).
Proof.
  pose proof (Run_loop_spec false None attempts (mkState 0 0 []) ltac:(by left)) as Ho.
  unfold Run. destruct (Run_loop _ _ _ _) as [[r s]|msg]; [by eexists _, _|].
  destruct Ho as [[_ ?]|(pre & a & post & _ & _ & ? & _)]; done.
Qed.

Definition example_failure : attempt := mkAttempt (Some (Opaque "lost")) None Second 7 None.

Definition example_deadlock : attempt :=
  mkAttempt (Some (Wrap "unable to commit" (PgError "40P01" "deadlock detected"))) None Second 7 None.

Lemma Run_returns_only_final_outcomes_witness :
  exists pre a post, [example_failure; mkAttempt (Some (Fatal (Opaque "broken"))) None 0 0 None]
    = pre ++ a :: post /\ Forall (retried true) pre /\ ends a (Some (Opaque "broken")).
Proof.
  eapply (Run_returns_only_final_outcomes true
    [example_failure; mkAttempt (Some (Fatal (Opaque "broken"))) None 0 0 None] None).
  vm_compute. reflexivity.
Defined.

(** A deadlock ends the program under go test, and is retried otherwise. *)
Lemma Run_delays_are_bounded_witness :
  Run true [example_failure; example_deadlock] None = Panic "deadlock" /\
  (exists s ds d, Run true [example_failure; example_failure; example_failure] None = Ret (Retrying, s) /\
    delays s = ds ++ [d] /\ 200 * Millisecond <= d <= 400 * Millisecond) /\
  exists s, Run false [example_failure; example_deadlock] None = Ret (Retrying, s) /\ length (delays s) = 2%nat.
Proof.
  split; [vm_compute; reflexivity|]. split.
  - destruct (Run_delays_are_bounded true [example_failure; example_failure; example_failure] None) as [_ Hd].
    apply (Hd [] example_failure [example_failure; example_failure] false).
    + constructor.
    + split; [|by left]. split_and!; [reflexivity| |reflexivity]. eexists. split_and!; reflexivity.
    + repeat constructor; try reflexivity; eexists; split_and!; reflexivity.
  - destruct (Run_delays_are_bounded false [example_failure; example_deadlock] None) as [Ho _].
    destruct (Run false [example_failure; example_deadlock] None) as [[r s]|msg] eqn:Hr; [|vm_compute in Hr; discriminate].
    assert (r = Retrying) as -> by (vm_compute in Hr; congruence).
    exists s. split; [reflexivity|]. destruct Ho as [(ds & Hds & _ & Hlen) _]. rewrite Hds. exact (Hlen eq_refl).
Defined.
