(* ===== verification/Group.v ===== *)
(** * Groups of supervised functions

    Models [internal/supervisor/group.go].  Package golang.org/x/sync/errgroup, on which
    a group is built, is the class [Errgroup] with what its documentation promises: the
    functions of a group return in some order, [Wait] returns the first error that is not
    nil, and with it the context of the group is canceled. *)

From S2P Require Import Prelude Errors Supervisor.

Class Errgroup := {
  (** What [Wait] returns, given what the functions returned, in that order. *)
  errgroup_Wait : list (option error) -> option error;
  (** The error of the group's context while [Wait] has not returned, given that of its
      parent and what the functions have returned so far. *)
  errgroup_Err : option sentinel -> list (option error) -> option sentinel;
  Wait_first pre e post : Forall (eq None) pre -> errgroup_Wait (pre ++ Some e :: post) = Some e;
  Wait_none rs : Forall (eq None) rs -> errgroup_Wait rs = None;
  Err_live rs : Forall (eq None) rs -> errgroup_Err None rs = None;
  Err_parent c rs : Forall (eq None) rs -> errgroup_Err (Some c) rs = Some c;
  Err_failed parent pre e post : is_Some (errgroup_Err parent (pre ++ Some e :: post));
}.

Section group.
Context `{Errgroup}.

(** A function that was given to [Go] and has returned: what each of its attempts did,
    and the error of the parent context when it returned. *)
Record goroutine := mkGoroutine { g_attempts : list attempt; g_parent : option sentinel }.

(** What the goroutine of [Go] returns; [rs] are the results of those that returned
    before it. *)
Definition Go (g : goroutine) (rs : list (option error)) : go (option (option error)) :=
  r ← Run false (g_attempts g) None;
  match r with
  | (Return err, _) => Ret (Some (Group_Go err (errgroup_Err (g_parent g) rs)))
  | (Retrying, _) => Ret None
  end.

(** The results of a group, in the order in which its functions return; [None] if one of
    them has not. *)
Fixpoint results (gs : list goroutine) (rs : list (option error)) : go (option (list (option error))) :=
  match gs with
  | [] => Ret (Some rs)
  | g :: gs' =>
      r ← Go g rs;
      match r with
      | None => Ret None
      | Some err => results gs' (rs ++ [err])
      end
  end.

(** [Wait] *)
Definition Wait (gs : list goroutine) : go (option (option error)) :=
  r ← results gs [];
  Ret (option_map errgroup_Wait r).

(** The error of the context that the attempts of a function see is that of the group's
    context. *)
Definition honest (g : goroutine) (rs : list (option error)) : Prop :=
  forall a e, a ∈ g_attempts g -> a_ctx_err a = Some e \/ a_canceled a = Some e ->
    exists c, errgroup_Err (g_parent g) rs = Some c /\ e = Sentinel c.

Fixpoint all_honest (gs : list goroutine) (rs : list (option error)) : Prop :=
  match gs with
  | [] => True
  | g :: gs' =>
      honest g rs /\
      match Go g rs with Ret (Some err) => all_honest gs' (rs ++ [err]) | _ => True end
  end.

(** A function fails fatally with [f]: all its attempts before are retried. *)
Definition fails_fatally (g : goroutine) (f : error) : Prop :=
  exists pre a post e, g_attempts g = pre ++ a :: post /\ Forall (retried false) pre /\
    a_ctx_err a = None /\ a_err a = Some e /\ AsFatal e = Some f.

(** The result of a function is its fatal failure, or nil if it succeeded, if it was
    canceled, or if its failure is that of the context. *)
Lemma Go_result g rs r :
  honest g rs -> Go g rs = Ret (Some r) ->
  match r with
  | Some f => fails_fatally g f
  | None => forall f, fails_fatally g f -> exists c, errgroup_Err (g_parent g) rs = Some c /\ Is f c = true
  end.
Proof.
  intros Hh. unfold Go. destruct (Run false (g_attempts g) None) as [[[err|] s]|] eqn:Hr; cbn; [|done..].
  apply Run_returns_only_final_outcomes in Hr as (pre & a & post & Heq & Hpre & Hend). intros [= <-].
  assert (Hin : a ∈ g_attempts g) by (rewrite Heq; set_solver).
  (* the attempt with which the function fails, if it does, is the one that ends it *)
  assert (Hfatal : forall f, fails_fatally g f -> a_ctx_err a = None /\ exists e, a_err a = Some e /\ AsFatal e = Some f).
  { intros f (pre' & a' & post' & e & Heq' & Hpre' & Hctx & He & Hf). rewrite Heq in Heq'.
    enough (a = a') as -> by (split; eauto). clear Hh Hin Heq. revert pre' Heq' Hpre'.
    induction pre as [|b pre IH]; intros [|b' pre'] Heq' Hpre'; cbn in Heq'.
    - by injection Heq'.
    - injection Heq' as <- _. apply Forall_cons in Hpre' as [(Hc & (x & Hx & Hxf & _) & Hca) _].
      destruct Hend as [(y & Hy & _)|[(_ & Hy & _)|[(_ & y & z & Hy & Hz & _)|(_ & y & z & _ & _ & Hz & _)]]]; congruence.
    - injection Heq' as <- _. apply Forall_cons in Hpre as [(Hc & (x & Hx & Hxf & _) & Hca) _]. congruence.
    - injection Heq' as <- Heq'. apply Forall_cons in Hpre as [_ Hpre], Hpre' as [_ Hpre']. by eapply IH. }
  destruct Hend as [(e & He & ->)|[(Hc & He & ->)|[(Hc & e & f & He & Hf & ->)|(Hc & e & c & He & Hf & Hca & ->)]]].
  - destruct (Hh a e Hin (or_introl He)) as (c & Hctx & ->). unfold Group_Go. rewrite Hctx. cbn.
    rewrite bool_decide_eq_true_2 by done. intros f Hff. destruct (Hfatal f Hff) as [? _]. congruence.
  - assert (Group_Go None (errgroup_Err (g_parent g) rs) = None) as -> by (by destruct (errgroup_Err _ _)).
    intros f Hff. destruct (Hfatal f Hff) as (_ & e & He' & _). congruence.
  - assert (Hff : fails_fatally g f) by (by exists pre, a, post, e).
    unfold Group_Go. destruct (errgroup_Err (g_parent g) rs) as [c|]; [|done]. cbn.
    destruct (Is f c) eqn:His; [|done]. intros f' Hff'. exists c. split; [done|].
    destruct (Hfatal f' Hff') as (_ & e' & He' & Hf'). congruence.
  - destruct (Hh a c Hin (or_intror Hca)) as (c' & Hctx & ->). unfold Group_Go. rewrite Hctx. cbn.
    rewrite bool_decide_eq_true_2 by done. intros f Hff.
    destruct (Hfatal f Hff) as (_ & e' & He' & Hf'). congruence.
Qed.

Lemma results_extend gs : forall rs rs', results gs rs = Ret (Some rs') -> exists more, rs' = rs ++ more.
Proof.
  induction gs as [|g gs IH]; intros rs rs'; cbn; [intros [= <-]; exists []; by rewrite app_nil_r|].
  destruct (Go g rs) as [[err|]|]; cbn; [|done..]. intros (more & ->)%IH. exists (err :: more). by rewrite <- app_assoc.
Qed.

(** The results of a group, of which those in [rs] are nil. *)
Lemma results_spec gs : forall rs rs',
  Forall (eq None) rs -> all_honest gs rs -> results gs rs = Ret (Some rs') ->
  match errgroup_Wait rs' with
  | Some f => exists gs1 g gs2, gs = gs1 ++ g :: gs2 /\ fails_fatally g f /\
      forall g' f', g' ∈ gs1 -> fails_fatally g' f' -> exists c, g_parent g' = Some c /\ Is f' c = true
  | None => forall g f, g ∈ gs -> fails_fatally g f -> exists c, g_parent g = Some c /\ Is f c = true
  end.
Proof.
  induction gs as [|g gs IH]; intros rs rs' Hnil Hh; cbn.
  { intros [= <-]. rewrite Wait_none by done. by intros g f ?%elem_of_nil. }
  destruct Hh as [Hg Hh]. destruct (Go g rs) as [[err|]|] eqn:HGo; cbn; [|done..]. intros Hr.
  pose proof (Go_result g rs err Hg HGo) as Hres. destruct err as [f|].
  { apply results_extend in Hr as [more ->]. rewrite <- app_assoc. cbn. rewrite Wait_first by done.
    exists [], g, gs. split_and!; [done|done|]. by intros g' f' ?%elem_of_nil. }
  assert (Hgn : forall f, fails_fatally g f -> exists c, g_parent g = Some c /\ Is f c = true).
  { intros f Hf. destruct (Hres f Hf) as (c & Hc & His). destruct (g_parent g) as [c'|].
    - rewrite Err_parent in Hc by done. injection Hc as ->. eauto.
    - by rewrite Err_live in Hc. }
  specialize (IH (rs ++ [None]) rs' ltac:(apply Forall_app; by repeat constructor) Hh Hr).
  destruct (errgroup_Wait rs') as [f|].
  - destruct IH as (gs1 & g1 & gs2 & -> & Hf & Hbefore). exists (g :: gs1), g1, gs2. split_and!; [done|done|].
    intros g' f' [->|Hin]%elem_of_cons; [apply Hgn|by apply Hbefore].
  - intros g' f [->|Hin]%elem_of_cons; [apply Hgn|by apply IH].
Qed.
End group.

(** ** Properties *)

(** C27 [Wait] returns the error of the first function to fail fatally, or nil if none did:
    the errors with which functions end because the context was canceled are not
    mistaken for failures, neither those of the parent's cancelation nor those that
    follow from the first failure.  (A fatal failure that is itself the error of the
    canceled parent context counts as its cancelation.) *)
Theorem Wait_returns_first_fatal_failure `{Errgroup} gs r :
  all_honest gs [] -> Wait gs = Ret (Some r) ->
  match r with
  | Some f => exists gs1 g gs2, gs = gs1 ++ g :: gs2 /\ fails_fatally g f /\
      forall g' f', g' ∈ gs1 -> fails_fatally g' f' -> exists c, g_parent g' = Some c /\ Is f' c = true
  | None => forall g f, g ∈ gs -> fails_fatally g f -> exists c, g_parent g = Some c /\ Is f c = true
  end.
Proof.
  intros Hh. unfold Wait. destruct (results gs []) as [[rs|]|] eqn:Hr; cbn; [|done..]. intros [= <-].
  apply (results_spec gs [] rs); [constructor|done|done].
Qed.

(** The behaviour that the documentation describes. *)
Section example.
Definition first_error (rs : list (option error)) : option error := head (omap id rs).

Definition context_error (parent : option sentinel) (rs : list (option error)) : option sentinel :=
  match parent with
  | Some c => Some c
  | None => match first_error rs with Some _ => Some Canceled | None => None end
  end.

Lemma first_error_nil (rs : list (option error)) : Forall (eq None) rs -> omap id rs = ([] : list error).
Proof. induction 1 as [|r rs Hr _ IH]; [done|]. subst r. exact IH. Qed.

#[local, refine] Instance example_errgroup : Errgroup := {|
  errgroup_Wait := first_error;
  errgroup_Err := context_error;
|}.
Proof.
  - intros pre e post Hp. unfold first_error. by rewrite omap_app, (first_error_nil pre).
  - intros rs Hr. unfold first_error. by rewrite first_error_nil.
  - intros rs Hr. unfold context_error, first_error. by rewrite first_error_nil.
  - done.
  - intros [c|] pre e post; [by eexists|]. unfold context_error, first_error. rewrite omap_app.
    by destruct (omap id pre : list error); eexists.
Defined.

(** One function fails fatally at its second attempt, and another is then canceled. *)
Definition example_failing : goroutine :=
  mkGoroutine [example_failure; mkAttempt (Some (Fatal (Opaque "broken"))) None 0 0 None] None.
Definition example_canceled : goroutine :=
  mkGoroutine [mkAttempt (Some (Sentinel Canceled)) (Some (Sentinel Canceled)) 0 0 None] None.

Lemma Wait_returns_first_fatal_failure_witness :
  Wait [example_failing; example_canceled] = Ret (Some (Some (Opaque "broken"))) /\
  exists gs1 g gs2, [example_failing; example_canceled] = gs1 ++ g :: gs2 /\ fails_fatally g (Opaque "broken").
Proof.
  split; [vm_compute; reflexivity|].
  destruct (Wait_returns_first_fatal_failure [example_failing; example_canceled] (Some (Opaque "broken")))
    as (gs1 & g & gs2 & Heq & Hf & _).
  - assert (HGo : Go example_failing [] = Ret (Some (Some (Opaque "broken")))) by (vm_compute; reflexivity).
    assert (HGo2 : Go example_canceled [Some (Opaque "broken")] = Ret (Some None)) by (vm_compute; reflexivity).
    cbn [all_honest]. rewrite HGo. cbn [app]. rewrite HGo2. split_and!; [| |exact I].
    + intros a e Ha. apply elem_of_cons in Ha as [->|Ha%list_elem_of_singleton]; [|subst a]; by intros [?|?].
    + intros a e Ha%list_elem_of_singleton. subst a. intros [[= <-]|?]; [|done]. by exists Canceled.
  - vm_compute. reflexivity.
  - exists gs1, g, gs2. split; [exact Heq|exact Hf].
Defined.
End example.
