(* ===== verification/MessagePump.v ===== *)
(** * The message pump

    Models [internal/messagepump]: the backoff of deliveries, the acquisition and
    handling of a delivery within its transaction ([pump.go]), the interface
    [Driver] that the handlers implement ([driver.go]) and the functions of the
    command queue that they share ([commandqueue.go]).

    A transaction is represented by the state of the database that it sees;
    rolling it back leaves the database as it was.  Log messages are not
    modelled. *)

From S2P Require Import Prelude Errors Stream Supervisor Database.

(** ** Data *)

Record Delivery := mkDelivery {
  MessageID : UUID;
  MessageTypeID : UUID;
  EnvelopeBytes : bytes;
  Failures : Z;
}.

(** Driver: each operation runs within a transaction, and may change the state it
    sees even if it fails. *)
Class Driver := {
  AcquireDelivery : DB -> DB * (error + option Delivery);
  PostponeDelivery : Delivery -> Z -> DB -> DB * option error;
  HandleDelivery : Delivery -> Envelope -> DB -> DB * option error;
}.

(** The configuration of a pump. *)
Record MessagePump := mkPump { Workers : Z; BackoffBase : Z; BackoffCap : Z }.

(** ** The backoff *)

(** [computeBackoff]; [r] is the random number.  A shift by 64 bits or more
    yields zero, as does truncation to 64 bits. *)
Definition computeBackoff (p : MessagePump) (r n : Z) : go Z :=
  if decide (BackoffBase p <= 0 \/ BackoffCap p <= BackoffBase p) then Ret (BackoffBase p)
  else
    let limit := i64 (Z.shiftl (BackoffBase p) n) in
    let limit := if decide (limit <= 0 \/ limit > BackoffCap p) then BackoffCap p else limit in
    x ← rand_N r (limit - BackoffBase p);
    Ret (BackoffBase p + x).

Section pump.
Context `{Driver}.

(** ** Handling a delivery *)

(** [doHandle], for a transaction that sees [tx] and began with the database in
    state [db]; [commit_err] is the outcome of committing it. *)
Definition doHandle (p : MessagePump) (r : Z) (commit_err : option error) (del : Delivery)
    (env : Envelope) (tx db : DB) : go (DB * option error) :=
  let commit tx :=
    match commit_err with
    | Some e => (db, Some (Wrap "unable to commit transaction" e))
    | None => (tx, None)
    end in
  let postpone del delay tx :=
    match PostponeDelivery del delay tx with
    | (_, Some e) => (db, Some (Wrap "unable to postpone delivery" e))
    | (tx, None) => commit tx
    end in
  match HandleDelivery del env tx with
  | (tx, None) => Ret (commit tx)
  | (tx, Some err) =>
      if Is err ErrFailed then
        let del := mkDelivery (MessageID del) (MessageTypeID del) (EnvelopeBytes del)
                     (u64 (Failures del + 1)) in
        delay ← computeBackoff p r (Failures del);
        Ret (postpone del delay tx)
      else if Is err ErrBusy then Ret (postpone del (BackoffBase p) tx)
      else Ret (db, Some err)
  end.

(** ** Acquiring a delivery *)

(** The circumstances of one acquisition: what other transactions commit before it
    begins, the database's clock when it queries, the rows that others hold then, and what
    may happen to its own transaction. *)
Record acquisition := mkAcquisition {
  q_begin_err : option error;
  q_commit_err : option error;
  q_rand : Z;
  q_now : Z;
  q_locked : gset UUID;
  q_others : DB -> DB;
}.

(** The result of acquiring: an error, no delivery, or a delivery and the state
    that its transaction sees. *)
Definition acquired (A : Type) : Type := error + option (A * DB).

(** [doAcquireDelivery]. *)
Definition doAcquireDelivery (q : acquisition) (db : DB) : DB * acquired Delivery :=
  match q_begin_err q with
  | Some e => (db, inl (Wrap "unable to begin transaction" e))
  | None =>
      match AcquireDelivery db with
      | (_, inl e) => (db, inl (Wrap "unable to acquire delivery" e))
      | (tx, inr None) =>
          match q_commit_err q with
          | Some e => (db, inl (Wrap "unable to commit transaction" e))
          | None => (tx, inr None)
          end
      | (tx, inr (Some del)) => (db, inr (Some (del, tx)))
      end
  end.
End pump.

(** [doAcquireTask]: a delivery whose envelope can not be decoded is postponed,
    and the next one is tried, each in circumstances of its own, in which the driver is
    [driver].  The result is [None] if the acquisitions given are used up. *)
Fixpoint doAcquireTask (driver : acquisition -> Driver) (unmarshal : bytes -> error + Envelope)
    (p : MessagePump) (qs : list acquisition) (db : DB)
    : go (DB * option (acquired (Delivery * Envelope))) :=
  match qs with
  | [] => Ret (db, None)
  | q :: qs' =>
      let d := driver q in
      match doAcquireDelivery (H := d) q (q_others q db) with
      | (db, inl e) => Ret (db, Some (inl e))
      | (db, inr None) => Ret (db, Some (inr None))
      | (db, inr (Some (del, tx))) =>
          match unmarshal (EnvelopeBytes del) with
          | inr env => Ret (db, Some (inr (Some ((del, env), tx))))
          | inl _ =>
              let del := mkDelivery (MessageID del) (MessageTypeID del) (EnvelopeBytes del)
                           (u64 (Failures del + 1)) in
              delay ← computeBackoff p (q_rand q) (Failures del);
              match PostponeDelivery (Driver := d) del delay tx with
              | (_, Some e) => Ret (db, Some (inl (Wrap "unable to postpone delivery" e)))
              | (tx, None) =>
                  match q_commit_err q with
                  | Some e => Ret (db, Some (inl (Wrap "unable to commit transaction" e)))
                  | None => doAcquireTask driver unmarshal p qs' tx
                  end
              end
          end
      end
  end.

(** ** The command queue *)

(** The commands of the given types that are due, in order of their delivery
    time.  Commands with the same delivery time are in any order. *)
Definition pending (now : Z) (types : gset UUID) (db : DB) : list (UUID * CommandRow) :=
  order_by (fun '(_, c) => cmd_deliver_at c)
    (filter (fun '(_, c) => cmd_type_id c ∈ types /\ cmd_deliver_at c <= now)
       (map_to_list (commands db))).

(** [AcquireCommandDelivery], at time [now]; [locked] are the rows that other
    transactions hold, which SKIP LOCKED passes over. *)
Definition AcquireCommandDelivery (now : Z) (locked : gset UUID) (types : gset UUID) (db : DB)
    : error + option Delivery :=
  match filter (fun '(id, _) => id ∉ locked) (pending now types db) with
  | [] => inr None
  | (id, c) :: _ =>
      if decide (0 <= cmd_failures c < u64_modulus) then
        inr (Some (mkDelivery id (cmd_type_id c) (cmd_envelope c) (cmd_failures c)))
      else inl (Opaque "unable to scan pending command")
  end.

(** [PostponeCommandDelivery], at time [now]. *)
Definition PostponeCommandDelivery (now : Z) (del : Delivery) (delay : Z) (db : DB)
    : DB * option error :=
  match wrap "unable to postpone queued command" (ExecOne (fun db =>
    match commands db !! MessageID del with
    | None => inr (0%nat, db)
    | Some c =>
        inr (1%nat, set_commands db
          (<[MessageID del := mkCommandRow (cmd_type_id c) (cmd_envelope c) (Failures del)
               (now + delay)]> (commands db)))
    end)) db with
  | inl e => (db, Some e)
  | inr (_, db') => (db', None)
  end.

(** ** Lemmas *)

(** The window within which [computeBackoff] chooses. *)
Definition backoff_range (p : MessagePump) : Prop :=
  0 < BackoffBase p < 2 ^ 24 /\ BackoffBase p < BackoffCap p < 2 ^ 39.

(** A shift that overflows leaves nothing between zero and 2^40. *)
Lemma shift_overflow base n :
  0 < base < 2 ^ 24 -> 0 <= n -> 2 ^ 63 <= base * 2 ^ n ->
  i64 (base * 2 ^ n) <= 0 \/ 2 ^ 40 <= i64 (base * 2 ^ n).
Proof.
  intros Hb Hn Hover.
  assert (H40 : 40 <= n).
  { destruct (Z.le_gt_cases 40 n) as [?|Hlt]; [done|].
    pose proof (Z.pow_le_mono_r 2 n 39 ltac:(lia) ltac:(lia)) as Hp.
    pose proof (Z.pow_pos_nonneg 2 n ltac:(lia) Hn). change (2 ^ 63) with (2 ^ 24 * 2 ^ 39) in Hover. nia. }
  assert (Hdiv : exists m, i64 (base * 2 ^ n) = 2 ^ 40 * m).
  { unfold i64. replace n with (40 + (n - 40)) by lia. rewrite Z.pow_add_r by lia.
    set (y := 2 ^ (n - 40)). exists (base * y - 2 ^ 24 * ((base * (2 ^ 40 * y) + 2 ^ 63) / 2 ^ 64)).
    pose proof (Z.div_mod (base * (2 ^ 40 * y) + 2 ^ 63) (2 ^ 64) ltac:(lia)). lia. }
  destruct Hdiv as [m ->]. destruct (Z.le_gt_cases m 0); [left|right]; lia.
Qed.

Lemma computeBackoff_spec p r n :
  backoff_range p -> 1 <= n ->
  exists x, computeBackoff p r n = Ret x /\
    BackoffBase p <= x < Z.min (BackoffBase p * 2 ^ n) (BackoffCap p).
Proof.
  intros [Hb Hc] Hn. unfold computeBackoff, rand_N. rewrite decide_False by lia.
  rewrite Z.shiftl_mul_pow2 by lia.
  assert (Hpow : 2 <= 2 ^ n) by (pose proof (Z.pow_le_mono_r 2 1 n ltac:(lia) Hn); lia).
  set (limit := if decide (_ <= 0 \/ _) then _ else _).
  assert (Hlim : limit = Z.min (BackoffBase p * 2 ^ n) (BackoffCap p)).
  { unfold limit. destruct (Z.le_gt_cases (2 ^ 63) (BackoffBase p * 2 ^ n)) as [Hov|Hok].
    - destruct (shift_overflow _ n Hb ltac:(lia) Hov); rewrite decide_True by lia; lia.
    - rewrite i64_id by (unfold is_i64; nia). case_decide; nia. }
  rewrite Hlim. clear limit Hlim. rewrite decide_False by nia. cbn. eexists. split; [done|].
  pose proof (Z.mod_pos_bound r (Z.min (BackoffBase p * 2 ^ n) (BackoffCap p) - BackoffBase p)
    ltac:(nia)). lia.
Qed.

Lemma wrap_inr {A} msg (m : sql A) db r : m db = inr r -> wrap msg m db = inr r.
Proof. unfold wrap. by intros ->. Qed.

(** [PostponeCommandDelivery] of a queued command. *)
Lemma PostponeCommandDelivery_queued now del delay db c :
  commands db !! MessageID del = Some c ->
  PostponeCommandDelivery now del delay db =
    (set_commands db (<[MessageID del := mkCommandRow (cmd_type_id c) (cmd_envelope c) (Failures del)
       (now + delay)]> (commands db)), None).
Proof.
  intros Hc. unfold PostponeCommandDelivery, wrap, ExecOne, mbind, sql_bind, wrap. by rewrite Hc.
Qed.

(** Postponing a command changes nothing but its row. *)
Lemma PostponeCommandDelivery_same now del delay db :
  exists cs, (PostponeCommandDelivery now del delay db).1 = set_commands db cs /\
    dom cs = dom (commands db).
Proof.
  destruct (commands db !! MessageID del) as [c|] eqn:Hc; last first.
  { exists (commands db). split; [|done].
    unfold PostponeCommandDelivery, wrap, ExecOne, mbind, sql_bind, wrap. rewrite Hc. by destruct db. }
  rewrite (PostponeCommandDelivery_queued now del delay db c) by done. eexists. split; [done|].
  rewrite dom_insert_L. apply elem_of_dom_2 in Hc. set_solver.
Qed.

(** How a delivery is postponed after its handler returned [e]: a failure counts, and is
    postponed by the backoff; contention does not, and is postponed by the base delay. *)
Definition postponement (p : MessagePump) (r : Z) (del : Delivery) (e : error) (del' : Delivery)
    (delay : Z) : Prop :=
  MessageID del' = MessageID del /\
  if Is e ErrFailed then
    Failures del' = u64 (Failures del + 1) /\ computeBackoff p r (Failures del') = Ret delay
  else Is e ErrBusy = true /\ Failures del' = Failures del /\ delay = BackoffBase p.

(** How the transaction of a delivery ends: it commits what the handler did, it
    commits that and that the delivery is postponed, or it is rolled back. *)
Lemma doHandle_cases `{Driver} p r commit_err del env tx db db' err :
  doHandle p r commit_err del env tx db = Ret (db', err) ->
  (err = None /\ HandleDelivery del env tx = (db', None)) \/
  (err = None /\ exists tx' e del' delay, HandleDelivery del env tx = (tx', Some e) /\
     postponement p r del e del' delay /\ PostponeDelivery del' delay tx' = (db', None)) \/
  (is_Some err /\ db' = db).
Proof.
  unfold doHandle. destruct (HandleDelivery del env tx) as [tx' [e|]] eqn:Hh; last first.
  { destruct commit_err; intros [= <- <-]; eauto. }
  assert (Hpost : forall del' delay, postponement p r del e del' delay ->
    match PostponeDelivery del' delay tx' with
    | (_, Some e) => (db, Some (Wrap "unable to postpone delivery" e))
    | (tx, None) => match commit_err with
                    | Some e => (db, Some (Wrap "unable to commit transaction" e))
                    | None => (tx, None)
                    end
    end = (db', err) ->
    (err = None /\ (tx', Some e) = (db', None)) \/
    (err = None /\ exists tx'0 e0 del' delay, (tx', Some e) = (tx'0, Some e0) /\
       postponement p r del e0 del' delay /\ PostponeDelivery del' delay tx'0 = (db', None)) \/
    (is_Some err /\ db' = db)).
  { intros del' delay Hid. destruct (PostponeDelivery del' delay tx') as [tx2 [e2|]] eqn:Hp;
      [intros [= <- <-]; eauto|].
    destruct commit_err; intros [= <- <-]; [eauto|]. right; left. split; [done|].
    by exists tx', e, del', delay. }
  unfold postponement in Hpost. destruct (Is e ErrFailed).
  - destruct (computeBackoff _ _ _) as [delay|] eqn:Hb; cbn; [|done]. intros [= Hx]. by eapply Hpost; [|exact Hx].
  - destruct (Is e ErrBusy); intros [= Hx]; [by eapply Hpost; [|exact Hx]|]. subst. eauto.
Qed.

(** The error is neither a failure of the handler nor contention. *)
Definition foreign (e : error) : Prop := Is e ErrFailed = false /\ Is e ErrBusy = false.

Lemma commandqueue_remove_foreign mid db e : commandqueue_remove mid db = inl e -> foreign e.
Proof. unfold commandqueue_remove. destruct (commands db !! mid); [done|]. by intros [= <-]. Qed.

Lemma append_foreign sid cid hk iid evs db e : append sid cid hk iid evs db = inl e -> foreign e.
Proof. unfold append. destruct (streams db !! sid); [|done]. repeat case_decide; intros [= <-]; done. Qed.

Lemma sql_bind_foreign {A B} (m : sql A) (f : A -> sql B) db e :
  (forall e, m db = inl e -> foreign e) -> (forall a db1 e, f a db1 = inl e -> foreign e) ->
  (m ≫= f) db = inl e -> foreign e.
Proof.
  intros Hm Hf. unfold mbind, sql_bind. destruct (m db) as [e'|[a db1]] eqn:E; [intros [= <-]; eauto|apply Hf].
Qed.

(** A command that was postponed: its row, and no other, has changed. *)
Definition postponed (p : MessagePump) (r now : Z) (del : Delivery)
    (cs cs' : gmap UUID CommandRow) : Prop :=
  exists c e del' delay, cs !! MessageID del = Some c /\ postponement p r del e del' delay /\
    cs' = <[MessageID del := mkCommandRow (cmd_type_id c) (cmd_envelope c) (Failures del')
              (now + delay)]> cs.

Lemma PostponeCommandDelivery_postponed p r now del e del' delay db db' :
  postponement p r del e del' delay -> PostponeCommandDelivery now del' delay db = (db', None) ->
  postponed p r now del (commands db) (commands db') /\ db' = set_commands db (commands db').
Proof.
  intros Hp Hpost. pose proof Hp as [Hid _]. destruct (commands db !! MessageID del') as [c|] eqn:Hc.
  - rewrite (PostponeCommandDelivery_queued now del' delay db c) in Hpost by done. injection Hpost as <-.
    cbn. rewrite Hid in *. split; [|done]. by exists c, e, del', delay.
  - unfold PostponeCommandDelivery, wrap, ExecOne, mbind, sql_bind, wrap in Hpost. by rewrite Hc in Hpost.
Qed.

(** A driver in a transaction in which a statement fails, if [fault] is its error: the
    driver returns the error, and no other statement of the transaction succeeds. *)
Definition faulty (fault : option error) (d : Driver) : Driver :=
  match fault with
  | None => d
  | Some e => {|
      AcquireDelivery := @AcquireDelivery d;
      PostponeDelivery _ _ db := (db, Some (Opaque "current transaction is aborted"));
      HandleDelivery _ _ db := (db, Some e);
    |}
  end.

Lemma doHandle_faulty d e p r commit_err del env tx db db' err :
  doHandle (H := faulty (Some e) d) p r commit_err del env tx db = Ret (db', err) ->
  is_Some err /\ db' = db.
Proof. by intros [[_ Hh]|[(_ & ? & ? & ? & ? & _ & _ & Hp)|?]]%doHandle_cases. Qed.

(** The commands that are due. *)
Definition due (now : Z) (types : gset UUID) (db : DB) : gmap UUID CommandRow :=
  filter (fun '(_, c) => cmd_type_id c ∈ types /\ cmd_deliver_at c <= now) (commands db).

Lemma pending_due now types db id c :
  (id, c) ∈ pending now types db <-> due now types db !! id = Some c.
Proof.
  unfold pending, due. rewrite order_by_Permutation, list_elem_of_filter, elem_of_map_to_list.
  rewrite map_lookup_filter_Some. tauto.
Qed.

(** The driver of a handler whose commands come from the queue, in the circumstances of
    an acquisition. *)
Definition queue_driver (types : gset UUID) (handle : Delivery -> Envelope -> DB -> DB * option error)
    (q : acquisition) : Driver := {|
  AcquireDelivery db := (db, AcquireCommandDelivery (q_now q) (q_locked q) types db);
  PostponeDelivery := PostponeCommandDelivery (q_now q);
  HandleDelivery := handle;
|}.

(** The first of the commands that are due and not locked. *)
Definition first_due (now : Z) (locked types : gset UUID) (db : DB) (del : Delivery) : Prop :=
  (MessageID del ∉ locked) /\ exists c, due now types db !! MessageID del = Some c /\
    MessageTypeID del = cmd_type_id c /\ EnvelopeBytes del = cmd_envelope c /\
    Failures del = cmd_failures c /\
    forall id' c', due now types db !! id' = Some c' -> id' ∉ locked -> cmd_deliver_at c <= cmd_deliver_at c'.

Lemma Acquire_first now locked types db :
  (forall id c, due now types db !! id = Some c -> 0 <= cmd_failures c < 2 ^ 63) ->
  match AcquireCommandDelivery now locked types db with
  | inl _ => False
  | inr None => forall id c, due now types db !! id = Some c -> id ∈ locked
  | inr (Some del) => first_due now locked types db del
  end.
Proof.
  intros Hf. unfold AcquireCommandDelivery.
  set (unlocked := fun x : UUID * CommandRow => let '(id, _) := x in id ∉ locked).
  assert (Hin : forall id c, (id, c) ∈ filter unlocked (pending now types db) <->
    (id ∉ locked) /\ due now types db !! id = Some c).
  { intros id c. by rewrite list_elem_of_filter, pending_due. }
  destruct (filter unlocked (pending now types db)) as [|[id c] rest] eqn:Hp.
  - intros id c Hd. destruct (decide (id ∈ locked)) as [|Hn]; [done|]. exfalso.
    eapply not_elem_of_nil. apply (Hin id c). by split.
  - destruct (proj1 (Hin id c) ltac:(left)) as [Hn Hc].
    specialize (Hf id c Hc) as Hr. unfold u64_modulus. rewrite decide_True by lia.
    split; [done|]. exists c. split_and!; try done. intros id' c' Hd Hn'.
    pose proof (proj2 (Hin id' c') (conj Hn' Hd)) as Hd'.
    assert (Hs : StronglySorted (fun a b => (let '(_, c) := a in cmd_deliver_at c) <=
      (let '(_, c) := b in cmd_deliver_at c)) (filter unlocked (pending now types db))).
    { apply StronglySorted_filter, order_by_sorted. }
    rewrite Hp in Hs. apply elem_of_cons in Hd' as [[= <- <-]|Hd']; [lia|].
    inversion Hs as [|? ? _ Hall]; subst. rewrite Forall_forall in Hall. apply (Hall _ Hd').
Qed.

Definition faultless (q : acquisition) : Prop := q_begin_err q = None /\ q_commit_err q = None.

(** *** How long acquiring takes *)

Section acquiring.
Context (unmarshal : bytes -> error + Envelope) (p : MessagePump) (types : gset UUID) (t0 t1 : Z).
Context (Hp : backoff_range p).

Definition decodes (data : bytes) : bool :=
  match unmarshal data with inr _ => true | inl _ => false end.

(** The commands of the pump that can not be decoded. *)
Definition undecodable (db : DB) : gmap UUID CommandRow :=
  filter (fun '(_, c) => cmd_type_id c ∈ types /\ decodes (cmd_envelope c) = false)
    (commands db).

Definition failures_below (n : Z) (db : DB) : Prop :=
  forall id c, commands db !! id = Some c -> 0 <= cmd_failures c < n.

(** Other transactions may queue, handle and postpone commands, but they neither queue
    ones that can not be decoded nor bring any of those forward. *)
Definition calm (others : DB -> DB) : Prop := forall db,
  (forall id c', undecodable (others db) !! id = Some c' ->
     exists c, undecodable db !! id = Some c /\ cmd_deliver_at c <= cmd_deliver_at c') /\
  (forall n, 2 ^ 31 <= n -> failures_below n db -> failures_below n (others db)).

(** What happens to the database while a pump is acquiring: the others' transactions, and
    the postponement of a command that was due and can not be decoded. *)
Inductive pass (qs : list acquisition) : DB -> DB -> Prop :=
| pass_others q db : q ∈ qs -> pass qs db (q_others q db)
| pass_postponed q id c delay db :
    q ∈ qs -> due (q_now q) types db !! id = Some c -> id ∉ q_locked q ->
    decodes (cmd_envelope c) = false -> BackoffBase p <= delay < BackoffCap p ->
    pass qs db (set_commands db (<[id := mkCommandRow (cmd_type_id c) (cmd_envelope c)
      (cmd_failures c + 1) (q_now q + delay)]> (commands db))).

(** How often a command that can not be decoded may be acquired between [t0] and [t1]. *)
Definition turns_left (c : CommandRow) : nat :=
  let d := Z.max t0 (cmd_deliver_at c) in
  if decide (d <= t1) then S (Z.to_nat ((t1 - d) / BackoffBase p)) else O.

Definition all_turns (m : gmap UUID CommandRow) : nat :=
  map_fold (fun _ c n => turns_left c + n)%nat O m.

Lemma all_turns_delete m id c :
  m !! id = Some c -> all_turns m = (turns_left c + all_turns (delete id m))%nat.
Proof. intros Hc. unfold all_turns. rewrite (map_fold_delete_L _ _ id c m); [done|lia|done]. Qed.

Lemma all_turns_insert m id c c' :
  m !! id = Some c -> (turns_left c' < turns_left c)%nat ->
  (all_turns (<[id := c']> m) < all_turns m)%nat.
Proof.
  intros Hc Hlt. rewrite (all_turns_delete m id c Hc), (all_turns_delete (<[id := c']> m) id c')
    by apply lookup_insert_eq. rewrite delete_insert_eq. lia.
Qed.

Lemma all_turns_mono m' : forall m,
  (forall id c', m' !! id = Some c' -> exists c, m !! id = Some c /\ (turns_left c' <= turns_left c)%nat) ->
  (all_turns m' <= all_turns m)%nat.
Proof.
  induction m' as [|id c' m' Hid IH] using map_ind; intros m Hm; [unfold all_turns at 1; rewrite map_fold_empty; lia|].
  destruct (Hm id c') as (c & Hc & Hle); [apply lookup_insert_eq|].
  rewrite (all_turns_delete m id c Hc), (all_turns_delete _ id c') by apply lookup_insert_eq.
  rewrite delete_insert_id by done. apply Nat.add_le_mono; [done|]. apply IH. intros id1 c1 Hc1.
  assert (id1 <> id) by congruence. destruct (Hm id1 c1) as (c2 & Hc2 & ?); [by rewrite lookup_insert_ne|].
  exists c2. by rewrite lookup_delete_ne.
Qed.

Lemma all_turns_bound m :
  t0 <= t1 -> (all_turns m <= size m * S (Z.to_nat ((t1 - t0) / BackoffBase p)))%nat.
Proof.
  intros Ht. unfold all_turns. induction m as [|id c m Hid IH] using map_ind; [by rewrite map_fold_empty, map_size_empty|].
  rewrite map_fold_insert_L, map_size_insert_None by (done || lia). cbn [Nat.mul].
  assert (turns_left c <= S (Z.to_nat ((t1 - t0) / BackoffBase p)))%nat; [|lia].
  unfold turns_left. case_decide; [|lia]. apply le_n_S, Z2Nat.inj_le; try apply Z.div_pos; try (destruct Hp; lia).
  apply Z.div_le_mono; [destruct Hp; lia|lia].
Qed.

(** A command that was due, and is postponed, has one fewer. *)
Lemma turns_left_postponed c c' now delay :
  cmd_deliver_at c <= now -> t0 <= now <= t1 -> BackoffBase p <= delay ->
  cmd_deliver_at c' = now + delay -> (turns_left c' < turns_left c)%nat.
Proof.
  intros Hd Hnow Hdelay Hc'. destruct Hp as [[Hb _] _]. unfold turns_left.
  rewrite (decide_True (P := Z.max t0 (cmd_deliver_at c) <= t1)) by lia. case_decide as Hle; [|lia].
  apply Nat.lt_succ_r, Nat.le_succ_l, Nat2Z.inj_lt. rewrite !Z2Nat.id by (apply Z.div_pos; lia).
  set (d := Z.max t0 (cmd_deliver_at c)) in *. set (d' := Z.max t0 (cmd_deliver_at c')) in *.
  assert (d + BackoffBase p <= d') by lia.
  apply (Z.lt_le_trans _ ((t1 - d') / BackoffBase p + 1)); [lia|].
  rewrite <- Z.div_add by lia. apply Z.div_le_mono; lia.
Qed.

Lemma undecodable_postponed id c c' db :
  undecodable db !! id = Some c -> cmd_type_id c' = cmd_type_id c -> cmd_envelope c' = cmd_envelope c ->
  undecodable (set_commands db (<[id := c']> (commands db))) = <[id := c']> (undecodable db).
Proof.
  intros Hu Ht He. unfold undecodable in *. cbn. apply map_lookup_filter_Some in Hu as [_ Hu].
  rewrite map_filter_insert_True; [done|]. by rewrite Ht, He.
Qed.

(** What acquiring a task ends with. *)
Definition acquired_ok (q : acquisition) (db' : DB) (r : option ((Delivery * Envelope) * DB)) : Prop :=
  match r with
  | None => forall id c, due (q_now q) types db' !! id = Some c -> id ∈ q_locked q
  | Some ((del, env), tx) => tx = db' /\ unmarshal (EnvelopeBytes del) = inr env /\
      first_due (q_now q) (q_locked q) types db' del
  end.

Lemma doAcquireTask_spec handle qs all n :
  Forall faultless qs -> Forall (fun q => t0 <= q_now q <= t1) qs -> Forall (fun q => calm (q_others q)) qs ->
  qs ⊆ all -> forall db, 2 ^ 31 <= n -> n + len qs < 2 ^ 62 -> failures_below n db ->
  (all_turns (undecodable db) < length qs)%nat ->
  exists db' q r, q ∈ qs /\
    doAcquireTask (queue_driver types handle) unmarshal p qs db = Ret (db', Some (inr r)) /\
    acquired_ok q db' r /\ rtc (pass all) db db'.
Proof.
  intros Hq. revert n. induction Hq as [|q qs [Hqb Hqc] Hqs IH]; intros n Ht Hcalm Hall db Hn Hmax Hf Hlen;
    [cbn in Hlen; lia|].
  apply Forall_cons in Ht as [Hnow Ht], Hcalm as [Hc0 Hcalm]. rewrite len_cons in Hmax. pose proof (len_nonneg qs).
  cbn -[len]. unfold doAcquireDelivery. rewrite Hqb. cbn -[len].
  destruct (Hc0 db) as [Hund Hf0]. specialize (Hf0 n Hn Hf). set (db0 := q_others q db) in *.
  assert (Hpass : pass all db db0) by (apply pass_others; apply Hall; left).
  assert (Hmono : (all_turns (undecodable db0) <= all_turns (undecodable db))%nat).
  { apply all_turns_mono. intros id c' Hid. destruct (Hund id c' Hid) as (c & Hc & Hle). exists c. split; [done|].
    unfold turns_left. repeat case_decide; try lia. apply le_n_S, Z2Nat.inj_le;
      try (apply Z.div_pos; destruct Hp; lia). apply Z.div_le_mono; destruct Hp; lia. }
  assert (Hdue : forall id c, due (q_now q) types db0 !! id = Some c -> 0 <= cmd_failures c < 2 ^ 63).
  { intros id c Hd. unfold due in Hd. apply map_lookup_filter_Some in Hd as [Hd _]. pose proof (Hf0 id c Hd). lia. }
  pose proof (Acquire_first (q_now q) (q_locked q) types db0 Hdue) as Ha.
  destruct (AcquireCommandDelivery (q_now q) (q_locked q) types db0) as [e|[del|]]; [done| |].
  - pose proof Ha as (Hnl & c & Hc & Hty & Hbytes & Hfail & _).
    destruct (unmarshal (EnvelopeBytes del)) as [e|env] eqn:Hun; last first.
    { eexists _, q, _. split; [left|]. split; [done|]. split; [by split_and!|by apply rtc_once]. }
    assert (Hno : decodes (EnvelopeBytes del) = false) by (unfold decodes; by rewrite Hun).
    specialize (Hdue _ _ Hc) as Hr. unfold due in Hc. pose proof Hc as [Hcmd [Htc Hdl]]%map_lookup_filter_Some.
    pose proof (Hf0 _ _ Hcmd) as Hfc. rewrite Hfail, u64_id by (unfold is_u64, u64_modulus; lia).
    destruct (computeBackoff_spec p (q_rand q) (cmd_failures c + 1) Hp ltac:(lia)) as (x & Hx & Hxr).
    cbn -[computeBackoff len]. rewrite Hx. cbn -[len].
    rewrite (PostponeCommandDelivery_queued (q_now q) _ x db0 c) by done. rewrite Hqc. cbn -[len].
    set (c' := mkCommandRow _ _ _ _). set (db1 := set_commands db0 (<[MessageID del := c']> (commands db0))).
    assert (Hbad : undecodable db0 !! MessageID del = Some c).
    { unfold undecodable. apply map_lookup_filter_Some. by rewrite <- Hbytes. }
    assert (Hlt : (all_turns (undecodable db1) < all_turns (undecodable db0))%nat).
    { unfold db1. rewrite (undecodable_postponed _ c) by done. apply (all_turns_insert _ _ c); [done|].
      apply (turns_left_postponed c c' (q_now q) x); (done || lia). }
    destruct (IH (n + 1)) with (db := db1) as (db' & q' & r & Hq' & -> & Hres & Hsteps); try (done || lia).
    + intros q' Hq'. apply Hall. by right.
    + intros id d Hd. unfold db1 in Hd. cbn in Hd.
      apply lookup_insert_Some in Hd as [[<- <-]|[_ Hd]]; [cbn; lia|]. pose proof (Hf0 id d Hd). lia.
    + cbn in Hlen. lia.
    + eexists _, q', _. split; [by right|]. split; [done|]. split; [done|].
      eapply rtc_l; [exact Hpass|]. eapply rtc_l; [|exact Hsteps].
      apply (pass_postponed all q (MessageID del) c x db0); try done; [apply Hall; left| |lia].
      by rewrite <- Hbytes.
  - rewrite Hqc. eexists _, q, _. split; [left|]. split; [done|]. split; [done|by apply rtc_once].
Qed.
End acquiring.

(** ** Properties *)

(** For a base delay below 2^24 ns (16.7 ms) and a cap below 2^39 ns (9.1
    minutes), as the engine uses, and however often a delivery has failed, the
    shift may overflow but [computeBackoff] never panics and chooses a delay
    between the base and the base doubled once for each failure, up to the cap;
    without a usable window it returns the base. *)
Theorem computeBackoff_window p r n :
  (backoff_range p -> 1 <= n ->
   exists x, computeBackoff p r n = Ret x /\
     BackoffBase p <= x < Z.min (BackoffBase p * 2 ^ n) (BackoffCap p)) /\
  (BackoffBase p <= 0 \/ BackoffCap p <= BackoffBase p -> computeBackoff p r n = Ret (BackoffBase p)).
Proof.
  split; [apply computeBackoff_spec|]. intros Hno. unfold computeBackoff. by rewrite decide_True.
Qed.

(** C19: handling a delivery is atomic: the database changes only if [doHandle]
    returns nil, and then to what the handler left, with the delivery postponed if
    the handler failed or was busy.  A failure counts, and is postponed by the
    backoff; contention does not, and is postponed by the base delay; any other
    error is returned unchanged. *)
Theorem doHandle_is_atomic `{Driver} p r commit_err del env tx db db' err :
  doHandle p r commit_err del env tx db = Ret (db', err) ->
  (forall e, err = Some e -> db' = db) /\
  (err = None -> commit_err = None /\
    exists tx' herr, HandleDelivery del env tx = (tx', herr) /\
    match herr with
    | None => db' = tx'
    | Some e =>
        if Is e ErrFailed then exists delay,
          computeBackoff p r (u64 (Failures del + 1)) = Ret delay /\
          PostponeDelivery (mkDelivery (MessageID del) (MessageTypeID del) (EnvelopeBytes del)
            (u64 (Failures del + 1))) delay tx' = (db', None)
        else Is e ErrBusy = true /\ PostponeDelivery del (BackoffBase p) tx' = (db', None)
    end) /\
  (forall e tx', HandleDelivery del env tx = (tx', Some e) -> Is e ErrFailed = false ->
     Is e ErrBusy = false -> err = Some e).
Proof.
  unfold doHandle. destruct (HandleDelivery del env tx) as [tx' [e|]] eqn:Hh; last first.
  { destruct commit_err; intros [= <- <-]; split_and!; try done.
    intros _. split; [done|]. by exists tx', None. }
  destruct (Is e ErrFailed) eqn:Hf.
  - destruct (computeBackoff _ _ _) as [delay|] eqn:Hb; cbn; [|done].
    destruct (PostponeDelivery _ delay tx') as [tx2 [e2|]] eqn:Hp.
    { intros [= <- <-]. split_and!; try done. intros ? ? [= <- <-]. congruence. }
    destruct commit_err; intros [= <- <-]; split_and!; try done.
    + intros ? ? [= <- <-]. congruence.
    + intros _. split; [done|]. exists tx', (Some e). split; [done|]. rewrite Hf. eauto.
    + intros ? ? [= <- <-]. congruence.
  - destruct (Is e ErrBusy) eqn:Hbusy.
    + destruct (PostponeDelivery del _ tx') as [tx2 [e2|]] eqn:Hp.
      { intros [= <- <-]. split_and!; try done. intros ? ? [= <- <-]. congruence. }
      destruct commit_err; intros [= <- <-]; split_and!; try done.
      * intros ? ? [= <- <-]. congruence.
      * intros _. split; [done|]. exists tx', (Some e). split; [done|]. by rewrite Hf.
      * intros ? ? [= <- <-]. congruence.
    + intros [= <- <-]. split_and!; try done. by intros ? ? [= <- <-].
Qed.


(** The engine's pumps. *)
Definition engine_pump (workers : Z) : MessagePump :=
  mkPump workers (10 * Millisecond) (5 * Minute).

Lemma computeBackoff_window_witness :
  exists x, computeBackoff (engine_pump 4) 123456789 57 = Ret x /\ 10 * Millisecond <= x < 5 * Minute.
Proof.
  destruct (computeBackoff_window (engine_pump 4) 123456789 57) as [H _].
  destruct H as (x & Hx & Hr); [split; split; reflexivity|lia|]. exists x. split; [exact Hx|].
  cbn -[Z.pow Z.mul] in Hr. unfold Millisecond, Minute, Second in *. lia.
Defined.

Section example.
Definition example_unmarshal (s : bytes) : error + Envelope :=
  if decide (s = "bad") then inl (Opaque "invalid") else inr (event 1 0 5).

Definition example_db : DB :=
  set_commands empty_db
    (<[1%N := mkCommandRow 5 "bad" 3 10]> (<[3%N := mkCommandRow 5 "good" 0 5]>
      {[2%N := mkCommandRow 5 "good" 0 20]})).

(** The acquisition at time [now], while another transaction holds the third command. *)
Definition example_acquisition (now : Z) : acquisition := mkAcquisition None None 5 now {[3%N]} id.

Definition example_handle (del : Delivery) (env : Envelope) (db : DB) : DB * option error :=
  if decide (Failures del = 0) then (set_commands db ∅, Some (Wrap "handler" (Sentinel ErrFailed)))
  else (set_commands db (delete (MessageID del) (commands db)), None).

Definition example_driver : Driver := queue_driver {[5%N]} example_handle (example_acquisition 100).
End example.

Lemma doHandle_is_atomic_witness :
  exists db', doHandle (H := example_driver) (engine_pump 1) 3 None (mkDelivery 2 5 "good" 0)
      (event 1 0 5) example_db example_db = Ret (db', Some (Wrap "unable to postpone delivery"
        (Wrap "unable to postpone queued command"
          (Opaque "expected exactly one row to be affected")))) /\ db' = example_db.
Proof.
  eexists. split; [vm_compute; reflexivity|].
  destruct (doHandle_is_atomic (H := example_driver) (engine_pump 1) 3 None (mkDelivery 2 5 "good" 0)
    (event 1 0 5) example_db example_db example_db (Some (Wrap "unable to postpone delivery"
        (Wrap "unable to postpone queued command"
          (Opaque "expected exactly one row to be affected")))) ltac:(vm_compute; reflexivity))
    as (Hdb & _). symmetry. exact (Hdb _ eq_refl).
Defined.

Lemma example_calm : calm example_unmarshal {[5%N]} id.
Proof. intros db. split; [|done]. intros id c' Hc. exists c'. split; [done|lia]. Qed.

