(* ===== verification/Handler.v ===== *)
(** * What the message handlers share

    Transactions that go on after a failure, the recovery of panics in the
    application's code ([internal/x/xerrors/recover.go]), and the unpacking of
    messages ([internal/x/xmessage/envelope.go]).

    The application's messages, and the libraries that pack them into envelopes
    and marshal those, are not part of the engine: they are the parameters of
    [Class Messaging], with what the engine relies on. *)

From Stdlib Require Import Ascii.
From S2P Require Import Prelude Errors Stream Database.

(** ** Statements within an open transaction

    [DB] is the state that the transaction sees.  A statement that fails changes
    nothing, but what was done before it remains until the transaction is rolled
    back. *)

Definition tx (A : Type) : Type := DB -> DB * (error + A).

#[global] Instance tx_ret : MRet tx := fun A a db => (db, inr a).
#[global] Instance tx_bind : MBind tx := fun A B f m db =>
  match m db with (db', inl e) => (db', inl e) | (db', inr a) => f a db' end.

Definition stmt {A} (m : sql A) : tx A := fun db =>
  match m db with inl e => (db, inl e) | inr (a, db') => (db', inr a) end.

Definition raise {A} (e : error) : tx A := fun db => (db, inl e).

(** The effect of a transaction's body when any failure rolls it back. *)
Definition exec {A} (m : tx A) : sql A := fun db =>
  match m db with (_, inl e) => inl e | (db', inr a) => inr (a, db') end.

(** The outcome of a transaction's body as the message pump sees it. *)
Definition outcome (r : DB * (error + unit)) : DB * option error :=
  match r with (db, inl e) => (db, Some e) | (db, inr _) => (db, None) end.

(** ** Panics of the application's code *)

(** [xerrors.Recover] and [xerrors.RecoverT], around a call of the application's
    code: a panic becomes an error. *)
Definition Recover {A} (m : go (error + A)) : error + A :=
  match m with Ret r => r | Panic v => inl (PanicError v) end.

(** ** Messages *)

(** xmessage.ValidationScope, through which a message is validated; a [Validate] is given
    its fields. *)
Record ValidationScope := mkValidationScope { IsNewMessage : bool; scope_envelope : Envelope }.

Definition IsNew (s : ValidationScope) : bool := IsNewMessage s.
Definition ExecutedAt (s : ValidationScope) : Z := body_created_at (env_body (scope_envelope s)).
Definition RecordedAt (s : ValidationScope) : Z := body_created_at (env_body (scope_envelope s)).
Definition ScheduledAt (s : ValidationScope) : Z := body_created_at (env_body (scope_envelope s)).
Definition ScheduledFor (s : ValidationScope) : Z := body_scheduled_for (env_body (scope_envelope s)).

Class Messaging := {
  (** The application's messages, with their types and validation. *)
  Message : Type;
  MessageType : Message -> UUID;
  Validate : Message -> bool -> Envelope -> go (option error);   (* IsNewMessage *)

  (** What a call depends on besides its arguments: clocks, generated IDs. *)
  World : Type;
  Now : World -> Z;

  (** [envelope.Unpack], and the binary representation of envelopes. *)
  Unpack : Envelope -> go (error + Message);
  Marshal : Envelope -> error + bytes;
  Unmarshal : bytes -> error + Envelope;
  Unmarshal_Marshal e data : Marshal e = inr data -> Unmarshal data = inr e;

  (** [envelope.EffectPacker]: packs the messages that a handler produces from a
      cause, on behalf of a source handler and instance. *)
  EffectPacker : Type;
  PackEffects : World -> Envelope -> UUID -> string -> EffectPacker;
  Pack : Message -> Z -> EffectPacker -> Envelope * EffectPacker;
  Seal : EffectPacker -> option (list Envelope);

  (** The envelopes packed so far, and the source they are packed for. *)
  packed : EffectPacker -> list Envelope;
  source_of : EffectPacker -> UUID * string;
  packed_new w cause hk iid : packed (PackEffects w cause hk iid) = [];
  source_new w cause hk iid : source_of (PackEffects w cause hk iid) = (hk, iid);
  packed_Pack m t p : packed (Pack m t p).2 = packed p ++ [(Pack m t p).1];
  source_Pack m t p : source_of (Pack m t p).2 = source_of p;
  Pack_source m t p :
    (hdr_handler_key (env_header (Pack m t p).1), hdr_instance_id (env_header (Pack m t p).1))
      = source_of p;
  Seal_packed p : Seal p = match packed p with [] => None | es => Some es end;

  (** A packed message is what unpacking its envelope yields. *)
  Unpack_Pack m t p : Unpack (Pack m t p).1 = Ret (inr m);
}.

Section messages.
Context `{Messaging}.

(** The closure of [xmessage.UnpackMessage], which unpacks the message [n] times
    and validates it the first time. *)
Fixpoint unpack_messages (env : Envelope) (first : bool) (n : nat) : go (error + list Message) :=
  match n with
  | O => Ret (inr [])
  | S n' =>
      r ← Unpack env;
      match r with
      | inl e => Ret (inl e)
      | inr m =>
          verr ← (if first then Validate m false env else Ret None);
          match verr with
          | Some e => Ret (inl e)
          | None =>
              rest ← unpack_messages env false n';
              match rest with
              | inl e => Ret (inl e)
              | inr ms => Ret (inr (m :: ms))
              end
          end
      end
  end.

(** [xmessage.UnpackMessage], for one message and for two. *)
Definition UnpackMessage (env : Envelope) : error + Message :=
  match Recover (unpack_messages env true 1) with
  | inl e => inl e
  | inr [m] => inr m
  | inr _ => inl (Opaque "unreachable")
  end.

Definition UnpackMessage2 (env : Envelope) : error + Message * Message :=
  match Recover (unpack_messages env true 2) with
  | inl e => inl e
  | inr [m1; m2] => inr (m1, m2)
  | inr _ => inl (Opaque "unreachable")
  end.

(** [xmessage.Unpack], for one message; [Unmarshal] includes [env.Validate]. *)
Definition UnpackBytes (data : bytes) : error + Message :=
  match Unmarshal data with
  | inl e => inl (Wrap "unable to unmarshal envelope" e)
  | inr env => UnpackMessage env
  end.

(** A valid message unpacks from the representation of its envelope. *)
Lemma UnpackBytes_Marshal env m data :
  Marshal env = inr data -> Unpack env = Ret (inr m) -> Validate m false env = Ret None ->
  UnpackBytes data = inr m.
Proof.
  intros Hm Hu Hv. unfold UnpackBytes. rewrite (Unmarshal_Marshal _ _ Hm).
  unfold UnpackMessage. cbn. rewrite Hu. cbn. by rewrite Hv.
Qed.

(** The arguments of the statement that completes a command, one for each event. *)
Fixpoint event_args (es : list Envelope) : error + list EventArg :=
  match es with
  | [] => inr []
  | env :: es' =>
      match Marshal env, event_args es' with
      | inl e, _ => inl e
      | inr _, inl e => inl e
      | inr data, inr args =>
          inr (mkEventArg (body_message_id (env_body env)) (type_of env) data :: args)
      end
  end.

(** The envelopes that a packer was asked for are all from its source. *)
Definition from_source (p : EffectPacker) : Prop :=
  forall e, e ∈ packed p ->
    (hdr_handler_key (env_header e), hdr_instance_id (env_header e)) = source_of p.

Lemma from_source_new w cause hk iid : from_source (PackEffects w cause hk iid).
Proof. intros e. rewrite packed_new. by intros ?%elem_of_nil. Qed.

Lemma from_source_Pack m t p : from_source p -> from_source (Pack m t p).2.
Proof.
  intros Hp e. rewrite packed_Pack, source_Pack.
  intros [He| ->%list_elem_of_singleton]%elem_of_app; [by apply Hp|apply Pack_source].
Qed.
End messages.

(** ** Lemmas on transactions *)

Lemma tx_bind_inr {A B} (f : A -> tx B) (m : tx A) db db' b :
  (m ≫= f) db = (db', inr b) <-> exists db1 a, m db = (db1, inr a) /\ f a db1 = (db', inr b).
Proof.
  unfold mbind, tx_bind. destruct (m db) as [db1 [e|a]]; split; try naive_solver.
Qed.

Lemma exec_inr {A} (m : tx A) db a db' : exec m db = inr (a, db') <-> m db = (db', inr a).
Proof. unfold exec. destruct (m db) as [? [?|?]]; naive_solver. Qed.

(** A transaction's body keeps [I] whatever its outcome. *)
Definition keeps {A} (I : DB -> Prop) (m : tx A) : Prop := forall db, I db -> I (m db).1.

Lemma keeps_ret {A} (I : DB -> Prop) (a : A) : keeps I (mret a).
Proof. by intros db. Qed.

Lemma keeps_raise {A} (I : DB -> Prop) (e : error) : keeps (A := A) I (raise e).
Proof. by intros db. Qed.

Lemma keeps_bind {A B} (I : DB -> Prop) (f : A -> tx B) (m : tx A) :
  keeps I m -> (forall a, keeps I (f a)) -> keeps I (m ≫= f).
Proof.
  intros Hm Hf db Hdb. unfold mbind, tx_bind. specialize (Hm db Hdb).
  destruct (m db) as [db1 [e|a]]; [done|by apply Hf].
Qed.

Lemma keeps_stmt {A} (I : DB -> Prop) (m : sql A) :
  (forall db a db', I db -> m db = inr (a, db') -> I db') -> keeps I (stmt m).
Proof. intros Hm db Hdb. unfold stmt. destruct (m db) as [e|[a db']] eqn:E; cbn; eauto. Qed.

#[export] Hint Resolve keeps_ret keeps_raise : runkit.

(** *** What a transaction may change

    A body is within a preorder on states if it relates the state that the body begins
    with to the one that it leaves, whatever its outcome. *)

Section within.
Context (R : relation DB) `{!PreOrder R}.

Definition within {A} (m : tx A) : Prop := forall db, R db (m db).1.
Definition sql_within {A} (m : sql A) : Prop := forall db a db', m db = inr (a, db') -> R db db'.

Lemma within_ret {A} (a : A) : within (mret a).
Proof. intros db. apply PreOrder_Reflexive. Qed.

Lemma within_raise {A} (e : error) : within (A := A) (raise e).
Proof. intros db. apply PreOrder_Reflexive. Qed.

Lemma within_bind {A B} (f : A -> tx B) (m : tx A) :
  within m -> (forall a, within (f a)) -> within (m ≫= f).
Proof.
  intros Hm Hf db. unfold mbind, tx_bind. specialize (Hm db).
  destruct (m db) as [db1 [e|a]]; [done|]. etransitivity; [exact Hm|apply Hf].
Qed.

Lemma within_stmt {A} (m : sql A) : sql_within m -> within (stmt m).
Proof.
  intros Hm db. unfold stmt. destruct (m db) as [e|[a db']] eqn:E; [apply PreOrder_Reflexive|].
  by eapply Hm.
Qed.

Lemma sql_within_ret {A} (a : A) : sql_within (mret a).
Proof. intros db x db' [= <- <-]. apply PreOrder_Reflexive. Qed.

Lemma sql_within_fail {A} (e : error) : sql_within (A := A) (fail e).
Proof. by intros db x db'. Qed.

Lemma sql_within_bind {A B} (f : A -> sql B) (m : sql A) :
  sql_within m -> (forall a, sql_within (f a)) -> sql_within (m ≫= f).
Proof.
  intros Hm Hf db b db' (a & db1 & H1 & H2)%sql_bind_inr. etransitivity; [by eapply Hm|by eapply Hf].
Qed.

Lemma sql_within_wrap {A} msg (m : sql A) : sql_within m -> sql_within (wrap msg m).
Proof. intros Hm db a db'. unfold wrap. destruct (m db) eqn:E; [done|]. intros [= ->]. by eapply Hm. Qed.

Lemma sql_within_ExecOne (m : sql nat) : sql_within m -> sql_within (ExecOne m).
Proof.
  intros Hm. unfold ExecOne. apply sql_within_bind; [by apply sql_within_wrap|]. intros n.
  case_decide; [apply sql_within_ret|apply sql_within_fail].
Qed.

Lemma sql_within_modify (f : DB -> DB) : (forall db, R db (f db)) -> sql_within (modify f).
Proof. intros Hf db a db' [= <- <-]. apply Hf. Qed.
End within.

#[export] Hint Resolve within_ret within_raise within_bind within_stmt sql_within_ret sql_within_fail
  sql_within_bind sql_within_wrap sql_within_ExecOne : runkit.

(** ** An example of the parameters

    Messages are numbers, packed into envelopes of that type; the world is a time
    and the next message ID; an envelope is marshaled to the binary digits of its
    number. *)

Module Example.
Fixpoint digits (p : positive) : string :=
  match p with
  | xH => ""
  | xO p => String "0"%char (digits p)
  | xI p => String "1"%char (digits p)
  end.

Fixpoint undigits (s : string) : positive :=
  match s with
  | EmptyString => xH
  | String c s => if decide (c = "0"%char) then xO (undigits s) else xI (undigits s)
  end.

Lemma undigits_digits p : undigits (digits p) = p.
Proof. induction p as [p IH|p IH|]; cbn; [by rewrite IH..|done]. Qed.

Abbreviation fields := (N * N * string * (N * N * string * Z * Z * string) * option (N * Z))%type.

Definition to_fields (e : Envelope) : option fields :=
  let '(mkEnvelope (mkHeader c hk iid) (mkBody id ty ik ca sf data pos)) := e in
  match pos with
  | NoPosition => Some (c, hk, iid, (id, ty, ik, ca, sf, data), None)
  | HasPosition (mkPosition s o) => Some (c, hk, iid, (id, ty, ik, ca, sf, data), Some (s, o))
  | BadPosition _ => None
  end.

Definition of_fields (f : fields) : Envelope :=
  let '(c, hk, iid, (id, ty, ik, ca, sf, data), pos) := f in
  mkEnvelope (mkHeader c hk iid)
    (mkBody id ty ik ca sf data
       (match pos with None => NoPosition | Some (s, o) => HasPosition (mkPosition s o) end)).

Definition marshal (e : Envelope) : error + bytes :=
  match to_fields e with
  | Some f => inr (digits (encode f))
  | None => inl (Opaque "invalid extension")
  end.

Definition unmarshal (data : bytes) : error + Envelope :=
  match decode (undigits data) with
  | Some f => inr (of_fields f)
  | None => inl (Opaque "invalid envelope")
  end.

Lemma unmarshal_marshal e data : marshal e = inr data -> unmarshal data = inr e.
Proof.
  unfold marshal, unmarshal. destruct (to_fields e) as [f|] eqn:Hf; [|done]. intros [= <-].
  rewrite undigits_digits, decode_encode. f_equal.
  destruct e as [[c hk iid] [id ty ik ca sf data [| |[s o]]]]; cbn in Hf; by simplify_eq.
Qed.

Record packer := mkPacker { next_id : N; source : UUID * string; envelopes : list Envelope }.

Definition pack (m : N) (t : Z) (p : packer) : Envelope * packer :=
  let env := mkEnvelope (mkHeader 0 (source p).1 (source p).2)
               (mkBody (next_id p) m "" 0 t "" NoPosition) in
  (env, mkPacker (next_id p + 1) (source p) (envelopes p ++ [env])).

#[export, refine] Instance messaging : Messaging := {
  Message := N;
  MessageType m := m;
  Validate _ _ _ := Ret None;
  World := Z * N;
  Now := fst;
  Unpack env := Ret (inr (type_of env));
  Marshal := marshal;
  Unmarshal := unmarshal;
  EffectPacker := packer;
  PackEffects w _ hk iid := mkPacker w.2 (hk, iid) [];
  Pack := pack;
  Seal p := match envelopes p with [] => None | es => Some es end;
  packed := envelopes;
  source_of := source;
}.
Proof.
  - exact unmarshal_marshal.
  - done.
  - done.
  - done.
  - done.
  - intros m t [id [hk iid] es]. done.
  - done.
  - done.
Defined.
End Example.
