(* ===== verification/Recovery.v ===== *)
(** * Recovery of panics

    Models [internal/x/xerrors/recover.go] with the stack of the goroutine, on
    which it decides whether a panic is the application's: [Recover] compares the
    depth of the stack below it with the stack at the time of the panic.  Stacks are
    lists of frames, innermost first.  (Elsewhere the application is called through
    [Handler.Recover], which is what this file shows it to be.) *)

From stdpp Require Import pretty.
From S2P Require Import Prelude Errors Handler.

(** [runtime.Frame] *)
Record frame := mkFrame { File : string; Line : Z; Function : string }.

(** What a function does: it returns, or it panics with the given frames on the
    stack above its own. *)
Inductive outcome (A : Type) : Type :=
| Returns (r : error + A)
| Panics (value : string) (above : list frame).
Arguments Returns {A} r.
Arguments Panics {A} value above.

(** A call of [fn], whose frame is [f], by another function that does nothing else. *)
Definition call {A} (f : frame) (fn : outcome A) : outcome A :=
  match fn with
  | Returns r => Returns r
  | Panics v above => Panics v (above ++ [f])
  end.

(** [PanicError], and the errors that [fn] returns. *)
Inductive failure : Type :=
| Err (e : error)
| PanicErr (Value StackTrace : string).

(** [runtime.Callers] into an array of 128 elements, given the frames that are not
    skipped. *)
Definition max_frames : nat := 128.
Definition Callers (stack : list frame) : list frame := take max_frames stack.

Definition newline : string := String (Ascii.ascii_of_nat 10) "".

Definition format_frame (f : frame) : string :=
  File f +:+ ":" +:+ pretty (Line f) +:+ " " +:+ Function f +:+ newline.

Fixpoint format_stack (stack : list frame) : string :=
  match stack with
  | [] => ""
  | f :: stack' => format_frame f +:+ format_stack stack'
  end.

(** [captureStack], where [stack] begins with the caller of [runtime.gopanic]. *)
Definition captureStack (depth : Z) (stack : list frame) : string :=
  let pcs := Callers stack in
  let n := len pcs - (depth + 1) in
  if decide (n <= 0) then "" else format_stack (take (Z.to_nat n) pcs).

(** [Recover], called on the stack [base]; [self] is its own frame and [closure]
    the frame of [fn]. *)
Definition Recover {A} (self closure : frame) (base : list frame) (fn : outcome A)
    : go (failure + A) :=
  let depth := len (Callers (self :: base)) in
  match fn with
  | Returns (inl e) => Ret (inl (Err e))
  | Returns (inr a) => Ret (inr a)
  | Panics v above =>
      let stack := captureStack depth (above ++ closure :: self :: base) in
      if decide (stack = "") then Panic v else Ret (inl (PanicErr v stack))
  end.

(** [RecoverT]; [inner] is the frame of the function that it gives to [Recover]. *)
Definition RecoverT {A} (self inner recover closure : frame) (base : list frame) (fn : outcome A)
    : go (failure + A) :=
  Recover recover inner (self :: base) (call closure fn).

(** ** What the rest of the engine sees *)

Definition as_error (f : failure) : error :=
  match f with Err e => e | PanicErr v _ => PanicError v end.

Definition abstract {A} (r : go (failure + A)) : go (error + A) :=
  match r with
  | Ret (inl f) => Ret (inl (as_error f))
  | Ret (inr a) => Ret (inr a)
  | Panic v => Panic v
  end.

Definition outcome_go {A} (fn : outcome A) : go (error + A) :=
  match fn with Returns r => Ret r | Panics v _ => Panic v end.

(** ** Lemmas *)

Lemma string_app_nil_r (s : string) : s +:+ "" = s.
Proof. induction s as [|a s IH]; [done|]. change (String a (s +:+ "") = String a s). by rewrite IH. Qed.

Lemma format_stack_nonempty stack : stack <> [] -> format_stack stack <> "".
Proof.
  destruct stack as [|f stack]; [done|]. intros _. cbn. unfold format_frame.
  destruct (File f); cbn; done.
Qed.

Lemma captureStack_spec d above rest :
  Z.of_nat (length rest) = d + 1 -> d + 1 <= 128 ->
  captureStack d (above ++ rest) = format_stack (take (Z.to_nat (128 - (d + 1))) above).
Proof.
  intros Hrest Hd. unfold captureStack, Callers, max_frames, len.
  rewrite length_take, length_app. case_decide as Hn.
  - destruct above as [|f above]; [by rewrite take_nil|]. cbn [length] in Hn.
    assert (Z.to_nat (128 - (d + 1)) = O) as -> by lia. done.
  - rewrite take_take. f_equal.
    destruct (decide (length above + length rest <= 128)%nat) as [Hall|Hcut].
    + rewrite take_app_le by lia. rewrite !take_ge by lia. done.
    + rewrite take_app_le by lia. f_equal. lia.
Qed.

(** Below 127 frames, [Recover] tells the closure's own panics from those of what it
    calls. *)
Lemma Recover_panics {A} self closure base v above :
  (length base + 2 <= 127)%nat ->
  Recover (A := A) self closure base (Panics v above) =
    match above with
    | [] => Panic v
    | _ => Ret (inl (PanicErr v (format_stack (take (126 - length base) above))))
    end.
Proof.
  intros Hb. unfold Recover.
  assert (Hd : len (Callers (self :: base)) = Z.of_nat (S (length base))).
  { unfold len, Callers, max_frames. rewrite length_take. cbn [length]. lia. }
  rewrite Hd, captureStack_spec by (cbn [length]; lia).
  assert (Z.to_nat (128 - (Z.of_nat (S (length base)) + 1)) = (126 - length base)%nat) as -> by lia.
  destruct above as [|f above]; [by rewrite take_nil, decide_True|].
  rewrite decide_False; [done|]. apply format_stack_nonempty.
  destruct (126 - length base)%nat eqn:E; [lia|done].
Qed.

(** ** Properties *)

(** [Recover], on a stack of at most 125 frames, turns exactly the panics of
    functions that the closure calls into errors, which are those that the rest of
    this development sees of [Handler.Recover]; the trace names the frames above the
    closure, and none of the engine's.  A panic of the closure itself is passed
    on. *)
Theorem Recover_refines {A} self closure base (fn : outcome A) :
  (length base <= 125)%nat ->
  (forall v, fn <> Panics v []) ->
  abstract (Recover self closure base fn) = Ret (Handler.Recover (outcome_go fn)) /\
  (forall v above, fn = Panics v above -> (length above + length base <= 126)%nat ->
     Recover self closure base fn = Ret (inl (PanicErr v (format_stack above)))) /\
  (forall v, Recover (A := A) self closure base (Panics v []) = Panic v).
Proof.
  intros Hb Hfn. split_and!.
  - destruct fn as [[e|a]|v above]; [done..|]. rewrite Recover_panics by lia.
    destruct above; [by destruct (Hfn v)|done].
  - intros v above -> Hle. rewrite Recover_panics by lia. destruct above; [by destruct (Hfn v)|].
    by rewrite take_ge by lia.
  - intros v. by rewrite Recover_panics by lia.
Qed.

(** C32: [RecoverT] never passes a panic on, on a stack of at most 124 frames: the
    closure that it gives to [Recover] is its own, and the function that it was
    given is one of those which that closure calls.  So a panic directly within that
    function is caught too, with its frame in the trace. *)
Theorem RecoverT_catches_every_panic {A} self inner recover closure base (fn : outcome A) :
  (length base <= 124)%nat ->
  abstract (RecoverT self inner recover closure base fn) = Ret (Handler.Recover (outcome_go fn)) /\
  (forall v, fn = Panics v [] ->
     RecoverT self inner recover closure base fn = Ret (inl (PanicErr v (format_frame closure)))).
Proof.
  intros Hb. unfold RecoverT, call. destruct fn as [[e|a]|v above]; [done..|].
  rewrite Recover_panics by (cbn [length]; lia). split.
  - destruct above; done.
  - intros v' [= <- ->]. cbn [app]. rewrite take_ge by (cbn [length]; lia).
    cbn [format_stack]. by rewrite string_app_nil_r.
Qed.

(** On a deeper stack the frames of the engine fill the array of
    [runtime.Callers], and every panic is passed on. *)
Theorem Recover_deep_stack {A} self closure base v above :
  (126 <= length base)%nat -> Recover (A := A) self closure base (Panics v above) = Panic v.
Proof.
  intros Hb. unfold Recover, captureStack, Callers, max_frames, len. rewrite !length_take. cbn [length].
  rewrite (decide_True (P := _ <= _)) by lia. by rewrite decide_True.
Qed.

Definition example_closure : frame := mkFrame "pump.go" 109 "HandleDelivery.func1".
Definition example_handler : frame := mkFrame "handler.go" 7 "HandleCommand".
Definition example_self : frame := mkFrame "recover.go" 34 "Recover".

Lemma Recover_refines_witness :
  Recover (A := unit) example_self example_closure [] (Panics "oops" [example_handler])
    = Ret (inl (PanicErr "oops" (format_stack [example_handler]))).
Proof.
  destruct (Recover_refines (A := unit) example_self example_closure []
    (Panics "oops" [example_handler])) as (_ & H & _).
  - cbn. lia.
  - intros v. discriminate.
  - apply (H "oops" [example_handler] eq_refl). cbn. lia.
Defined.

Lemma RecoverT_catches_every_panic_witness :
  RecoverT (A := unit) example_self example_self example_self example_closure [] (Panics "oops" [])
    = Ret (inl (PanicErr "oops" (format_frame example_closure))).
Proof.
  destruct (RecoverT_catches_every_panic (A := unit) example_self example_self example_self
    example_closure [] (Panics "oops" [])) as [_ H].
  - cbn. lia.
  - apply (H "oops" eq_refl).
Defined.
