(* ===== verification/Process.v ===== *)
(** * Process message handlers

    Models [internal/process]: the scope through which a handler acts
    ([messagescope.go]), the state of an instance ([instancestate.go]), the sink
    that dispatches events to a handler and commits each event's effects with its
    checkpoint ([sink.go]), and the driver that delivers deadlines
    ([deadlinepump.go]).

    A handler is a parameter: what it does with its scope is an [interaction],
    the sequence of its calls, each of which may depend on the root that the
    previous ones left.  A consumer's transactions are interleaved with those of
    every other consumer: [turn]. *)

From S2P Require Import Prelude Errors Stream Supervisor Database MessagePump Handler.

(** ** Handlers *)

(** What a handler does with its scope. *)
Inductive interaction (Root Msg : Type) : Type :=
| Return (err : option error)
| Panics (v : string)
| CallMutate (fn : Root -> go Root) (k : Root -> interaction Root Msg)
| CallEnd (k : interaction Root Msg)
| CallExecuteCommand (c : Msg) (k : interaction Root Msg)
| CallScheduleDeadline (d : Msg) (t : Z) (k : interaction Root Msg).
Arguments Return {Root Msg} err.
Arguments Panics {Root Msg} v.
Arguments CallMutate {Root Msg} fn k.
Arguments CallEnd {Root Msg} k.
Arguments CallExecuteCommand {Root Msg} c k.
Arguments CallScheduleDeadline {Root Msg} d t k.

(** [dogma.ProcessMessageHandler] and [dogma.ProcessRoot].  A nil slice of bytes
    is [None]. *)
Class ProcessMessageHandler `{Messaging} := {
  Root : Type;
  New : World -> go Root;
  UnmarshalBinary : bytes -> Root -> go (error + Root);
  MarshalBinary : Root -> go (error + option bytes);
  RouteEventToInstance : World -> Message -> go (error + option string);
  HandleEvent : World -> Root -> string -> Z -> Message -> interaction Root Message;
  HandleDeadline : World -> Root -> string -> Z -> Message -> interaction Root Message;
}.

Section process.
Context `{ProcessMessageHandler}.

(** ** The scope *)

Record messageScope := mkScope {
  root : Root;
  mutated : bool;
  ended : bool;
  commandPacker : EffectPacker;
  deadlinePacker : EffectPacker;
}.

Definition Mutate (fn : Root -> go Root) (s : messageScope) : go messageScope :=
  if ended s then Panic "cannot mutate process instance after it has ended"
  else
    root ← fn (root s);
    Ret (mkScope root true (ended s) (commandPacker s) (deadlinePacker s)).

Definition End (s : messageScope) : messageScope :=
  mkScope (root s) (mutated s) true (commandPacker s) (deadlinePacker s).

Definition ExecuteCommand (outbound : gset UUID) (c : Message) (s : messageScope) : go messageScope :=
  if ended s then Panic "cannot execute command after process instance has ended"
  else if decide (MessageType c ∉ outbound) then
    Panic "this handler is not configured to execute commands of this type"
  else
    let '(env, packer) := Pack c 0 (commandPacker s) in
    err ← Validate c true env;
    match err with
    | Some _ => Panic "command is invalid"
    | None => Ret (mkScope (root s) (mutated s) (ended s) packer (deadlinePacker s))
    end.

Definition ScheduleDeadline (outbound : gset UUID) (d : Message) (t : Z) (s : messageScope)
    : go messageScope :=
  if ended s then Panic "cannot schedule deadline after process instance has ended"
  else if decide (MessageType d ∉ outbound) then
    Panic "this handler is not configured to schedule deadlines of this type"
  else
    let '(env, packer) := Pack d t (deadlinePacker s) in
    err ← Validate d true env;
    match err with
    | Some _ => Panic "deadline is invalid"
    | None => Ret (mkScope (root s) (mutated s) (ended s) (commandPacker s) packer)
    end.

(** The handler's calls on its scope. *)
Fixpoint interact (outbound : gset UUID) (i : interaction Root Message) (s : messageScope)
    : go (error + messageScope) :=
  match i with
  | Return None => Ret (inr s)
  | Return (Some e) => Ret (inl e)
  | Panics v => Panic v
  | CallMutate fn k => s ← Mutate fn s; interact outbound (k (root s)) s
  | CallEnd k => interact outbound k (End s)
  | CallExecuteCommand c k => s ← ExecuteCommand outbound c s; interact outbound k s
  | CallScheduleDeadline d t k => s ← ScheduleDeadline outbound d t s; interact outbound k s
  end.

(** ** The state of an instance *)

Definition newRoot (w : World) : error + Root :=
  match Recover (r ← New w; Ret (inr r)) with
  | inl _ => inl (Sentinel ErrFailed)
  | inr r => inr r
  end.

(** The upsert of [loadInstance]. *)
Definition upsert_instance (hk : UUID) (iid : string) : sql InstanceRow := fun db =>
  match instances db !! (hk, iid) with
  | Some row => inr (row, db)
  | None =>
      if decide (iid = "") then inl (Opaque "violates check constraint")
      else
        let row := mkInstanceRow false None in
        inr (row, set_instances db (<[(hk, iid) := row]> (instances db)))
  end.

(** The result is [None] if the instance has ended. *)
Definition loadInstance (hk : UUID) (iid : string) (root : Root) : tx (option Root) :=
  row ← stmt (wrap "unable to load process instance" (upsert_instance hk iid));
  if inst_ended row then mret None
  else
    match inst_state row with
    | None => mret (Some root)
    | Some state =>
        match Recover (UnmarshalBinary state root) with
        | inl _ => raise (Sentinel ErrFailed)
        | inr root => mret (Some root)
        end
    end.

(** The number of rows affected by an UPDATE of an instance. *)
Definition update_instance (hk : UUID) (iid : string) (f : InstanceRow -> InstanceRow) : sql nat :=
  fun db =>
    match instances db !! (hk, iid) with
    | None => inr (0%nat, db)
    | Some row =>
        let row := f row in
        if decide (inst_ended row = true /\ inst_state row <> None) then
          inl (Opaque "violates check constraint")
        else inr (1%nat, set_instances db (<[(hk, iid) := row]> (instances db)))
    end.

Definition saveInstance (hk : UUID) (iid : string) (root : Root) : tx unit :=
  match Recover (MarshalBinary root) with
  | inl _ => raise (Sentinel ErrFailed)
  | inr data =>
      stmt (wrap "unable to save process instance"
        (ExecOne (update_instance hk iid (fun row => mkInstanceRow (inst_ended row) data))))
  end.

Definition of_instance (hk : UUID) (iid : string) (d : DeadlineRow) : Prop :=
  dl_handler_key d = hk /\ dl_instance_id d = iid.

#[global] Instance of_instance_dec hk iid d : Decision (of_instance hk iid d).
Proof. apply _. Defined.

Definition endInstance (hk : UUID) (iid : string) : tx unit :=
  _ ← stmt (wrap "unable to end process instance"
        (ExecOne (update_instance hk iid (fun _ => mkInstanceRow true None))));
  stmt (modify (fun db =>
    set_deadlines db (filter (fun '(_, d) => ~ of_instance hk iid d) (deadlines db)))).

(** One turn of the loop of [persistDeadlines]. *)
Definition insert_deadline (env : Envelope) (data : bytes) : sql unit := fun db =>
  let id := body_message_id (env_body env) in
  let row := mkDeadlineRow (type_of env) (hdr_handler_key (env_header env))
               (hdr_instance_id (env_header env)) data 0 (body_scheduled_for (env_body env)) in
  match deadlines db !! id with
  | Some _ => inl (Opaque "duplicate key value violates unique constraint")
  | None =>
      if decide (dl_instance_id row = "") then inl (Opaque "violates check constraint")
      else inr (tt, set_deadlines db (<[id := row]> (deadlines db)))
  end.

Fixpoint insert_deadlines (es : list Envelope) : tx unit :=
  match es with
  | [] => mret tt
  | env :: es' =>
      match Marshal env with
      | inl e => raise (Wrap "unable to marshal deadline envelope" e)
      | inr data =>
          _ ← stmt (wrap "unable to persist deadline" (insert_deadline env data));
          insert_deadlines es'
      end
  end.

Definition persistDeadlines (p : EffectPacker) : tx unit :=
  match Seal p with None => mret tt | Some es => insert_deadlines es end.

(** The loop of [addCommandsToQueue]; [xsql.Envelope] marshals the envelope when
    the statement is executed. *)
Fixpoint add_commands (now : Z) (es : list Envelope) : tx unit :=
  match es with
  | [] => mret tt
  | env :: es' =>
      _ ← stmt (wrap "unable to add command to queue"
            (match Marshal env with
             | inl e => fail e
             | inr data =>
                 commandqueue_add now (body_message_id (env_body env)) (type_of env) data
                   (body_idempotency_key (env_body env))
             end));
      add_commands now es'
  end.

Definition addCommandsToQueue (now : Z) (p : EffectPacker) : tx unit :=
  match Seal p with None => mret tt | Some es => add_commands now es end.

(** ** The sink *)

(** The fields of a [Sink] or a [DeadlinePump]. *)
Context (key : UUID).                      (* s.Identity.GetKey() *)
Context (OutboundMessageTypes : gset UUID).

(** [routeEventToInstance]; the result is [None] if the event is not routed. *)
Definition routeEventToInstance (w : World) (event : Message) : error + option string :=
  match Recover (
    r ← RouteEventToInstance w event;
    match r with
    | inl e => Ret (inl e)
    | inr None => Ret (inr "")
    | inr (Some iid) =>
        if decide (iid = "") then Ret (inl (Opaque "handler returned empty instance ID"))
        else Ret (inr iid)
    end) with
  | inl e => inl (Wrap "unable to route event to instance" e)
  | inr iid => inr (if decide (iid <> "") then Some iid else None)
  end.

(** A new scope, for a message caused by [env]. *)
Definition newScope (w : World) (env : Envelope) (iid : string) (root : Root) : messageScope :=
  mkScope root false false (PackEffects w env key iid) (PackEffects w env key iid).

(** What [dispatch] does once the instance is loaded. *)
Definition dispatch_to (w : World) (env : Envelope) (event : Message) (iid : string) (rt : Root)
    : tx unit :=
  match Recover (interact OutboundMessageTypes
          (HandleEvent w rt iid (body_created_at (env_body env)) event)
          (newScope w env iid rt)) with
  | inl e => raise (Wrap "unable to handle event" e)
  | inr scope =>
      _ ← addCommandsToQueue (Now w) (commandPacker scope);
      if ended scope then endInstance key iid
      else
        _ ← (if mutated scope then saveInstance key iid (root scope) else mret tt);
        persistDeadlines (deadlinePacker scope)
  end.

Definition dispatch (w : World) (env : Envelope) : tx unit :=
  match UnpackMessage env with
  | inl e => raise (Wrap "unable to unmarshal event" e)
  | inr event =>
      match routeEventToInstance w event with
      | inl e => raise e
      | inr None => mret tt
      | inr (Some iid) =>
          match newRoot w with
          | inl e => raise e
          | inr root =>
              r ← loadInstance key iid root;
              match r with
              | None => mret tt
              | Some root => dispatch_to w env event iid root
              end
          end
      end
  end.

(** The upsert of [consume], which locks the checkpoint. *)
Definition lock_checkpoint (sid : UUID) : sql Z := fun db =>
  match checkpoints db !! (key, sid) with
  | Some cp => inr (cp, db)
  | None => inr (0, set_checkpoints db (<[(key, sid) := 0]> (checkpoints db)))
  end.

(** The UPDATE of [consume]; the column is a non-negative bigint. *)
Definition update_checkpoint (sid : UUID) (next : Z) : sql nat := fun db =>
  if decide (0 <= next < 2 ^ 63) then
    match checkpoints db !! (key, sid) with
    | None => inr (0%nat, db)
    | Some _ => inr (1%nat, set_checkpoints db (<[(key, sid) := next]> (checkpoints db)))
    end
  else inl (Opaque "checkpoint offset out of range").

(** The body of the transaction of [consume]. *)
Definition consume_tx (w : World) (sid : UUID) (cp next : Z) (env : option Envelope) : tx Z :=
  actual ← stmt (lock_checkpoint sid);
  if decide (actual <> cp) then mret actual
  else
    _ ← (match env with Some env => dispatch w env | None => mret tt end);
    _ ← stmt (ExecOne (update_checkpoint sid next));
    mret actual.

(** [consume] *)
Definition consume (env : TxEnv) (w : World) (sid : UUID) (cp next : Z) (event : option Envelope)
    (db : DB) : Z * bool * option error * DB :=
  match Transact env (exec (consume_tx w sid cp next event)) db with
  | (inl e, db') => (cp, false, Some e, db')
  | (inr actual, db') =>
      if decide (actual <> cp) then (actual, false, None, db') else (next, true, None, db')
  end.

(** What surrounds one transaction of a consumer: what every other transaction
    does to the database before it begins, and the faults and inputs it meets. *)
Record turn := mkTurn {
  others : DB -> DB;
  tx_env : TxEnv;
  world : World;
}.

(** [ConsumeSegment]; the n'th transaction takes the n'th turn. *)
Fixpoint ConsumeSegment_loop (turns : nat -> turn) (sid : UUID) (cp seg_end : Z)
    (envelopes : list Envelope) (db : DB) : go (Z * bool * option error * DB) :=
  let t := turns O in
  match envelopes with
  | [] =>
      if decide (cp < seg_end) then
        Ret (consume (tx_env t) (world t) sid cp seg_end None (others t db))
      else Ret (cp, true, None, db)
  | env :: envelopes' =>
      offset ← offsetOf env;
      if decide (offset < cp) then ConsumeSegment_loop turns sid cp seg_end envelopes' db
      else
        match consume (tx_env t) (world t) sid cp (u64 (offset + 1)) (Some env) (others t db) with
        | (next, true, None, db') =>
            ConsumeSegment_loop (fun n => turns (S n)) sid next seg_end envelopes' db'
        | (_, ok, err, db') => Ret (cp, ok, err, db')
        end
  end.

Definition ConsumeSegment (turns : nat -> turn) (cp : Z) (seg : Segment) (db : DB)
    : go (Z * bool * option error * DB) :=
  ConsumeSegment_loop turns (seg_stream seg) cp (seg_end seg) (seg_envelopes seg) db.

(** [CheckpointOffset]; [query_err] is the failure of the query. *)
Definition CheckpointOffset (query_err : option error) (sid : UUID) (db : DB) : error + Z :=
  match query_err with
  | Some e => inl e
  | None => inr (match checkpoints db !! (key, sid) with Some cp => cp | None => 0 end)
  end.

(** ** The deadline pump *)

(** The deadlines of the handler that are due and whose instance exists, in order
    of their delivery time. *)
Definition pending_deadlines (now : Z) (types : gset UUID) (db : DB) : list (UUID * DeadlineRow) :=
  order_by (fun '(_, d) => dl_deliver_at d)
    (filter (fun '(_, d) => dl_handler_key d = key /\ dl_deliver_at d <= now /\
               dl_type_id d ∈ types /\
               is_Some (instances db !! (dl_handler_key d, dl_instance_id d)))
       (map_to_list (deadlines db))).

(** [AcquireDelivery], at time [now]; [locked] are the deadlines that are, or
    whose instance is, locked by other transactions. *)
Definition AcquireDeadline (now : Z) (locked : gset UUID) (types : gset UUID) (db : DB)
    : error + option Delivery :=
  match filter (fun '(id, _) => id ∉ locked) (pending_deadlines now types db) with
  | [] => inr None
  | (id, d) :: _ =>
      if decide (0 <= dl_failures d < u64_modulus) then
        inr (Some (mkDelivery id (dl_type_id d) (dl_envelope d) (dl_failures d)))
      else inl (Opaque "unable to scan pending deadline")
  end.

(** [PostponeDelivery], at the database's time [now]. *)
Definition PostponeDeadline (now : Z) (del : Delivery) (delay : Z) : tx unit :=
  stmt (wrap "unable to postpone deadline" (ExecOne (fun db =>
    match deadlines db !! MessageID del with
    | None => inr (0%nat, db)
    | Some d =>
        inr (1%nat, set_deadlines db
          (<[MessageID del := mkDeadlineRow (dl_type_id d) (dl_handler_key d) (dl_instance_id d)
               (dl_envelope d) (Failures del) (now + delay)]> (deadlines db)))
    end))).

Definition deleteDeadline (id : UUID) : tx unit :=
  stmt (wrap "unable to delete deadline" (ExecOne (fun db =>
    match deadlines db !! id with
    | None => inr (0%nat, db)
    | Some _ => inr (1%nat, set_deadlines db (delete id (deadlines db)))
    end))).

(** What [HandleDelivery] does once the instance is loaded. *)
Definition deliver_to (w : World) (del : Delivery) (env : Envelope) (deadline : Message)
    (iid : string) (rt : Root) : tx unit :=
  match Recover (interact OutboundMessageTypes
          (HandleDeadline w rt iid (body_scheduled_for (env_body env)) deadline)
          (newScope w env iid rt)) with
  | inl _ => raise (Sentinel ErrFailed)
  | inr scope =>
      _ ← addCommandsToQueue (Now w) (commandPacker scope);
      if ended scope then endInstance key iid
      else
        _ ← (if mutated scope then saveInstance key iid (root scope) else mret tt);
        _ ← persistDeadlines (deadlinePacker scope);
        deleteDeadline (MessageID del)
  end.

(** [HandleDelivery] *)
Definition HandleDeadlineDelivery (w : World) (del : Delivery) (env : Envelope) : tx unit :=
  match UnpackMessage env with
  | inl _ => raise (Sentinel ErrFailed)
  | inr deadline =>
      let iid := hdr_instance_id (env_header env) in
      match newRoot w with
      | inl e => raise e
      | inr root =>
          r ← loadInstance key iid root;
          match r with
          | None => raise (Sentinel ErrFailed)
          | Some root => deliver_to w del env deadline iid root
          end
      end
  end.

(** The pump's driver, for one delivery with inputs [w] and no contention. *)
Definition DeadlinePump (w : World) (types : gset UUID) : Driver := {|
  AcquireDelivery db := (db, AcquireDeadline (Now w) ∅ types db);
  PostponeDelivery del delay db := outcome (PostponeDeadline (Now w) del delay db);
  HandleDelivery del env db := outcome (HandleDeadlineDelivery w del env db);
|}.
End process.

(** ** The invariant of the process tables

    An ended instance has no state; a deadline is of an instance that exists and
    has not ended, and its envelope names that instance. *)

Section invariant.
Context `{Messaging}.

Definition live (hk : UUID) (iid : string) (db : DB) : Prop :=
  exists row, instances db !! (hk, iid) = Some row /\ inst_ended row = false.

Definition deadline_wf (db : DB) (d : DeadlineRow) : Prop :=
  live (dl_handler_key d) (dl_instance_id d) db /\
  exists env, Unmarshal (dl_envelope d) = inr env /\
    hdr_handler_key (env_header env) = dl_handler_key d /\
    hdr_instance_id (env_header env) = dl_instance_id d.

Definition process_wf (db : DB) : Prop :=
  (forall k row, instances db !! k = Some row -> inst_ended row = true -> inst_state row = None) /\
  map_Forall (fun _ => deadline_wf db) (deadlines db).

(** Nothing but the command queue and the instances and deadlines changes. *)
Definition same_streams (db db' : DB) : Prop :=
  checkpoints db' = checkpoints db /\ streams db' = streams db /\ events db' = events db.

(** Nothing that the invariant is about changes. *)
Definition same_process (db db' : DB) : Prop :=
  instances db' = instances db /\ deadlines db' = deadlines db.

Lemma deadline_wf_mono db db' d :
  (forall hk iid, live hk iid db -> live hk iid db') -> deadline_wf db d -> deadline_wf db' d.
Proof. intros Hl [Hd He]. split; [by apply Hl|done]. Qed.

Lemma process_wf_same db db' : same_process db db' -> process_wf db -> process_wf db'.
Proof.
  intros [Hi Hd] [H1 H2]. split; rewrite ?Hi, ?Hd; [done|].
  eapply map_Forall_impl; [exact H2|]. intros id d. apply deadline_wf_mono. intros hk iid.
  unfold live. by rewrite Hi.
Qed.

Lemma live_same hk iid db db' : same_process db db' -> live hk iid db -> live hk iid db'.
Proof. intros [Hi _]. unfold live. by rewrite Hi. Qed.

Lemma commandqueue_add_same now mid tid data k db r db' :
  commandqueue_add now mid tid data k db = inr (r, db') ->
  same_process db db' /\ same_streams db db'.
Proof.
  unfold commandqueue_add. repeat (case_decide || case_match); intros [= <- <-]; by split_and!.
Qed.

Lemma add_commands_same now es db :
  same_process db (add_commands now es db).1 /\ same_streams db (add_commands now es db).1.
Proof.
  revert db. induction es as [|env es IH]; intros db; [by split_and!|]. cbn.
  unfold mbind, tx_bind, stmt, wrap. destruct (Marshal env) as [e|data]; [by split_and!|].
  destruct (commandqueue_add _ _ _ _ _ db) as [e|[r db1]] eqn:E; [by split_and!|].
  apply commandqueue_add_same in E as [[E1 E2] (E3 & E4 & E5)].
  destruct (IH db1) as [[I1 I2] (I3 & I4 & I5)]. split; [split|split_and!]; congruence.
Qed.

Lemma addCommandsToQueue_same now p db :
  same_process db (addCommandsToQueue now p db).1 /\
  same_streams db (addCommandsToQueue now p db).1.
Proof.
  unfold addCommandsToQueue. destruct (Seal p); [apply add_commands_same|by split_and!].
Qed.

(** An update of an instance that keeps it alive, or starts it. *)
Lemma process_wf_instance hk iid row db :
  (inst_ended row = true -> inst_state row = None) ->
  (inst_ended row = false \/ map_Forall (fun _ d => ~ of_instance hk iid d) (deadlines db)) ->
  process_wf db -> process_wf (set_instances db (<[(hk, iid) := row]> (instances db))).
Proof.
  intros Hrow Hor [H1 H2]. split; cbn.
  - intros k row'. rewrite lookup_insert_Some. intros [[<- <-]|[_ Hk]]; [done|by eapply H1].
  - intros id d Hd. destruct (H2 _ _ Hd) as [(r & Hr & Hl) He]. split; [|done].
    unfold live. cbn. destruct (decide ((hk, iid) = (dl_handler_key d, dl_instance_id d))) as [Heq|Hne].
    + rewrite Heq, lookup_insert_eq. destruct Hor as [Ho|Ho]; [eauto|].
      destruct (Ho _ _ Hd). injection Heq as -> ->. by split.
    + rewrite lookup_insert_ne by done. eauto.
Qed.

Lemma live_instance hk iid hk' iid' row db :
  inst_ended row = false -> live hk' iid' db ->
  live hk' iid' (set_instances db (<[(hk, iid) := row]> (instances db))).
Proof.
  intros Hrow (r & Hr & Hl). unfold live. cbn.
  destruct (decide ((hk, iid) = (hk', iid'))) as [Heq|Hne].
  - rewrite Heq, lookup_insert_eq. eauto.
  - rewrite lookup_insert_ne by done. eauto.
Qed.

Lemma upsert_instance_wf hk iid db row db' :
  process_wf db -> upsert_instance hk iid db = inr (row, db') ->
  process_wf db' /\ same_streams db db' /\ deadlines db' = deadlines db /\
  instances db' !! (hk, iid) = Some row.
Proof.
  intros Hwf. unfold upsert_instance. destruct (instances db !! (hk, iid)) as [r|] eqn:Hi.
  - intros [= <- <-]. by split_and!.
  - case_decide; [done|]. intros [= <- <-]. split_and!; [|done..|].
    + apply process_wf_instance; [done|by left|done].
    + cbn. by rewrite lookup_insert_eq.
Qed.

(** An UPDATE of an instance that succeeds. *)
Lemma update_instance_inr hk iid f db db' :
  ExecOne (update_instance hk iid f) db = inr (tt, db') ->
  exists row, instances db !! (hk, iid) = Some row /\
    db' = set_instances db (<[(hk, iid) := f row]> (instances db)) /\
    (inst_ended (f row) = true -> inst_state (f row) = None).
Proof.
  unfold ExecOne, mbind, sql_bind, wrap, update_instance.
  destruct (instances db !! (hk, iid)) as [row|]; [|done].
  destruct (decide (inst_ended (f row) = true /\ _)) as [|Hn]; [done|]. intros [= <-].
  exists row. split_and!; try done. intros He. destruct (inst_state (f row)) eqn:Es; [|done].
  destruct Hn. by split.
Qed.

Lemma insert_deadline_wf env data db db' :
  Marshal env = inr data ->
  live (hdr_handler_key (env_header env)) (hdr_instance_id (env_header env)) db ->
  process_wf db -> insert_deadline env data db = inr (tt, db') ->
  process_wf db' /\ same_streams db db' /\ instances db' = instances db /\
  deadlines db ⊆ deadlines db'.
Proof.
  intros Hm Hl [H1 H2]. unfold insert_deadline.
  destruct (deadlines db !! _) eqn:Hid; [done|]. case_decide; [done|]. intros [= <-].
  split_and!; [|done..|by apply insert_subseteq]. split; [done|]. cbn.
  apply map_Forall_insert_2; [|exact H2]. split; [done|]. exists env. split_and!; try done.
  cbn. by apply Unmarshal_Marshal.
Qed.

Lemma insert_deadlines_wf hk iid es db :
  (forall e, e ∈ es ->
    (hdr_handler_key (env_header e), hdr_instance_id (env_header e)) = (hk, iid)) ->
  live hk iid db -> process_wf db ->
  process_wf (insert_deadlines es db).1 /\ same_streams db (insert_deadlines es db).1 /\
  deadlines db ⊆ deadlines (insert_deadlines es db).1.
Proof.
  revert db. induction es as [|env es IH]; intros db Hsrc Hl Hwf; [by split_and!|]. cbn.
  destruct (Marshal env) as [e|data] eqn:Hm; [by split_and!|].
  unfold mbind, tx_bind, stmt, wrap.
  destruct (insert_deadline env data db) as [e|[[] db1]] eqn:E; [by split_and!|].
  pose proof (Hsrc env ltac:(left)) as [= Hk Hd].
  apply insert_deadline_wf in E as (Hwf1 & (S1 & S2 & S3) & Hi & Hsub);
    [|done|by rewrite Hk, Hd|done].
  destruct (IH db1) as (? & (? & ? & ?) & ?); [|by unfold live; rewrite Hi|done|].
  { intros e He. apply Hsrc. by right. }
  split_and!; [done|split_and!; congruence|by etrans].
Qed.
End invariant.

Section effects.
Context `{ProcessMessageHandler} (key : UUID) (outbound : gset UUID).

(** A scope produces messages only on behalf of its own instance. *)
Definition scope_of (iid : string) (s : messageScope) : Prop :=
  source_of (deadlinePacker s) = (key, iid) /\ from_source (deadlinePacker s).

Lemma scope_of_new w env iid rt : scope_of iid (newScope key w env iid rt).
Proof. split; cbn; [apply source_new|apply from_source_new]. Qed.

Lemma interact_scope_of iid i s s' :
  scope_of iid s -> interact outbound i s = Ret (inr s') -> scope_of iid s'.
Proof.
  revert s. induction i as [[e|]|v|fn k IH|k IH|c k IH|d t k IH]; intros s Hs; cbn.
  - done.
  - by intros [= <-].
  - done.
  - unfold Mutate. destruct (ended s); [done|]. destruct (fn (root s)) as [r|]; cbn; [|done].
    by apply IH.
  - by apply IH.
  - unfold ExecuteCommand. destruct (ended s); [done|]. case_decide; [done|].
    destruct (Pack _ _ _) as [env p]. destruct (Validate c true env) as [[?|]|]; cbn; try done.
    by apply IH.
  - unfold ScheduleDeadline. destruct (ended s); [done|]. case_decide; [done|].
    destruct (Pack _ _ _) as [env p] eqn:E.
    destruct (Validate d true env) as [[?|]|]; cbn; try done. apply IH.
    pose proof (source_Pack d t (deadlinePacker s)) as Hp.
    pose proof (from_source_Pack d t (deadlinePacker s) (proj2 Hs)) as Hf.
    rewrite E in Hp, Hf. split; cbn; [|done]. rewrite <- (proj1 Hs). exact Hp.
Qed.

Lemma persistDeadlines_wf iid s db :
  scope_of iid s -> live key iid db -> process_wf db ->
  process_wf (persistDeadlines (deadlinePacker s) db).1 /\
  same_streams db (persistDeadlines (deadlinePacker s) db).1 /\
  deadlines db ⊆ deadlines (persistDeadlines (deadlinePacker s) db).1.
Proof.
  intros [Hsrc Hf] Hl Hwf. unfold persistDeadlines. rewrite Seal_packed.
  destruct (packed (deadlinePacker s)) as [|e es] eqn:Hp; [by split_and!|].
  apply (insert_deadlines_wf key iid); [|done..]. intros e' He'. rewrite <- Hp in He'.
  rewrite (Hf _ He'). exact Hsrc.
Qed.

Lemma saveInstance_wf iid rt db :
  live key iid db -> process_wf db ->
  process_wf (saveInstance key iid rt db).1 /\ live key iid (saveInstance key iid rt db).1 /\
  same_streams db (saveInstance key iid rt db).1 /\
  deadlines (saveInstance key iid rt db).1 = deadlines db.
Proof.
  intros Hl Hwf. unfold saveInstance. destruct (Recover (MarshalBinary rt)) as [e|data];
    [by split_and!|]. unfold stmt, wrap.
  destruct (ExecOne _ db) as [e|[[] db']] eqn:E; [by split_and!|].
  apply update_instance_inr in E as (row & Hrow & -> & Hok).
  destruct Hl as (row' & Hrow' & He). rewrite Hrow in Hrow'. injection Hrow' as <-.
  split_and!; try done.
  - apply process_wf_instance; [done|by left|done].
  - unfold live. cbn. rewrite lookup_insert_eq. eauto.
Qed.

Lemma endInstance_wf iid db :
  process_wf db ->
  process_wf (endInstance key iid db).1 /\ same_streams db (endInstance key iid db).1 /\
  match (endInstance key iid db).2 with
  | inl _ => deadlines (endInstance key iid db).1 = deadlines db
  | inr _ => deadlines (endInstance key iid db).1
               = filter (fun '(_, d) => ~ of_instance key iid d) (deadlines db)
  end.
Proof.
  intros [H1 H2]. unfold endInstance, mbind, tx_bind, stmt, wrap, modify.
  destruct (ExecOne _ db) as [e|[[] db']] eqn:E; [by split_and!|].
  apply update_instance_inr in E as (row & Hrow & -> & Hok). cbn. split_and!; try done.
  set (db1 := set_deadlines db (filter (fun '(_, d) => ~ of_instance key iid d) (deadlines db))).
  apply (process_wf_instance key iid (mkInstanceRow true None) db1); [done|right|].
  - intros id d Hd. cbn in Hd. by apply map_lookup_filter_Some in Hd as [_ ?].
  - split; [done|]. intros id d Hd. cbn in Hd. apply map_lookup_filter_Some in Hd as [Hd _].
    exact (H2 _ _ Hd).
Qed.

Lemma loadInstance_wf iid rt db db' r :
  process_wf db -> loadInstance key iid rt db = (db', r) ->
  process_wf db' /\ same_streams db db' /\ deadlines db' = deadlines db /\
  (forall x, r = inr (Some x) -> live key iid db') /\
  (r = inr None -> exists row, instances db !! (key, iid) = Some row /\ inst_ended row = true).
Proof.
  intros Hwf. unfold loadInstance, mbind, tx_bind. unfold stmt, wrap.
  destruct (upsert_instance key iid db) as [e|[row db1]] eqn:E.
  { intros [= <- <-]. by split_and!. }
  assert (Hend : inst_ended row = true -> instances db !! (key, iid) = Some row).
  { intros He. unfold upsert_instance in E. destruct (instances db !! _); [congruence|].
    case_decide; [done|]. injection E as <- _. done. }
  apply upsert_instance_wf in E as (Hwf1 & Hs & Hd & Hi); [|done].
  destruct (inst_ended row) eqn:He.
  { intros [= <- <-]. split_and!; try done. eauto. }
  assert (Hl : live key iid db1) by (exists row; done).
  destruct (inst_state row) as [state|]; [|intros [= <- <-]; by split_and!].
  destruct (Recover (UnmarshalBinary state rt)); intros [= <- <-]; by split_and!.
Qed.

(** What applying the effects of a scope to its instance leaves, before a
    delivered deadline is deleted. *)
Definition apply_effects (now : Z) (iid : string) (s : messageScope) (k : tx unit) : tx unit :=
  _ ← addCommandsToQueue now (commandPacker s);
  if ended s then endInstance key iid
  else
    _ ← (if mutated s then saveInstance key iid (root s) else mret tt);
    _ ← persistDeadlines (deadlinePacker s);
    k.

Lemma apply_effects_wf now iid s k db :
  scope_of iid s -> live key iid db -> process_wf db ->
  (forall db, process_wf db -> process_wf (k db).1 /\ same_streams db (k db).1 /\
     match (k db).2 with inl _ => deadlines (k db).1 = deadlines db | inr _ => True end) ->
  process_wf (apply_effects now iid s k db).1 /\
  same_streams db (apply_effects now iid s k db).1 /\
  match (apply_effects now iid s k db).2 with
  | inl _ => deadlines db ⊆ deadlines (apply_effects now iid s k db).1
  | inr _ =>
      deadlines (apply_effects now iid s k db).1
        = filter (fun '(_, d) => ~ of_instance key iid d) (deadlines db) \/
      exists db1, deadlines db ⊆ deadlines db1 /\ k db1 = ((apply_effects now iid s k db).1, inr tt)
  end.
Proof.
  intros Hs Hl Hwf Hk. unfold apply_effects, mbind, tx_bind.
  destruct (addCommandsToQueue now (commandPacker s) db) as [db1 r1] eqn:E1.
  pose proof (addCommandsToQueue_same now (commandPacker s) db) as [Hp1 Hs1].
  rewrite E1 in Hp1, Hs1. cbn in Hp1, Hs1.
  apply (process_wf_same _ _ Hp1) in Hwf. apply (live_same _ _ _ _ Hp1) in Hl.
  destruct Hp1 as [_ Hd1]. rewrite <- Hd1. unfold same_streams in *.
  destruct Hs1 as (<- & <- & <-).
  destruct r1 as [e|[]]; [cbn [fst snd]; by split_and!|].
  destruct (ended s).
  { destruct (endInstance_wf iid db1 Hwf) as (? & (? & ? & ?) & Hdl). split_and!; try done.
    destruct (endInstance key iid db1) as [db2 [e|[]]]; cbn in *; [by rewrite Hdl|by left]. }
  assert (exists db2 r2, (if mutated s then saveInstance key iid (root s) else mret tt) db1
      = (db2, r2) /\ process_wf db2 /\ live key iid db2 /\ same_streams db1 db2 /\
        deadlines db2 = deadlines db1) as (db2 & r2 & -> & Hwf2 & Hl2 & Hs2 & Hd2).
  { destruct (mutated s); [|by eexists _, _; split_and!].
    pose proof (saveInstance_wf iid (root s) db1 Hl Hwf) as (? & ? & ? & ?).
    destruct (saveInstance key iid (root s) db1). by eexists _, _. }
  rewrite <- Hd2. destruct Hs2 as (<- & <- & <-). destruct r2 as [e|[]]; [cbn [fst snd]; by split_and!|].
  pose proof (persistDeadlines_wf iid s db2 Hs Hl2 Hwf2) as (Hwf3 & (C3 & S3 & E3) & Hd3).
  destruct (persistDeadlines (deadlinePacker s) db2) as [db3 [e|[]]]; cbn in *; [cbn [fst snd]; by split_and!|].
  rewrite <- C3, <- S3, <- E3. destruct (Hk db3 Hwf3) as (? & (? & ? & ?) & Hres).
  split_and!; try done. destruct (k db3) as [db4 [e|[]]] eqn:E4; cbn in *; [by rewrite Hres|].
  right. exists db3. done.
Qed.
End effects.

Section preservation.
Context `{ProcessMessageHandler} (key : UUID) (outbound : gset UUID).

Lemma tx_bind_unit (m : tx unit) db : (m ≫= fun _ => mret tt) db = m db.
Proof. unfold mbind, tx_bind. by destruct (m db) as [? [?|[]]]. Qed.

Lemma dispatch_wf w env db :
  process_wf db ->
  process_wf (dispatch key outbound w env db).1 /\
  same_streams db (dispatch key outbound w env db).1.
Proof.
  intros Hwf. unfold dispatch. destruct (UnpackMessage env) as [|event]; [by split_and!|].
  destruct (routeEventToInstance w event) as [|[iid|]]; [by split_and!| |by split_and!].
  destruct (newRoot w) as [|rt]; [by split_and!|].
  unfold mbind, tx_bind. destruct (loadInstance key iid rt db) as [db1 r] eqn:E.
  apply loadInstance_wf in E as (Hwf1 & (C1 & S1 & E1) & _ & Hl & _); [|done].
  destruct r as [e|[rt'|]]; [by split_and!| |by split_and!].
  specialize (Hl _ eq_refl). unfold same_streams. rewrite <- C1, <- S1, <- E1.
  unfold dispatch_to. destruct (Recover _) as [e|s] eqn:Er; [by split_and!|].
  assert (Hs : scope_of key iid s).
  { unfold Recover in Er. destruct (interact _ _ _) as [r|] eqn:Ei; [|done]. subst r.
    by eapply interact_scope_of; [|exact Ei]; apply scope_of_new. }
  destruct (apply_effects_wf key (Now w) iid s (mret tt : tx unit) db1 Hs Hl Hwf1) as (Hw & Hst & _).
  { intros db2 Hwf2. by split_and!. }
  unfold apply_effects, mbind, tx_bind in *.
  destruct (addCommandsToQueue _ _ _) as [db2 [e|[]]]; [done|]. destruct (ended s); [done|].
  destruct (mutated s); [destruct (saveInstance _ _ _ _) as [db3 [e|[]]]; [done|]|]; cbn in *;
    by destruct (persistDeadlines _ _) as [db4 [e|[]]].
Qed.

Lemma deleteDeadline_spec id db :
  match deadlines db !! id with
  | Some _ => deleteDeadline id db = (set_deadlines db (delete id (deadlines db)), inr tt)
  | None => exists e, deleteDeadline id db = (db, inl e)
  end.
Proof.
  unfold deleteDeadline, stmt, wrap, ExecOne, mbind, sql_bind, wrap.
  destruct (deadlines db !! id); eauto.
Qed.

Lemma deleteDeadline_wf id db :
  process_wf db ->
  process_wf (deleteDeadline id db).1 /\ same_streams db (deleteDeadline id db).1 /\
  match (deleteDeadline id db).2 with
  | inl _ => deadlines (deleteDeadline id db).1 = deadlines db
  | inr _ => deadlines (deleteDeadline id db).1 !! id = None
  end.
Proof.
  intros [H1' H2']. pose proof (deleteDeadline_spec id db) as Hdel.
  destruct (deadlines db !! id) as [d0|] eqn:E; [|by destruct Hdel as [e ->]; split_and!].
  rewrite Hdel. cbn. split_and!; try done.
  - split; [done|]. cbn. intros id' d Hd. apply lookup_delete_Some in Hd as [_ Hd].
    exact (H2' _ _ Hd).
  - by rewrite lookup_delete_eq.
Qed.

Lemma HandleDeadlineDelivery_wf w del env db :
  process_wf db ->
  process_wf (HandleDeadlineDelivery key outbound w del env db).1 /\
  same_streams db (HandleDeadlineDelivery key outbound w del env db).1 /\
  match (HandleDeadlineDelivery key outbound w del env db).2 with
  | inl _ => deadlines db ⊆ deadlines (HandleDeadlineDelivery key outbound w del env db).1
  | inr _ =>
      (forall d, deadlines db !! MessageID del = Some d ->
         of_instance key (hdr_instance_id (env_header env)) d) ->
      deadlines (HandleDeadlineDelivery key outbound w del env db).1 !! MessageID del = None
  end.
Proof.
  intros Hwf. unfold HandleDeadlineDelivery.
  destruct (UnpackMessage env) as [|deadline]; [by cbn; split_and!|].
  destruct (newRoot w) as [|rt]; [by cbn; split_and!|].
  unfold mbind, tx_bind. set (iid := hdr_instance_id (env_header env)).
  destruct (loadInstance key iid rt db) as [db1 r] eqn:E.
  apply loadInstance_wf in E as (Hwf1 & (C1 & S1 & E1) & D1 & Hl & _); [|done].
  unfold same_streams. rewrite <- C1, <- S1, <- E1, <- D1.
  destruct r as [e|[rt'|]]; [by cbn; split_and!| |by cbn; split_and!].
  specialize (Hl _ eq_refl).
  unfold deliver_to. destruct (Recover _) as [e|s] eqn:Er; [by cbn; split_and!|].
  assert (Hs : scope_of key iid s).
  { unfold Recover in Er. destruct (interact _ _ _) as [r|] eqn:Ei; [|done]. subst r.
    by eapply interact_scope_of; [|exact Ei]; apply scope_of_new. }
  destruct (apply_effects_wf key (Now w) iid s (deleteDeadline (MessageID del)) db1 Hs Hl Hwf1)
    as (Hw & Hst & Hres).
  { intros db2 Hwf2. pose proof (deleteDeadline_wf (MessageID del) db2 Hwf2) as (? & ? & Hd).
    split_and!; try done. by destruct (deleteDeadline _ _) as [? [?|?]]. }
  change (_ ≫= _) with (apply_effects key (Now w) iid s (deleteDeadline (MessageID del))).
  split_and!; [done|apply Hst..|].
  destruct (apply_effects _ _ _ _ _ db1) as [db2 [e|[]]]; cbn [fst snd] in *; [done|].
  intros Hof. destruct Hres as [->|(db3 & _ & Hdel)].
  - apply map_lookup_filter_None. right. intros d Hd. cbn. intros Hn. by apply Hn, Hof.
  - pose proof (deleteDeadline_spec (MessageID del) db3) as Hspec.
    destruct (deadlines db3 !! MessageID del); [|destruct Hspec; congruence].
    rewrite Hspec in Hdel. injection Hdel as <-. cbn. by rewrite lookup_delete_eq.
Qed.

Lemma PostponeDeadline_wf now del delay db :
  process_wf db ->
  process_wf (PostponeDeadline now del delay db).1 /\
  (forall d, deadlines db !! MessageID del = Some d ->
     PostponeDeadline now del delay db =
       (set_deadlines db (<[MessageID del := mkDeadlineRow (dl_type_id d) (dl_handler_key d)
          (dl_instance_id d) (dl_envelope d) (Failures del) (now + delay)]> (deadlines db)), inr tt)).
Proof.
  intros [H1' H2']. unfold PostponeDeadline, stmt, wrap, ExecOne, mbind, sql_bind, wrap.
  destruct (deadlines db !! MessageID del) as [d|] eqn:E; [|by split].
  rewrite decide_True by done. split; [|by intros d' [= <-]].
  split; [done|]. apply map_Forall_insert_2; [|exact H2']. exact (H2' _ _ E).
Qed.

(** The deadlines that the pump acquires are delivered to live instances. *)
Lemma AcquireDeadline_row now locked types db del :
  AcquireDeadline key now locked types db = inr (Some del) ->
  exists d, deadlines db !! MessageID del = Some d /\ dl_handler_key d = key /\
    dl_deliver_at d <= now /\ dl_type_id d ∈ types /\ MessageTypeID del = dl_type_id d /\
    EnvelopeBytes del = dl_envelope d /\ Failures del = dl_failures d /\ (MessageID del ∉ locked).
Proof.
  unfold AcquireDeadline. destruct (filter _ _) as [|[id d] l] eqn:E; [done|].
  case_decide; [|done]. intros [= <-]. cbn. exists d.
  assert (Hin : (id, d) ∈ filter (fun '(id, _) => id ∉ locked) (pending_deadlines key now types db))
    by (rewrite E; left).
  apply list_elem_of_filter in Hin as [Hlk Hin]. unfold pending_deadlines in Hin.
  rewrite order_by_Permutation, list_elem_of_filter, elem_of_map_to_list in Hin.
  destruct Hin as ((? & ? & ? & _) & ?). by split_and!.
Qed.
End preservation.

(** ** Every transaction of the process handlers *)

Section system.
Context {M : Messaging}.

(** One transaction: an event of any handler, the delivery of a deadline, the
    postponement of one that can not be decoded, or a transaction of another part
    of the engine. *)
Inductive process_step : DB -> DB -> Prop :=
| step_consume {P : ProcessMessageHandler} key outbound env w sid cp next ev db r db' :
    consume key outbound env w sid cp next ev db = (r, db') -> process_step db db'
| step_deliver {P : ProcessMessageHandler} key outbound w types p r cerr del env db db' err :
    AcquireDeadline key (Now w) ∅ types db = inr (Some del) ->
    Unmarshal (EnvelopeBytes del) = inr env ->
    doHandle (H := DeadlinePump key outbound w types) p r cerr del env db db = Ret (db', err) ->
    process_step db db'
| step_postpone now del delay db :
    process_step db (PostponeDeadline now del delay db).1
| step_elsewhere db db' : same_process db db' -> process_step db db'.

Lemma consume_wf {P : ProcessMessageHandler} key outbound env w sid cp next ev db r db' :
  process_wf db -> consume key outbound env w sid cp next ev db = (r, db') -> process_wf db'.
Proof.
  intros Hwf. unfold consume.
  destruct (Transact env (exec (consume_tx key outbound w sid cp next ev)) db) as [tr db1] eqn:Et.
  assert (Hwf1 : process_wf db1).
  { unfold Transact in Et. destruct (begin_err env); [by injection Et as _ <-|].
    destruct (exec _ db) as [e|[a db2]] eqn:Ex; [by injection Et as _ <-|].
    destruct (commit_err env); injection Et as _ <-; [done|]. apply exec_inr in Ex.
    assert (Hk : keeps process_wf (consume_tx key outbound w sid cp next ev)).
    { apply keeps_bind.
      - apply keeps_stmt. unfold lock_checkpoint. intros db0 a0 db0' H0.
        destruct (checkpoints db0 !! _); intros [= _ <-]; [done|].
        by eapply process_wf_same; [|exact H0].
      - intros actual. destruct (decide _); [apply keeps_ret|]. apply keeps_bind.
        { destruct ev; [|apply keeps_ret]. intros db0 H0. by apply dispatch_wf. }
        intros _. apply keeps_bind; [|intros; apply keeps_ret]. apply keeps_stmt.
        intros db0 [] db0' H0. unfold ExecOne, mbind, sql_bind, wrap, update_checkpoint.
        case_decide; [|done]. destruct (checkpoints db0 !! _); [|done]. intros [= <-].
        by eapply process_wf_same; [|exact H0]. }
    specialize (Hk db Hwf). by rewrite Ex in Hk. }
  destruct tr; [|destruct (decide _)]; intros [= _ <-]; done.
Qed.

(** A delivery that is acquired is of a deadline row of this handler's instance. *)
Lemma acquired_row {P : ProcessMessageHandler} key now types db del env :
  process_wf db -> AcquireDeadline key now ∅ types db = inr (Some del) ->
  Unmarshal (EnvelopeBytes del) = inr env ->
  exists d, deadlines db !! MessageID del = Some d /\ dl_deliver_at d <= now /\
    dl_failures d = Failures del /\ dl_envelope d = EnvelopeBytes del /\
    of_instance key (hdr_instance_id (env_header env)) d /\
    live key (hdr_instance_id (env_header env)) db.
Proof.
  intros [_ Hwf] Ha Hu. apply AcquireDeadline_row in Ha as (d & Hd & Hk & ? & ? & ? & Hb & ? & _).
  destruct (Hwf _ _ Hd) as [Hl (env' & Hu' & Hk' & Hi')]. rewrite Hb, Hu' in Hu.
  injection Hu as <-. exists d. split_and!; try done. rewrite Hi', <- Hk. exact Hl.
Qed.

Lemma doHandle_deadline {P : ProcessMessageHandler} key outbound w types p r cerr del env db db' err :
  process_wf db ->
  doHandle (H := DeadlinePump key outbound w types) p r cerr del env db db = Ret (db', err) ->
  process_wf db'.
Proof.
  intros Hwf Hh.
  pose proof (HandleDeadlineDelivery_wf key outbound w del env db Hwf) as (Hwf1 & _ & _).
  apply doHandle_cases in Hh as [[_ Hh]|[(_ & tx' & e & del' & delay & Hh & _ & Hp)|[_ ->]]];
    [| |done]; cbn in Hh;
    destruct (HandleDeadlineDelivery key outbound w del env db) as [db1 res]; cbn in Hwf1;
    destruct res; try discriminate; injection Hh as <-; try done.
  cbn in Hp. pose proof (PostponeDeadline_wf (Now w) del' delay db1 Hwf1) as [Hp' _].
  destruct (PostponeDeadline _ _ _ _) as [db2 []]; [done|]. injection Hp as <-. exact Hp'.
Qed.

Lemma process_step_wf db db' : process_wf db -> process_step db db' -> process_wf db'.
Proof.
  intros Hwf Hs. destruct Hs.
  - by eapply consume_wf.
  - by eapply doHandle_deadline.
  - by apply PostponeDeadline_wf.
  - by eapply process_wf_same.
Qed.

Lemma process_reachable_wf db : rtc process_step empty_db db -> process_wf db.
Proof.
  apply (rtc_ind_r process_wf).
  - split; cbn; [|apply map_Forall_empty]. intros k row Hk. by rewrite lookup_empty in Hk.
  - intros y z _ Hyz Hy. by eapply process_step_wf.
Qed.
End system.

(** ** What an event does

    The effects of an event on the database, stated on the tables themselves and not
    on the statements by which [dispatch] makes them. *)

(** The command queue and the idempotency keys. *)
Definition queue : Type := gmap UUID CommandRow * gmap string UUID.

Section specification.
Context `{ProcessMessageHandler}.

(** A command is queued, due at once, under its idempotency key; one whose key has been
    used already is not queued again. *)
Definition queued (now : Z) (env : Envelope) (q q' : queue) : Prop :=
  let id := body_message_id (env_body env) in
  let k := body_idempotency_key (env_body env) in
  if decide (k <> "" /\ is_Some (q.2 !! k)) then q' = q
  else exists data, Marshal env = inr data /\ q.1 !! id = None /\
    q' = (<[id := mkCommandRow (type_of env) data 0 now]> q.1,
          if decide (k <> "") then <[k := id]> q.2 else q.2).

Fixpoint all_queued (now : Z) (es : list Envelope) (q q' : queue) : Prop :=
  match es with
  | [] => q' = q
  | env :: es => exists q1, queued now env q q1 /\ all_queued now es q1 q'
  end.

Fixpoint all_scheduled (es : list Envelope) (ds ds' : gmap UUID DeadlineRow) : Prop :=
  match es with
  | [] => ds' = ds
  | env :: es =>
      exists data, Marshal env = inr data /\ ds !! body_message_id (env_body env) = None /\
        all_scheduled es
          (<[body_message_id (env_body env) :=
               mkDeadlineRow (type_of env) (hdr_handler_key (env_header env))
                 (hdr_instance_id (env_header env)) data 0 (body_scheduled_for (env_body env))]> ds) ds'
  end.

(** The root of an instance: a new one, with the state that is stored, if any. *)
Definition current_root (w : World) (row : option InstanceRow) (rt : Root) : Prop :=
  exists fresh, New w = Ret fresh /\
    match row ≫= inst_state with
    | Some state => UnmarshalBinary state fresh = Ret (inr rt)
    | None => rt = fresh
    end.

Context (key : UUID) (outbound : gset UUID).

(** What the handler left in its scope is in the tables: the commands are queued; an
    instance that was ended has no state and no deadlines left; any other exists, with
    the root's state if it was changed, and its new deadlines are scheduled. *)
Definition scope_effects (now : Z) (iid : string) (scope : messageScope) (db db' : DB) : Prop :=
  all_queued now (packed (commandPacker scope)) (commands db, idempotency_keys db)
    (commands db', idempotency_keys db') /\
  if ended scope then
    instances db' = <[(key, iid) := mkInstanceRow true None]> (instances db) /\
    deadlines db' = filter (fun '(_, d) => ~ of_instance key iid d) (deadlines db)
  else
    (exists state, instances db' = <[(key, iid) := mkInstanceRow false state]> (instances db) /\
       if mutated scope then MarshalBinary (root scope) = Ret (inr state)
       else state = instances db !! (key, iid) ≫= inst_state) /\
    all_scheduled (packed (deadlinePacker scope)) (deadlines db) (deadlines db').

(** No other table changes. *)
Definition same_elsewhere (db db' : DB) : Prop :=
  streams db' = streams db /\ events db' = events db /\ aggregates db' = aggregates db /\
  checkpoints db' = checkpoints db /\ compacted db' = compacted db /\ identity db' = identity db.

Inductive event_effects (w : World) (env : Envelope) (db : DB) : DB -> Prop :=
| event_unrouted event :
    UnpackMessage env = inr event -> RouteEventToInstance w event = Ret (inr None) ->
    event_effects w env db db
| event_to_ended event iid row :
    UnpackMessage env = inr event -> RouteEventToInstance w event = Ret (inr (Some iid)) ->
    instances db !! (key, iid) = Some row -> inst_ended row = true ->
    event_effects w env db db
| event_handled event iid rt scope db' :
    UnpackMessage env = inr event -> RouteEventToInstance w event = Ret (inr (Some iid)) -> iid <> "" ->
    (forall row, instances db !! (key, iid) = Some row -> inst_ended row = false) ->
    current_root w (instances db !! (key, iid)) rt ->
    interact outbound (HandleEvent w rt iid (body_created_at (env_body env)) event)
      (newScope key w env iid rt) = Ret (inr scope) ->
    scope_effects (Now w) iid scope db db' -> same_elsewhere db db' ->
    event_effects w env db db'.

(** *** [dispatch] does it *)

Lemma same_elsewhere_trans db1 db2 db3 :
  same_elsewhere db1 db2 -> same_elsewhere db2 db3 -> same_elsewhere db1 db3.
Proof. intros (?&?&?&?&?&?) (?&?&?&?&?&?). split_and!; congruence. Qed.

Lemma add_commands_effects now es db db' :
  add_commands now es db = (db', inr tt) ->
  all_queued now es (commands db, idempotency_keys db) (commands db', idempotency_keys db') /\
  instances db' = instances db /\ deadlines db' = deadlines db /\ same_elsewhere db db'.
Proof.
  revert db. induction es as [|env es IH]; intros db; [intros [= <-]; by split_and!|]. cbn.
  intros (db1 & r & Hs & Ha)%tx_bind_inr. apply IH in Ha as (Hq & Hi & Hd & Hsame).
  unfold stmt, wrap in Hs. destruct (Marshal env) as [e|data] eqn:Hm; [done|].
  destruct (commandqueue_add _ _ _ _ _ db) as [e|[r1 db2]] eqn:E; [done|]. injection Hs as <- <-.
  assert (queued now env (commands db, idempotency_keys db) (commands db2, idempotency_keys db2) /\
    instances db2 = instances db /\ deadlines db2 = deadlines db /\ same_elsewhere db db2)
    as (Hq1 & Hi1 & Hd1 & Hsame1).
  { unfold queued. cbn [fst snd]. unfold commandqueue_add in E. case_decide as Hk.
    - destruct (idempotency_keys db !! _) as [o|] eqn:Ho.
      + injection E as <- <-. rewrite decide_True by (by split). by split_and!.
      + case_decide; [done|]. cbn in E. destruct (commands db !! _) eqn:Hc; [done|]. injection E as <- <-.
        rewrite decide_False by (by intros [_ []]). split_and!; try done. exists data. by split_and!.
    - destruct (commands db !! _) eqn:Hc; [done|]. injection E as <- <-.
      rewrite decide_False by tauto. split_and!; try done. exists data. by split_and!. }
  split_and!; [by eexists|congruence..|]. by eapply same_elsewhere_trans.
Qed.

Lemma addCommandsToQueue_effects now p db db' :
  addCommandsToQueue now p db = (db', inr tt) ->
  all_queued now (packed p) (commands db, idempotency_keys db) (commands db', idempotency_keys db') /\
  instances db' = instances db /\ deadlines db' = deadlines db /\ same_elsewhere db db'.
Proof.
  unfold addCommandsToQueue. rewrite Seal_packed. destruct (packed p) as [|e es].
  - intros [= <-]. by split_and!.
  - apply add_commands_effects.
Qed.

Lemma insert_deadlines_effects es db db' :
  insert_deadlines es db = (db', inr tt) ->
  all_scheduled es (deadlines db) (deadlines db') /\ instances db' = instances db /\
  commands db' = commands db /\ idempotency_keys db' = idempotency_keys db /\ same_elsewhere db db'.
Proof.
  revert db. induction es as [|env es IH]; intros db; [intros [= <-]; by split_and!|]. cbn.
  destruct (Marshal env) as [e|data] eqn:Hm; [done|].
  intros (db1 & [] & Hs & Ha)%tx_bind_inr. apply IH in Ha as (Hq & Hi & Hc & Hk & Hsame).
  unfold stmt, wrap, insert_deadline in Hs. destruct (deadlines db !! _) eqn:Hd; [done|].
  case_decide; [done|]. injection Hs as <-. cbn in *. split_and!; try done; [|apply Hsame..].
  exists data. by split_and!.
Qed.

Lemma persistDeadlines_effects p db db' :
  persistDeadlines p db = (db', inr tt) ->
  all_scheduled (packed p) (deadlines db) (deadlines db') /\ instances db' = instances db /\
  commands db' = commands db /\ idempotency_keys db' = idempotency_keys db /\ same_elsewhere db db'.
Proof.
  unfold persistDeadlines. rewrite Seal_packed. destruct (packed p) as [|e es].
  - intros [= <-]. by split_and!.
  - apply insert_deadlines_effects.
Qed.

(** The statements that follow the handler, on an instance that is there. *)
Lemma scope_effects_done now iid scope row db db' :
  instances db !! (key, iid) = Some row -> inst_ended row = false ->
  (_ ← addCommandsToQueue now (commandPacker scope);
   if ended scope then endInstance key iid
   else
     _ ← (if mutated scope then saveInstance key iid (root scope) else mret tt);
     persistDeadlines (deadlinePacker scope)) db = (db', inr tt) ->
  scope_effects now iid scope db db' /\ same_elsewhere db db'.
Proof.
  intros Hrow Hlive (db1 & [] & Ha & Hrest)%tx_bind_inr.
  apply addCommandsToQueue_effects in Ha as (Hq & Hi & Hd & Hsame). unfold scope_effects.
  rewrite <- Hi, <- Hd. rewrite <- Hi in Hrow. destruct (ended scope).
  - apply tx_bind_inr in Hrest as (db2 & [] & He & Hrest). unfold stmt, wrap in He.
    destruct (ExecOne _ _) as [e|[[] db3]] eqn:Ex; [done|]. injection He as <-.
    apply update_instance_inr in Ex as (row' & _ & -> & _). injection Hrest as <-. cbn in *.
    split_and!; try done; apply Hsame.
  - apply tx_bind_inr in Hrest as (db2 & [] & Hm & Hp).
    apply persistDeadlines_effects in Hp as (Hs & Hi2 & Hc2 & Hk2 & Hsame2). rewrite Hi2, Hc2, Hk2.
    destruct (mutated scope).
    + unfold saveInstance in Hm. destruct (Recover (MarshalBinary _)) as [e|data] eqn:Hr; [done|].
      unfold stmt, wrap in Hm. destruct (ExecOne _ _) as [e|[[] db3]] eqn:Ex; [done|]. injection Hm as <-.
      apply update_instance_inr in Ex as (row' & Hrow' & -> & _). rewrite Hrow in Hrow'.
      injection Hrow' as <-. cbn in *. rewrite Hlive. split; [split; [done|split; [|done]]|].
      * exists data. split; [done|]. unfold Recover in Hr. destruct (MarshalBinary _); [by subst|done].
      * eapply same_elsewhere_trans; [done|]. exact Hsame2.
    + injection Hm as <-. split; [split; [done|split; [|done]]|by eapply same_elsewhere_trans].
      exists (inst_state row). rewrite Hrow. split; [|done]. symmetry. apply insert_id. rewrite Hrow.
      destruct row. cbn in *. by subst.
Qed.

Lemma routeEventToInstance_inr w event r :
  routeEventToInstance w event = inr r ->
  RouteEventToInstance w event = Ret (inr r) /\ r <> Some "".
Proof.
  unfold routeEventToInstance, Recover. destruct (RouteEventToInstance w event) as [[e|[iid|]]|v]; cbn; try done.
  - case_decide; [done|]. rewrite decide_True by done. intros [= <-]. split; [done|congruence].
  - by intros [= <-].
Qed.

(** If [dispatch] succeeds, then the effects of the event are exactly what it has done. *)
Lemma dispatch_effects w env db db' :
  dispatch key outbound w env db = (db', inr tt) -> event_effects w env db db'.
Proof.
  unfold dispatch. destruct (UnpackMessage env) as [|event] eqn:Hu; [done|].
  destruct (routeEventToInstance w event) as [|r] eqn:Hr; [done|].
  apply routeEventToInstance_inr in Hr as [Hr Hne]. destruct r as [iid|]; last first.
  { intros [= <-]. by eapply event_unrouted. }
  destruct (newRoot w) as [|fresh] eqn:Hnew; [done|].
  assert (HN : New w = Ret fresh).
  { unfold newRoot, Recover in Hnew. destruct (New w); [by injection Hnew as <-|done]. }
  intros (db1 & res & Hl & Hd)%tx_bind_inr. unfold loadInstance in Hl.
  apply tx_bind_inr in Hl as (db2 & row & Hup & Hl). unfold stmt, wrap in Hup.
  destruct (upsert_instance key iid db) as [|[row' db3]] eqn:E; [done|]. injection Hup as <- <-.
  assert (Hrow : (instances db !! (key, iid) = Some row' /\ db3 = db) \/
    (instances db !! (key, iid) = None /\ row' = mkInstanceRow false None /\
      db3 = set_instances db (<[(key, iid) := row']> (instances db)))).
  { unfold upsert_instance in E. destruct (instances db !! _); [injection E as <- <-; by left|].
    case_decide; [done|]. injection E as <- <-. by right. }
  clear E. destruct (inst_ended row') eqn:He.
  { injection Hl as <- <-. injection Hd as <-. destruct Hrow as [[Hrow ->]|(_ & -> & _)]; [|done].
    by eapply event_to_ended. }
  assert (Hroot : exists rt, res = Some rt /\ db1 = db3 /\ current_root w (instances db !! (key, iid)) rt).
  { unfold current_root. destruct Hrow as [[-> _]|(-> & -> & _)]; cbn in *.
    - destruct (inst_state row'); [|injection Hl as <- <-; by eauto 10].
      destruct (Recover _) as [|rt] eqn:Hrt; [done|]. injection Hl as <- <-.
      exists rt. split_and!; try done. exists fresh. split; [done|]. unfold Recover in Hrt.
      destruct (UnmarshalBinary _ _); [by subst|done].
    - injection Hl as <- <-. by eauto 10. }
  destruct Hroot as (rt & -> & -> & Hroot). unfold dispatch_to in Hd.
  destruct (Recover (interact _ _ _)) as [|scope] eqn:Hi; [done|].
  assert (HI : interact outbound (HandleEvent w rt iid (body_created_at (env_body env)) event)
    (newScope key w env iid rt) = Ret (inr scope)).
  { unfold Recover in Hi. destruct (interact _ _ _); [by subst|done]. }
  assert (Hrow3 : instances db3 !! (key, iid) = Some row').
  { destruct Hrow as [[? ->]|(_ & _ & ->)]; [done|]. cbn. by rewrite lookup_insert_eq. }
  apply (scope_effects_done _ _ _ row') in Hd as [Hs Hsame]; [|done..].
  eapply event_handled; try done.
  - intros ->. done.
  - intros row Hr'. destruct Hrow as [[? _]|(? & _)]; congruence.
  - destruct Hrow as [[_ ->]|(Hno & -> & ->)]; [done|]. unfold scope_effects in *. cbn in Hs.
    destruct Hs as [Hq Hs]. split; [done|]. destruct (ended scope).
    + by rewrite insert_insert_eq in Hs.
    + destruct Hs as [(state & Hst & Hm) Hs]. split; [|done]. exists state.
      rewrite insert_insert_eq in Hst. split; [done|]. rewrite Hno. rewrite lookup_insert_eq in Hm.
      by destruct (mutated scope).
  - destruct Hrow as [[_ ->]|(_ & _ & ->)]; [done|]. exact Hsame.
Qed.

(** The checkpoints play no part in it. *)
Lemma event_effects_checkpoints w env db db' c :
  event_effects w env (set_checkpoints db c) db' ->
  event_effects w env db (set_checkpoints db' (checkpoints db)) /\ checkpoints db' = c.
Proof.
  intros He. inversion He as [event|event iid row|event iid rt scope ? Hu Hr Hne Hl Hroot Hi Hs Hsame]; subst.
  - split; [|done]. replace (set_checkpoints _ _) with db by (by destruct db). by eapply event_unrouted.
  - split; [|done]. replace (set_checkpoints _ _) with db by (by destruct db). by eapply event_to_ended.
  - destruct Hsame as (?&?&?&?&?&?). split; [|done]. eapply event_handled; try done.
Qed.
End specification.

(** ** Concurrent consumers of one stream

    The history of the database with the events whose effects were applied to it
    for one handler and stream, by whichever consumer; [E] is what the rest of the engine
    does in the meantime. *)

Section exactly_once.
Context `{ProcessMessageHandler} (key : UUID) (outbound : gset UUID).
Context (sid : UUID) (h : list Envelope) (types : Types) (E : relation DB).

Definition checkpoint (db : DB) : Z := default 0 (checkpoints db !! (key, sid)).

Definition set_checkpoint (next : Z) (db : DB) : DB :=
  set_checkpoints db (<[(key, sid) := next]> (checkpoints db)).

(** The first event at or after an offset that is routed to the handler. *)
Definition next_event (cp : Z) (e : Envelope) : Prop :=
  between types cp (off e + 1) h = [e].

(** A transaction of the history: one of the rest of the engine, which keeps the
    checkpoint; the effects of the next event, committed with the checkpoint past it; or a
    checkpoint past a range without events, with no other change. *)
Inductive apply_step : DB * list Envelope -> DB * list Envelope -> Prop :=
| apply_elsewhere db db' log :
    E db db' -> checkpoint db' = checkpoint db -> apply_step (db, log) (db', log)
| apply_event w e db db' log :
    next_event (checkpoint db) e -> event_effects key outbound w e db db' ->
    apply_step (db, log) (set_checkpoint (off e + 1) db', log ++ [e])
| apply_skip next db log :
    checkpoint db <= next -> between types (checkpoint db) next h = [] ->
    apply_step (db, log) (set_checkpoint next db, log).

(** Every event before the checkpoint was applied exactly once, in order. *)
Definition applied (db : DB) (log : list Envelope) : Prop :=
  0 <= checkpoint db /\ log = between types 0 (checkpoint db) h.

(** What the other consumers do within a turn is a history of such steps. *)
Definition turns_ok (turns : nat -> turn) : Prop :=
  forall n db log, applied db log ->
    exists log', rtc apply_step (db, log) (others (turns n) db, log').

Lemma checkpoint_set next db : checkpoint (set_checkpoint next db) = next.
Proof. unfold checkpoint, set_checkpoint. cbn. by rewrite lookup_insert_eq. Qed.

Lemma set_checkpoint_same db cp :
  checkpoints db !! (key, sid) = Some cp -> set_checkpoint cp db = db.
Proof. intros Hc. unfold set_checkpoint. rewrite insert_id by done. by destruct db. Qed.

Context (b e_h : Z) (Hh : in_range sid b e_h h).

Lemma next_event_spec cp e : next_event cp e -> cp <= off e /\ e ∈ h.
Proof.
  unfold next_event, between. intros Hb.
  assert (He : e ∈ [e]) by left. rewrite <- Hb in He. apply list_elem_of_filter in He. naive_solver lia.
Qed.

Lemma apply_step_applied db log db' log' :
  applied db log -> apply_step (db, log) (db', log') ->
  applied db' log' /\ checkpoint db <= checkpoint db'.
Proof.
  intros [H0' Hlog] Hs. inversion Hs as [? ? ? _ Hc|w e ? db1 ? Hn Hd|next ? ? Hle Hb]; subst.
  - unfold applied. rewrite Hc. split; [done|lia].
  - destruct (next_event_spec _ _ Hn) as [Hle _]. unfold applied. rewrite checkpoint_set.
    split_and!; [lia| |lia]. rewrite <- Hn. eapply between_app; [exact Hh|lia].
  - unfold applied. rewrite checkpoint_set. split_and!; [lia| |lia].
    rewrite <- (between_app sid types b e_h h 0 (checkpoint db) next) by (done || lia).
    by rewrite Hb, app_nil_r.
Qed.

Lemma apply_steps_applied x y :
  rtc apply_step x y -> applied x.1 x.2 -> applied y.1 y.2 /\ checkpoint x.1 <= checkpoint y.1.
Proof.
  induction 1 as [|[db log] [db' log'] z Hs _ IH]; [done|]. intros Ha.
  apply apply_step_applied in Hs as [Ha' Hle]; [|done]. destruct (IH Ha'). split; [done|].
  cbn in *. lia.
Qed.

(** How one transaction of a consumer ends: its effects and the checkpoint are
    committed, or nothing is but a row for the checkpoint, which stays. *)
Lemma consume_cases env w cp next ev db r ok err db' :
  consume key outbound env w sid cp next ev db = (r, ok, err, db') ->
  (ok = true /\ err = None /\ r = next /\ checkpoint db = cp /\ 0 <= next < 2 ^ 63 /\
    exists db1, db' = set_checkpoint next db1 /\
      match ev with
      | Some e => event_effects key outbound w e db db1
      | None => db1 = db
      end) \/
  (ok = false /\ (db' = db \/ db' = set_checkpoint (checkpoint db) db) /\
    (r = cp \/ r = checkpoint db)).
Proof.
  unfold consume, Transact. destruct (begin_err env) as [e|].
  { intros [= <- <- <- <-]. right. by auto. }
  destruct (exec _ db) as [e|[actual db1]] eqn:Ex.
  { intros [= <- <- <- <-]. right. by auto. }
  destruct (commit_err env) as [e|].
  { intros [= <- <- <- <-]. right. by auto. }
  apply exec_inr in Ex. unfold consume_tx in Ex. apply tx_bind_inr in Ex as (db2 & a & Hl & Ex).
  assert (a = checkpoint db /\ db2 = set_checkpoint (checkpoint db) db) as [-> ->].
  { unfold stmt, lock_checkpoint, checkpoint in *.
    destruct (checkpoints db !! (key, sid)) as [c|] eqn:Hc; injection Hl as <- <-; [|done].
    split; [done|]. cbn. by rewrite set_checkpoint_same. }
  destruct (decide (checkpoint db <> cp)) as [Hne|Heq].
  { injection Ex as <- <-. rewrite decide_True by done. intros [= <- <- <- <-].
    right. by auto. }
  apply dec_stable in Heq. apply tx_bind_inr in Ex as (db3 & [] & Hd & Ex).
  apply tx_bind_inr in Ex as (db4 & [] & Hu & [= <- <-]). rewrite decide_False by (by intros []).
  intros [= <- <- <- <-]. left.
  assert (Hset : db4 = set_checkpoint next db3 /\ 0 <= next < 2 ^ 63).
  { unfold stmt, ExecOne, mbind, sql_bind, wrap, update_checkpoint in Hu. case_decide; [|done].
    destruct (checkpoints db3 !! (key, sid)); [|done]. by injection Hu as <-. }
  rewrite Heq in Hd. destruct Hset as [-> Hnext]. split_and!; try (done || lia).
  destruct ev as [e|].
  - apply dispatch_effects in Hd. apply event_effects_checkpoints in Hd as [Hd Hc].
    eexists. split; [|exact Hd]. unfold set_checkpoint. cbn. by rewrite Hc, insert_insert_eq.
  - injection Hd as <-. exists db. split; [|done]. unfold set_checkpoint. cbn. by rewrite insert_insert_eq.
Qed.

(** One transaction of a consumer. *)
Lemma consume_applies env w cp next ev db log r ok err db' :
  applied db log -> 0 <= next ->
  match ev with
  | Some e => next = off e + 1 /\ (checkpoint db = cp -> next_event cp e)
  | None => checkpoint db = cp -> cp <= next /\ between types cp next h = []
  end ->
  consume key outbound env w sid cp next ev db = (r, ok, err, db') ->
  exists log', rtc apply_step (db, log) (db', log') /\
    (err = None -> ok = true -> r = next /\ checkpoint db = cp /\ checkpoint db' = next) /\
    (cp <= checkpoint db -> cp <= next -> cp <= r <= checkpoint db').
Proof.
  intros Ha Hnext Hev
    [(-> & -> & -> & Heq & _ & db1 & -> & Hd)|(-> & Hck & Hr)]%consume_cases; last first.
  { exists log. assert (checkpoint db' = checkpoint db /\ rtc apply_step (db, log) (db', log)) as [Hck' ?].
    { destruct Hck as [->| ->]; [split; [done|apply rtc_refl]|]. rewrite checkpoint_set. split; [done|].
      apply rtc_once, apply_skip; [lia|]. apply between_empty. lia. }
    split_and!; [done..|]. lia. }
  rewrite checkpoint_set. destruct ev as [e|].
  - destruct Hev as [-> Hn]. exists (log ++ [e]). split_and!; [|done|lia].
    apply rtc_once. eapply apply_event; [rewrite Heq; by apply Hn|exact Hd].
  - exists log. split_and!; [|done|lia]. subst db1. destruct (Hev Heq) as [Hle Hb].
    apply rtc_once, apply_skip; rewrite Heq; done.
Qed.

Lemma consume_ok_err env w cp next ev db r e db' :
  consume key outbound env w sid cp next ev db <> (r, true, Some e, db').
Proof. unfold consume. destruct (Transact _ _ _) as [[?|?] ?]; [done|]. by destruct (decide _). Qed.

(** What a consumer reports, and what it did. *)
Definition consumed (cp seg_end : Z) (db : DB) (log : list Envelope)
    (res : Z * bool * option error * DB) : Prop :=
  let '(r, ok, err, db') := res in
  (exists log', rtc apply_step (db, log) (db', log')) /\ cp <= r <= checkpoint db' /\
  (ok = true -> err = None /\ r = Z.max cp seg_end /\ r <= checkpoint db').

Lemma ConsumeSegment_loop_applies hi es turns p cp db log :
  turns_ok turns -> 0 <= p <= cp -> p <= hi -> e_h < 2 ^ 63 ->
  es = between types p hi h -> applied db log -> cp <= checkpoint db ->
  exists res, ConsumeSegment_loop key outbound turns sid cp hi es db = Ret res /\
    consumed cp hi db log res.
Proof.
  revert turns p cp db log. induction es as [|e es IH];
    intros turns p cp db log Ht Hp Hhi Hmax Hes Ha Hcp; cbn [ConsumeSegment_loop].
  - destruct (decide (cp < hi)); last first.
    { eexists. split; [done|]. split_and!; [exists log; apply rtc_refl|lia|lia|]. intros _. split_and!; [done|lia..]. }
    destruct (Ht O db log Ha) as [log1 Hsteps].
    destruct (apply_steps_applied _ _ Hsteps Ha) as [Ha1 Hle1]. cbn in Ha1, Hle1.
    destruct (consume _ _ _ _ _ _ _ _ _) as [[[r ok] err] db'] eqn:Ec.
    eexists. split; [done|].
    assert (Hskip : cp <= hi /\ between types cp hi h = []).
    { split; [lia|]. by rewrite <- (between_sub types p hi), <- Hes by lia. }
    destruct (consume_applies _ _ cp hi None _ log1 _ _ _ _ Ha1 ltac:(lia)
      (fun _ => Hskip) Ec) as (log2 & Hs2 & Hok & Hno).
    split_and!; [exists log2; by etrans|apply Hno; lia|apply Hno; lia|]. intros ->. destruct err as [e|].
    { by apply consume_ok_err in Ec. }
    destruct Hok as (-> & _ & ->); [done..|]. split_and!; [done|lia..].
  - destruct (between_head sid types b e_h p hi h e es Hh ltac:(lia) (eq_sym Hes))
      as (Hoff & Hpos & Hin & Hm & Hrest & Hfirst).
    pose proof (in_range_elem _ _ _ _ _ Hh Hin) as [_ Hlast].
    rewrite (offsetOf_positioned sid e Hpos). cbn [mbind go_bind].
    destruct (decide (off e < cp)) as [Hlt|Hge].
    { apply (IH turns (off e + 1) cp db log); try done; lia. }
    rewrite u64_id by (unfold is_u64, u64_modulus; lia).
    destruct (Ht O db log Ha) as [log1 Hsteps].
    destruct (apply_steps_applied _ _ Hsteps Ha) as [Ha1 Hle1]. cbn in Ha1, Hle1.
    destruct (consume _ _ _ _ _ _ _ _ _) as [[[r ok] err] db1] eqn:Ec.
    specialize (Hfirst cp ltac:(lia)).
    destruct (consume_applies _ _ cp (off e + 1) (Some e) _ log1 _ _ _ _ Ha1 ltac:(lia)
      (conj eq_refl (fun _ => Hfirst)) Ec) as (log2 & Hs2 & Hok & Hno).
    assert (Hs : rtc apply_step (db, log) (db1, log2)) by (by etrans).
    destruct ok; [destruct err as [err|]|].
    + by apply consume_ok_err in Ec.
    + destruct (Hok eq_refl eq_refl) as (-> & _ & Hc1).
      destruct (apply_steps_applied _ _ Hs Ha) as [Ha2 Hle2]. cbn in Ha2, Hle2.
      destruct (IH (fun n => turns (S n)) (off e + 1) (off e + 1) db1 log2)
        as ([[[r' ok'] err'] db'] & -> & (log' & Hs') & Hr' & Hres); try done; try lia.
      { intros n. apply Ht. }
      eexists. split; [done|]. split_and!; [exists log'; by etrans|lia|lia|]. intros Hok'.
      destruct (Hres Hok') as (? & ? & ?). split_and!; [done|lia..].
    + specialize (Hno ltac:(lia) ltac:(lia)).
      destruct err; (eexists; split; [done|]; split_and!; [by exists log2|lia|lia|done]).
Qed.
End exactly_once.

(** ** Progress *)

Section progress.
Context `{ProcessMessageHandler} (key : UUID) (outbound : gset UUID) (sid : UUID).

(** A turn without contention or faults. *)
Definition quiet (t : turn) : Prop :=
  (forall db, others t db = db) /\ tx_env t = no_faults.

(** A transaction without contention or faults: it moves the checkpoint, or fails
    with the error of the handler and changes nothing. *)
Lemma consume_quiet w cp next ev db :
  process_wf db -> checkpoint key sid db = cp -> 0 <= next < 2 ^ 63 ->
  (exists db', consume key outbound no_faults w sid cp next ev db = (next, true, None, db') /\
     process_wf db' /\ checkpoint key sid db' = next) \/
  (exists e err, consume key outbound no_faults w sid cp next ev db = (cp, false, Some err, db) /\
     ev = Some e /\ (dispatch key outbound w e (set_checkpoint key sid cp db)).2 = inl err).
Proof.
  intros Hwf Hcp Hnext. set (db1 := set_checkpoint key sid cp db).
  assert (Hwf1 : process_wf db1) by (eapply process_wf_same; [by split|exact Hwf]).
  assert (Hlock : stmt (lock_checkpoint key sid) db = (db1, inr cp)).
  { unfold stmt, lock_checkpoint. unfold checkpoint in Hcp. unfold db1.
    destruct (checkpoints db !! (key, sid)) as [c|] eqn:Hc; cbn in Hcp; subst; [|done].
    by rewrite set_checkpoint_same. }
  destruct ((match ev with Some e => dispatch key outbound w e | None => mret tt end) db1)
    as [db2 r2] eqn:Hd.
  assert (Hsame : checkpoints db2 = checkpoints db1).
  { destruct ev as [e|]; [|by injection Hd as <-].
    pose proof (dispatch_wf key outbound w e db1 Hwf1) as [_ Hs]. rewrite Hd in Hs. apply Hs. }
  destruct r2 as [err|[]].
  - right. destruct ev as [e|]; [|done]. exists e, err. split_and!; [|done|by rewrite Hd].
    assert (Htx : consume_tx key outbound w sid cp next (Some e) db = (db2, inl err)).
    { unfold consume_tx, mbind, tx_bind. rewrite Hlock, decide_False by (by intros []).
      by rewrite Hd. }
    unfold consume, Transact, exec. cbn [begin_err no_faults]. by rewrite Htx.
  - left. assert (Hu : stmt (ExecOne (update_checkpoint key sid next)) db2
        = (set_checkpoint key sid next db2, inr tt)).
    { unfold stmt, ExecOne, mbind, sql_bind, wrap, update_checkpoint. rewrite decide_True by done.
      assert (checkpoints db2 !! (key, sid) = Some cp) as ->; [|done].
      rewrite Hsame. unfold db1, set_checkpoint. cbn. by rewrite lookup_insert_eq. }
    assert (Htx : consume_tx key outbound w sid cp next ev db
        = (set_checkpoint key sid next db2, inr cp)).
    { unfold consume_tx. apply tx_bind_inr. exists db1, cp. split; [done|].
      rewrite decide_False by (by intros []). apply tx_bind_inr. exists db2, tt. split; [done|].
      apply tx_bind_inr. by exists (set_checkpoint key sid next db2), tt. }
    assert (Hc : consume key outbound no_faults w sid cp next ev db
        = (next, true, None, set_checkpoint key sid next db2)).
    { unfold consume, Transact. cbn. rewrite ((proj2 (exec_inr _ _ _ _)) Htx).
      by rewrite decide_False by (by intros []). }
    eexists. split; [exact Hc|]. split; [eapply consume_wf; [exact Hwf|exact Hc]|apply checkpoint_set].
Qed.

(** The outcome of a segment: it is consumed, or the first event that the handler
    can not handle is reported, with the checkpoint after the event before it. *)
Definition segment_outcome (turns : nat -> turn) (cp hi : Z) (es : list Envelope)
    (res : Z * bool * option error * DB) : Prop :=
  let '(r, ok, err, db') := res in
  checkpoint key sid db' = r /\ cp <= r /\
  match err with
  | None => ok = true /\ r = Z.max cp hi
  | Some err => ok = false /\ exists n e, e ∈ es /\ r <= off e /\
      (forall e', e' ∈ es -> off e' < off e -> off e' < r) /\
      (dispatch key outbound (world (turns n)) e (set_checkpoint key sid r db')).2 = inl err
  end.

Lemma ConsumeSegment_loop_quiet hi es turns lo cp db :
  (forall n, quiet (turns n)) -> in_range sid lo hi es -> 0 <= lo -> 0 <= cp -> hi < 2 ^ 63 ->
  process_wf db -> checkpoint key sid db = cp ->
  exists res, ConsumeSegment_loop key outbound turns sid cp hi es db = Ret res /\
    segment_outcome turns cp hi es res.
Proof.
  intros Hq. revert turns Hq lo cp db. induction es as [|e es IH];
    intros turns Hq lo cp db Hr Hlo Hcp0 Hhi Hwf Hcp; cbn [ConsumeSegment_loop];
    destruct (Hq O) as [Hid Henv]; rewrite ?Hid, ?Henv.
  - destruct (decide (cp < hi)).
    + destruct (consume_quiet (world (turns O)) cp hi None db)
        as [(db' & -> & _ & ?)|(? & ? & _ & ? & _)]; [done|done|lia| |done].
      eexists. split; [done|]. split_and!; [done|lia|done|lia].
    + eexists. split; [done|]. split_and!; [done|lia|done|lia].
  - destruct Hr as (Hpos & Hge & Hr). pose proof (in_range_le _ _ _ _ Hr).
    rewrite (offsetOf_positioned sid e Hpos). cbn [mbind go_bind].
    destruct (decide (off e < cp)) as [Hlt|Hnlt].
    { destruct (IH turns Hq (off e + 1) cp db Hr) as ([[[r ok] err] db'] & -> & Hr1 & Hr2 & Hres);
        [lia|done..|]. eexists. split; [done|]. split_and!; [done..|]. destruct err; [|done].
      destruct Hres as (? & n & e' & ? & ? & Hall & ?). split; [done|]. exists n, e'.
      split_and!; [by right|done| |done]. intros x [->|Hx]%elem_of_cons; [lia|by apply Hall]. }
    rewrite u64_id by (unfold is_u64, u64_modulus; lia).
    destruct (consume_quiet (world (turns O)) cp (off e + 1) (Some e) db)
      as [(db1 & -> & Hwf1 & Hc1)|(? & err & -> & [= <-] & Herr)]; [done|done|lia| |].
    + destruct (IH (fun n => turns (S n)) (fun n => Hq (S n)) (off e + 1) (off e + 1) db1 Hr)
        as ([[[r ok] err] db'] & -> & Hr1 & Hr2 & Hres); [lia|lia|done..|].
      eexists. split; [done|]. split_and!; [done|lia|]. destruct err as [err|].
      * destruct Hres as (? & n & e' & ? & ? & Hall & ?). split; [done|]. exists (S n), e'.
        split_and!; [by right|done| |done]. intros x [->|Hx]%elem_of_cons; [lia|by apply Hall].
      * destruct Hres. split; [done|lia].
    + eexists. split; [done|]. split_and!; [done|lia|done|]. exists O, e.
      split_and!; [left|lia| |done]. intros x [->|Hx]%elem_of_cons; [lia|].
      pose proof (in_range_elem _ _ _ _ _ Hr Hx). lia.
Qed.
End progress.

(** ** Properties *)

(** However the transactions of any number of consumers of a stream, on this
    node or others, are interleaved, and whichever of them fail, [ConsumeSegment]
    does not panic and the effects of each event of the stream that is routed to
    the handler are applied exactly once, in order, in the transaction that moves
    the checkpoint past it: the events applied are always exactly those before the
    checkpoint, which never moves back.  If [ConsumeSegment] reports success, the
    checkpoint is past the segment. *)
Theorem ConsumeSegment_exactly_once `{ProcessMessageHandler} key outbound sid h types E e_h
    turns cp seg db log :
  in_range sid 0 e_h h -> e_h < 2 ^ 63 ->
  seg_stream seg = sid -> faithful h types seg ->
  0 <= seg_begin seg <= cp ->
  turns_ok key outbound sid h types E turns ->
  applied key sid h types db log -> cp <= checkpoint key sid db ->
  exists r ok err db' log',
    ConsumeSegment key outbound turns cp seg db = Ret (r, ok, err, db') /\
    rtc (apply_step key outbound sid h types E) (db, log) (db', log') /\
    log' = between types 0 (checkpoint key sid db') h /\
    checkpoint key sid db <= checkpoint key sid db' /\
    (ok = true -> err = None /\ r = Z.max cp (seg_end seg) /\ r <= checkpoint key sid db').
Proof.
  intros Hh Hmax <- [Hle Hes] Hb Ht Ha Hcp.
  destruct (ConsumeSegment_loop_applies key outbound _ h types E 0 e_h Hh (seg_end seg)
    (seg_envelopes seg) turns (seg_begin seg) cp db log Ht ltac:(lia) ltac:(lia) Hmax Hes Ha Hcp)
    as ([[[r ok] err] db'] & Hr & (log' & Hs) & _ & Hok).
  destruct (apply_steps_applied key outbound _ h types E 0 e_h Hh _ _ Hs Ha) as [[_ Hlog] Hmono].
  exists r, ok, err, db', log'. by split_and!.
Qed.

(** Without contention or faults, [ConsumeSegment] consumes the whole segment
    and leaves the checkpoint at its end (or where it was, if that is further); or
    it stops at the first event that the handler can not handle, with the error of
    the handler, the effects of the events before it committed, and the checkpoint
    before it. *)
Theorem ConsumeSegment_stops_at_failure `{ProcessMessageHandler} key outbound turns cp seg db :
  let sid := seg_stream seg in
  (forall n, quiet (turns n)) ->
  in_range sid (seg_begin seg) (seg_end seg) (seg_envelopes seg) ->
  0 <= seg_begin seg -> seg_end seg < 2 ^ 63 -> process_wf db ->
  0 <= cp -> CheckpointOffset key None sid db = inr cp ->
  exists r ok err db', ConsumeSegment key outbound turns cp seg db = Ret (r, ok, err, db') /\
    CheckpointOffset key None sid db' = inr r /\ cp <= r /\
    match err with
    | None => ok = true /\ r = Z.max cp (seg_end seg)
    | Some err => ok = false /\ exists n e, e ∈ seg_envelopes seg /\ r <= off e /\
        (forall e', e' ∈ seg_envelopes seg -> off e' < off e -> off e' < r) /\
        (dispatch key outbound (world (turns n)) e (set_checkpoint key sid r db')).2 = inl err
    end.
Proof.
  intros sid Hq Hr Hb He Hwf Hcp0 Hcp.
  assert (Hck : forall db, CheckpointOffset key None sid db = inr (checkpoint key sid db)).
  { intros db0. unfold CheckpointOffset, checkpoint. by destruct (checkpoints db0 !! _). }
  rewrite Hck in Hcp. injection Hcp as Hcp.
  destruct (ConsumeSegment_loop_quiet key outbound sid (seg_end seg) (seg_envelopes seg) turns
    (seg_begin seg) cp db) as ([[[r ok] err] db'] & Hr' & Hc' & Hrest); try done.
  exists r, ok, err, db'. split; [done|]. split; [|done]. rewrite Hck. by f_equal.
Qed.

(** C18: in every state of the database that the engine reaches, an ended process
    instance has no state and no deadlines: a deadline is of an instance that
    exists and has not ended.  So the instance of a deadline that the pump acquires
    has not ended, and loading it never finds that it has. *)
Theorem ended_instances_have_no_deadlines {M : Messaging} db :
  rtc process_step empty_db db ->
  (forall hk iid row, instances db !! (hk, iid) = Some row -> inst_ended row = true ->
     inst_state row = None /\ map_Forall (fun _ d => ~ of_instance hk iid d) (deadlines db)) /\
  (forall (P : ProcessMessageHandler) key now types del env rt db',
     AcquireDeadline key now ∅ types db = inr (Some del) ->
     Unmarshal (EnvelopeBytes del) = inr env ->
     loadInstance key (hdr_instance_id (env_header env)) rt db <> (db', inr None)).
Proof.
  intros Hwf%process_reachable_wf. split.
  - intros hk iid row Hrow He. destruct Hwf as [H1 H2]. split; [by eapply H1|].
    intros id d Hd [Hk Hi]. destruct (H2 _ _ Hd) as [(row' & Hrow' & Hl) _].
    rewrite Hk, Hi in Hrow'. congruence.
  - intros P key now types del env rt db' Ha Hu Hload.
    destruct (acquired_row key now types db del env Hwf Ha Hu)
      as (d & _ & _ & _ & _ & _ & (row & Hrow & Hl)).
    apply loadInstance_wf in Hload as (_ & _ & _ & _ & Hend); [|done].
    destruct (Hend eq_refl) as (row' & Hrow' & He). congruence.
Qed.

(** A deadline is not lost: when the pump has handled a delivery without an
    error, either the process handled it and the deadline is gone, or it did not
    and the deadline remains, unchanged but for its number of failures and the
    time of its redelivery. *)
Theorem deadlines_are_not_lost {M : Messaging} {P : ProcessMessageHandler}
    key outbound w types p r cerr del env db db' :
  rtc process_step empty_db db ->
  AcquireDeadline key (Now w) ∅ types db = inr (Some del) ->
  Unmarshal (EnvelopeBytes del) = inr env ->
  doHandle (H := DeadlinePump key outbound w types) p r cerr del env db db = Ret (db', None) ->
  match (HandleDeadlineDelivery key outbound w del env db).2 with
  | inr _ => deadlines db' !! MessageID del = None
  | inl _ => exists d d', deadlines db !! MessageID del = Some d /\
      deadlines db' !! MessageID del = Some d' /\
      dl_envelope d' = dl_envelope d /\ dl_type_id d' = dl_type_id d /\
      dl_handler_key d' = dl_handler_key d /\ dl_instance_id d' = dl_instance_id d /\
      (dl_failures d' = u64 (dl_failures d + 1) \/ dl_failures d' = dl_failures d)
  end.
Proof.
  intros Hwf%process_reachable_wf Ha Hu Hh.
  destruct (acquired_row key (Now w) types db del env Hwf Ha Hu)
    as (d & Hd & _ & Hf & _ & Hof & _).
  unfold doHandle in Hh. cbn -[computeBackoff HandleDeadlineDelivery PostponeDeadline] in Hh.
  pose proof (HandleDeadlineDelivery_wf key outbound w del env db Hwf) as (Hwf1 & _ & Hres).
  destruct (HandleDeadlineDelivery key outbound w del env db) as [db1 [e|[]]];
    cbn -[computeBackoff PostponeDeadline] in *; last first.
  { destruct cerr; [done|]. injection Hh as <-. apply Hres. intros d' Hd'. congruence. }
  assert (Hd1 : deadlines db1 !! MessageID del = Some d) by (by eapply lookup_weaken).
  assert (Hpost : forall del' delay, MessageID del' = MessageID del ->
    (Failures del' = u64 (Failures del + 1) \/ Failures del' = Failures del) ->
    (match outcome (PostponeDeadline (Now w) del' delay db1) with
      | (_, Some e) => (db, Some (Wrap "unable to postpone delivery" e))
      | (tx, None) => match cerr with
                      | Some e => (db, Some (Wrap "unable to commit transaction" e))
                      | None => (tx, None) end end) = (db', None) ->
    exists d d', deadlines db !! MessageID del = Some d /\
      deadlines db' !! MessageID del = Some d' /\
      dl_envelope d' = dl_envelope d /\ dl_type_id d' = dl_type_id d /\
      dl_handler_key d' = dl_handler_key d /\ dl_instance_id d' = dl_instance_id d /\
      (dl_failures d' = u64 (dl_failures d + 1) \/ dl_failures d' = dl_failures d)).
  { intros del' delay Hid Hfail. rewrite <- Hid in Hd1.
    pose proof (PostponeDeadline_wf (Now w) del' delay db1 Hwf1) as [_ Hp].
    rewrite (Hp d Hd1). cbn. destruct cerr; [done|]. intros [= <-]. cbn. rewrite <- Hid.
    eexists _, _. split; [by rewrite Hid|]. split; [by rewrite lookup_insert_eq|]. cbn.
    split_and!; try done. by rewrite Hf. }
  destruct (Is e ErrFailed).
  - destruct (computeBackoff _ _ _) as [delay|]; cbn -[PostponeDeadline] in Hh; [|done].
    injection Hh as Hx. by eapply (Hpost (mkDelivery _ _ _ _) _ eq_refl); [left|exact Hx].
  - destruct (Is e ErrBusy); [|done]. injection Hh as Hx.
    by eapply (Hpost del _ eq_refl); [right|exact Hx].
Qed.

(** C28: the effects of a deadline are not atomic when the root's state can not be
    marshaled after the handler has returned: the delivery counts as failed and
    the deadline is postponed, but the commands that the handler executed, which
    are queued before the state is saved, are committed with the postponement. *)
Theorem failed_delivery_commits_commands `{ProcessMessageHandler} key outbound w types p r del env
    db db1 db2 deadline rt rt' s d delay e :
  let iid := hdr_instance_id (env_header env) in
  process_wf db -> deadlines db !! MessageID del = Some d ->
  UnpackMessage env = inr deadline -> newRoot w = inr rt ->
  loadInstance key iid rt db = (db1, inr (Some rt')) ->
  interact outbound (HandleDeadline w rt' iid (body_scheduled_for (env_body env)) deadline)
    (newScope key w env iid rt') = Ret (inr s) ->
  ended s = false -> mutated s = true -> MarshalBinary (root s) = Ret (inl e) ->
  addCommandsToQueue (Now w) (commandPacker s) db1 = (db2, inr tt) ->
  computeBackoff p r (u64 (Failures del + 1)) = Ret delay ->
  exists db', doHandle (H := DeadlinePump key outbound w types) p r None del env db db
      = Ret (db', None) /\
    (HandleDeadlineDelivery key outbound w del env db).2 = inl (Sentinel ErrFailed) /\
    commands db' = commands db2 /\
    deadlines db' !! MessageID del = Some (mkDeadlineRow (dl_type_id d) (dl_handler_key d)
      (dl_instance_id d) (dl_envelope d) (u64 (Failures del + 1)) (Now w + delay)).
Proof.
  intros iid Hwf Hd Hun Hnew Hload Hint Hend Hmut Hmar Hadd Hback.
  assert (Hh : HandleDeadlineDelivery key outbound w del env db = (db2, inl (Sentinel ErrFailed))).
  { unfold HandleDeadlineDelivery. rewrite Hun, Hnew. fold iid. unfold mbind, tx_bind.
    rewrite Hload. unfold deliver_to. rewrite Hint. cbn [Recover]. unfold mbind, tx_bind.
    rewrite Hadd, Hend, Hmut. unfold saveInstance. by rewrite Hmar. }
  apply loadInstance_wf in Hload as (Hwf1 & _ & Hd1 & _ & _); [|done].
  pose proof (addCommandsToQueue_same (Now w) (commandPacker s) db1) as [Hsame _].
  rewrite Hadd in Hsame. cbn in Hsame. assert (Hwf2 := process_wf_same _ _ Hsame Hwf1).
  destruct Hsame as [_ Hd2]. rewrite Hd1 in Hd2.
  set (del' := mkDelivery (MessageID del) (MessageTypeID del) (EnvelopeBytes del)
                 (u64 (Failures del + 1))).
  destruct (PostponeDeadline_wf (Now w) del' delay db2 Hwf2) as [_ Hp].
  specialize (Hp d). cbn [MessageID del'] in Hp. rewrite Hd2 in Hp. specialize (Hp Hd).
  unfold doHandle. cbn -[computeBackoff HandleDeadlineDelivery PostponeDeadline u64].
  rewrite Hh. cbn -[computeBackoff PostponeDeadline u64]. rewrite bool_decide_eq_true_2 by done.
  rewrite Hback. cbn -[PostponeDeadline u64]. fold del'. rewrite Hp. cbn -[u64].
  eexists. split_and!; [done..|]. cbn -[u64]. by rewrite lookup_insert_eq.
Qed.

(** ** An example

    A process that counts events other than those of type 9, schedules a deadline of type 6 and
    executes a command of type 8 for each of them; a deadline that is handled at
    instance "b" ends it, and at any other instance leaves a state that can not be
    marshaled. *)

Section example.
#[local] Existing Instance Example.messaging.

Definition unmarshalable : N := 13.

#[local] Instance counter : ProcessMessageHandler := {|
  Root := N;
  New _ := Ret 0%N;
  UnmarshalBinary data _ := Ret (inr (N.of_nat (String.length data - 1)));
  MarshalBinary r :=
    if decide (r = unmarshalable) then Ret (inl (Opaque "can not marshal"))
    else Ret (inr (Some (Example.digits (2 ^ N.succ_pos r))));
  RouteEventToInstance _ m := Ret (inr (if decide (m = 9%N) then None else Some "a"));
  HandleEvent _ _ _ _ _ :=
    CallMutate (fun r => Ret (r + 1)%N) (fun _ =>
      CallScheduleDeadline (6%N : @Message Example.messaging) 100
        (CallExecuteCommand (8%N : @Message Example.messaging) (Return None)));
  HandleDeadline _ _ iid _ _ :=
    CallExecuteCommand (8%N : @Message Example.messaging)
      (if decide (iid = "b") then CallEnd (Return None)
       else CallMutate (fun _ => Ret unmarshalable) (fun _ => Return None));
|}.

Definition example_outbound : gset UUID := {[6%N; 8%N]}.

(** Stream 1 of three events, of which the first and the last are routed. *)
Definition example_history : list Envelope := [event 1 0 5; event 1 1 9; event 1 2 5].
Definition example_segment : Segment := mkSegment 1 0 3 example_history.

(** The turns of a consumer, with a time and fresh message IDs for each. *)
Definition example_turns (ids : N) (others : DB -> DB) : nat -> turn := fun n =>
  mkTurn others no_faults (Z.of_nat n, (ids + 10 * N.of_nat n)%N).

Lemma process_example_in_range : in_range 1 0 3 example_history.
Proof. repeat split; vm_compute; congruence. Qed.

Lemma example_faithful : faithful example_history None example_segment.
Proof. split; [vm_compute; congruence|vm_compute; reflexivity]. Qed.

(** The database after the segment is consumed. *)
Definition example_consumed : DB :=
  match ConsumeSegment 7 example_outbound (example_turns 100 id) 0 example_segment empty_db with
  | Ret (_, _, _, db) => db
  | Panic _ => empty_db
  end.

(** The delivery of one of its deadlines, at time 200. *)
Definition example_pump : MessagePump := mkPump 1 10 1000.
Definition example_world (id : N) : World := (200, id).
Definition example_delivery (db : DB) : Delivery :=
  match AcquireDeadline 7 200 ∅ {[6%N]} db with
  | inr (Some del) => del
  | _ => mkDelivery 0 0 "" 0
  end.
Definition example_envelope (db : DB) : Envelope :=
  match Unmarshal (EnvelopeBytes (example_delivery db)) with
  | inr env => env
  | inl _ => event 0 0 0
  end.

(** Delivering it, with message IDs from [id]. *)
Definition example_deliver (id : N) (db : DB) : DB :=
  match doHandle (H := DeadlinePump 7 example_outbound (example_world id) {[6%N]}) example_pump 0
          None (example_delivery db) (example_envelope db) db db with
  | Ret (db', _) => db'
  | Panic _ => db
  end.

Lemma empty_wf : process_wf empty_db.
Proof. apply process_reachable_wf, rtc_refl. Qed.

(** A consumer on another node that consumes the whole segment at once. *)
Definition rival (db : DB) : DB :=
  match ConsumeSegment 7 example_outbound (example_turns 500 id) 0 example_segment db with
  | Ret (_, _, _, db') => db'
  | Panic _ => db
  end.

Lemma id_ok E ids : turns_ok 7 example_outbound 1 example_history None E (example_turns ids id).
Proof. intros n db log _. exists log. apply rtc_refl. Qed.

Lemma rival_ok E ids : turns_ok 7 example_outbound 1 example_history None E (example_turns ids rival).
Proof.
  intros n db log Ha. cbn [others example_turns]. unfold rival, ConsumeSegment.
  destruct (ConsumeSegment_loop_applies 7 example_outbound 1 example_history None E 0 3
    process_example_in_range 3 example_history (example_turns 500 id) 0 0 db log (id_ok E _)
    ltac:(lia) ltac:(lia) ltac:(lia) ltac:(apply example_faithful) Ha (proj1 Ha))
    as ([[[r ok] err] db'] & Hr & Hs & _).
  cbn [seg_stream seg_end seg_envelopes example_segment]. rewrite Hr. exact Hs.
Qed.

Lemma example_reachable : rtc process_step empty_db example_consumed.
Proof.
  set (w n := (Z.of_nat n, (100 + 10 * N.of_nat n)%N) : @World Example.messaging).
  eapply rtc_l.
  { eapply (step_consume (P := counter) 7 example_outbound no_faults (w 0%nat) 1 0 1
      (Some (event 1 0 5))). apply surjective_pairing. }
  eapply rtc_l.
  { eapply (step_consume (P := counter) 7 example_outbound no_faults (w 1%nat) 1 1 2
      (Some (event 1 1 9))). apply surjective_pairing. }
  eapply rtc_l.
  { eapply (step_consume (P := counter) 7 example_outbound no_faults (w 2%nat) 1 2 3
      (Some (event 1 2 5))). apply surjective_pairing. }
  match goal with |- rtc _ ?x ?y => assert (x = y) as -> by (vm_compute; reflexivity) end.
  apply rtc_refl.
Qed.
End example.

(** The rival's transactions come first: the consumer meets a conflict, and each of
    the three events has been applied once. *)
Lemma ConsumeSegment_exactly_once_witness :
  exists db' log', ConsumeSegment (H0 := counter) 7 example_outbound (example_turns 100 rival) 0
      example_segment empty_db = Ret (0, false, None, db') /\
    log' = between None 0 (checkpoint 7 1 db') example_history /\ length log' = 3%nat.
Proof.
  destruct (ConsumeSegment_exactly_once (H0 := counter) 7 example_outbound 1 example_history None
    (fun _ _ => False) 3
    (example_turns 100 rival) 0 example_segment empty_db []) as (r & ok & err & db' & log' & Hr & _ & Hlog & _).
  - exact process_example_in_range.
  - lia.
  - reflexivity.
  - exact example_faithful.
  - cbn. lia.
  - apply rival_ok.
  - split; [vm_compute; discriminate|reflexivity].
  - vm_compute. discriminate.
  - exists db', log'. vm_compute in Hr. injection Hr as <- <- <- <-.
    split; [vm_compute; reflexivity|]. split; [exact Hlog|]. rewrite Hlog. vm_compute. reflexivity.
Defined.

Lemma ConsumeSegment_stops_at_failure_witness :
  exists db', ConsumeSegment (H0 := counter) 7 example_outbound (example_turns 100 id) 0
      example_segment empty_db = Ret (3, true, None, db') /\
    CheckpointOffset 7 None 1 db' = inr 3.
Proof.
  destruct (ConsumeSegment_stops_at_failure (H0 := counter) 7 example_outbound (example_turns 100 id) 0
    example_segment empty_db) as (r & ok & err & db' & Hr & Hck & _).
  - intros n. split; reflexivity.
  - exact process_example_in_range.
  - cbn. lia.
  - cbn. lia.
  - exact empty_wf.
  - lia.
  - reflexivity.
  - exists db'. pose proof Hr as Hr'. vm_compute in Hr. injection Hr as <- <- <- Hdb.
    split; [exact Hr'|exact Hck].
Defined.

Lemma ended_instances_have_no_deadlines_witness :
  size (deadlines example_consumed) = 2%nat /\
  (loadInstance (H0 := counter) 7 (hdr_instance_id (env_header (example_envelope example_consumed)))
    0%N example_consumed).2 <> inr None.
Proof.
  split; [vm_compute; reflexivity|]. intros Hload.
  destruct (ended_instances_have_no_deadlines (M := Example.messaging) example_consumed
    example_reachable) as [_ Hd].
  apply (Hd counter 7%N 200 {[6%N]} (example_delivery example_consumed)
    (example_envelope example_consumed) 0%N (loadInstance (H0 := counter) 7
      (hdr_instance_id (env_header (example_envelope example_consumed))) 0%N example_consumed).1);
    [vm_compute; reflexivity|vm_compute; reflexivity|].
  rewrite <- Hload. apply surjective_pairing.
Defined.

(** A delivery that fails because the state can not be marshaled. *)
Lemma example_acquired :
  AcquireDeadline 7 200 ∅ {[6%N]} example_consumed
    = inr (Some (example_delivery example_consumed)).
Proof. vm_compute. reflexivity. Qed.

Lemma example_decoded :
  Example.unmarshal (EnvelopeBytes (example_delivery example_consumed))
    = inr (example_envelope example_consumed).
Proof. vm_compute. reflexivity. Qed.

Lemma example_failed :
  (HandleDeadlineDelivery (H0 := counter) 7 example_outbound (example_world 900)
    (example_delivery example_consumed) (example_envelope example_consumed) example_consumed).2
  = inl (Sentinel ErrFailed).
Proof. vm_compute. reflexivity. Qed.

Lemma example_handled :
  doHandle (H := DeadlinePump (H0 := counter) 7 example_outbound (example_world 900) {[6%N]})
    example_pump 0 None (example_delivery example_consumed) (example_envelope example_consumed)
    example_consumed example_consumed = Ret (example_deliver 900 example_consumed, None).
Proof. vm_compute. reflexivity. Qed.

Lemma deadlines_are_not_lost_witness :
  exists d, deadlines (example_deliver 900 example_consumed)
    !! MessageID (example_delivery example_consumed) = Some d /\ dl_failures d = 1.
Proof.
  pose proof (deadlines_are_not_lost (M := Example.messaging) (P := counter) 7 example_outbound
    (example_world 900) {[6%N]} example_pump 0 None (example_delivery example_consumed)
    (example_envelope example_consumed) example_consumed (example_deliver 900 example_consumed)
    example_reachable example_acquired example_decoded example_handled) as Hd.
  rewrite example_failed in Hd. destruct Hd as (d & d' & Hd & Hd' & _).
  exists d'. split; [exact Hd'|].
  assert (Some (dl_failures d') = Some 1) as [= Hf]; [|exact Hf].
  change (Some (dl_failures d')) with (dl_failures <$> Some d'). rewrite <- Hd'.
  vm_compute. reflexivity.
Defined.

(** The scope that the failed delivery leaves, and the state of its transaction. *)
Definition example_scope : @messageScope Example.messaging counter :=
  match interact (H0 := counter) example_outbound
          (HandleDeadline (example_world 900) (2%N : @Root _ counter) "a" 100 (6%N : @Message Example.messaging))
          (newScope (H0 := counter) 7 (example_world 900) (example_envelope example_consumed) "a" 2%N) with
  | Ret (inr s) => s
  | _ => newScope (H0 := counter) 7 (example_world 900) (example_envelope example_consumed) "a" 2%N
  end.

Definition example_tx : DB :=
  (addCommandsToQueue (H := Example.messaging) 200 (commandPacker example_scope) example_consumed).1.

Lemma failed_delivery_commits_commands_witness :
  exists db', doHandle (H := DeadlinePump (H0 := counter) 7 example_outbound (example_world 900) {[6%N]})
      example_pump 0 None (example_delivery example_consumed) (example_envelope example_consumed)
      example_consumed example_consumed = Ret (db', None) /\
    commands db' = commands example_tx /\
    size (commands example_consumed) = 2%nat /\ size (commands db') = 3%nat.
Proof.
  destruct (failed_delivery_commits_commands (H0 := counter) 7 example_outbound (example_world 900)
    {[6%N]} example_pump 0 (example_delivery example_consumed) (example_envelope example_consumed)
    example_consumed example_consumed example_tx 6%N 0%N 2%N example_scope
    (mkDeadlineRow 6 7 "a" (EnvelopeBytes (example_delivery example_consumed)) 0 100) 10
    (Opaque "can not marshal")) as (db' & Hh & _ & Hc & _).
  - apply process_reachable_wf, example_reachable.
  - vm_compute. reflexivity.
  - vm_compute. reflexivity.
  - reflexivity.
  - vm_compute. reflexivity.
  - vm_compute. reflexivity.
  - vm_compute. reflexivity.
  - vm_compute. reflexivity.
  - vm_compute. reflexivity.
  - vm_compute. reflexivity.
  - vm_compute. reflexivity.
  - exists db'. split; [exact Hh|]. split; [exact Hc|]. rewrite Hc. split; vm_compute; reflexivity.
Defined.
