(* ===== verification/Execute.v ===== *)
(** * Executing commands

    Models [execute.go]: the options of [ExecuteCommand], the transaction that adds
    a command to the queue, and the polling for the events that an observer waits
    for.

    An observer is a function of the application that may keep state between its
    calls.  The database that each poll sees is an input, as other parts of the
    engine append events in the meantime; the wait ends with ctx when the polls
    given are used up. *)

From S2P Require Import Prelude Errors Stream Database Handler.

Section execute.
Context `{Messaging}.
Context {AppState : Type}.

(** [dogma.EventObserver] *)
Definition EventObserver : Type := AppState -> Message -> AppState * (error + bool).

(** [dogma.ExecuteCommandOption] *)
Inductive ExecuteCommandOption : Type :=
| IdempotencyKeyOption (key : string)
| EventObserverOption (type_id : UUID) (observer : EventObserver)
| OtherOption.

(** The engine, as far as commands are concerned: the command types that have a
    route, and [e.packer.PackCommand] with the idempotency keys that it is given as
    options. *)
Record Engine := mkEngine {
  commandTypes : gset UUID;
  PackCommand : World -> Message -> list string -> Envelope;
}.

(** [resolveExecuteCommandOptions] *)
Fixpoint resolveExecuteCommandOptions (options : list ExecuteCommandOption)
    (packOptions : list string) (eventTypes : gset UUID) (eventObservers : list EventObserver)
    : go (list string * gset UUID * list EventObserver) :=
  match options with
  | [] => Ret (packOptions, eventTypes, eventObservers)
  | opt :: options' =>
      match opt with
      | IdempotencyKeyOption key =>
          resolveExecuteCommandOptions options' (packOptions ++ [key]) eventTypes eventObservers
      | EventObserverOption ty observer =>
          resolveExecuteCommandOptions options' packOptions ({[ty]} ∪ eventTypes)
            (eventObservers ++ [observer])
      | OtherOption => Panic "unsupported execute command option type"
      end
  end.

(** ** Polling for events *)

(** The rows of the query of [pollForEvents]. *)
Definition poll_rows (nextOffsets : gmap UUID Z) (cid : UUID) (types : gset UUID) (db : DB)
    : list EventRow :=
  take 100 (order_by ev_offset
    (filter (fun r => default 0 (nextOffsets !! ev_stream r) <= ev_offset r /\
                      ev_correlation_id r = cid /\ ev_type_id r ∈ types) (events db))).

(** Feeding an event to each observer; [Some] if [pollForEvents] returns. *)
Fixpoint feed (observers : list EventObserver) (event : Message) (st : AppState)
    : AppState * option (error + bool) :=
  match observers with
  | [] => (st, None)
  | fn :: observers' =>
      match fn st event with
      | (st, inl e) => (st, Some (inl e))
      | (st, inr true) => (st, Some (inr true))
      | (st, inr false) => feed observers' event st
      end
  end.

(** The loop over the rows. *)
Fixpoint poll_loop (observers : list EventObserver) (rows : list EventRow)
    (nextOffsets : gmap UUID Z) (st : AppState)
    : go (gmap UUID Z * AppState * option (error + bool)) :=
  match rows with
  | [] => Ret (nextOffsets, st, None)
  | row :: rows' =>
      match Unmarshal (ev_envelope row) with
      | inl e => Ret (nextOffsets, st, Some (inl (Wrap "unable to scan event envelope" e)))
      | inr env =>
          r ← Unpack env;
          match r with
          | inl e => Ret (nextOffsets, st, Some (inl e))
          | inr event =>
              match feed observers event st with
              | (st, Some res) => Ret (nextOffsets, st, Some res)
              | (st, None) =>
                  poll_loop observers rows'
                    (<[ev_stream row := u64 (ev_offset row + 1)]> nextOffsets) st
              end
          end
      end
  end.

(** What one poll meets: the database, and the failure of the query. *)
Record poll := mkPoll { view : DB; query_err : option error; rows_err : option error }.

(** [pollForEvents], with the map of next offsets that it leaves. *)
Definition pollForEvents (p : poll) (cid : UUID) (types : gset UUID)
    (observers : list EventObserver) (nextOffsets : gmap UUID Z) (st : AppState)
    : go (gmap UUID Z * AppState * (error + bool)) :=
  match query_err p with
  | Some e => Ret (nextOffsets, st, inl (Wrap "unable to query events" e))
  | None =>
      r ← poll_loop observers (poll_rows nextOffsets cid types (view p)) nextOffsets st;
      let '(nextOffsets, st, res) := r in
      match res with
      | Some res => Ret (nextOffsets, st, res)
      | None =>
          match rows_err p with
          | Some e => Ret (nextOffsets, st, inl (Wrap "unable to iterate over event rows" e))
          | None => Ret (nextOffsets, st, inr false)
          end
      end
  end.

(** [waitForEvents], for the polls until ctx is done with error [ctx_err].  The map
    of next offsets is passed by value: what [pollForEvents] does to its copy of
    the empty map is not seen by the next poll. *)
Fixpoint waitForEvents (polls : list poll) (ctx_err : error) (cid : UUID) (types : gset UUID)
    (observers : list EventObserver) (st : AppState) : go (AppState * option error) :=
  match polls with
  | [] => Ret (st, Some ctx_err)
  | p :: polls' =>
      r ← pollForEvents p cid types observers ∅ st;
      let '(_, st, res) := r in
      match res with
      | inl e => Ret (st, Some e)
      | inr true => Ret (st, None)
      | inr false => waitForEvents polls' ctx_err cid types observers st
      end
  end.

(** ** Executing a command *)

(** What a call to [ExecuteCommand] meets. *)
Record call := mkCall {
  ready : option error;              (* waitUntilReady *)
  has_deadline : bool;               (* ctx.Deadline() *)
  call_tx : TxEnv;
  call_world : World;
  call_polls : list poll;
  call_ctx_err : error;
}.

(** The transaction that adds the command to the queue. *)
Definition enqueue (now : Z) (env : Envelope) : sql (UUID * bool) :=
  wrap "unable to add command to queue"
    (match Marshal env with
     | inl e => fail e
     | inr data =>
         commandqueue_add now (body_message_id (env_body env)) (type_of env) data
           (body_idempotency_key (env_body env))
     end).

Definition ExecuteCommand (e : Engine) (c : call) (command : Message)
    (options : list ExecuteCommandOption) (st : AppState) (db : DB)
    : go (AppState * option error * DB) :=
  match ready c with
  | Some err => Ret (st, Some err, db)
  | None =>
      r ← resolveExecuteCommandOptions options [] ∅ [];
      let '(packOptions, eventTypes, eventObservers) := r in
      let env := PackCommand e (call_world c) command packOptions in
      if decide (eventObservers <> [] /\ has_deadline c = false) then
        Ret (st, Some (Opaque "context must have a deadline when using event observers"), db)
      else
        verr ← Validate command true env;
        match verr with
        | Some err => Ret (st, Some err, db)
        | None =>
            if decide (MessageType command ∉ commandTypes e) then
              Ret (st, Some (Opaque "no route found for command type"), db)
            else
              match Transact (call_tx c) (enqueue (Now (call_world c)) env) db with
              | (inl err, db) => Ret (st, Some err, db)
              | (inr (messageID, _), db) =>
                  match eventObservers with
                  | [] => Ret (st, None, db)
                  | _ =>
                      r ← waitForEvents (call_polls c) (call_ctx_err c) messageID eventTypes
                            eventObservers st;
                      match r with
                      | (st, Some err) =>
                          if Is err DeadlineExceeded then
                            Ret (st, Some (Sentinel ErrEventObserverNotSatisfied), db)
                          else Ret (st, Some err, db)
                      | (st, None) => Ret (st, None, db)
                      end
                  end
              end
        end
  end.

(** ** Lemmas *)

(** The idempotency keys among the options. *)
Definition option_keys (options : list ExecuteCommandOption) : list string :=
  omap (fun o => match o with IdempotencyKeyOption k => Some k | _ => None end) options.

Lemma resolve_keys options ks ts os ks' ts' os' :
  resolveExecuteCommandOptions options ks ts os = Ret (ks', ts', os') ->
  ks' = ks ++ option_keys options.
Proof.
  revert ks ts os. induction options as [|[k|ty o|] options IH]; cbn; intros ks ts os.
  - intros [= <- _ _]. by rewrite app_nil_r.
  - intros ->%IH. by rewrite <- app_assoc.
  - by intros ->%IH.
  - done.
Qed.

(** What adding a command to the queue does, for a key in use or not. *)
Lemma enqueue_key now env db id fresh db' :
  body_idempotency_key (env_body env) <> "" -> enqueue now env db = inr ((id, fresh), db') ->
  idempotency_keys db' !! body_idempotency_key (env_body env) = Some id /\
  idempotency_keys db ⊆ idempotency_keys db' /\
  (fresh = false -> db' = db) /\
  (fresh = true -> id = body_message_id (env_body env) /\ commands db !! id = None /\
     exists row, commands db' = <[id := row]> (commands db)).
Proof.
  intros Hk. unfold enqueue, wrap. destruct (Marshal env) as [e|data]; [done|].
  unfold commandqueue_add. rewrite decide_True by done.
  destruct (idempotency_keys db !! _) as [orig|] eqn:Hkey.
  - intros [= <- <- <-]. by split_and!.
  - case_decide; [done|]. cbn. destruct (commands db !! _) eqn:Hc; [done|].
    intros [= <- <- <-]. cbn. split_and!; [by rewrite lookup_insert_eq|by apply insert_subseteq|done|].
    intros _. split_and!; eauto.
Qed.

(** With a key that is in use, nothing is added. *)
Lemma enqueue_duplicate now env db id :
  body_idempotency_key (env_body env) <> "" ->
  idempotency_keys db !! body_idempotency_key (env_body env) = Some id ->
  (exists e, enqueue now env db = inl e) \/ enqueue now env db = inr ((id, false), db).
Proof.
  intros Hk Hid. unfold enqueue, wrap. destruct (Marshal env) as [e|data]; [left; by eexists|].
  right. unfold commandqueue_add. rewrite decide_True by done. by rewrite Hid.
Qed.

(** [Transact], when the statements leave the database as it is or fail. *)
Lemma Transact_same {A} env (fn : sql A) db :
  (forall a db', fn db = inr (a, db') -> db' = db) -> (Transact env fn db).2 = db.
Proof.
  intros Hfn. unfold Transact. destruct (begin_err env); [done|].
  destruct (fn db) as [e|[a db']] eqn:E; [done|]. destruct (commit_err env); [done|].
  cbn. by eapply Hfn.
Qed.

(** The database after [ExecuteCommand] is that after its transaction, if it gets
    that far. *)
Lemma ExecuteCommand_db e c command options st db st' err db' :
  ExecuteCommand e c command options st db = Ret (st', err, db') ->
  (exists er, err = Some er /\ db' = db) \/
  (exists env, env = PackCommand e (call_world c) command (option_keys options) /\
     db' = (Transact (call_tx c) (enqueue (Now (call_world c)) env) db).2 /\
     (forall r, (Transact (call_tx c) (enqueue (Now (call_world c)) env) db).1 = inl r -> err = Some r)).
Proof.
  unfold ExecuteCommand. destruct (ready c); [intros [= <- <- <-]; left; by eexists|].
  destruct (resolveExecuteCommandOptions options [] ∅ []) as [[[ks ts] os]|] eqn:Hr; cbn; [|done].
  apply resolve_keys in Hr. cbn in Hr. subst ks.
  case_decide; [intros [= <- <- <-]; left; by eexists|].
  destruct (Validate command true _) as [[ve|]|]; cbn; [intros [= <- <- <-]; left; by eexists| |done].
  case_decide; [intros [= <- <- <-]; left; by eexists|].
  intros Hres. right. eexists. split; [done|].
  destruct (Transact _ _ db) as [[er|[id fresh]] db1]; [injection Hres as <- <- <-; split; [done|]; by intros ? [= <-]|].
  split; [|done]. destruct os as [|o os]; [by injection Hres as _ _ <-|].
  destruct (waitForEvents _ _ _ _ _ _) as [[st2 [er|]]|]; cbn in Hres; [|by injection Hres as _ _ <-|done].
  destruct (Is er DeadlineExceeded); by injection Hres as _ _ <-.
Qed.

(** ** One page of events *)

(** The message of a row that can be decoded. *)
Definition decodes (row : EventRow) (m : Message) : Prop :=
  exists env, Unmarshal (ev_envelope row) = inr env /\ Unpack env = Ret (inr m).

(** An observer that does not keep state, and is satisfied by some messages. *)
Definition stateless (sat : Message -> bool) : EventObserver := fun st m => (st, inr (sat m)).

Lemma poll_loop_stateless sat rows ms next st :
  Forall2 decodes rows ms ->
  exists next', poll_loop [stateless sat] rows next st
    = Ret (next', st, if existsb sat ms then Some (inr true) else None).
Proof.
  intros Hd. revert next. induction Hd as [|row m rows ms (env & Hu & Hp) Hd IH]; intros next; cbn.
  { by eexists. }
  rewrite Hu, Hp. cbn. destruct (sat m); [by eexists|]. destruct (IH (<[ev_stream row :=
    u64 (ev_offset row + 1)]> next)) as [next' Hn]. by exists next'.
Qed.

(** The messages of the first page of a poll. *)
Definition page (cid : UUID) (types : gset UUID) (p : poll) (ms : list Message) : Prop :=
  query_err p = None /\ rows_err p = None /\ Forall2 decodes (poll_rows ∅ cid types (view p)) ms.

Lemma waitForEvents_pages polls pages cerr cid types sat st :
  Forall2 (page cid types) polls pages ->
  waitForEvents polls cerr cid types [stateless sat] st
    = Ret (st, if existsb (existsb sat) pages then None else Some cerr).
Proof.
  intros Hp. induction Hp as [|p ms polls pages (Hq & Hre & Hd) Hp IH]; [done|]. cbn.
  unfold pollForEvents. rewrite Hq.
  destruct (poll_loop_stateless sat _ ms ∅ st Hd) as [next ->]. cbn.
  destruct (existsb sat ms); cbn; [done|]. rewrite Hre. cbn. exact IH.
Qed.
End execute.

(** ** Properties *)

(** C26: an idempotency key is good for one command: once a call to
    [ExecuteCommand] with a key has returned without an error, the key is recorded;
    and while it is, a call with that key, whatever its command and whatever
    happens to it, leaves the database exactly as it is. *)
Theorem ExecuteCommand_idempotent `{Messaging} {AppState} e c1 c2 cmd1 cmd2 opts1 opts2 k
    (st1 st1' st2 st2' : AppState) err2 db1 db1' db2 db2' :
  (forall w m ks, body_idempotency_key (env_body (PackCommand e w m ks)) = default "" (last ks)) ->
  k <> "" -> last (option_keys opts1) = Some k -> last (option_keys opts2) = Some k ->
  ExecuteCommand e c1 cmd1 opts1 st1 db1 = Ret (st1', None, db1') ->
  idempotency_keys db1' ⊆ idempotency_keys db2 ->
  ExecuteCommand e c2 cmd2 opts2 st2 db2 = Ret (st2', err2, db2') ->
  is_Some (idempotency_keys db1' !! k) /\ db2' = db2.
Proof.
  intros Hpack Hk Hl1 Hl2 H1 Hsub H2.
  apply ExecuteCommand_db in H1 as [(? & ? & _)|(env1 & Henv1 & Hdb1 & Herr1)]; [done|].
  assert (Hkey1 : body_idempotency_key (env_body env1) = k) by (by rewrite Henv1, Hpack, Hl1).
  assert (Hs : is_Some (idempotency_keys db1' !! k)).
  { unfold Transact in Hdb1, Herr1. destruct (begin_err (call_tx c1)); [by specialize (Herr1 _ eq_refl)|].
    destruct (enqueue _ env1 db1) as [er|[[id fresh] dbx]] eqn:Ee; [by specialize (Herr1 _ eq_refl)|].
    destruct (commit_err (call_tx c1)); [by specialize (Herr1 _ eq_refl)|]. cbn in Hdb1. subst dbx.
    apply enqueue_key in Ee as (Hid & _); rewrite Hkey1 in *; [by eexists|done]. }
  split; [done|]. destruct Hs as [id Hid].
  apply ExecuteCommand_db in H2 as [(? & _ & ->)|(env2 & Henv2 & -> & _)]; [done|].
  assert (Hkey2 : body_idempotency_key (env_body env2) = k) by (by rewrite Henv2, Hpack, Hl2).
  apply Transact_same. intros a db' Ha.
  destruct (enqueue_duplicate (Now (call_world c2)) env2 db2 id) as [[er Her]|Her];
    rewrite ?Hkey2 in *; [done|by eapply lookup_weaken|congruence|].
  rewrite Ha in Her. by injection Her.
Qed.

(** C29: an observer is given the first hundred events of the command and no
    others: with an observer that does not keep state, and if all events can be
    decoded, [waitForEvents] succeeds exactly if an event among the first hundred
    rows from offset zero satisfies the observer at one of the polls; an event
    beyond them is never observed, however many polls there are. *)
Theorem waitForEvents_sees_one_page `{Messaging} {AppState} polls pages cerr cid types sat
    (st : AppState) :
  Forall2 (page cid types) polls pages ->
  waitForEvents polls cerr cid types [stateless sat] st
    = Ret (st, if existsb (existsb sat) pages then None else Some cerr) /\
  Forall (fun ms => (length ms <= 100)%nat) pages.
Proof.
  intros Hp. split; [by apply waitForEvents_pages|].
  induction Hp as [|p ms polls pages (_ & _ & Hd) _ IH]; constructor; [|done].
  rewrite <- (Forall2_length _ _ _ Hd). unfold poll_rows. rewrite length_take. lia.
Qed.

(** ** Examples *)

Section example.
#[local] Existing Instance Example.messaging.

Definition example_engine : Engine :=
  mkEngine {[8%N]} (fun (w : @World Example.messaging) (m : @Message Example.messaging) ks =>
    mkEnvelope (mkHeader 0 0 "") (mkBody w.2 m (default "" (last ks)) 0 0 "" NoPosition)).

Definition example_call (id : N) : call :=
  mkCall None false no_faults ((1, id) : @World Example.messaging) [] (Opaque "").

Definition example_options : list (@ExecuteCommandOption Example.messaging unit) :=
  [IdempotencyKeyOption "k"].

(** A stream of 101 events that were caused by command 1; the last is of type 6. *)
Definition example_row (n : nat) : EventRow :=
  let ty := if decide (n = 100%nat) then 6%N else 5%N in
  let data := match Example.marshal (event 1 (Z.of_nat n) ty) with inr d => d | inl _ => "" end in
  mkEventRow (N.of_nat n) 1 ty data 1 (Z.of_nat n) None None.

Definition example_events : DB :=
  set_events (set_streams empty_db {[1%N := 101]}) (example_row <$> seq 0 101).

Definition row_message (r : EventRow) : N := ev_type_id r.

(** Whether a row decodes to the message of its type. *)
Definition row_ok (r : EventRow) : bool :=
  match Example.unmarshal (ev_envelope r) with
  | inr env => bool_decide (type_of env = row_message r)
  | inl _ => false
  end.

Lemma row_ok_decodes rows :
  forallb row_ok rows = true -> Forall2 (decodes (H := Example.messaging)) rows (row_message <$> rows).
Proof.
  induction rows as [|r rows IH]; cbn; [constructor|]. intros [Hr Hrows]%andb_prop.
  constructor; [|by apply IH]. unfold row_ok in Hr. cbn in Hr.
  destruct (Example.unmarshal (ev_envelope r)) as [|env] eqn:Hu; [done|].
  apply bool_decide_eq_true in Hr. exists env. split; [done|]. cbn. by rewrite Hr.
Qed.
End example.

Lemma ExecuteCommand_idempotent_witness :
  exists db1 db2, ExecuteCommand (H := Example.messaging) example_engine (example_call 1) 8%N
      example_options tt empty_db = Ret (tt, None, db1) /\
    ExecuteCommand (H := Example.messaging) example_engine (example_call 2) 8%N
      example_options tt db1 = Ret (tt, None, db2) /\
    size (commands db1) = 1%nat /\ db2 = db1.
Proof.
  eexists. eexists. split; [vm_compute; reflexivity|]. split; [vm_compute; reflexivity|].
  split; [vm_compute; reflexivity|].
  match goal with |- ?db2 = ?db1 =>
    refine (proj2 (ExecuteCommand_idempotent (H := Example.messaging) example_engine (example_call 1)
      (example_call 2) 8%N 8%N example_options example_options "k" tt tt tt tt None empty_db db1
      db1 db2 _ _ _ _ _ _ _))
  end; try (vm_compute; reflexivity).
  - discriminate.
  - reflexivity.
Defined.

(** The 101st event is never observed. *)
Lemma waitForEvents_sees_one_page_witness :
  existsb (fun r => bool_decide (ev_type_id r = 6%N)) (events example_events) = true /\
  waitForEvents (H := Example.messaging)
    (replicate 40 (mkPoll example_events None None)) (Sentinel DeadlineExceeded) 1 {[5%N; 6%N]}
    [stateless (H := Example.messaging) (fun m => bool_decide (m = 6%N))] tt
  = Ret (tt, Some (Sentinel DeadlineExceeded)).
Proof.
  split; [vm_compute; reflexivity|].
  destruct (waitForEvents_sees_one_page (H := Example.messaging)
    (replicate 40 (mkPoll example_events None None)) (replicate 40 (replicate 100 5%N))
    (Sentinel DeadlineExceeded) 1 {[5%N; 6%N]} (fun m => bool_decide (m = 6%N)) tt) as [-> _].
  - apply Forall2_replicate. split; [reflexivity|]. split; [reflexivity|].
    replace (replicate 100 5%N)
      with (row_message <$> poll_rows ∅ 1 {[5%N; 6%N]} (view (mkPoll example_events None None)))
      by (vm_compute; reflexivity).
    apply row_ok_decodes. vm_compute. reflexivity.
  - reflexivity.
Defined.
