(* ===== verification/Consumer.v ===== *)
(** * Consumers of event streams

    Models [internal/eventstream/consumer.go], with the interface of
    [internal/eventstream/sink.go]: the reconciliation of the stream consumers of a
    node with the streams of the catalog and the membership of the cluster, and
    the supervised function of a stream consumer, which feeds the segments of a
    stream to a sink.

    The consumer is proved correct against [SinkSpec], what a sink promises; the
    sink of a process handler satisfies it. *)

From S2P Require Import Prelude Errors Stream Source Database.
From S2P Require Feed Catalog Cluster Supervisor Handler Process.
Import Feed (outcome, Running, Returned).
Import Catalog (round, round_ok).

(** ** Sinks *)

(** eventstream.Sink; [St] is the state behind the sink, and what happens to it
    between the calls. *)
Class Sink (St : Type) := {
  Workload : UUID -> UUID;
  EventTypeIDs : gset UUID;
  CheckpointOffset : UUID -> St -> St * (error + Z);
  ConsumeSegment : Z -> Segment -> St -> St * (Z * bool * option error);
}.

(** What a sink promises for a stream with the given history.  [good] are the
    states in which every event was handled as it should be, [progress] is how far
    the stream was handled, and [reaches cp b] that the sink, with checkpoint [cp],
    may be given the events from [b].  An error that the consumer does not return is
    one that says that the feed was closed. *)
Record SinkSpec (St : Type) `{Sink St} (sid : UUID) (h : list Envelope) := mkSinkSpec {
  good : St -> Prop;
  progress : St -> Z;
  reaches : Z -> Z -> Prop;
  reaches_refl cp : reaches cp cp;
  CheckpointOffset_spec st st' r :
    good st -> CheckpointOffset sid st = (st', r) ->
    good st' /\ progress st <= progress st' /\
    forall cp, r = inr cp -> 0 <= cp <= progress st';
  ConsumeSegment_spec st cp seg st' r ok err :
    good st -> seg_stream seg = sid -> faithful h (Some EventTypeIDs) seg -> 0 <= seg_begin seg ->
    0 <= cp <= progress st -> reaches cp (seg_begin seg) ->
    ConsumeSegment cp seg st = (st', (r, ok, err)) ->
    good st' /\ progress st <= progress st' /\ 0 <= r <= progress st' /\
    (ok = true -> err = None -> reaches r (seg_end seg)) /\
    (IsOpt err errFeedClosed = true -> reaches r (seg_begin seg));
}.
Arguments good {St _ sid h}.
Arguments progress {St _ sid h}.
Arguments reaches {St _ sid h}.

Section consumer.
Context `{Cluster.Rendezvous}.
Context {St : Type} `{!Sink St}.

(** ** A stream consumer *)

(** The callback that the supervised function gives to [Catalog.Consume]; its state
    includes the variable [cp]. *)
Definition consume_callback : callback (St * Z) := fun '(st, cp) seg =>
  match ConsumeSegment cp seg st with
  | (st', (cp', _, Some err)) => ((st', cp'), Some (Persistent err))
  | (st', (cp', false, None)) => ((st', cp'), Some (Opaque "checkpoint conflict on event stream"))
  | (st', (cp', true, None)) => ((st', cp'), None)
  end.

(** What one call of the supervised function meets: whether the catalog knows the
    stream, what [Catalog.Consume] observes, and the times and cancelations that
    the supervisor sees. *)
Record attempt := mkAttempt {
  at_known : bool;
  at_rounds : list round;
  at_ctx_err : option error;
  at_elapsed : Z;
  at_rand : Z;
  at_canceled : option error;
}.

(** The supervised function: it returns an error, or is still consuming. *)
Definition consume_stream (a : attempt) (sid : UUID) (st : St) : go (St * option error) :=
  match CheckpointOffset sid st with
  | (st, inl err) => Ret (st, Some (Persistent err))
  | (st, inr cp) =>
      o ← Catalog.Consume (at_known a) sid EventTypeIDs (at_rounds a) cp consume_callback (st, cp);
      match o with
      | Running (st, _) _ _ => Ret (st, None)
      | Returned (st, _) _ err => Ret (st, Some err)
      end
  end.

(** The outcome of the call, as [supervisor.Run] sees it. *)
Definition supervised (a : attempt) (err : error) : Supervisor.attempt :=
  Supervisor.mkAttempt (Some err) (at_ctx_err a) (at_elapsed a) (at_rand a) (at_canceled a).

(** The goroutine of [startStreamConsumer]: [supervisor.Run] of the supervised
    function, where [outcomes] are those of the attempts so far.  The result is
    [None] while it is consuming or waiting to retry.  (This is outside of tests, in which
    [PanicOnDeadlock] panics.) *)
Fixpoint run_stream (attempts : list attempt) (outcomes : list Supervisor.attempt) (sid : UUID)
    (st : St) : go (St * option (option error)) :=
  match attempts with
  | [] => Ret (st, None)
  | a :: attempts' =>
      r ← consume_stream a sid st;
      match r with
      | (st, None) => Ret (st, None)
      | (st, Some err) =>
          let outcomes := outcomes ++ [supervised a err] in
          s ← Supervisor.Run false outcomes None;
          match s with
          | (Supervisor.Return err, _) => Ret (st, Some err)
          | (Supervisor.Retrying, _) => run_stream attempts' outcomes sid st
          end
      end
  end.

(** What the goroutine returns to the errgroup; [ctx_err] is ctx's error then. *)
Definition startStreamConsumer (attempts : list attempt) (ctx_err : option sentinel) (sid : UUID)
    (st : St) : go (St * option (option error)) :=
  r ← run_stream attempts [] sid st;
  match r with
  | (st, None) => Ret (st, None)
  | (st, Some err) =>
      match ctx_err with
      | Some c => if IsOpt err c then Ret (st, Some None) else Ret (st, Some err)
      | None => Ret (st, Some err)
      end
  end.

(** ** Reconciliation *)

(** What is done with stream consumers, in order. *)
Inductive action : Type := Start (sid : UUID) | Stop (sid : UUID).

(** The streams of [stopStreamConsumer], and the actions so far. *)
Record Consumer := mkConsumer { running : gset UUID; actions : list action }.

(** The first loop: the streams that the node is responsible for. *)
Fixpoint responsible_for (m : option Cluster.Membership) (ids : list UUID) (responsible : gset UUID)
    : gset UUID :=
  match ids with
  | [] => responsible
  | id :: ids' =>
      responsible_for m ids'
        (if Cluster.LocalNodeIsResponsibleFor m (Workload id) then {[id]} ∪ responsible
         else responsible)
  end.

(** The second loop, and [stopping.Wait]. *)
Fixpoint stop_others (responsible : gset UUID) (ids : list UUID) (c : Consumer) : Consumer :=
  match ids with
  | [] => c
  | id :: ids' =>
      stop_others responsible ids'
        (if decide (id ∉ responsible) then
           mkConsumer (running c ∖ {[id]}) (actions c ++ [Stop id])
         else c)
  end.

(** The third loop. *)
Fixpoint start_missing (ids : list UUID) (c : Consumer) : Consumer :=
  match ids with
  | [] => c
  | id :: ids' =>
      start_missing ids'
        (if decide (id ∉ running c) then
           mkConsumer ({[id]} ∪ running c) (actions c ++ [Start id])
         else c)
  end.

Definition reconcile (streamIDs : gset UUID) (m : option Cluster.Membership) (c : Consumer)
    : Consumer :=
  let responsible := responsible_for m (elements streamIDs) ∅ in
  start_missing (elements responsible) (stop_others responsible (elements (running c)) c).

(** The loop of [Run], for the values of the observables at each iteration. *)
Fixpoint Run (observed : list (gset UUID * option Cluster.Membership)) (c : Consumer) : Consumer :=
  match observed with
  | [] => c
  | (streamIDs, m) :: observed' => Run observed' (reconcile streamIDs m c)
  end.

(** ** Delivery to a sink *)

(** Delivery keeps whatever the callback keeps: [I] while it goes on, and [J] when it
    ends with an error of the callback. *)
Section keeps.
Context {S : Type} (sid : UUID) (h : list Envelope) (types : gset UUID) (fn : callback S).
Context (I : S -> Z -> Prop) (J : S -> Prop) (HJ : forall s b, I s b -> J s).
Context (Hfn : forall s b seg s' e,
  seg_stream seg = sid -> faithful h (Some types) seg -> seg_begin seg = b -> 0 <= b -> I s b ->
  fn s seg = (s', e) ->
  match e with
  | None => I s' (seg_end seg)
  | Some e => J s' /\ (Is e errFeedClosed = true -> I s' b)
  end).

Lemma progressed_keeps begin s s' cp err :
  progressed sid h (Some types) begin fn s s' cp err -> 0 <= begin -> I s begin ->
  0 <= cp /\ J s' /\ (IsOpt err errFeedClosed = true -> I s' cp).
Proof using HJ Hfn.
  intros (segs & s1 & Hc & Hd & Hr) Hb Hi.
  assert (I s1 cp /\ 0 <= cp) as [Hi1 Hcp].
  { clear Hr. revert s Hd Hi. induction Hc as [b|b seg segs e Hs Hbeg Hf Hc IH]; intros s Hd Hi.
    { cbn in Hd. injection Hd as <-. done. }
    cbn in Hd. destruct (fn s seg) as [s2 [e2|]] eqn:Hs2; [done|].
    pose proof (Hfn s b seg s2 None Hs Hf Hbeg Hb Hi Hs2) as Hi2.
    eapply IH; [|exact Hd|done]. destruct Hf. lia. }
  destruct Hr as [->|(seg & e & -> & Hf & Hs & Hbeg & Hfa)]; [by split_and!; eauto|].
  destruct (Hfn s1 cp seg s' (Some e) Hs Hfa Hbeg Hcp Hi1 Hf). by split_and!.
Qed.

Lemma Consume_loop_keeps rounds :
  Forall (round_ok sid h types) rounds ->
  forall s cp, 0 <= cp -> I s cp -> exists o, Catalog.Consume_loop sid types rounds fn s cp = Ret o /\
    match o with Running s' _ _ | Returned s' _ _ => J s' end.
Proof using HJ Hfn.
  induction 1 as [|r rounds Hr Hrs IH]; intros s cp Hcp Hi; cbn.
  { eexists. split; [done|]. by eapply HJ. }
  destruct (Catalog.r_current r) as [carried|] eqn:Hcur; [|eexists; split; [done|by eapply HJ]].
  destruct (Hr carried Hcur) as [Hcov Hturns]. rewrite (Catalog.unwatched_covers _ _ Hcov).
  destruct (Feed.consume_loop_ok sid h carried types Hcov fn (Catalog.r_turns r) Hturns s cp false)
    as (o & Ho & Hok). unfold Feed.consume. rewrite Ho. cbn.
  destruct o as [s1 cp1 b|s1 cp1 e]; cbn in Hok;
    destruct (progressed_keeps _ _ _ _ _ Hok Hcp Hi) as (Hcp1 & Hj & Hclosed); [by eexists|].
  destruct (Is e errFeedClosed) eqn:He; [|by eexists].
  destruct (Catalog.r_ctx_err r); [by eexists|]. apply IH; [done|by apply Hclosed].
Qed.
End keeps.

Section spec.
Context (sid : UUID) (h : list Envelope) (spec : SinkSpec St sid h).

(** Between two segments: the sink is good, and its checkpoint reaches the offset
    that is read next. *)
Definition consuming (s : St * Z) (b : Z) : Prop :=
  good spec s.1 /\ 0 <= s.2 <= progress spec s.1 /\ reaches spec s.2 b.

Lemma consume_callback_ok s b seg s' e :
  seg_stream seg = sid -> faithful h (Some EventTypeIDs) seg -> seg_begin seg = b -> 0 <= b ->
  consuming s b -> consume_callback s seg = (s', e) ->
  match e with
  | None => consuming s' (seg_end seg)
  | Some e => good spec s'.1 /\ (Is e errFeedClosed = true -> consuming s' b)
  end.
Proof.
  intros Hs Hf Hbeg Hb (Hg & Hcp & Hr). destruct s as [st cp]. unfold consume_callback.
  destruct (ConsumeSegment cp seg st) as [st' [[r ok] err]] eqn:Hc. subst b.
  destruct (ConsumeSegment_spec _ _ _ spec _ _ _ _ _ _ _ Hg Hs Hf Hb Hcp Hr Hc)
    as (Hg' & _ & Hr' & Hok & Hclosed).
  destruct err as [err|]; [|destruct ok]; [destruct ok; intros [= <- <-]|intros [= <- <-]..].
  1, 2: split; [done|]; intros Hi; split_and!; try done; [apply Hr'..|]; by apply Hclosed.
  - split_and!; try done; [apply Hr'..|]. by apply Hok.
  - done.
Qed.

Lemma consume_stream_good a st :
  EventTypeIDs <> ∅ -> Forall (round_ok sid h EventTypeIDs) (at_rounds a) -> good spec st ->
  exists st' err, consume_stream a sid st = Ret (st', err) /\ good spec st'.
Proof.
  intros Hne Hr Hg. unfold consume_stream.
  destruct (CheckpointOffset sid st) as [st1 r] eqn:Hc.
  destruct (CheckpointOffset_spec _ _ _ spec _ _ _ Hg Hc) as (Hg1 & _ & Hcp).
  destruct r as [err|cp]; [by eexists _, _|]. specialize (Hcp cp eq_refl).
  unfold Catalog.Consume. rewrite decide_False by done.
  destruct (at_known a); [|by eexists _, _].
  assert (Hi : consuming (st1, cp) cp) by (split_and!; [done|cbn; lia..|apply reaches_refl]).
  destruct (Consume_loop_keeps sid h EventTypeIDs consume_callback consuming (fun s => good spec s.1)
    (fun s b Hs => proj1 Hs) consume_callback_ok (at_rounds a) Hr (st1, cp) cp ltac:(lia) Hi)
    as (o & -> & Ho). cbn.
  destruct o as [[st' cp'] b' c|[st' cp'] b' err]; by eexists _, _.
Qed.

Lemma run_stream_good attempts outcomes st :
  EventTypeIDs <> ∅ -> Forall (fun a => Forall (round_ok sid h EventTypeIDs) (at_rounds a)) attempts ->
  good spec st ->
  exists st' r, run_stream attempts outcomes sid st = Ret (st', r) /\ good spec st'.
Proof.
  intros Hne Ha. revert outcomes st. induction Ha as [|a attempts Ha Has IH]; intros outcomes st Hg; cbn.
  { by eexists _, _. }
  destruct (consume_stream_good a st Hne Ha Hg) as (st1 & err & -> & Hg1). cbn.
  destruct err as [err|]; [|by eexists _, _].
  destruct (Supervisor.Run_production (outcomes ++ [supervised a err])) as (res & s & Hrun).
  rewrite Hrun. cbn. destruct res; [by eexists _, _|by apply IH].
Qed.
End spec.

(** ** Reconciliation *)

Lemma responsible_for_spec m ids acc id :
  id ∈ responsible_for m ids acc <->
  id ∈ acc \/ (id ∈ ids /\ Cluster.LocalNodeIsResponsibleFor m (Workload id) = true).
Proof.
  revert acc. induction ids as [|i ids IH]; intros acc; cbn.
  { rewrite elem_of_nil. tauto. }
  rewrite IH, elem_of_cons. destruct (Cluster.LocalNodeIsResponsibleFor m (Workload i)) eqn:E.
  - rewrite elem_of_union, elem_of_singleton. naive_solver.
  - naive_solver congruence.
Qed.

Lemma stop_others_spec responsible ids c :
  NoDup ids ->
  running (stop_others responsible ids c) = running c ∖ (list_to_set ids ∖ responsible) /\
  actions (stop_others responsible ids c)
    = actions c ++ (Stop <$> filter (fun id => id ∉ responsible) ids).
Proof.
  intros Hnd. revert c. induction Hnd as [|id ids Hid Hnd IH]; intros c; cbn [stop_others start_missing].
  { rewrite filter_nil, app_nil_r. split; [|done]. set_solver. }
  destruct (IH (if decide (id ∉ responsible) then
     mkConsumer (running c ∖ {[id]}) (actions c ++ [Stop id]) else c)) as [-> ->].
  rewrite filter_cons, list_to_set_cons. destruct (decide (id ∉ responsible)) as [Hn|Hn]; cbn [running actions].
  - split; [set_solver|]. by rewrite <- app_assoc.
  - split; [|done]. apply dec_stable in Hn. set_solver.
Qed.

Lemma start_missing_spec ids c :
  NoDup ids ->
  running (start_missing ids c) = list_to_set ids ∪ running c /\
  actions (start_missing ids c) = actions c ++ (Start <$> filter (fun id => id ∉ running c) ids).
Proof.
  intros Hnd. revert c. induction Hnd as [|id ids Hid Hnd IH]; intros c; cbn [stop_others start_missing].
  { rewrite filter_nil, app_nil_r. split; [|done]. set_solver. }
  destruct (IH (if decide (id ∉ running c) then
     mkConsumer ({[id]} ∪ running c) (actions c ++ [Start id]) else c)) as [-> ->].
  rewrite filter_cons, list_to_set_cons. destruct (decide (id ∉ running c)) as [Hn|Hn]; cbn [running actions].
  - split; [set_solver|]. rewrite <- app_assoc. do 2 f_equal. cbn. do 2 f_equal.
    apply Stream.filter_ext_elem. intros x Hx. assert (x <> id) by (by intros ->). set_solver.
  - split; [|done]. apply dec_stable in Hn. set_solver.
Qed.

(** The streams that the node is responsible for. *)
Definition responsibilities (streamIDs : gset UUID) (m : option Cluster.Membership) : gset UUID :=
  filter (fun id => Cluster.LocalNodeIsResponsibleFor m (Workload id) = true) streamIDs.

Lemma reconcile_spec streamIDs m c :
  let r := responsibilities streamIDs m in
  running (reconcile streamIDs m c) = r /\
  exists stops starts,
    actions (reconcile streamIDs m c) = actions c ++ (Stop <$> stops) ++ (Start <$> starts) /\
    NoDup stops /\ NoDup starts /\
    (forall id, id ∈ stops <-> id ∈ running c ∖ r) /\ (forall id, id ∈ starts <-> id ∈ r ∖ running c).
Proof.
  intros r. assert (Hr : responsible_for m (elements streamIDs) ∅ = r).
  { apply set_eq. intros id. rewrite responsible_for_spec. unfold r, responsibilities.
    rewrite elem_of_filter, elem_of_elements. set_solver. }
  unfold reconcile. rewrite Hr. clearbody r. clear Hr.
  destruct (stop_others_spec r (elements (running c)) c (NoDup_elements _)) as [Hs Hsa].
  destruct (start_missing_spec (elements r) (stop_others r (elements (running c)) c)
    (NoDup_elements _)) as [Ht Hta].
  rewrite Ht, Hta, Hs, Hsa, !list_to_set_elements_L. split.
  { apply set_eq. intros id. destruct (decide (id ∈ r)); set_solver. }
  eexists _, _. split; [by rewrite <- app_assoc|].
  split_and!; [apply NoDup_filter, NoDup_elements|apply NoDup_filter, NoDup_elements| |];
    intros id; rewrite list_elem_of_filter, elem_of_elements; [set_solver|].
  destruct (decide (id ∈ r)); set_solver.
Qed.
End consumer.

(** ** The sink of a process handler *)

Section process_sink.
Context `{Process.ProcessMessageHandler}.
Context (key : UUID) (outbound types : gset UUID) (workload : UUID -> UUID).

(** What one call of the sink meets: what the other transactions do before the
    checkpoint is queried and the outcome of the query, or the turns of the
    transactions of a segment. *)
Record call := mkCall {
  before : DB -> DB;
  query_err : option error;
  turns : nat -> Process.turn;
}.

Context (calls : nat -> call).

(** [Process.Sink]; the state is the number of calls made and the database.  A panic
    ends the program: [process_sink_never_panics]. *)
#[local] Instance process_sink : Sink (nat * DB) := {|
  Workload := workload;
  EventTypeIDs := types;
  CheckpointOffset sid '(n, db) :=
    let db := before (calls n) db in
    ((S n, db), Process.CheckpointOffset key (query_err (calls n)) sid db);
  ConsumeSegment cp seg '(n, db) :=
    match Process.ConsumeSegment key outbound (turns (calls n)) cp seg db with
    | Ret (r, ok, err, db') => ((S n, db'), (r, ok, err))
    | Panic v => ((S n, db), (cp, false, Some (PanicError v)))
    end;
|}.

Context (sid : UUID) (h : list Envelope) (E : relation DB) (e_h : Z).
Context (Hh : in_range sid 0 e_h h) (Hmax : e_h < 2 ^ 63).

(** What the rest of the engine and every other node do between this consumer's
    transactions is a history of transactions [E], which keep the checkpoint, and of the
    steps of other such consumers. *)
Definition calls_ok : Prop := forall n,
  Process.turns_ok key outbound sid h (Some types) E (turns (calls n)) /\
  forall db log, Process.applied key sid h (Some types) db log ->
    exists log', rtc (Process.apply_step key outbound sid h (Some types) E) (db, log)
      (before (calls n) db, log').

Context (Hcalls : calls_ok).
Context (db0 : DB) (log0 : list Envelope) (H0' : Process.applied key sid h (Some types) db0 log0).

(** The database has a history of transactions that apply each event once. *)
Definition process_good (s : nat * DB) : Prop :=
  exists log, rtc (Process.apply_step key outbound sid h (Some types) E) (db0, log0) (s.2, log).

Lemma process_good_applied n db :
  process_good (n, db) ->
  exists log, rtc (Process.apply_step key outbound sid h (Some types) E) (db0, log0) (db, log) /\
    Process.applied key sid h (Some types) db log.
Proof using Hh H0'.
  intros [log Hs]. exists log. split; [done|].
  by destruct (Process.apply_steps_applied key outbound sid h (Some types) E 0 e_h Hh _ _ Hs H0').
Qed.

Lemma process_sink_never_panics n db cp seg :
  process_good (n, db) -> seg_stream seg = sid -> faithful h (Some types) seg ->
  0 <= seg_begin seg <= cp -> cp <= Process.checkpoint key sid db ->
  exists r ok err db', Process.ConsumeSegment key outbound (turns (calls n)) cp seg db
      = Ret (r, ok, err, db') /\ process_good (S n, db') /\
    Process.checkpoint key sid db <= Process.checkpoint key sid db' /\
    cp <= r <= Process.checkpoint key sid db' /\
    (ok = true -> err = None -> seg_end seg <= r).
Proof using Hh Hmax Hcalls H0'.
  intros (log & Hs & Ha)%process_good_applied Hseg [Hle Hf] Hb Hcp. destruct (Hcalls n) as [Ht _].
  destruct (Process.ConsumeSegment_loop_applies key outbound sid h (Some types) E 0 e_h Hh (seg_end seg)
    (seg_envelopes seg) (turns (calls n)) (seg_begin seg) cp db log Ht ltac:(lia) Hle Hmax Hf Ha Hcp)
    as ([[[r ok] err] db'] & Hr & (log' & Hs') & Hrr & Hok).
  exists r, ok, err, db'. unfold Process.ConsumeSegment. rewrite Hseg. split; [done|].
  destruct (Process.apply_steps_applied key outbound sid h (Some types) E 0 e_h Hh _ _ Hs' Ha) as [_ Hmono].
  split_and!; [exists log'; by etrans|done|lia|lia|]. intros Hok' _. destruct (Hok Hok') as (_ & -> & _). lia.
Qed.

(** The process sink keeps the promise of a sink. *)
Definition process_sink_spec : SinkSpec (nat * DB) sid h.
Proof using Hh Hmax Hcalls H0'.
  refine (mkSinkSpec _ _ sid h process_good (fun s => Process.checkpoint key sid s.2)
    (fun cp b => b <= cp) (fun cp => Z.le_refl cp) _ _).
  - intros [n db] st' r (log & Hs & Ha)%process_good_applied. cbn. intros [= <- <-].
    destruct (Hcalls n) as [_ Hb]. destruct (Hb db log Ha) as [log' Hs'].
    destruct (Process.apply_steps_applied key outbound sid h (Some types) E 0 e_h Hh _ _ Hs' Ha)
      as [[Hpos _] Hmono]. split_and!; [exists log'; by etrans|done|].
    intros cp. unfold Process.CheckpointOffset. destruct (query_err (calls n)); [done|].
    intros [= <-]. cbn in *. unfold Process.checkpoint in *.
    destruct (checkpoints (before (calls n) db) !! (key, sid)); cbn in *; lia.
  - intros [n db] cp seg st' r ok err Hg Hseg Hf Hb Hcp Hr Hc.
    destruct (process_sink_never_panics n db cp seg Hg Hseg Hf ltac:(lia) ltac:(apply Hcp))
      as (r' & ok' & err' & db' & Hret & Hg' & Hmono & Hrr & Hok).
    cbn in Hc. rewrite Hret in Hc. injection Hc as <- <- <- <-.
    split_and!; try done; cbn; lia.
Defined.
End process_sink.

(** ** Properties *)

(** C3: end to end, for a process handler: whatever the catalog's feeds observe,
    however often consumption of a stream fails and is retried, whatever the consumers of
    other nodes do and whatever transactions [E] the rest of the engine commits in the
    meantime, a stream consumer does not panic, and the database that it leaves has a
    history that consists of nothing but transactions of [E], checkpoints past ranges
    without events, and for each event of the stream that is routed to the handler, up to
    the checkpoint, in order and exactly once, all of the event's effects (commands
    queued, the instance's state, its deadlines, its end) in one transaction with the
    checkpoint. *)
Theorem stream_consumer_is_exactly_once `{Process.ProcessMessageHandler} key outbound types workload
    calls sid h E e_h db log attempts ctx_err :
  let sink := process_sink key outbound types workload calls in
  in_range sid 0 e_h h -> e_h < 2 ^ 63 -> types <> ∅ ->
  calls_ok key outbound types calls sid h E ->
  Forall (fun a => Forall (round_ok sid h types) (at_rounds a)) attempts ->
  Process.applied key sid h (Some types) db log ->
  exists n db' r log', startStreamConsumer attempts ctx_err sid (O, db) = Ret ((n, db'), r) /\
    rtc (Process.apply_step key outbound sid h (Some types) E) (db, log) (db', log') /\
    log' = between (Some types) 0 (Process.checkpoint key sid db') h.
Proof.
  intros sink Hh Hmax Hne Hcalls Ha Happ.
  set (spec := process_sink_spec key outbound types workload calls sid h E e_h Hh Hmax Hcalls db log Happ).
  destruct (run_stream_good sid h spec attempts [] (O, db) Hne Ha) as ([n db'] & r & Hr & Hg).
  { exists log. apply rtc_refl. }
  destruct (process_good_applied key outbound types sid h E e_h Hh db log Happ n db' Hg)
    as (log' & Hs & _ & Hlog).
  subst sink. unfold startStreamConsumer. rewrite Hr. cbn.
  destruct r as [r|]; [|by exists n, db', None, log'].
  destruct ctx_err as [c|]; [destruct (IsOpt r c)|]; by eexists n, db', _, log'.
Qed.

(** If the nodes of a cluster agree on who is live and on the streams, then
    after they have reconciled every stream is consumed by exactly one of them,
    whatever they consumed before. *)
Theorem streams_are_partitioned `{Cluster.Rendezvous} `{Sink St} (live streamIDs : gset UUID)
    (before : UUID -> Consumer) sid :
  live <> ∅ ->
  let after n := reconcile streamIDs (Cluster.view n live) (before n) in
  (sid ∈ streamIDs -> exists n, n ∈ live /\ sid ∈ running (after n) /\
     forall n', sid ∈ running (after n') -> n' = n) /\
  (sid ∉ streamIDs -> forall n, sid ∉ running (after n)).
Proof.
  intros Hne after.
  assert (Hin : forall n, sid ∈ running (after n) <->
    sid ∈ streamIDs /\ Cluster.LocalNodeIsResponsibleFor (Cluster.view n live) (Workload sid) = true).
  { intros n. unfold after. destruct (reconcile_spec streamIDs (Cluster.view n live) (before n)) as [-> _].
    unfold responsibilities. rewrite elem_of_filter. tauto. }
  split; [|intros Hno n; rewrite Hin; tauto]. intros Hs.
  destruct (Cluster.preferred_exists (Workload sid) live Hne) as (n & Hn & Hp).
  exists n. rewrite Hin. split_and!; [done|done|by apply Cluster.responsible_iff|].
  intros n' [_ [Hn' Hp']%Cluster.responsible_iff]%Hin.
  destruct (decide (n' = n)) as [|Hd]; [done|]. exfalso. apply (Cluster.preferred_irrefl (Workload sid) n).
  eapply Cluster.preferred_trans; [by apply Hp|by apply Hp'].
Qed.

(** What a sequence of actions leaves running; [None] if a stream is started while
    it is running, or stopped while it is not. *)
Fixpoint replay (running : gset UUID) (acts : list action) : option (gset UUID) :=
  match acts with
  | [] => Some running
  | Start sid :: acts' => if decide (sid ∈ running) then None else replay ({[sid]} ∪ running) acts'
  | Stop sid :: acts' => if decide (sid ∈ running) then replay (running ∖ {[sid]}) acts' else None
  end.

Lemma replay_app acts1 acts2 r :
  replay r (acts1 ++ acts2) = replay r acts1 ≫= fun r' => replay r' acts2.
Proof.
  revert r. induction acts1 as [|[sid|sid] acts1 IH]; intros r; cbn; [done|..]; case_decide; auto.
Qed.

Lemma replay_stops stops r :
  NoDup stops -> (forall sid, sid ∈ stops -> sid ∈ r) ->
  replay r (Stop <$> stops) = Some (r ∖ list_to_set stops).
Proof.
  intros Hnd. revert r. induction Hnd as [|sid stops Hsid Hnd IH]; intros r Hin; cbn -[list_to_set].
  { f_equal. set_solver. }
  rewrite decide_True by (apply Hin; left). rewrite IH by set_solver. f_equal. set_solver.
Qed.

Lemma replay_starts starts r :
  NoDup starts -> (forall sid, sid ∈ starts -> sid ∉ r) ->
  replay r (Start <$> starts) = Some (list_to_set starts ∪ r).
Proof.
  intros Hnd. revert r. induction Hnd as [|sid starts Hsid Hnd IH]; intros r Hin; cbn -[list_to_set].
  { f_equal. set_solver. }
  rewrite decide_False by (apply Hin; left). rewrite IH by set_solver. f_equal. set_solver.
Qed.

Lemma reconcile_replay `{Cluster.Rendezvous} `{Sink St} streamIDs m c r0 :
  replay r0 (actions c) = Some (running c) ->
  replay r0 (actions (reconcile streamIDs m c)) = Some (running (reconcile streamIDs m c)).
Proof.
  intros Hc. destruct (reconcile_spec streamIDs m c)
    as [-> (stops & starts & -> & Hn1 & Hn2 & Hstops & Hstarts)].
  set (r := responsibilities streamIDs m) in *. clearbody r.
  rewrite replay_app, Hc. cbn [mbind option_bind]. rewrite replay_app.
  rewrite replay_stops by (done || set_solver). cbn [mbind option_bind].
  rewrite replay_starts by (done || set_solver). f_equal. apply set_eq. intros sid.
  rewrite elem_of_union, elem_of_difference, !elem_of_list_to_set, Hstarts, Hstops.
  destruct (decide (sid ∈ r)), (decide (sid ∈ running c)); set_solver.
Qed.

(** Whatever [Run] observes, a stream consumer is started only when there is
    none for the stream and stopped only when there is one, so a stream is never
    consumed twice at once on a node; and after each iteration the streams that are
    consumed are exactly those observed for which the node is responsible. *)
Theorem Run_reconciles `{Cluster.Rendezvous} `{Sink St} observed streamIDs m :
  let c := Run (observed ++ [(streamIDs, m)]) (mkConsumer ∅ []) in
  replay ∅ (actions c) = Some (running c) /\
  running c = filter (fun sid => Cluster.LocalNodeIsResponsibleFor m (Workload sid) = true) streamIDs.
Proof.
  assert (Hrun : forall obs c, replay ∅ (actions c) = Some (running c) ->
    replay ∅ (actions (Run obs c)) = Some (running (Run obs c))).
  { induction obs as [|[ids m'] obs IH]; intros c Hc; [done|]. cbn. by apply IH, reconcile_replay. }
  assert (Hlast : forall obs c, running (Run (obs ++ [(streamIDs, m)]) c)
      = responsibilities streamIDs m).
  { induction obs as [|[ids m'] obs IH]; intros c; cbn; [apply reconcile_spec|apply IH]. }
  intros c. split; [by apply Hrun|apply Hlast].
Qed.

(** ** Examples *)

(** A first attempt fails to query the checkpoint, a second is closed to it after it
    consumed the stream. *)
Definition example_calls (n : nat) : call (H := Handler.Example.messaging) :=
  mkCall id (if decide (n = O) then Some (Opaque "connection refused") else None)
    (Process.example_turns (100 * (1 + N.of_nat n)) id).

Definition example_attempts : list attempt :=
  [mkAttempt true [] None 0 0 None;
   mkAttempt true
     [Catalog.mkRound (Some None)
        [Feed.mkTurn Feed.example_cs true Feed.example_Read (fun _ => Feed.example_cs) true Feed.Closed;
         Feed.mkTurn Feed.example_cs false Feed.example_Read (fun _ => Feed.example_cs) true Feed.Closed]
        None; Catalog.mkRound None [] None] None 0 0 None].

#[local] Existing Instance Process.counter.

Lemma stream_consumer_is_exactly_once_witness :
  exists n db' log', startStreamConsumer (Sink0 := process_sink 7 Process.example_outbound Feed.example_ts
      id example_calls) example_attempts None 7 (O, empty_db) = Ret ((n, db'), None) /\
    rtc (Process.apply_step (H0 := Process.counter) 7 Process.example_outbound 7 Feed.example_h (Some Feed.example_ts)
      (fun _ _ => False)) (empty_db, []) (db', log') /\
    log' = between (Some Feed.example_ts) 0 (Process.checkpoint 7 7 db') Feed.example_h /\
    length log' = 3%nat /\ size (commands db') = 3%nat.
Proof.
  destruct (stream_consumer_is_exactly_once 7 Process.example_outbound Feed.example_ts id example_calls
    7 Feed.example_h (fun _ _ => False) 5 empty_db [] example_attempts None)
    as (n & db' & r & log' & Hr & Hsteps & Hlog).
  - exact Feed.example_in_range.
  - lia.
  - discriminate.
  - intros n. split.
    + intros k db log _. exists log. apply rtc_refl.
    + intros db log _. exists log. apply rtc_refl.
  - repeat constructor; try discriminate; injection H as <-; try done;
      repeat constructor; try exact Feed.example_held; exact Feed.example_serves.
  - split; [vm_compute; discriminate|reflexivity].
  - exists n, db', log'. pose proof Hr as Hr'. vm_compute in Hr. injection Hr as Hn Hdb <-.
    split; [exact Hr'|]. split; [exact Hsteps|]. split; [exact Hlog|]. rewrite Hlog, <- Hdb.
    split; vm_compute; reflexivity.
Defined.

Lemma streams_are_partitioned_witness :
  exists n, n ∈ ({[1%N; 4%N; 5%N]} : gset UUID) /\
    7%N ∈ running (reconcile (H := Cluster.example_rendezvous)
      (Sink0 := process_sink 7 Process.example_outbound Feed.example_ts id example_calls)
      {[7%N; 8%N]} (Cluster.view n {[1%N; 4%N; 5%N]}) (mkConsumer {[9%N]} [])).
Proof.
  destruct (streams_are_partitioned (H := Cluster.example_rendezvous)
    (H0 := process_sink 7 Process.example_outbound Feed.example_ts id example_calls)
    {[1%N; 4%N; 5%N]} {[7%N; 8%N]} (fun _ => mkConsumer {[9%N]} []) 7) as [Hs _].
  - discriminate.
  - destruct Hs as (n & Hn & Hr & _); [set_solver|]. exists n. split; [exact Hn|exact Hr].
Defined.
