(* ===== verification/Concurrency.v ===== *)
(** * Concurrency preferences

    Models [internal/concurrency/lock.go]: the advisory lock that serializes the
    handling of messages by a handler that prefers to minimize concurrency.

    [EnforceConcurrencyPreference] is the sequence of what it does, the statements that it
    executes and the call of its function ([call]).  [perform] carries it out by itself;
    the steps of [session_step] carry out those of any number of sessions, interleaved. *)

From S2P Require Import Prelude Errors Stream.

(** [dogma.ConcurrencyPreference] *)
Inductive ConcurrencyPreference : Type := MinimizeConcurrency | MaximizeConcurrency.

(** The 64-bit halves of a UUID. *)
Definition GetUpper (id : UUID) : Z := Z.of_N (N.shiftr id 64).
Definition GetLower (id : UUID) : Z := Z.of_N (N.land id (N.ones 64)).

(** [advisoryLockKey] *)
Definition advisoryLockKey (id : UUID) : Z := i64 (Z.lxor (GetUpper id) (GetLower id)).

(** ** The code *)

(** A function that executes statements, each with its outcome, and calls another
    function [fn], which returns an error or nil, or panics. *)
Inductive statement : Type :=
| SelectAdvisoryLock (k : Z)
| SelectAdvisoryUnlock (k : Z).

Inductive call : Type :=
| Finish (r : go (option error))
| ExecContext (q : statement) (k : option error -> call)
| CallFn (k : go (option error) -> call).

(** The deferred function, after [fn] has ended with [r]: a panic is passed on. *)
Definition unlock (lockKey : Z) (r : go (option error)) : call :=
  ExecContext (SelectAdvisoryUnlock lockKey) (fun unlockErr =>
    Finish (match unlockErr, r with
            | Some e, Ret _ => Ret (Some (Wrap "unable to release advisory lock" e))
            | _, _ => r
            end)).

Definition EnforceConcurrencyPreference (key : UUID) (pref : ConcurrencyPreference) : call :=
  match pref with
  | MaximizeConcurrency => CallFn Finish
  | MinimizeConcurrency =>
      let lockKey := advisoryLockKey key in
      ExecContext (SelectAdvisoryLock lockKey) (fun err =>
        match err with
        | Some e => Finish (Ret (Some (Wrap "unable to acquire advisory lock" e)))
        | None => CallFn (unlock lockKey)
        end)
  end.

(** ** Advisory locks *)

(** The locks of all sessions: how often each session holds each key. *)
Abbreviation Locks := (gmap (Z * nat) nat).

Definition holds (l : Locks) (k : Z) (session : nat) : nat := default O (l !! (k, session)).

(** [pg_advisory_lock] returns when no other session holds the key. *)
Definition pg_advisory_lock (k : Z) (session : nat) (l : Locks) : Locks :=
  <[(k, session) := S (holds l k session)]> l.

Definition pg_advisory_unlock (k : Z) (session : nat) (l : Locks) : Locks :=
  <[(k, session) := pred (holds l k session)]> l.

(** No other session holds the key. *)
Definition available (k : Z) (session : nat) (l : Locks) : Prop :=
  forall session', session' <> session -> holds l k session' = O.

(** ** One session by itself *)

(** What a call does, given the outcomes of the two statements and what [fn] does. *)
Fixpoint perform {S} (lock_err unlock_err : option error) (session : nat)
    (fn : Locks -> S -> S * go (option error)) (c : call) (l : Locks) (s : S)
    : Locks * S * go (option error) :=
  match c with
  | Finish r => (l, s, r)
  | ExecContext (SelectAdvisoryLock lockKey) k =>
      perform lock_err unlock_err session fn (k lock_err)
        (match lock_err with None => pg_advisory_lock lockKey session l | Some _ => l end) s
  | ExecContext (SelectAdvisoryUnlock lockKey) k =>
      perform lock_err unlock_err session fn (k unlock_err)
        (match unlock_err with None => pg_advisory_unlock lockKey session l | Some _ => l end) s
  | CallFn k =>
      let '(s, r) := fn l s in
      perform lock_err unlock_err session fn (k r) l s
  end.

Lemma holds_lock k session l session' :
  holds (pg_advisory_lock k session l) k session' =
    if decide (session' = session) then S (holds l k session) else holds l k session'.
Proof.
  unfold pg_advisory_lock, holds. rewrite lookup_insert.
  destruct (decide (session' = session)) as [->|Hne].
  - by rewrite decide_True by done.
  - rewrite decide_False; [done|congruence].
Qed.

Lemma holds_unlock k session l session' :
  holds (pg_advisory_unlock k session l) k session' =
    if decide (session' = session) then pred (holds l k session) else holds l k session'.
Proof.
  unfold pg_advisory_unlock, holds. rewrite lookup_insert.
  destruct (decide (session' = session)) as [->|Hne].
  - by rewrite decide_True by done.
  - rewrite decide_False; [done|congruence].
Qed.

Lemma holds_other_key (k k' : Z) (session session' n : nat) (l : Locks) :
  k' <> k -> holds (<[(k, session) := n]> l) k' session' = holds l k' session'.
Proof. intros Hne. unfold holds. rewrite lookup_insert_ne; [done|congruence]. Qed.

(** The function is called once, while the session holds the lock, its result is returned,
    and the lock is released however it ends. *)
Lemma perform_balanced {S} (session : nat) (key : UUID) (fn : Locks -> S -> S * go (option error)) (l : Locks) (s : S) :
  let '(l', s', r) :=
    perform None None session fn (EnforceConcurrencyPreference key MinimizeConcurrency) l s in
  (forall k x, holds l' k x = holds l k x) /\
  exists l1, fn l1 s = (s', r) /\ holds l1 (advisoryLockKey key) session <> O.
Proof.
  cbn [perform EnforceConcurrencyPreference]. set (k := advisoryLockKey key).
  destruct (fn _ s) as [s' r] eqn:Hf.
  assert (Hl : forall k' x, holds (pg_advisory_unlock k session (pg_advisory_lock k session l)) k' x
    = holds l k' x).
  { intros k' x. destruct (decide (k' = k)) as [->|Hne].
    - rewrite holds_unlock, !holds_lock. rewrite (decide_True (P := session = session)) by done.
      by case_decide; subst.
    - unfold pg_advisory_unlock, pg_advisory_lock. by rewrite !holds_other_key by done. }
  destruct r as [r|v]; cbn [perform unlock]; (split; [exact Hl|]); (eexists; split; [exact Hf|]);
    by rewrite holds_lock, decide_True by done.
Qed.

(** ** Sessions

    The sessions of the cluster's connections, interleaved, with the calls that they are
    in, of any handlers. *)

(** Where a session is in a call: before it goes on with [c], or within [fn]. *)
Inductive position : Type :=
| At (c : call)
| Within (k : go (option error) -> call).

Record sessions := mkSessions { locks : Locks; calls : gmap nat (UUID * position) }.

Section sessions.
Context (pref : UUID -> ConcurrencyPreference).   (* of each handler *)

Inductive session_step : sessions -> sessions -> Prop :=
| session_begin s key l cs :
    cs !! s = None ->
    session_step (mkSessions l cs)
      (mkSessions l (<[s := (key, At (EnforceConcurrencyPreference key (pref key)))]> cs))
| session_lock s key lockKey k l cs :
    cs !! s = Some (key, At (ExecContext (SelectAdvisoryLock lockKey) k)) -> available lockKey s l ->
    session_step (mkSessions l cs)
      (mkSessions (pg_advisory_lock lockKey s l) (<[s := (key, At (k None))]> cs))
| session_unlock s key lockKey k l cs :
    cs !! s = Some (key, At (ExecContext (SelectAdvisoryUnlock lockKey) k)) ->
    session_step (mkSessions l cs)
      (mkSessions (pg_advisory_unlock lockKey s l) (<[s := (key, At (k None))]> cs))
| session_error s key q k e l cs :           (* a statement fails *)
    cs !! s = Some (key, At (ExecContext q k)) ->
    session_step (mkSessions l cs) (mkSessions l (<[s := (key, At (k (Some e)))]> cs))
| session_call s key k l cs :                (* fn is called *)
    cs !! s = Some (key, At (CallFn k)) ->
    session_step (mkSessions l cs) (mkSessions l (<[s := (key, Within k)]> cs))
| session_return s key k r l cs :            (* fn returns, or panics *)
    cs !! s = Some (key, Within k) ->
    session_step (mkSessions l cs) (mkSessions l (<[s := (key, At (k r))]> cs))
| session_finish s key r l cs :
    cs !! s = Some (key, At (Finish r)) ->
    session_step (mkSessions l cs) (mkSessions l (delete s cs))
| session_close s l l' cs :                  (* a connection is closed, and its locks released *)
    cs !! s = None -> (forall k, holds l' k s = O) ->
    (forall k x, x <> s -> holds l' k x = holds l k x) ->
    session_step (mkSessions l cs) (mkSessions l' cs).

(** The sessions that are within the function that a handler serializes. *)
Definition inside (key : UUID) (st : sessions) (s : nat) : Prop :=
  exists k, calls st !! s = Some (key, Within k).

(** *** The invariant *)

(** The positions of a call, for a handler that is serialized; from the call of [fn] until
    the lock is released, the session holds it. *)
Definition position_ok (l : Locks) (s : nat) (key : UUID) (x : position) : Prop :=
  match pref key with
  | MaximizeConcurrency => True
  | MinimizeConcurrency =>
      let lockKey := advisoryLockKey key in
      x = At (EnforceConcurrencyPreference key MinimizeConcurrency) \/
      (exists r, x = At (Finish r)) \/
      (x = At (CallFn (unlock lockKey)) \/ x = Within (unlock lockKey) \/
       exists r, x = At (unlock lockKey r)) /\ holds l lockKey s <> O
  end.

Definition sessions_wf (st : sessions) : Prop :=
  (forall k x y, holds (locks st) k x <> O -> holds (locks st) k y <> O -> x = y) /\
  (forall s key x, calls st !! s = Some (key, x) -> position_ok (locks st) s key x).

Lemma position_ok_locks l l' s key x :
  (forall k, holds l' k s = holds l k s) -> position_ok l s key x -> position_ok l' s key x.
Proof. intros Hl. unfold position_ok. destruct (pref key); [|done]. by rewrite Hl. Qed.

(** A session moves on, and may have acquired or released a lock. *)
Lemma sessions_wf_move l l' cs s key x :
  sessions_wf (mkSessions l cs) ->
  (forall k x y, holds l' k x <> O -> holds l' k y <> O -> x = y) ->
  (forall k y, y <> s -> holds l' k y = holds l k y) -> position_ok l' s key x ->
  sessions_wf (mkSessions l' (<[s := (key, x)]> cs)).
Proof.
  intros [_ Hpos] Hone Hl Hx. split; [done|]. cbn in *.
  intros s' key' x' [[<- [= <- <-]]|[Hne Hs]]%lookup_insert_Some; [done|].
  eapply position_ok_locks; [|by apply Hpos]. intros k. by apply Hl.
Qed.

Lemma one_holder_lock k s l :
  available k s l -> (forall k x y, holds l k x <> O -> holds l k y <> O -> x = y) ->
  forall k' x y, holds (pg_advisory_lock k s l) k' x <> O -> holds (pg_advisory_lock k s l) k' y <> O -> x = y.
Proof.
  intros Hav Hone k' x y. destruct (decide (k' = k)) as [->|Hne].
  - assert (Hs : forall z, holds (pg_advisory_lock k s l) k z <> O -> z = s).
    { intros z. rewrite holds_lock. case_decide; [done|]. by rewrite Hav. }
    intros Hx%Hs Hy%Hs. congruence.
  - unfold pg_advisory_lock. rewrite !holds_other_key by done. apply Hone.
Qed.

Lemma one_holder_unlock k s l :
  (forall k x y, holds l k x <> O -> holds l k y <> O -> x = y) ->
  forall k' x y, holds (pg_advisory_unlock k s l) k' x <> O -> holds (pg_advisory_unlock k s l) k' y <> O -> x = y.
Proof.
  intros Hone k' x y. destruct (decide (k' = k)) as [->|Hne].
  - rewrite !holds_unlock. intros Hx Hy. apply (Hone k); repeat case_decide; subst; lia.
  - unfold pg_advisory_unlock. rewrite !holds_other_key by done. apply Hone.
Qed.

Lemma locks_of_others (k : Z) (s n : nat) (l : Locks) : forall k' y, y <> s -> holds (<[(k, s) := n]> l) k' y = holds l k' y.
Proof. intros k' y Hy. unfold holds. rewrite lookup_insert_ne; [done|congruence]. Qed.

Lemma session_step_wf st st' : sessions_wf st -> session_step st st' -> sessions_wf st'.
Proof.
  intros Hwf Hs. pose proof Hwf as [Hone Hpos].
  destruct Hs as [s key l cs Hn|s key lockKey k l cs Hc Hav|s key lockKey k l cs Hc|s key q k e l cs Hc|
    s key k l cs Hc|s key k r l cs Hc|s key r l cs Hc|s l l' cs Hn Hz Ho]; cbn in *;
    try (specialize (Hpos s key _ Hc); unfold position_ok in Hpos).
  - apply (sessions_wf_move l); try done. unfold position_ok. destruct (pref key); [by left|done].
  - apply (sessions_wf_move l); try done; [by apply one_holder_lock|apply locks_of_others|].
    unfold position_ok. destruct (pref key); [|done].
    destruct Hpos as [[= -> ->]|[[? [=]]|[[[=]|[[=]|[r [=]]]] _]]].
    right; right. split; [by left|]. by rewrite holds_lock, decide_True by done.
  - apply (sessions_wf_move l); try done; [by apply one_holder_unlock|apply locks_of_others|].
    unfold position_ok. destruct (pref key); [|done].
    destruct Hpos as [[=]|[[? [=]]|[[[=]|[[=]|[r [= -> ->]]]] _]]]. right; left. by eexists.
  - apply (sessions_wf_move l); try done. unfold position_ok. destruct (pref key); [|done].
    destruct Hpos as [[= -> ->]|[[? [=]]|[[[=]|[[=]|[r [= -> ->]]]] _]]]; right; left; by eexists.
  - apply (sessions_wf_move l); try done. unfold position_ok. destruct (pref key); [|done].
    destruct Hpos as [[=]|[[? [=]]|[[[= ->]|[[=]|[r [=]]]] Hh]]]. right; right. split; [by right; left|done].
  - apply (sessions_wf_move l); try done. unfold position_ok. destruct (pref key); [|done].
    destruct Hpos as [[=]|[[? [=]]|[[[=]|[[= ->]|[? [=]]]] Hh]]]. right; right. split; [|done]. right; right. by eexists.
  - split; [done|]. cbn. intros s' key' x [_ Hs']%lookup_delete_Some. by apply (proj2 Hwf).
  - split; cbn.
    + intros k x y Hx Hy. apply (Hone k); rewrite <- Ho; try done; intros ->; by rewrite Hz in *.
    + intros s' key' x Hs'. eapply position_ok_locks; [|by apply Hpos]. intros k. apply Ho. congruence.
Qed.

Lemma session_steps_wf st st' : sessions_wf st -> rtc session_step st st' -> sessions_wf st'.
Proof. intros Hwf. induction 1; [done|]. eauto using session_step_wf. Qed.

Lemma empty_sessions_wf : sessions_wf (mkSessions ∅ ∅).
Proof.
  split; cbn; [|by intros s key x; rewrite lookup_empty]. unfold holds. intros k x y. by rewrite lookup_empty.
Qed.
End sessions.

(** ** Properties *)

(** C22: if a handler prefers to minimize concurrency then no two sessions, of any
    node, call it at once: however the statements and calls of all sessions are
    interleaved, whichever of them fail, and whether handlers return or panic, at most one
    session is within the function that [EnforceConcurrencyPreference] was given for the
    handler, and it holds the handler's lock.  A call that meets no failure calls the
    function once, while it holds the lock, returns its result, and leaves all locks as they
    were, also if the function panics. *)
Theorem handlers_are_serialized {S} (pref : UUID -> ConcurrencyPreference) (key : UUID) (st : sessions) (session : nat)
    (fn : Locks -> S -> S * go (option error)) (s : S) :
  pref key = MinimizeConcurrency -> rtc (session_step pref) (mkSessions ∅ ∅) st ->
  (forall x y, inside key st x -> inside key st y -> x = y) /\
  (forall x, inside key st x -> holds (locks st) (advisoryLockKey key) x <> O /\
     available (advisoryLockKey key) x (locks st)) /\
  (let '(l', s', r) := perform None None session fn (EnforceConcurrencyPreference key (pref key)) (locks st) s in
   (forall k x, holds l' k x = holds (locks st) k x) /\
   exists l1, fn l1 s = (s', r) /\ holds l1 (advisoryLockKey key) session <> O).
Proof.
  intros Hpref Hr. destruct (session_steps_wf pref _ _ (empty_sessions_wf pref) Hr) as [Hone Hpos].
  assert (Hheld : forall x, inside key st x -> holds (locks st) (advisoryLockKey key) x <> O).
  { intros x [k Hk]. specialize (Hpos _ _ _ Hk). unfold position_ok in Hpos. rewrite Hpref in Hpos.
    by destruct Hpos as [[=]|[[? [=]]|[_ Hh]]]. }
  split; [|split].
  - intros x y Hx Hy. eapply Hone; by apply Hheld.
  - intros x Hx. split; [by apply Hheld|]. intros y Hne.
    destruct (holds (locks st) (advisoryLockKey key) y) eqn:Hy; [done|]. exfalso. apply Hne.
    apply (Hone (advisoryLockKey key)); [by rewrite Hy|by apply Hheld].
  - rewrite Hpref. apply perform_balanced.
Qed.

(** A session is within the function of handler 9, while another waits for the lock. *)
Lemma handlers_are_serialized_witness :
  exists st, rtc (session_step (fun _ => MinimizeConcurrency)) (mkSessions ∅ ∅) st /\ inside 9 st 2 /\
    is_Some (calls st !! 3%nat) /\ (forall y, inside 9 st y -> y = 2%nat).
Proof.
  set (pref := fun _ : UUID => MinimizeConcurrency).
  set (st := mkSessions (pg_advisory_lock 9 2 ∅)
    (<[2%nat := (9%N, Within (unlock 9))]> (<[2%nat := (9%N, At (CallFn (unlock 9)))]>
      (<[3%nat := (9%N, At (EnforceConcurrencyPreference 9 MinimizeConcurrency))]>
        (<[2%nat := (9%N, At (EnforceConcurrencyPreference 9 MinimizeConcurrency))]> ∅))))).
  assert (Hr : rtc (session_step pref) (mkSessions ∅ ∅) st).
  { eapply rtc_l; [by apply (session_begin pref 2 9 ∅ ∅)|].
    eapply rtc_l; [by apply (session_begin pref 3 9)|].
    eapply rtc_l.
    { eapply (session_lock pref 2 9 9); [reflexivity|]. by intros x _. }
    apply rtc_once. by eapply (session_call pref 2 9). }
  exists st. split; [exact Hr|].
  destruct (handlers_are_serialized (S := unit) pref 9 st 2 (fun _ s => (s, Panic "handler")) tt eq_refl Hr)
    as [Hone _].
  assert (H2 : inside 9 st 2) by (eexists; reflexivity).
  split; [exact H2|]. split; [eexists; reflexivity|]. intros y Hy. exact (Hone y 2%nat Hy H2).
Defined.
