(* ===== verification/Aggregate.v ===== *)
(** * Aggregate message handlers

    Models [internal/aggregate]: the scope through which a handler records events
    ([commandscope.go]), the driver that delivers commands ([commandpump.go]), and
    the SQL functions that complete a command
    ([internal/schema/ddl/20-aggregate/10-funcs.sql]).

    The handler is a parameter: what it does with its scope is a [recording].  The
    main result is that the root that a command is given is always the fold of the
    events that its instance recorded, whatever snapshots there are. *)

From S2P Require Import Prelude Errors Stream Database MessagePump Handler.

(** ** Handlers *)

(** What a handler does with its scope: it records events, each of which changes the
    root, and returns or panics. *)
Inductive recording (Root Msg : Type) : Type :=
| Return
| Panics (v : string)
| CallRecordEvent (event : Msg) (k : Root -> recording Root Msg).
Arguments Return {Root Msg}.
Arguments Panics {Root Msg} v.
Arguments CallRecordEvent {Root Msg} event k.

(** [dogma.AggregateMessageHandler] and [dogma.AggregateRoot].  A snapshot that can be
    unmarshaled restores the root that it was taken of, and an event that was valid
    when it was recorded is valid when it is loaded. *)
Class AggregateMessageHandler `{Messaging} := {
  Root : Type;
  New : go Root;
  RouteCommandToInstance : Message -> go string;
  ApplyEvent : Message -> Root -> go Root;
  MarshalBinary : Root -> go (error + option bytes);
  UnmarshalBinary : bytes -> Root -> go (error + Root);
  HandleCommand : World -> Root -> string -> Message -> recording Root Message;
  snapshots_restore root data fresh root' :
    MarshalBinary root = Ret (inr (Some data)) -> New = Ret fresh ->
    UnmarshalBinary data fresh = Ret (inr root') -> root' = root;
  recorded_events_are_valid m env :
    Validate m true env = Ret None -> Validate m false env = Ret None;
}.

Section aggregate.
Context `{AggregateMessageHandler}.
Context (key : UUID) (OutboundMessageTypes : gset UUID).

(** ** The scope *)

Record commandScope := mkScope { root : Root; packer : EffectPacker }.

Definition RecordEvent (event : Message) (s : commandScope) : go commandScope :=
  if decide (MessageType event ∉ OutboundMessageTypes) then
    Panic "this handler is not configured to record events of this type"
  else
    let '(env, p) := Pack event 0 (packer s) in
    err ← Validate event true env;
    match err with
    | Some _ => Panic "event is invalid"
    | None => r ← ApplyEvent event (root s); Ret (mkScope r p)
    end.

Fixpoint record_events (i : recording Root Message) (s : commandScope) : go (error + commandScope) :=
  match i with
  | Return => Ret (inr s)
  | Panics v => Panic v
  | CallRecordEvent event k => s ← RecordEvent event s; record_events (k (root s)) s
  end.

(** ** Loading an instance *)

Definition routeCommandToInstance (command : Message) : error + string :=
  match Recover (
    iid ← RouteCommandToInstance command;
    if decide (iid = "") then Ret (inl (Opaque "handler returned an empty instance ID"))
    else Ret (inr iid)) with
  | inl _ => inl (Sentinel ErrFailed)
  | inr iid => inr iid
  end.

Definition newRoot : error + Root :=
  match Recover (r ← New; Ret (inr r)) with
  | inl _ => inl (Sentinel ErrFailed)
  | inr r => inr r
  end.

(** The columns of an instance that are loaded: its stream, the offset after its
    snapshot, and the snapshot. *)
Definition loaded (row : AggregateRow) : option UUID * Z * option bytes :=
  (agg_stream row,
   match agg_snapshot_offset row with Some o => o + 1 | None => 0 end,
   agg_snapshot row).

(** The result is [None] if the instance does not exist; [locked] is whether
    another transaction holds its row. *)
Definition tryLockInstance (locked : bool) (iid : string)
    : tx (option (option UUID * Z * option bytes)) := fun db =>
  match aggregates db !! (key, iid) with
  | None => (db, inr None)
  | Some row =>
      if locked then (db, inl (Sentinel ErrBusy)) else (db, inr (Some (loaded row)))
  end.

Definition tryCreateInstance (iid : string) : tx (option UUID * Z * option bytes) :=
  stmt (wrap "unable to insert aggregate instance" (fun db =>
    match aggregates db !! (key, iid) with
    | Some row => inr (loaded row, db)
    | None =>
        if decide (iid = "") then inl (Opaque "violates check constraint")
        else
          let row := mkAggregateRow None None None in
          inr (loaded row, set_aggregates db (<[(key, iid) := row]> (aggregates db)))
    end)).

Definition applySnapshot (r : Root) (snapshot : option bytes) : option Root :=
  match Recover (UnmarshalBinary (default "" snapshot) r) with
  | inl _ => None
  | inr r => Some r
  end.

(** The query of [applyHistoricalEvents]. *)
Definition historical_rows (sid : UUID) (offset : Z) (iid : string) (db : DB) : list EventRow :=
  order_by ev_offset
    (filter (fun r => ev_stream r = sid /\ offset <= ev_offset r /\
                      ev_handler_key r = Some key /\ ev_instance_id r = Some iid) (events db)).

(** The loop of [applyHistoricalEvents]. *)
Fixpoint apply_events (rows : list EventRow) (r : Root) : error + Root :=
  match rows with
  | [] => inr r
  | row :: rows' =>
      match UnpackBytes (ev_envelope row) with
      | inl _ => inl (Sentinel ErrFailed)
      | inr event =>
          match Recover (r ← ApplyEvent event r; Ret (inr r)) with
          | inl _ => inl (Sentinel ErrFailed)
          | inr r => apply_events rows' r
          end
      end
  end.

Definition applyHistoricalEvents (sid : UUID) (offset : Z) (iid : string) (r : Root) : tx Root :=
  fun db => (db, apply_events (historical_rows sid offset iid db) r).

(** A value that was computed without the database. *)
Definition lift {A} (r : error + A) : tx A := fun db => (db, r).

(** The part of [loadInstance] that locks the row or creates it; [race] is what
    other transactions commit between the attempt to lock the instance and the
    attempt to create it, which may wait for them. *)
Definition acquireInstance (locked : bool) (race : DB -> DB) (iid : string)
    : tx (option UUID * Z * option bytes) :=
  existing ← tryLockInstance locked iid;
  match existing with
  | Some x => mret x
  | None => fun db => tryCreateInstance iid (race db)
  end.

(** The part of [loadInstance] that rebuilds the root. *)
Definition restoreInstance (iid : string) (x : option UUID * Z * option bytes)
    : tx (Root * option UUID) :=
  let '(streamID, nextOffset, snapshot) := x in
  r ← lift newRoot;
  match streamID with
  | None => mret (r, None)
  | Some sid =>
      '(r, nextOffset) ←
        (if decide (nextOffset <> 0) then
           match applySnapshot r snapshot with
           | Some r => mret (r, nextOffset)
           | None => r ← lift newRoot; mret (r, 0)
           end
         else mret (r, nextOffset));
      r ← applyHistoricalEvents sid nextOffset iid r;
      mret (r, Some sid)
  end.

Definition loadInstance (locked : bool) (race : DB -> DB) (iid : string)
    : tx (Root * option UUID) :=
  x ← acquireInstance locked race iid;
  restoreInstance iid x.

(** ** Completing a command *)

(** aggregate.complete_without_events *)
Definition complete_without_events (mid : UUID) (iid : string) : sql unit :=
  _ ← modify (fun db =>
        match aggregates db !! (key, iid) with
        | Some (mkAggregateRow None _ _) => set_aggregates db (delete (key, iid) (aggregates db))
        | _ => db
        end);
  commandqueue_remove mid.

(** The check constraint of aggregate.instances. *)
Definition row_valid (row : AggregateRow) : Prop :=
  match agg_stream row, agg_snapshot row with
  | None, _ => agg_snapshot row = None /\ agg_snapshot_offset row = None
  | Some _, None => agg_snapshot_offset row = None
  | Some _, Some _ => exists o, agg_snapshot_offset row = Some o /\ 0 <= o
  end.

#[global] Instance row_valid_dec row : Decision (row_valid row).
Proof.
  destruct row as [[s|] [d|] [o|]]; unfold row_valid; cbn; try apply _.
  - destruct (decide (0 <= o)); [left; eauto|right; intros (? & [= <-] & ?); lia].
  - right. intros (? & ? & _). done.
Defined.

(** An UPDATE of an instance. *)
Definition update_instance (iid : string) (f : AggregateRow -> AggregateRow) : sql unit := fun db =>
  match aggregates db !! (key, iid) with
  | None => inr (tt, db)
  | Some row =>
      if decide (row_valid (f row)) then
        inr (tt, set_aggregates db (<[(key, iid) := f row]> (aggregates db)))
      else inl (Opaque "violates check constraint")
  end.

(** aggregate.complete_with_events; [chosen] is the stream that
    eventstream.acquire_for_write returns if the instance has none. *)
Definition complete_with_events (chosen mid : UUID) (iid : string) (streamID : option UUID)
    (cid : UUID) (snapshot : option bytes) (evs : list EventArg) : sql unit :=
  sid ← (match streamID with
         | Some sid => mret sid
         | None =>
             sid ← acquire_for_write chosen;
             _ ← update_instance iid (fun row =>
                   mkAggregateRow (Some sid) (agg_snapshot row) (agg_snapshot_offset row));
             mret sid
         end);
  next_offset ← append sid cid (Some key) (Some iid) evs;
  _ ← (match snapshot with
       | None => mret tt
       | Some data => update_instance iid (fun row =>
           mkAggregateRow (agg_stream row) (Some data)
             (match next_offset with Some n => Some (n - 1) | None => None end))
       end);
  commandqueue_remove mid.

Definition marshalSnapshot (r : Root) : option bytes :=
  match Recover (MarshalBinary r) with
  | inl _ => None
  | inr data => data
  end.

Definition completeWithEvents (chosen mid : UUID) (iid : string) (streamID : option UUID)
    (es : list Envelope) (r : Root) : tx unit :=
  let snapshot := marshalSnapshot r in
  let cid := match es with env :: _ => hdr_correlation_id (env_header env) | [] => 0%N end in
  stmt (wrap "unable to complete command handling"
    (match event_args es with
     | inl e => fail e
     | inr evs => complete_with_events chosen mid iid streamID cid snapshot evs
     end)).

Definition completeWithoutEvents (mid : UUID) (iid : string) : tx unit :=
  stmt (wrap "unable to complete command handling" (complete_without_events mid iid)).

(** ** Handling a command *)

(** What a delivery meets. *)
Record inputs := mkInputs {
  in_world : World;
  in_locked : bool;
  in_race : DB -> DB;
  in_chosen : UUID;
  in_fault : option error;     (* of a statement that fails *)
}.

(** [HandleDelivery] *)
Definition HandleDelivery (i : inputs) (del : Delivery) (env : Envelope) : tx unit :=
  match UnpackMessage2 env with
  | inl _ => raise (Sentinel ErrFailed)
  | inr (commandForRouting, commandForHandling) =>
      iid ← lift (routeCommandToInstance commandForRouting);
      '(r, streamID) ← loadInstance (in_locked i) (in_race i) iid;
      match Recover (record_events (HandleCommand (in_world i) r iid commandForHandling)
              (mkScope r (PackEffects (in_world i) env key iid))) with
      | inl _ => raise (Sentinel ErrFailed)
      | inr s =>
          match Seal (packer s) with
          | Some es => completeWithEvents (in_chosen i) (MessageID del) iid streamID es (root s)
          | None => completeWithoutEvents (MessageID del) iid
          end
      end
  end.

(** ** The reference

    The events that an instance has recorded, and the root that they yield. *)

Definition of_instance (iid : string) (r : EventRow) : Prop :=
  ev_handler_key r = Some key /\ ev_instance_id r = Some iid.

#[global] Instance of_instance_dec iid r : Decision (of_instance iid r).
Proof. apply _. Defined.

Definition recorded (iid : string) (db : DB) : list EventRow :=
  filter (of_instance iid) (events db).

Definition rebuild (iid : string) (db : DB) : error + Root :=
  match newRoot with
  | inl e => inl e
  | inr r => apply_events (recorded iid db) r
  end.

(** ** The invariant *)

(** The snapshot of an instance is of the root that its events up to the snapshot's
    offset yield. *)
Definition snapshot_wf (row : AggregateRow) (next : Z) (evs : list EventRow) : Prop :=
  forall data o, agg_snapshot row = Some data -> agg_snapshot_offset row = Some o ->
    0 <= o < next /\ exists fresh r, New = Ret fresh /\
      apply_events (filter (fun e => ev_offset e <= o) evs) fresh = inr r /\
      MarshalBinary r = Ret (inr (Some data)).

Definition instance_wf (iid : string) (db : DB) : Prop :=
  match aggregates db !! (key, iid) with
  | None => recorded iid db = []
  | Some row => row_valid row /\
      match agg_stream row with
      | None => recorded iid db = []
      | Some sid => exists next, streams db !! sid = Some next /\
          Forall (fun e => ev_stream e = sid) (recorded iid db) /\
          snapshot_wf row next (recorded iid db)
      end
  end.

Definition aggregate_wf (db : DB) : Prop := events_wf db /\ forall iid, instance_wf iid db.

(** ** Replay *)

Lemma apply_events_app rows1 rows2 r :
  apply_events (rows1 ++ rows2) r =
    match apply_events rows1 r with inl e => inl e | inr r' => apply_events rows2 r' end.
Proof.
  revert r. induction rows1 as [|row rows1 IH]; intros r; [done|]. cbn.
  destruct (UnpackBytes (ev_envelope row)); [done|]. destruct (Recover _); [done|apply IH].
Qed.

(** A list in order of offset, split at an offset. *)
Lemma split_at_offset o (l : list EventRow) :
  StronglySorted (fun a b => ev_offset a < ev_offset b) l ->
  filter (fun e => ev_offset e <= o) l ++ filter (fun e => o + 1 <= ev_offset e) l = l.
Proof.
  induction 1 as [|a l Hl IH Ha]; [done|]. rewrite !filter_cons.
  destruct (decide (ev_offset a <= o)) as [Hle|Hgt].
  - rewrite (decide_False (P := o + 1 <= ev_offset a)) by lia. cbn. by rewrite IH.
  - rewrite (decide_True (P := o + 1 <= ev_offset a)) by lia. rewrite Forall_forall in Ha.
    assert (filter (fun e => ev_offset e <= o) l = []) as Hnil.
    { apply filter_none. intros x Hx. specialize (Ha x Hx). lia. }
    rewrite Hnil in *. cbn in *. by rewrite IH.
Qed.

Lemma recorded_sorted iid sid db :
  events_wf db -> Forall (fun e => ev_stream e = sid) (recorded iid db) ->
  StronglySorted (fun a b => ev_offset a < ev_offset b) (recorded iid db).
Proof.
  intros [_ Hwf] Hs.
  assert (Heq : recorded iid db = filter (of_instance iid) (stream_events db sid)).
  { unfold recorded, stream_events. rewrite list_filter_filter. apply filter_ext_elem.
    intros e He. split; [|tauto]. intros Hi. split; [done|]. rewrite Forall_forall in Hs.
    apply Hs. by apply list_elem_of_filter. }
  rewrite Heq. apply StronglySorted_filter. specialize (Hwf sid).
  destruct (streams db !! sid) as [next|]; [|rewrite Hwf; constructor].
  eapply seqZ_sorted. apply Hwf.
Qed.

Lemma historical_rows_recorded iid sid o db :
  events_wf db -> Forall (fun e => ev_stream e = sid) (recorded iid db) ->
  historical_rows sid o iid db = filter (fun e => o <= ev_offset e) (recorded iid db).
Proof.
  intros Hwf Hs.
  trans (order_by ev_offset (filter (fun e => o <= ev_offset e) (recorded iid db))).
  { unfold historical_rows. f_equal. unfold recorded. rewrite list_filter_filter. apply filter_ext_elem. intros e He.
    unfold of_instance. split; [tauto|]. intros (? & ? & ?). split_and!; try done.
    rewrite Forall_forall in Hs. apply Hs, list_elem_of_filter. done. }
  apply order_by_id. apply StronglySorted_filter. by eapply recorded_sorted.
Qed.

Lemma recorded_nonneg iid sid db :
  events_wf db -> Forall (fun e => ev_stream e = sid) (recorded iid db) ->
  Forall (fun e => 0 <= ev_offset e /\ forall next, streams db !! sid = Some next -> ev_offset e < next)
    (recorded iid db).
Proof.
  intros [_ Hwf] Hs. rewrite Forall_forall in *. intros e He. specialize (Hs e He).
  assert (Hin : e ∈ stream_events db sid).
  { unfold stream_events, recorded in *. apply list_elem_of_filter in He as [_ ?].
    by apply list_elem_of_filter. }
  specialize (Hwf sid). destruct (streams db !! sid) as [next|];
    [|rewrite Hwf in Hin; by apply elem_of_nil in Hin].
  destruct Hwf as [Ho _]. apply (list_elem_of_fmap_2 ev_offset) in Hin. rewrite Ho in Hin.
  apply elem_of_seqZ in Hin. split; [lia|]. intros n [= <-]. lia.
Qed.

(** The root is rebuilt from the events, whatever the snapshot. *)
Lemma restoreInstance_rebuilds iid row db :
  aggregate_wf db -> aggregates db !! (key, iid) = Some row ->
  restoreInstance iid (loaded row) db =
    (db, match rebuild iid db with inl e => inl e | inr r => inr (r, agg_stream row) end).
Proof.
  intros [Hev Hwf] Hrow. specialize (Hwf iid). unfold instance_wf in Hwf. rewrite Hrow in Hwf.
  destruct Hwf as [Hvalid Hwf]. unfold restoreInstance, loaded, rebuild, lift, mbind, tx_bind.
  destruct newRoot as [e|fresh] eqn:Hnew; [done|].
  destruct (agg_stream row) as [sid|] eqn:Hsid; [|by rewrite Hwf].
  destruct Hwf as (next & Hnext & Hs & Hsnap).
  assert (Hall : apply_events (historical_rows sid 0 iid db) fresh
    = apply_events (recorded iid db) fresh).
  { rewrite historical_rows_recorded by done. f_equal. apply filter_all. intros e He.
    pose proof (recorded_nonneg iid sid db Hev Hs) as Hn. rewrite Forall_forall in Hn.
    by apply Hn. }
  destruct (agg_snapshot_offset row) as [o|] eqn:Ho; last first.
  { rewrite decide_False by (by intros []). unfold mret, tx_ret, applyHistoricalEvents.
    rewrite Hall. by destruct (apply_events (recorded iid db) fresh). }
  unfold row_valid in Hvalid. rewrite Hsid in Hvalid.
  destruct (agg_snapshot row) as [data|] eqn:Hd; [|congruence].
  destruct (Hsnap data o Hd Ho) as (Hor & fresh' & r & Hf & Hr & Hm).
  rewrite decide_True by lia. unfold applySnapshot. change (default "" (Some data)) with data.
  assert (fresh' = fresh) as ->.
  { unfold newRoot in Hnew. rewrite Hf in Hnew. cbn in Hnew. congruence. }
  destruct (UnmarshalBinary data fresh) as [[e|r']|v] eqn:Hu; cbn [Recover];
    unfold mret, tx_ret, applyHistoricalEvents; rewrite ?Hall;
    [by destruct (apply_events (recorded iid db) fresh)| |
     by destruct (apply_events (recorded iid db) fresh)].
  assert (r' = r) as -> by (by eapply snapshots_restore).
  rewrite historical_rows_recorded by done.
  rewrite <- (split_at_offset o (recorded iid db)) at 2 by (by eapply recorded_sorted).
  rewrite apply_events_app, Hr. by destruct (apply_events _ r).
Qed.

(** ** Recording *)

(** The messages that envelopes were packed of. *)
Definition packs (m : Message) (env : Envelope) : Prop :=
  Unpack env = Ret (inr m) /\ Validate m false env = Ret None.

(** Applying messages to a root. *)
Fixpoint apply_messages (ms : list Message) (r : Root) : go Root :=
  match ms with
  | [] => Ret r
  | m :: ms' => r ← ApplyEvent m r; apply_messages ms' r
  end.

Lemma record_events_spec i s s' :
  record_events i s = Ret (inr s') ->
  exists ms es, packed (packer s') = packed (packer s) ++ es /\ Forall2 packs ms es /\
    apply_messages ms (root s) = Ret (root s').
Proof.
  revert s. induction i as [|v|event k IH]; intros s; cbn; [|done|].
  { intros [= <-]. exists [], []. split_and!; [by rewrite app_nil_r|constructor|done]. }
  unfold RecordEvent. case_decide; [done|].
  destruct (Pack event 0 (packer s)) as [env p] eqn:Hpack.
  destruct (Validate event true env) as [[e|]|] eqn:Hv; cbn; try done.
  destruct (ApplyEvent event (root s)) as [r|] eqn:Ha; cbn; [|done].
  intros (ms & es & Hp & Hms & Happ)%IH. cbn in Hp, Happ.
  exists (event :: ms), (env :: es). split_and!.
  - pose proof (packed_Pack event 0 (packer s)) as Hq. rewrite Hpack in Hq. cbn in Hq.
    rewrite Hp, Hq, <- app_assoc. done.
  - constructor; [|done]. split; [|by apply recorded_events_are_valid].
    pose proof (Unpack_Pack event 0 (packer s)) as Hq. by rewrite Hpack in Hq.
  - cbn. by rewrite Ha.
Qed.

Lemma event_args_spec es args ms :
  event_args es = inr args -> Forall2 packs ms es ->
  Forall2 (fun m a => UnpackBytes (ea_envelope a) = inr m) ms args /\ length args = length es.
Proof.
  revert args ms. induction es as [|env es IH]; intros args ms; cbn.
  { intros [= <-] Hms. inversion Hms. split; [constructor|done]. }
  destruct (Marshal env) as [e|data] eqn:Hm; [done|].
  destruct (event_args es) as [e|args'] eqn:He; [done|]. intros [= <-] Hms.
  inversion Hms as [|m ? ms' ? [Hu Hv] Hms']; subst.
  destruct (IH args' ms' eq_refl Hms') as [Hf Hl]. split; [|cbn; lia].
  constructor; [|done]. cbn. by eapply UnpackBytes_Marshal.
Qed.

(** The rows of recorded events yield what the handler saw. *)
Lemma apply_recorded ms args sid cid base r r' :
  Forall2 (fun m a => UnpackBytes (ea_envelope a) = inr m) ms args ->
  apply_messages ms r = Ret r' -> forall iid,
  apply_events (event_rows sid cid (Some key) (Some iid) base args) r = inr r'.
Proof.
  intros Hms. revert base r. induction Hms as [|m a ms args Hu Hms IH]; intros base r; cbn.
  { by intros [= <-]. }
  rewrite Hu. destruct (ApplyEvent m r) as [r1|] eqn:Ha; cbn; [|done]. intros Hr iid.
  specialize (IH (base + 1) r1 Hr iid). unfold event_rows in IH.
  erewrite imap_ext; [exact IH|]. intros i x Hx. cbn. f_equal. lia.
Qed.

(** ** Preservation *)

Definition streams_mono (db db' : DB) : Prop :=
  forall sid n, streams db !! sid = Some n -> exists n', streams db' !! sid = Some n' /\ n <= n'.

Lemma streams_mono_refl db : streams_mono db db.
Proof. intros sid n Hn. exists n. split; [done|lia]. Qed.

Lemma streams_mono_insert db db' sid n :
  streams db' = <[sid := n]> (streams db) -> (forall n0, streams db !! sid = Some n0 -> n0 <= n) ->
  streams_mono db db'.
Proof.
  intros Heq Hle sid' n' Hn. rewrite Heq, lookup_insert. case_decide; [subst|eexists; split; [done|lia]].
  exists n. split; [done|by apply Hle].
Qed.

(** An instance that nothing has happened to, while streams have grown. *)
Lemma instance_wf_frame iid db db' :
  aggregates db' !! (key, iid) = aggregates db !! (key, iid) -> recorded iid db' = recorded iid db ->
  streams_mono db db' -> instance_wf iid db -> instance_wf iid db'.
Proof.
  intros Ha Hr Hm. unfold instance_wf. rewrite Ha, Hr.
  destruct (aggregates db !! (key, iid)) as [row|]; [|done]. intros [Hv Hw]. split; [done|].
  destruct (agg_stream row) as [sid|]; [|done]. destruct Hw as (next & Hn & Hs & Hsnap).
  destruct (Hm _ _ Hn) as (next' & Hn' & Hle). exists next'. split_and!; [done..|].
  intros data o Hd Ho. destruct (Hsnap data o Hd Ho) as [Hor Hex]. split; [lia|done].
Qed.

(** An instance is bound to a stream. *)
Lemma bind_wf chosen iid row db db1 db2 sid :
  aggregate_wf db -> aggregates db !! (key, iid) = Some row -> agg_stream row = None ->
  acquire_for_write chosen db = inr (sid, db1) ->
  update_instance iid (fun row =>
    mkAggregateRow (Some sid) (agg_snapshot row) (agg_snapshot_offset row)) db1 = inr (tt, db2) ->
  aggregate_wf db2 /\ events db2 = events db /\ commands db2 = commands db /\
  aggregates db2 !! (key, iid) = Some (mkAggregateRow (Some sid) None None).
Proof.
  intros [Hev Hwf] Hrow Hnone Hacq. destruct (acquire_for_write_wf _ _ _ _ Hev Hacq)
    as (Hev1 & -> & He1 & Hst & [n Hn]).
  assert (Hsame : aggregates db1 = aggregates db /\ commands db1 = commands db).
  { unfold acquire_for_write in Hacq. destruct (streams db !! chosen); by injection Hacq as <-. }
  destruct Hsame as [Ha1 Hc1]. pose proof (Hwf iid) as Hi. unfold instance_wf in Hi.
  rewrite Hrow, Hnone in Hi. destruct Hi as [Hv Hrec]. unfold row_valid in Hv. rewrite Hnone in Hv.
  destruct Hv as [Hsn Hso]. unfold update_instance. rewrite Ha1, Hrow, Hsn, Hso.
  case_decide; [|done]. intros [= <-]. cbn. rewrite Hc1, He1, lookup_insert_eq.
  split_and!; try done. split; [exact Hev1|]. intros iid'.
  destruct (decide (iid' = iid)) as [->|Hne].
  - unfold instance_wf. cbn. rewrite lookup_insert_eq. split; [done|]. exists n. cbn. split; [done|].
    unfold recorded in Hrec. rewrite He1, Hrec. split; [constructor|]. intros data o. done.
  - apply (instance_wf_frame iid' db); [cbn; by rewrite lookup_insert_ne by congruence|
      unfold recorded; cbn; by rewrite He1| |done].
    destruct Hst as [Hst|[Hno Hst]].
    + intros s0 n0 Hs0. exists n0. cbn. rewrite Hst. split; [done|lia].
    + eapply streams_mono_insert; [exact Hst|]. intros n0. by rewrite Hno.
Qed.

Lemma recorded_app iid sid cid hk iid' base evs l :
  filter (of_instance iid) (l ++ event_rows sid cid hk (Some iid') base evs) =
  filter (of_instance iid) l ++
    (if decide (hk = Some key /\ iid' = iid) then event_rows sid cid hk (Some iid') base evs else []).
Proof.
  rewrite filter_app. f_equal. unfold event_rows. case_decide as Hd.
  - destruct Hd as [-> ->]. apply filter_all. intros r (i & e & -> & _)%elem_of_lookup_imap. done.
  - apply filter_none. intros r (i & e & -> & _)%elem_of_lookup_imap. unfold of_instance. cbn. naive_solver.
Qed.

(** Events are appended to the stream of an instance. *)
Lemma append_instance_wf sid cid iid row evs db next db' :
  aggregate_wf db -> aggregates db !! (key, iid) = Some row -> agg_stream row = Some sid ->
  append sid cid (Some key) (Some iid) evs db = inr (next, db') ->
  exists base, streams db !! sid = Some base /\ next = Some (base + len evs) /\ aggregate_wf db' /\
    recorded iid db' = recorded iid db ++ event_rows sid cid (Some key) (Some iid) base evs /\
    (forall iid', iid' <> iid -> recorded iid' db' = recorded iid' db) /\
    aggregates db' = aggregates db /\ commands db' = commands db /\ streams db' !! sid = next.
Proof.
  intros [Hev Hwf] Hrow Hsid Happ. pose proof (append_wf _ _ _ _ _ _ _ _ Hev Happ) as Hev'.
  pose proof (Hwf iid) as Hi. unfold instance_wf in Hi. rewrite Hrow, Hsid in Hi.
  destruct Hi as (Hv & n & Hn & Hs & Hsnap).
  apply append_inr in Happ as [(? & _)|(base & Hb & -> & Hne & ->)]; [congruence|].
  rewrite Hn in Hb. injection Hb as <-. exists n.
  assert (Hrec : forall iid', recorded iid' (set_events (set_streams db (<[sid:=n + len evs]> (streams db)))
    (events db ++ event_rows sid cid (Some key) (Some iid) n evs)) = recorded iid' db ++
    if decide (iid = iid') then event_rows sid cid (Some key) (Some iid) n evs else []).
  { intros iid'. unfold recorded. cbn. rewrite recorded_app. f_equal.
    destruct (decide (iid = iid')); [by rewrite decide_True|by rewrite decide_False by naive_solver]. }
  split_and!; try done.
  - split; [exact Hev'|]. intros iid'. destruct (decide (iid = iid')) as [<-|Hd].
    + unfold instance_wf. rewrite Hrec, decide_True by done. cbn [aggregates streams set_events set_streams].
      rewrite Hrow, Hsid.
      split; [done|]. exists (n + len evs). rewrite lookup_insert_eq. split; [done|]. split.
      * apply Forall_app. split; [done|]. unfold event_rows. rewrite Forall_forall.
        intros r (i & e & -> & _)%elem_of_lookup_imap. done.
      * intros data o Hd Ho. destruct (Hsnap data o Hd Ho) as [Hor Hex].
        split; [len|]. rewrite filter_app.
        assert (filter (fun e => ev_offset e <= o) (event_rows sid cid (Some key) (Some iid) n evs) = []) as ->.
        { unfold event_rows. apply filter_none. intros r (i & e & -> & _)%elem_of_lookup_imap. cbn. lia. }
        by rewrite app_nil_r.
    + apply (instance_wf_frame iid' db); [done|by rewrite Hrec, decide_False, app_nil_r| |done].
      eapply streams_mono_insert; [done|]. intros n0. rewrite Hn. intros [= <-].
      pose proof (len_nonneg evs). lia.
  - by rewrite Hrec, decide_True.
  - intros iid' Hd. by rewrite Hrec, decide_False, app_nil_r by congruence.
  - cbn. by rewrite lookup_insert_eq.
Qed.

Lemma aggregate_wf_same db db' :
  aggregates db' = aggregates db -> events db' = events db -> streams db' = streams db ->
  aggregate_wf db -> aggregate_wf db'.
Proof.
  intros Ha He Hs [Hev Hwf]. split.
  - destruct Hev as [Hnd Hst]. split; [by rewrite He|]. intros sid. specialize (Hst sid).
    unfold stream_events in *. by rewrite Hs, He.
  - intros iid. apply (instance_wf_frame iid db); [by rewrite Ha|unfold recorded; by rewrite He| |done].
    intros sid n Hn. exists n. rewrite Hs. split; [done|lia].
Qed.

Lemma newRoot_inr fresh : newRoot = inr fresh <-> New = Ret fresh.
Proof. unfold newRoot. destruct New; cbn; split; congruence. Qed.

(** A snapshot is taken of the root that all events yield. *)
Lemma snapshot_instance_wf iid row sid data next db db' r :
  aggregate_wf db -> aggregates db !! (key, iid) = Some row -> agg_stream row = Some sid ->
  streams db !! sid = Some next -> rebuild iid db = inr r -> MarshalBinary r = Ret (inr (Some data)) ->
  update_instance iid (fun row => mkAggregateRow (agg_stream row) (Some data) (Some (next - 1))) db
    = inr (tt, db') ->
  aggregate_wf db' /\ events db' = events db /\ commands db' = commands db.
Proof.
  intros [Hev Hwf] Hrow Hsid Hnext Hr Hm. unfold update_instance. rewrite Hrow.
  case_decide as Hv; [|done]. intros [= <-]. split_and!; try done. split; [exact Hev|].
  intros iid'. destruct (decide (iid' = iid)) as [->|Hne]; last first.
  { apply (instance_wf_frame iid' db); [cbn; by rewrite lookup_insert_ne by congruence|done|
      exact (streams_mono_refl db)|done]. }
  pose proof (Hwf iid) as Hi. unfold instance_wf in Hi. rewrite Hrow, Hsid in Hi.
  destruct Hi as (_ & n & Hn & Hs & _). rewrite Hnext in Hn. injection Hn as <-.
  unfold instance_wf. cbn [aggregates set_aggregates streams]. rewrite lookup_insert_eq. split; [done|].
  cbn [agg_stream]. rewrite Hsid. exists next. split_and!; [done|exact Hs|].
  intros data' o [= <-] [= <-]. unfold row_valid in Hv. cbn in Hv. rewrite Hsid in Hv.
  destruct Hv as (o & [= <-] & Ho). split; [lia|].
  unfold rebuild in Hr. destruct newRoot as [e|fresh] eqn:Hnew; [done|]. apply newRoot_inr in Hnew.
  exists fresh, r. split_and!; [done| |done].
  pose proof (recorded_nonneg iid sid db Hev Hs) as Hall. rewrite Forall_forall in Hall.
  change (recorded iid (set_aggregates _ _)) with (recorded iid db).
  rewrite filter_all; [done|]. intros e He. destruct (Hall e He) as [_ Hlt]. specialize (Hlt next Hnext). lia.
Qed.

(** A command is completed with events. *)
Lemma complete_with_events_wf chosen mid iid row cid snapshot evs db db' r r' :
  aggregate_wf db -> aggregates db !! (key, iid) = Some row -> rebuild iid db = inr r ->
  (forall sid base, apply_events (event_rows sid cid (Some key) (Some iid) base evs) r = inr r') ->
  (forall data, snapshot = Some data -> MarshalBinary r' = Ret (inr (Some data))) ->
  complete_with_events chosen mid iid (agg_stream row) cid snapshot evs db = inr (tt, db') ->
  aggregate_wf db' /\ is_Some (commands db !! mid) /\ commands db' = delete mid (commands db) /\
  (exists sid base, recorded iid db'
    = recorded iid db ++ event_rows sid cid (Some key) (Some iid) base evs) /\
  (forall iid', iid' <> iid -> recorded iid' db' = recorded iid' db) /\ rebuild iid db' = inr r'.
Proof.
  intros Hwf Hrow Hr Hrows Hsnap Hc. unfold complete_with_events in Hc.
  apply sql_bind_inr in Hc as (sid & db1 & Hbind & Hc).
  assert (exists row1, aggregate_wf db1 /\ events db1 = events db /\ commands db1 = commands db /\
    aggregates db1 !! (key, iid) = Some row1 /\ agg_stream row1 = Some sid)
    as (row1 & Hwf1 & He1 & Hc1 & Hrow1 & Hsid1).
  { destruct (agg_stream row) as [s0|] eqn:Hs0.
    - injection Hbind as <- <-. exists row. by split_and!.
    - apply sql_bind_inr in Hbind as (s1 & dba & Hacq & Hbind).
      apply sql_bind_inr in Hbind as ([] & dbb & Hupd & [= <- <-]).
      destruct (bind_wf chosen iid row db dba dbb s1 Hwf Hrow Hs0 Hacq Hupd) as (? & ? & ? & ?).
      by eexists. }
  assert (Hrec1 : forall i, recorded i db1 = recorded i db) by (intros i; unfold recorded; by rewrite He1).
  apply sql_bind_inr in Hc as (next & db2 & Happ & Hc).
  destruct (append_instance_wf sid cid iid row1 evs db1 next db2 Hwf1 Hrow1 Hsid1 Happ)
    as (base & Hb & -> & Hwf2 & Hrec2 & Hoth2 & Ha2 & Hc2 & Hst2).
  assert (Hr2 : rebuild iid db2 = inr r').
  { unfold rebuild in *. rewrite Hrec2, Hrec1. destruct newRoot; [done|].
    rewrite apply_events_app, Hr. apply Hrows. }
  apply sql_bind_inr in Hc as ([] & db3 & Hsn & Hc).
  assert (aggregate_wf db3 /\ events db3 = events db2 /\ commands db3 = commands db2)
    as (Hwf3 & He3 & Hc3).
  { destruct snapshot as [data|]; [|by injection Hsn as <-].
    rewrite <- Ha2 in Hrow1.
    eapply (snapshot_instance_wf iid row1 sid data (base + len evs) db2 db3 r'); try done.
    by apply Hsnap. }
  apply commandqueue_remove_inr in Hc as [Hs4 ->].
  assert (Hrec4 : forall i, recorded i (set_commands db3 (delete mid (commands db3))) = recorded i db2)
    by (intros i; unfold recorded; cbn; by rewrite He3).
  rewrite Hc3, Hc2, Hc1 in Hs4. split_and!.
  - by apply (aggregate_wf_same db3).
  - done.
  - cbn. by rewrite Hc3, Hc2, Hc1.
  - exists sid, base. rewrite Hrec4, Hrec2. by rewrite Hrec1.
  - intros iid' Hne. rewrite Hrec4, Hoth2 by done. apply Hrec1.
  - unfold rebuild in *. by rewrite Hrec4.
Qed.

(** A command is completed without events. *)
Lemma complete_without_events_wf mid iid db db' :
  aggregate_wf db -> complete_without_events mid iid db = inr (tt, db') ->
  aggregate_wf db' /\ is_Some (commands db !! mid) /\ commands db' = delete mid (commands db) /\
  events db' = events db.
Proof.
  intros [Hev Hwf] Hc. unfold complete_without_events in Hc.
  apply sql_bind_inr in Hc as ([] & db1 & [= <-] & Hc). apply commandqueue_remove_inr in Hc as [Hs ->].
  destruct (aggregates db !! (key, iid)) as [[[sid|] sn so]|] eqn:Hrow.
  - split_and!; [by apply (aggregate_wf_same db)|done..].
  - cbn in Hs |- *. split_and!; try done. split; [exact Hev|]. intros iid'.
    pose proof (Hwf iid) as Hi. unfold instance_wf in Hi. rewrite Hrow in Hi.
    destruct (decide (iid' = iid)) as [->|Hne].
    + unfold instance_wf. cbn. rewrite lookup_delete_eq. apply Hi.
    + apply (instance_wf_frame iid' db); [cbn; by rewrite lookup_delete_ne by congruence|done|
        exact (streams_mono_refl db)|done].
  - split_and!; [by apply (aggregate_wf_same db)|done..].
Qed.

(** The state in which a transaction sees the instance: if it must create it, after
    the transactions that it waited for. *)
Definition seen (race : DB -> DB) (iid : string) (db : DB) : DB :=
  match aggregates db !! (key, iid) with Some _ => db | None => race db end.

(** Nothing but the instances has changed. *)
Definition same_data (db db' : DB) : Prop :=
  events db' = events db /\ streams db' = streams db /\ commands db' = commands db.

Lemma acquireInstance_spec locked race iid db :
  aggregate_wf db -> aggregate_wf (race db) ->
  exists db1 x, acquireInstance locked race iid db = (db1, x) /\ aggregate_wf db1 /\
    same_data (seen race iid db) db1 /\
    forall y, x = inr y -> exists row, aggregates db1 !! (key, iid) = Some row /\ y = loaded row.
Proof.
  intros Hwf Hwf'. unfold acquireInstance, tryLockInstance, mbind, tx_bind, seen.
  destruct (aggregates db !! (key, iid)) as [row|] eqn:Hrow.
  { destruct locked; (eexists _, _; split; [done|]; split_and!; [done..|]); [done|].
    intros y [= <-]. eauto. }
  unfold tryCreateInstance, stmt, wrap.
  destruct (aggregates (race db) !! (key, iid)) as [row|] eqn:Hrow'.
  { eexists _, _. split; [done|]. split_and!; [done..|]. intros y [= <-]. eauto. }
  case_decide; [by eexists _, _|]. eexists _, _. split; [done|]. split_and!; [|done..|].
  - split; [apply Hwf'|]. intros iid'. destruct Hwf' as [Hev Hi].
    destruct (decide (iid' = iid)) as [->|Hne].
    + specialize (Hi iid). unfold instance_wf in *. rewrite Hrow' in Hi. cbn.
      rewrite lookup_insert_eq. by split.
    + apply (instance_wf_frame iid' (race db)); [cbn; by rewrite lookup_insert_ne by congruence|done|
        exact (streams_mono_refl (race db))|done].
  - intros y [= <-]. cbn. rewrite lookup_insert_eq. eauto.
Qed.

(** The effect of handling a command, on the state that its transaction sees. *)
Definition handled (i : inputs) (del : Delivery) (env : Envelope) (iid : string) (command : Message)
    (base db' : DB) : Prop :=
  exists r s args sid base_offset cid,
    rebuild iid base = inr r /\
    record_events (HandleCommand (in_world i) r iid command)
      (mkScope r (PackEffects (in_world i) env key iid)) = Ret (inr s) /\
    event_args (packed (packer s)) = inr args /\
    recorded iid db' = recorded iid base ++ event_rows sid cid (Some key) (Some iid) base_offset args /\
    (forall iid', iid' <> iid -> recorded iid' db' = recorded iid' base) /\
    rebuild iid db' = inr (root s) /\
    is_Some (commands base !! MessageID del) /\
    commands db' = delete (MessageID del) (commands base).

Lemma rebuild_same iid db db' : events db' = events db -> rebuild iid db' = rebuild iid db.
Proof. intros He. unfold rebuild, recorded. by rewrite He. Qed.

Lemma recorded_same iid db db' : events db' = events db -> recorded iid db' = recorded iid db.
Proof. intros He. unfold recorded. by rewrite He. Qed.

(** The completion of a command, of an instance that has been loaded and that has
    handled it, in a transaction that sees [base]. *)
Section completion.
Context (i : inputs) (del : Delivery) (env : Envelope) (iid : string) (command : Message).
Context (base db1 : DB) (row : AggregateRow) (r : Root) (s : commandScope).
Hypothesis Hwf1 : aggregate_wf db1.
Hypothesis Hsame : same_data base db1.
Hypothesis Hrow : aggregates db1 !! (key, iid) = Some row.
Hypothesis Hr : rebuild iid db1 = inr r.
Hypothesis Hrec : record_events (HandleCommand (in_world i) r iid command)
  (mkScope r (PackEffects (in_world i) env key iid)) = Ret (inr s).

Lemma rebuild_base : rebuild iid base = inr r.
Proof. destruct Hsame as (He & _ & _). rewrite <- Hr. symmetry. by apply rebuild_same. Qed.

Lemma recorded_messages :
  exists ms, Forall2 packs ms (packed (packer s)) /\ apply_messages ms r = Ret (root s).
Proof.
  destruct (record_events_spec _ _ _ Hrec) as (ms & es & Hpk & Hms & Happ).
  cbn in Hpk, Happ. rewrite packed_new in Hpk. cbn in Hpk. rewrite Hpk. eauto.
Qed.

Lemma handled_without_events db' :
  packed (packer s) = [] -> complete_without_events (MessageID del) iid db1 = inr (tt, db') ->
  aggregate_wf db' /\ handled i del env iid command base db'.
Proof.
  intros Hpk Hcomp. destruct Hsame as (He1 & _ & Hc1).
  apply complete_without_events_wf in Hcomp as (Hwf2 & Hs2 & Hc2 & He2); [|done].
  destruct recorded_messages as (ms & Hms & Happ). rewrite Hpk in Hms. inversion Hms; subst ms.
  injection Happ as Hroot. split; [done|].
  exists r, s, [], 0%N, 0, 0%N. rewrite Hpk. split_and!; try done.
  - exact rebuild_base.
  - cbn. rewrite app_nil_r. apply recorded_same. congruence.
  - intros iid' _. apply recorded_same. congruence.
  - rewrite <- Hroot, <- Hr. by apply rebuild_same.
  - by rewrite <- Hc1.
  - by rewrite Hc2, Hc1.
Qed.

Lemma handled_with_events cid args db' :
  event_args (packed (packer s)) = inr args ->
  complete_with_events (in_chosen i) (MessageID del) iid (agg_stream row) cid
    (marshalSnapshot (root s)) args db1 = inr (tt, db') ->
  aggregate_wf db' /\ handled i del env iid command base db'.
Proof.
  intros Hargs Hcomp. destruct Hsame as (He1 & _ & Hc1).
  destruct recorded_messages as (ms & Hms & Happ). destruct (event_args_spec _ _ _ Hargs Hms) as [Hun _].
  eapply (complete_with_events_wf _ _ iid row _ _ args db1 db' r (root s)) in Hcomp
    as (Hwf2 & Hs2 & Hc2 & (sid & bo & Hrec2) & Hoth & Hr2); try done.
  - split; [done|]. exists r, s, args, sid, bo, cid. split_and!; try done.
    + exact rebuild_base.
    + rewrite Hrec2. by rewrite (recorded_same iid base db1).
    + intros iid' Hne. rewrite Hoth by done. by apply recorded_same.
    + by rewrite <- Hc1.
    + by rewrite Hc2, Hc1.
  - intros sid bo. by apply (apply_recorded ms).
  - intros data. unfold marshalSnapshot, Recover. destruct (MarshalBinary (root s)) as [[|d]|]; try done.
    by intros ->.
Qed.
End completion.

(** The command is not handled: it can not be unmarshaled or routed, its instance is
    locked by another transaction or its root can not be rebuilt, or the handler panics,
    or the events that it recorded can not be marshaled. *)
Definition refused (i : inputs) (env : Envelope) (db : DB) : Prop :=
  match UnpackMessage2 env with
  | inl _ => True
  | inr (c1, c2) =>
      match routeCommandToInstance c1 with
      | inl _ => True
      | inr iid =>
          (in_locked i = true /\ is_Some (aggregates db !! (key, iid))) \/
          match rebuild iid (seen (in_race i) iid db) with
          | inl _ => True
          | inr r =>
              match record_events (HandleCommand (in_world i) r iid c2)
                      (mkScope r (PackEffects (in_world i) env key iid)) with
              | Ret (inr s) => exists e, event_args (packed (packer s)) = inl e
              | _ => True
              end
          end
      end
  end.

Lemma update_instance_foreign iid f db e : update_instance iid f db = inl e -> foreign e.
Proof.
  unfold update_instance. destruct (aggregates db !! (key, iid)); [|done]. case_decide; [done|]. by intros [= <-].
Qed.

Lemma complete_foreign chosen mid iid sid cid snapshot evs db e :
  complete_with_events chosen mid iid sid cid snapshot evs db = inl e -> foreign e.
Proof.
  apply sql_bind_foreign.
  { intros e'. destruct sid; [done|]. apply sql_bind_foreign.
    - intros e1. unfold acquire_for_write. by destruct (streams db !! chosen).
    - intros s db1 e1. apply sql_bind_foreign; [apply update_instance_foreign|done]. }
  intros s db1 e1. apply sql_bind_foreign; [apply append_foreign|]. intros n db2 e2. apply sql_bind_foreign.
  - intros e3. destruct snapshot; [apply update_instance_foreign|done].
  - intros _ db3 e3. apply commandqueue_remove_foreign.
Qed.

Lemma complete_without_foreign mid iid db e : complete_without_events mid iid db = inl e -> foreign e.
Proof. apply sql_bind_foreign; [done|]. intros _ db1 e1. apply commandqueue_remove_foreign. Qed.

(** What [HandleDelivery] leaves in its transaction. *)
Definition handling (i : inputs) (del : Delivery) (env : Envelope) (db db' : DB)
    (res : error + unit) : Prop :=
  match res with
  | inl e => (exists base, (base = db \/ base = in_race i db) /\
      events db' = events base /\ commands db' = commands base) /\
      (refused i env db \/ foreign e)
  | inr _ => exists c1 c2 iid, UnpackMessage2 env = inr (c1, c2) /\
      routeCommandToInstance c1 = inr iid /\
      handled i del env iid c2 (seen (in_race i) iid db) db'
  end.

Lemma HandleDelivery_spec i del env db :
  aggregate_wf db -> aggregate_wf (in_race i db) ->
  exists db' res, HandleDelivery i del env db = (db', res) /\ aggregate_wf db' /\
    handling i del env db db' res.
Proof.
  intros Hwf Hwf'. unfold HandleDelivery, handling, refused.
  destruct (UnpackMessage2 env) as [e|[c1 c2]].
  { eexists _, _. split; [done|]. split; [done|]. split; [exists db; auto|by left]. }
  unfold lift. unfold mbind at 1, tx_bind at 1.
  destruct (routeCommandToInstance c1) as [e|iid] eqn:Hroute.
  { eexists _, _. split; [done|]. split; [done|]. split; [exists db; auto|by left]. }
  destruct (acquireInstance_spec (in_locked i) (in_race i) iid db Hwf Hwf')
    as (db1 & x & Hacq & Hwf1 & Hsame & Hx).
  assert (Hbase : exists base, (base = db \/ base = in_race i db) /\
    events db1 = events base /\ commands db1 = commands base).
  { destruct Hsame as (? & _ & ?). eexists. split; [|by split].
    unfold seen. destruct (aggregates db !! _); auto. }
  unfold loadInstance, mbind, tx_bind. rewrite Hacq. destruct x as [e|y].
  { eexists _, _. split; [done|]. split; [done|]. split; [done|].
    unfold acquireInstance, tryLockInstance, mbind, tx_bind in Hacq.
    destruct (aggregates db !! (key, iid)) as [row|] eqn:Hrow.
    { left. left. destruct (in_locked i); [eauto|done]. }
    right. unfold tryCreateInstance, stmt, wrap in Hacq.
    destruct (aggregates (in_race i db) !! (key, iid)); [done|]. case_decide; [|done]. by injection Hacq as _ <-. }
  destruct (Hx y eq_refl) as (row & Hrow & ->). rewrite (restoreInstance_rebuilds iid row db1 Hwf1 Hrow).
  assert (Hreb : rebuild iid (seen (in_race i) iid db) = rebuild iid db1).
  { unfold rebuild, recorded. destruct Hsame as (He & _ & _). by rewrite He. }
  rewrite Hreb. destruct (rebuild iid db1) as [e|r] eqn:Hr.
  { eexists _, _. split; [done|]. split; [done|]. split; [done|]. left. by right. }
  destruct (Recover _) as [e|s] eqn:Hrec.
  { eexists _, _. split; [done|]. split; [done|]. split; [done|]. left. right. unfold Recover in Hrec.
    destruct (record_events _ _) as [[?|?]|]; by try discriminate. }
  assert (Hrec' : record_events (HandleCommand (in_world i) r iid c2)
      (mkScope r (PackEffects (in_world i) env key iid)) = Ret (inr s)).
  { unfold Recover in Hrec. destruct (record_events _ _); [by subst|done]. }
  rewrite Seal_packed. destruct (packed (packer s)) as [|e0 es] eqn:Hpk.
  - unfold completeWithoutEvents, stmt, wrap.
    destruct (complete_without_events _ iid db1) as [e|[[] db']] eqn:Hcomp.
    + eexists _, _. split; [done|]. split; [done|]. split; [done|]. right.
      by apply complete_without_foreign in Hcomp.
    + destruct (handled_without_events i del env iid c2 _ db1 r s Hwf1 Hsame Hr Hrec' db' Hpk Hcomp).
      eexists _, _. split; [done|]. eauto 10.
  - unfold completeWithEvents, stmt, wrap. rewrite <- Hpk.
    destruct (event_args (packed (packer s))) as [e|args] eqn:Hargs.
    { eexists _, _. split; [done|]. split; [done|]. split; [done|]. left. right. rewrite Hrec'. eauto. }
    destruct (complete_with_events _ _ iid _ _ _ args db1) as [e|[[] db']] eqn:Hcomp.
    { eexists _, _. split; [done|]. split; [done|]. split; [done|]. right. by apply complete_foreign in Hcomp. }
    destruct (handled_with_events i del env iid c2 _ db1 row r s Hwf1 Hsame Hrow Hr Hrec' _ args db' Hargs Hcomp).
    eexists _, _. split; [done|]. eauto 10.
Qed.

(** ** The driver *)

(** The command pump's driver, for one delivery. *)
Definition CommandPump (i : inputs) (types : gset UUID) : Driver := faulty (in_fault i) {|
  AcquireDelivery db := (db, AcquireCommandDelivery (Now (in_world i)) ∅ types db);
  PostponeDelivery := PostponeCommandDelivery (Now (in_world i));
  MessagePump.HandleDelivery del env db := outcome (HandleDelivery i del env db);
|}.

(** Other transactions: they neither change the instances of this handler nor record
    events for them, and streams only grow. *)
Definition elsewhere (db db' : DB) : Prop :=
  (forall iid, aggregates db' !! (key, iid) = aggregates db !! (key, iid)) /\
  (forall iid, recorded iid db' = recorded iid db) /\ streams_mono db db' /\ events_wf db'.

(** One transaction: the delivery of a command to the handler, or another. *)
Inductive aggregate_step : DB -> DB -> Prop :=
| step_command w locked chosen fault types p r cerr del env db db' err :
    doHandle (H := CommandPump (mkInputs w locked id chosen fault) types) p r cerr del env db db
      = Ret (db', err) ->
    aggregate_step db db'
| step_elsewhere db db' : elsewhere db db' -> aggregate_step db db'.

Lemma elsewhere_wf db db' : elsewhere db db' -> aggregate_wf db -> aggregate_wf db'.
Proof.
  intros (Ha & Hr & Hs & He) [_ Hwf]. split; [done|]. intros iid.
  by apply (instance_wf_frame iid db).
Qed.

(** What a delivery leaves: the effects of the command, without it, if it was handled; a
    postponed command and nothing else, if it was refused; or nothing at all. *)
Definition delivered (p : MessagePump) (r : Z) (i : inputs) (del : Delivery) (env : Envelope) (db db' : DB)
    (err : option error) : Prop :=
  (exists c1 c2 iid, err = None /\ UnpackMessage2 env = inr (c1, c2) /\
     routeCommandToInstance c1 = inr iid /\ handled i del env iid c2 (seen (in_race i) iid db) db') \/
  (err = None /\ refused i env db /\ exists base, (base = db \/ base = in_race i db) /\
     events db' = events base /\ postponed p r (Now (in_world i)) del (commands base) (commands db')) \/
  (is_Some err /\ db' = db).

Lemma doHandle_command i types p r cerr del env db db' err :
  aggregate_wf db -> aggregate_wf (in_race i db) ->
  doHandle (H := CommandPump i types) p r cerr del env db db = Ret (db', err) ->
  aggregate_wf db' /\ delivered p r i del env db db' err.
Proof.
  intros Hwf Hwf'.
  destruct (HandleDelivery_spec i del env db Hwf Hwf') as (db1 & res & Hh & Hwf1 & Hres).
  unfold CommandPump. destruct (in_fault i) as [e|]; intros Hd.
  { apply doHandle_faulty in Hd as [? ->]. split; [done|]. by right; right. }
  apply doHandle_cases in Hd as [[-> Hd]|[(-> & tx' & e & del' & delay & Hd & Hpm & Hp)|[? ->]]];
    [| |by split; [done|right; right]]; cbn in Hd; rewrite Hh in Hd;
    destruct res as [e'|[]]; try discriminate.
  - injection Hd as <-. split; [done|]. left. destruct Hres as (c1 & c2 & iid & ? & ? & ?). by exists c1, c2, iid.
  - injection Hd as <- <-. cbn in Hp. destruct Hres as [(base & Hb & He & Hc) Href].
    apply (PostponeCommandDelivery_postponed p r _ del e') in Hp as [Hp Hdb']; [|done].
    rewrite Hdb' in *. split; [by apply (aggregate_wf_same db1)|]. right; left. split; [done|]. split.
    + destruct Href as [?|[Hf Hbz]]; [done|]. destruct Hpm as [_ Hpm]. rewrite Hf, Hbz in Hpm. by destruct Hpm.
    + exists base. split_and!; [done|done|]. by rewrite <- Hc.
Qed.

Lemma aggregate_step_wf db db' : aggregate_wf db -> aggregate_step db db' -> aggregate_wf db'.
Proof.
  intros Hwf Hs. destruct Hs as [w locked chosen fault types p r cerr del env db db' err Hh|db db' He].
  - by eapply doHandle_command in Hh as [? _].
  - by eapply elsewhere_wf.
Qed.

Lemma aggregate_steps_wf db db' : aggregate_wf db -> rtc aggregate_step db db' -> aggregate_wf db'.
Proof. intros Hwf. induction 1; [done|]. eauto using aggregate_step_wf. Qed.

Lemma empty_aggregate_wf : aggregate_wf empty_db.
Proof.
  split; [split; [constructor|]; intros sid; cbn; by rewrite lookup_empty|].
  intros iid. unfold instance_wf. cbn. by rewrite lookup_empty.
Qed.
End aggregate.

(** ** Properties *)

(** C5: the root that [loadInstance] gives to a command is always the fold of
    [ApplyEvent] over every event that the instance has recorded, in order, from a
    new root: whether there is a snapshot or none, whether it can be unmarshaled,
    and although other transactions may create the instance and record events while
    this one waits to create it.  The events are all on the stream that it
    returns. *)
Theorem loaded_root_is_the_fold `{AggregateMessageHandler} key outbound locked race iid db :
  rtc (aggregate_step key outbound) empty_db db -> rtc (aggregate_step key outbound) db (race db) ->
  let base := seen key race iid db in
  (forall r sid, (loadInstance key locked race iid db).2 = inr (r, sid) ->
     rebuild key iid base = inr r /\
     Forall (fun e => Some (ev_stream e) = sid) (recorded key iid base)) /\
  (iid <> "" -> locked = false ->
     match rebuild key iid base with
     | inl e => (loadInstance key locked race iid db).2 = inl e
     | inr r => exists sid, (loadInstance key locked race iid db).2 = inr (r, sid)
     end).
Proof.
  intros Hr Hrace base. pose proof (aggregate_steps_wf _ _ _ _ (empty_aggregate_wf key) Hr) as Hwf.
  pose proof (aggregate_steps_wf _ _ _ _ Hwf Hrace) as Hwf'.
  destruct (acquireInstance_spec key locked race iid db Hwf Hwf')
    as (db1 & x & Hacq & Hwf1 & (He & Hs & Hc) & Hx). fold base in He, Hs, Hc.
  unfold loadInstance, mbind, tx_bind. rewrite Hacq.
  destruct x as [e|y].
  { split; [done|]. intros Hid ->. exfalso.
    unfold acquireInstance, tryLockInstance, mbind, tx_bind in Hacq.
    destruct (aggregates db !! (key, iid)); [done|]. unfold tryCreateInstance, stmt, wrap in Hacq.
    destruct (aggregates (race db) !! (key, iid)); [done|]. by case_decide. }
  destruct (Hx y eq_refl) as (row & Hrow & ->).
  rewrite (restoreInstance_rebuilds key iid row db1 Hwf1 Hrow), (rebuild_same key iid base db1 He).
  split.
  - intros r sid. cbn. destruct (rebuild key iid base) as [e|r0]; [done|]. intros [= <- <-].
    split; [done|]. rewrite <- (recorded_same key iid base db1 He).
    destruct Hwf1 as [_ Hi]. specialize (Hi iid). unfold instance_wf in Hi. rewrite Hrow in Hi.
    destruct Hi as [_ Hi]. destruct (agg_stream row) as [sid|]; [|rewrite Hi; constructor].
    destruct Hi as (_ & _ & Hf & _). eapply Forall_impl; [exact Hf|]. by intros ? ->.
  - intros _ _. cbn. destruct (rebuild key iid base); [done|eauto].
Qed.


(** C24: in every state that the engine reaches, the row of an instance satisfies the
    constraint of its table; an instance without a row or without a stream has no
    events; and the events of an instance are all on the stream that it is bound to,
    which exists, at increasing offsets, with its snapshot, if any, taken at one
    that was assigned. *)
Theorem aggregate_rows_are_well_formed `{AggregateMessageHandler} key outbound db iid :
  rtc (aggregate_step key outbound) empty_db db ->
  match aggregates db !! (key, iid) with
  | None => recorded key iid db = []
  | Some row => row_valid row /\
      match agg_stream row with
      | None => recorded key iid db = []
      | Some sid => exists next, streams db !! sid = Some next /\
          Forall (fun e => ev_stream e = sid /\ 0 <= ev_offset e < next) (recorded key iid db) /\
          StronglySorted (fun a b => ev_offset a < ev_offset b) (recorded key iid db) /\
          (forall o, agg_snapshot_offset row = Some o -> 0 <= o < next)
      end
  end.
Proof.
  intros Hr. pose proof (aggregate_steps_wf _ _ _ _ (empty_aggregate_wf key) Hr) as [Hev Hwf].
  specialize (Hwf iid). unfold instance_wf in Hwf.
  destruct (aggregates db !! (key, iid)) as [row|]; [|done]. destruct Hwf as [Hv Hwf].
  split; [done|]. destruct (agg_stream row) as [sid|] eqn:Hsid; [|done].
  destruct Hwf as (next & Hn & Hs & Hsnap). exists next. split_and!; try done.
  - pose proof (recorded_nonneg key iid sid db Hev Hs) as Hall.
    rewrite Forall_forall in *. intros e He. destruct (Hall e He) as [H1 H2].
    split; [by apply Hs|]. specialize (H2 next Hn). lia.
  - by eapply recorded_sorted.
  - intros o Ho. unfold row_valid in Hv. rewrite Hsid in Hv.
    destruct (agg_snapshot row) as [data|] eqn:Hd; [|congruence].
    by destruct (Hsnap data o Hd Ho).
Qed.

(** ** An example

    An account whose root is the sum of its events (numbers from 20), with commands
    (below 10) that record one event; it can be marshaled while it is small. *)

Section example.
#[local] Existing Instance Example.messaging.

#[local, refine] Instance account : AggregateMessageHandler := {|
  Root := N;
  New := Ret 0%N;
  RouteCommandToInstance _ := Ret "a";
  ApplyEvent m r := Ret (r + m)%N;
  MarshalBinary r :=
    if decide (r < 30)%N then Ret (inr (Some (Example.digits (N.succ_pos r))))
    else Ret (inl (Sentinel ErrNotSupported));
  UnmarshalBinary data _ := Ret (inr (Pos.pred_N (Example.undigits data)));
  HandleCommand _ _ _ c := CallRecordEvent (c + 20)%N (fun _ => Return);
|}.
Proof.
  - intros r data fresh r'. case_decide; [|done]. intros [= <-] _ [= <-].
    rewrite Example.undigits_digits. apply N.pos_pred_succ.
  - done.
Defined.

Definition command (id : N) (m : N) : Envelope :=
  mkEnvelope (mkHeader id 0 "") (mkBody id m "" 0 0 "" NoPosition).

Definition example_queue : DB :=
  set_commands empty_db (<[1%N := mkCommandRow 1 "" 0 0]> {[2%N := mkCommandRow 2 "" 0 0]}).

Definition example_inputs (n : N) : inputs := mkInputs ((0, n) : World) false id 40 None.

(** The database after the command with the given ID is delivered. *)
Definition deliver (id : N) (db : DB) : DB :=
  match doHandle (H := CommandPump 7 {[21%N; 22%N]} (example_inputs (100 * id)) ∅)
          (mkPump 1 10 1000) 0 None (mkDelivery id id "" 0) (command id id) db db with
  | Ret (db', _) => db'
  | Panic _ => db
  end.

Lemma example_deliver_step id db :
  rtc (aggregate_step 7 {[21%N; 22%N]}) db (deliver id db).
Proof.
  unfold deliver. destruct (doHandle _ _ _ _ _ _ _) as [[db' err]|] eqn:Hh; [|apply rtc_refl].
  apply rtc_once. by eapply step_command.
Qed.

Lemma example_queue_reachable : rtc (aggregate_step 7 {[21%N; 22%N]}) empty_db example_queue.
Proof.
  apply rtc_once, step_elsewhere. split; [done|]. split; [done|].
  split; [exact (streams_mono_refl empty_db)|].
  exact (proj1 (empty_aggregate_wf (H0 := account) 7)).
Qed.

(** Two commands have been handled: the first left a snapshot. *)
Definition example_account : DB := deliver 2 (deliver 1 example_queue).

Lemma example_account_reachable : rtc (aggregate_step 7 {[21%N; 22%N]}) empty_db example_account.
Proof.
  unfold example_account. etrans; [exact example_queue_reachable|].
  etrans; apply example_deliver_step.
Qed.
End example.

Lemma loaded_root_is_the_fold_witness :
  (loadInstance (H0 := account) 7 false id "a" example_account).2 = inr (43%N, Some 40%N) /\
  rebuild (H0 := account) 7 "a" example_account = inr 43%N /\
  Forall (fun e => Some (ev_stream e) = Some 40%N) (recorded 7 "a" example_account).
Proof.
  assert (Hl : (loadInstance (H0 := account) 7 false id "a" example_account).2 = inr (43%N, Some 40%N))
    by (vm_compute; reflexivity).
  split; [exact Hl|].
  destruct (loaded_root_is_the_fold (H0 := account) 7 {[21%N; 22%N]} false id "a" example_account
    example_account_reachable (rtc_refl _ _)) as [Hf _].
  assert (Hseen : seen 7 id "a" example_account = example_account) by (vm_compute; reflexivity).
  rewrite Hseen in Hf. exact (Hf _ _ Hl).
Defined.


Lemma aggregate_rows_are_well_formed_witness :
  exists next, streams example_account !! 40%N = Some next /\
    Forall (fun e => ev_stream e = 40%N /\ 0 <= ev_offset e < next) (recorded 7 "a" example_account).
Proof.
  pose proof (aggregate_rows_are_well_formed (H0 := account) 7 {[21%N; 22%N]} example_account "a"
    example_account_reachable) as Hw.
  assert (Hrow : exists d, aggregates example_account !! (7%N, "a") = Some (mkAggregateRow (Some 40%N) (Some d) (Some 0)))
    by (eexists; vm_compute; reflexivity).
  destruct Hrow as [d Hrow]. rewrite Hrow in Hw. cbn [agg_stream] in Hw.
  destruct Hw as (_ & next & Hn & Hf & _). exists next. split; [exact Hn|exact Hf].
Defined.
