(* ===== verification/Integration.v ===== *)
(** * Integration message handlers

    Models [internal/integration]: the scope through which a handler records events
    ([commandscope.go]), and the driver that delivers commands
    ([commandpump.go]) with the SQL functions that complete a command
    ([internal/schema/ddl/20-integration/10-funcs.sql]). *)

From S2P Require Import Prelude Errors Stream Database MessagePump Handler Concurrency.

(** ** Handlers *)

(** What a handler does with its scope. *)
Inductive recording (Msg : Type) : Type :=
| Return (err : option error)
| Panics (v : string)
| CallRecordEvent (event : Msg) (k : recording Msg).
Arguments Return {Msg} err.
Arguments Panics {Msg} v.
Arguments CallRecordEvent {Msg} event k.

(** [dogma.IntegrationMessageHandler] *)
Class IntegrationMessageHandler `{Messaging} := {
  HandleCommand : World -> Message -> recording Message;
}.

Section integration.
Context `{IntegrationMessageHandler}.
Context (key : UUID) (Concurrency : ConcurrencyPreference) (OutboundMessageTypes : gset UUID).

Definition RecordEvent (event : Message) (packer : EffectPacker) : go EffectPacker :=
  if decide (MessageType event ∉ OutboundMessageTypes) then
    Panic "this handler is not configured to record events of this type"
  else
    let '(env, packer) := Pack event 0 packer in
    err ← Validate event true env;
    match err with
    | Some _ => Panic "event is invalid"
    | None => Ret packer
    end.

(** The handler's calls on its scope: the packer, and how the handler ended. *)
Fixpoint record_events (i : recording Message) (packer : EffectPacker)
    : EffectPacker * go (option error) :=
  match i with
  | Return err => (packer, Ret err)
  | Panics v => (packer, Panic v)
  | CallRecordEvent event k =>
      match RecordEvent event packer with
      | Ret packer => record_events k packer
      | Panic v => (packer, Panic v)
      end
  end.

(** ** Completing a command *)

(** eventstream.append_any, where [chosen] is the stream that is acquired. *)
Definition append_any (chosen cid : UUID) (evs : list EventArg) : sql (option Z) :=
  sid ← acquire_for_write chosen;
  append sid cid None None evs.

(** integration.complete_with_events *)
Definition complete_with_events (chosen mid cid : UUID) (evs : list EventArg) : sql unit :=
  _ ← commandqueue_remove mid;
  _ ← append_any chosen cid evs;
  mret tt.

Definition completeWithEvents (chosen mid : UUID) (es : list Envelope) : tx unit :=
  let cid := match es with env :: _ => hdr_correlation_id (env_header env) | [] => 0%N end in
  stmt (wrap "unable to complete command handling"
    (match event_args es with
     | inl e => fail e
     | inr evs => complete_with_events chosen mid cid evs
     end)).

(** integration.complete_without_events *)
Definition completeWithoutEvents (mid : UUID) : tx unit :=
  stmt (wrap "unable to complete command handling" (commandqueue_remove mid)).

(** What a delivery meets. *)
Record inputs := mkInputs {
  in_world : World;
  in_lock_err : option error;
  in_unlock_err : option error;
  in_session : nat;
  in_locks : Locks;
  in_chosen : UUID;
  in_fault : option error;     (* of another statement that fails *)
}.

(** [HandleDelivery]; the locks that it leaves are [left_locks]. *)
Definition call_handler (i : inputs) (env : Envelope) (command : Message)
    : Locks * EffectPacker * go (option error) :=
  perform (in_lock_err i) (in_unlock_err i) (in_session i)
    (fun _ packer =>
       let '(packer, r) := record_events (HandleCommand (in_world i) command) packer in
       (packer, Ret (match r with Ret err => err | Panic v => Some (PanicError v) end)))
    (EnforceConcurrencyPreference key Concurrency)
    (in_locks i) (PackEffects (in_world i) env key "").

Definition HandleDelivery (i : inputs) (del : Delivery) (env : Envelope) : tx unit :=
  match UnpackMessage env with
  | inl _ => raise (Sentinel ErrFailed)
  | inr command =>
      match call_handler i env command with
      | (_, packer, Ret None) =>
          match Seal packer with
          | Some es => completeWithEvents (in_chosen i) (MessageID del) es
          | None => completeWithoutEvents (MessageID del)
          end
      | (_, _, _) => raise (Sentinel ErrFailed)
      end
  end.

(** Whether a statement has failed within the transaction, after which every other
    statement of it fails. *)
Definition aborted (i : inputs) : bool :=
  match Concurrency with
  | MaximizeConcurrency => false
  | MinimizeConcurrency => bool_decide (in_lock_err i <> None \/ in_unlock_err i <> None)
  end.

(** The command pump's driver, for one delivery. *)
Definition CommandPump (i : inputs) (types : gset UUID) : Driver := faulty (in_fault i) {|
  AcquireDelivery db := (db, AcquireCommandDelivery (Now (in_world i)) ∅ types db);
  PostponeDelivery del delay db :=
    if aborted i then (db, Some (Opaque "current transaction is aborted"))
    else PostponeCommandDelivery (Now (in_world i)) del delay db;
  MessagePump.HandleDelivery del env db := outcome (HandleDelivery i del env db);
|}.

(** ** Lemmas *)

Lemma append_any_wf chosen cid evs db r db' :
  events_wf db -> append_any chosen cid evs db = inr (r, db') ->
  events_wf db' /\ commands db' = commands db /\ aggregates db' = aggregates db /\
  instances db' = instances db /\ deadlines db' = deadlines db /\ checkpoints db' = checkpoints db /\
  (forall sid n, streams db !! sid = Some n -> exists n', streams db' !! sid = Some n' /\ n <= n') /\
  exists base, events db' = events db ++ event_rows chosen cid None None base evs.
Proof.
  intros Hev. unfold append_any, mbind, sql_bind.
  destruct (acquire_for_write chosen db) as [e|[sid db1]] eqn:Ha; [done|]. intros Hap.
  pose proof (acquire_for_write_wf _ _ _ _ Hev Ha) as (Hev1 & -> & He1 & Hs1 & [n Hn]).
  pose proof (append_wf _ _ _ _ _ _ _ _ Hev1 Hap) as Hev2.
  assert (Hsame : commands db1 = commands db /\ aggregates db1 = aggregates db /\
    instances db1 = instances db /\ deadlines db1 = deadlines db /\ checkpoints db1 = checkpoints db).
  { unfold acquire_for_write in Ha. destruct (streams db !! chosen); by injection Ha as <-. }
  destruct Hsame as (Hc & Hg & Hi & Hd & Hcp).
  apply append_inr in Hap as [(? & _)|(base & Hb & -> & Hne & ->)]; [congruence|].
  cbn [events streams commands aggregates instances deadlines checkpoints set_events set_streams].
  split_and!; [exact Hev2|done..| |by exists base; rewrite He1].
  intros sid m Hm. rewrite lookup_insert. case_decide as Heq.
  - subst sid. eexists. split; [done|]. pose proof (len_nonneg evs).
    destruct Hs1 as [Hs1|[Hnone Hs1]]; [|congruence]. rewrite Hs1 in Hb. rewrite Hm in Hb.
    injection Hb as <-. lia.
  - exists m. split; [|lia]. destruct Hs1 as [->|[Hnone ->]]; [done|].
    by rewrite lookup_insert_ne by done.
Qed.

(** What a delivery has done when it succeeds. *)
Definition handled (i : inputs) (del : Delivery) (env : Envelope) (db db' : DB) : Prop :=
  exists command packer args base cid,
    UnpackMessage env = inr command /\
    record_events (HandleCommand (in_world i) command) (PackEffects (in_world i) env key "")
      = (packer, Ret None) /\
    event_args (packed packer) = inr args /\
    is_Some (commands db !! MessageID del) /\
    commands db' = delete (MessageID del) (commands db) /\
    events db' = events db ++ event_rows (in_chosen i) cid None None base args.

(** The command is not handled: it can not be unmarshaled, the handler fails or panics, or
    the events that it recorded can not be marshaled. *)
Definition refused (i : inputs) (env : Envelope) : Prop :=
  match UnpackMessage env with
  | inl _ => True
  | inr command =>
      match record_events (HandleCommand (in_world i) command) (PackEffects (in_world i) env key "") with
      | (packer, Ret None) => exists e, event_args (packed packer) = inl e
      | _ => True
      end
  end.

(** Nothing that other handlers depend on changes. *)
Definition foreign_same (db db' : DB) : Prop :=
  aggregates db' = aggregates db /\ instances db' = instances db /\ deadlines db' = deadlines db /\
  checkpoints db' = checkpoints db /\
  (forall sid n, streams db !! sid = Some n -> exists n', streams db' !! sid = Some n' /\ n <= n').

Lemma foreign_same_refl db : foreign_same db db.
Proof. split_and!; try done. intros sid n Hn. exists n. split; [done|lia]. Qed.

(** The handler's call, and when it is not nil: the handler did not handle the command, or
    a statement failed. *)
Lemma call_handler_cases i env command :
  let res := record_events (HandleCommand (in_world i) command) (PackEffects (in_world i) env key "") in
  (exists l r, call_handler i env command = (l, res.1, Ret r) /\ (r = None <-> res.2 = Ret None)) \/
  (aborted i = true /\ exists l packer e, call_handler i env command = (l, packer, Ret (Some e))).
Proof.
  intros res. unfold call_handler, EnforceConcurrencyPreference, aborted.
  destruct Concurrency; [destruct (in_lock_err i); [|destruct (in_unlock_err i)]|];
    cbn [perform unlock]; subst res;
    destruct (record_events (HandleCommand (in_world i) command) (PackEffects (in_world i) env key ""))
      as [packer [[e'|]|v]]; cbn.
  all: try (right; split; [reflexivity|by repeat eexists]).
  all: left; eexists _, _; split; [done|]; split; congruence.
Qed.

Lemma call_handler_ok i env command l packer :
  call_handler i env command = (l, packer, Ret None) ->
  record_events (HandleCommand (in_world i) command) (PackEffects (in_world i) env key "") = (packer, Ret None).
Proof.
  intros Hc. destruct (call_handler_cases i env command) as [(l' & r & Hc' & Hr)|(_ & l' & p' & e & Hc')];
    rewrite Hc in Hc'; [|done]. injection Hc' as <- -> <-.
  rewrite <- (proj1 Hr eq_refl). apply surjective_pairing.
Qed.

Lemma call_handler_failed i env command l packer r :
  call_handler i env command = (l, packer, r) -> r <> Ret None ->
  aborted i = true \/
  forall packer', record_events (HandleCommand (in_world i) command) (PackEffects (in_world i) env key "")
    <> (packer', Ret None).
Proof.
  intros Hc Hne. destruct (call_handler_cases i env command) as [(l' & r' & Hc' & Hr)|[Ha _]]; [|by left].
  right. intros packer' Heq. rewrite Heq in Hc', Hr. rewrite Hc in Hc'. injection Hc' as _ _ ->.
  apply Hne. f_equal. by apply Hr.
Qed.

Lemma append_any_foreign chosen cid evs db e : append_any chosen cid evs db = inl e -> foreign e.
Proof.
  apply sql_bind_foreign; [|intros sid db1 e1; apply append_foreign].
  intros e1. unfold acquire_for_write. by destruct (streams db !! chosen).
Qed.

Lemma complete_with_events_foreign chosen mid cid evs db e :
  complete_with_events chosen mid cid evs db = inl e -> foreign e.
Proof.
  apply sql_bind_foreign; [apply commandqueue_remove_foreign|]. intros _ db1 e1.
  apply sql_bind_foreign; [apply append_any_foreign|done].
Qed.

Lemma integration_HandleDelivery_spec i del env db db' res :
  events_wf db -> HandleDelivery i del env db = (db', res) ->
  match res with
  | inl e => db' = db /\ (refused i env \/ aborted i = true \/ foreign e)
  | inr _ => events_wf db' /\ foreign_same db db' /\ handled i del env db db'
  end.
Proof.
  intros Hev. unfold HandleDelivery, refused.
  destruct (UnpackMessage env) as [e|command] eqn:Hun; [intros [= <- <-]; auto|].
  destruct (call_handler i env command) as [[l packer] r] eqn:Hcall.
  assert (Hbad : r <> Ret None ->
    (match record_events (HandleCommand (in_world i) command) (PackEffects (in_world i) env key "") with
     | (packer, Ret None) => exists e, event_args (packed packer) = inl e
     | _ => True end) \/ aborted i = true).
  { intros Hr. destruct (call_handler_failed i env command l packer r Hcall Hr) as [|Hno]; [by right|]. left.
    destruct (record_events _ _) as [packer' [[?|]|?]]; [done| |done]. by destruct (Hno packer'). }
  destruct r as [[e|]|v]; [intros [= <- <-]; split; [done|]; destruct Hbad; auto| |
    intros [= <- <-]; split; [done|]; destruct Hbad; auto].
  clear Hbad. pose proof (call_handler_ok i env command l packer Hcall) as Hrec. rewrite Hrec.
  rewrite Seal_packed. destruct (packed packer) as [|e0 es] eqn:Hp.
  - unfold completeWithoutEvents, stmt, wrap.
    destruct (commandqueue_remove (MessageID del) db) as [e|[[] db1]] eqn:Hc; intros [= <- <-].
    { split; [done|]. right; right. by apply commandqueue_remove_foreign in Hc. }
    apply commandqueue_remove_inr in Hc as [Hs ->].
    split_and!; [exact Hev|exact (foreign_same_refl db)|].
    exists command, packer, [], 0, 0%N. rewrite Hp. split_and!; try done.
    symmetry. apply app_nil_r.
  - unfold completeWithEvents, stmt, wrap.
    destruct (event_args (e0 :: es)) as [e|args] eqn:Hargs; [intros [= <- <-]; eauto|].
    destruct (complete_with_events _ _ _ args db) as [e|[[] db2]] eqn:Hcomp; intros [= <- <-].
    { split; [done|]. right; right. by apply complete_with_events_foreign in Hcomp. }
    unfold complete_with_events in Hcomp. apply sql_bind_inr in Hcomp as ([] & db1 & Hc & Hcomp).
    apply commandqueue_remove_inr in Hc as [Hs ->]. apply sql_bind_inr in Hcomp as (x & db3 & Happ & [= <-]).
    apply append_any_wf in Happ as (Hev2 & Hc2 & Ha2 & Hi2 & Hd2 & Hcp2 & Hst & base & He2); [|exact Hev].
    split; [done|]. split; [by split_and!|].
    eexists command, packer, args, base, _. rewrite Hp. split_and!; try done.
Qed.
End integration.

(** What the transaction of a delivery leaves. *)
Lemma integration_doHandle `{IntegrationMessageHandler} key pref outbound i types p r cerr
    del env db db' err :
  events_wf db ->
  doHandle (H := CommandPump key pref outbound i types) p r cerr del env db db = Ret (db', err) ->
  events_wf db' /\ foreign_same db db' /\
  ((err = None /\ handled key outbound i del env db db') \/
   (err = None /\ aborted pref i = false /\ refused key outbound i env /\ events db' = events db /\
    postponed p r (Now (in_world i)) del (commands db) (commands db')) \/
   (is_Some err /\ db' = db)).
Proof.
  intros Hev. unfold CommandPump. destruct (in_fault i) as [e|]; intros Hd.
  { apply doHandle_faulty in Hd as [? ->]. split_and!; [done|apply foreign_same_refl|by right; right]. }
  apply doHandle_cases in Hd as [[-> Hd]|[(-> & tx' & e & del' & delay & Hd & Hpm & Hp)|[? ->]]];
    [| |split_and!; [done|apply foreign_same_refl|by right; right]]; cbn in Hd;
    destruct (HandleDelivery key pref outbound i del env db) as [db1 res] eqn:Hh;
    apply integration_HandleDelivery_spec in Hh; try done; destruct res as [e'|[]]; try done.
  - injection Hd as <-. destruct Hh as (? & ? & ?). split_and!; [done..|by left].
  - injection Hd as <- <-. destruct Hh as [-> Hwhy]. cbn in Hp. destruct (aborted pref i) eqn:Hab; [done|].
    assert (Href : refused key outbound i env).
    { destruct Hwhy as [?|[?|[Hf Hb]]]; [done|done|]. destruct Hpm as [_ Hpm]. rewrite Hf, Hb in Hpm. by destruct Hpm. }
    apply (PostponeCommandDelivery_postponed p r _ del e') in Hp as [Hp Hdb']; [|done].
    rewrite Hdb' in *. split_and!; [exact Hev|exact (foreign_same_refl db)|]. right; left. by split_and!.
Qed.

(** ** Properties *)


(** ** An example

    A command (below 10) records one event (from 20). *)

Section example.
#[local] Existing Instance Example.messaging.

#[local] Instance gateway : IntegrationMessageHandler := {|
  HandleCommand _ c := CallRecordEvent (c + 20)%N (Return None);
|}.

Definition example_command : Envelope :=
  mkEnvelope (mkHeader 1 0 "") (mkBody 1 1 "" 0 0 "" NoPosition).

Definition example_queued : DB := set_commands empty_db {[1%N := mkCommandRow 1 "" 0 0]}.

Definition example_meets : inputs := mkInputs ((0, 100%N) : World) None None 3 ∅ 40 None.
End example.

