(* ===== verification/Projection.v ===== *)
(** * Projection message handlers

    Models [internal/projection]: the sink that dispatches the events of a stream to
    a handler ([sink.go], [eventscope.go]), the compactor ([compactor.go]) and the
    initialization of the handler's row ([initialize.go]).

    A projection keeps its own checkpoint and may refuse an event if the checkpoint
    that it is given is not the current one.  What it promises is
    [projection_contract]; with it, the sink keeps the promise of a sink to the
    stream consumer, so each event is applied exactly once. *)

From S2P Require Import Prelude Errors Stream Database Handler Concurrency.
From S2P Require Feed Catalog Cluster Supervisor Consumer.

(** ** Handlers *)

(** What a handler sees of the event's position: [eventScope]. *)
Record eventScope := mkEventScope {
  streamID : string;
  offset : Z;
  recordedAt : Z;
  checkpointOffset : Z;
}.

(** [dogma.ProjectionMessageHandler]; [Projection] is the handler's own storage. *)
Class ProjectionMessageHandler `{Messaging} := {
  Projection : Type;
  HandlerCheckpointOffset : World -> string -> Projection -> go (error + Z);
  HandleEvent : World -> eventScope -> Message -> Projection -> Projection * go (error + Z);
  Compact : World -> Projection -> Projection * go (option error);
}.

Section sink.
Context `{ProjectionMessageHandler}.
Context (AsString : UUID -> string).   (* package uuidpb *)

(** [Sink] *)
Record Sink := mkSink {
  key : UUID;                               (* of Identity *)
  Concurrency : ConcurrencyPreference;
  EventTypes : gset UUID;
  HasHandlerLock : bool;                    (* HandlerLock is not nil *)
}.

Context (s : Sink).

(** What a call of the handler meets: the outcome of acquiring [HandlerLock], and
    what other consumers do to the projection before the call. *)
Record turn := mkTurn {
  world : World;
  lock_err : option error;
  others : Projection -> Projection;
}.

Definition CheckpointOffset (w : World) (sid : UUID) (p : Projection) : error + Z :=
  match Recover (HandlerCheckpointOffset w (AsString sid) p) with
  | inl err => inl (Wrap "unable to load checkpoint offset" err)
  | inr cp => inr cp
  end.

(** What the handler is told about an event. *)
Definition scope (sid : UUID) (o cp : Z) (env : Envelope) : eventScope :=
  mkEventScope (AsString sid) o (body_created_at (env_body env)) cp.

Definition dispatch (t : turn) (sid : UUID) (o cp : Z) (env : Envelope) (p : Projection)
    : Projection * (error + Z) :=
  match UnpackMessage env with
  | inl err => (p, inl (Wrap "unable to unmarshal event" err))
  | inr event =>
      let acquire_err := if HasHandlerLock s then lock_err t else None in
      match acquire_err with
      | Some err => (p, inl err)
      | None =>
          let '(p, r) := HandleEvent (world t) (scope sid o cp env) event (others t p) in
          match Recover r with
          | inl err => (p, inl (Wrap "unable to handle event" err))
          | inr next => (p, inr next)
          end
      end
  end.

(** [ConsumeSegment]; the n'th event takes the n'th turn. *)
Fixpoint ConsumeSegment_loop (turns : nat -> turn) (sid : UUID) (cp : Z)
    (envelopes : list Envelope) (p : Projection) : go (Z * bool * option error * Projection) :=
  match envelopes with
  | [] => Ret (cp, true, None, p)
  | env :: envelopes' =>
      o ← offsetOf env;
      match dispatch (turns O) sid o cp env p with
      | (p, inl err) => Ret (cp, false, Some err, p)
      | (p, inr next) =>
          if decide (next <> u64 (o + 1)) then Ret (cp, false, None, p)
          else ConsumeSegment_loop (fun n => turns (S n)) sid next envelopes' p
      end
  end.

Definition ConsumeSegment (turns : nat -> turn) (cp : Z) (seg : Segment) (p : Projection)
    : go (Z * bool * option error * Projection) :=
  ConsumeSegment_loop turns (seg_stream seg) cp (seg_envelopes seg) p.

(** [Derive] is of package uuidpb. *)
Definition Workload (Derive : UUID -> string -> UUID) (sid : UUID) : UUID :=
  match Concurrency s with
  | MinimizeConcurrency => key s
  | MaximizeConcurrency => Derive (key s) (AsString sid)
  end.

(** ** What a projection promises

    [log] are the events of a stream that the projection reflects, with their
    offsets, and [checkpoint] is its checkpoint.  An event is applied, with the
    checkpoint, in one step, and only if the checkpoint is the one that the scope
    has; whatever else happens, the projection does not change.  The offset that is
    returned is the checkpoint.  (The engine's private errors are not known to
    handlers.) *)

Record projection_contract := mkContract {
  log : string -> Projection -> list (Z * Message);
  checkpoint : string -> Projection -> Z;
  HandleEvent_applies w sc m p p' r :
    HandleEvent w sc m p = (p', r) ->
    (forall id, log id p' = log id p /\ checkpoint id p' = checkpoint id p) \/
    (checkpoint (streamID sc) p = checkpointOffset sc /\
     checkpoint (streamID sc) p' = offset sc + 1 /\
     log (streamID sc) p' = log (streamID sc) p ++ [(offset sc, m)] /\
     forall id, id <> streamID sc -> log id p' = log id p /\ checkpoint id p' = checkpoint id p);
  HandleEvent_result w sc m p p' next :
    HandleEvent w sc m p = (p', Ret (inr next)) -> next = checkpoint (streamID sc) p';
  HandleEvent_error w sc m p p' e :
    HandleEvent w sc m p = (p', Ret (inl e)) -> Is e errFeedClosed = false;
  Compact_keeps w p id :
    log id (Compact w p).1 = log id p /\ checkpoint id (Compact w p).1 = checkpoint id p;
  CheckpointOffset_result w id p cp :
    HandlerCheckpointOffset w id p = Ret (inr cp) -> cp = checkpoint id p;
}.
Context (C : projection_contract).
Context (Hunpack : forall env e, UnpackMessage env = inl e -> Is e errFeedClosed = false).

(** ** Exactly once *)

Section stream.
Context (sid : UUID) (h : list Envelope) (e_h : Z).
Context (Hh : in_range sid 0 e_h h) (Hmax : e_h < 2 ^ 63).
Abbreviation types := (Some (EventTypes s)) (only parsing).
Abbreviation chk := (checkpoint C (AsString sid)) (only parsing).

(** From [b] on, the events of interest are those from [cp] on. *)
Definition reaches (cp b : Z) : Prop := cp <= b /\ between types cp b h = [].

(** The first event of interest from [cp] on. *)
Definition next_event (cp : Z) (e : Envelope) : Prop :=
  cp <= off e < e_h /\ between types cp (off e + 1) h = [e].

(** What a consumer of the stream, of this node or another, may do to the
    projection, and what else may happen to it. *)
Inductive projection_step : Projection -> Projection -> Prop :=
| step_event w e m cp p :
    next_event cp e -> UnpackMessage e = inr m ->
    projection_step p (HandleEvent w (scope sid (off e) cp e) m p).1
| step_other w sc m p :
    streamID sc <> AsString sid -> projection_step p (HandleEvent w sc m p).1
| step_compact w p : projection_step p (Compact w p).1.

(** An entry of the log and the event that it is of. *)
Definition entry_of (x : Z * Message) (e : Envelope) : Prop :=
  x.1 = off e /\ UnpackMessage e = inr x.2.

(** The projection reflects each event of interest before its checkpoint once, in
    order. *)
Definition reflects (p : Projection) : Prop :=
  0 <= chk p /\ Forall2 entry_of (log C (AsString sid) p) (between types 0 (chk p) h).

Lemma reflects_same p p' :
  log C (AsString sid) p' = log C (AsString sid) p -> chk p' = chk p -> reflects p -> reflects p'.
Proof. unfold reflects. by intros -> ->. Qed.

Lemma projection_step_reflects p p' :
  projection_step p p' -> reflects p -> reflects p' /\ chk p <= chk p'.
Proof using Hh.
  intros Hs Hr. destruct Hs as [w e m cp p [Hcp Hn] Hm|w sc m p Hne|w p].
  - destruct (HandleEvent w (scope sid (off e) cp e) m p) as [p' r] eqn:He. cbn [fst].
    apply (HandleEvent_applies C) in He as [He|(Hc & Hc' & Hl & _)].
    { destruct (He (AsString sid)) as [Hl Hc]. split; [by eapply reflects_same|lia]. }
    cbn in Hc, Hc', Hl. destruct Hr as [Hpos Hr]. split; [|lia]. split; [lia|].
    rewrite Hl, Hc'. rewrite <- (between_app sid types 0 e_h h 0 cp (off e + 1)) by (done || lia).
    rewrite Hn. apply Forall2_app; [by rewrite <- Hc|]. repeat constructor. exact Hm.
  - destruct (HandleEvent w sc m p) as [p' r] eqn:He. cbn [fst].
    apply (HandleEvent_applies C) in He as [He|(_ & _ & _ & He)].
    + destruct (He (AsString sid)) as [Hl Hc]. split; [by eapply reflects_same|lia].
    + destruct (He (AsString sid)) as [Hl Hc]; [done|]. split; [by eapply reflects_same|lia].
  - destruct (Compact_keeps C w p (AsString sid)) as [Hl Hc]. split; [by eapply reflects_same|lia].
Qed.

Lemma projection_steps_reflect p p' :
  rtc projection_step p p' -> reflects p -> reflects p' /\ chk p <= chk p'.
Proof using Hh.
  induction 1 as [p|p p1 p' Hs _ IH]; intros Hr; [split; [done|lia]|].
  destruct (projection_step_reflects _ _ Hs Hr) as [Hr1 ?]. destruct (IH Hr1). split; [done|lia].
Qed.

(** Other consumers of the stream take such steps, and the errors of [ctx] are not
    the engine's. *)
Definition turns_ok (turns : nat -> turn) : Prop := forall n,
  (forall p, reflects p -> rtc projection_step p (others (turns n) p)) /\
  IsOpt (lock_err (turns n)) errFeedClosed = false.

Lemma dispatch_steps t cp e p p' r :
  next_event cp e -> reflects p ->
  (forall p, reflects p -> rtc projection_step p (others t p)) ->
  IsOpt (lock_err t) errFeedClosed = false ->
  dispatch t sid (off e) cp e p = (p', r) ->
  rtc projection_step p p' /\
  match r with inl err => Is err errFeedClosed = false | inr next => next = chk p' end.
Proof using Hunpack.
  intros Hn Hr Ho Hl. unfold dispatch. destruct (UnpackMessage e) as [err|m] eqn:Hm.
  { intros [= <- <-]. split; [apply rtc_refl|]. exact (Hunpack e _ Hm). }
  destruct (if HasHandlerLock s then lock_err t else None) as [err|] eqn:Herr.
  { intros [= <- <-]. split; [apply rtc_refl|]. destruct (HasHandlerLock s); [|done].
    by rewrite Herr in Hl. }
  destruct (HandleEvent _ _ m (others t p)) as [p1 r1] eqn:He.
  assert (Hs : rtc projection_step p p1).
  { eapply rtc_r; [by apply Ho|]. replace p1 with (HandleEvent (world t) (scope sid (off e) cp e) m (others t p)).1
      by (by rewrite He). by apply step_event. }
  destruct r1 as [[err|next]|v]; cbn; intros [= <- <-]; (split; [done|]).
  - by apply (HandleEvent_error C) in He.
  - by apply (HandleEvent_result C) in He.
  - done.
Qed.

(** What [ConsumeSegment] does, from any position of a segment. *)
Lemma ConsumeSegment_loop_steps hi es turns b cp p :
  turns_ok turns -> es = between types b hi h -> b <= hi -> reaches cp b -> 0 <= cp <= chk p ->
  reflects p ->
  exists r ok err p', ConsumeSegment_loop turns sid cp es p = Ret (r, ok, err, p') /\
    rtc projection_step p p' /\ cp <= r <= chk p' /\ IsOpt err errFeedClosed = false /\
    (ok = true -> err = None /\ reaches r hi).
Proof using Hh Hmax Hunpack.
  revert turns b cp p. induction es as [|e es IH]; intros turns b cp p Ht Hes Hb [Hcb Hnil] Hcp Hr; cbn.
  { exists cp, true, None, p. split_and!; try done; try lia. intros _.
    split; [done|]. split; [lia|].
    rewrite <- (between_app sid types 0 e_h h cp b hi) by (done || lia). by rewrite Hnil, <- Hes. }
  destruct (between_head sid types 0 e_h b hi h e es Hh Hb (eq_sym Hes))
    as (Ho & Hp & Hin & _ & Hes' & Hone).
  pose proof (in_range_elem _ _ _ _ _ Hh Hin) as [_ Hoff].
  assert (Hn : next_event cp e).
  { split; [lia|]. rewrite <- (between_app sid types 0 e_h h cp b (off e + 1)) by (done || lia).
    rewrite Hnil. apply Hone. lia. }
  rewrite (offsetOf_positioned _ _ Hp). cbn.
  destruct (dispatch (turns O) sid (off e) cp e p) as [p1 r1] eqn:Hd.
  destruct (Ht O) as [Ho1 Hl1]. apply dispatch_steps in Hd as [Hs Hr1]; try done.
  destruct (projection_steps_reflect _ _ Hs Hr) as [Hrp1 Hmono].
  destruct r1 as [err|next].
  { exists cp, false, (Some err), p1. split_and!; try done; lia. }
  case_decide as Hnext; [exists cp, false, None, p1; split_and!; try done; lia|].
  rewrite Hnext in *. rewrite u64_id in * by (unfold is_u64, u64_modulus; lia).
  destruct (IH (fun n => turns (S n)) (off e + 1) (off e + 1) p1) as (r & ok & err & p' & Hl & Hs' & ?); try lia.
  - intros n. apply (Ht (S n)).
  - done.
  - split; [lia|]. apply between_empty. lia.
  - done.
  - exists r, ok, err, p'. rewrite Hl. split_and!; try done; [by etrans|lia|tauto..].
Qed.
End stream.
End sink.

(** ** The sink of the stream consumer *)

Section projection_sink.
Context `{ProjectionMessageHandler}.
Context (AsString : UUID -> string) (Derive : UUID -> string -> UUID) (s : Sink).

(** What one call of the sink meets: the world and what others do before the
    checkpoint is loaded, or the turns of the events of a segment. *)
Record call := mkCall {
  call_world : World;
  before : Projection -> Projection;
  turns : nat -> turn;
}.

Context (calls : nat -> call).

(** The state is the number of calls made and the projection.  A panic ends the
    program: [projection_sink_spec] shows that there is none. *)
#[local] Instance projection_sink : Consumer.Sink (nat * Projection) := {|
  Consumer.Workload := Workload AsString s Derive;
  Consumer.EventTypeIDs := EventTypes s;
  Consumer.CheckpointOffset sid '(n, p) :=
    let p := before (calls n) p in
    ((S n, p), CheckpointOffset AsString (call_world (calls n)) sid p);
  Consumer.ConsumeSegment cp seg '(n, p) :=
    match ConsumeSegment AsString s (turns (calls n)) cp seg p with
    | Ret (r, ok, err, p') => ((S n, p'), (r, ok, err))
    | Panic v => ((S n, p), (cp, false, Some (PanicError v)))
    end;
|}.

Context (C : projection_contract).
Context (Hunpack : forall env e, UnpackMessage env = inl e -> Is e errFeedClosed = false).
Context (sid : UUID) (h : list Envelope) (e_h : Z).
Context (Hh : in_range sid 0 e_h h) (Hmax : e_h < 2 ^ 63).

Definition calls_ok : Prop := forall n,
  turns_ok AsString s C sid h e_h (turns (calls n)) /\
  forall p, reflects AsString s C sid h p ->
    rtc (projection_step AsString s sid h e_h) p (before (calls n) p).

Context (Hcalls : calls_ok) (p0 : Projection) (Hp0 : reflects AsString s C sid h p0).

Definition projection_good (st : nat * Projection) : Prop :=
  rtc (projection_step AsString s sid h e_h) p0 st.2.

Lemma projection_good_reflects st : projection_good st -> reflects AsString s C sid h st.2.
Proof using Hh Hp0. intros Hg. by destruct (projection_steps_reflect AsString s C sid h e_h Hh _ _ Hg Hp0). Qed.

(** The sink of a projection keeps the promise of a sink. *)
Definition projection_sink_spec : Consumer.SinkSpec (nat * Projection) sid h.
Proof using Hunpack Hh Hmax Hcalls Hp0.
  refine (Consumer.mkSinkSpec _ _ sid h projection_good
    (fun st => checkpoint C (AsString sid) st.2) (reaches s h) _ _ _).
  - intros cp. split; [lia|]. apply between_empty. lia.
  - intros [n p] st' r Hg. cbn. intros [= <- <-].
    pose proof (projection_good_reflects _ Hg) as Hr. destruct (Hcalls n) as [_ Hb].
    destruct (projection_steps_reflect AsString s C sid h e_h Hh _ _ (Hb p Hr) Hr) as [[Hpos _] Hmono].
    split_and!; [unfold projection_good; etrans; [exact Hg|by apply Hb]|done|].
    intros cp. unfold CheckpointOffset, Recover.
    destruct (HandlerCheckpointOffset _ _ _) as [[err|cp']|v] eqn:Hc; try done. intros [= <-].
    apply (CheckpointOffset_result C) in Hc. cbn. lia.
  - intros [n p] cp seg st' r ok err Hg Hseg [Hle Hf] Hb Hcp Hreach Hc.
    pose proof (projection_good_reflects _ Hg) as Hr. destruct (Hcalls n) as [Ht _].
    destruct (ConsumeSegment_loop_steps AsString s C Hunpack sid h e_h Hh Hmax (seg_end seg)
      (seg_envelopes seg) (turns (calls n)) (seg_begin seg) cp p Ht Hf Hle Hreach Hcp Hr)
      as (r' & ok' & err' & p' & Hl & Hs & Hrr & Herr & Hok).
    cbn in Hc. unfold ConsumeSegment in Hc. rewrite Hseg, Hl in Hc. injection Hc as <- <- <- <-.
    destruct (projection_steps_reflect AsString s C sid h e_h Hh _ _ Hs Hr) as [_ Hmono].
    split_and!; cbn; try done; try lia.
    + unfold projection_good. by etrans.
    + intros Htrue _. by apply Hok.
    + by rewrite Herr.
Defined.
End projection_sink.

(** ** Compaction *)

(** [InitializeHandler]; [now] is clock_timestamp(). *)
Definition InitializeHandler (exec_err : option error) (now : Z) (key : UUID) (db : DB)
    : DB * option error :=
  match exec_err with
  | Some e => (db, Some (Wrap "unable to insert handler" e))
  | None =>
      match compacted db !! key with
      | Some _ => (db, None)
      | None => (set_compacted db (<[key := now]> (compacted db)), None)
      end
  end.

(** [Compactor] *)
Record Compactor := mkCompactor { c_key : UUID; Interval : Z; Timeout : Z }.

Section compactor.
Context `{ProjectionMessageHandler}.
Context (c : Compactor).

(** What an attempt meets: the transaction's faults, whether another transaction has
    the row locked, the clock at each of the two statements and their faults. *)
Record attempt := mkAttempt {
  ta_tx : TxEnv;
  ta_locked : bool;
  ta_query_err : option error;
  ta_queried_at : Z;
  ta_world : World;
  ta_update_err : option error;
  ta_updated_at : Z;
}.

(** The query of [tryCompact]: whether the row of the handler was locked. *)
Definition acquire_compaction (query_err : option error) (locked : bool) (now : Z) (db : DB)
    : error + bool :=
  match query_err with
  | Some e => inl (Wrap "unable to acquire compaction lock" e)
  | None =>
      match compacted db !! c_key c with
      | Some last_compacted_at =>
          inr (bool_decide (now - last_compacted_at >= Interval c) && negb locked)
      | None => inr false
      end
  end.

(** The update of [tryCompact]. *)
Definition update_compacted (update_err : option error) (now : Z) : sql unit := fun db =>
  match update_err with
  | Some e => inl (Wrap "unable to update compaction timestamp" e)
  | None => inr (tt, set_compacted db (alter (fun _ => now) (c_key c) (compacted db)))
  end.

(** The function that [tryCompact] gives to [Transact], where the call of the handler,
    if it is made, has the given outcome. *)
Definition compact_tx (a : attempt) (compact : go (option error)) : sql unit := fun db =>
  match acquire_compaction (ta_query_err a) (ta_locked a) (ta_queried_at a) db with
  | inl e => inl e
  | inr false => inr (tt, db)
  | inr true =>
      match Recover (err ← compact; Ret (match err with Some e => inl e | None => inr tt end)) with
      | inl e => inl (Persistent (Wrap "unable to compact projection" e))
      | inr _ => update_compacted (ta_update_err a) (ta_updated_at a) db
      end
  end.

(** Whether the handler is called. *)
Definition compacts (a : attempt) (db : DB) : bool :=
  match begin_err (ta_tx a) with
  | Some _ => false
  | None =>
      match acquire_compaction (ta_query_err a) (ta_locked a) (ta_queried_at a) db with
      | inr true => true
      | _ => false
      end
  end.

Definition tryCompact (a : attempt) (db : DB) (p : Projection) : DB * Projection * option error :=
  let '(p', r) := Compact (ta_world a) p in
  let '(res, db') := Transact (ta_tx a) (compact_tx a r) db in
  (db', if compacts a db then p' else p, match res with inl e => Some e | inr _ => None end).

(** [run]: the loop ends if an attempt fails, or if ctx is canceled while it waits for
    the interval to pass.  The result is [None] while it is waiting. *)
Fixpoint run (attempts : list (attempt * option error)) (db : DB) (p : Projection)
    : DB * Projection * option error :=
  match attempts with
  | [] => (db, p, None)
  | (a, ctx_err) :: attempts' =>
      match tryCompact a db p with
      | (db, p, Some e) => (db, p, Some e)
      | (db, p, None) =>
          match ctx_err with
          | Some e => (db, p, Some e)
          | None => run attempts' db p
          end
      end
  end.

(** [Run], for the outcomes of the calls of [run]. *)
Definition Run (outcomes : list Supervisor.attempt) : go (Supervisor.result * Supervisor.state) :=
  if decide (Interval c <= 0) then Panic "compaction interval must be positive"
  else if decide (Timeout c <= 0) then Panic "compaction timeout must be positive"
  else Supervisor.Run false outcomes None.

(** *** The compactors of a cluster

    The transactions of several nodes, interleaved: the row of the handler is locked
    while one of them compacts the projection. *)

Record cluster := mkCluster {
  clock : Z;                          (* of the database server *)
  cdb : DB;
  holder : option (nat * Z);          (* who has the row locked, and since when *)
  compactions : list (Z * Z);         (* when the compactions that committed began and ended *)
}.

Inductive compaction_step : cluster -> cluster -> Prop :=
| step_tick now now' db l cs :
    now <= now' -> compaction_step (mkCluster now db l cs) (mkCluster now' db l cs)
| step_initialize e now db l cs :
    compaction_step (mkCluster now db l cs)
      (mkCluster now (InitializeHandler e now (c_key c) db).1 l cs)
| step_acquire n now db cs :
    acquire_compaction None false now db = inr true ->
    compaction_step (mkCluster now db None cs) (mkCluster now db (Some (n, now)) cs)
| step_commit n t now db db' cs :
    update_compacted None now db = inr (tt, db') ->
    compaction_step (mkCluster now db (Some (n, t)) cs) (mkCluster now db' None (cs ++ [(t, now)]))
| step_rollback n t now db cs :
    compaction_step (mkCluster now db (Some (n, t)) cs) (mkCluster now db None cs).

(** The committed compactions are within their time, and further apart than the
    interval. *)
Definition spaced (interval : Z) (cs : list (Z * Z)) : Prop :=
  Forall (fun x => x.1 <= x.2) cs /\
  StronglySorted (fun x y => x.2 + interval <= y.1) cs.

Definition cluster_wf (s : cluster) : Prop :=
  spaced (Interval c) (compactions s) /\
  match compacted (cdb s) !! c_key c with
  | None => holder s = None /\ compactions s = []
  | Some last =>
      last <= clock s /\ Forall (fun x => x.2 <= last) (compactions s) /\
      match holder s with Some (_, t) => last + Interval c <= t <= clock s | None => True end
  end.

Lemma compaction_step_wf s s' : cluster_wf s -> compaction_step s s' -> cluster_wf s'.
Proof.
  intros [Hsp Hw] Hs. destruct Hs as [now now' db l cs Hle|e now db l cs|n now db cs Ha|
    n t now db db' cs Hu|n t now db cs]; split; cbn in *; try done.
  - destruct (compacted db !! c_key c) as [last|]; [|done]. destruct Hw as (? & ? & Hl).
    split_and!; [lia|done|]. destruct l as [[n t]|]; [lia|done].
  - unfold InitializeHandler. destruct e; [done|].
    destruct (compacted db !! c_key c) as [last|] eqn:Hc; cbn; [by rewrite Hc|].
    rewrite lookup_insert_eq. destruct Hw as [-> ->]. split_and!; [lia|constructor|done].
  - unfold acquire_compaction in Ha. destruct (compacted db !! c_key c) as [last|]; [|done].
    injection Ha as Ha. apply andb_prop in Ha as [Ha%bool_decide_eq_true _].
    destruct Hw as (? & ? & _). split_and!; [done..|lia|lia].
  - destruct Hsp as [Hle Hsp]. destruct (compacted db !! c_key c) as [last|]; [|by destruct Hw].
    destruct Hw as (? & Hall & ?). split.
    + apply Forall_app. split; [done|]. constructor; [cbn; lia|constructor].
    + apply StronglySorted_app. split_and!; [|done|repeat constructor].
      intros x y Hx ->%list_elem_of_singleton. rewrite Forall_forall in Hall.
      specialize (Hall x Hx). cbn. lia.
  - injection Hu as <-. cbn. rewrite lookup_alter_eq.
    destruct (compacted db !! c_key c) as [last|]; cbn; [|by destruct Hw].
    destruct Hw as (? & Hall & ?). split_and!; [lia| |done].
    apply Forall_app. split; [|repeat constructor; cbn; lia].
    eapply Forall_impl; [exact Hall|]. cbn. lia.
  - destruct (compacted db !! c_key c) as [last|]; [|by destruct Hw]. by destruct Hw as (? & ? & _).
Qed.

Lemma compaction_steps_wf s s' : cluster_wf s -> rtc compaction_step s s' -> cluster_wf s'.
Proof. intros Hwf. induction 1; [done|]. eauto using compaction_step_wf. Qed.

(** What an attempt of one node does to the cluster. *)
Definition attempted (a : attempt) (s s' : cluster) (called committed : bool) : Prop :=
  rtc compaction_step s s' /\ holder s' = holder s /\
  compactions s' = compactions s ++
    (if called && committed then [(ta_queried_at a, ta_updated_at a)] else []).

(** An attempt that calls the handler, and then commits or is rolled back. *)
Lemma acquired_steps a (n : nat) s db' (ok : bool) :
  holder s = None -> clock s <= ta_queried_at a <= ta_updated_at a ->
  acquire_compaction None false (ta_queried_at a) (cdb s) = inr true ->
  (if ok then update_compacted None (ta_updated_at a) (cdb s) = inr (tt, db') else db' = cdb s) ->
  exists s', cdb s' = db' /\ attempted a s s' true ok.
Proof.
  intros Hh Ht Hq Hu. destruct s as [now db l cs]. cbn in *. subst l.
  eexists (mkCluster (ta_updated_at a) db' None
    (cs ++ if ok then [(ta_queried_at a, ta_updated_at a)] else [])).
  split; [done|]. split_and!; try done.
  eapply rtc_l; [apply (step_tick now (ta_queried_at a)); lia|].
  eapply rtc_l; [by apply (step_acquire n)|].
  eapply rtc_l; [apply (step_tick _ (ta_updated_at a)); lia|].
  apply rtc_once. destruct ok; [by apply step_commit|]. subst db'. rewrite app_nil_r. apply step_rollback.
Qed.

Lemma tryCompact_steps a (n : nat) s p db' p' err :
  ta_locked a = bool_decide (is_Some (holder s)) -> clock s <= ta_queried_at a <= ta_updated_at a ->
  tryCompact a (cdb s) p = (db', p', err) ->
  (err <> None -> db' = cdb s) /\
  exists s', cdb s' = db' /\ attempted a s s' (compacts a (cdb s)) (bool_decide (err = None)).
Proof.
  intros Hl Ht. unfold tryCompact. destruct (Compact (ta_world a) p) as [p1 r].
  destruct (Transact (ta_tx a) (compact_tx a r) (cdb s)) as [res db1] eqn:Htx. intros [= <- <- <-].
  assert (Hsame : db1 = cdb s -> compacts a (cdb s) = false ->
    exists s', cdb s' = db1 /\
      attempted a s s' (compacts a (cdb s)) (bool_decide ((match res with inl e => Some e | inr _ => None end) = None))).
  { intros -> ->. exists s. split; [done|]. split_and!; try done. cbn. by rewrite app_nil_r. }
  unfold Transact in Htx. unfold compacts in *. destruct (begin_err (ta_tx a)).
  { injection Htx as <- <-. split; [done|]. by apply Hsame. }
  unfold compact_tx in Htx.
  destruct (acquire_compaction _ _ _ _) as [e|[]] eqn:Hq.
  - injection Htx as <- <-. split; [done|]. by apply Hsame.
  - assert (Hfree : ta_query_err a = None /\ holder s = None).
    { unfold acquire_compaction in Hq. destruct (ta_query_err a); [done|]. split; [done|].
      destruct (compacted (cdb s) !! c_key c); [|done]. injection Hq as Hq.
      apply andb_prop in Hq as [_ Hq]. rewrite Hl in Hq. by destruct (holder s). }
    destruct Hfree as [Hqe Hh]. rewrite Hqe in Hq. rewrite Hh in Hl. cbn in Hl. rewrite Hl in Hq.
    assert (Hroll : db1 = cdb s -> is_Some (match res with inl e => Some e | inr _ => None end) ->
      exists s', cdb s' = db1 /\ attempted a s s' true
        (bool_decide ((match res with inl e => Some e | inr _ => None end) = None))).
    { intros -> [e ->]. by apply (acquired_steps a n s (cdb s) false). }
    destruct (Recover _) as [e|[]]; [injection Htx as <- <-; split; [done|by apply Hroll]|].
    unfold update_compacted in Htx.
    destruct (ta_update_err a); [injection Htx as <- <-; split; [done|by apply Hroll]|].
    destruct (commit_err (ta_tx a)); injection Htx as <- <-; [split; [done|by apply Hroll]|].
    split; [done|]. by apply (acquired_steps a n s _ true).
  - destruct (commit_err (ta_tx a)); injection Htx as <- <-; (split; [done|]); by apply Hsame.
Qed.
End compactor.

(** ** Properties *)

(** C4: end to end, for a projection that keeps the contract of its checkpoint:
    whatever the catalog's feeds observe, however often the handler fails, panics,
    refuses an event or commits one and reports an error, and whatever consumers of
    other nodes do in the meantime, the stream consumer does not panic and leaves a
    projection that reflects each event of interest before its checkpoint exactly
    once and in order, and the checkpoint never moves back. *)
Theorem projection_consumer_is_exactly_once `{ProjectionMessageHandler} AsString Derive s calls
    (C : projection_contract) sid h e_h p attempts ctx_err :
  let sink := projection_sink AsString Derive s calls in
  in_range sid 0 e_h h -> e_h < 2 ^ 63 -> EventTypes s <> ∅ ->
  (forall env e, UnpackMessage env = inl e -> Is e errFeedClosed = false) ->
  calls_ok AsString s calls C sid h e_h ->
  Forall (fun a => Forall (Catalog.round_ok sid h (EventTypes s)) (Consumer.at_rounds a)) attempts ->
  reflects AsString s C sid h p ->
  exists n p' r, Consumer.startStreamConsumer attempts ctx_err sid (O, p) = Ret ((n, p'), r) /\
    rtc (projection_step AsString s sid h e_h) p p' /\
    Forall2 entry_of (log C (AsString sid) p')
      (between (Some (EventTypes s)) 0 (checkpoint C (AsString sid) p') h) /\
    checkpoint C (AsString sid) p <= checkpoint C (AsString sid) p'.
Proof.
  intros sink Hh Hmax Hne Hun Hcalls Ha Hp.
  set (spec := projection_sink_spec AsString Derive s calls C Hun sid h e_h Hh Hmax Hcalls p Hp).
  destruct (Consumer.run_stream_good sid h spec attempts [] (O, p) Hne Ha) as ([n p'] & r & Hr & Hg).
  { exact (rtc_refl _ p). }
  change (rtc (projection_step AsString s sid h e_h) p p') in Hg.
  destruct (projection_steps_reflect AsString s C sid h e_h Hh _ _ Hg Hp) as [[_ Hlog] Hmono].
  subst sink. unfold Consumer.startStreamConsumer. rewrite Hr. cbn.
  destruct r as [r|]; [|by exists n, p', None].
  destruct ctx_err as [x|]; [destruct (IsOpt r x)|]; by eexists n, p', _.
Qed.

(** C23: the compactors of all nodes together compact a projection at most once per
    interval: of the compactions that committed, each began at least the interval
    after the one before it ended, so they never overlap.  An attempt calls the
    handler and commits, or changes nothing in the database; while another node has
    the row locked, or if the interval has not passed, the handler is not called. *)
Theorem at_most_one_compaction_per_interval `{ProjectionMessageHandler} c now s :
  rtc (compaction_step c) (mkCluster now empty_db None []) s ->
  spaced (Interval c) (compactions s) /\
  forall a p db' p' err,
    ta_locked a = bool_decide (is_Some (holder s)) -> clock s <= ta_queried_at a <= ta_updated_at a ->
    tryCompact c a (cdb s) p = (db', p', err) ->
    (err <> None -> db' = cdb s) /\
    (compacts c a (cdb s) = false -> p' = p) /\
    (forall t, In t (compactions s) -> ta_queried_at a < t.2 + Interval c ->
       compacts c a (cdb s) = false) /\
    (holder s <> None -> compacts c a (cdb s) = false) /\
    exists s', cdb s' = db' /\ attempted c a s s' (compacts c a (cdb s)) (bool_decide (err = None)).
Proof.
  intros Hr. assert (Hwf : cluster_wf c s).
  { eapply compaction_steps_wf, Hr. split; [by repeat constructor|]. cbn. by rewrite lookup_empty. }
  split; [apply Hwf|]. intros a p db' p' err Hl Ht Htry.
  pose proof (tryCompact_steps c a O s p db' p' err Hl Ht Htry) as [Herr Hst].
  split_and!; try done.
  - unfold tryCompact in Htry. destruct (Compact _ p), (Transact _ _ _).
    intros Hc. rewrite Hc in Htry. by injection Htry as _ <- _.
  - intros t Hin Hlt. unfold compacts. destruct (begin_err _); [done|]. unfold acquire_compaction.
    destruct (ta_query_err a); [done|]. destruct Hwf as [_ Hw].
    destruct (compacted (cdb s) !! c_key c) as [last|]; [|done]. destruct Hw as (_ & Hall & _).
    rewrite List.Forall_forall in Hall. specialize (Hall t Hin).
    by rewrite bool_decide_eq_false_2 by lia.
  - intros Hn. unfold compacts. destruct (begin_err _); [done|]. unfold acquire_compaction.
    destruct (ta_query_err a); [done|]. destruct (compacted (cdb s) !! c_key c); [|done].
    assert (ta_locked a = true) as -> by (rewrite Hl; by destruct (holder s)).
    cbn [negb]. by rewrite andb_false_r.
Qed.

(** ** An example

    A projection that counts the events of each stream; its checkpoint can not be
    loaded at time zero, and its first attempt to handle an event panics. *)

Section example.
#[local] Existing Instance Example.messaging.

Definition entries (id : string) (p : gmap string (Z * list (Z * N))) : Z * list (Z * N) :=
  default (0, []) (p !! id).

#[local] Instance journal : ProjectionMessageHandler := {|
  Projection := gmap string (Z * list (Z * N));
  HandlerCheckpointOffset w id p :=
    if decide (Now w = 0) then Ret (inl (Opaque "connection refused")) else Ret (inr (entries id p).1);
  HandleEvent w sc m p :=
    if decide (Now w = 0) then (p, Panic "not ready")
    else
      let '(cp, l) := entries (streamID sc) p in
      if decide (cp = checkpointOffset sc) then
        (<[streamID sc := (offset sc + 1, l ++ [(offset sc, m)])]> p, Ret (inr (offset sc + 1)))
      else (p, Ret (inr cp));
  Compact w p := (p, if decide (Now w = 0) then Panic "not ready" else Ret None);
|}.

Definition journal_contract : projection_contract.
Proof.
  refine (mkContract (fun id p => (entries id p).2) (fun id p => (entries id p).1) _ _ _ _ _); cbn.
  - intros w sc m p p' r. case_decide; [intros [= <- _]; by left|].
    destruct (entries (streamID sc) p) as [cp l] eqn:He.
    case_decide as Hc; [|intros [= <- _]; by left]. intros [= <- _]. right.
    assert (Hi : forall x, entries (streamID sc) (<[streamID sc := x]> p) = x)
      by (intros x; unfold entries; by rewrite lookup_insert_eq).
    rewrite Hi. split_and!; [done..|]. intros id Hid. unfold entries. by rewrite lookup_insert_ne.
  - intros w sc m p p' next. case_decide; [done|].
    destruct (entries (streamID sc) p) as [cp l] eqn:He.
    case_decide as Hc; intros [= <- <-]; [|by rewrite He].
    unfold entries. by rewrite lookup_insert_eq.
  - intros w sc m p p' e. case_decide; [done|]. destruct (entries (streamID sc) p). by case_decide.
  - done.
  - intros w id p cp. case_decide; [done|]. by intros [= <-].
Defined.

Definition example_AsString (id : UUID) : string := Example.digits (N.succ_pos id).
Definition example_Derive (id : UUID) (s : string) : UUID := (id + N.of_nat (String.length s))%N.

Definition example_sink : Sink := mkSink 7 MinimizeConcurrency Feed.example_ts true.

Definition example_calls (n : nat) : call :=
  mkCall ((Z.of_nat n, 0%N) : World) id (fun _ => mkTurn ((Z.of_nat n, 0%N) : World) None id).
End example.

Lemma projection_consumer_is_exactly_once_witness :
  exists n p', Consumer.startStreamConsumer
      (Sink0 := projection_sink (H0 := journal) example_AsString example_Derive example_sink example_calls)
      Consumer.example_attempts None 7 (O, ∅) = Ret ((n, p'), None) /\
    (entries (example_AsString 7) p').2 = [(0, 1%N); (2, 1%N); (4, 1%N)] /\
    Forall2 (entry_of (H := Example.messaging)) (entries (example_AsString 7) p').2
      (between (Some Feed.example_ts) 0 (entries (example_AsString 7) p').1 Feed.example_h).
Proof.
  destruct (projection_consumer_is_exactly_once (H0 := journal) example_AsString example_Derive
    example_sink example_calls journal_contract 7 Feed.example_h 5 ∅ Consumer.example_attempts None)
    as (n & p' & r & Hr & _ & Hlog & _).
  - exact Feed.example_in_range.
  - lia.
  - discriminate.
  - intros env e He. discriminate He.
  - intros n. split; [|intros p _; apply rtc_refl]. intros k. split; [intros p _; apply rtc_refl|done].
  - repeat constructor; try discriminate; injection H as <-; try done;
      repeat constructor; try exact Feed.example_held; exact Feed.example_serves.
  - split; [vm_compute; discriminate|constructor].
  - exists n, p'. cbn [log checkpoint journal_contract] in Hlog.
    pose proof Hr as Hr'. vm_compute in Hr. injection Hr as Hn Hp <-.
    split; [exact Hr'|]. split; [rewrite <- Hp; vm_compute; reflexivity|exact Hlog].
Defined.

(** A second compaction, when the first has been committed. *)
Definition example_compactor : Compactor := mkCompactor 7 100 10.
Definition example_db (t : Z) : DB := set_compacted empty_db {[7%N := t]}.
Definition example_compaction (t : Z) : attempt (H := Example.messaging) :=
  mkAttempt no_faults false None t ((t, 0%N) : World (Messaging := Example.messaging)) None (t + 5).

Lemma at_most_one_compaction_per_interval_witness :
  compacts (H := Example.messaging) example_compactor (example_compaction 160) (example_db 105) = false /\
  (exists s', cdb s' = example_db 305 /\ compactions s' = [(100, 105); (300, 305)]).
Proof.
  assert (Hr : rtc (compaction_step example_compactor) (mkCluster 0 empty_db None [])
    (mkCluster 105 (example_db 105) None [(100, 105)])).
  { eapply rtc_l; [apply (step_initialize example_compactor None)|].
    eapply rtc_l; [apply (step_tick example_compactor 0 100); lia|].
    eapply rtc_l; [apply (step_acquire example_compactor 1); vm_compute; reflexivity|].
    eapply rtc_l; [apply (step_tick example_compactor 100 105); lia|].
    apply rtc_once. apply (step_commit example_compactor 1 100 105). vm_compute. reflexivity. }
  destruct (at_most_one_compaction_per_interval (H0 := journal) example_compactor 0 _ Hr) as [_ Htry].
  split.
  - destruct (Htry (example_compaction 160) (∅ : Projection (ProjectionMessageHandler := journal)) (example_db 105) ∅ None) as (_ & _ & Hno & _).
    + reflexivity.
    + cbn. lia.
    + vm_compute. reflexivity.
    + apply (Hno (100, 105)); [by left|cbn; lia].
  - destruct (Htry (example_compaction 300) (∅ : Projection (ProjectionMessageHandler := journal)) (example_db 305) ∅ None)
      as (_ & _ & _ & _ & s' & Hdb & _ & _ & Hcs).
    + reflexivity.
    + cbn. lia.
    + vm_compute. reflexivity.
    + exists s'. split; [exact Hdb|exact Hcs].
Defined.
