(* ===== verification/Pump.v ===== *)
(** * The message pumps of a cluster

    Models the goroutines of [internal/messagepump/pump.go]: the dispatcher and the
    workers of each pump, of every handler on every node, interleaved.  A delivery
    that was acquired holds its row of the command queue until its transaction ends,
    and other transactions pass over it (SKIP LOCKED).

    What a pump needs of the handler of its commands is [queue_handler]; the drivers
    of aggregates and integrations keep it. *)

From S2P Require Import Prelude Errors Stream Database MessagePump.
From S2P Require Handler Concurrency Aggregate Integration.

(** A delivery and its envelope, within an open transaction: [deliveryTask]. *)
Record deliveryTask := mkTask { Delivery_ : Delivery; Envelope_ : Envelope }.

(** Who has a task: the dispatcher of a pump, which waits for a worker to take it from
    the channel, or a worker. *)
Abbreviation place := (nat * option nat)%type (only parsing).

(** The rows that the open transactions hold. *)
Definition locked (open : gmap place deliveryTask) : gset UUID :=
  list_to_set ((fun x => MessageID (Delivery_ x.2)) <$> map_to_list open).

Section pump.
Context (unmarshal : bytes -> error + Envelope).

(** What a pump needs of a handler of commands: it removes the command that it has
    handled and no other, and does not touch the queue if it fails. *)
Definition queue_handler (handle : Delivery -> Envelope -> DB -> DB * option error) : Prop :=
  forall del env db db' err, handle del env db = (db', err) ->
    match err with
    | None => is_Some (commands db !! MessageID del) /\
              commands db' = delete (MessageID del) (commands db)
    | Some _ => commands db' = commands db
    end.

(** [runDispatcher], for one acquisition: the database and the task, if there is one, or
    the error that ends it; [None] if it is still acquiring. *)
Definition runDispatcher (p : MessagePump) (types : gset UUID) (q : acquisition) (db : DB)
    : go (DB * option (error + option deliveryTask)) :=
  '(db, r) ← doAcquireTask (queue_driver types (fun _ _ db => (db, None))) unmarshal p [q] db;
  Ret (db, match r with
           | None => None
           | Some (inl e) => Some (inl e)
           | Some (inr None) => Some (inr None)
           | Some (inr (Some ((del, env), _))) => Some (inr (Some (mkTask del env)))
           end).

(** [runWorker], for one task: the database, and the error that ends it. *)
Definition runWorker (p : MessagePump) (now r : Z) (cerr : option error)
    (handle : Delivery -> Envelope -> DB -> DB * option error) (t : deliveryTask) (db : DB)
    : go (DB * option error) :=
  x ← doHandle (H := queue_driver ∅ handle (mkAcquisition None None 0 now ∅ id)) p r cerr
        (Delivery_ t) (Envelope_ t) db db;
  match x with
  | (db, None) => Ret (db, None)
  | (db, Some e) => Ret (db, Some (Wrap "unable to deliver message" e))
  end.

(** [run] ends when one of its goroutines fails or ctx is canceled: the transactions of
    the pump are rolled back. *)
Definition stop (i : nat) (open : gmap place deliveryTask) : gmap place deliveryTask :=
  filter (fun x => x.1.1 <> i) open.

(** A transaction in which a handler was called and returned nil, with the states of the
    database before it and after it. *)
Record handling := mkHandling {
  h_task : deliveryTask;
  h_handle : Delivery -> Envelope -> DB -> DB * option error;
  h_before : DB;
  h_after : DB;
}.

Definition h_id (x : handling) : UUID := MessageID (Delivery_ (h_task x)).

(** The pumps, the commands that were ever queued, and the calls of handlers that returned
    nil. *)
Record pumps := mkPumps {
  pdb : DB;
  open : gmap place deliveryTask;
  queued : gset UUID;
  handled : list handling;
}.

(** An acquisition at time [now], while the tasks [o] are open. *)
Definition acquiring (now r : Z) (berr cerr : option error) (o : gmap place deliveryTask) : acquisition :=
  mkAcquisition berr cerr r now (locked o) id.

Inductive pump_step : pumps -> pumps -> Prop :=
| step_acquired i p types now r berr cerr db db' o q h t :
    o !! (i, None) = None ->
    runDispatcher p types (acquiring now r berr cerr o) db = Ret (db', Some (inr (Some t))) ->
    pump_step (mkPumps db o q h) (mkPumps db' (<[(i, None) := t]> o) q h)
| step_nothing_due i p types now r berr cerr db db' o q h :
    o !! (i, None) = None ->
    runDispatcher p types (acquiring now r berr cerr o) db = Ret (db', Some (inr None)) ->
    pump_step (mkPumps db o q h) (mkPumps db' o q h)
| step_undecodable i p types now r berr cerr db db' o q h :
    o !! (i, None) = None ->
    runDispatcher p types (acquiring now r berr cerr o) db = Ret (db', None) ->
    pump_step (mkPumps db o q h) (mkPumps db' o q h)
| step_acquire_failed i p types now r berr cerr db db' o q h e :
    o !! (i, None) = None ->
    runDispatcher p types (acquiring now r berr cerr o) db = Ret (db', Some (inl e)) ->
    pump_step (mkPumps db o q h) (mkPumps db' (stop i o) q h)
| step_hand_off i n db o q h t :
    o !! (i, None) = Some t -> o !! (i, Some n) = None ->
    pump_step (mkPumps db o q h) (mkPumps db (<[(i, Some n) := t]> (delete (i, None) o)) q h)
| step_delivered i n p now r cerr handle db db' o q h t :
    queue_handler handle -> o !! (i, Some n) = Some t ->
    runWorker p now r cerr handle t db = Ret (db', None) ->
    pump_step (mkPumps db o q h)
      (mkPumps db' (delete (i, Some n) o) q
         (h ++ match (handle (Delivery_ t) (Envelope_ t) db).2 with
               | None => [mkHandling t handle db db']
               | Some _ => []
               end))
| step_deliver_failed i n p now r cerr handle db db' o q h t e :
    queue_handler handle -> o !! (i, Some n) = Some t ->
    runWorker p now r cerr handle t db = Ret (db', Some e) ->
    pump_step (mkPumps db o q h) (mkPumps db' (stop i o) q h)
| step_canceled i db o q h : pump_step (mkPumps db o q h) (mkPumps db (stop i o) q h)
| step_other db db' o q h :            (* new commands, and whatever is not the queue *)
    (forall id c, commands db !! id = Some c -> commands db' !! id = Some c) ->
    (forall id, id ∈ dom (commands db') -> id ∈ dom (commands db) \/ id ∉ q) ->
    pump_step (mkPumps db o q h) (mkPumps db' o (q ∪ dom (commands db')) h).

(** ** The invariant *)

(** The row of an open task is as it was when it was acquired. *)
Definition holds_row (db : DB) (t : deliveryTask) : Prop :=
  exists c, commands db !! MessageID (Delivery_ t) = Some c /\
    cmd_envelope c = EnvelopeBytes (Delivery_ t) /\ cmd_failures c = Failures (Delivery_ t) /\
    unmarshal (EnvelopeBytes (Delivery_ t)) = inr (Envelope_ t).

Definition exclusive (o : gmap place deliveryTask) : Prop :=
  forall k1 k2 t1 t2, o !! k1 = Some t1 -> o !! k2 = Some t2 ->
    MessageID (Delivery_ t1) = MessageID (Delivery_ t2) -> k1 = k2.

(** The handler's transaction was committed: the database went from the state in which
    the command was queued, as it was acquired, to the one in which the handler left it. *)
Definition was_handled (x : handling) : Prop :=
  queue_handler (h_handle x) /\ holds_row (h_before x) (h_task x) /\
  h_handle x (Delivery_ (h_task x)) (Envelope_ (h_task x)) (h_before x) = (h_after x, None).

Definition pumps_wf (s : pumps) : Prop :=
  (forall k t, open s !! k = Some t -> holds_row (pdb s) t) /\ exclusive (open s) /\
  Forall was_handled (handled s) /\
  NoDup (h_id <$> handled s) /\ (forall id, id ∈ h_id <$> handled s -> id ∉ dom (commands (pdb s))) /\
  queued s = dom (commands (pdb s)) ∪ list_to_set (h_id <$> handled s).

Lemma elem_of_locked o id :
  id ∈ locked o <-> exists k t, o !! k = Some t /\ MessageID (Delivery_ t) = id.
Proof.
  unfold locked. rewrite elem_of_list_to_set, list_elem_of_fmap. split.
  - intros ([k t] & -> & Hk%elem_of_map_to_list). by exists k, t.
  - intros (k & t & Hk & <-). exists (k, t). split; [done|]. by apply elem_of_map_to_list.
Qed.

Lemma lookup_stop i o k t : stop i o !! k = Some t -> o !! k = Some t.
Proof. unfold stop. intros H. by apply map_lookup_filter_Some in H as [? _]. Qed.

Lemma exclusive_stop i o : exclusive o -> exclusive (stop i o).
Proof. intros He k1 k2 t1 t2 H1%lookup_stop H2%lookup_stop. by apply He. Qed.

(** Acquiring changes no row that is locked, and no queue loses or gains a command; the
    task that is acquired is of a row that is not locked. *)
Definition kept (l : gset UUID) (db db' : DB) : Prop :=
  dom (commands db') = dom (commands db) /\
  (forall id, id ∈ l -> commands db' !! id = commands db !! id).

Lemma AcquireCommandDelivery_row now l types db del :
  AcquireCommandDelivery now l types db = inr (Some del) ->
  (MessageID del ∉ l) /\ exists c, commands db !! MessageID del = Some c /\
    cmd_envelope c = EnvelopeBytes del /\ cmd_failures c = Failures del.
Proof.
  unfold AcquireCommandDelivery.
  destruct (filter (fun '(id, _) => id ∉ l) (pending now types db)) as [|[id c] rest] eqn:Hp; [done|].
  case_decide; [|done]. intros [= <-]. cbn.
  assert (Hin : (id, c) ∈ filter (fun '(id, _) => id ∉ l) (pending now types db)) by (rewrite Hp; left).
  apply list_elem_of_filter in Hin as [Hn Hin]. split; [done|]. exists c. split; [|done].
  apply pending_due in Hin. unfold due in Hin. by apply map_lookup_filter_Some in Hin as [? _].
Qed.

Lemma postpone_kept now l del delay db :
  MessageID del ∉ l -> kept l db (PostponeCommandDelivery now del delay db).1.
Proof.
  intros Hn. destruct (commands db !! MessageID del) as [c|] eqn:Hc; last first.
  { unfold PostponeCommandDelivery, wrap, ExecOne, mbind, sql_bind, wrap. by rewrite Hc. }
  rewrite (PostponeCommandDelivery_queued now del delay db c) by done. split; cbn.
  - rewrite dom_insert_L. apply elem_of_dom_2 in Hc. set_solver.
  - intros id Hid. rewrite lookup_insert_ne; [done|]. by intros <-.
Qed.

Lemma runDispatcher_safe p types q db db' r :
  q_others q = id -> runDispatcher p types q db = Ret (db', r) ->
  kept (q_locked q) db db' /\
  forall t, r = Some (inr (Some t)) -> (MessageID (Delivery_ t) ∉ q_locked q) /\ holds_row db' t.
Proof.
  intros Ho. unfold runDispatcher. cbn. rewrite Ho.
  unfold doAcquireDelivery. destruct (q_begin_err q); [intros [= <- <-]; by split|]. cbn.
  destruct (AcquireCommandDelivery (q_now q) (q_locked q) types db) as [e|[del|]] eqn:Ha.
  - intros [= <- <-]. by split.
  - apply AcquireCommandDelivery_row in Ha as (Hn & c & Hc & He & Hf).
    destruct (unmarshal (EnvelopeBytes del)) as [e|env] eqn:Hun; cbn.
    + destruct (computeBackoff _ _ _) as [delay|]; cbn; [|done].
      set (del' := mkDelivery _ _ _ _).
      pose proof (postpone_kept (q_now q) (q_locked q) del' delay db Hn) as Hk.
      destruct (PostponeCommandDelivery (q_now q) del' delay db) as [db1 [e1|]]; cbn in *.
      { intros [= <- <-]. by split. }
      destruct (q_commit_err q); cbn; intros [= <- <-]; by split.
    + intros [= <- <-]. split; [done|]. intros t [= <-]. split; [done|]. by exists c.
  - destruct (q_commit_err q); intros [= <- <-]; by split.
Qed.

Lemma holds_row_kept db db' t :
  commands db' !! MessageID (Delivery_ t) = commands db !! MessageID (Delivery_ t) ->
  holds_row db t -> holds_row db' t.
Proof. intros Heq (c & Hc & Hrest). exists c. by rewrite Heq. Qed.

(** A worker that does not fail has committed what its handler did, which removed the
    command, if the handler returned nil, and has postponed the command if it did not; one
    that fails has changed nothing. *)
Lemma runWorker_safe p now r cerr handle t db db' err :
  queue_handler handle -> runWorker p now r cerr handle t db = Ret (db', err) ->
  match err with
  | Some _ => db' = db
  | None =>
      match (handle (Delivery_ t) (Envelope_ t) db).2 with
      | None => handle (Delivery_ t) (Envelope_ t) db = (db', None) /\
          commands db' = delete (MessageID (Delivery_ t)) (commands db)
      | Some _ => dom (commands db') = dom (commands db) /\
          forall id, id <> MessageID (Delivery_ t) -> commands db' !! id = commands db !! id
      end
  end.
Proof.
  intros Hq. unfold runWorker. set (d := queue_driver _ _ _).
  destruct (doHandle (H := d) p r cerr (Delivery_ t) (Envelope_ t) db db) as [[db1 e]|] eqn:Hd; cbn; [|done].
  apply doHandle_cases in Hd as [[-> Hh]|[(-> & tx' & e' & del' & delay & Hh & [Hid _] & Hp)|[[e' ->] ->]]];
    intros [= <- <-]; [..|done]; cbn in Hh; rewrite Hh; cbn [snd].
  - split; [done|]. apply (Hq _ _ _ _ _ Hh).
  - pose proof (Hq _ _ _ _ _ Hh) as Hc. cbn in Hc, Hp.
    pose proof (postpone_kept now (dom (commands tx') ∖ {[MessageID del']}) del' delay tx') as [Hdom Hrows].
    { set_solver. }
    rewrite Hp in Hdom, Hrows. cbn in Hdom, Hrows. rewrite Hc in *. split; [done|]. intros id Hne.
    destruct (decide (id ∈ dom (commands db))) as [Hin|Hout].
    + apply Hrows. rewrite Hid. set_solver.
    + pose proof Hout as Hout'. rewrite <- Hdom in Hout'.
      apply not_elem_of_dom in Hout, Hout'. congruence.
Qed.

Lemma pump_step_acquire_wf i db db' o q h r :
  pumps_wf (mkPumps db o q h) -> kept (locked o) db db' ->
  (forall t, r = Some t -> (MessageID (Delivery_ t) ∉ locked o) /\ holds_row db' t) ->
  o !! (i, None) = None ->
  pumps_wf (mkPumps db' (match r with Some t => <[(i, None) := t]> o | None => o end) q h).
Proof.
  intros (Hrow & Hex & Hall & Hnd & Hh & Hq) [Hd Hl] Ht Hi. cbn in *.
  assert (Hrow' : forall k t, o !! k = Some t -> holds_row db' t).
  { intros k t Hk. eapply holds_row_kept; [|by eapply Hrow]. apply Hl, elem_of_locked. by exists k, t. }
  unfold pumps_wf. cbn. rewrite Hd. split_and!; try done.
  - destruct r as [t|]; [|done]. intros k t' [[<- <-]|[_ Hk]]%lookup_insert_Some; [by apply Ht|by eapply Hrow'].
  - destruct r as [t|]; [|done]. destruct (Ht t eq_refl) as [Hn _].
    assert (Hfresh : forall k t', o !! k = Some t' -> MessageID (Delivery_ t') <> MessageID (Delivery_ t)).
    { intros k t' Hk Heq. apply Hn, elem_of_locked. by exists k, t'. }
    intros k1 k2 t1 t2 [[<- <-]|[? H1]]%lookup_insert_Some [[<- <-]|[? H2]]%lookup_insert_Some Heq; try done.
    + by edestruct (Hfresh k2 t2).
    + by edestruct (Hfresh k1 t1).
    + by eapply Hex.
Qed.

Lemma pump_step_stop_wf i db db' o q h :
  pumps_wf (mkPumps db o q h) -> kept (locked o) db db' -> pumps_wf (mkPumps db' (stop i o) q h).
Proof.
  intros (Hrow & Hex & Hall & Hnd & Hh & Hq) [Hd Hl]. unfold pumps_wf. cbn in *. rewrite Hd. split_and!; try done.
  - intros k t Hk%lookup_stop. eapply holds_row_kept; [|by eapply Hrow].
    apply Hl, elem_of_locked. by exists k, t.
  - by apply exclusive_stop.
Qed.

Lemma kept_refl l db : kept l db db.
Proof. done. Qed.

Lemma pump_step_delivered_wf k handle db db' o q h t :
  pumps_wf (mkPumps db o q h) -> o !! k = Some t -> queue_handler handle ->
  match (handle (Delivery_ t) (Envelope_ t) db).2 with
  | None => handle (Delivery_ t) (Envelope_ t) db = (db', None) /\
      commands db' = delete (MessageID (Delivery_ t)) (commands db)
  | Some _ => dom (commands db') = dom (commands db) /\
      forall id, id <> MessageID (Delivery_ t) -> commands db' !! id = commands db !! id
  end ->
  pumps_wf (mkPumps db' (delete k o) q
    (h ++ match (handle (Delivery_ t) (Envelope_ t) db).2 with
          | None => [mkHandling t handle db db']
          | Some _ => []
          end)).
Proof.
  intros (Hrow & Hex & Hall & Hnd & Hh & Hq) Hk Hqh Hc. cbn in *.
  pose proof (Hrow k t Hk) as Hheld. pose proof Hheld as (c & Hrc & _). set (id := MessageID (Delivery_ t)) in *.
  assert (Hin : id ∈ dom (commands db)) by (by eapply elem_of_dom_2).
  assert (Hrow' : forall k' t', delete k o !! k' = Some t' -> holds_row db' t').
  { intros k' t' [Hne Hk']%lookup_delete_Some. eapply holds_row_kept; [|by eapply Hrow].
    assert (MessageID (Delivery_ t') <> id) by (intros Heq; apply Hne; symmetry; by eapply Hex).
    destruct (handle _ _ db).2; destruct Hc as [_ Hc]; [by apply Hc|by rewrite Hc, lookup_delete_ne]. }
  assert (Hex' : exclusive (delete k o)).
  { intros k1 k2 t1 t2 [_ H1]%lookup_delete_Some [_ H2]%lookup_delete_Some. by apply Hex. }
  unfold pumps_wf. cbn. destruct (handle _ _ db).2.
  - destruct Hc as [Hd _]. rewrite app_nil_r, Hd. by split_and!.
  - destruct Hc as [Hres Hc]. rewrite fmap_app. cbn [fmap list_fmap]. change (h_id (mkHandling t handle db db')) with id.
    rewrite Hc, dom_delete_L. split_and!; try done.
    + apply Forall_app. split; [done|]. apply Forall_singleton. by split_and!.
    + apply NoDup_app. split_and!; [done| |apply NoDup_singleton].
      intros x Hx ->%list_elem_of_singleton. by apply (Hh id Hx).
    + intros x [Hx| ->%list_elem_of_singleton]%elem_of_app; [specialize (Hh x Hx)|]; set_solver.
    + rewrite Hq, list_to_set_app_L. apply set_eq. intros x.
      destruct (decide (x = id)) as [->|]; set_solver.
Qed.

Lemma pump_step_wf s s' : pumps_wf s -> pump_step s s' -> pumps_wf s'.
Proof.
  intros Hwf Hs.
  destruct Hs as [i p types now r berr cerr db db' o q h t Hi Hr|i p types now r berr cerr db db' o q h Hi Hr|
    i p types now r berr cerr db db' o q h Hi Hr|i p types now r berr cerr db db' o q h e Hi Hr|
    i n db o q h t Hi Hn|
    i n p now r cerr handle db db' o q h t Hq Hk Hr|i n p now r cerr handle db db' o q h t e Hq Hk Hr|
    i db o q h|db db' o q h Hkeep Hnew].
  - apply runDispatcher_safe in Hr as [Hk Ht]; [|done].
    apply (pump_step_acquire_wf i db db' o q h (Some t)); [done..| |done]. intros ? [= <-]. by apply Ht.
  - apply runDispatcher_safe in Hr as [Hk _]; [|done]. by apply (pump_step_acquire_wf i db db' o q h None).
  - apply runDispatcher_safe in Hr as [Hk _]; [|done]. by apply (pump_step_acquire_wf i db db' o q h None).
  - apply runDispatcher_safe in Hr as [Hk _]; [|done]. by apply (pump_step_stop_wf i db).
  - destruct Hwf as (Hrow & Hex & ? & ? & ? & ?). unfold pumps_wf. cbn in *. split_and!; try done.
    + intros k t' [[<- <-]|[_ [_ Hk]%lookup_delete_Some]]%lookup_insert_Some; by eapply Hrow.
    + intros k1 k2 t1 t2 Hk1 Hk2 Heq.
      assert (Hpre : forall k t', <[(i, Some n) := t]> (delete (i, None) o) !! k = Some t' ->
        k = (i, Some n) /\ t' = t \/ k <> (i, None) /\ o !! k = Some t').
      { intros k t' [[<- <-]|[_ [Hd Hk]%lookup_delete_Some]]%lookup_insert_Some; [by left|].
        right. split; [by intros ->|done]. }
      apply Hpre in Hk1 as [[-> ->]|[Hd1 Hk1]], Hk2 as [[-> ->]|[Hd2 Hk2]]; [done|..].
      * by destruct (Hd2 (eq_sym (Hex _ _ _ _ Hi Hk2 Heq))).
      * by destruct (Hd1 (Hex _ _ _ _ Hk1 Hi Heq)).
      * by eapply Hex.
  - apply runWorker_safe in Hr; [|done]. by apply (pump_step_delivered_wf (i, Some n) handle db).
  - apply runWorker_safe in Hr; [|done]. subst db'. apply (pump_step_stop_wf i db); [done|apply kept_refl].
  - apply (pump_step_stop_wf i db); [done|apply kept_refl].
  - destruct Hwf as (Hrow & Hex & Hall & Hnd & Hh & Hq). unfold pumps_wf. cbn in *.
    assert (Hsub : dom (commands db) ⊆ dom (commands db')).
    { intros id [c Hc]%elem_of_dom. apply elem_of_dom. exists c. by apply Hkeep. }
    split_and!; try done.
    + intros k t Hk. destruct (Hrow k t Hk) as (c & Hc & Hrest). exists c. split; [by apply Hkeep|done].
    + intros id Hid Hin. destruct (Hnew id Hin) as [?|Hnq]; [by apply (Hh id)|]. set_solver.
    + rewrite Hq. set_solver.
Qed.

Lemma pump_steps_wf s s' : pumps_wf s -> rtc pump_step s s' -> pumps_wf s'.
Proof. intros Hwf. induction 1; [done|]. eauto using pump_step_wf. Qed.

Lemma empty_pumps_wf db : pumps_wf (mkPumps db ∅ (dom (commands db)) []).
Proof.
  unfold pumps_wf. cbn. split_and!.
  - intros k t. by rewrite lookup_empty.
  - intros k1 k2 t1 t2. by rewrite lookup_empty.
  - constructor.
  - constructor.
  - by intros id ?%not_elem_of_nil.
  - set_solver.
Qed.
End pump.

(** ** The drivers of aggregates and integrations *)

Import Handler.

Lemma append_commands sid cid hk iid evs db r db' :
  append sid cid hk iid evs db = inr (r, db') -> commands db' = commands db.
Proof. intros [(_ & _ & ->)|(base & _ & _ & _ & ->)]%append_inr; done. Qed.

Lemma acquire_for_write_commands chosen db r db' :
  acquire_for_write chosen db = inr (r, db') -> commands db' = commands db.
Proof. unfold acquire_for_write. destruct (streams db !! chosen); by intros [= <- <-]. Qed.

Lemma append_any_commands chosen cid evs db r db' :
  Integration.append_any chosen cid evs db = inr (r, db') -> commands db' = commands db.
Proof.
  unfold Integration.append_any, mbind, sql_bind.
  destruct (acquire_for_write chosen db) as [e|[sid db1]] eqn:Ha; [done|]. intros Hp.
  apply acquire_for_write_commands in Ha. apply append_commands in Hp. congruence.
Qed.

Lemma integration_queue_handler `{Integration.IntegrationMessageHandler} key pref outbound i :
  queue_handler (fun del env db => outcome (Integration.HandleDelivery key pref outbound i del env db)).
Proof.
  intros del env db db' err. unfold Integration.HandleDelivery.
  destruct (UnpackMessage env) as [e|command]; [by intros [= <- <-]|].
  destruct (Integration.call_handler key pref outbound i env command) as [[l packer] [[e|]|v]];
    [by intros [= <- <-]| |by intros [= <- <-]].
  destruct (Seal packer) as [es|].
  - unfold Integration.completeWithEvents, stmt, wrap.
    destruct (event_args es) as [e|args]; [by intros [= <- <-]|].
    unfold Integration.complete_with_events, mbind, sql_bind.
    destruct (commandqueue_remove (MessageID del) db) as [e|[[] db1]] eqn:Hc; [by intros [= <- <-]|].
    apply commandqueue_remove_inr in Hc as [Hs ->].
    destruct (Integration.append_any _ _ args _) as [e|[x db2]] eqn:Happ; [by intros [= <- <-]|].
    apply append_any_commands in Happ. by intros [= <- <-].
  - unfold Integration.completeWithoutEvents, stmt, wrap.
    destruct (commandqueue_remove (MessageID del) db) as [e|[[] db1]] eqn:Hc; intros [= <- <-]; [done|].
    by apply commandqueue_remove_inr in Hc as [Hs ->].
Qed.

Section aggregate_driver.
Context `{Aggregate.AggregateMessageHandler} (key : UUID) (outbound : gset UUID).

Lemma loadInstance_commands l iid cs :
  keeps (fun db => commands db = cs) (Aggregate.loadInstance key l id iid).
Proof.
  unfold Aggregate.loadInstance. apply keeps_bind.
  - unfold Aggregate.acquireInstance. apply keeps_bind.
    + intros db Hdb. unfold Aggregate.tryLockInstance.
      destruct (aggregates db !! (key, iid)); [|done]. by destruct l.
    + intros [x|]; [apply keeps_ret|]. unfold Aggregate.tryCreateInstance. apply keeps_stmt.
      intros db a db' Hdb. unfold wrap. destruct (aggregates db !! (key, iid)); [by intros [= <- <-]|].
      case_decide; [done|]. by intros [= <- <-].
  - intros [[sid next] snap]. unfold Aggregate.restoreInstance. apply keeps_bind; [by intros db|]. intros r.
    destruct sid as [sid|]; [|apply keeps_ret]. apply keeps_bind.
    + case_decide; [|apply keeps_ret]. destruct (Aggregate.applySnapshot r snap); [apply keeps_ret|].
      apply keeps_bind; [by intros db|]. intros r'. apply keeps_ret.
    + intros [r' next']. apply keeps_bind; [by intros db|]. intros r''. apply keeps_ret.
Qed.

Lemma update_instance_commands iid f db db' u :
  Aggregate.update_instance key iid f db = inr (u, db') -> commands db' = commands db.
Proof.
  unfold Aggregate.update_instance. destruct (aggregates db !! (key, iid)); [|by intros [= <- <-]].
  case_decide; [|done]. by intros [= <- <-].
Qed.

Lemma complete_with_events_commands chosen mid iid sid cid snap evs db db' :
  Aggregate.complete_with_events key chosen mid iid sid cid snap evs db = inr (tt, db') ->
  is_Some (commands db !! mid) /\ commands db' = delete mid (commands db).
Proof.
  unfold Aggregate.complete_with_events.
  intros (sid' & db1 & Hs & (n & db2 & Ha & ([] & db3 & Hu & Hr)%sql_bind_inr)%sql_bind_inr)%sql_bind_inr.
  assert (Hc1 : commands db1 = commands db).
  { destruct sid as [sid|]; [by injection Hs as <- <-|].
    apply sql_bind_inr in Hs as (x & db4 & Hx & ([] & db5 & Hy & Hz)%sql_bind_inr).
    injection Hz as <- <-. apply acquire_for_write_commands in Hx. apply update_instance_commands in Hy.
    congruence. }
  apply append_commands in Ha.
  assert (Hc3 : commands db3 = commands db2).
  { destruct snap; [by apply update_instance_commands in Hu|by injection Hu as <-]. }
  apply commandqueue_remove_inr in Hr as [Hsome ->]. cbn. by rewrite <- Hc1, <- Ha, <- Hc3.
Qed.

Lemma complete_without_events_commands mid iid db db' :
  Aggregate.complete_without_events key mid iid db = inr (tt, db') ->
  is_Some (commands db !! mid) /\ commands db' = delete mid (commands db).
Proof.
  unfold Aggregate.complete_without_events. intros ([] & db1 & Hm & Hr)%sql_bind_inr.
  assert (Hc : commands db1 = commands db).
  { injection Hm as <-. destruct (aggregates db !! (key, iid)) as [[[s|] ? ?]|]; done. }
  apply commandqueue_remove_inr in Hr as [Hsome ->]. cbn. by rewrite <- Hc.
Qed.

(** The statement that completes a command. *)
Lemma complete_commands mid (m : sql unit) db db' err :
  (forall db', m db = inr (tt, db') ->
     is_Some (commands db !! mid) /\ commands db' = delete mid (commands db)) ->
  outcome (stmt (wrap "unable to complete command handling" m) db) = (db', err) ->
  match err with
  | None => is_Some (commands db !! mid) /\ commands db' = delete mid (commands db)
  | Some _ => commands db' = commands db
  end.
Proof.
  intros Hm. unfold stmt, wrap. destruct (m db) as [e|[[] db1]] eqn:Hdb; intros [= <- <-]; [done|].
  by apply Hm.
Qed.

Lemma aggregate_queue_handler w l chosen :
  queue_handler (fun del env db => outcome
    (Aggregate.HandleDelivery key outbound (Aggregate.mkInputs w l id chosen None) del env db)).
Proof.
  intros del env db db' err. unfold Aggregate.HandleDelivery.
  destruct (UnpackMessage2 env) as [e|[c1 c2]]; [by intros [= <- <-]|].
  unfold mbind at 1, tx_bind at 1, Aggregate.lift.
  destruct (Aggregate.routeCommandToInstance c1) as [e|iid]; [by intros [= <- <-]|].
  unfold mbind, tx_bind. cbn [Aggregate.in_locked Aggregate.in_race Aggregate.in_world Aggregate.in_chosen].
  pose proof (loadInstance_commands l iid (commands db) db eq_refl) as Hl.
  destruct (Aggregate.loadInstance key l id iid db) as [db1 [e|[r sid]]]; cbn [fst] in Hl; [by intros [= <- <-]|].
  rewrite <- Hl.
  destruct (Recover _) as [e|s]; [by intros [= <- <-]|].
  destruct (Seal (Aggregate.packer s)) as [es|].
  - unfold Aggregate.completeWithEvents. apply complete_commands. intros db2.
    destruct (event_args es) as [e|evs]; [done|]. apply complete_with_events_commands.
  - unfold Aggregate.completeWithoutEvents. apply complete_commands. intros db2.
    apply complete_without_events_commands.
Qed.
End aggregate_driver.

(** ** Properties *)

(** C8: however the dispatchers and workers of all pumps interleave, fail, are canceled
    and restart, and whatever is queued in the meantime: no command is ever in the hands
    of two of them at once; while one has it, its row is as it was when it was acquired;
    a handler's effects are committed when it returns nil, as it left them, from a state in
    which the command was queued; this happens at most once for each command; and every
    command that was ever queued is either still in the queue or its handler has returned
    nil and its effects were committed: a command whose handler fails is not lost. *)
Theorem commands_are_handled_once unmarshal db s :
  rtc (pump_step unmarshal) (mkPumps db ∅ (dom (commands db)) []) s ->
  (forall k1 k2 t1 t2, open s !! k1 = Some t1 -> open s !! k2 = Some t2 ->
     MessageID (Delivery_ t1) = MessageID (Delivery_ t2) -> k1 = k2) /\
  (forall k t, open s !! k = Some t -> holds_row unmarshal (pdb s) t) /\
  (forall x, x ∈ handled s -> queue_handler (h_handle x) /\ holds_row unmarshal (h_before x) (h_task x) /\
     h_handle x (Delivery_ (h_task x)) (Envelope_ (h_task x)) (h_before x) = (h_after x, None)) /\
  NoDup (h_id <$> handled s) /\
  (forall id, id ∈ queued s <-> id ∈ dom (commands (pdb s)) \/ id ∈ h_id <$> handled s) /\
  (forall id, ~ (id ∈ dom (commands (pdb s)) /\ id ∈ h_id <$> handled s)).
Proof.
  intros Hr. destruct (pump_steps_wf unmarshal _ _ (empty_pumps_wf unmarshal db) Hr)
    as (Hrow & Hex & Hall & Hnd & Hh & Hq). split_and!; try done.
  - intros x Hx. rewrite Forall_forall in Hall. by apply Hall.
  - intros id. rewrite Hq, elem_of_union, elem_of_list_to_set. done.
  - intros id [Hin Hhd]. by apply (Hh id).
Qed.

(** Two pumps and one command, which the second of them finds locked; it is handled by an
    integration. *)
Section example.
#[local] Existing Instance Example.messaging.

Definition example_row : CommandRow :=
  mkCommandRow 1 (match Example.marshal Integration.example_command with inr b => b | inl _ => "" end) 0 0.
Definition example_queue : DB := set_commands empty_db {[1%N := example_row]}.
Definition example_task : deliveryTask :=
  mkTask (mkDelivery 1 1 (cmd_envelope example_row) 0) Integration.example_command.
Definition example_handle : Delivery -> Envelope -> DB -> DB * option error :=
  fun del env db => outcome (Integration.HandleDelivery (H0 := Integration.gateway) 7
    Concurrency.MinimizeConcurrency {[21%N]} Integration.example_meets del env db).
Definition example_done : DB :=
  match runWorker (engine_pump 1) 5 0 None example_handle example_task example_queue with
  | Ret (db, _) => db
  | Panic _ => example_queue
  end.
Definition example_handling : handling := mkHandling example_task example_handle example_queue example_done.
End example.

Lemma commands_are_handled_once_witness :
  rtc (pump_step Example.unmarshal) (mkPumps example_queue ∅ (dom (commands example_queue)) [])
    (mkPumps example_done ∅ (dom (commands example_queue)) [example_handling]) /\
  (1%N ∉ dom (commands example_done)) /\ length (events example_done) = 1%nat.
Proof.
  assert (Hr : rtc (pump_step Example.unmarshal) (mkPumps example_queue ∅ (dom (commands example_queue)) [])
    (mkPumps example_done ∅ (dom (commands example_queue)) [example_handling])).
  { eapply rtc_l.
    { apply (step_acquired _ 0 (engine_pump 1) {[1%N]} 5 0 None None example_queue example_queue ∅
        _ _ example_task); vm_compute; reflexivity. }
    eapply rtc_l.
    { apply (step_nothing_due _ 2 (engine_pump 1) {[1%N]} 6 0 None None example_queue example_queue);
        vm_compute; reflexivity. }
    eapply rtc_l.
    { apply (step_hand_off _ 0 4 _ _ _ _ example_task); vm_compute; reflexivity. }
    eapply rtc_l.
    { apply (step_delivered _ 0 4 (engine_pump 1) 5 0 None example_handle example_queue example_done _ _ _ example_task).
      - apply integration_queue_handler.
      - vm_compute. reflexivity.
      - vm_compute. reflexivity. }
    assert (Ho : delete (0%nat, Some 4%nat) (<[(0%nat, Some 4%nat) := example_task]>
      (delete (0%nat, None) (<[(0%nat, None) := example_task]> (∅ : gmap (nat * option nat) deliveryTask)))) = ∅)
      by (vm_compute; reflexivity).
    assert (Hh : (example_handle (Delivery_ example_task) (Envelope_ example_task) example_queue).2 = None)
      by (vm_compute; reflexivity).
    rewrite Ho, Hh. apply rtc_refl. }
  split; [exact Hr|].
  destruct (commands_are_handled_once Example.unmarshal example_queue _ Hr) as (_ & _ & _ & _ & _ & Hno).
  split; [|vm_compute; reflexivity].
  intros Hin. apply (Hno 1%N). split; [exact Hin|]. apply list_elem_of_singleton. reflexivity.
Defined.
