(* ===== verification/Application.v ===== *)
(** * Binding a database to an application

    Models [internal/application/bind.go]: the statement that records the identity of
    the application that a database belongs to. *)

From S2P Require Import Prelude Errors Stream Database.

(** [identitypb.Identity] *)
Record Identity := mkIdentity { id_name : string; id_key : UUID }.

(** The statement of [Bind]: the identity that it returns. *)
Definition upsert_identity (id : Identity) : sql Identity := fun db =>
  if decide (id_name id = "") then inl (Opaque "violates check constraint")
  else
    let row :=
      match identity db with
      | None => (id_key id, id_name id)
      | Some (key, name) => (key, if decide (key = id_key id) then id_name id else name)
      end in
    inr (mkIdentity row.2 row.1, set_identity db (Some row)).

(** [Bind]; [query_err] is a failure of the statement. *)
Definition Bind (query_err : option error) (id : Identity) (db : DB) : DB * option error :=
  match query_err with
  | Some e => (db, Some e)
  | None =>
      match upsert_identity id db with
      | inl e => (db, Some e)
      | inr (bound, db') =>
          if decide (id_key bound = id_key id) then (db', None)
          else (db', Some (Opaque "it is already bound to application"))
      end
  end.

(** The applications that start, one after the other, on a database. *)
Fixpoint bind_all (ids : list (option error * Identity)) (db : DB) : DB * list (option error) :=
  match ids with
  | [] => (db, [])
  | (e, id) :: ids' =>
      let '(db, r) := Bind e id db in
      let '(db, rs) := bind_all ids' db in
      (db, r :: rs)
  end.

(** [Bind] on every branch. *)
Lemma Bind_spec e id db :
  let '(db', err) := Bind e id db in
  match e with
  | Some x => err = Some x /\ db' = db
  | None =>
      if decide (id_name id = "") then is_Some err /\ db' = db
      else match identity db with
           | None => err = None /\ identity db' = Some (id_key id, id_name id)
           | Some (key, name) =>
               if decide (key = id_key id) then err = None /\ identity db' = Some (key, id_name id)
               else is_Some err /\ db' = db
           end
  end.
Proof.
  unfold Bind, upsert_identity. destruct e as [x|]; [done|]. case_decide; [by split; [eexists|]|].
  destruct (identity db) as [[key name]|] eqn:Hi; cbn; [|by rewrite decide_True].
  case_decide; [done|]. split; [by eexists|]. destruct db. cbn in *. by rewrite Hi.
Qed.

(** [Bind] changes nothing but the identity. *)
Lemma Bind_same e id db : (Bind e id db).1 = set_identity db (identity (Bind e id db).1).
Proof.
  unfold Bind, upsert_identity. destruct e as [x|]; [by destruct db|]. case_decide; [by destruct db|].
  cbn. by case_decide.
Qed.

(** Once bound to a key, the database stays bound to it. *)
Lemma bind_all_key ids db key name :
  identity db = Some (key, name) ->
  exists name', identity (bind_all ids db).1 = Some (key, name') /\
    Forall2 (fun '(e, id) r => r = None <-> e = None /\ id_key id = key /\ id_name id <> "") ids
      (bind_all ids db).2.
Proof.
  revert db name. induction ids as [|[e id] ids IH]; intros db name Hi; cbn.
  { eexists. by split. }
  pose proof (Bind_spec e id db) as Hb. destruct (Bind e id db) as [db1 r] eqn:HB.
  assert (Hr : exists name1, identity db1 = Some (key, name1) /\
    (r = None <-> e = None /\ id_key id = key /\ id_name id <> "")).
  { destruct e as [x|]; [destruct Hb as [-> ->]; exists name; split; [done|by split; [|intros [? _]]]|].
    case_decide as Hn.
    { destruct Hb as [[x ->] ->]. exists name. split; [done|]. split; [done|]. by intros (_ & _ & ?). }
    rewrite Hi in Hb. case_decide as Hk.
    - destruct Hb as [-> ->]. eexists. split; [done|]. by split.
    - destruct Hb as [[x ->] ->]. exists name. split; [done|]. split; [done|]. by intros (_ & ? & _). }
  destruct Hr as (name1 & Hi1 & Hr). destruct (IH db1 name1 Hi1) as (name' & Hk & Hall).
  destruct (bind_all ids db1) as [db2 rs]. exists name'. split; [done|]. by constructor.
Qed.

(** ** Properties *)

(** A database is never shared by two applications: whichever applications start
    on an unbound database, in any order and however often, either none of them is
    allowed to and nothing changes, or from the first one that is, exactly those with
    its key are, unless their statement fails or their name is empty, and the
    database stays bound to the key. *)
Theorem database_has_one_application ids db db' rs :
  identity db = None -> bind_all ids db = (db', rs) ->
  (Forall (fun r => r <> None) rs /\ db' = db) \/
  exists ids1 id ids2 rs1 rs2 name,
    ids = ids1 ++ (None, id) :: ids2 /\ rs = rs1 ++ None :: rs2 /\
    length rs1 = length ids1 /\ Forall (fun r => r <> None) rs1 /\
    identity db' = Some (id_key id, name) /\
    Forall2 (fun '(e, id') r => r = None <-> e = None /\ id_key id' = id_key id /\ id_name id' <> "")
      ids2 rs2.
Proof.
  intros Hi. revert rs. induction ids as [|[e id] ids IH]; intros rs; cbn.
  { intros [= <- <-]. by left. }
  pose proof (Bind_spec e id db) as Hb. destruct (Bind e id db) as [db1 r] eqn:HB.
  destruct (bind_all ids db1) as [db2 rs2] eqn:Hall. intros [= <- <-].
  assert (Hr : (r <> None /\ db1 = db) \/
    (e = None /\ r = None /\ identity db1 = Some (id_key id, id_name id))).
  { destruct e as [x|]; [left; by destruct Hb as [-> ->]|].
    case_decide; [left; by destruct Hb as [[x ->] ->]|]. rewrite Hi in Hb. by right. }
  destruct Hr as [[Hr ->]|(-> & -> & Hk)].
  - destruct (IH rs2 Hall) as [[Hn ->]|(ids1 & id1 & ids2 & rs1 & rs3 & name & -> & -> & Hl & Hn & Hrest)].
    + left. split; [by constructor|done].
    + right. exists ((e, id) :: ids1), id1, ids2, (r :: rs1), rs3, name.
      split_and!; try done; try apply Hrest; [cbn; by rewrite Hl|by constructor].
  - destruct (bind_all_key ids db1 _ _ Hk) as (name & Hk' & Hrest). rewrite Hall in Hk', Hrest.
    right. exists [], id, ids, [], rs2, name. by split_and!.
Qed.

(** Three applications: the second is another one. *)
Lemma database_has_one_application_witness :
  exists db', bind_all [(None, mkIdentity "a" 1); (None, mkIdentity "b" 2); (None, mkIdentity "c" 1)] empty_db
      = (db', [None; Some (Opaque "it is already bound to application"); None]) /\
    identity db' = Some (1%N, "c").
Proof.
  destruct (bind_all [(None, mkIdentity "a" 1); (None, mkIdentity "b" 2); (None, mkIdentity "c" 1)] empty_db)
    as [db' rs] eqn:Hb.
  destruct (database_has_one_application _ empty_db db' rs eq_refl Hb)
    as [[Hn _]|(ids1 & id & ids2 & rs1 & rs2 & name & Hids & Hrs & _ & _ & Hk & _)].
  - exfalso. vm_compute in Hb. injection Hb as _ Hb. rewrite <- Hb in Hn.
    apply Forall_cons_1 in Hn as [Hn _]. by apply Hn.
  - exists db'. vm_compute in Hb. injection Hb as Hdb Hb. split; [by rewrite Hb|].
    rewrite <- Hdb. reflexivity.
Defined.
