(* ===== verification/GrpcServer.v ===== *)
(** * The gRPC server

    Models [internal/grpcserver/server.go]: [listen], [serve] and [Run].  What each
    attempt to listen and to serve does is an input; the gRPC server itself is not
    part of the engine. *)

From S2P Require Import Prelude Errors.
From S2P Require Supervisor.

Section server.
Context {Addr : Type} (String : Addr -> string).    (* net.Addr *)

(** What an attempt meets: the outcome of [Listen] for the address that it is given,
    that of [Serve], and what the supervisor sees. *)
Record attempt := mkAttempt {
  Listen : string -> error + Addr;
  serve_err : option error;
  at_ctx_err : option error;
  at_elapsed : Z;
  at_rand : Z;
  at_canceled : option error;
}.

(** The state: the address that was bound first ([addr]), and the addresses that were
    listened on. *)
Record Server := mkServer { Address : string; addr : option Addr; listened : list Addr }.

Definition listen (a : attempt) (s : Server) : Server * (error + Addr) :=
  match addr s with
  | Some bound =>
      match Listen a (String bound) with
      | inl err => (s, inl err)
      | inr l => (mkServer (Address s) (addr s) (listened s ++ [l]), inr l)
      end
  | None =>
      match Listen a (Address s) with
      | inl err => (s, inl (Fatal err))
      | inr l => (mkServer (Address s) (Some l) (listened s ++ [l]), inr l)
      end
  end.

Definition serve (a : attempt) (s : Server) : Server * option error :=
  match listen a s with
  | (s, inl err) => (s, Some err)
  | (s, inr _) =>
      match serve_err a with
      | Some e => (s, Some (Wrap "unable to serve gRPC requests" e))
      | None => (s, None)
      end
  end.

(** The outcome of an attempt, as [supervisor.Run] sees it. *)
Definition supervised (a : attempt) (err : option error) : Supervisor.attempt :=
  Supervisor.mkAttempt err (at_ctx_err a) (at_elapsed a) (at_rand a) (at_canceled a).

(** [Run], where [outcomes] are those of the attempts so far; the result is [None]
    while it waits to retry. *)
Fixpoint Run (attempts : list attempt) (outcomes : list Supervisor.attempt) (s : Server)
    : go (Server * option (option error)) :=
  match attempts with
  | [] => Ret (s, None)
  | a :: attempts' =>
      let '(s, err) := serve a s in
      let outcomes := outcomes ++ [supervised a err] in
      r ← Supervisor.Run false outcomes None;
      match r with
      | (Supervisor.Return err, _) => Ret (s, Some err)
      | (Supervisor.Retrying, _) => Run attempts' outcomes s
      end
  end.

(** [ListenAddr] returns once the address is known; [ctx_err] is ctx's error if it is
    canceled before. *)
Definition ListenAddr (s : Server) (ctx_err : option error) : option (error + Addr) :=
  match addr s, ctx_err with
  | Some l, _ => Some (inr l)
  | None, Some e => Some (inl e)
  | None, None => None
  end.

(** ** Lemmas *)

(** The operating system binds the address that it is given, once it is one that was
    bound before. *)
Definition listens_ok (a : attempt) : Prop :=
  forall l l', Listen a (String l) = inr l' -> l' = l.

Definition server_wf (s : Server) : Prop :=
  match addr s with
  | None => listened s = []
  | Some l => listened s <> [] /\ Forall (eq l) (listened s)
  end.

Lemma listen_wf a s s' r :
  listens_ok a -> server_wf s -> listen a s = (s', r) ->
  server_wf s' /\ (is_Some (addr s) -> addr s' = addr s) /\ Address s' = Address s /\
  match r with
  | inl err => s' = s /\ (addr s = None -> exists e, err = Fatal e)
  | inr l => addr s' = Some l
  end.
Proof.
  intros Ha Hw. unfold listen, server_wf in *. destruct (addr s) as [l|] eqn:Hl.
  - destruct (Listen a (String l)) as [err|l'] eqn:Hli; intros [= <- <-].
    { rewrite Hl. by destruct Hw. }
    apply Ha in Hli as ->. cbn. destruct Hw as [Hne Hall]. split_and!; try done.
    + by destruct (listened s).
    + apply Forall_app. split; [done|by constructor].
  - destruct (Listen a (Address s)) as [err|l] eqn:Hli; intros [= <- <-].
    { rewrite Hl. split_and!; try done. intros _. by eexists. }
    cbn. rewrite Hw. split_and!; try done. by constructor.
Qed.

Lemma Run_wf attempts outcomes s :
  Forall listens_ok attempts -> server_wf s ->
  exists s' r, Run attempts outcomes s = Ret (s', r) /\ server_wf s' /\
    (is_Some (addr s) -> addr s' = addr s).
Proof.
  intros Ha. revert outcomes s. induction Ha as [|a attempts Ha Has IH]; intros outcomes s Hw; cbn.
  { by exists s, None. }
  destruct (serve a s) as [s1 err] eqn:Hs.
  assert (Hw1 : server_wf s1 /\ (is_Some (addr s) -> addr s1 = addr s)).
  { unfold serve in Hs. destruct (listen a s) as [s2 r] eqn:Hl.
    destruct (listen_wf a s s2 r Ha Hw Hl) as (? & ? & _).
    destruct r; [by injection Hs as <- _|]. by destruct (serve_err a); injection Hs as <- _. }
  destruct Hw1 as [Hw1 Hadr].
  destruct (Supervisor.Run_production (outcomes ++ [supervised a err])) as (res & st & Hrun).
  rewrite Hrun. cbn. destruct res.
  - by eexists _, _.
  - destruct (IH (outcomes ++ [supervised a err]) s1 Hw1) as (s' & r & -> & Hw' & Hadr').
    eexists _, _. split; [done|]. split; [done|]. intros Hsome. rewrite <- Hadr by done.
    apply Hadr'. by rewrite Hadr.
Qed.
End server.

(** ** Properties *)

(** However often serving fails and is retried, the server never panics and
    listens on one address only: the one that it bound first, which is what
    [ListenAddr] returns from then on.  If the first attempt to listen fails then [Run]
    ends with that error, unless ctx was canceled. *)
Theorem server_keeps_its_address {Addr} (String : Addr -> string) attempts attempts' address :
  Forall (listens_ok String) attempts -> Forall (listens_ok String) attempts' ->
  exists s r, Run String attempts [] (mkServer address None []) = Ret (s, r) /\
    (forall outcomes, exists s' r', Run String attempts' outcomes s = Ret (s', r') /\
       forall l, addr s = Some l ->
         addr s' = Some l /\ Forall (eq l) (listened s') /\
         forall ctx_err, ListenAddr s' ctx_err = Some (inr l)) /\
    (forall a rest e, attempts = a :: rest -> Listen a address = inl e -> at_ctx_err a = None ->
       r = Some (Some e) /\ listened s = []).
Proof.
  intros Ha Ha'. destruct (Run_wf String attempts [] (mkServer address None []) Ha eq_refl)
    as (s & r & Hr & Hw & _). exists s, r. split_and!; [done|..].
  - intros outcomes. destruct (Run_wf String attempts' outcomes s Ha' Hw) as (s' & r' & -> & Hw' & Hadr).
    exists s', r'. split; [done|]. intros l Hl. rewrite Hl in Hadr. specialize (Hadr ltac:(by eexists)).
    unfold server_wf in Hw'. rewrite Hadr in Hw'. split_and!; [done|apply Hw'|].
    intros ctx_err. unfold ListenAddr. by rewrite Hadr.
  - intros a rest e -> He Hctx. cbn in Hr. unfold serve, listen in Hr. cbn in Hr. rewrite He in Hr.
    unfold Supervisor.Run in Hr. cbn in Hr. rewrite Hctx in Hr. cbn in Hr. by injection Hr as <- <-.
Qed.

(** One of two ports is chosen by the operating system; the first attempt to serve
    fails. *)
Definition example_port (b : bool) : string := if b then ":4711" else ":4712".

Definition example_attempt (err : option error) : attempt (Addr := bool) :=
  mkAttempt (fun s => inr (bool_decide (s = ":0" \/ s = ":4711"))) err None 0 0 None.

Lemma server_keeps_its_address_witness :
  exists s r, Run example_port [example_attempt (Some (Opaque "accept"))] [] (mkServer ":0" None []) = Ret (s, r) /\
    exists s' r', Run example_port [example_attempt None] [] s = Ret (s', r') /\
      addr s' = Some true /\ length (listened s') = 2%nat /\ Forall (eq true) (listened s').
Proof.
  assert (Hok : forall err, listens_ok example_port (example_attempt err)).
  { intros err [] l'; cbn; intros [= <-]; reflexivity. }
  destruct (server_keeps_its_address example_port [example_attempt (Some (Opaque "accept"))]
    [example_attempt None] ":0") as (s & r & Hr & Hnext & _).
  - by constructor.
  - by constructor.
  - exists s, r. split; [exact Hr|]. vm_compute in Hr. injection Hr as Hs _.
    destruct (Hnext []) as (s' & r' & Hr' & Hl). exists s', r'. split; [exact Hr'|].
    destruct (Hl true) as (Ha & Hf & _); [by rewrite <- Hs|]. split; [exact Ha|]. split; [|exact Hf].
    rewrite <- Hs in Hr'. vm_compute in Hr'. injection Hr' as Hs' _. by rewrite <- Hs'.
Defined.
