(* ===== verification/RemoteEngine.v ===== *)
(** * Connections to remote engines

    Models [internal/remoteengine/connector.go] and [remoteengine.go]: the function
    that a discoverer calls to add a remote engine and the one that it gets to remove
    it, and what becomes of the watches of remote engines when the discoverer returns.
    The watch of one remote engine is that of the catalog. *)

From S2P Require Import Prelude Errors Stream Handler.
From S2P Require Supervisor.

(** What a discoverer does: it adds connections, of which it knows each by the function
    that removes it again, and ends. *)
Inductive discovery : Type :=
| Return (err : option error)
| Panics (v : string)
| CallAdd (conn_is_nil : bool) (k : nat -> discovery)
| CallRemove (remove : nat) (k : discovery).

(** What was done, in order. *)
Inductive event : Type := Watched (n : nat) | Ignored (n : nat) | Stopped (n : nat).

(** [watchers] are the watches in progress, [next] the number of the next connection. *)
Record Connector := mkConnector {
  EventTypeIDs : gset UUID;
  watchers : gset nat;
  next : nat;
  history : list event;
}.

(** The closure [add]; [ctx_err] is the error of ctx then. *)
Definition add (ctx_err : option error) (conn_is_nil : bool) (c : Connector) : go (Connector * nat) :=
  if conn_is_nil then Panic "remote engine connection must not be nil"
  else
    let n := next c in
    if decide (ctx_err <> None \/ EventTypeIDs c = ∅) then
      Ret (mkConnector (EventTypeIDs c) (watchers c) (S n) (history c ++ [Ignored n]), n)
    else
      Ret (mkConnector (EventTypeIDs c) ({[n]} ∪ watchers c) (S n) (history c ++ [Watched n]), n).

(** The function that [add] returns: it cancels the watch and waits for its end, and
    does nothing if there is none. *)
Definition remove (n : nat) (c : Connector) : Connector :=
  if decide (n ∈ watchers c) then
    mkConnector (EventTypeIDs c) (watchers c ∖ {[n]}) (next c) (history c ++ [Stopped n])
  else c.

(** The call of [Discover]; [ctx] is the error of ctx at each of its calls, and [i] the
    number of those made. *)
Fixpoint Discover (ctx : nat -> option error) (i : nat) (d : discovery) (c : Connector)
    : Connector * nat * go (option error) :=
  match d with
  | Return err => (c, i, Ret err)
  | Panics v => (c, i, Panic v)
  | CallAdd conn_is_nil k =>
      match add (ctx i) conn_is_nil c with
      | Panic v => (c, i, Panic v)
      | Ret (c, n) => Discover ctx (S i) (k n) c
      end
  | CallRemove n k => Discover ctx (S i) k (remove n c)
  end.

(** [discover]: the deferred functions cancel every watch and wait for their end. *)
Definition discover (ctx : nat -> option error) (d : discovery) (c : Connector)
    : Connector * option error :=
  let '(c, i, r) := Discover ctx O d c in
  let err := match r with Ret err => err | Panic v => Some (PanicError v) end in
  let err :=
    match err, ctx i with
    | None, None => Some (Opaque "discoverer stopped before the context was canceled")
    | _, _ => err
    end in
  (mkConnector (EventTypeIDs c) ∅ (next c) (history c ++ (Stopped <$> elements (watchers c))), err).

(** One call of [discover], as [supervisor.Run] sees it. *)
Record attempt := mkAttempt {
  at_ctx : nat -> option error;
  at_discovery : discovery;
  at_ctx_err : option error;
  at_elapsed : Z;
  at_rand : Z;
  at_canceled : option error;
}.

(** [Run], where [outcomes] are those of the calls so far. *)
Fixpoint Run (attempts : list attempt) (outcomes : list Supervisor.attempt) (c : Connector)
    : go (Connector * option (option error)) :=
  match attempts with
  | [] => Ret (c, None)
  | a :: attempts' =>
      let '(c, err) := discover (at_ctx a) (at_discovery a) c in
      let outcomes := outcomes ++
        [Supervisor.mkAttempt err (at_ctx_err a) (at_elapsed a) (at_rand a) (at_canceled a)] in
      r ← Supervisor.Run false outcomes None;
      match r with
      | (Supervisor.Return err, _) => Ret (c, Some err)
      | (Supervisor.Retrying, _) => Run attempts' outcomes c
      end
  end.

(** [StaticRemoteEngines], for connections of which it is known whether they are nil;
    [ctx_err] is the error of ctx when it is done. *)
Fixpoint add_all (conns : list bool) (ctx_err : error) : discovery :=
  match conns with
  | [] => Return (Some ctx_err)
  | conn :: conns' => CallAdd conn (fun _ => add_all conns' ctx_err)
  end.

Definition StaticRemoteEngines (conns : list bool) : go (error -> discovery) :=
  if decide (true ∈ conns) then Panic "remote engine connection must not be nil"
  else Ret (add_all conns).

(** ** Lemmas *)

(** The watches that a history leaves in progress; [None] if one is begun or stopped
    twice. *)
Fixpoint replay (l : list event) (live : gset nat) : option (gset nat) :=
  match l with
  | [] => Some live
  | Watched n :: l' => if decide (n ∈ live) then None else replay l' ({[n]} ∪ live)
  | Ignored _ :: l' => replay l' live
  | Stopped n :: l' => if decide (n ∈ live) then replay l' (live ∖ {[n]}) else None
  end.

Lemma replay_history_app l1 l2 live : replay (l1 ++ l2) live = replay l1 live ≫= replay l2.
Proof.
  revert live. induction l1 as [|[n|n|n] l1 IH]; intros live; cbn; [done|..]; try case_decide; auto.
Qed.

Definition connector_wf (c : Connector) : Prop :=
  replay (history c) ∅ = Some (watchers c) /\ (forall n, n ∈ watchers c -> (n < next c)%nat) /\
  (EventTypeIDs c = ∅ -> forall n, Watched n ∉ history c).

Lemma connector_add_wf ctx nil c c' n :
  connector_wf c -> add ctx nil c = Ret (c', n) ->
  connector_wf c' /\ EventTypeIDs c' = EventTypeIDs c.
Proof.
  intros (Hr & Hn & He). unfold add. destruct nil; [done|].
  case_decide as Hd; intros [= <- <-]; (split; [|done]); unfold connector_wf; cbn;
    rewrite replay_history_app, Hr; cbn.
  - split_and!; [done| |].
    + intros m Hm. specialize (Hn m Hm). lia.
    + intros Hemp m [Hm|[=]%list_elem_of_singleton]%elem_of_app. by apply (He Hemp m).
  - assert (next c ∉ watchers c) by (intros Hx; specialize (Hn _ Hx); lia).
    rewrite decide_False by done. split_and!; [done| |].
    + intros m [->%elem_of_singleton|Hm]%elem_of_union; [lia|]. specialize (Hn m Hm). lia.
    + intros Hemp. exfalso. apply Hd. by right.
Qed.

Lemma connector_remove_wf n c :
  connector_wf c -> connector_wf (remove n c) /\ EventTypeIDs (remove n c) = EventTypeIDs c.
Proof.
  intros (Hr & Hn & He). unfold remove. case_decide as Hd; [|done]. split; [|done].
  unfold connector_wf. cbn. rewrite replay_history_app, Hr. cbn. rewrite decide_True by done.
  split_and!; [done| |].
  - intros m [Hm _]%elem_of_difference. by apply Hn.
  - intros Hemp m [Hm|[=]%list_elem_of_singleton]%elem_of_app. by apply (He Hemp m).
Qed.

Lemma Discover_wf ctx d : forall i c c' i' r,
  connector_wf c -> Discover ctx i d c = (c', i', r) ->
  connector_wf c' /\ EventTypeIDs c' = EventTypeIDs c.
Proof.
  induction d as [err|v|nil k IH|n d IH]; intros i c c' i' r Hw; cbn.
  - by intros [= <- _ _].
  - by intros [= <- _ _].
  - destruct (add (ctx i) nil c) as [[c1 n]|v] eqn:Ha; [|by intros [= <- _ _]]. intros Hd.
    apply connector_add_wf in Ha as [Hw1 He]; [|done]. destruct (IH n _ _ _ _ _ Hw1 Hd) as [? He'].
    by rewrite He', He.
  - intros Hd. destruct (connector_remove_wf n c Hw) as [Hw1 He]. destruct (IH _ _ _ _ _ Hw1 Hd) as [? He'].
    by rewrite He', He.
Qed.

Lemma replay_stops_all l live :
  NoDup l -> (forall n, n ∈ l <-> n ∈ live) -> replay (Stopped <$> l) live = Some ∅.
Proof.
  intros Hnd. revert live. induction Hnd as [|n l Hn Hnd IH]; intros live Hl; cbn.
  { f_equal. apply set_eq. intros n. rewrite <- Hl. set_solver. }
  rewrite decide_True by (apply Hl; left). apply IH. intros m. rewrite elem_of_difference, <- Hl, elem_of_cons.
  set_solver.
Qed.

Lemma discover_wf ctx d c c' err :
  connector_wf c -> discover ctx d c = (c', err) ->
  connector_wf c' /\ EventTypeIDs c' = EventTypeIDs c /\ watchers c' = ∅.
Proof.
  intros Hw. unfold discover. destruct (Discover ctx O d c) as [[c1 i] r] eqn:Hd. intros [= <- _].
  apply Discover_wf in Hd as [(Hr & Hn & He) Ht]; [|done]. split_and!; try done. unfold connector_wf. cbn.
  rewrite replay_history_app, Hr. cbn. split_and!; try done.
  - apply replay_stops_all; [apply NoDup_elements|]. intros n. by rewrite elem_of_elements.
  - intros Hemp m [Hm|(n & [=] & _)%list_elem_of_fmap]%elem_of_app. by apply (He Hemp m).
Qed.

(** ** Properties *)

(** Whatever discoverers do, and however often they fail and are called again, the
    connector does not panic, watches each connection once from when it is added until
    it is removed or the discoverer returns, and has no watch in progress in between;
    without event types it never watches. *)
Theorem connector_watches_are_balanced attempts types :
  exists c r, Run attempts [] (mkConnector types ∅ O []) = Ret (c, r) /\
    replay (history c) ∅ = Some ∅ /\ watchers c = ∅ /\
    (types = ∅ -> forall n, Watched n ∉ history c).
Proof.
  assert (Hgen : forall outcomes c, connector_wf c -> watchers c = ∅ ->
    exists c' r, Run attempts outcomes c = Ret (c', r) /\ connector_wf c' /\ watchers c' = ∅ /\
      EventTypeIDs c' = EventTypeIDs c).
  { induction attempts as [|a attempts IH]; intros outcomes c Hw He; cbn; [by eexists _, _|].
    destruct (discover (at_ctx a) (at_discovery a) c) as [c1 err] eqn:Hd.
    destruct (discover_wf _ _ _ _ _ Hw Hd) as (Hw1 & Ht & He1).
    destruct (Supervisor.Run_production (outcomes ++
      [Supervisor.mkAttempt err (at_ctx_err a) (at_elapsed a) (at_rand a) (at_canceled a)]))
      as (res & st & Hrun).
    rewrite Hrun. cbn. destruct res; [by eexists _, _|].
    destruct (IH (outcomes ++
      [Supervisor.mkAttempt err (at_ctx_err a) (at_elapsed a) (at_rand a) (at_canceled a)]) c1 Hw1 He1)
      as (c' & r & -> & ? & ? & ?). eexists _, _. split_and!; try done. congruence. }
  destruct (Hgen [] (mkConnector types ∅ O [])) as (c & r & Hr & (Hh & Hn & Hw) & He & Ht); try done.
  { split_and!; try done. intros _ n ?%not_elem_of_nil. done. }
  exists c, r. split_and!; try done; [by rewrite Hh, He|]. intros Hemp. apply Hw. by rewrite Ht.
Qed.
