(* ===== verification/Engine.v ===== *)
(** * The engine

    Models [engine.go] and [engineoption.go]: the options and [New], the start of the
    engine with the components that it runs for each handler, and the latches that
    [ExecuteCommand] and [ListenAddr] wait for.

    The configuration of the application is read by a library; it is given as an
    [Application], with the outcome of its validation. *)

From S2P Require Import Prelude Errors Stream Database Application Concurrency.
From S2P Require Supervisor MessagePump Projection.

(** ** The configuration of an application *)

Inductive Kind : Type := CommandKind | EventKind | DeadlineKind.
Inductive Direction : Type := InboundDirection | OutboundDirection.

#[global] Instance Kind_eq_dec : EqDecision Kind.
Proof. solve_decision. Defined.
#[global] Instance Direction_eq_dec : EqDecision Direction.
Proof. solve_decision. Defined.

Record Route := mkRoute { MessageKind : Kind; MessageDirection : Direction; MessageTypeID : UUID }.

Inductive HandlerType : Type :=
| AggregateHandler
| ProcessHandler
| IntegrationHandler (pref : ConcurrencyPreference)
| ProjectionHandler (pref : ConcurrencyPreference).

(** [config.Handler] *)
Record Handler := mkHandler {
  h_key : UUID;
  h_type : HandlerType;
  IsDisabled : bool;
  Routes : list Route;
}.

(** [config.Application] *)
Record Application := mkApplication {
  app_identity : Identity;
  Handlers : list Handler;
  app_routes : list Route;      (* of RouteSet *)
}.

(** ** Options *)

Definition Hour : Z := 60 * Supervisor.Minute.

Definition DefaultProjectionCompactInterval : Z := 6 * Hour.
Definition DefaultProjectionCompactTimeout : Z := 10 * Supervisor.Minute.
Definition DefaultHandleTimeout : Z := 1 * Supervisor.Minute.
Definition DefaultRouteTimeout : Z := 10 * Supervisor.Second.

(** The fields of [Engine] that are set by options; a discoverer of remote engines is
    known by a number. *)
Record Engine := mkEngine {
  compactInterval : Z;
  compactTimeout : Z;
  handleTimeout : Z;
  routeTimeout : Z;
  listenAddress : string;
  remoteEngineDiscoverers : list nat;
}.

Definition EngineOption : Type := Engine -> Engine.

Definition WithListenAddress (addr : string) : go EngineOption :=
  if decide (addr = "") then Panic "listen address must not be empty"
  else Ret (fun e => mkEngine (compactInterval e) (compactTimeout e) (handleTimeout e) (routeTimeout e)
                       addr (remoteEngineDiscoverers e)).

Definition WithRemoteEngineDiscoverer (d : option nat) : go EngineOption :=
  match d with
  | None => Panic "remote engine discoverer must not be nil"
  | Some d =>
      Ret (fun e => mkEngine (compactInterval e) (compactTimeout e) (handleTimeout e) (routeTimeout e)
                      (listenAddress e) (remoteEngineDiscoverers e ++ [d]))
  end.

Definition WithProjectionCompactInterval (interval : Z) : go EngineOption :=
  if decide (interval <= 0) then Panic "projection compaction interval must be positive"
  else Ret (fun e => mkEngine interval (compactTimeout e) (handleTimeout e) (routeTimeout e)
                       (listenAddress e) (remoteEngineDiscoverers e)).

Definition WithProjectionCompactTimeout (timeout : Z) : go EngineOption :=
  if decide (timeout <= 0) then Panic "projection compaction timeout must be positive"
  else Ret (fun e => mkEngine (compactInterval e) timeout (handleTimeout e) (routeTimeout e)
                       (listenAddress e) (remoteEngineDiscoverers e)).

Definition WithHandleTimeout (timeout : Z) : go EngineOption :=
  if decide (timeout <= 0) then Panic "handle timeout must be positive"
  else Ret (fun e => mkEngine (compactInterval e) (compactTimeout e) timeout (routeTimeout e)
                       (listenAddress e) (remoteEngineDiscoverers e)).

Definition WithRouteTimeout (timeout : Z) : go EngineOption :=
  if decide (timeout <= 0) then Panic "route timeout must be positive"
  else Ret (fun e => mkEngine (compactInterval e) (compactTimeout e) (handleTimeout e) timeout
                       (listenAddress e) (remoteEngineDiscoverers e)).

(** What is passed to [New] as a database. *)
Inductive database : Type := NilDB | OtherDriver | Pgx.

Definition New (db : database) (options : list EngineOption) : go Engine :=
  match db with
  | NilDB => Panic "database must not be nil"
  | OtherDriver => Panic "database must use the pgx driver"
  | Pgx =>
      Ret (foldl (fun e option => option e)
             (mkEngine DefaultProjectionCompactInterval DefaultProjectionCompactTimeout
                DefaultHandleTimeout DefaultRouteTimeout "" [])
             options)
  end.

(** A call of one of the functions above. *)
Inductive option_call : Type :=
| ListenAddressOption (addr : string)
| RemoteEngineDiscovererOption (d : option nat)
| CompactIntervalOption (d : Z)
| CompactTimeoutOption (d : Z)
| HandleTimeoutOption (d : Z)
| RouteTimeoutOption (d : Z).

Definition call_option (o : option_call) : go EngineOption :=
  match o with
  | ListenAddressOption addr => WithListenAddress addr
  | RemoteEngineDiscovererOption d => WithRemoteEngineDiscoverer d
  | CompactIntervalOption d => WithProjectionCompactInterval d
  | CompactTimeoutOption d => WithProjectionCompactTimeout d
  | HandleTimeoutOption d => WithHandleTimeout d
  | RouteTimeoutOption d => WithRouteTimeout d
  end.

Fixpoint call_options (os : list option_call) : go (list EngineOption) :=
  match os with
  | [] => Ret []
  | o :: os' => f ← call_option o; fs ← call_options os'; Ret (f :: fs)
  end.

(** ** Message types *)

Definition inboundMessageTypeIDsForHandler (h : Handler) (k : Kind) : gset UUID :=
  list_to_set (MessageTypeID <$>
    filter (fun r => MessageDirection r = InboundDirection) (filter (fun r => MessageKind r = k) (Routes h))).

Definition outboundMessageTypesForHandler (h : Handler) : gset UUID :=
  list_to_set (MessageTypeID <$> filter (fun r => MessageDirection r = OutboundDirection) (Routes h)).

(** The loop of [consumedEventTypeIDs]. *)
Fixpoint consumed_event_types (hs : list Handler) (messageTypeIDs : gset UUID) : gset UUID :=
  match hs with
  | [] => messageTypeIDs
  | h :: hs' =>
      if IsDisabled h then consumed_event_types hs' messageTypeIDs
      else consumed_event_types hs' (inboundMessageTypeIDsForHandler h EventKind ∪ messageTypeIDs)
  end.

Definition consumedEventTypeIDs (app : Application) : gset UUID :=
  consumed_event_types (Handlers app) ∅.

(** The types of [setupCommandTypes]: those of the inbound command routes of the whole
    application. *)
Definition setupCommandTypes (app : Application) : gset UUID :=
  list_to_set (MessageTypeID <$>
    filter (fun r => MessageKind r = CommandKind /\ MessageDirection r = InboundDirection)
      (app_routes app)).

(** ** Components *)

Definition heartbeatInterval : Z := 1 * Supervisor.Second.
Definition heartbeatTimeout : Z := 5 * heartbeatInterval.
Definition eventStreamCacheSize : Z := 100.
Definition eventStreamSegmentSize : Z := 100.
Definition eventStreamBufferSize : Z := 100.
Definition eventStreamMaxSegmentBytes : Z := Z.shiftl 2 20.

(** The components that the engine's group runs, with what they are given. *)
Inductive Component : Type :=
| SignalBus
| ClusterNode (interval timeout : Z)
| LocalEventStreams (segment_size buffer_size : Z)
| CatalogWatch (cache_size : Z) (types : gset UUID)
| RemoteEngineConnector (discover : nat) (types : gset UUID)
| AggregateCommandPump (pump : MessagePump.MessagePump) (key : UUID) (types outbound : gset UUID)
| IntegrationCommandPump (pump : MessagePump.MessagePump) (key : UUID) (pref : ConcurrencyPreference)
    (types outbound : gset UUID)
| ProcessConsumer (key : UUID) (types outbound : gset UUID)
| ProcessDeadlinePump (pump : MessagePump.MessagePump) (key : UUID) (types outbound : gset UUID)
| ProjectionConsumer (sink : Projection.Sink)
| ProjectionCompactor (compactor : Projection.Compactor)
| GrpcServer (address : string) (max_segment_bytes : Z).

(** [gomaxprocs] is the result of runtime.GOMAXPROCS(0). *)
Definition workerCountForHandler (gomaxprocs : Z) (h : Handler) : Z :=
  match h_type h with
  | IntegrationHandler MinimizeConcurrency => 1
  | _ => 10 * gomaxprocs
  end.

(** The components of a handler. *)
Definition runHandler (gomaxprocs : Z) (e : Engine) (h : Handler) : list Component :=
  let pump :=
    MessagePump.mkPump (workerCountForHandler gomaxprocs h) (10 * Supervisor.Millisecond)
      (5 * Supervisor.Minute) in
  let outbound := outboundMessageTypesForHandler h in
  match h_type h with
  | AggregateHandler =>
      [AggregateCommandPump pump (h_key h) (inboundMessageTypeIDsForHandler h CommandKind) outbound]
  | IntegrationHandler pref =>
      [IntegrationCommandPump pump (h_key h) pref (inboundMessageTypeIDsForHandler h CommandKind) outbound]
  | ProcessHandler =>
      [ProcessConsumer (h_key h) (inboundMessageTypeIDsForHandler h EventKind) outbound;
       ProcessDeadlinePump pump (h_key h) (inboundMessageTypeIDsForHandler h DeadlineKind) outbound]
  | ProjectionHandler pref =>
      let handlerLock := match pref with MinimizeConcurrency => true | MaximizeConcurrency => false end in
      [ProjectionConsumer
         (Projection.mkSink (h_key h) pref (inboundMessageTypeIDsForHandler h EventKind) handlerLock);
       ProjectionCompactor (Projection.mkCompactor (h_key h) (compactInterval e) (compactTimeout e))]
  end.

(** The loop of [Run] over the handlers. *)
Fixpoint run_handlers (gomaxprocs : Z) (e : Engine) (hs : list Handler) : list Component :=
  match hs with
  | [] => []
  | h :: hs' =>
      (if IsDisabled h then [] else runHandler gomaxprocs e h) ++ run_handlers gomaxprocs e hs'
  end.

(** What [Run] starts, in order. *)
Definition components (gomaxprocs : Z) (e : Engine) (app : Application) : list Component :=
  let eventTypeIDs := consumedEventTypeIDs app in
  [SignalBus; ClusterNode heartbeatInterval heartbeatTimeout] ++
  (if decide (eventTypeIDs <> ∅ \/ listenAddress e <> "")
   then [LocalEventStreams eventStreamSegmentSize eventStreamBufferSize] else []) ++
  (if decide (eventTypeIDs <> ∅) then [CatalogWatch eventStreamCacheSize eventTypeIDs] else []) ++
  ((fun d => RemoteEngineConnector d eventTypeIDs) <$> remoteEngineDiscoverers e) ++
  run_handlers gomaxprocs e (Handlers app) ++
  (if decide (listenAddress e <> "") then [GrpcServer (listenAddress e) eventStreamMaxSegmentBytes] else []).

(** ** Start *)

(** What the start meets: the outcomes of the validation and of the statements, and
    the clock of the database. *)
Record startup := mkStartup {
  su_validate_err : option error;
  su_bind_err : option error;
  su_init_err : UUID -> option error;
  su_now : Z;
  su_gomaxprocs : Z;
}.

Definition initializeHandler (su : startup) (h : Handler) (db : DB) : DB * option error :=
  match h_type h with
  | ProjectionHandler _ =>
      Projection.InitializeHandler (su_init_err su (h_key h)) (su_now su) (h_key h) db
  | _ => (db, None)
  end.

Fixpoint initialize_handlers (su : startup) (hs : list Handler) (db : DB) : DB * option error :=
  match hs with
  | [] => (db, None)
  | h :: hs' =>
      match initializeHandler su h db with
      | (db, Some err) => (db, Some (Wrap "unable to initialize handler" err))
      | (db, None) => initialize_handlers su hs' db
      end
  end.

(** [Run], until it waits for the group: an error, or what the group runs. *)
Definition start (su : startup) (e : Engine) (app : Application) (db : DB)
    : DB * (error + list Component) :=
  match su_validate_err su with
  | Some err => (db, inl (Wrap "invalid application configuration" err))
  | None =>
      match Bind (su_bind_err su) (app_identity app) db with
      | (db, Some err) => (db, inl (Wrap "unable to bind database to application" err))
      | (db, None) =>
          match initialize_handlers su (Handlers app) db with
          | (db, Some err) => (db, inl err)
          | (db, None) => (db, inr (components (su_gomaxprocs su) e app))
          end
      end
  end.

(** ** The life of an engine *)

(** [ready] and [stopped] are the latches; [listenAddr] the address of the server. *)
Record life := mkLife {
  started : option (list Component);
  ready : bool;
  stopped : bool;
  listenAddr : option string;
}.

Definition created : life := mkLife None false false None.

(** What [Run] does, in order, while other calls observe the latches. *)
Inductive life_step (e : Engine) : life -> life -> Prop :=
| life_not_started : life_step e created (mkLife None false true None)
| life_started cs :
    life_step e created (mkLife (Some cs) (bool_decide (listenAddress e = "")) false None)
| life_listening cs addr :
    listenAddress e <> "" ->
    life_step e (mkLife (Some cs) false false None) (mkLife (Some cs) true false (Some addr))
| life_stopped cs r addr :
    life_step e (mkLife (Some cs) r false addr) (mkLife (Some cs) r true addr).

(** The cases of the select statement of [waitUntilReady]. *)
Inductive wait_case : Type := CtxDone (err : error) | ReadyCase | StoppedCase.

Definition enabled (c : wait_case) (l : life) : Prop :=
  match c with
  | CtxDone _ => True
  | ReadyCase => ready l = true
  | StoppedCase => stopped l = true
  end.

(** [waitUntilReady], where the case that was chosen is given, and the engine as it is
    after the select statement. *)
Definition waitUntilReady (c : wait_case) (after : life) : option error :=
  match c with
  | CtxDone err => Some err
  | ReadyCase | StoppedCase =>
      if stopped after then Some (Opaque "engine is not running") else None
  end.

Definition ListenAddr (e : Engine) (c : wait_case) (after : life) : error + option string :=
  if decide (listenAddress e = "") then inl (Opaque "engine does not listen for gRPC requests")
  else
    match waitUntilReady c after with
    | Some err => inl err
    | None => inr (listenAddr after)
    end.

(** ** What the components rely on *)

(** Consumers of the given event types are given their events: the types are not
    empty, and everything that feeds the catalog watches for all of them. *)
Definition fed (cs : list Component) (types : gset UUID) : Prop :=
  types <> ∅ /\
  (exists n m, LocalEventStreams n m ∈ cs) /\ (exists n watched, CatalogWatch n watched ∈ cs) /\
  forall c, c ∈ cs ->
    match c with
    | CatalogWatch _ watched | RemoteEngineConnector _ watched => types ⊆ watched
    | _ => True
    end.

(** The delays of a pump are bounded, however often a delivery fails. *)
Definition paced (p : MessagePump.MessagePump) : Prop :=
  forall r n, 1 <= n -> exists x, MessagePump.computeBackoff p r n = Ret x /\
    10 * Supervisor.Millisecond <= x < 5 * Supervisor.Minute.

Definition contract (cs : list Component) (db : DB) (c : Component) : Prop :=
  match c with
  | ClusterNode interval timeout => 0 < interval < timeout
  | LocalEventStreams segment_size buffer_size => 0 < segment_size /\ 0 < buffer_size
  | CatalogWatch cache_size types => 0 < cache_size /\ types <> ∅
  | GrpcServer _ max_segment_bytes => 0 < max_segment_bytes < Z.shiftl 4 20
  | AggregateCommandPump p _ _ _ | IntegrationCommandPump p _ _ _ _ | ProcessDeadlinePump p _ _ _ => paced p
  | ProcessConsumer _ types _ => fed cs types
  | ProjectionConsumer s =>
      fed cs (Projection.EventTypes s) /\
      (Projection.HasHandlerLock s = true <-> Projection.Concurrency s = MinimizeConcurrency)
  | ProjectionCompactor c =>
      is_Some (compacted db !! Projection.c_key c) /\
      forall outcomes, exists r, Projection.Run c outcomes = Ret r
  | _ => True
  end.

(** What [config.Validate] ensures: processes and projections consume events. *)
Definition routes_ok (app : Application) : Prop :=
  forall h, h ∈ Handlers app ->
    match h_type h with
    | ProcessHandler | ProjectionHandler _ => exists r, r ∈ Routes h /\
        MessageKind r = EventKind /\ MessageDirection r = InboundDirection
    | _ => True
    end.

Lemma consumed_event_types_spec hs acc t :
  t ∈ consumed_event_types hs acc <->
  t ∈ acc \/ exists h, h ∈ hs /\ IsDisabled h = false /\ t ∈ inboundMessageTypeIDsForHandler h EventKind.
Proof.
  revert acc. induction hs as [|h hs IH]; intros acc; cbn.
  { split; [by left|]. intros [?|(h & Hh & _)]; [done|by apply not_elem_of_nil in Hh]. }
  destruct (IsDisabled h) eqn:Hd; rewrite IH.
  - split; [intros [?|(x & ? & ?)]; [by left|right; exists x; split; [by right|done]]|].
    intros [?|(x & [->|Hx]%elem_of_cons & Hdx & ?)]; [by left|congruence|right; by exists x].
  - rewrite elem_of_union. split.
    + intros [[?|?]|(x & ? & ?)]; [right; exists h; split_and!; [left|done|done]|by left|].
      right; exists x; split; [by right|done].
    + intros [?|(x & [->|Hx]%elem_of_cons & Hdx & ?)]; [by left; right|by left; left|right; by exists x].
Qed.

Lemma elem_of_run_handlers n e hs c :
  c ∈ run_handlers n e hs <-> exists h, h ∈ hs /\ IsDisabled h = false /\ c ∈ runHandler n e h.
Proof.
  induction hs as [|h hs IH]; cbn.
  { split; [by intros ?%not_elem_of_nil|]. by intros (h & ?%not_elem_of_nil & _). }
  rewrite elem_of_app, IH. split.
  - intros [Hc|(x & Hx & ?)]; [|exists x; split; [by right|done]].
    destruct (IsDisabled h) eqn:Hd; [by apply not_elem_of_nil in Hc|]. exists h. split_and!; [left|done|done].
  - intros (x & [->|Hx]%elem_of_cons & Hd & Hc); [left; by rewrite Hd|right; by exists x].
Qed.

Lemma routed_types_nonempty h r k :
  r ∈ Routes h -> MessageKind r = k -> MessageDirection r = InboundDirection ->
  MessageTypeID r ∈ inboundMessageTypeIDsForHandler h k.
Proof.
  intros Hr Hk Hd. unfold inboundMessageTypeIDsForHandler. apply elem_of_list_to_set.
  apply list_elem_of_fmap. exists r. split; [done|].
  apply list_elem_of_filter. split; [done|]. by apply list_elem_of_filter.
Qed.

(** What the engine runs. *)
Lemma elem_of_components n e app c :
  c ∈ components n e app <->
  c = SignalBus \/ c = ClusterNode heartbeatInterval heartbeatTimeout \/
  ((consumedEventTypeIDs app <> ∅ \/ listenAddress e <> "") /\
   c = LocalEventStreams eventStreamSegmentSize eventStreamBufferSize) \/
  (consumedEventTypeIDs app <> ∅ /\ c = CatalogWatch eventStreamCacheSize (consumedEventTypeIDs app)) \/
  (exists d, d ∈ remoteEngineDiscoverers e /\ c = RemoteEngineConnector d (consumedEventTypeIDs app)) \/
  (exists h, h ∈ Handlers app /\ IsDisabled h = false /\ c ∈ runHandler n e h) \/
  (listenAddress e <> "" /\ c = GrpcServer (listenAddress e) eventStreamMaxSegmentBytes).
Proof.
  unfold components. rewrite !elem_of_app, elem_of_run_handlers, list_elem_of_fmap, elem_of_cons,
    list_elem_of_singleton.
  assert (Hone : forall (P : Prop) (dec : Decision P) x,
    c ∈ (if @decide P dec then [x] else []) <-> P /\ c = x).
  { intros P HP x. case_decide; [rewrite list_elem_of_singleton; tauto|].
    split; [by intros ?%not_elem_of_nil|tauto]. }
  rewrite !Hone. naive_solver.
Qed.

(** A component that feeds the catalog watches for all types that are consumed. *)
Lemma components_watch n e app c :
  c ∈ components n e app ->
  match c with
  | CatalogWatch _ types => types = consumedEventTypeIDs app /\ types <> ∅
  | RemoteEngineConnector _ types => types = consumedEventTypeIDs app
  | _ => True
  end.
Proof.
  intros [->|[->|[[_ ->]|[[? ->]|[(d & _ & ->)|[(h & _ & _ & Hc)|[_ ->]]]]]]]%elem_of_components; try done.
  unfold runHandler in Hc. destruct (h_type h); set_unfold; naive_solver.
Qed.

Lemma components_fed n e app h :
  h ∈ Handlers app -> IsDisabled h = false -> inboundMessageTypeIDsForHandler h EventKind <> ∅ ->
  fed (components n e app) (inboundMessageTypeIDsForHandler h EventKind).
Proof.
  intros Hh Hd Hne.
  assert (Hsub : inboundMessageTypeIDsForHandler h EventKind ⊆ consumedEventTypeIDs app).
  { intros t Ht. apply consumed_event_types_spec. right. by exists h. }
  assert (Hc : consumedEventTypeIDs app <> ∅) by set_solver.
  split_and!; [done|..].
  - eexists _, _. apply elem_of_components. do 2 right. left. by split; [left|].
  - eexists _, _. apply elem_of_components. do 3 right. left. by split.
  - intros c Hin%components_watch. destruct c; try done; [by destruct Hin as [-> _]|by rewrite Hin].
Qed.

Lemma engine_pump_paced n : paced (MessagePump.mkPump n (10 * Supervisor.Millisecond) (5 * Supervisor.Minute)).
Proof.
  intros r k Hk. set (p := MessagePump.mkPump _ _ _).
  destruct (MessagePump.computeBackoff_spec p r k) as (x & Hx & Hb); [split; split; reflexivity|done|].
  exists x. split; [done|]. cbn in Hb. split; [apply Hb|].
  destruct Hb as [_ Hb]. eapply Z.lt_le_trans; [exact Hb|apply Z.le_min_r].
Qed.

Lemma InitializeHandler_compacted e now key db k :
  is_Some (compacted db !! k) -> is_Some (compacted (Projection.InitializeHandler e now key db).1 !! k).
Proof.
  intros Hk. unfold Projection.InitializeHandler. destruct e; [done|].
  destruct (compacted db !! key) eqn:Hc; [done|]. cbn.
  destruct (decide (key = k)) as [->|]; [by rewrite lookup_insert_eq; eexists|by rewrite lookup_insert_ne].
Qed.

(** The projections have a row once the handlers are initialized, and nothing else
    has changed. *)
Lemma initialize_handlers_spec su hs db db' :
  initialize_handlers su hs db = (db', None) ->
  identity db' = identity db /\ (forall k, is_Some (compacted db !! k) -> is_Some (compacted db' !! k)) /\
  forall h pref, h ∈ hs -> h_type h = ProjectionHandler pref -> is_Some (compacted db' !! h_key h).
Proof.
  revert db. induction hs as [|h hs IH]; intros db; cbn.
  { intros [= <-]. split_and!; try done. by intros h pref ?%not_elem_of_nil. }
  destruct (initializeHandler su h db) as [db1 [err|]] eqn:Hi; [done|]. intros H.
  destruct (IH db1 H) as (Hid & Hmono & Hall).
  assert (Hone : identity db1 = identity db /\
    (forall k, is_Some (compacted db !! k) -> is_Some (compacted db1 !! k)) /\
    forall pref, h_type h = ProjectionHandler pref -> is_Some (compacted db1 !! h_key h)).
  { unfold initializeHandler in Hi. destruct (h_type h) eqn:Ht; try (injection Hi as <-; by split_and!).
    split_and!.
    - unfold Projection.InitializeHandler in Hi. destruct (su_init_err _ _); [done|].
      destruct (compacted db !! h_key h); by injection Hi as <-.
    - intros k Hk. apply (InitializeHandler_compacted (su_init_err su (h_key h)) (su_now su) (h_key h)) in Hk.
      by rewrite Hi in Hk.
    - intros p _. unfold Projection.InitializeHandler in Hi. destruct (su_init_err _ _); [done|].
      destruct (compacted db !! h_key h) eqn:Hc; injection Hi as <-; [by rewrite Hc; eexists|].
      cbn. rewrite lookup_insert_eq. by eexists. }
  destruct Hone as (Hid1 & Hmono1 & Hh). split_and!; [congruence|by eauto|].
  intros x pref [->|Hx]%elem_of_cons Ht; eauto.
Qed.

(** Options leave the compaction settings positive. *)
Definition positive (e : Engine) : Prop := 0 < compactInterval e /\ 0 < compactTimeout e.

Lemma options_positive os fs e :
  call_options os = Ret fs -> New Pgx fs = Ret e -> positive e.
Proof.
  intros Hos. cbn [New]. intros [= <-].
  assert (Hdef : positive (mkEngine DefaultProjectionCompactInterval DefaultProjectionCompactTimeout
    DefaultHandleTimeout DefaultRouteTimeout "" [])) by done.
  revert Hdef. generalize (mkEngine DefaultProjectionCompactInterval DefaultProjectionCompactTimeout
    DefaultHandleTimeout DefaultRouteTimeout "" []).
  revert fs Hos. induction os as [|o os IH]; intros fs; cbn.
  { by intros [= <-]. }
  destruct (call_option o) as [f|] eqn:Ho; cbn; [|done].
  destruct (call_options os) as [fs'|] eqn:Hos; cbn; [|done]. intros [= <-] e Hp. cbn.
  apply (IH fs' eq_refl). destruct Hp as [Hi Ht].
  destruct o; cbn in Ho; unfold WithListenAddress, WithRemoteEngineDiscoverer, WithProjectionCompactInterval,
    WithProjectionCompactTimeout, WithHandleTimeout, WithRouteTimeout in Ho;
    repeat case_match; try discriminate; injection Ho as <-; split; cbn; lia.
Qed.

Lemma components_contracts n e app db :
  positive e -> routes_ok app ->
  (forall h pref, h ∈ Handlers app -> h_type h = ProjectionHandler pref -> is_Some (compacted db !! h_key h)) ->
  forall c, c ∈ components n e app -> contract (components n e app) db c.
Proof.
  intros [Hi Ht] Hroutes Hrows c.
  intros [->|[->|[[_ ->]|[[? ->]|[(d & _ & ->)|[(h & Hh & Hd & Hc)|[_ ->]]]]]]]%elem_of_components; try done.
  specialize (Hroutes h Hh).
  assert (Hfed : (exists r, r ∈ Routes h /\ MessageKind r = EventKind /\
      MessageDirection r = InboundDirection) ->
    fed (components n e app) (inboundMessageTypeIDsForHandler h EventKind)).
  { intros (r & Hr & Hk & Hdir). apply components_fed; [done..|].
    pose proof (routed_types_nonempty h r EventKind Hr Hk Hdir). set_solver. }
  unfold runHandler in Hc. destruct (h_type h) as [| |pref|pref] eqn:Hty.
  - apply list_elem_of_singleton in Hc as ->. apply engine_pump_paced.
  - apply elem_of_cons in Hc as [-> | ->%list_elem_of_singleton]; [by apply Hfed|apply engine_pump_paced].
  - apply list_elem_of_singleton in Hc as ->. apply engine_pump_paced.
  - apply elem_of_cons in Hc as [-> | ->%list_elem_of_singleton].
    + split; [by apply Hfed|]. by destruct pref.
    + split; [by eapply Hrows|]. intros outcomes. unfold Projection.Run. cbn.
      rewrite !decide_False by lia.
      destruct (Supervisor.Run_production outcomes) as (r & st & Hr). by exists (r, st).
Qed.

(** The latches are only ever set, and the engine is ready only once it has started
    and, if it listens, has an address. *)
Definition life_wf (e : Engine) (l : life) : Prop :=
  ready l = true -> is_Some (started l) /\ (listenAddress e <> "" -> is_Some (listenAddr l)).

Lemma life_step_wf e l l' : life_wf e l -> life_step e l l' -> life_wf e l'.
Proof.
  intros Hw Hs. destruct Hs as [|cs|cs addr Hne|cs r addr]; unfold life_wf in *; cbn in *; try done.
  - intros Hr%bool_decide_eq_true. by split; [eexists|].
Qed.

Lemma life_steps_wf e l l' : life_wf e l -> rtc (life_step e) l l' -> life_wf e l'.
Proof. intros Hw. induction 1; [done|]. eauto using life_step_wf. Qed.

Lemma life_steps_latched e l l' :
  rtc (life_step e) l l' ->
  (ready l = true -> ready l' = true) /\ (stopped l = true -> stopped l' = true).
Proof.
  induction 1 as [l|l l1 l' Hs _ IH]; [done|].
  assert ((ready l = true -> ready l1 = true) /\ (stopped l = true -> stopped l1 = true)) by (by destruct Hs).
  naive_solver.
Qed.

(** ** Properties *)

(** C12: an engine that starts meets what its components rely on, whatever options it
    was created with: the database is bound to the application; every process and
    projection that is not disabled has its components, its event types are not
    empty, and everything that feeds the catalog watches for all of them; a projection
    has a lock exactly if it prefers to minimize concurrency; it has the row that its
    compactor locks, and the compactor does not panic; the delays of the message pumps
    are bounded, and so are the sizes of caches, buffers and segments. *)
Theorem engine_meets_contracts os fs e app su db db' cs :
  call_options os = Ret fs -> New Pgx fs = Ret e -> routes_ok app ->
  start su e app db = (db', inr cs) ->
  identity db' = Some (id_key (app_identity app), id_name (app_identity app)) /\
  (forall c, c ∈ cs -> contract cs db' c) /\
  (forall h c, h ∈ Handlers app -> IsDisabled h = false ->
     c ∈ runHandler (su_gomaxprocs su) e h -> c ∈ cs) /\
  (forall c, c ∈ cs ->
     match c with
     | ProcessConsumer key _ _ | ProcessDeadlinePump _ key _ _ | AggregateCommandPump _ key _ _
     | IntegrationCommandPump _ key _ _ _ =>
         exists h, h ∈ Handlers app /\ h_key h = key /\ IsDisabled h = false
     | _ => True
     end).
Proof.
  intros Hos HNew Hroutes. unfold start. destruct (su_validate_err su); [done|].
  pose proof (Bind_spec (su_bind_err su) (app_identity app) db) as Hb.
  destruct (Bind (su_bind_err su) (app_identity app) db) as [db1 [err|]]; [done|].
  destruct (initialize_handlers su (Handlers app) db1) as [db2 [err|]] eqn:Hi; [done|]. intros [= <- <-].
  apply initialize_handlers_spec in Hi as (Hid & _ & Hrows). split_and!.
  - rewrite Hid. destruct (su_bind_err su); [by destruct Hb|]. case_decide; [by destruct Hb as [[? ?] _]|].
    destruct (identity db) as [[key name]|]; [|apply Hb]. case_decide; [subst; apply Hb|].
    by destruct Hb as [[? ?] _].
  - apply components_contracts; [by eapply options_positive|done..].
  - intros h c Hh Hd Hc. apply elem_of_components. do 5 right. left. by exists h.
  - intros c [->|[->|[[_ ->]|[[? ->]|[(d & _ & ->)|[(h & Hh & Hd & Hc)|[_ ->]]]]]]]%elem_of_components; try done.
    unfold runHandler in Hc. destruct (h_type h); set_unfold; naive_solver.
Qed.

(** A call that waits for the engine goes on only if the engine is running:
    whichever of the enabled cases is chosen, and whatever happens between the choice
    and the check, if it reports no error then the engine has started its components,
    is ready and was not stopped when it was checked; an engine that has stopped is
    always reported, and [ListenAddr] never returns an unknown address. *)
Theorem waiting_calls_see_a_running_engine e c l after :
  rtc (life_step e) created l -> enabled c l -> rtc (life_step e) l after ->
  (waitUntilReady c after = None ->
     is_Some (started after) /\ ready after = true /\ stopped after = false) /\
  (stopped l = true -> is_Some (waitUntilReady c after)) /\
  (forall a, ListenAddr e c after = inr a -> is_Some a).
Proof.
  intros Hl Hen Hafter.
  assert (Hw : life_wf e after).
  { apply (life_steps_wf e created); [done|]. by transitivity l. }
  pose proof (life_steps_latched e l after Hafter) as [Hr Hs].
  assert (Hwait : waitUntilReady c after = None -> ready after = true /\ stopped after = false).
  { unfold waitUntilReady. destruct c as [err| |]; [done|..]; destruct (stopped after) eqn:Hst; try done.
    - intros _. split; [by apply Hr|done].
    - intros _. cbn in Hen. specialize (Hs Hen). congruence. }
  split_and!.
  - intros H. destruct (Hwait H) as [Hrd Hst]. split_and!; [by apply Hw|done..].
  - intros H. unfold waitUntilReady. destruct c as [err| |]; [by eexists|..];
      rewrite (Hs H); by eexists.
  - intros a. unfold ListenAddr. case_decide; [done|].
    destruct (waitUntilReady c after) eqn:Hwt; [done|]. intros [= <-].
    destruct (Hwait eq_refl) as [Hrd _]. by apply Hw.
Qed.

(** ** Examples *)

Definition example_app : Application :=
  mkApplication (mkIdentity "app" 1)
    [mkHandler 2 (ProjectionHandler MinimizeConcurrency) false [mkRoute EventKind InboundDirection 21];
     mkHandler 3 ProcessHandler true [mkRoute EventKind InboundDirection 22]] [].

Definition example_startup : startup := mkStartup None None (fun _ => None) 5 4.

Lemma engine_meets_contracts_witness :
  exists fs e db' cs, call_options [CompactIntervalOption 50; ListenAddressOption ":1"] = Ret fs /\
    New Pgx fs = Ret e /\ start example_startup e example_app empty_db = (db', inr cs) /\
    contract cs db' (ProjectionCompactor (Projection.mkCompactor 2 50 DefaultProjectionCompactTimeout)).
Proof.
  eexists _, _, _, _. split; [reflexivity|]. split; [reflexivity|]. split; [reflexivity|].
  eapply (engine_meets_contracts [CompactIntervalOption 50; ListenAddressOption ":1"] _ _ example_app
    example_startup empty_db).
  - reflexivity.
  - reflexivity.
  - intros h [->|[->|[]%not_elem_of_nil]%elem_of_cons]%elem_of_cons; cbn;
      eexists; (split; [by apply list_elem_of_singleton|]); split; reflexivity.
  - reflexivity.
  - vm_compute. repeat constructor.
Defined.

Definition example_engine : Engine :=
  mkEngine DefaultProjectionCompactInterval DefaultProjectionCompactTimeout DefaultHandleTimeout
    DefaultRouteTimeout "" [].

Lemma waiting_calls_see_a_running_engine_witness :
  waitUntilReady ReadyCase (mkLife (Some []) true false None) = None /\
  is_Some (started (mkLife (Some []) true false None)) /\
  is_Some (waitUntilReady ReadyCase (mkLife (Some []) true true None)).
Proof.
  assert (Hl : rtc (life_step example_engine) created (mkLife (Some []) true false None)).
  { apply rtc_once. exact (life_started example_engine []). }
  split; [reflexivity|]. split.
  - apply (waiting_calls_see_a_running_engine example_engine ReadyCase _ _ Hl eq_refl (rtc_refl _ _)).
    reflexivity.
  - apply (waiting_calls_see_a_running_engine example_engine ReadyCase (mkLife (Some []) true true None));
      [|reflexivity|apply rtc_refl|reflexivity].
    eapply rtc_r; [exact Hl|]. apply life_stopped.
Defined.
