(* ===== verification/System.v ===== *)
(** * The engine's transactions together

    Every transaction that an engine commits, of any handler on any node: the database
    goes from one state to the next by the steps of [engine_step].  The parts that other
    files prove of each kind of handler hold of all of them together, and the event log
    is append-only, which is what the event streams rely on. *)

From S2P Require Import Prelude Errors Stream Database MessagePump Handler.
From S2P Require Process Execute Aggregate Concurrency Integration Projection Application.

(** ** Frames

    What the transactions of each kind of handler leave alone. *)

(** Processes neither record events nor change aggregates. *)
Definition log_frame (db db' : DB) : Prop :=
  events db' = events db /\ streams db' = streams db /\ aggregates db' = aggregates db /\
  idempotency_keys db ⊆ idempotency_keys db'.

(** And the handling of a message does not change a checkpoint. *)
Definition process_frame (db db' : DB) : Prop :=
  log_frame db db' /\ checkpoints db' = checkpoints db.

(** The envelope of an event can be read, and is of the type that the row says. *)
Definition row_ok `{Messaging} (r : EventRow) : Prop :=
  exists e, Unmarshal (ev_envelope r) = inr e /\ type_of e = ev_type_id r.

Definition arg_ok `{Messaging} (a : EventArg) : Prop :=
  exists e, Unmarshal (ea_envelope a) = inr e /\ type_of e = ea_type_id a.

Lemma event_args_ok `{Messaging} es : forall args, event_args es = inr args -> Forall arg_ok args.
Proof.
  induction es as [|env es IH]; intros args; cbn; [by intros [= <-]|].
  destruct (Marshal env) as [e|data] eqn:Hm; [done|]. destruct (event_args es) as [e|args']; [done|].
  intros [= <-]. constructor; [|by apply IH]. exists env. split; [|done]. by apply Unmarshal_Marshal.
Qed.

Section frames.
Context `{Messaging}.

(** A handler of commands appends events, on behalf of [hk], and changes no aggregate of
    another handler and no process. *)
Definition command_frame (hk : option UUID) (db db' : DB) : Prop :=
  (instances db' = instances db /\ deadlines db' = deadlines db /\ checkpoints db' = checkpoints db /\
   idempotency_keys db' = idempotency_keys db) /\
  (forall k iid, hk <> Some k -> aggregates db' !! (k, iid) = aggregates db !! (k, iid)) /\
  (exists new, events db' = events db ++ new /\ Forall (fun r => ev_handler_key r = hk /\ row_ok r) new) /\
  Aggregate.streams_mono db db'.

#[global] Instance log_frame_preorder : PreOrder log_frame.
Proof.
  split.
  - intros db. by split_and!.
  - intros db1 db2 db3 (H1 & H2 & H3 & H4) (I1 & I2 & I3 & I4). split_and!; try congruence. by etransitivity.
Qed.

#[global] Instance process_frame_preorder : PreOrder process_frame.
Proof.
  split.
  - intros db. split; [reflexivity|done].
  - intros db1 db2 db3 [H1 H2] [I1 I2]. split; [by etransitivity|congruence].
Qed.

#[global] Instance command_frame_preorder hk : PreOrder (command_frame hk).
Proof.
  split.
  - intros db. split_and!; try done; [|apply Aggregate.streams_mono_refl].
    exists []. by rewrite app_nil_r.
  - intros db1 db2 db3 ((H1 & H2 & H3 & H4) & Ha & (n1 & He1 & Hf1) & Hs1)
      ((I1 & I2 & I3 & I4) & Hb & (n2 & He2 & Hf2) & Hs2). split_and!; try congruence.
    + intros k iid Hk. by rewrite Hb, Ha.
    + exists (n1 ++ n2). split; [by rewrite He2, He1, app_assoc|by apply Forall_app].
    + intros sid n Hn. destruct (Hs1 sid n Hn) as (n' & Hn' & ?).
      destruct (Hs2 sid n' Hn') as (n'' & ? & ?). exists n''. split; [done|lia].
Qed.

(** How the transaction of a delivery ends, seen through a frame. *)
Lemma doHandle_within (R : relation DB) `{!PreOrder R} `{Driver} p r cerr del env db db' err :
  (forall del env db, R db (HandleDelivery del env db).1) ->
  (forall del delay db, R db (PostponeDelivery del delay db).1) ->
  doHandle p r cerr del env db db = Ret (db', err) -> R db db'.
Proof.
  intros Hh Hp. intros [[_ Hd]|[(_ & tx' & e & del' & delay & Hd & _ & Hpp)|[_ ->]]]%doHandle_cases.
  - specialize (Hh del env db). by rewrite Hd in Hh.
  - specialize (Hh del env db). specialize (Hp del' delay tx'). rewrite Hd in Hh. rewrite Hpp in Hp.
    by etransitivity.
  - reflexivity.
Qed.

End frames.

Lemma outcome_fst r : (outcome r).1 = r.1.
Proof. by destruct r as [db [e|[]]]. Qed.

Lemma postpone_command_frame `{Messaging} hk now del delay db :
  command_frame hk db (PostponeCommandDelivery now del delay db).1.
Proof.
  destruct (PostponeCommandDelivery_same now del delay db) as (cs & -> & _).
  split_and!; try done; [|exact (Aggregate.streams_mono_refl db)]. exists []. cbn. by rewrite app_nil_r.
Qed.

(** *** Processes *)

Section process.
Context `{Process.ProcessMessageHandler} (key : UUID) (outbound : gset UUID).

Lemma commandqueue_add_frame now mid tid data k :
  sql_within process_frame (commandqueue_add now mid tid data k).
Proof.
  intros db r db'. unfold commandqueue_add. repeat (case_decide || case_match); intros [= <- <-];
    (split; [split_and!|]); try done. cbn. by apply insert_subseteq.
Qed.

Lemma add_commands_frame now es : within process_frame (Process.add_commands now es).
Proof.
  induction es as [|env es IH]; cbn; [apply within_ret; apply _|].
  apply within_bind; [apply _| |done]. apply within_stmt; [apply _|]. apply sql_within_wrap.
  destruct (Marshal env); [apply sql_within_fail|apply commandqueue_add_frame].
Qed.

Lemma update_instance_frame hk iid f : sql_within process_frame (Process.update_instance hk iid f).
Proof.
  intros db r db'. unfold Process.update_instance. destruct (instances db !! (hk, iid)); [|by intros [= <- <-]].
  case_decide; [done|]. by intros [= <- <-].
Qed.

Lemma insert_deadlines_frame es : within process_frame (Process.insert_deadlines es).
Proof.
  induction es as [|env es IH]; cbn; [apply within_ret; apply _|].
  destruct (Marshal env); [apply within_raise; apply _|].
  apply within_bind; [apply _| |done]. apply within_stmt; [apply _|]. apply sql_within_wrap.
  intros db r db'. unfold Process.insert_deadline. destruct (deadlines db !! _); [done|].
  case_decide; [done|]. by intros [= <- <-].
Qed.

Lemma loadInstance_frame iid rt : within process_frame (Process.loadInstance key iid rt).
Proof.
  apply within_bind; [apply _| |].
  - apply within_stmt; [apply _|]. apply sql_within_wrap. intros db r db'. unfold Process.upsert_instance.
    destruct (instances db !! (key, iid)); [by intros [= <- <-]|]. case_decide; [done|]. by intros [= <- <-].
  - intros row. repeat case_match; first [apply within_ret; apply _|apply within_raise; apply _].
Qed.

Lemma persistDeadlines_frame packer : within process_frame (Process.persistDeadlines packer).
Proof.
  unfold Process.persistDeadlines. destruct (Seal packer); [apply insert_deadlines_frame|apply within_ret; apply _].
Qed.

(** The effects of a handler, of which [k] is the last part. *)
Lemma effects_frame w scope iid (k : tx unit) :
  within process_frame k ->
  within process_frame (
    _ ← Process.addCommandsToQueue (Now w) (Process.commandPacker scope);
    if Process.ended scope then Process.endInstance key iid
    else
      _ ← (if Process.mutated scope then Process.saveInstance key iid (Process.root scope) else mret tt);
      k).
Proof.
  intros Hk. apply within_bind; [apply _| |].
  { unfold Process.addCommandsToQueue. destruct (Seal _); [apply add_commands_frame|apply within_ret; apply _]. }
  intros _. destruct (Process.ended scope).
  - apply within_bind; [apply _| |].
    + apply within_stmt; [apply _|]. apply sql_within_wrap, sql_within_ExecOne, update_instance_frame. apply _.
    + intros _. apply within_stmt; [apply _|]. by apply sql_within_modify.
  - apply within_bind; [apply _| |done].
    destruct (Process.mutated scope); [|apply within_ret; apply _]. unfold Process.saveInstance.
    destruct (Recover _); [apply within_raise; apply _|].
    apply within_stmt; [apply _|]. apply sql_within_wrap, sql_within_ExecOne, update_instance_frame. apply _.
Qed.

Lemma dispatch_frame w env : within process_frame (Process.dispatch key outbound w env).
Proof.
  unfold Process.dispatch. destruct (UnpackMessage env); [apply within_raise; apply _|].
  destruct (Process.routeEventToInstance w _) as [e|[iid|]];
    [apply within_raise; apply _| |apply within_ret; apply _].
  destruct (Process.newRoot w) as [e|rt]; [apply within_raise; apply _|].
  apply within_bind; [apply _|apply loadInstance_frame|]. intros [rt'|]; [|apply within_ret; apply _].
  unfold Process.dispatch_to. destruct (Recover _) as [e|scope]; [apply within_raise; apply _|].
  apply effects_frame, persistDeadlines_frame.
Qed.

(** The transaction of an event is within what its handling is within, if that allows for
    the checkpoint to change. *)
Lemma consume_within (R : relation DB) `{!PreOrder R} env w sid cp next ev db r db' :
  (forall db n, R db (set_checkpoints db (<[(key, sid) := n]> (checkpoints db)))) ->
  within R (match ev with Some e => Process.dispatch key outbound w e | None => mret tt end) ->
  Process.consume key outbound env w sid cp next ev db = (r, db') -> R db db'.
Proof.
  intros Hcp Hd. assert (Htx : within R (Process.consume_tx key outbound w sid cp next ev)).
  { apply within_bind; [apply _| |].
    - apply within_stmt; [apply _|]. intros d a d'. unfold Process.lock_checkpoint.
      destruct (checkpoints d !! _); intros [= <- <-]; [reflexivity|apply Hcp].
    - intros actual. case_decide; [apply within_ret; apply _|]. apply within_bind; [apply _|done|].
      intros _. apply within_bind; [apply _| |intros _; apply within_ret; apply _].
      apply within_stmt; [apply _|]. apply sql_within_ExecOne; [apply _|].
      intros d a d'. unfold Process.update_checkpoint. case_decide; [|done].
      destruct (checkpoints d !! _); intros [= <- <-]; [apply Hcp|reflexivity]. }
  unfold Process.consume.
  destruct (Transact env (exec (Process.consume_tx key outbound w sid cp next ev)) db) as [tr db1] eqn:Et.
  assert (Hf : R db db1).
  { unfold Transact in Et. destruct (begin_err env); [injection Et as _ <-; reflexivity|].
    destruct (exec _ db) as [e|[a db2]] eqn:Ex; [injection Et as _ <-; reflexivity|].
    apply exec_inr in Ex. specialize (Htx db). rewrite Ex in Htx.
    destruct (commit_err env); injection Et as _ <-; [reflexivity|done]. }
  destruct tr as [e|actual]; [by intros [= _ <-]|]. case_decide; by intros [= _ <-].
Qed.

Lemma consume_frame env w sid cp next ev db r db' :
  Process.consume key outbound env w sid cp next ev db = (r, db') ->
  log_frame db db' /\
  forall k s, (k, s) <> (key, sid) -> checkpoints db' !! (k, s) = checkpoints db !! (k, s).
Proof.
  intros Hc. split.
  - eapply (consume_within log_frame); [|  |exact Hc]; [done|].
    destruct ev; [|apply within_ret; apply _]. intros d. by apply dispatch_frame.
  - intros k s Hne.
    set (R := fun d d' : DB => checkpoints d' !! (k, s) = checkpoints d !! (k, s)).
    assert (Hpre : PreOrder R).
    { unfold R. split; [by intros d|]. intros d1 d2 d3 H1 H2. by rewrite H2, H1. }
    apply (consume_within R) in Hc; [done| |]; unfold R.
    + intros d n. cbn. by rewrite lookup_insert_ne by congruence.
    + destruct ev; [|apply within_ret; apply _]. intros d.
      destruct (dispatch_frame w e d) as [_ Hd]. by rewrite Hd.
Qed.

Lemma HandleDeadlineDelivery_frame w del env :
  within process_frame (Process.HandleDeadlineDelivery key outbound w del env).
Proof.
  unfold Process.HandleDeadlineDelivery. destruct (UnpackMessage env); [apply within_raise; apply _|].
  destruct (Process.newRoot w) as [e|rt]; [apply within_raise; apply _|].
  apply within_bind; [apply _|apply loadInstance_frame|]. intros [rt'|]; [|apply within_raise; apply _].
  unfold Process.deliver_to. destruct (Recover _) as [e|scope]; [apply within_raise; apply _|].
  apply effects_frame. apply within_bind; [apply _|apply persistDeadlines_frame|]. intros _.
  unfold Process.deleteDeadline. apply within_stmt; [apply _|].
  apply sql_within_wrap, sql_within_ExecOne; [apply _|]. intros d a d'.
  destruct (deadlines d !! _); by intros [= <- <-].
Qed.
End process.

Lemma PostponeDeadline_frame now del delay : within process_frame (Process.PostponeDeadline now del delay).
Proof.
  unfold Process.PostponeDeadline. apply within_stmt; [apply _|]. apply sql_within_wrap, sql_within_ExecOne; [apply _|].
  intros d a d'. destruct (deadlines d !! _); by intros [= <- <-].
Qed.

Lemma deadline_delivery_frame `{P : Process.ProcessMessageHandler} key outbound w types p r cerr del env
    db db' err :
  doHandle (H := Process.DeadlinePump key outbound w types) p r cerr del env db db = Ret (db', err) ->
  process_frame db db'.
Proof.
  intros Hd. eapply (doHandle_within process_frame); [| |exact Hd]; cbn.
  - intros. rewrite outcome_fst. apply HandleDeadlineDelivery_frame.
  - intros. rewrite outcome_fst. apply PostponeDeadline_frame.
Qed.

(** *** Aggregates and integrations *)

Lemma append_frame `{Messaging} sid cid hk iid evs :
  Forall arg_ok evs -> sql_within (command_frame hk) (append sid cid hk iid evs).
Proof.
  intros Hok db r db' [(_ & _ & ->)|(base & Hb & _ & _ & ->)]%append_inr; [reflexivity|].
  split_and!; try done.
  - eexists. split; [done|]. unfold event_rows. apply Forall_forall.
    intros r' (i & e & -> & He)%elem_of_lookup_imap. split; [done|].
    rewrite Forall_forall in Hok. apply (Hok e). by eapply list_elem_of_lookup_2.
  - eapply Aggregate.streams_mono_insert; [done|]. intros n Hn. pose proof (len_nonneg evs).
    rewrite Hb in Hn. injection Hn as <-. lia.
Qed.

Lemma acquire_for_write_frame `{Messaging} hk chosen : sql_within (command_frame hk) (acquire_for_write chosen).
Proof.
  intros db r db'. unfold acquire_for_write. destruct (streams db !! chosen) eqn:Hs; intros [= <- <-];
    [reflexivity|]. split_and!; try done; [by exists []; rewrite app_nil_r|].
  eapply Aggregate.streams_mono_insert; [done|]. by rewrite Hs.
Qed.

Lemma commandqueue_remove_frame `{Messaging} hk mid : sql_within (command_frame hk) (commandqueue_remove mid).
Proof.
  intros db [] db' [_ ->]%commandqueue_remove_inr. split_and!; try done; [by exists []; rewrite app_nil_r|].
  exact (Aggregate.streams_mono_refl db).
Qed.

(** A change of the rows of one aggregate handler. *)
Lemma aggregates_frame `{Messaging} key iid db f :
  (forall k, k <> (key, iid) -> f !! k = aggregates db !! k) ->
  command_frame (Some key) db (set_aggregates db f).
Proof.
  intros Hf. split_and!; try done; [| |exact (Aggregate.streams_mono_refl db)].
  - intros k i Hk. apply Hf. congruence.
  - exists []. cbn. by rewrite app_nil_r.
Qed.

Section aggregate.
Context `{Aggregate.AggregateMessageHandler} (key : UUID) (outbound : gset UUID).

Lemma update_aggregate_frame iid f : sql_within (command_frame (Some key)) (Aggregate.update_instance key iid f).
Proof.
  intros db r db'. unfold Aggregate.update_instance.
  destruct (aggregates db !! (key, iid)); [|intros [= <- <-]; reflexivity].
  case_decide; [|done]. intros [= <- <-]. apply (aggregates_frame key iid). intros k Hk.
  by rewrite lookup_insert_ne.
Qed.

Lemma loadAggregate_frame l iid :
  within (command_frame (Some key)) (Aggregate.loadInstance key l id iid).
Proof.
  apply within_bind; [apply _| |].
  - apply within_bind; [apply _| |].
    + intros db. unfold Aggregate.tryLockInstance. destruct (aggregates db !! (key, iid)); [|reflexivity].
      by destruct l.
    + intros [x|]; [apply within_ret; apply _|]. apply within_stmt; [apply _|]. apply sql_within_wrap.
      intros db a db'. destruct (aggregates db !! (key, iid)); [intros [= <- <-]; reflexivity|].
      case_decide; [done|]. intros [= <- <-]. apply (aggregates_frame key iid). intros k Hk.
      by rewrite lookup_insert_ne.
  - intros [[sid next] snap]. unfold Aggregate.restoreInstance.
    apply within_bind; [apply _|intros db; reflexivity|]. intros r.
    destruct sid as [sid|]; [|apply within_ret; apply _]. apply within_bind; [apply _| |].
    + case_decide; [|apply within_ret; apply _].
      destruct (Aggregate.applySnapshot r snap); [apply within_ret; apply _|].
      apply within_bind; [apply _|intros db; reflexivity|]. intros r'. apply within_ret; apply _.
    + intros [r' next']. apply within_bind; [apply _|intros db; reflexivity|]. intros r''. apply within_ret; apply _.
Qed.

Lemma complete_frame chosen mid iid sid cid snap evs :
  Forall arg_ok evs ->
  sql_within (command_frame (Some key))
    (Aggregate.complete_with_events key chosen mid iid sid cid snap evs).
Proof.
  intros Hok. apply sql_within_bind; [apply _| |].
  { destruct sid; [apply sql_within_ret; apply _|].
    apply sql_within_bind; [apply _|apply acquire_for_write_frame|]. intros s.
    apply sql_within_bind; [apply _|apply update_aggregate_frame|]. intros []. apply sql_within_ret; apply _. }
  intros s. apply sql_within_bind; [apply _|by apply append_frame|]. intros n.
  apply sql_within_bind; [apply _| |].
  { destruct snap; [apply update_aggregate_frame|apply sql_within_ret; apply _]. }
  intros _. apply commandqueue_remove_frame.
Qed.

Lemma complete_without_frame mid iid :
  sql_within (command_frame (Some key)) (Aggregate.complete_without_events key mid iid).
Proof.
  apply sql_within_bind; [apply _| |intros _; apply commandqueue_remove_frame].
  apply sql_within_modify. intros db.
  destruct (aggregates db !! (key, iid)) as [[[s|] sn so]|]; try reflexivity.
  apply (aggregates_frame key iid). intros k Hk. by rewrite lookup_delete_ne.
Qed.

Lemma aggregate_frame w l chosen del env :
  within (command_frame (Some key))
    (Aggregate.HandleDelivery key outbound (Aggregate.mkInputs w l id chosen None) del env).
Proof.
  unfold Aggregate.HandleDelivery. destruct (UnpackMessage2 env) as [e|[c1 c2]]; [apply within_raise; apply _|].
  apply within_bind; [apply _|intros db; reflexivity|]. intros iid.
  apply within_bind; [apply _|apply loadAggregate_frame|]. intros [r sid].
  destruct (Recover _) as [e|s]; [apply within_raise; apply _|].
  destruct (Seal _) as [es|]; (apply within_stmt; [apply _|]); apply sql_within_wrap.
  - destruct (event_args es) eqn:He; [apply sql_within_fail|]. apply complete_frame. by eapply event_args_ok.
  - apply complete_without_frame.
Qed.
End aggregate.

Lemma integration_frame `{Integration.IntegrationMessageHandler} key pref outbound i del env :
  within (command_frame None) (Integration.HandleDelivery key pref outbound i del env).
Proof.
  unfold Integration.HandleDelivery. destruct (UnpackMessage env); [apply within_raise; apply _|].
  destruct (Integration.call_handler _ _ _ _ _ _) as [[l packer] [[e|]|v]];
    [apply within_raise; apply _| |apply within_raise; apply _].
  destruct (Seal packer) as [es|]; (apply within_stmt; [apply _|]); apply sql_within_wrap;
    [|apply commandqueue_remove_frame].
  destruct (event_args es) eqn:He; [apply sql_within_fail|].
  apply sql_within_bind; [apply _|apply commandqueue_remove_frame|]. intros _.
  apply sql_within_bind; [apply _| |intros _; apply sql_within_ret; apply _].
  apply sql_within_bind; [apply _|apply acquire_for_write_frame|]. intros s.
  apply append_frame. by eapply event_args_ok.
Qed.

Lemma aggregate_delivery_frame `{P : Aggregate.AggregateMessageHandler} key outbound w l chosen fault types p r
    cerr del env db db' err :
  doHandle (H := Aggregate.CommandPump key outbound (Aggregate.mkInputs w l id chosen fault) types) p r cerr
    del env db db = Ret (db', err) ->
  command_frame (Some key) db db'.
Proof.
  intros Hd. unfold Aggregate.CommandPump in Hd. destruct fault as [e|]; cbn [Aggregate.in_fault faulty] in Hd.
  { apply (doHandle_faulty (Aggregate.CommandPump key outbound
      (Aggregate.mkInputs w l id chosen None) types)) in Hd as [_ ->]. reflexivity. }
  eapply (doHandle_within (command_frame (Some key))); [| |exact Hd]; cbn.
  - intros. rewrite outcome_fst. apply aggregate_frame.
  - intros. apply postpone_command_frame.
Qed.

Lemma integration_delivery_frame `{I : Integration.IntegrationMessageHandler} key pref outbound i types p r
    cerr del env db db' err :
  doHandle (H := Integration.CommandPump key pref outbound i types) p r cerr del env db db = Ret (db', err) ->
  command_frame None db db'.
Proof.
  intros Hd. unfold Integration.CommandPump in Hd. destruct (Integration.in_fault i) as [e|]; cbn [faulty] in Hd.
  { eapply doHandle_faulty in Hd as [_ ->]. reflexivity. }
  eapply (doHandle_within (command_frame None)); [| |exact Hd]; cbn.
  - intros. rewrite outcome_fst. apply integration_frame.
  - intros. destruct (Integration.aborted pref i); [reflexivity|]. apply postpone_command_frame.
Qed.

(** ** The transactions of an engine *)

Section engine.
Context `{M : Messaging}.
Context (A : UUID -> Aggregate.AggregateMessageHandler) (A_outbound : UUID -> gset UUID).

(** One transaction; [C] says which handlers consume the events of which streams. *)
Inductive transaction (C : UUID -> UUID -> Prop) : DB -> DB -> Prop :=
| sys_execute {AppState} e c command options (st st' : AppState) err db db' :
    Execute.ExecuteCommand e c command options st db = Ret (st', err, db') -> transaction C db db'
| sys_event {P : Process.ProcessMessageHandler} key outbound env w sid cp next ev db r db' :
    C key sid -> Process.consume key outbound env w sid cp next ev db = (r, db') -> transaction C db db'
| sys_deadline {P : Process.ProcessMessageHandler} key outbound w types p r cerr del env db db' err :
    doHandle (H := Process.DeadlinePump key outbound w types) p r cerr del env db db = Ret (db', err) ->
    transaction C db db'
| sys_postpone_deadline now del delay db :
    transaction C db (Process.PostponeDeadline now del delay db).1
| sys_aggregate key w l chosen fault types p r cerr del env db db' err :
    doHandle (H := Aggregate.CommandPump (H0 := A key) key (A_outbound key)
      (Aggregate.mkInputs w l id chosen fault) types) p r cerr del env db db = Ret (db', err) ->
    transaction C db db'
| sys_integration {I : Integration.IntegrationMessageHandler} key pref outbound i types p r cerr del env
    db db' err :
    doHandle (H := Integration.CommandPump key pref outbound i types) p r cerr del env db db = Ret (db', err) ->
    transaction C db db'
| sys_postpone_command now del delay db :
    transaction C db (PostponeCommandDelivery now del delay db).1
| sys_compact {J : Projection.ProjectionMessageHandler} c a db p db' p' err :
    Projection.tryCompact c a db p = (db', p', err) -> transaction C db db'
| sys_initialize e now key db : transaction C db (Projection.InitializeHandler e now key db).1
| sys_bind e id db : transaction C db (Application.Bind e id db).1.

(** Any transaction at all. *)
Definition engine_step : relation DB := transaction (fun _ _ => True).

Lemma transaction_engine_step C db db' : transaction C db db' -> engine_step db db'.
Proof.
  intros Ht. destruct Ht; [by eapply sys_execute|by eapply sys_event|by eapply sys_deadline|
    apply sys_postpone_deadline|by eapply sys_aggregate|by eapply sys_integration|
    apply sys_postpone_command|by eapply sys_compact|apply sys_initialize|apply sys_bind].
Qed.

(** ** The invariant *)

Definition engine_wf (db : DB) : Prop :=
  events_wf db /\ Process.process_wf db /\ (forall key, Aggregate.aggregate_wf (H0 := A key) key db) /\
  Forall row_ok (events db).

(** What may only grow. *)
Definition grows (db db' : DB) : Prop :=
  (exists new, events db' = events db ++ new) /\ Aggregate.streams_mono db db' /\
  idempotency_keys db ⊆ idempotency_keys db'.

#[global] Instance grows_preorder : PreOrder grows.
Proof.
  split.
  - intros db. split_and!; [by exists []; rewrite app_nil_r|apply Aggregate.streams_mono_refl|done].
  - intros db1 db2 db3 ((n1 & H1) & H2 & H3) ((n2 & I1) & I2 & I3). split_and!.
    + exists (n1 ++ n2). by rewrite I1, H1, app_assoc.
    + intros sid n Hn. destruct (H2 sid n Hn) as (n' & Hn' & ?).
      destruct (I2 sid n' Hn') as (n'' & ? & ?). exists n''. split; [done|lia].
    + by etransitivity.
Qed.

Lemma process_frame_ok db db' :
  log_frame db db' -> Process.process_wf db' -> engine_wf db -> engine_wf db' /\ grows db db'.
Proof.
  intros (He & Hs & Ha & Hk) Hp (Hev & _ & Hag & Hrows).
  assert (Hmono : Aggregate.streams_mono db db').
  { intros sid n Hn. exists n. rewrite Hs. split; [done|lia]. }
  assert (Hev' : events_wf db').
  { unfold events_wf, stream_events. rewrite He, Hs. exact Hev. }
  split; [split_and!; try done|].
  - intros key. eapply Aggregate.elsewhere_wf; [|apply Hag]. split_and!; try done.
    + intros iid. by rewrite Ha.
    + intros iid. unfold Aggregate.recorded. by rewrite He.
  - by rewrite He.
  - split_and!; [|done..]. exists []. by rewrite app_nil_r.
Qed.

Lemma command_frame_ok hk db db' :
  command_frame hk db db' -> events_wf db' ->
  (forall key, hk = Some key -> Aggregate.aggregate_wf (H0 := A key) key db') ->
  engine_wf db -> engine_wf db' /\ grows db db'.
Proof.
  intros ((Hi & Hd & _ & Hk) & Ha & (new & He & Hnew) & Hs) Hev Hown (_ & Hp & Hag & Hrows).
  split; [split_and!; try done|].
  - by apply (Process.process_wf_same db).
  - intros key. destruct (decide (hk = Some key)) as [Heq|Hne]; [by apply Hown|].
    eapply Aggregate.elsewhere_wf; [|apply Hag]. split_and!; try done.
    + intros iid. by apply Ha.
    + intros iid. unfold Aggregate.recorded. rewrite He, filter_app, (filter_none _ new), app_nil_r; [done|].
      intros e Hin [Hkey _]. rewrite Forall_forall in Hnew. rewrite (proj1 (Hnew e Hin)) in Hkey. done.
  - rewrite He. apply Forall_app. split; [done|]. eapply Forall_impl; [exact Hnew|]. by intros r [_ ?].
  - split_and!; [by exists new|done|by rewrite Hk].
Qed.

(** A transaction that touches nothing of handlers. *)
Lemma elsewhere_ok db db' :
  process_frame db db' -> Process.same_process db db' -> engine_wf db -> engine_wf db' /\ grows db db'.
Proof.
  intros [Hf _] Hs Hwf. apply process_frame_ok; [done| |done]. eapply Process.process_wf_same; [done|apply Hwf].
Qed.

Lemma ExecuteCommand_frame {AppState} e c command options (st st' : AppState) err db db' :
  Execute.ExecuteCommand e c command options st db = Ret (st', err, db') ->
  process_frame db db' /\ Process.same_process db db'.
Proof.
  assert (Hq : forall now env r db', Transact (Execute.call_tx c) (Execute.enqueue now env) db = (r, db') ->
    process_frame db db' /\ Process.same_process db db').
  { intros now env r db1. unfold Transact. destruct (begin_err _); [by intros [= _ <-]|].
    destruct (Execute.enqueue now env db) as [x|[x db2]] eqn:Hx; [by intros [= _ <-]|].
    destruct (commit_err _); intros [= _ <-]; [done|]. unfold Execute.enqueue, wrap in Hx.
    destruct (Marshal env); [done|]. destruct (commandqueue_add _ _ _ _ _ db) as [y|[y db3]] eqn:Hy; [done|].
    injection Hx as <- <-. split; [by eapply commandqueue_add_frame|].
    by apply Process.commandqueue_add_same in Hy as [? _]. }
  unfold Execute.ExecuteCommand. destruct (Execute.ready c); [by intros [= _ _ <-]|].
  destruct (Execute.resolveExecuteCommandOptions _ _ _ _) as [[[po et] eo]|]; cbn; [|done].
  case_decide; [by intros [= _ _ <-]|]. destruct (Validate _ _ _) as [[x|]|]; cbn; [by intros [= _ _ <-]| |done].
  case_decide; [by intros [= _ _ <-]|].
  destruct (Transact _ _ db) as [[x|[mid ok]] db1] eqn:Ht; apply Hq in Ht; [by intros [= _ _ <-]|].
  destruct eo as [|o eo]; [by intros [= _ _ <-]|].
  destruct (Execute.waitForEvents _ _ _ _ _ _) as [[st1 [x|]]|]; cbn; [destruct (Is x _)| |done];
    by intros [= _ _ <-].
Qed.

Lemma tryCompact_frame {J : Projection.ProjectionMessageHandler} c a db p db' p' err :
  Projection.tryCompact c a db p = (db', p', err) -> exists cs, db' = set_compacted db cs.
Proof.
  unfold Projection.tryCompact. destruct (Projection.Compact _ p) as [p1 r].
  destruct (Transact _ _ db) as [res db1] eqn:Ht. intros [= <- _ _].
  assert (Hsame : exists cs, db = set_compacted db cs) by (exists (compacted db); by destruct db).
  unfold Transact in Ht. destruct (begin_err _); [by injection Ht as _ <-|].
  unfold Projection.compact_tx in Ht.
  destruct (Projection.acquire_compaction _ _ _ _ _) as [e|[]]; [by injection Ht as _ <-| |].
  - destruct (Recover _); [by injection Ht as _ <-|]. unfold Projection.update_compacted in Ht.
    destruct (Projection.ta_update_err a); [by injection Ht as _ <-|].
    destruct (commit_err _); injection Ht as _ <-; [done|]. by eexists.
  - destruct (commit_err _); by injection Ht as _ <-.
Qed.

Lemma engine_step_ok db db' : engine_wf db -> engine_step db db' -> engine_wf db' /\ grows db db'.
Proof.
  intros Hwf Hs. pose proof Hwf as (Hev & Hp & Hag & _).
  destruct Hs as [AppState e c command options st st' err db db' He|P key outbound env w sid cp next ev db r db' _ Hc|
    P key outbound w types p r cerr del env db db' err Hd|now del delay db|
    key w l chosen fault types p r cerr del env db db' err Hd|
    I key pref outbound i types p r cerr del env db db' err Hd|now del delay db|
    J c a db p db' p' err Hc|e now key db|e id db].
  - apply ExecuteCommand_frame in He as [? ?]. by apply elsewhere_ok.
  - apply process_frame_ok; [by eapply consume_frame|by eapply Process.consume_wf|done].
  - apply process_frame_ok; [|by eapply Process.doHandle_deadline|done].
    by eapply deadline_delivery_frame.
  - apply process_frame_ok; [apply PostponeDeadline_frame|by apply Process.PostponeDeadline_wf|done].
  - assert (Hown : Aggregate.aggregate_wf (H0 := A key) key db').
    { eapply Aggregate.aggregate_step_wf; [apply Hag|]. by eapply Aggregate.step_command. }
    apply (command_frame_ok (Some key)); [|apply Hown| |done].
    + by eapply aggregate_delivery_frame.
    + intros k [= <-]. exact Hown.
  - apply (command_frame_ok None); [| |done|done].
    + by eapply integration_delivery_frame.
    + by apply Integration.integration_doHandle in Hd as [? _].
  - destruct (PostponeCommandDelivery_same now del delay db) as (cs & -> & _). by apply elsewhere_ok.
  - apply tryCompact_frame in Hc as [cs ->]. by apply elsewhere_ok.
  - unfold Projection.InitializeHandler. destruct e; [by apply elsewhere_ok|].
    destruct (compacted db !! key); by apply elsewhere_ok.
  - rewrite (Application.Bind_same e id db). by apply elsewhere_ok.
Qed.

(** Only the consumers of a handler move its checkpoints. *)
Lemma transaction_checkpoint C key sid db db' :
  ~ C key sid -> transaction C db db' -> checkpoints db' !! (key, sid) = checkpoints db !! (key, sid).
Proof.
  intros HC Hs.
  destruct Hs as [AppState e c command options st st' err db db' He|P k outbound env w s cp next ev db r db' Hks Hc|
    P k outbound w types p r cerr del env db db' err Hd|now del delay db|
    k w l chosen fault types p r cerr del env db db' err Hd|
    I k pref outbound i types p r cerr del env db db' err Hd|now del delay db|
    J c a db p db' p' err Hc|e now k db|e id db].
  - apply ExecuteCommand_frame in He as [[_ He] _]. by rewrite He.
  - apply consume_frame in Hc as [_ Hc]. apply Hc. intros [= -> ->]. done.
  - apply deadline_delivery_frame in Hd as [_ Hd]. by rewrite Hd.
  - destruct (PostponeDeadline_frame now del delay db) as [_ Hd]. by rewrite Hd.
  - apply aggregate_delivery_frame in Hd as ((_ & _ & Hd & _) & _). by rewrite Hd.
  - apply integration_delivery_frame in Hd as ((_ & _ & Hd & _) & _). by rewrite Hd.
  - by destruct (PostponeCommandDelivery_same now del delay db) as (cs & -> & _).
  - by apply tryCompact_frame in Hc as [cs ->].
  - unfold Projection.InitializeHandler. destruct e; [done|]. by destruct (compacted db !! k).
  - by rewrite (Application.Bind_same e id db).
Qed.

Lemma engine_steps_ok db db' : engine_wf db -> rtc engine_step db db' -> engine_wf db' /\ grows db db'.
Proof.
  intros Hwf Hs. induction Hs as [db|db db1 db' Hs _ IH]; [split; [done|reflexivity]|].
  destruct (engine_step_ok _ _ Hwf Hs) as [Hwf1 Hg]. destruct (IH Hwf1) as [? ?]. split; [done|].
  by etransitivity.
Qed.

Lemma empty_engine_wf : engine_wf empty_db.
Proof.
  split_and!.
  - apply (Aggregate.empty_aggregate_wf (H0 := A 0) 0).
  - split; intros k x; cbn; by rewrite lookup_empty.
  - intros key. apply Aggregate.empty_aggregate_wf.
  - constructor.
Qed.
End engine.

(** ** Properties *)

(** C7: the transactions of all handlers, of all nodes, and of all calls of the
    application together keep the database well-formed: the offsets of every stream are
    without gaps, every aggregate's events are on its stream and its snapshot is of them,
    and no ended process has state or deadlines.  The event log is append-only, no stream
    ever gets shorter, and an idempotency key, once used, stays with its command. *)
Theorem engine_state_is_well_formed `{M : Messaging} A A_outbound db db' :
  rtc (engine_step A A_outbound) empty_db db -> rtc (engine_step A A_outbound) db db' ->
  events_wf db' /\ Process.process_wf db' /\
  (forall key iid, Aggregate.instance_wf (H0 := A key) key iid db') /\
  (exists new, events db' = events db ++ new) /\
  (forall sid n, streams db !! sid = Some n -> exists n', streams db' !! sid = Some n' /\ n <= n') /\
  (forall k mid, idempotency_keys db !! k = Some mid -> idempotency_keys db' !! k = Some mid).
Proof.
  intros Hr Hs. destruct (engine_steps_ok A A_outbound _ _ (empty_engine_wf A) Hr) as [Hwf _].
  destruct (engine_steps_ok A A_outbound _ _ Hwf Hs) as [(Hev & Hp & Hag & _) (Hnew & Hst & Hk)].
  split_and!; try done.
  - intros key iid. apply (Hag key).
  - intros k mid Hkm. by eapply lookup_weaken.
Qed.

(** A command is executed, and handled by an aggregate that records an event. *)
Definition example_execute (mid : N) options (db : DB) : DB :=
  match Execute.ExecuteCommand (H := Example.messaging) Execute.example_engine (Execute.example_call mid) 8%N
    options tt db with
  | Ret (_, _, db) => db
  | Panic _ => empty_db
  end.

Definition example_pump (n : N) : Driver :=
  Aggregate.CommandPump (H0 := Aggregate.account) 7 {[28%N]}
    (Aggregate.mkInputs ((0, n) : World (Messaging := Example.messaging)) false id 40 None) ∅.

Definition example_record (mid n : N) (db : DB) : DB :=
  match doHandle (H := example_pump n) (mkPump 1 10 1000) 0 None (mkDelivery mid 8 "" 0)
    (Aggregate.command mid 8) db db with
  | Ret (db, _) => db
  | Panic _ => empty_db
  end.

Definition example_executed : DB := example_execute 1 Execute.example_options empty_db.
Definition example_recorded : DB := example_record 1 100 example_executed.

Definition example_transaction (C : UUID -> UUID -> Prop) : relation DB :=
  transaction (M := Example.messaging) (fun _ => Aggregate.account) (fun _ => {[28%N]}) C.

Definition example_step : relation DB :=
  engine_step (M := Example.messaging) (fun _ => Aggregate.account) (fun _ => {[28%N]}).

Lemma example_execute_step C mid options db :
  (exists st err, Execute.ExecuteCommand (H := Example.messaging) Execute.example_engine
    (Execute.example_call mid) 8%N options tt db = Ret (st, err, example_execute mid options db)) ->
  example_transaction C db (example_execute mid options db).
Proof.
  intros (st & err & He).
  by apply (sys_execute _ _ C Execute.example_engine (Execute.example_call mid) 8%N options tt st err).
Qed.

Lemma example_record_step C mid n db :
  (exists err, doHandle (H := example_pump n) (mkPump 1 10 1000) 0 None (mkDelivery mid 8 "" 0)
    (Aggregate.command mid 8) db db = Ret (example_record mid n db, err)) ->
  example_transaction C db (example_record mid n db).
Proof.
  intros (err & He). by apply (sys_aggregate _ _ C 7 ((0, n) : World (Messaging := Example.messaging)) false 40
    None ∅ (mkPump 1 10 1000) 0 None (mkDelivery mid 8 "" 0) (Aggregate.command mid 8) _ _ err).
Qed.

Lemma example_executes C : example_transaction C empty_db example_executed.
Proof. apply example_execute_step. eexists _, _. vm_compute. reflexivity. Qed.

Lemma example_records C : example_transaction C example_executed example_recorded.
Proof. apply example_record_step. eexists. vm_compute. reflexivity. Qed.

Lemma engine_state_is_well_formed_witness :
  length (events example_recorded) = 1%nat /\ events_wf example_recorded /\
  idempotency_keys example_recorded !! "k" = Some 1%N.
Proof.
  destruct (engine_state_is_well_formed (M := Example.messaging) _ _ _ _ (rtc_once _ _ (example_executes _))
    (rtc_once _ _ (example_records _))) as (Hev & _ & _ & _ & _ & Hk).
  split; [vm_compute; reflexivity|]. split; [exact Hev|]. apply Hk. vm_compute. reflexivity.
Defined.
