(* ===== verification/DeadlinePumps.v ===== *)
(** * The deadline pumps of a cluster

    The dispatchers and workers ([internal/messagepump/pump.go]) of the deadline pumps
    ([internal/process/deadlinepump.go]) of every process handler on every node, interleaved
    with each other and with the consumers of events ([internal/process/sink.go]).

    The statement that acquires a deadline locks the row of the deadline and that of its
    instance until the transaction ends; other dispatchers pass over both (SKIP LOCKED),
    and an event for the instance waits, as [loadInstance] locks its row first.  It may also
    have locked rows of deadlines that it then passed over, as their instance was locked,
    and PostgreSQL does not promise to unlock these before the transaction ends: a dispatcher
    may find any deadlines locked besides those that others have acquired ([q_locked]), and
    a transaction that waits for a row takes its step later. *)

From S2P Require Import Prelude Errors Stream Database MessagePump Handler Process.
From S2P Require Pump System.
Import Pump (deliveryTask, mkTask, Delivery_, Envelope_).

Abbreviation place := (nat * option nat)%type (only parsing).

(** The instance of a deadline. *)
Definition instance_of (d : DeadlineRow) : UUID * string := (dl_handler_key d, dl_instance_id d).

(** A task of a deadline pump, with the instance whose row its transaction holds. *)
Record held := mkHeld { h_instance : UUID * string; h_task : deliveryTask }.

Definition h_id (h : held) : UUID := MessageID (Delivery_ (h_task h)).

(** The rows that the open transactions hold. *)
Definition held_ids (o : gmap place held) : gset UUID :=
  list_to_set ((fun x => h_id x.2) <$> map_to_list o).
Definition held_instances (o : gmap place held) : gset (UUID * string) :=
  list_to_set ((fun x => h_instance x.2) <$> map_to_list o).

(** The deadlines that are passed over. *)
Definition locked (o : gmap place held) (db : DB) : gset UUID :=
  dom (filter (fun '(id, d) => id ∈ held_ids o \/ instance_of d ∈ held_instances o) (deadlines db)).

(** The pump of a handler; the [q_locked] of an acquisition are deadlines that are locked
    otherwise: their instances are locked by the transactions of consumers, or they were
    locked and then passed over. *)
Definition driver `{ProcessMessageHandler} (key : UUID) (outbound : gset UUID) (w : World)
    (o : gmap place held) (types : gset UUID) (q : acquisition) : Driver := {|
  AcquireDelivery db := (db, AcquireDeadline key (q_now q) (locked o db ∪ q_locked q) types db);
  PostponeDelivery del delay db := outcome (PostponeDeadline (q_now q) del delay db);
  HandleDelivery del env db := outcome (HandleDeadlineDelivery key outbound w del env db);
|}.

(** [runDispatcher], for one acquisition; [None] if it is still acquiring. *)
Definition runDispatcher `{ProcessMessageHandler} (key : UUID) (outbound : gset UUID) (p : MessagePump)
    (w : World) (o : gmap place held) (types : gset UUID) (q : acquisition) (db : DB)
    : go (DB * option (error + option held)) :=
  '(db, r) ← doAcquireTask (driver key outbound w o types) Unmarshal p [q] db;
  match r with
  | None => Ret (db, None)
  | Some (inl e) => Ret (db, Some (inl e))
  | Some (inr None) => Ret (db, Some (inr None))
  | Some (inr (Some ((del, env), _))) =>
      match deadlines db !! MessageID del with
      | Some d => Ret (db, Some (inr (Some (mkHeld (instance_of d) (mkTask del env)))))
      | None => Panic "unreachable"
      end
  end.

(** [runWorker], for one task. *)
Definition runWorker `{ProcessMessageHandler} (key : UUID) (outbound : gset UUID) (p : MessagePump)
    (w : World) (types : gset UUID) (r : Z) (cerr : option error) (t : deliveryTask) (db : DB)
    : go (DB * option error) :=
  x ← doHandle (H := DeadlinePump key outbound w types) p r cerr (Delivery_ t) (Envelope_ t) db db;
  match x with
  | (db, None) => Ret (db, None)
  | (db, Some e) => Ret (db, Some (Wrap "unable to deliver message" e))
  end.

(** [run] ends: the transactions of the pump are rolled back. *)
Definition stop (i : nat) (o : gmap place held) : gmap place held := filter (fun x => x.1.1 <> i) o.

(** The instance whose row an event's transaction locks, if it is routed to one. *)
Definition routed `{ProcessMessageHandler} (w : World) (ev : option Envelope) : option string :=
  match ev with
  | None => None
  | Some env =>
      match UnpackMessage env with
      | inl _ => None
      | inr event => match routeEventToInstance w event with inr (Some iid) => Some iid | _ => None end
      end
  end.

(** A transaction in which a process handled a deadline without an error, with what
    [HandleDelivery] does and the states of the database before it and after it. *)
Record handling := mkHandling {
  d_held : held;
  d_deliver : Delivery -> Envelope -> tx unit;
  d_before : DB;
  d_after : DB;
}.

Definition d_id (x : handling) : UUID := h_id (d_held x).

(** The database, the open tasks, and what became of the deadlines that were ever
    scheduled: [handled] by the process, or [dropped] with their instance. *)
Record pumps := mkPumps {
  ddb : DB;
  open : gmap place held;
  scheduled : gset UUID;
  handled : list handling;
  dropped : gmap UUID (UUID * string);
}.

(** A transaction commits [db'], in which a deadline was handled if it is that of [own];
    any other deadline that is gone was dropped. *)
Definition commit (own : option handling) (db' : DB) (o : gmap place held) (s : pumps) : pumps :=
  let gone := filter (fun '(id, _) => id ∉ dom (deadlines db')) (deadlines (ddb s)) in
  mkPumps db' o (scheduled s ∪ dom (deadlines db')) (handled s ++ option_list own)
    ((instance_of <$> match own with Some x => delete (d_id x) gone | None => gone end) ∪ dropped s).

(** The delivery [h], by the handler whose [HandleDelivery] is [deliver]: the deadline was
    handled if it returned nil. *)
Definition delivery (h : held) (deliver : Delivery -> Envelope -> tx unit) (db db' : DB) : option handling :=
  match (deliver (Delivery_ (h_task h)) (Envelope_ (h_task h)) db).2 with
  | inr _ => Some (mkHandling h deliver db db')
  | inl _ => None
  end.

Definition with_open (db : DB) (o : gmap place held) (s : pumps) : pumps :=
  mkPumps db o (scheduled s) (handled s) (dropped s).

(** IDs of messages are unique. *)
Definition fresh (db' : DB) (s : pumps) : Prop :=
  forall id, id ∈ dom (deadlines db') -> id ∈ dom (deadlines (ddb s)) \/ id ∉ scheduled s.

Section pumps.
Context {M : Messaging}.

(** An acquisition at time [now], when the deadlines [extra] are locked otherwise. *)
Definition acquiring (now r : Z) (berr cerr : option error) (extra : gset UUID) : acquisition :=
  mkAcquisition berr cerr r now extra id.

Inductive deadline_step (s : pumps) : pumps -> Prop :=
| step_acquired {P : ProcessMessageHandler} i key outbound p w types now r berr cerr extra db' h :
    open s !! (i, None) = None ->
    runDispatcher key outbound p w (open s) types (acquiring now r berr cerr extra) (ddb s)
      = Ret (db', Some (inr (Some h))) ->
    deadline_step s (with_open db' (<[(i, None) := h]> (open s)) s)
| step_nothing_due {P : ProcessMessageHandler} i key outbound p w types now r berr cerr extra db' :
    open s !! (i, None) = None ->
    runDispatcher key outbound p w (open s) types (acquiring now r berr cerr extra) (ddb s)
      = Ret (db', Some (inr None)) ->
    deadline_step s (with_open db' (open s) s)
| step_undecodable {P : ProcessMessageHandler} i key outbound p w types now r berr cerr extra db' :
    open s !! (i, None) = None ->
    runDispatcher key outbound p w (open s) types (acquiring now r berr cerr extra) (ddb s)
      = Ret (db', None) ->
    deadline_step s (with_open db' (open s) s)
| step_acquire_failed {P : ProcessMessageHandler} i key outbound p w types now r berr cerr extra db' e :
    open s !! (i, None) = None ->
    runDispatcher key outbound p w (open s) types (acquiring now r berr cerr extra) (ddb s)
      = Ret (db', Some (inl e)) ->
    deadline_step s (with_open db' (stop i (open s)) s)
| step_hand_off i n h :
    open s !! (i, None) = Some h -> open s !! (i, Some n) = None ->
    deadline_step s (with_open (ddb s) (<[(i, Some n) := h]> (delete (i, None) (open s))) s)
| step_delivered {P : ProcessMessageHandler} i n key outbound p w types r cerr db' h :
    open s !! (i, Some n) = Some h -> (h_instance h).1 = key ->
    runWorker key outbound p w types r cerr (h_task h) (ddb s) = Ret (db', None) -> fresh db' s ->
    deadline_step s (commit (delivery h (HandleDeadlineDelivery key outbound w) (ddb s) db') db'
      (delete (i, Some n) (open s)) s)
| step_deliver_failed {P : ProcessMessageHandler} i n key outbound p w types r cerr db' h e :
    open s !! (i, Some n) = Some h -> (h_instance h).1 = key ->
    runWorker key outbound p w types r cerr (h_task h) (ddb s) = Ret (db', Some e) ->
    deadline_step s (with_open db' (stop i (open s)) s)
| step_canceled i : deadline_step s (with_open (ddb s) (stop i (open s)) s)
| step_event {P : ProcessMessageHandler} key outbound env w sid cp next ev r db' :
    (forall iid, routed w ev = Some iid -> (key, iid) ∉ held_instances (open s)) ->
    consume key outbound env w sid cp next ev (ddb s) = (r, db') -> fresh db' s ->
    deadline_step s (commit None db' (open s) s)
| step_elsewhere db' :
    same_process (ddb s) db' -> deadline_step s (with_open db' (open s) s).

(** ** What a transaction of an instance touches

    A transaction that has locked the instance [I] changes no other instance and no
    deadline of another, apart from [own]; deadlines other than [own] only go when the
    instance ends, and it then stays so. *)

Definition ended_in (I : UUID * string) (db : DB) : Prop :=
  exists row, instances db !! I = Some row /\ inst_ended row = true.

Definition touches (own : option UUID) (I : UUID * string) (db db' : DB) : Prop :=
  (forall J, J <> I -> instances db' !! J = instances db !! J) /\
  (forall id d, own <> Some id -> instance_of d <> I ->
     deadlines db' !! id = Some d <-> deadlines db !! id = Some d) /\
  (forall id, id ∈ dom (deadlines db) -> id ∉ dom (deadlines db') -> own = Some id \/ ended_in I db') /\
  (ended_in I db -> ended_in I db').

#[local] Instance touches_preorder own I : PreOrder (touches own I).
Proof.
  split.
  - intros db. by split_and!.
  - intros db1 db2 db3 (H1 & H2 & H3 & H4) (I1 & I2 & I3 & I4). split_and!.
    + intros J HJ. by rewrite I1, H1.
    + intros id d Hid Hd. by rewrite I2, H2.
    + intros id Hin Hout. destruct (decide (id ∈ dom (deadlines db2))) as [Hin2|Hout2]; [by apply I3|].
      destruct (H3 id Hin Hout2) as [?|?]; [by left|right; by apply I4].
    + auto.
Qed.

Lemma same_process_touches own I db db' : same_process db db' -> touches own I db db'.
Proof. intros [Hi Hd]. unfold touches, ended_in. rewrite Hi, Hd. by split_and!. Qed.

(** A change of the row of [I] that does not revive it. *)
Lemma instance_touches own I row db :
  (ended_in I db -> inst_ended row = true) ->
  touches own I db (set_instances db (<[I := row]> (instances db))).
Proof.
  intros Hrow. split_and!; cbn; [|done|done|].
  - intros J HJ. by rewrite lookup_insert_ne.
  - intros He. exists row. cbn. rewrite lookup_insert_eq. auto.
Qed.

(** A change of the row of [own]. *)
Lemma own_touches id I db ds :
  (forall id', id' <> id -> ds !! id' = deadlines db !! id') -> touches (Some id) I db (set_deadlines db ds).
Proof.
  intros Hds. split_and!; cbn; [done| | |done].
  - intros id' d Hid _. rewrite Hds by congruence. done.
  - intros id' Hin Hout. left. f_equal. destruct (decide (id = id')) as [|Hne]; [done|].
    destruct Hout. apply elem_of_dom. rewrite Hds by done. by apply elem_of_dom.
Qed.

Section effects.
Context {P : ProcessMessageHandler} (key : UUID) (outbound : gset UUID).

Lemma loadInstance_touches own iid rt : within (touches own (key, iid)) (loadInstance key iid rt).
Proof.
  apply within_bind; [apply _| |].
  - apply within_stmt; [apply _|]. apply sql_within_wrap. intros db r db'. unfold upsert_instance.
    destruct (instances db !! (key, iid)) as [row|] eqn:Hi; [intros [= <- <-]; reflexivity|].
    case_decide; [done|]. intros [= <- <-]. apply instance_touches. intros (row & Hrow & _). congruence.
  - intros row. repeat case_match; first [apply within_ret; apply _|apply within_raise; apply _].
Qed.

Lemma addCommandsToQueue_touches own I now p : within (touches own I) (addCommandsToQueue now p).
Proof. intros db. apply same_process_touches. by destruct (addCommandsToQueue_same now p db). Qed.

Lemma saveInstance_touches own iid rt : within (touches own (key, iid)) (saveInstance key iid rt).
Proof.
  unfold saveInstance. destruct (Recover _); [apply within_raise; apply _|].
  apply within_stmt; [apply _|]. apply sql_within_wrap. intros db [] db' (row & Hrow & -> & _)%update_instance_inr.
  apply instance_touches. cbn. intros (row' & Hrow' & He). congruence.
Qed.

Lemma endInstance_touches own iid : within (touches own (key, iid)) (endInstance key iid).
Proof.
  intros db. unfold endInstance, mbind, tx_bind, stmt, wrap, modify.
  destruct (ExecOne _ db) as [e|[[] db1]] eqn:E; [reflexivity|]. cbn [fst].
  apply update_instance_inr in E as (row & Hrow & -> & _).
  assert (He : ended_in (key, iid)
    (set_instances db (<[(key, iid) := mkInstanceRow true None]> (instances db)))).
  { eexists. cbn. by rewrite lookup_insert_eq. }
  etransitivity; [by apply (instance_touches own _ (mkInstanceRow true None))|].
  split_and!; [done| |by right|done].
  intros id d _ Hd. cbn. rewrite map_lookup_filter_Some. split; [tauto|]. intros Hl. split; [done|].
  intros [Hk Hi]. apply Hd. unfold instance_of. congruence.
Qed.

Lemma persistDeadlines_touches own iid s :
  scope_of key iid s -> within (touches own (key, iid)) (persistDeadlines (deadlinePacker s)).
Proof.
  intros [Hsrc Hf]. unfold persistDeadlines. rewrite Seal_packed.
  destruct (packed (deadlinePacker s)) as [|e es] eqn:Hp; [apply within_ret; apply _|].
  rewrite <- Hp in *. clear Hp e es. unfold from_source in Hf. revert Hf.
  induction (packed (deadlinePacker s)) as [|e es IH]; intros Hf; cbn; [apply within_ret; apply _|].
  destruct (Marshal e); [apply within_raise; apply _|]. apply within_bind; [apply _| |].
  - apply within_stmt; [apply _|]. apply sql_within_wrap. intros db [] db'. unfold insert_deadline.
    destruct (deadlines db !! body_message_id (env_body e)) as [x|] eqn:Hid; [done|]. case_decide; [done|].
    intros [= <-]. split_and!; cbn; [done| | |done].
    + intros id d _ Hd. rewrite lookup_insert_Some. split; [|by intros Hl; right; split; [congruence|]].
      intros [[_ <-]|[_ ?]]; [|done]. destruct Hd. unfold instance_of. cbn. rewrite <- Hsrc. apply Hf. left.
    + intros id Hin Hout. destruct Hout. rewrite dom_insert. set_solver.
  - intros _. apply IH. intros e' He'. apply Hf. by right.
Qed.

Lemma deleteDeadline_touches id I : within (touches (Some id) I) (deleteDeadline id).
Proof.
  intros db. pose proof (deleteDeadline_spec id db) as Hs. destruct (deadlines db !! id); last first.
  { destruct Hs as [e ->]. reflexivity. }
  rewrite Hs. apply own_touches. intros id' Hne. by rewrite lookup_delete_ne.
Qed.

Lemma PostponeDeadline_touches now del delay I :
  within (touches (Some (MessageID del)) I) (PostponeDeadline now del delay).
Proof.
  apply within_stmt; [apply _|]. apply sql_within_wrap, sql_within_ExecOne; [apply _|]. intros db n db'.
  destruct (deadlines db !! MessageID del); intros [= <- <-]; [|reflexivity].
  apply own_touches. intros id' Hne. by rewrite lookup_insert_ne.
Qed.

(** The effects of a scope, of which [k] is the last part. *)
Lemma effects_touches own now iid s (k : tx unit) :
  within (touches own (key, iid)) k ->
  within (touches own (key, iid)) (
    _ ← addCommandsToQueue now (commandPacker s);
    if ended s then endInstance key iid
    else
      _ ← (if mutated s then saveInstance key iid (root s) else mret tt);
      k).
Proof.
  intros Hk. apply within_bind; [apply _|apply addCommandsToQueue_touches|]. intros _.
  destruct (ended s); [apply endInstance_touches|]. apply within_bind; [apply _| |done].
  destruct (mutated s); [apply saveInstance_touches|apply within_ret; apply _].
Qed.

Lemma recovered_scope w env iid rt i s :
  Recover (interact outbound i (newScope key w env iid rt)) = inr s -> scope_of key iid s.
Proof.
  unfold Recover. destruct (interact _ _ _) as [r|] eqn:Hi; [|done]. intros ->.
  by eapply interact_scope_of; [|exact Hi]; apply scope_of_new.
Qed.

Lemma dispatch_touches own w env iid :
  routed w (Some env) = Some iid -> within (touches own (key, iid)) (dispatch key outbound w env).
Proof.
  unfold dispatch, routed. destruct (UnpackMessage env) as [|event]; [done|].
  destruct (routeEventToInstance w event) as [|[iid'|]]; [done| |done]. intros [= ->].
  destruct (newRoot w) as [|rt]; [apply within_raise; apply _|].
  apply within_bind; [apply _|apply loadInstance_touches|]. intros [rt'|]; [|apply within_ret; apply _].
  unfold dispatch_to. destruct (Recover _) as [e|s] eqn:Hr; [apply within_raise; apply _|].
  apply effects_touches, persistDeadlines_touches. by eapply recovered_scope.
Qed.

Lemma dispatch_unrouted w env db :
  routed w (Some env) = None -> same_process db (dispatch key outbound w env db).1.
Proof.
  unfold dispatch, routed. destruct (UnpackMessage env) as [|event]; [done|].
  by destruct (routeEventToInstance w event) as [|[iid'|]].
Qed.

Lemma HandleDeadlineDelivery_touches w del env :
  within (touches (Some (MessageID del)) (key, hdr_instance_id (env_header env)))
    (HandleDeadlineDelivery key outbound w del env).
Proof.
  unfold HandleDeadlineDelivery. destruct (UnpackMessage env); [apply within_raise; apply _|].
  destruct (newRoot w) as [|rt]; [apply within_raise; apply _|].
  apply within_bind; [apply _|apply loadInstance_touches|]. intros [rt'|]; [|apply within_raise; apply _].
  unfold deliver_to. destruct (Recover _) as [e|s] eqn:Hr; [apply within_raise; apply _|].
  apply effects_touches, within_bind; [apply _| |intros _; apply deleteDeadline_touches].
  apply persistDeadlines_touches. by eapply recovered_scope.
Qed.
#[local] Instance same_process_preorder : PreOrder same_process.
Proof.
  split; [by intros db|]. intros db1 db2 db3 [H1 H2] [I1 I2]. split; congruence.
Qed.

Lemma consume_touches env w sid cp next ev db r db' :
  consume key outbound env w sid cp next ev db = (r, db') ->
  match routed w ev with
  | Some iid => touches None (key, iid) db db'
  | None => same_process db db'
  end.
Proof.
  destruct (routed w ev) as [iid|] eqn:Hr; apply System.consume_within; try apply _.
  - intros. by apply same_process_touches.
  - destruct ev; [by apply dispatch_touches|done].
  - done.
  - destruct ev; [intros d; by apply dispatch_unrouted|by apply within_ret; apply _].
Qed.

(** A worker that fails has changed nothing; one that does not has touched its instance. *)
Lemma runWorker_touches p w types r cerr t db db' err :
  runWorker key outbound p w types r cerr t db = Ret (db', err) ->
  match err with
  | Some _ => db' = db
  | None => touches (Some (MessageID (Delivery_ t))) (key, hdr_instance_id (env_header (Envelope_ t))) db db'
  end.
Proof.
  unfold runWorker. destruct (doHandle _ _ _ _ _ _ _) as [[db1 e]|] eqn:Hd; cbn; [|done].
  pose proof (HandleDeadlineDelivery_touches w (Delivery_ t) (Envelope_ t) db) as Ht.
  apply doHandle_cases in Hd as [[-> Hh]|[(-> & tx' & e' & del' & delay & Hh & [Hid _] & Hp)|[[e' ->] ->]]];
    intros [= <- <-]; [| |done]; cbn in Hh; rewrite <- System.outcome_fst, Hh in Ht; [done|].
  cbn in Hp. pose proof (PostponeDeadline_touches (Now w) del' delay
    (key, hdr_instance_id (env_header (Envelope_ t))) tx') as Hpt.
  rewrite <- System.outcome_fst, Hp, Hid in Hpt. by etransitivity.
Qed.

(** If the handler returned nil, it has committed what the handler did, and the deadline is
    gone; if it did not, the deadline is still there. *)
Lemma runWorker_outcome p w types r cerr t db db' :
  process_wf db ->
  (forall d, deadlines db !! MessageID (Delivery_ t) = Some d ->
     of_instance key (hdr_instance_id (env_header (Envelope_ t))) d) ->
  runWorker key outbound p w types r cerr t db = Ret (db', None) ->
  match (HandleDeadlineDelivery key outbound w (Delivery_ t) (Envelope_ t) db).2 with
  | inr _ => HandleDeadlineDelivery key outbound w (Delivery_ t) (Envelope_ t) db = (db', inr tt) /\
      MessageID (Delivery_ t) ∉ dom (deadlines db')
  | inl _ => MessageID (Delivery_ t) ∈ dom (deadlines db) -> MessageID (Delivery_ t) ∈ dom (deadlines db')
  end.
Proof.
  intros Hwf Hof. unfold runWorker. destruct (doHandle _ _ _ _ _ _ _) as [[db1 e]|] eqn:Hd; cbn; [|done].
  destruct e; [done|]. intros [= <-].
  pose proof (HandleDeadlineDelivery_wf key outbound w (Delivery_ t) (Envelope_ t) db Hwf) as (_ & _ & Hres).
  apply doHandle_cases in Hd as [[_ Hh]|[(_ & tx' & e' & del' & delay & Hh & [Hid _] & Hp)|[[e' ?] _]]]; [| |done];
    cbn in Hh; destruct (HandleDeadlineDelivery _ _ _ _ _ db) as [db2 [e2|[]]]; cbn in *; try done.
  - injection Hh as ->. split; [done|]. apply not_elem_of_dom. by apply Hres.
  - injection Hh as -> ->. intros Hin. apply (subseteq_dom _ _ Hres) in Hin.
    unfold PostponeDeadline, stmt, wrap, ExecOne, mbind, sql_bind, wrap in Hp. rewrite Hid in Hp.
    destruct (deadlines tx' !! MessageID (Delivery_ t)); [|done]. cbn in Hp. injection Hp as <-. cbn.
    rewrite dom_insert. set_solver.
Qed.

Lemma runWorker_wf p w types r cerr t db db' err :
  process_wf db -> runWorker key outbound p w types r cerr t db = Ret (db', err) -> process_wf db'.
Proof.
  intros Hwf. unfold runWorker. destruct (doHandle _ _ _ _ _ _ _) as [[db1 e]|] eqn:Hd; cbn; [|done].
  destruct e; intros [= <- <-]; by eapply doHandle_deadline.
Qed.
End effects.

(** ** The invariant *)

(** The row of an open task is as it was when it was acquired. *)
Definition holds (db : DB) (h : held) : Prop :=
  exists d, deadlines db !! h_id h = Some d /\ instance_of d = h_instance h /\
    dl_envelope d = EnvelopeBytes (Delivery_ (h_task h)) /\
    dl_failures d = Failures (Delivery_ (h_task h)) /\
    Unmarshal (EnvelopeBytes (Delivery_ (h_task h))) = inr (Envelope_ (h_task h)).

Definition exclusive (o : gmap place held) : Prop :=
  forall k1 k2 h1 h2, o !! k1 = Some h1 -> o !! k2 = Some h2 -> h_instance h1 = h_instance h2 -> k1 = k2.

(** The transaction of a deadline that was handled: the database went from a state in which
    the deadline was pending, as it was acquired, to that in which [HandleDelivery] left it. *)
Definition was_handled (x : handling) : Prop :=
  holds (d_before x) (d_held x) /\
  d_deliver x (Delivery_ (h_task (d_held x))) (Envelope_ (h_task (d_held x))) (d_before x) = (d_after x, inr tt).

Record pumps_inv (s : pumps) : Prop := mkInv {
  inv_wf : process_wf (ddb s);
  inv_holds : forall k h, open s !! k = Some h -> holds (ddb s) h;
  inv_exclusive : exclusive (open s);
  inv_was_handled : Forall was_handled (handled s);
  inv_nodup : NoDup (d_id <$> handled s);
  inv_handled : forall id, id ∈ d_id <$> handled s -> (id ∉ dom (deadlines (ddb s))) /\ id ∉ dom (dropped s);
  inv_dropped : forall id I, dropped s !! id = Some I -> (id ∉ dom (deadlines (ddb s))) /\ ended_in I (ddb s);
  inv_scheduled : forall id, id ∈ scheduled s <->
    id ∈ dom (deadlines (ddb s)) \/ id ∈ d_id <$> handled s \/ id ∈ dom (dropped s);
}.

Lemma elem_of_held_ids o id : id ∈ held_ids o <-> exists k h, o !! k = Some h /\ h_id h = id.
Proof.
  unfold held_ids. rewrite elem_of_list_to_set, list_elem_of_fmap. split.
  - intros ([k h] & -> & Hk%elem_of_map_to_list). by exists k, h.
  - intros (k & h & Hk & <-). exists (k, h). split; [done|]. by apply elem_of_map_to_list.
Qed.

Lemma elem_of_held_instances o I : I ∈ held_instances o <-> exists k h, o !! k = Some h /\ h_instance h = I.
Proof.
  unfold held_instances. rewrite elem_of_list_to_set, list_elem_of_fmap. split.
  - intros ([k h] & -> & Hk%elem_of_map_to_list). by exists k, h.
  - intros (k & h & Hk & <-). exists (k, h). split; [done|]. by apply elem_of_map_to_list.
Qed.

Lemma not_locked o db id d :
  deadlines db !! id = Some d -> id ∉ locked o db -> (id ∉ held_ids o) /\ instance_of d ∉ held_instances o.
Proof.
  intros Hd Hn. unfold locked in Hn. apply not_elem_of_dom in Hn. rewrite map_lookup_filter_None in Hn.
  destruct Hn as [?|Hn]; [congruence|]. specialize (Hn d Hd). tauto.
Qed.

(** A dispatcher changes nothing, as every envelope can be decoded, and acquires a deadline
    of an instance that no other task holds. *)
Lemma runDispatcher_spec {P : ProcessMessageHandler} key outbound p w o types q db db' r :
  process_wf db -> q_others q = id -> runDispatcher key outbound p w o types q db = Ret (db', r) ->
  db' = db /\ forall h, r = Some (inr (Some h)) -> holds db h /\ h_instance h ∉ held_instances o.
Proof.
  intros Hwf Ho. unfold runDispatcher. cbn. rewrite Ho.
  unfold doAcquireDelivery. destruct (q_begin_err q); [by intros [= <- <-]|]. cbn.
  destruct (AcquireDeadline _ _ _ _ db) as [e|[del|]] eqn:Ha.
  - by intros [= <- <-].
  - apply AcquireDeadline_row in Ha as (d & Hd & _ & _ & _ & _ & Hb & Hf & Hn).
    destruct Hwf as [_ Hwf]. destruct (Hwf _ _ Hd) as [_ (env & Hu & _)]. rewrite Hb, Hu. cbn. rewrite Hd.
    intros [= <- <-]. split; [done|]. intros h [= <-]. split.
    + exists d. split_and!; cbn; try done. by rewrite Hb.
    + cbn. apply (not_locked _ _ _ _ Hd). set_solver.
  - destruct (q_commit_err q); by intros [= <- <-].
Qed.

(** *** Steps that change no deadline and no instance *)

Lemma holds_same db db' h : same_process db db' -> holds db h -> holds db' h.
Proof. intros [_ Hd]. unfold holds. by rewrite Hd. Qed.

Lemma reopen_inv s db' o' :
  pumps_inv s -> same_process (ddb s) db' ->
  (forall k h, o' !! k = Some h -> holds (ddb s) h) -> exclusive o' -> pumps_inv (with_open db' o' s).
Proof.
  intros [Hwf Hh Hex Hall Hnd Hha Hdr Hsc] Hsame Ho He. pose proof Hsame as [Hi Hd].
  split; cbn; try done; [by eapply process_wf_same| |by rewrite Hd| |by rewrite Hd].
  - intros k h Hk. eapply holds_same; [done|]. by eapply Ho.
  - intros id I Hid. rewrite Hd. unfold ended_in. rewrite Hi. by apply Hdr.
Qed.

Lemma stop_inv s db' i : pumps_inv s -> same_process (ddb s) db' -> pumps_inv (with_open db' (stop i (open s)) s).
Proof.
  intros Hs Hsame. assert (Hsub : forall k h, stop i (open s) !! k = Some h -> open s !! k = Some h).
  { intros k h Hk. by apply map_lookup_filter_Some in Hk as [? _]. }
  apply reopen_inv; [done|done| |].
  - intros k h Hk%Hsub. by eapply inv_holds.
  - intros k1 k2 h1 h2 H1%Hsub H2%Hsub. by eapply inv_exclusive.
Qed.

(** *** Steps that touch an instance *)

Lemma elem_of_gone db db' id :
  id ∈ dom (filter (fun '(id, _) => id ∉ dom (deadlines db')) (deadlines db)) <->
  id ∈ dom (deadlines db) /\ id ∉ dom (deadlines db').
Proof.
  rewrite !elem_of_dom. split.
  - intros [d [Hd Hn]%map_lookup_filter_Some]. split; [by eexists|]. by apply not_elem_of_dom in Hn; rewrite Hn.
  - intros [[d Hd] Hn]. exists d. apply map_lookup_filter_Some. split; [done|]. by rewrite elem_of_dom.
Qed.

Lemma commit_handled own db' o s id :
  id ∈ d_id <$> handled (commit own db' o s) <-> id ∈ d_id <$> handled s \/ d_id <$> own = Some id.
Proof.
  cbn. rewrite fmap_app, elem_of_app. destruct own as [x|]; cbn; [|set_solver].
  rewrite list_elem_of_singleton. naive_solver.
Qed.

Lemma commit_dropped own db' o s id :
  id ∈ dom (dropped (commit own db' o s)) <->
  id ∈ dom (dropped s) \/ d_id <$> own <> Some id /\ id ∈ dom (deadlines (ddb s)) /\ id ∉ dom (deadlines db').
Proof.
  cbn. rewrite dom_union, elem_of_union, dom_fmap. pose proof (elem_of_gone (ddb s) db' id) as Hg.
  destruct own as [x|]; cbn; [|naive_solver]. rewrite dom_delete, elem_of_difference, elem_of_singleton. naive_solver.
Qed.

(** What the transaction that touches the deadline [own] says of it: it was handled, and is
    gone, or it is still there. *)
Definition accounted (own : option UUID) (x : option handling) (db db' : DB) : Prop :=
  match x with
  | Some x => own = Some (d_id x) /\ was_handled x /\ d_id x ∈ dom (deadlines db) /\ d_id x ∉ dom (deadlines db')
  | None => forall id, own = Some id -> id ∈ dom (deadlines db) -> id ∈ dom (deadlines db')
  end.

(** What was dropped now was of the instance, which has ended. *)
Lemma commit_dropped_ended own x I s db' o id J :
  touches own I (ddb s) db' -> accounted own x (ddb s) db' -> dropped (commit x db' o s) !! id = Some J ->
  dropped s !! id = Some J \/ J = I /\ (id ∉ dom (deadlines db')) /\ ended_in I db'.
Proof.
  intros (_ & H2 & H3 & _) Hacc [Hx|[_ ?]]%lookup_union_Some_raw; [|by left]. right.
  apply lookup_fmap_Some in Hx as (d & <- & Hx).
  assert (Hg : own <> Some id /\ deadlines (ddb s) !! id = Some d /\ id ∉ dom (deadlines db')).
  { destruct x as [y|]; [apply lookup_delete_Some in Hx as [Hne Hx]|];
      apply map_lookup_filter_Some in Hx as [Hx Hout]; (split; [|done]).
    - destruct Hacc as [-> _]. congruence.
    - intros ->. apply Hout, Hacc; [done|]. by eapply elem_of_dom_2. }
  destruct Hg as (Hown & Hd & Hn).
  assert (HI : instance_of d = I).
  { destruct (decide (instance_of d = I)) as [|Hne]; [done|]. destruct Hn. apply elem_of_dom. exists d.
    by apply (H2 id d). }
  split_and!; [done..|]. destruct (H3 id) as [?|?]; [by eapply elem_of_dom_2|done|done|done].
Qed.

Lemma commit_inv_touches own x I s db' o' :
  pumps_inv s -> touches own I (ddb s) db' -> accounted own x (ddb s) db' -> process_wf db' -> fresh db' s ->
  (forall k h, o' !! k = Some h -> open s !! k = Some h /\ h_instance h <> I /\ own <> Some (h_id h)) ->
  pumps_inv (commit x db' o' s).
Proof.
  intros [Hwf Hh Hex Hall Hnd Hha Hdr Hsc] Ht Hacc Hwf' Hfresh Ho. pose proof Ht as (H1 & H2 & H3 & H4).
  assert (Hgone : forall id, id ∈ scheduled s -> id ∉ dom (deadlines (ddb s)) -> id ∉ dom (deadlines db')).
  { intros id Hs Hn Hin. by destruct (Hfresh id Hin). }
  assert (Hsd : forall id, id ∈ dom (dropped s) -> (id ∉ dom (deadlines (ddb s))) /\ id ∈ scheduled s).
  { intros id Hd. rewrite Hsc. split; [|tauto]. apply elem_of_dom in Hd as [J HJ]. by eapply Hdr. }
  assert (Hx : forall id, d_id <$> x = Some id -> id ∈ dom (deadlines (ddb s)) /\ id ∉ dom (deadlines db')).
  { intros id Hid. destruct x as [y|]; [|done]. injection Hid as <-. apply Hacc. }
  split.
  - done.
  - intros k h Hk. destruct (Ho k h Hk) as (Hk0 & HI & Hown). destruct (Hh k h Hk0) as (d & Hd & Hi & Hrest).
    exists d. split; [|done]. apply H2; [done|congruence|done].
  - intros k1 k2 h1 h2 (Hk1 & _)%Ho (Hk2 & _)%Ho. by eapply Hex.
  - cbn. apply Forall_app. split; [done|]. destruct x as [y|]; constructor; [apply Hacc|constructor].
  - cbn. rewrite fmap_app. apply NoDup_app. split_and!; [done| |].
    + intros id Hid. destruct x as [y|]; cbn; [|apply not_elem_of_nil]. intros ->%list_elem_of_singleton.
      destruct (Hx _ eq_refl) as [Hin _]. by destruct (Hha _ Hid).
    + destruct x; [apply NoDup_singleton|apply NoDup_nil_2].
  - intros id Hid. rewrite commit_dropped. apply commit_handled in Hid as [Hid|Hid].
    + destruct (Hha id Hid) as [Hn Hnd']. split; [|tauto]. apply Hgone; [|done]. apply Hsc. tauto.
    + destruct (Hx id Hid) as [Hin Hout]. split; [done|]. intros [Hd%Hsd|?]; [tauto|]. naive_solver.
  - intros id J HJ. destruct (commit_dropped_ended _ _ _ _ _ _ _ _ Ht Hacc HJ) as [Hold|(-> & Hn & He)]; [|done].
    destruct (Hdr id J Hold) as [Hn (row & Hrow & He)]. split.
    + apply Hgone; [|done]. apply Hsd. by eapply elem_of_dom_2.
    + destruct (decide (J = I)) as [->|Hne]; [apply H4; by exists row|]. exists row. cbn. by rewrite H1.
  - intros id. rewrite commit_handled, commit_dropped. cbn. rewrite elem_of_union, Hsc.
    specialize (Hx id).
    destruct (decide (id ∈ dom (deadlines (ddb s)))), (decide (id ∈ dom (deadlines db'))),
      (decide (d_id <$> x = Some id)); naive_solver.
Qed.

(** *** Every step *)

(** The instance of a task is that of its envelope. *)
Lemma held_instance s k h :
  pumps_inv s -> open s !! k = Some h ->
  h_instance h = ((h_instance h).1, hdr_instance_id (env_header (Envelope_ (h_task h)))) /\
  exists d, deadlines (ddb s) !! h_id h = Some d /\ instance_of d = h_instance h.
Proof.
  intros Hs Hk. destruct (inv_holds s Hs k h Hk) as (d & Hd & Hi & He & _ & Hu). split; [|by exists d].
  destruct (proj2 (inv_wf s Hs) _ _ Hd) as [_ (env & Hu' & _ & Hi')]. rewrite He, Hu in Hu'.
  injection Hu' as <-. rewrite <- Hi. unfold instance_of. cbn. congruence.
Qed.

Lemma acquired_inv s i h :
  pumps_inv s -> holds (ddb s) h -> h_instance h ∉ held_instances (open s) ->
  pumps_inv (with_open (ddb s) (<[(i, None) := h]> (open s)) s).
Proof.
  intros Hs Hh Hn. apply reopen_inv; [done|done| |].
  - intros k h' [[_ <-]|[_ Hk]]%lookup_insert_Some; [done|by eapply inv_holds].
  - assert (Hfree : forall k h', open s !! k = Some h' -> h_instance h' <> h_instance h).
    { intros k h' Hk Heq. apply Hn, elem_of_held_instances. eauto. }
    intros k1 k2 h1 h2 [[<- <-]|[_ H1]]%lookup_insert_Some [[<- <-]|[_ H2]]%lookup_insert_Some Heq; try done.
    + by destruct (Hfree _ _ H2).
    + by destruct (Hfree _ _ H1).
    + by eapply inv_exclusive.
Qed.

Lemma hand_off_inv s i n h :
  pumps_inv s -> open s !! (i, None) = Some h ->
  pumps_inv (with_open (ddb s) (<[(i, Some n) := h]> (delete (i, None) (open s))) s).
Proof.
  intros Hs Hi. apply reopen_inv; [done|done| |].
  - intros k h' [[_ <-]|[_ [_ Hk]%lookup_delete_Some]]%lookup_insert_Some; by eapply inv_holds.
  - intros k1 k2 h1 h2 [[<- <-]|[_ [Hd1 H1]%lookup_delete_Some]]%lookup_insert_Some
      [[<- <-]|[_ [Hd2 H2]%lookup_delete_Some]]%lookup_insert_Some Heq; [done|..].
    + by destruct (Hd2 (inv_exclusive s Hs _ _ _ _ Hi H2 Heq)).
    + by destruct (Hd1 (eq_sym (inv_exclusive s Hs _ _ _ _ H1 Hi Heq))).
    + by eapply inv_exclusive.
Qed.

Lemma delivered_inv {P : ProcessMessageHandler} s k key outbound p w types r cerr db' h :
  pumps_inv s -> open s !! k = Some h -> (h_instance h).1 = key ->
  runWorker key outbound p w types r cerr (h_task h) (ddb s) = Ret (db', None) -> fresh db' s ->
  pumps_inv (commit (delivery h (HandleDeadlineDelivery key outbound w) (ddb s) db') db' (delete k (open s)) s).
Proof.
  intros Hs Hk Hkey Hr Hfresh. destruct (held_instance s k h Hs Hk) as (HI & d & Hd & Hdi).
  pose proof (runWorker_wf _ _ _ _ _ _ _ _ _ _ _ (inv_wf s Hs) Hr) as Hwf.
  pose proof (runWorker_outcome key outbound p w types r cerr (h_task h) (ddb s) db' (inv_wf s Hs)) as Hout.
  apply runWorker_touches in Hr as Ht. rewrite <- Hkey, <- HI in Ht.
  apply (commit_inv_touches (Some (h_id h)) _ (h_instance h)); try done.
  { assert (Hin : h_id h ∈ dom (deadlines (ddb s))) by (by eapply elem_of_dom_2).
    specialize (Hout ltac:(intros d' Hd'; assert (d' = d) as -> by (unfold h_id in Hd; congruence);
      rewrite HI, Hkey in Hdi; injection Hdi as ? ?; by split) Hr).
    unfold delivery. destruct (HandleDeadlineDelivery key outbound w _ _ (ddb s)).2 as [e|[]] eqn:Hres; cbn.
    - intros id [= <-]. exact Hout.
    - destruct Hout as [Hd' Hgone]. split_and!; [done|by split; [by eapply inv_holds|]|done|done]. }
  intros k' h' [Hne Hk']%lookup_delete_Some.
  assert (HI' : h_instance h' <> h_instance h) by (intros Heq; apply Hne; by eapply inv_exclusive).
  split_and!; [done..|]. intros [= Heq]. destruct (held_instance s k' h' Hs Hk') as (_ & d' & Hd' & Hdi').
  rewrite <- Heq in Hd'. congruence.
Qed.

Lemma event_inv {P : ProcessMessageHandler} s key outbound env w sid cp next ev r db' :
  pumps_inv s -> (forall iid, routed w ev = Some iid -> (key, iid) ∉ held_instances (open s)) ->
  consume key outbound env w sid cp next ev (ddb s) = (r, db') -> fresh db' s ->
  pumps_inv (commit None db' (open s) s).
Proof.
  intros Hs Hn Hc Hfresh. pose proof (consume_wf _ _ _ _ _ _ _ _ _ _ _ (inv_wf s Hs) Hc) as Hwf.
  apply consume_touches in Hc.
  assert (exists I, touches None I (ddb s) db' /\ I ∉ held_instances (open s)) as (I & Ht & HI).
  { destruct (routed w ev) as [iid|]; [by eauto|]. destruct (exist_fresh (held_instances (open s))) as [I HI].
    exists I. split; [by apply same_process_touches|done]. }
  apply (commit_inv_touches None None I); try done. intros k h Hk. split_and!; [done| |done].
  intros <-. apply HI, elem_of_held_instances. eauto.
Qed.

Lemma deadline_step_inv s s' : pumps_inv s -> deadline_step s s' -> pumps_inv s'.
Proof.
  intros Hs Hstep. pose proof (inv_wf s Hs) as Hwf.
  destruct Hstep as [P i key outbound p w types now r berr cerr extra db' h Hi Hr|
    P i key outbound p w types now r berr cerr extra db' Hi Hr|P i key outbound p w types now r berr cerr extra db' Hi Hr|
    P i key outbound p w types now r berr cerr extra db' e Hi Hr|i n h Hi Hn|P i n key outbound p w types r cerr db' h Hk Hkey Hr Hf|
    P i n key outbound p w types r cerr db' h e Hk Hkey Hr|i|P key outbound env w sid cp next ev r db' Hn Hc Hf|db' Hsame].
  - apply runDispatcher_spec in Hr as [-> Hh]; [|done..]. destruct (Hh h eq_refl). by apply acquired_inv.
  - apply runDispatcher_spec in Hr as [-> _]; [|done..]. apply reopen_inv; [done|done|apply Hs..].
  - apply runDispatcher_spec in Hr as [-> _]; [|done..]. apply reopen_inv; [done|done|apply Hs..].
  - apply runDispatcher_spec in Hr as [-> _]; [|done..]. by apply stop_inv.
  - by apply hand_off_inv.
  - by eapply delivered_inv.
  - apply runWorker_touches in Hr. subst db'. by apply stop_inv.
  - by apply stop_inv.
  - by eapply event_inv.
  - apply reopen_inv; [done|done|apply Hs..].
Qed.

Lemma deadline_steps_inv s s' : pumps_inv s -> rtc deadline_step s s' -> pumps_inv s'.
Proof. intros Hs. induction 1; [done|]. eauto using deadline_step_inv. Qed.

Definition initial : pumps := mkPumps empty_db ∅ ∅ [] ∅.

Lemma initial_pumps_inv : pumps_inv initial.
Proof.
  split; cbn; [apply process_reachable_wf, rtc_refl|..]; try done; try set_solver; constructor.
Qed.

(** A dispatcher that finds nothing due has passed over no deadline but those of instances
    that are being dealt with and those that were locked otherwise. *)
Lemma nothing_due {P : ProcessMessageHandler} s key now extra types id d :
  pumps_inv s -> AcquireDeadline key now (locked (open s) (ddb s) ∪ extra) types (ddb s) = inr None ->
  deadlines (ddb s) !! id = Some d -> dl_handler_key d = key -> dl_deliver_at d <= now ->
  dl_type_id d ∈ types -> instance_of d ∈ held_instances (open s) \/ id ∈ extra.
Proof.
  intros Hs Ha Hd Hk Hdue Ht. destruct (decide (id ∈ extra)) as [|He]; [by right|]. left.
  destruct (decide (id ∈ locked (open s) (ddb s))) as [Hl|Hl].
  - unfold locked in Hl. apply elem_of_dom in Hl as [d' [Hd' [Hid|?]]%map_lookup_filter_Some]; [|by simplify_eq].
    apply elem_of_held_ids in Hid as (k & h & Hh & <-). apply elem_of_held_instances. exists k, h.
    split; [done|]. destruct (held_instance s k h Hs Hh) as (_ & d'' & Hd'' & <-). congruence.
  - exfalso. unfold AcquireDeadline in Ha. destruct (filter _ _) as [|[id' d'] l] eqn:Hf; [|by case_decide].
    assert (Hin : (id, d) ∈ filter (fun '(id, _) => id ∉ locked (open s) (ddb s) ∪ extra)
      (pending_deadlines key now types (ddb s))).
    { apply list_elem_of_filter. split; [set_solver|]. unfold pending_deadlines. rewrite order_by_Permutation.
      apply list_elem_of_filter. split; [|by apply elem_of_map_to_list].
      destruct (proj2 (inv_wf s Hs) _ _ Hd) as [(row & Hrow & _) _]. by split_and!; [..|exists row]. }
    rewrite Hf in Hin. by apply not_elem_of_nil in Hin.
Qed.
End pumps.

(** ** Properties *)


(** ** An example

    A process that schedules two deadlines for an event, and ends when the first of them
    is delivered. *)

Section example.
#[local] Existing Instance Example.messaging.

#[local] Instance alarm : ProcessMessageHandler := {|
  Root := N;
  New _ := Ret 0%N;
  UnmarshalBinary _ r := Ret (inr r);
  MarshalBinary _ := Ret (inr None);
  RouteEventToInstance _ _ := Ret (inr (Some "b"));
  HandleEvent _ _ _ _ _ :=
    CallScheduleDeadline (6%N : @Message Example.messaging) 100
      (CallScheduleDeadline (6%N : @Message Example.messaging) 150 (Return None));
  HandleDeadline _ _ _ _ _ := CallEnd (Return None);
|}.

Definition alarm_world (now : Z) (id : N) : World := (now, id).
Definition alarm_pump : MessagePump := mkPump 1 10 1000.
Definition alarm_consume : DB :=
  (consume 7 {[6%N]} no_faults (alarm_world 10 100) 1 0 1 (Some (event 1 0 5)) empty_db).2.
Definition alarm_scheduled : pumps := commit None alarm_consume ∅ initial.

(** What the dispatcher of a pump acquires. *)
Definition alarm_acquire (s : pumps) : option held :=
  match runDispatcher 7 {[6%N]} alarm_pump (alarm_world 200 0) (open s) {[6%N]} (acquiring 200 0 None None ∅)
          (ddb s) with
  | Ret (_, Some (inr r)) => r
  | _ => None
  end.
Definition alarm_held : held :=
  default (mkHeld (0%N, "") (mkTask (mkDelivery 0 0 "" 0) (event 0 0 0))) (alarm_acquire alarm_scheduled).
Definition alarm_acquired : pumps := with_open alarm_consume {[(0%nat, None) := alarm_held]} alarm_scheduled.
Definition alarm_working : pumps := with_open alarm_consume {[(0%nat, Some 3%nat) := alarm_held]} alarm_scheduled.
Definition alarm_db : DB :=
  match runWorker 7 {[6%N]} alarm_pump (alarm_world 210 500) {[6%N]} 0 None (h_task alarm_held) alarm_consume with
  | Ret (db, _) => db
  | Panic _ => empty_db
  end.
Definition alarm_handling : handling :=
  mkHandling alarm_held (HandleDeadlineDelivery 7 {[6%N]} (alarm_world 210 500)) alarm_consume alarm_db.
Definition alarm_final : pumps := commit (Some alarm_handling) alarm_db ∅ alarm_working.

Lemma fresh_check db' s :
  bool_decide (set_Forall (fun id => id ∈ dom (deadlines (ddb s)) \/ id ∉ scheduled s) (dom (deadlines db'))) = true ->
  fresh db' s.
Proof. intros Hf%bool_decide_eq_true id Hid. by apply Hf. Qed.

(** A second pump meanwhile finds nothing that is due. *)
Lemma alarm_steps : rtc deadline_step initial alarm_final.
Proof.
  eapply rtc_l.
  { apply (step_event initial 7 {[6%N]} no_faults (alarm_world 10 100) 1 0 1 (Some (event 1 0 5))
      (1, true, None) alarm_consume); [by intros iid _|vm_compute; reflexivity|].
    apply fresh_check. vm_compute. reflexivity. }
  eapply rtc_l.
  { apply (step_acquired alarm_scheduled 0 7 {[6%N]} alarm_pump (alarm_world 200 0) {[6%N]} 200 0 None None ∅
      alarm_consume alarm_held); vm_compute; reflexivity. }
  eapply rtc_l.
  { apply (step_nothing_due alarm_acquired 1 7 {[6%N]} alarm_pump (alarm_world 200 0) {[6%N]} 200 0 None None ∅
      alarm_consume); vm_compute; reflexivity. }
  eapply rtc_l; [apply (step_hand_off alarm_acquired 0 3 alarm_held); vm_compute; reflexivity|].
  eapply rtc_l.
  { apply (step_delivered alarm_working 0 3 7 {[6%N]} alarm_pump (alarm_world 210 500) {[6%N]} 0 None
      alarm_db alarm_held); [vm_compute; reflexivity..|]. apply fresh_check. vm_compute. reflexivity. }
  assert (Hd : delivery alarm_held (HandleDeadlineDelivery 7 {[6%N]} (alarm_world 210 500)) (ddb alarm_working)
    alarm_db = Some alarm_handling).
  { unfold delivery. assert (Hok : (HandleDeadlineDelivery 7 {[6%N]} (alarm_world 210 500)
      (Delivery_ (h_task alarm_held)) (Envelope_ (h_task alarm_held)) (ddb alarm_working)).2 = inr tt)
      by (vm_compute; reflexivity). by rewrite Hok. }
  assert (Ho : delete (0%nat, Some 3%nat) (open alarm_working) = ∅) by (vm_compute; reflexivity).
  rewrite Hd, Ho. apply rtc_refl.
Qed.
End example.

