(* ===== verification/Marshal.v ===== *)
(** * Values of database columns

    Models [internal/x/xsql/marshal.go]: the conversion of UUIDs and envelopes to and
    from the values that the database driver exchanges.  The text of a UUID is of package
    uuidpb, and the binary representation of an envelope is that of [Messaging]. *)

From S2P Require Import Prelude Errors Stream Database Handler.

(** [driver.Value] *)
Inductive Value : Type := Null | Text (s : string) | Binary (b : bytes) | Number (n : Z).

(** The text of a UUID. *)
Class UUIDText := {
  AsString : UUID -> string;
  MarshalText : UUID -> error + string;
  UnmarshalText : string -> error + UUID;
  UnmarshalText_MarshalText id s : MarshalText id = inr s -> UnmarshalText s = inr id;
}.

Section marshal.
Context `{UUIDText} `{Messaging}.

(** The scanner of [UUID]: what the variable is set to, which is [None] for a nil
    pointer, and the error. *)
Definition UUID_Scan (id : option UUID) (v : Value) : option UUID * option error :=
  match id with
  | None => (None, Some (Opaque "cannot scan into nil UUID pointer"))
  | Some _ =>
      match v with
      | Null => (Some 0%N, None)
      | Text s =>
          match UnmarshalText s with
          | inl e => (id, Some e)
          | inr id' => (Some id', None)
          end
      | _ => (id, Some (Opaque "cannot scan"))
      end
  end.

(** The valuer of [UUID]. *)
Definition UUID_Value (id : option UUID) : error + Value :=
  match id with
  | None => inr Null
  | Some id => match MarshalText id with inl e => inl e | inr s => inr (Text s) end
  end.

Definition UUIDs (ids : list UUID) : list string := AsString <$> ids.

(** The loop of [UUIDSeq]. *)
Fixpoint UUIDSeq_loop (seq : list UUID) (values : list string) : list string :=
  match seq with
  | [] => values
  | id :: seq' => UUIDSeq_loop seq' (values ++ [AsString id])
  end.

Definition UUIDSeq (seq : list UUID) : list string := UUIDSeq_loop seq [].

(** [Envelope] panics for a nil pointer; [empty] is what [Reset] leaves. *)
Definition Envelope_Scan (empty : Envelope) (env : option Envelope) (v : Value)
    : go (option Envelope * option error) :=
  match env with
  | None => Panic "envelope must not be nil"
  | Some _ =>
      match v with
      | Null => Ret (Some empty, None)
      | Binary data =>
          match Unmarshal data with
          | inl e => Ret (env, Some e)
          | inr env' => Ret (Some env', None)
          end
      | _ => Ret (env, Some (Opaque "cannot scan"))
      end
  end.

Definition Envelope_Value (env : option Envelope) : go (error + Value) :=
  match env with
  | None => Panic "envelope must not be nil"
  | Some env => Ret (match Marshal env with inl e => inl e | inr data => inr (Binary data) end)
  end.

(** What was written is what is read, whatever the variable held: UUIDs, NULL for none,
    and envelopes. *)
Theorem columns_round_trip id id0 env env0 empty :
  (forall v, UUID_Value id = inr v -> UUID_Scan (Some id0) v = (Some (default 0%N id), None)) /\
  (forall v, Envelope_Value (Some env) = Ret (inr v) ->
     Envelope_Scan empty (Some env0) v = Ret (Some env, None)).
Proof.
  split; intros v.
  - destruct id as [id|]; cbn; [|by intros [= <-]]. destruct (MarshalText id) as [e|s] eqn:Hm; [done|].
    intros [= <-]. cbn. by rewrite (UnmarshalText_MarshalText _ _ Hm).
  - cbn. destruct (Marshal env) as [e|data] eqn:Hm; [done|]. intros [= <-]. cbn.
    by rewrite (Unmarshal_Marshal _ _ Hm).
Qed.

(** The two ways to collect UUIDs agree. *)
Lemma UUIDSeq_UUIDs ids : UUIDSeq ids = UUIDs ids.
Proof.
  unfold UUIDSeq, UUIDs. assert (Hgen : forall acc, UUIDSeq_loop ids acc = acc ++ (AsString <$> ids)).
  { induction ids as [|id ids IH]; intros acc; cbn; [by rewrite app_nil_r|]. by rewrite IH, <- app_assoc. }
  apply Hgen.
Qed.
End marshal.
