(* ===== verification/EventLog.v ===== *)
(** * The event log and the local source together

    The local source ([Local], [LocalWatch]) is proved correct for any database that
    holds the beginning of a stream's history; [System] shows how the transactions of the
    handlers change the database.  Here the two are composed: the history of a stream
    is what an engine's execution has recorded, and the states that the queries of a
    read see are states of that execution, whichever they are. *)

From S2P Require Import Prelude Errors Stream Source Database Handler.
From S2P Require Local Aggregate System.
Import Local (Rows, mkRows, SegmentQuery, q_stream, run_query, stored, answers, decodes).
Import System (engine_step, engine_wf, row_ok, grows).

(** ** The history of a stream *)

Section log.
Context `{M : Messaging}.

(** The envelope of a row, as the source delivers it. *)
Definition decode (sid : UUID) (r : EventRow) : option Envelope :=
  match Unmarshal (ev_envelope r) with
  | inr e => Some (set_position (mkPosition sid (ev_offset r)) e)
  | inl _ => None
  end.

Definition history (db : DB) (sid : UUID) : list Envelope := omap (decode sid) (stream_events db sid).

Lemma decode_row_ok sid r : row_ok r -> exists e, decode sid r = Some e /\ decodes Unmarshal sid r e.
Proof.
  intros (e & Hu & Ht). unfold decode. rewrite Hu. eexists. split; [done|]. by exists e.
Qed.

Lemma decodes_omap sid rs : Forall row_ok rs -> Forall2 (decodes Unmarshal sid) rs (omap (decode sid) rs).
Proof.
  induction 1 as [|r rs Hr _ IH]; [constructor|]. destruct (decode_row_ok sid r Hr) as (e & He & Hd).
  cbn. rewrite He. by constructor.
Qed.

Lemma rows_ok_filter (P : EventRow -> Prop) `{!forall r, Decision (P r)} rs :
  Forall row_ok rs -> Forall row_ok (filter P rs).
Proof. rewrite !Forall_forall. intros Hall r [_ Hr]%list_elem_of_filter. by apply Hall. Qed.

Lemma stream_rows_ok db sid : Forall row_ok (events db) -> Forall row_ok (stream_events db sid).
Proof. apply rows_ok_filter. Qed.

Section execution.
Context (A : UUID -> Aggregate.AggregateMessageHandler).

Lemma history_in_range db sid n :
  engine_wf A db -> streams db !! sid = Some n -> in_range sid 0 n (history db sid).
Proof.
  intros ((_ & Hwf) & _ & _ & Hrows) Hs. specialize (Hwf sid). rewrite Hs in Hwf. destruct Hwf as [Ho Hn].
  apply (Local.stored_in_range Unmarshal sid (stream_events db sid) (history db sid) 0 n); [|done..].
  by apply decodes_omap, stream_rows_ok.
Qed.

(** The end of a stream; one that does not exist yet is empty. *)
Definition end_of (db : DB) (sid : UUID) : Z := default 0 (streams db !! sid).

Lemma history_bounds db sid : engine_wf A db -> in_range sid 0 (end_of db sid) (history db sid).
Proof.
  intros Hwf. unfold end_of. destruct (streams db !! sid) as [n|] eqn:Hn; [by apply history_in_range|].
  pose proof Hwf as ((_ & Hev) & _). specialize (Hev sid). rewrite Hn in Hev. unfold history. by rewrite Hev.
Qed.

(** A later state of an execution extends the history. *)
Lemma history_grows db db' sid :
  engine_wf A db -> engine_wf A db' -> grows db db' ->
  exists rest, history db' sid = history db sid ++ rest /\
    in_range sid (end_of db sid) (end_of db' sid) rest.
Proof.
  intros Hwf Hwf' ((new & He) & Hs & _). destruct (streams db !! sid) as [n|] eqn:Hn; last first.
  { exists (history db' sid). unfold history at 2, end_of at 1. pose proof Hwf as ((_ & Hev) & _).
    specialize (Hev sid). rewrite Hn in *. rewrite Hev. split; [done|by apply history_bounds]. }
  destruct (Hs sid n Hn) as (n' & Hn' & Hle). unfold end_of. rewrite Hn, Hn'. cbn.
  pose proof Hwf as ((_ & Hev) & _). pose proof Hwf' as ((_ & Hev') & _ & _ & Hrows').
  assert (Hse : stream_events db' sid = stream_events db sid ++ filter (fun r => ev_stream r = sid) new).
  { unfold stream_events. by rewrite He, filter_app. }
  exists (omap (decode sid) (filter (fun r => ev_stream r = sid) new)). split.
  { unfold history. by rewrite Hse, omap_app. }
  specialize (Hev sid). specialize (Hev' sid).
  rewrite Hn in Hev. rewrite Hn', Hse, fmap_app in Hev'. destruct Hev as [Ho H0]. destruct Hev' as [Ho' _].
  replace n' with (n + (n' - n)) in Ho' at 1 by lia.
  rewrite Ho, seqZ_app, Z.add_0_l in Ho' by lia. apply app_inv_head in Ho'.
  replace n' with (n + (n' - n)) by lia. eapply Local.stored_in_range; [|exact Ho'|lia].
  apply decodes_omap, rows_ok_filter. rewrite He in Hrows'. by apply Forall_app in Hrows' as [_ ?].
Qed.

(** A state of an execution holds the beginning of what it will have recorded later. *)
Lemma stored_earlier db db' sid n :
  engine_wf A db -> engine_wf A db' -> grows db db' ->
  streams db !! sid = Some n -> n < u64_modulus -> stored Unmarshal sid (history db' sid) n db.
Proof.
  intros Hwf Hwf' Hg Hn Hmax. destruct (history_grows db db' sid Hwf Hwf' Hg) as (rest & Hh & Hrest).
  unfold end_of at 1 in Hrest. rewrite Hn in Hrest. pose proof Hwf as (Hev & _ & _ & Hrows).
  split_and!; [done|done|done|]. exists (history db sid), rest, (end_of db' sid).
  split_and!; [done|done|]. by apply decodes_omap, stream_rows_ok.
Qed.

(** Every offset fits the type that it is scanned into. *)
Definition fits (db : DB) : Prop := forall sid n, streams db !! sid = Some n -> n < u64_modulus.

Lemma fits_earlier db db' : grows db db' -> fits db' -> fits db.
Proof.
  intros (_ & Hs & _) Hf sid n Hn. destruct (Hs sid n Hn) as (n' & Hn' & ?). specialize (Hf _ _ Hn'). lia.
Qed.

(** A stream that does not exist yet yields no rows. *)
Lemma run_query_unknown db sid q begin :
  engine_wf A db -> q_stream q = sid -> streams db !! sid = None -> run_query db q begin = [].
Proof.
  intros ((_ & Hev) & _) Hq Hn. unfold run_query. rewrite Hq, Hn. specialize (Hev sid).
  rewrite Hn in Hev. unfold stream_events in Hev.
  rewrite (filter_none _ (events db)); [by destruct (Z.to_nat _)|].
  intros r Hr (Hs & _). assert (Hin : r ∈ filter (fun r => ev_stream r = sid) (events db))
    by (by apply list_elem_of_filter). rewrite Hev in Hin. by apply not_elem_of_nil in Hin.
Qed.

(** What a state answers to a query about a stream. *)
Lemma state_answers (seen : DB -> Prop) db db' sid q begin :
  q_stream q = sid -> seen db ->
  engine_wf A db -> engine_wf A db' -> grows db db' -> fits db' ->
  answers Unmarshal seen sid (history db' sid) q begin (inr (mkRows (run_query db q begin) None)).
Proof.
  intros Hq Hseen Hwf Hwf' Hg Hfit rs [= <-] _. cbn. destruct (streams db !! sid) as [n|] eqn:Hn.
  - right. exists n, db. split_and!; [done| |done]. apply (stored_earlier db); try done.
    by eapply (fits_earlier db db').
  - left. by eapply run_query_unknown.
Qed.
End execution.

(** ** Queries during an execution *)

(** How a query fails: before it yields rows, or after some of them. *)
Inductive fault : Type :=
| NoFault
| QueryFault (e : error)
| RowsFault (n : nat) (e : error).

(** The connection of a call whose [i]-th query sees the state [states i]. *)
Definition engine_conn (states : nat -> DB) (faults : nat -> fault) (i : nat) (q : SegmentQuery)
    (begin : Z) : error + Rows :=
  match faults i with
  | NoFault => inr (mkRows (run_query (states i) q begin) None)
  | QueryFault e => inl e
  | RowsFault n e => inr (mkRows (take n (run_query (states i) q begin)) (Some e))
  end.

(** [db] is a state of the execution that ends in [final]. *)
Definition during A A_outbound (final db : DB) : Prop :=
  rtc (engine_step A A_outbound) empty_db db /\ rtc (engine_step A A_outbound) db final.

Lemma during_wf A A_outbound final db :
  during A A_outbound final db -> engine_wf A db /\ engine_wf A final /\ grows db final.
Proof.
  intros [Hr Hs]. destruct (System.engine_steps_ok A A_outbound _ _ (System.empty_engine_wf A) Hr) as [Hwf _].
  by destruct (System.engine_steps_ok A A_outbound _ _ Hwf Hs).
Qed.

Lemma engine_conn_answers A A_outbound states faults final sid q i begin :
  q_stream q = sid -> (forall i, during A A_outbound final (states i)) -> fits final ->
  answers Unmarshal (fun db => exists i, db = states i) sid (history final sid) q begin
    (engine_conn states faults i q begin).
Proof.
  intros Hq Hd Hfit. unfold engine_conn. destruct (faults i) as [|e|n e].
  - destruct (during_wf _ _ _ _ (Hd i)) as (Hwf & Hwf' & Hg). by eapply state_answers; eauto.
  - by intros rs.
  - by intros rs [= <-].
Qed.
End log.

(** ** Properties *)

(** C15: the local source serves exactly what the handlers record.  While the
    transactions of all handlers of all nodes go on, each query of [Local.Read] sees
    some state of their execution, or fails, at once or after some rows; the read ends
    after at most one query more than there are matching events, has delivered the
    history of the stream contiguously, each segment with exactly the events of the
    requested types in its range, and returns nil only at the end that the stream had in
    a state that it saw. *)
Theorem local_source_reads_the_log `{M : Messaging} A A_outbound states faults final SegmentSize sid
    types fuel begin {S} (fn : callback S) s :
  (forall i, during A A_outbound final (states i)) -> fits final ->
  0 <= begin -> 0 < SegmentSize -> types <> Some ∅ ->
  (length (Local.remaining types (history final sid) begin) < fuel)%nat ->
  exists segs e err res,
    Local.Read Unmarshal fuel SegmentSize (engine_conn states faults) sid types begin fn s
      = Ret (Some res) /\
    chain sid (history final sid) types begin segs e /\ res = finish (deliver fn s segs) err /\
    (err = None -> res.2 = None -> exists i, streams (states i) !! sid = Some e).
Proof.
  intros Hd Hfit Hb Hsize Ht Hfuel.
  assert (Hans : forall i q b, q_stream q = sid ->
    answers Unmarshal (fun db => exists i, db = states i) sid (history final sid) q b
      (engine_conn states faults i q b)).
  { intros i q b Hq. by eapply engine_conn_answers. }
  set (query := Local.buildSegmentQuery SegmentSize sid types).
  assert (Hq : forall i b, answers Unmarshal (fun db => exists i, db = states i) sid (history final sid) query b
    (engine_conn states faults i query b)) by (intros; by apply Hans).
  destruct (Local.Read_loop_returns Unmarshal SegmentSize sid types (history final sid) Hsize _ _ fn Hq
    fuel 0 begin s Hb Hfuel) as [res Hres].
  destruct (Local.Read_loop_serves Unmarshal SegmentSize sid types (history final sid) Hsize _ _ fn Hq
    fuel 0 begin s res Hb Hres) as (segs & e & err & Hc & Hr & He).
  exists segs, e, err, res. split_and!; [|done|done|].
  - unfold Local.Read, panicIfEmpty. rewrite decide_False by lia.
    destruct types as [ts|]; [rewrite decide_False by congruence|]; cbn [mbind go_bind]; f_equal; exact Hres.
  - intros H1 H2. destruct (He H1 H2) as (db & (i & ->) & _ & Hs & _). by exists i.
Qed.

(** A read of the stream that the example of [System] records an event on. *)
Definition example_states (i : nat) : DB :=
  match i with O => System.example_executed | _ => System.example_recorded end.

Definition example_faults (i : nat) : fault := NoFault.

Lemma example_during i :
  during (M := Example.messaging) (fun _ => Aggregate.account) (fun _ => {[28%N]})
    System.example_recorded (example_states i).
Proof.
  destruct i; (split; [|try apply rtc_refl]).
  - apply rtc_once, (System.example_executes _).
  - apply rtc_once, (System.example_records _).
  - eapply rtc_l; [exact (System.example_executes _)|]. apply rtc_once, (System.example_records _).
Qed.

Lemma local_source_reads_the_log_witness :
  exists segs e err res,
    Local.Read (Unmarshal (Messaging := Example.messaging)) 2 10 (engine_conn (fun i => example_states (S i))
      example_faults) 40 None 0 recorder [] = Ret (Some res) /\
    chain 40 (history (M := Example.messaging) System.example_recorded 40) None 0 segs e /\
    res = finish (deliver recorder [] segs) err /\ length (res.1) = 1%nat.
Proof.
  destruct (local_source_reads_the_log (M := Example.messaging) _ _ (fun i => example_states (S i))
    example_faults System.example_recorded 10 40 None 2 0 recorder []
    (fun i => example_during (S i))) as (segs & e & err & res & Hr & Hc & He & _).
  - intros sid n. change (streams System.example_recorded) with (<[40%N := 1]> (∅ : gmap UUID Z)).
    intros [[_ <-]|[_ Hn]]%lookup_insert_Some; [reflexivity|]. by rewrite lookup_empty in Hn.
  - lia.
  - lia.
  - discriminate.
  - vm_compute. lia.
  - exists segs, e, err, res. split; [exact Hr|]. split; [exact Hc|]. split; [exact He|].
    vm_compute in Hr. injection Hr as <-. reflexivity.
Defined.
