(* ===== verification/Following.v ===== *)
(** * Following the event log

    The composition of the handlers' transactions ([System]), the triggers that signal
    what they record ([20-triggers.sql]), the signal bus with its connection
    ([Listener]) and the local source that follows the streams ([LocalWatch]): [discover]
    and [deliverStream] of [internal/eventstream/source/local.go] with the subscriptions
    on which they wait.  Everything interleaves, signals are dropped and connections lost,
    queries fail and are retried; [Run] of the source is not canceled. *)

From S2P Require Import Prelude Errors Stream Source Database Handler Marshal.
From S2P Require Signal Listener Local LocalWatch Aggregate System EventLog.
Import Listener (Net, mkNet, conn, stale, net_step, net_inv, notify).
Import LocalWatch (follower, loading, opened, next, followers, known, local, calls, watchStream,
  deliverStream_signal, deliverStream_load, Watch_begin, Watch_next, c_result).
Import EventLog (fault, NoFault, engine_conn, history, fits).

Abbreviation bus_of n := (Signal.bus (Listener.sys n)).

Section following.
Context `{M : Messaging} `{T : UUIDText}.
Context (A : UUID -> Aggregate.AggregateMessageHandler) (A_outbound : UUID -> gset UUID).
Context (BufferSize SegmentSize : Z).

(** ** The signals of a transaction *)

Definition create_topic (sid : UUID) : string := "eventstream.create." +:+ AsString sid.
Definition append_topic (sid : UUID) : string := "eventstream.append." +:+ AsString sid.

(** [signal_create] and [signal_append], for the rows that a transaction inserted; identical
    notifications of one transaction are delivered once. *)
Definition signals (db db' : DB) : list string :=
  remove_dups
    ((create_topic <$> elements (dom (streams db') ∖ dom (streams db))) ++
     ((fun r => append_topic (ev_stream r)) <$> drop (length (events db)) (events db'))).

(** The transaction commits. *)
Definition notify_one (n : Net) (topic : string) : Net :=
  mkNet (Listener.sys n) (notify topic (conn n)) (stale n ∪ Listener.watchers topic (bus_of n)).

Definition committed (topics : list string) (n : Net) : Net := foldl notify_one n topics.

(** ** The whole *)

(** The database, the bus of a node with its connection, its local source, the
    subscribers of its followers, and that of [discover] with whether it has received
    a signal that it has not acted on. *)
Record World := mkWorld {
  db : DB;
  net : Net;
  sys : LocalWatch.System;
  subs : gmap UUID nat;
  disc : option (nat * bool);
}.

Definition with_bus (b : Signal.Bus) (n : Net) : Net :=
  mkNet (Listener.with_bus b (Listener.sys n)) (conn n) (stale n).

(** A subscriber receives. *)
Definition received (p : nat) (b : Signal.Bus) (n : Net) : Net :=
  mkNet (Listener.with_bus b (Listener.sys n)) (conn n) (stale n ∖ {[p]}).

(** The subscribers of the source. *)
Definition owned (w : World) : gset nat :=
  match disc w with Some (d, _) => {[d]} | None => ∅ end ∪ list_to_set ((map_to_list (subs w)).*2).

(** What the bus does by itself, and for others. *)
Inductive foreign (own : gset nat) (n : Net) : Net -> Prop :=
| foreign_watching y' :
    Listener.watching (Listener.sys n) y' ->
    (forall p, p ∈ own -> p ∈ Signal.subscribers (bus_of n) -> p ∈ Signal.subscribers (Signal.bus y')) ->
    foreign own n (mkNet y' (conn n) (stale n))
| foreign_receive p v b' :
    p ∉ own -> Signal.receive p (bus_of n) = Some (v, b') -> foreign own n (received p b' n)
| foreign_send f ok topic :
    foreign own n (mkNet (Listener.sys n) (Listener.Send f ok topic (conn n)).2
      (if (if ok then true else bool_decide (f = None)) then stale n ∪ Listener.watchers topic (bus_of n)
       else stale n))
| foreign_run a c' b' :
    Listener.run_step a (conn n) (bus_of n) = Ret (c', b') ->
    foreign own n (mkNet (Listener.with_bus b' (Listener.sys n)) c' (stale n))
| foreign_retry e :
    conn n = Listener.Returned e -> foreign own n (mkNet (Listener.sys n) Listener.Connecting (stale n)).

Definition set_local (s : LocalWatch.Local) (sid : UUID) (f : follower) (y : LocalWatch.System)
    : LocalWatch.System :=
  LocalWatch.mkSystem s (known y) (<[sid := f]> (followers y)) (calls y).

(** The answers of the database to the queries of [loadWatchOffset] and [loadStreamIDs]. *)
Definition offset_answer (fault : option error) (db : DB) (sid : UUID) : error + option Z :=
  match fault with Some e => inl e | None => inr (streams db !! sid) end.

Definition ids_answer (fault : option error) (db : DB) : error + list UUID * option error :=
  match fault with Some e => inl e | None => inr (elements (dom (streams db)), None) end.

(** A follower whose [deliverStream] has returned ends its watch. *)
Definition after {B} (r : error + B) (sid : UUID) (subs : gmap UUID nat) : gmap UUID nat :=
  match r with inl _ => delete sid subs | inr _ => subs end.

Inductive step (w : World) : World -> Prop :=
| step_commit db' :
    System.engine_step A A_outbound (db w) db' ->
    step w (mkWorld db' (committed (signals (db w) db') (net w)) (sys w) (subs w) (disc w))
| step_bus n' :
    foreign (owned w) (net w) n' -> step w (mkWorld (db w) n' (sys w) (subs w) (disc w))
| step_discover_watch d b' :           (* discover: s.Signals.Watch *)
    disc w = None -> Signal.heap (bus_of (net w)) !! d = None ->
    Signal.Watch d "eventstream.create" 1 (bus_of (net w)) = Ret b' ->
    step w (mkWorld (db w) (with_bus b' (net w)) (sys w) (subs w) (Some (d, false)))
| step_discover_signal d v b' :
    disc w = Some (d, false) -> Signal.receive d (bus_of (net w)) = Some (v, b') ->
    step w (mkWorld (db w) (received d b' (net w)) (sys w) (subs w) (Some (d, true)))
| step_discover_load d fault :
    disc w = Some (d, true) ->
    step w (mkWorld (db w) (net w) (LocalWatch.discover (ids_answer fault (db w)) (sys w)) (subs w)
      (match fault with Some _ => None | None => Some (d, false) end))
| step_follow sid f p b' :             (* deliverStream: s.Signals.Watch *)
    followers (sys w) !! sid = Some f -> subs w !! sid = None ->
    Signal.heap (bus_of (net w)) !! p = None ->
    Signal.Watch p (append_topic sid) 1 (bus_of (net w)) = Ret b' ->
    step w (mkWorld (db w) (with_bus b' (net w)) (sys w) (<[sid := p]> (subs w)) (disc w))
| step_signal sid f p v b' fault f' s' :
    followers (sys w) !! sid = Some f -> loading f = false -> subs w !! sid = Some p ->
    Signal.receive p (bus_of (net w)) = Some (v, b') ->
    let r := deliverStream_signal BufferSize sid (offset_answer fault (db w) sid) f (local (sys w)) in
    watchStream sid r (local (sys w)) = Ret (f', s') ->
    step w (mkWorld (db w) (received p b' (net w)) (set_local s' sid f' (sys w)) (after r sid (subs w)) (disc w))
| step_load sid f p fault f' s' :
    followers (sys w) !! sid = Some f -> loading f = true -> subs w !! sid = Some p ->
    let answer := engine_conn (fun _ => db w) (fun _ => fault) 0
      (Local.buildSegmentQuery SegmentSize sid None) (next f) in
    let r := deliverStream_load BufferSize Unmarshal SegmentSize sid answer f (local (sys w)) in
    watchStream sid r (local (sys w)) = Ret (f', s') ->
    step w (mkWorld (db w) (net w) (set_local s' sid f' (sys w)) (after r sid (subs w)) (disc w))
| step_watch q types c s' :
    LocalWatch.heap (local (sys w)) !! q = None ->
    Watch_begin BufferSize q types (local (sys w)) = Ret (c, s') ->
    step w (mkWorld (db w) (net w)
      (LocalWatch.mkSystem s' (known (sys w)) (followers (sys w)) (<[q := c]> (calls (sys w))))
      (subs w) (disc w))
| step_next q ctx_err r c c' s' :
    calls (sys w) !! q = Some c -> c_result c = None ->
    Watch_next q ctx_err r c (local (sys w)) = Some (c', s') ->
    step w (mkWorld (db w) (net w)
      (LocalWatch.mkSystem s' (known (sys w)) (followers (sys w)) (<[q := c']> (calls (sys w))))
      (subs w) (disc w)).

Definition initial : World := mkWorld empty_db Listener.net_initial LocalWatch.initial ∅ None.

(** ** Subscribers *)

(** [p] is subscribed to [topic]. *)
Definition awaits (p : nat) (topic : string) (n : Net) : Prop :=
  p ∈ Signal.subscribers (bus_of n) /\
  exists sub, Signal.heap (bus_of n) !! p = Some sub /\ Signal.Topic sub = topic.

(** A signal was sent to [p] since it last received, or is in its channel. *)
Definition nudged (p : nat) (n : Net) : Prop :=
  p ∈ stale n \/ exists sub, Signal.heap (bus_of n) !! p = Some sub /\ Signal.channel sub <> [].

(** A change of the bus that takes nothing from [p]. *)
Definition undisturbed (p : nat) (n n' : Net) : Prop :=
  (p ∈ Signal.subscribers (bus_of n) -> p ∈ Signal.subscribers (bus_of n')) /\
  (p ∈ stale n -> p ∈ stale n') /\
  forall sub, Signal.heap (bus_of n) !! p = Some sub ->
    exists sub', Signal.heap (bus_of n') !! p = Some sub' /\ Signal.Topic sub' = Signal.Topic sub /\
      (Signal.channel sub <> [] -> Signal.channel sub' <> []).

#[local] Instance undisturbed_preorder p : PreOrder (undisturbed p).
Proof.
  split.
  - intros n. split_and!; try done. intros sub Hs. by exists sub.
  - intros n1 n2 n3 (H1 & H2 & H3) (I1 & I2 & I3). split_and!; auto. intros sub Hs.
    destruct (H3 sub Hs) as (s2 & Hs2 & Ht2 & Hc2). destruct (I3 s2 Hs2) as (s3 & Hs3 & Ht3 & Hc3).
    exists s3. split_and!; [done|congruence|auto].
Qed.

Lemma undisturbed_awaits p topic n n' : undisturbed p n n' -> awaits p topic n -> awaits p topic n'.
Proof.
  intros (H1 & _ & H3) (Hs & sub & Hp & Ht). split; [auto|]. destruct (H3 sub Hp) as (sub' & ? & ? & _).
  exists sub'. split; [done|congruence].
Qed.

Lemma undisturbed_nudged p n n' : undisturbed p n n' -> nudged p n -> nudged p n'.
Proof.
  intros (_ & H2 & H3) [Hp|(sub & Hp & Hc)]; [left; auto|]. right.
  destruct (H3 sub Hp) as (sub' & ? & _ & ?). eauto.
Qed.

Lemma sent_keeps v sub :
  Signal.Topic (Signal.sent v sub) = Signal.Topic sub /\
  (Signal.channel sub <> [] -> Signal.channel (Signal.sent v sub) <> []).
Proof. unfold Signal.sent. case_decide; cbn; split; try done. by destruct (Signal.channel sub). Qed.

(** A loop of the bus over its subscribers sends to some of them. *)
Lemma each_undisturbed p n h' g :
  (forall sub, Signal.Topic (g sub) = Signal.Topic sub /\
     (Signal.channel sub <> [] -> Signal.channel (g sub) <> [])) ->
  (forall q, h' !! q = if decide (q ∈ Signal.subscribers (bus_of n)) then g <$> Signal.heap (bus_of n) !! q
                       else Signal.heap (bus_of n) !! q) ->
  forall c, undisturbed p n (mkNet (Listener.with_bus
    (Signal.mkBus (Signal.subscribers (bus_of n)) h') (Listener.sys n)) c (stale n)).
Proof.
  intros Hg Hh c. split_and!; [done..|]. intros sub Hs. cbn. rewrite Hh, Hs.
  case_decide; [|by exists sub]. exists (g sub). split; [done|apply Hg].
Qed.

Lemma run_undisturbed p n a c' b' :
  Signal.inv (Listener.sys n) -> Listener.run_step a (conn n) (bus_of n) = Ret (c', b') ->
  undisturbed p n (mkNet (Listener.with_bus b' (Listener.sys n)) c' (stale n)).
Proof.
  intros Hi. assert (Hsame : forall c, undisturbed p n (mkNet (Listener.with_bus (bus_of n) (Listener.sys n)) c
    (stale n))).
  { intros c. split_and!; [done..|]. intros sub Hs. by exists sub. }
  destruct (Signal.wake_spec _ Hi) as (hw & Hw & Hhw).
  unfold Listener.run_step. destruct (conn n) as [| |q|[|t q]|e]; destruct a as [| |e' [e''|]];
    rewrite ?Hw; cbn [mbind go_bind]; try (intros [= <- <-]; apply Hsame);
    try (intros [= <- <-]; eapply (each_undisturbed _ _ _ _ (sent_keeps "")); exact Hhw).
  all: destruct (Signal.dispatch_spec t _ Hi) as (hd & Hd & Hhd); rewrite Hd; cbn [mbind go_bind];
    intros [= <- <-]; eapply each_undisturbed; [|exact Hhd]; intros sub; unfold Signal.dispatched;
    destruct (Signal.subtopicOf _ _); [apply sent_keeps|done].
Qed.

Lemma foreign_undisturbed own p n n' :
  Signal.inv (Listener.sys n) -> foreign own n n' -> p ∈ own -> undisturbed p n n'.
Proof.
  intros Hi Hf Hp. destruct Hf as [y' Hw Hk|q v b' Hq Hr|f ok topic|a c' b' Hr|e He].
  - split_and!; [by apply Hk|done|]. cbn. intros sub Hs.
    destruct Hw as [q topic cap b' Hq HW|q sub' Hq _ _|q b' Hq HC]; cbn in *.
    + unfold Signal.Watch in HW. case_decide; [done|]. injection HW as <-. cbn.
      rewrite lookup_insert_ne by congruence. by exists sub.
    + by exists sub.
    + unfold Signal.close_channel in HC. destruct (Signal.heap _ !! q) as [s|] eqn:Hsq; [|done].
      destruct (Signal.closed s); [done|]. injection HC as <-. cbn.
      destruct (decide (p = q)) as [->|Hne]; [|rewrite lookup_insert_ne by done; by exists sub].
      rewrite lookup_insert_eq. eexists. split; [done|]. cbn. by simplify_eq.
  - apply Listener.receive_inv in Hr as [Hs Hh].
    split_and!; cbn; [by rewrite Hs|set_solver|]. intros sub Hsub. rewrite Hh by (by intros ->). by exists sub.
  - split_and!; cbn; [done| |by intros sub; exists sub]. destruct ok, f; set_solver.
  - by eapply run_undisturbed.
  - split_and!; try done. intros sub Hs. by exists sub.
Qed.

Lemma foreign_net_step own n n' : foreign own n n' -> net_step n n'.
Proof.
  intros [y' Hw Hk|q v b' Hq Hr|f ok topic|a c' b' Hr|e He].
  - by apply Listener.net_watching.
  - by eapply Listener.net_receive.
  - apply Listener.net_send.
  - by eapply Listener.net_run.
  - by eapply Listener.net_retry.
Qed.

(** *** Committing *)

Lemma notify_one_step n topic : net_step n (notify_one n topic).
Proof. exact (Listener.net_send n None true topic). Qed.

Lemma committed_steps topics n : rtc net_step n (committed topics n).
Proof.
  revert n. induction topics as [|topic topics IH]; intros n; [apply rtc_refl|]. cbn.
  eapply rtc_l; [apply notify_one_step|]. apply IH.
Qed.

Lemma committed_same topics n :
  Listener.sys (committed topics n) = Listener.sys n /\ stale n ⊆ stale (committed topics n).
Proof.
  revert n. induction topics as [|topic topics IH]; intros n; [done|].
  change (committed (topic :: topics) n) with (committed topics (notify_one n topic)).
  destruct (IH (notify_one n topic)) as [-> Hs]. split; [done|]. cbn in Hs. set_solver.
Qed.

Lemma committed_undisturbed p topics n : undisturbed p n (committed topics n).
Proof.
  destruct (committed_same topics n) as [Hs Hst]. split_and!; [by rewrite Hs|set_solver|].
  intros sub Hsub. rewrite Hs. by exists sub.
Qed.

(** The subscribers of the topics of a transaction are nudged by it. *)
Lemma committed_nudged p topic topics n :
  awaits p topic n -> Exists (fun t => is_Some (Signal.subtopicOf topic t)) topics ->
  nudged p (committed topics n).
Proof.
  intros Ha He. left. revert n Ha. induction He as [t topics Ht|t topics _ IH]; intros n Ha; cbn.
  - destruct (committed_same topics (notify_one n t)) as [_ Hs]. apply Hs. cbn. apply elem_of_union. right.
    destruct Ha as (Hp & sub & Hsub & <-). unfold Listener.watchers. apply elem_of_filter. split; [|done].
    unfold Listener.watches. rewrite Hsub. by apply bool_decide_pack.
  - apply IH. apply (undisturbed_awaits p topic n); [apply (committed_undisturbed p [t])|done].
Qed.

Lemma subtopicOf_self topic : Signal.subtopicOf topic topic = Some "".
Proof. unfold Signal.subtopicOf. by rewrite decide_True. Qed.

Lemma subtopicOf_create sid : is_Some (Signal.subtopicOf "eventstream.create" (create_topic sid)).
Proof.
  exists (AsString sid). apply Signal.subtopicOf_hierarchy. right. unfold create_topic. done.
Qed.

(** A transaction that appends to a stream, or creates one, says so. *)
Lemma signals_append d d' sid n :
  System.engine_wf A d -> System.engine_wf A d' -> System.grows d d' ->
  streams d !! sid = Some n -> streams d' !! sid <> Some n -> append_topic sid ∈ signals d d'.
Proof.
  intros ((_ & Hw) & _) ((_ & Hw') & _) ((new & He) & Hs & _) Hn Hn'. specialize (Hw sid). specialize (Hw' sid).
  destruct (Hs sid n Hn) as (n' & Hd' & Hle). rewrite Hn in Hw. rewrite Hd' in Hw', Hn'.
  destruct Hw as [Ho H0]. destruct Hw' as [Ho' _]. unfold stream_events in *. rewrite He, filter_app, fmap_app, Ho in Ho'.
  destruct (filter (fun r => ev_stream r = sid) new) as [|r rest] eqn:Hf.
  { cbn in Ho'. rewrite app_nil_r in Ho'. apply (f_equal length) in Ho'. rewrite !length_seqZ in Ho'.
    destruct Hn'. f_equal. lia. }
  assert (Hin : r ∈ filter (fun r => ev_stream r = sid) new) by (rewrite Hf; left).
  apply list_elem_of_filter in Hin as [Hrs Hr]. unfold signals. apply elem_of_remove_dups, elem_of_app. right.
  rewrite He, drop_app_length. apply list_elem_of_fmap. exists r. by rewrite Hrs.
Qed.

Lemma signals_create d d' sid :
  streams d !! sid = None -> is_Some (streams d' !! sid) -> create_topic sid ∈ signals d d'.
Proof.
  intros Hn Hs. unfold signals. apply elem_of_remove_dups, elem_of_app. left.
  apply list_elem_of_fmap. exists sid. split; [done|]. apply elem_of_elements, elem_of_difference.
  split; [by apply elem_of_dom|by apply not_elem_of_dom].
Qed.

(** *** Loading *)

(** A follower that has loaded what the database holds is at the end of its stream. *)
Lemma load_settles d fault sid f s f' s' m :
  0 < SegmentSize -> System.engine_wf A d -> fits d -> 0 <= next f -> opened f = true ->
  deliverStream_load BufferSize Unmarshal SegmentSize sid
    (engine_conn (fun _ => d) (fun _ => fault) 0 (Local.buildSegmentQuery SegmentSize sid None) (next f)) f s
    = inr m -> m = Ret (f', s') ->
  opened f' = true /\ (loading f' = false -> streams d !! sid = Some (next f')).
Proof.
  intros Hsize Hwf Hfit Hn Hop. unfold deliverStream_load, engine_conn. destruct fault as [|e|k e].
  2: { done. }
  2: { destruct (Local.loadSegment_rows_err Unmarshal SegmentSize sid
         (Local.mkRows (take k (Local.run_query d (Local.buildSegmentQuery SegmentSize sid None) (next f))) (Some e))
         (next f) e eq_refl) as [e' ->]. done. }
  destruct (streams d !! sid) as [n|] eqn:Hs; last first.
  { by rewrite (EventLog.run_query_unknown A d sid). }
  assert (Hst : Local.stored Unmarshal sid (history d sid) n d).
  { apply (EventLog.stored_earlier A d d); try done. by eapply Hfit. }
  pose proof (Local.loadSegment_stored Unmarshal SegmentSize sid None (history d sid) Hsize (next f) n d Hst Hn) as H.
  cbn zeta in H. case_decide; [destruct H as [msg ->]; done|].
  destruct H as (seg & ex & -> & _ & Hb & _ & (Hle & _) & Hex). intros [= <-]. case_decide.
  - destruct (LocalWatch.deliver BufferSize seg s) as [s1|]; cbn; [|done]. intros [= <- _]. cbn.
    split; [done|]. destruct ex; [|done]. by rewrite Hex.
  - intros [= <- _]. cbn. split; [done|]. destruct ex; [|done]. intros _. f_equal. lia.
Qed.

(** ** The invariant *)

(** Every follower that waits is at the end of its stream, or will be woken. *)
Definition subs_ok (d : DB) (n : Net) (fs : gmap UUID follower) (subs : gmap UUID nat) : Prop :=
  forall sid p, subs !! sid = Some p -> exists f, fs !! sid = Some f /\ awaits p (append_topic sid) n /\
    (loading f = false -> (opened f = true /\ streams d !! sid = Some (next f)) \/ nudged p n).

(** [discover] knows every stream, or will be woken. *)
Definition disc_ok (d : DB) (n : Net) (kn : gset UUID) (subs : gmap UUID nat) (disc : option (nat * bool))
    : Prop :=
  forall q b, disc = Some (q, b) -> awaits q "eventstream.create" n /\
    (forall sid, subs !! sid <> Some q) /\ (b = false -> dom (streams d) ⊆ kn \/ nudged q n).

Definition subs_inj (subs : gmap UUID nat) : Prop :=
  forall s1 s2 p, subs !! s1 = Some p -> subs !! s2 = Some p -> s1 = s2.

Record world_inv (w : World) : Prop := mkInv {
  wi_engine : rtc (System.engine_step A A_outbound) empty_db (db w);
  wi_net : net_inv (net w);
  wi_watch : forall final, rtc (System.engine_step A A_outbound) (db w) final -> fits final ->
    LocalWatch.reachable BufferSize Unmarshal SegmentSize (history final) (sys w);
  wi_subs : subs_ok (db w) (net w) (followers (sys w)) (subs w);
  wi_inj : subs_inj (subs w);
  wi_disc : disc_ok (db w) (net w) (known (sys w)) (subs w) (disc w);
  wi_known : known (sys w) ⊆ dom (followers (sys w));
}.

Lemma subs_ok_undisturbed d n n' fs subs :
  (forall sid p, subs !! sid = Some p -> undisturbed p n n') -> subs_ok d n fs subs -> subs_ok d n' fs subs.
Proof.
  intros Hu Hok sid p Hp. destruct (Hok sid p Hp) as (f & Hf & Ha & Hs). specialize (Hu sid p Hp).
  exists f. split_and!; [done|by eapply undisturbed_awaits|]. intros Hl.
  destruct (Hs Hl); [by left|right; by eapply undisturbed_nudged].
Qed.

Lemma disc_ok_undisturbed d n n' kn subs disc :
  (forall q b, disc = Some (q, b) -> undisturbed q n n') -> disc_ok d n kn subs disc -> disc_ok d n' kn subs disc.
Proof.
  intros Hu Hok q b Hq. destruct (Hok q b Hq) as (Ha & Hn & Hs). specialize (Hu q b Hq).
  split_and!; [by eapply undisturbed_awaits|done|]. intros Hb.
  destruct (Hs Hb); [by left|right; by eapply undisturbed_nudged].
Qed.

Lemma received_undisturbed p q v b' n :
  Signal.receive p (bus_of n) = Some (v, b') -> q <> p -> undisturbed q n (received p b' n).
Proof.
  intros [Hs Hh]%Listener.receive_inv Hne. split_and!; cbn; [by rewrite Hs|set_solver|].
  intros sub Hsub. rewrite Hh by done. by exists sub.
Qed.

Lemma received_awaits p v b' n topic :
  Signal.receive p (bus_of n) = Some (v, b') -> awaits p topic n -> awaits p topic (received p b' n).
Proof.
  unfold Signal.receive. intros Hr (Hs & sub & Hsub & Ht). rewrite Hsub in Hr.
  destruct (Signal.channel sub); [done|]. injection Hr as _ <-. split; [done|]. cbn.
  rewrite lookup_insert_eq. eexists. by split.
Qed.

Lemma watch_undisturbed p topic b' n q :
  Signal.heap (bus_of n) !! p = None -> Signal.Watch p topic 1 (bus_of n) = Ret b' ->
  undisturbed q n (with_bus b' n) /\ awaits p topic (with_bus b' n) /\ nudged p (with_bus b' n) /\
  net_step n (with_bus b' n).
Proof.
  intros Hp Hw. split_and!.
  2-3: unfold Signal.Watch in Hw; rewrite decide_False in Hw by lia; injection Hw as <-.
  - unfold Signal.Watch in Hw. rewrite decide_False in Hw by lia. injection Hw as <-.
    split_and!; cbn; [set_solver|done|]. intros sub Hs. exists sub. rewrite lookup_insert_ne by congruence. done.
  - split; cbn; [set_solver|]. rewrite lookup_insert_eq. eexists. by split.
  - right. cbn. rewrite lookup_insert_eq. eexists. by split.
  - apply Listener.net_watching. by apply (Listener.watching_watch _ p topic 1).
Qed.

Lemma elem_of_owned w p sid : subs w !! sid = Some p -> p ∈ owned w.
Proof.
  intros Hp. unfold owned. apply elem_of_union. right. apply elem_of_list_to_set, list_elem_of_fmap.
  exists (sid, p). split; [done|]. by apply elem_of_map_to_list.
Qed.

Lemma elem_of_owned_disc w q b : disc w = Some (q, b) -> q ∈ owned w.
Proof. intros Hq. unfold owned. rewrite Hq. set_solver. Qed.

Lemma net_steps_inv n n' : net_inv n -> rtc net_step n n' -> net_inv n'.
Proof. intros Hi. induction 1; [done|]. eauto using Listener.net_step_inv. Qed.

Lemma reachable_wf w : world_inv w -> System.engine_wf A (db w).
Proof.
  intros Hi. by destruct (System.engine_steps_ok A A_outbound _ _ (System.empty_engine_wf A) (wi_engine w Hi)).
Qed.

Lemma commit_inv w db' :
  world_inv w -> System.engine_step A A_outbound (db w) db' ->
  world_inv (mkWorld db' (committed (signals (db w) db') (net w)) (sys w) (subs w) (disc w)).
Proof.
  intros Hi Hs. pose proof (reachable_wf w Hi) as Hwf.
  destruct (System.engine_step_ok A A_outbound _ _ Hwf Hs) as [Hwf' Hg]. destruct Hi as [He Hn Hw Hsub Hinj Hdisc Hk].
  set (topics := signals (db w) db') in *. split; cbn [db net sys subs disc]; try done.
  - by eapply rtc_r.
  - eapply net_steps_inv; [done|apply committed_steps].
  - intros final Hf. apply Hw. by eapply rtc_l.
  - intros sid p Hp. destruct (Hsub sid p Hp) as (f & Hf & Ha & Hset).
    pose proof (committed_undisturbed p topics (net w)) as Hu.
    exists f. split_and!; [done|by eapply undisturbed_awaits|]. intros Hl.
    destruct (Hset Hl) as [[Hop Hst]|Hnd]; [|right; by eapply undisturbed_nudged].
    destruct (decide (streams db' !! sid = Some (next f))) as [Heq|Hne]; [by left|]. right.
    eapply committed_nudged; [exact Ha|]. apply Exists_exists. exists (append_topic sid).
    split; [by eapply (signals_append _ _ _ (next f))|]. rewrite subtopicOf_self. by eexists.
  - intros q b Hq. destruct (Hdisc q b Hq) as (Ha & Hns & Hset).
    pose proof (committed_undisturbed q topics (net w)) as Hu.
    split_and!; [by eapply undisturbed_awaits|done|]. intros Hb.
    destruct (Hset Hb) as [Hsubset|Hnd]; [|right; by eapply undisturbed_nudged].
    destruct (set_choose_or_empty (dom (streams db') ∖ known (sys w))) as [[sid Hin]|Hemp]; [|left; set_solver].
    right. eapply committed_nudged; [exact Ha|]. apply Exists_exists. exists (create_topic sid).
    split; [|apply subtopicOf_create]. apply signals_create.
    + apply not_elem_of_dom. set_solver.
    + apply elem_of_dom. set_solver.
Qed.

(** Followers other than [sid] are as they were. *)
Lemma subs_ok_other d n n' fs sm sid f' p :
  subs_ok d n fs sm -> subs_inj sm -> sm !! sid = Some p ->
  (forall q, q <> p -> undisturbed q n n') ->
  subs_ok d n' (<[sid := f']> fs) (delete sid sm).
Proof.
  intros Hok Hinj Hp Hu sid' q [Hne Hq]%lookup_delete_Some. destruct (Hok sid' q Hq) as (f & Hf & Ha & Hs).
  assert (Hqp : q <> p) by (intros ->; apply Hne; by eapply Hinj). specialize (Hu q Hqp).
  exists f. rewrite lookup_insert_ne by done. split_and!; [done|by eapply undisturbed_awaits|]. intros Hl.
  destruct (Hs Hl); [by left|right; by eapply undisturbed_nudged].
Qed.

(** ... and [sid] is as given. *)
Lemma subs_ok_insert d n n' fs sm sid f' p :
  subs_ok d n fs sm -> subs_inj sm -> sm !! sid = Some p ->
  (forall q, q <> p -> undisturbed q n n') -> awaits p (append_topic sid) n' ->
  (loading f' = false -> (opened f' = true /\ streams d !! sid = Some (next f')) \/ nudged p n') ->
  subs_ok d n' (<[sid := f']> fs) sm.
Proof.
  intros Hok Hinj Hp Hu Ha Hs sid' q Hq. destruct (decide (sid' = sid)) as [->|Hne].
  - rewrite Hp in Hq. injection Hq as <-. exists f'. by rewrite lookup_insert_eq.
  - apply (subs_ok_other d n n' fs sm sid f' p Hok Hinj Hp Hu). by rewrite lookup_delete_ne.
Qed.

Lemma subs_inj_delete sid sm : subs_inj sm -> subs_inj (delete sid sm).
Proof. intros Hi s1 s2 p [_ H1]%lookup_delete_Some [_ H2]%lookup_delete_Some. by eapply Hi. Qed.

Lemma after_lookup {B} (r : error + B) sid sm sid' p :
  after r sid sm !! sid' = Some p -> sm !! sid' = Some p.
Proof. destruct r; [|done]. cbn. by intros [_ ?]%lookup_delete_Some. Qed.

Lemma disc_ok_subs d n kn sm sm' dc :
  (forall sid p, sm' !! sid = Some p -> sm !! sid = Some p) -> disc_ok d n kn sm dc -> disc_ok d n kn sm' dc.
Proof.
  intros Hsub Hok q b Hq. destruct (Hok q b Hq) as (? & Hn & ?). split_and!; [done| |done].
  intros sid Hs. by apply (Hn sid), Hsub.
Qed.

(** A follower goes on, or its [deliverStream] returns. *)
Lemma follower_inv w n' sid f p r f' s' :
  world_inv w -> followers (sys w) !! sid = Some f -> subs w !! sid = Some p ->
  net_inv n' -> (forall q, q <> p -> undisturbed q (net w) n') -> awaits p (append_topic sid) n' ->
  (forall final, rtc (System.engine_step A A_outbound) (db w) final -> fits final ->
     LocalWatch.step BufferSize Unmarshal SegmentSize (history final) (sys w) (set_local s' sid f' (sys w))) ->
  (forall m, r = inr m -> m = Ret (f', s') -> loading f' = false ->
     opened f' = true /\ streams (db w) !! sid = Some (next f')) ->
  watchStream sid r (local (sys w)) = Ret (f', s') ->
  world_inv (mkWorld (db w) n' (set_local s' sid f' (sys w)) (after r sid (subs w)) (disc w)).
Proof.
  intros [He Hn Hw Hsub Hinj Hdisc Hk] Hf Hp Hn' Hu Ha Hstep Hset Hr.
  split; cbn [db net sys subs disc set_local followers known]; try done.
  - intros final Hfin Hfit. eapply rtc_r; [by apply Hw|by apply Hstep].
  - destruct r as [e|m]; cbn [after].
    + by eapply subs_ok_other.
    + eapply subs_ok_insert; try done. cbn in Hr. intros Hl. left. by eapply Hset.
  - destruct r; [by apply subs_inj_delete|done].
  - eapply disc_ok_subs; [apply after_lookup|]. eapply disc_ok_undisturbed; [|exact Hdisc].
    intros q b Hq. apply Hu. intros ->. destruct (Hdisc p b Hq) as (_ & Hns & _). by apply (Hns sid).
  - rewrite dom_insert_L. set_solver.
Qed.

Lemma signal_loading sid answer f s m f' s' :
  deliverStream_signal BufferSize sid answer f s = inr m -> m = Ret (f', s') -> loading f' = true.
Proof.
  unfold deliverStream_signal. destruct (opened f); [by intros [= <-] [= <- _]|].
  destruct (Local.loadWatchOffset answer); [done|]. intros [= <-].
  destruct (LocalWatch.deliver _ _ _); cbn; [|done]. by intros [= <- _].
Qed.

Lemma load_answers w fault final q b :
  world_inv w -> rtc (System.engine_step A A_outbound) (db w) final -> fits final ->
  Local.answers Unmarshal (fun _ => True) (Local.q_stream q) (history final (Local.q_stream q)) q b
    (engine_conn (fun _ => db w) (fun _ => fault) 0 q b).
Proof.
  intros Hi Hf Hfit rs Hrs Herr.
  destruct (EventLog.engine_conn_answers A A_outbound (fun _ => db w) (fun _ => fault) final (Local.q_stream q)
    q 0 b eq_refl (fun _ => conj (wi_engine w Hi) Hf) Hfit rs Hrs Herr) as [?|(n & d & _ & ?)]; [by left|].
  right. by exists n, d.
Qed.

(** A change of the watchers only. *)
Lemma calls_inv w s' cs :
  world_inv w ->
  (forall final, LocalWatch.step BufferSize Unmarshal SegmentSize (history final) (sys w)
     (LocalWatch.mkSystem s' (known (sys w)) (followers (sys w)) cs)) ->
  world_inv (mkWorld (db w) (net w) (LocalWatch.mkSystem s' (known (sys w)) (followers (sys w)) cs)
    (subs w) (disc w)).
Proof.
  intros [He Hn Hw Hsub Hinj Hdisc Hk] Hstep. split; try done.
  intros final Hf Hfit. eapply rtc_r; [by apply Hw|apply Hstep].
Qed.

Lemma discover_inv w d fault :
  world_inv w -> disc w = Some (d, true) ->
  world_inv (mkWorld (db w) (net w) (LocalWatch.discover (ids_answer fault (db w)) (sys w)) (subs w)
    (match fault with Some _ => None | None => Some (d, false) end)).
Proof.
  intros [He Hn Hw Hsub Hinj Hdisc Hk] Hd.
  assert (Hw' : forall final, rtc (System.engine_step A A_outbound) (db w) final -> fits final ->
    LocalWatch.reachable BufferSize Unmarshal SegmentSize (history final)
      (LocalWatch.discover (ids_answer fault (db w)) (sys w))).
  { intros final Hf Hfit. eapply rtc_r; [by apply Hw|apply LocalWatch.step_discover]. }
  destruct fault as [e|]; [by split|].
  destruct (Hdisc d true Hd) as (Ha & Hns & _). split; cbn [db net sys subs disc]; try done.
  - intros sid p Hp. destruct (Hsub sid p Hp) as (f & Hf & Hrest). exists f. split; [|done].
    cbn. by apply lookup_union_Some_l.
  - intros q b [= <- <-]. split_and!; [done..|]. intros _. left. cbn.
    intros sid Hin. apply elem_of_union. destruct (decide (sid ∈ known (sys w))); [by left|right].
    apply elem_of_difference. split; [|done]. apply elem_of_list_to_set. by apply elem_of_elements.
  - cbn. rewrite dom_union_L, dom_gset_to_gmap. set_solver.
Qed.

(** A subscriber that is known is not a new one. *)
Lemma awaits_heap p topic n q : awaits p topic n -> Signal.heap (bus_of n) !! q = None -> p <> q.
Proof. intros (_ & sub & Hs & _) Hq ->. congruence. Qed.

Lemma discover_watch_inv w d b' :
  world_inv w -> disc w = None -> Signal.heap (bus_of (net w)) !! d = None ->
  Signal.Watch d "eventstream.create" 1 (bus_of (net w)) = Ret b' ->
  world_inv (mkWorld (db w) (with_bus b' (net w)) (sys w) (subs w) (Some (d, false))).
Proof.
  intros [He Hn Hw Hsub Hinj Hdisc Hk] Hd Hfree Hwatch.
  destruct (watch_undisturbed d _ b' (net w) d Hfree Hwatch) as (_ & Ha & Hnd & Hstep).
  split; cbn [db net sys subs disc]; try done.
  - by eapply Listener.net_step_inv.
  - eapply subs_ok_undisturbed; [|done]. intros sid p _. by eapply watch_undisturbed.
  - intros q b [= <- <-]. split_and!; [done| |by right]. intros sid Hs.
    destruct (Hsub sid d Hs) as (f & _ & Haw & _). by apply (awaits_heap _ _ _ d) in Haw.
Qed.

Lemma follow_inv w sid f p b' :
  world_inv w -> followers (sys w) !! sid = Some f -> subs w !! sid = None ->
  Signal.heap (bus_of (net w)) !! p = None -> Signal.Watch p (append_topic sid) 1 (bus_of (net w)) = Ret b' ->
  world_inv (mkWorld (db w) (with_bus b' (net w)) (sys w) (<[sid := p]> (subs w)) (disc w)).
Proof.
  intros [He Hn Hw Hsub Hinj Hdisc Hk] Hf Hnone Hfree Hwatch.
  destruct (watch_undisturbed p _ b' (net w) p Hfree Hwatch) as (_ & Ha & Hnd & Hstep).
  assert (Hother : forall sid' q, subs w !! sid' = Some q -> q <> p).
  { intros sid' q Hq. destruct (Hsub sid' q Hq) as (f' & _ & Haw & _). by eapply awaits_heap. }
  assert (Hu : forall q, undisturbed q (net w) (with_bus b' (net w))) by (intros q; by eapply watch_undisturbed).
  split; cbn [db net sys subs disc]; try done.
  - by eapply Listener.net_step_inv.
  - intros sid' q [[<- <-]|[Hne Hq]]%lookup_insert_Some.
    + exists f. split_and!; [done..|]. by right.
    + by apply (subs_ok_undisturbed _ _ _ _ _ (fun _ q _ => Hu q) Hsub).
  - intros s1 s2 q [[<- <-]|[H1 Hq1]]%lookup_insert_Some [[<- Hq2]|[H2 Hq2]]%lookup_insert_Some; try done.
    + by edestruct (Hother s2).
    + subst. by edestruct (Hother s1).
    + by eapply Hinj.
  - intros q b Hq. destruct (disc_ok_undisturbed _ _ _ _ _ _ (fun q _ _ => Hu q) Hdisc q b Hq) as (Ha' & Hns & ?).
    split_and!; [done| |done]. intros sid' [[_ <-]|[_ Hs]]%lookup_insert_Some; [|by apply (Hns sid')].
    destruct (Hdisc p b Hq) as (Haw & _). by apply (awaits_heap _ _ _ p) in Haw.
Qed.

Lemma world_step_inv w w' :
  0 < SegmentSize -> fits (db w) -> world_inv w -> step w w' -> world_inv w'.
Proof.
  intros Hsize Hfit Hi Hs. pose proof Hi as [He Hn Hw Hsub Hinj Hdisc Hk].
  destruct Hs as [db' Hs|n' Hf|d b' Hd Hfree Hwatch|d v b' Hd Hr|d fault Hd|sid f p b' Hf Hnone Hfree Hwatch|
    sid f p v b' fault f' s' Hf Hl Hp Hr r Hs|sid f p fault f' s' Hf Hl Hp answer r Hs|q types c s' Hq Hs|
    q ctx_err r c c' s' Hq Hc Hs].
  - by apply commit_inv.
  - split; cbn [db net sys subs disc]; try done.
    + eapply Listener.net_step_inv; [done|by eapply foreign_net_step].
    + eapply subs_ok_undisturbed; [|done]. intros sid p Hp.
      eapply foreign_undisturbed; [apply Hn|done|by eapply elem_of_owned].
    + eapply disc_ok_undisturbed; [|done]. intros q b Hq.
      eapply foreign_undisturbed; [apply Hn|done|by eapply elem_of_owned_disc].
  - by apply discover_watch_inv.
  - destruct (Hdisc d false Hd) as (Ha & Hns & _). split; cbn [db net sys subs disc]; try done.
    + eapply Listener.net_step_inv; [done|]. by eapply Listener.net_receive.
    + eapply subs_ok_undisturbed; [|done]. intros sid p Hp. eapply received_undisturbed; [done|].
      intros ->. by apply (Hns sid).
    + intros q b [= <- <-]. split_and!; [by eapply received_awaits|done..].
  - by apply discover_inv.
  - by eapply follow_inv.
  - destruct (Hsub sid p Hp) as (f0 & _ & Ha & _). eapply follower_inv; try done.
    + eapply Listener.net_step_inv; [done|]. by eapply Listener.net_receive.
    + intros q Hne. by eapply received_undisturbed.
    + by eapply received_awaits.
    + intros final _ _. by eapply LocalWatch.step_signal.
    + intros m Hm Hret Hload. apply (signal_loading _ _ _ _ _ _ _ Hm) in Hret. congruence.
  - destruct (Hsub sid p Hp) as (f0 & _ & Ha & _).
    pose proof (LocalWatch.watch_reachable_inv _ _ _ _ _ Hsize (Hw (db w) (rtc_refl _ _) Hfit)) as Hlw.
    pose proof (LocalWatch.inv_loading _ _ Hlw sid f Hf Hl) as Hop.
    destruct (LocalWatch.inv_followers _ _ Hlw sid f Hf) as [Hnx _].
    eapply follower_inv; try done.
    + intros final Hfin Hfit'. eapply LocalWatch.step_load; [done|done| |exact Hs].
      apply (load_answers w fault final (Local.buildSegmentQuery SegmentSize sid None)); done.
    + intros m Hm Hret Hload.
      destruct (load_settles (db w) fault sid f (local (sys w)) f' s' m) as [? ?]; try done; [|by split; auto].
      by apply reachable_wf.
  - apply calls_inv; [done|]. intros final. by eapply LocalWatch.step_watch.
  - apply calls_inv; [done|]. intros final. by eapply LocalWatch.step_next.
Qed.

Lemma step_engine w w' : step w w' -> rtc (System.engine_step A A_outbound) (db w) (db w').
Proof. intros []; try apply rtc_refl. by apply rtc_once. Qed.

Lemma initial_inv : world_inv initial.
Proof.
  split; [apply rtc_refl|apply Listener.net_reachable_inv, rtc_refl|intros final _ _; apply rtc_refl|..].
  - intros sid p [=].
  - intros s1 s2 p [=].
  - done.
  - done.
Qed.

Lemma world_reachable_inv w :
  0 < SegmentSize -> rtc step initial w -> fits (db w) -> world_inv w.
Proof.
  intros Hsize Hr. cut (rtc (System.engine_step A A_outbound) empty_db (db w) /\ (fits (db w) -> world_inv w)).
  { by intros [_ ?]. }
  revert w Hr. apply (rtc_ind_r (fun w => _ /\ (fits (db w) -> world_inv w))).
  - split; [apply rtc_refl|]. intros _. apply initial_inv.
  - intros w w' _ Hs [He Hi]. pose proof (step_engine _ _ Hs) as Hst. split; [by etransitivity|]. intros Hfit.
    destruct (System.engine_steps_ok A A_outbound _ _ (System.empty_engine_wf A) He) as [Hwf _].
    destruct (System.engine_steps_ok A A_outbound _ _ Hwf Hst) as [_ Hg].
    pose proof (EventLog.fits_earlier _ _ Hg Hfit). by eapply world_step_inv; eauto.
Qed.

(** ** Quiet *)

(** The connection waits and has nothing to receive, and so do [discover] and every
    follower; nothing is left to do until there is a transaction. *)
Definition idle (n : Net) (p : nat) : Prop :=
  exists sub, Signal.heap (bus_of n) !! p = Some sub /\ Signal.channel sub = [].

Definition quiet (w : World) : Prop :=
  conn (net w) = Listener.Waiting [] /\
  (exists d, disc w = Some (d, false) /\ idle (net w) d) /\
  forall sid f, followers (sys w) !! sid = Some f ->
    loading f = false /\ exists p, subs w !! sid = Some p /\ idle (net w) p.

Lemma idle_not_nudged n p topic :
  net_inv n -> conn n = Listener.Waiting [] -> awaits p topic n -> idle n p -> ~ nudged p n.
Proof.
  intros Hi Hc (Hp & _) (sub & Hs & Hch) [Hst|(sub' & Hs' & Hch')].
  - destruct (Listener.net_stale n Hi p Hst Hp) as (sub' & Hs' & [Hch'|Hpe]); [congruence|].
    rewrite Hc in Hpe. by inversion Hpe.
  - congruence.
Qed.

Lemma quiet_offsets w sid n :
  0 < SegmentSize -> world_inv w -> fits (db w) -> quiet w -> streams (db w) !! sid = Some n ->
  LocalWatch.offsets (local (sys w)) !! sid = Some n.
Proof.
  intros Hsize [He Hn Hw Hsub Hinj Hdisc Hk] Hfit (Hc & (d & Hd & Hidle) & Hf) Hs.
  destruct (Hdisc d false Hd) as (Ha & _ & Hset).
  destruct (Hset eq_refl) as [Hknown|Hnd]; [|by destruct (idle_not_nudged _ _ _ Hn Hc Ha Hidle)].
  assert (Hin : sid ∈ dom (followers (sys w))) by (apply Hk, Hknown; by eapply elem_of_dom_2).
  apply elem_of_dom in Hin as [f Hfo]. destruct (Hf sid f Hfo) as (Hl & p & Hp & Hip).
  destruct (Hsub sid p Hp) as (f0 & Hf0 & Hap & Hs0). rewrite Hfo in Hf0. injection Hf0 as <-.
  destruct (Hs0 Hl) as [[Hop Hst]|Hnd]; [|by destruct (idle_not_nudged _ _ _ Hn Hc Hap Hip)].
  pose proof (LocalWatch.watch_reachable_inv _ _ _ _ _ Hsize (Hw (db w) (rtc_refl _ _) Hfit)) as Hlw.
  destruct (LocalWatch.inv_followers _ _ Hlw sid f Hfo) as [_ ->]. rewrite Hop. congruence.
Qed.

End following.

(** ** Executions

    The steps of the node as a function of what is scheduled. *)

Inductive action : Type :=
| ARun (a : Listener.answer)
| ADiscoverWatch (d : nat)
| ADiscoverSignal
| ADiscoverLoad (fault : option error)
| AFollow (sid : UUID) (p : nat)
| ASignal (sid : UUID) (fault : option error)
| ALoad (sid : UUID) (f : fault)
| AWatch (q : nat) (types : Types)
| ANext (q : nat) (ctx_err r : option error).

Section execution.
Context `{M : Messaging} `{T : UUIDText}.
Context (A : UUID -> Aggregate.AggregateMessageHandler) (A_outbound : UUID -> gset UUID).
Context (BufferSize SegmentSize : Z).

Definition commit (db' : DB) (w : World) : World :=
  mkWorld db' (committed (signals (db w) db') (net w)) (sys w) (subs w) (disc w).

Definition exec_follower (w : World) (n' : Net) (sid : UUID) (r : error + go (follower * LocalWatch.Local))
    : option World :=
  match watchStream sid r (local (sys w)) with
  | Ret (f', s') => Some (mkWorld (db w) n' (set_local s' sid f' (sys w)) (after r sid (subs w)) (disc w))
  | Panic _ => None
  end.

Definition exec (a : action) (w : World) : option World :=
  let b := bus_of (net w) in
  match a with
  | ARun a =>
      match Listener.run_step a (conn (net w)) b with
      | Ret (c', b') => Some (mkWorld (db w) (mkNet (Listener.with_bus b' (Listener.sys (net w))) c' (stale (net w)))
                          (sys w) (subs w) (disc w))
      | Panic _ => None
      end
  | ADiscoverWatch d =>
      match disc w, Signal.heap b !! d, Signal.Watch d "eventstream.create" 1 b with
      | None, None, Ret b' => Some (mkWorld (db w) (with_bus b' (net w)) (sys w) (subs w) (Some (d, false)))
      | _, _, _ => None
      end
  | ADiscoverSignal =>
      match disc w with
      | Some (d, false) =>
          '(_, b') ← Signal.receive d b;
          Some (mkWorld (db w) (received d b' (net w)) (sys w) (subs w) (Some (d, true)))
      | _ => None
      end
  | ADiscoverLoad fault =>
      match disc w with
      | Some (d, true) =>
          Some (mkWorld (db w) (net w) (LocalWatch.discover (ids_answer fault (db w)) (sys w)) (subs w)
            (match fault with Some _ => None | None => Some (d, false) end))
      | _ => None
      end
  | AFollow sid p =>
      match followers (sys w) !! sid, subs w !! sid, Signal.heap b !! p, Signal.Watch p (append_topic sid) 1 b with
      | Some _, None, None, Ret b' =>
          Some (mkWorld (db w) (with_bus b' (net w)) (sys w) (<[sid := p]> (subs w)) (disc w))
      | _, _, _, _ => None
      end
  | ASignal sid fault =>
      match followers (sys w) !! sid, subs w !! sid with
      | Some f, Some p =>
          if loading f then None else
          '(_, b') ← Signal.receive p b;
          exec_follower w (received p b' (net w)) sid
            (deliverStream_signal BufferSize sid (offset_answer fault (db w) sid) f (local (sys w)))
      | _, _ => None
      end
  | ALoad sid fl =>
      match followers (sys w) !! sid, subs w !! sid with
      | Some f, Some _ =>
          if loading f then
            exec_follower w (net w) sid
              (deliverStream_load BufferSize Unmarshal SegmentSize sid
                 (engine_conn (fun _ => db w) (fun _ => fl) 0 (Local.buildSegmentQuery SegmentSize sid None) (next f))
                 f (local (sys w)))
          else None
      | _, _ => None
      end
  | AWatch q types =>
      match LocalWatch.heap (local (sys w)) !! q, Watch_begin BufferSize q types (local (sys w)) with
      | None, Ret (c, s') =>
          Some (mkWorld (db w) (net w)
            (LocalWatch.mkSystem s' (known (sys w)) (followers (sys w)) (<[q := c]> (calls (sys w))))
            (subs w) (disc w))
      | _, _ => None
      end
  | ANext q ctx_err r =>
      match calls (sys w) !! q with
      | Some c =>
          match c_result c with
          | Some _ => None
          | None =>
              '(c', s') ← Watch_next q ctx_err r c (local (sys w));
              Some (mkWorld (db w) (net w)
                (LocalWatch.mkSystem s' (known (sys w)) (followers (sys w)) (<[q := c']> (calls (sys w))))
                (subs w) (disc w))
          end
      | None => None
      end
  end.

Definition execs (l : list action) (w : World) : option World := foldl (fun o a => o ≫= exec a) (Some w) l.

Lemma exec_follower_inr w n' sid r w' :
  exec_follower w n' sid r = Some w' -> exists f' s', watchStream sid r (local (sys w)) = Ret (f', s') /\
    w' = mkWorld (db w) n' (set_local s' sid f' (sys w)) (after r sid (subs w)) (disc w).
Proof. unfold exec_follower. destruct (watchStream _ _ _) as [[f' s']|]; [|done]. intros [= <-]. eauto. Qed.

Lemma exec_step a w w' : exec a w = Some w' -> step A A_outbound BufferSize SegmentSize w w'.
Proof.
  destruct a as [a|d| |fl|sid p|sid fl|sid fl|q types|q ctx_err r]; cbn.
  - destruct (Listener.run_step _ _ _) as [[c' b']|] eqn:Hr; [|done]. intros [= <-].
    apply step_bus. by eapply foreign_run.
  - destruct (disc w) eqn:Hd; [done|]. destruct (_ !! d) eqn:Hh; [done|].
    destruct (Signal.Watch _ _ _ _) eqn:Hw; [|done]. intros [= <-]. by eapply step_discover_watch.
  - destruct (disc w) as [[d []]|] eqn:Hd; [done| |done]. destruct (Signal.receive _ _) as [[v b']|] eqn:Hr; [|done].
    intros [= <-]. by eapply step_discover_signal.
  - destruct (disc w) as [[d []]|] eqn:Hd; [|done..]. intros [= <-]. by eapply step_discover_load.
  - destruct (followers _ !! sid) eqn:Hf; [|done]. destruct (subs w !! sid) eqn:Hs; [done|].
    destruct (Signal.heap _ !! p) eqn:Hh; [done|]. destruct (Signal.Watch _ _ _ _) eqn:Hw; [|done].
    intros [= <-]. by eapply step_follow.
  - destruct (followers _ !! sid) as [f|] eqn:Hf; [|done]. destruct (subs w !! sid) eqn:Hs; [|done].
    destruct (loading f) eqn:Hl; [done|]. destruct (Signal.receive _ _) as [[v b']|] eqn:Hr; [|done].
    intros (f' & s' & Hw & ->)%exec_follower_inr. by eapply step_signal.
  - destruct (followers _ !! sid) as [f|] eqn:Hf; [|done]. destruct (subs w !! sid) eqn:Hs; [|done].
    destruct (loading f) eqn:Hl; [|done]. intros (f' & s' & Hw & ->)%exec_follower_inr. by eapply step_load.
  - destruct (_ !! q) eqn:Hq; [done|]. destruct (Watch_begin _ _ _ _) as [[c s']|] eqn:Hw; [|done].
    intros [= <-]. by eapply step_watch.
  - destruct (calls _ !! q) as [c|] eqn:Hc; [|done]. destruct (c_result c) eqn:Hres; [done|].
    destruct (Watch_next _ _ _ _ _) as [[c' s']|] eqn:Hn; [|done]. intros [= <-]. by eapply step_next.
Qed.

Lemma execs_steps l w w' : execs l w = Some w' -> rtc (step A A_outbound BufferSize SegmentSize) w w'.
Proof.
  revert w'. induction l as [|a l IH] using rev_ind; intros w'; [intros [= <-]; apply rtc_refl|].
  unfold execs. rewrite foldl_app. cbn. fold (execs l w). destruct (execs l w) as [w1|] eqn:He; [|done].
  cbn. intros Ha%exec_step. eapply rtc_r; [by apply IH|done].
Qed.
End execution.

(** ** Properties *)

(** C9: no event is ever missed by those who follow the streams.  The handlers of all
    nodes record events and create streams, signals are dropped by full channels, the
    connection of the bus fails and is replaced, the queries of the source fail and it
    starts again, calls to [Watch] begin and end, in any order.  At every moment what a
    call has been given of a stream begins with the empty segment that opens it and is
    contiguous, each segment holding exactly the events of the call's types within its
    range, and no transaction that follows records an event within what was given.
    Whenever the node is quiet, nothing being left in a channel or in the queue of the
    connection and no query in progress, the source has announced every stream of the
    database up to its end; and a watcher that is still registered and has received what
    was sent to it has been given every event of each stream that is of its types, from
    where the stream was opened to its end. *)
Theorem followers_miss_nothing `{M : Messaging} `{T : UUIDText} A A_outbound BufferSize SegmentSize w :
  0 < SegmentSize -> rtc (step A A_outbound BufferSize SegmentSize) initial w -> fits (db w) ->
  (forall q c sid final, calls (sys w) !! q = Some c ->
     rtc (System.engine_step A A_outbound) (db w) final -> fits final ->
     exists b e, chain sid (history final sid) (LocalWatch.c_types c) b (of_stream sid (LocalWatch.c_log c)) e /\
       LocalWatch.opens sid b (of_stream sid (LocalWatch.c_log c))) /\
  (quiet w ->
   (forall sid n, streams (db w) !! sid = Some n -> LocalWatch.offsets (local (sys w)) !! sid = Some n) /\
   (forall q c sid n, calls (sys w) !! q = Some c -> q ∈ LocalWatch.watchers (local (sys w)) ->
      LocalWatch.c_openings c = [] -> LocalWatch.Segments <$> LocalWatch.heap (local (sys w)) !! q = Some [] ->
      streams (db w) !! sid = Some n ->
      exists b rest, of_stream sid (LocalWatch.c_log c) = LocalWatch.opening sid b :: rest /\
        chain sid (history (db w) sid) (LocalWatch.c_types c) b (of_stream sid (LocalWatch.c_log c)) n)).
Proof.
  intros Hsize Hr Hfit. pose proof (world_reachable_inv _ _ _ _ _ Hsize Hr Hfit) as Hi. split.
  { intros q c sid final Hc Hfin Hfit'.
    destruct (LocalWatch.Watch_contiguous BufferSize Unmarshal SegmentSize (history final) (sys w) q c sid Hsize
      (wi_watch _ _ _ _ _ Hi final Hfin Hfit') Hc) as (b & e & Hch & Hop & _).
    by exists b, e. }
  intros Hq. assert (Hoff : forall sid n, streams (db w) !! sid = Some n ->
    LocalWatch.offsets (local (sys w)) !! sid = Some n) by (intros; by eapply quiet_offsets).
  split; [done|]. intros q c sid n Hc Hin Hop Hseg Hs.
  destruct (LocalWatch.Watch_quiet BufferSize Unmarshal SegmentSize (history (db w)) (sys w) q c sid n Hsize
    (wi_watch _ _ _ _ _ Hi (db w) (rtc_refl _ _) Hfit) Hc Hin Hop Hseg (Hoff sid n Hs)) as (b & rest & ? & ?).
  by exists b, rest.
Qed.

(** ** An example *)

Section example.
#[local] Existing Instance Example.messaging.

#[local, refine] Instance digits : UUIDText := {|
  AsString id := Example.digits (N.succ_pos id);
  MarshalText id := inr (Example.digits (N.succ_pos id));
  UnmarshalText s := inr (Pos.pred_N (Example.undigits s));
|}.
Proof. intros id s [= <-]. rewrite Example.undigits_digits. by rewrite N.pos_pred_succ. Defined.

(** The bus connects while a call watches; the first event is recorded, and its stream
    is discovered and followed; then the second is recorded. *)
Definition example_executed : DB := System.example_execute 2 [] System.example_recorded.
Definition example_recorded : DB := System.example_record 2 200 example_executed.

Definition example_run (l : list action) (w : World) : World := default w (execs 5 10 l w).

Definition example_w1 : World :=
  example_run [ARun Listener.Ok; ARun Listener.Ok; ARun Listener.Ok; ADiscoverWatch 0; AWatch 0 None] initial.
Definition example_w2 : World := commit System.example_recorded (commit System.example_executed example_w1).
Definition example_w3 : World :=
  example_run [ARun Listener.Ok; ARun Listener.Ok; ADiscoverSignal; ADiscoverLoad None; AFollow 40 1;
    ASignal 40 None; ALoad 40 NoFault] example_w2.
Definition example_w4 : World := commit example_recorded (commit example_executed example_w3).
Definition example_w5 : World :=
  example_run [ARun Listener.Ok; ASignal 40 None; ALoad 40 NoFault; ANext 0 None None; ANext 0 None None] example_w4.

Lemma example_commits db1 db2 w w' l :
  System.example_step (db w) db1 -> System.example_step db1 db2 ->
  execs 5 10 l (commit db2 (commit db1 w)) = Some w' ->
  rtc (step (fun _ => Aggregate.account) (fun _ => {[28%N]}) 5 10) w w'.
Proof.
  intros H1 H2 He. eapply rtc_l; [by apply step_commit|]. eapply rtc_l; [by apply (step_commit _ _ _ _ (commit db1 w))|].
  by eapply execs_steps.
Qed.

Lemma example_world_reachable : rtc (step (fun _ => Aggregate.account) (fun _ => {[28%N]}) 5 10) initial example_w5.
Proof.
  etransitivity; [eapply (execs_steps _ _ _ _ [ARun Listener.Ok; ARun Listener.Ok; ARun Listener.Ok;
    ADiscoverWatch 0; AWatch 0 None] initial example_w1); vm_compute; reflexivity|].
  transitivity example_w3.
  - eapply (example_commits System.example_executed System.example_recorded example_w1 example_w3).
    + exact (System.example_executes _).
    + exact (System.example_records _).
    + instantiate (1 := [ARun Listener.Ok; ARun Listener.Ok; ADiscoverSignal; ADiscoverLoad None; AFollow 40 1;
        ASignal 40 None; ALoad 40 NoFault]). vm_compute. reflexivity.
  - eapply (example_commits example_executed example_recorded example_w3 example_w5).
    + assert (db example_w3 = System.example_recorded) as -> by (vm_compute; reflexivity).
      apply System.example_execute_step. eexists _, _. vm_compute. reflexivity.
    + apply System.example_record_step. eexists. vm_compute. reflexivity.
    + instantiate (1 := [ARun Listener.Ok; ASignal 40 None; ALoad 40 NoFault; ANext 0 None None;
        ANext 0 None None]). vm_compute. reflexivity.
Qed.

Lemma example_quiet : quiet example_w5.
Proof.
  split; [vm_compute; reflexivity|]. split.
  - exists 0%nat. split; [vm_compute; reflexivity|]. eexists. split; vm_compute; reflexivity.
  - intros sid f Hf. assert (Hfs : followers (sys example_w5) = {[40%N := LocalWatch.mkFollower 2 true false]})
      by (vm_compute; reflexivity).
    rewrite Hfs in Hf. apply lookup_singleton_Some in Hf as [<- <-].
    split; [reflexivity|]. exists 1%nat. split; [vm_compute; reflexivity|]. eexists. split; vm_compute; reflexivity.
Qed.

Lemma example_world_fits w : streams (db w) = {[40%N := 2]} -> fits (db w).
Proof. intros Hs sid n. rewrite Hs. intros [_ <-]%lookup_singleton_Some. reflexivity. Qed.

Lemma followers_miss_nothing_witness :
  LocalWatch.offsets (local (sys example_w5)) !! 40%N = Some 2 /\
  exists c b e rest, calls (sys example_w5) !! 0%nat = Some c /\ length (LocalWatch.c_log c) = 2%nat /\
    chain 40 (history (db example_w5) 40) None b (of_stream 40 (LocalWatch.c_log c)) e /\
    of_stream 40 (LocalWatch.c_log c) = LocalWatch.opening 40 1 :: rest /\
    chain 40 (history (db example_w5) 40) None 1 (of_stream 40 (LocalWatch.c_log c)) 2.
Proof.
  assert (Hfit : fits (db example_w5)) by (apply example_world_fits; vm_compute; reflexivity).
  destruct (followers_miss_nothing (fun _ => Aggregate.account) (fun _ => {[28%N]}) 5 10 example_w5 ltac:(lia)
    example_world_reachable Hfit) as [Hsafe Hquiet].
  destruct (Hquiet example_quiet) as [Hoff Hcalls].
  split; [apply Hoff; vm_compute; reflexivity|].
  destruct (calls (sys example_w5) !! 0%nat) as [c|] eqn:Hc; [|vm_compute in Hc; discriminate].
  pose proof Hc as Hv. vm_compute in Hv. injection Hv as <-.
  destruct (Hcalls _ _ 40%N 2 Hc) as (b1 & rest & Hopn & Hch); [vm_compute; reflexivity..|].
  destruct (Hsafe _ _ 40%N (db example_w5) Hc (rtc_refl _ _) Hfit) as (b & e & Hs & _).
  eexists _, b, e, rest. split; [reflexivity|]. split; [reflexivity|]. split; [exact Hs|].
  assert (b1 = 1) as -> by (vm_compute in Hopn; congruence). split; [exact Hopn|exact Hch].
Defined.
End example.
