(* ===== verification/Pipeline.v ===== *)
(** * From a command to the effects of its events

    The event log, the local source and the consumers of a process handler, composed
    over one database: the transactions of every other handler go on ([System]), while
    any number of consumers, on any node, read the checkpoint, load segments of the
    stream from the database ([Local]) and consume their events one transaction at a
    time ([Process]).  A consumer may stop at any point and be replaced by another.

    [advance] is the next thing that a consumer does, the pieces of [loadSegment] and of
    [ConsumeSegment]; [ConsumeSegment_turns] shows that a call of [ConsumeSegment] is
    a sequence of them.  What the whole system does to the database is what
    [Process.apply_step] allows, which says what it means to apply an event:
    [steps_refine]. *)

From S2P Require Import Prelude Errors Stream Database Handler.
From S2P Require Local Aggregate System Process EventLog.
Import Local (mkRows, run_query, buildSegmentQuery, loadSegment).
Import System (transaction, engine_step, engine_wf, grows).
Import EventLog (history, end_of, fits).
Import Process (consume, CheckpointOffset, checkpoint, set_checkpoint, dispatch, apply_step).

Section pipeline.
Context `{P : Process.ProcessMessageHandler}.
Context (A : UUID -> Aggregate.AggregateMessageHandler) (A_outbound : UUID -> gset UUID).
Context (key : UUID) (outbound : gset UUID) (sid : UUID) (types : Types).

(** ** Consumers *)

(** A consumer with checkpoint [cp] that is about to load the segment from [begin], or
    has the events [es] of a segment that ends at [hi] left. *)
Inductive consumer : Type :=
| Reading (cp begin : Z)
| Consuming (cp hi : Z) (es : list Envelope).

(** The segment from [begin], as the database is now. *)
Definition load (SegmentSize : Z) (db : DB) (begin : Z) : error + Segment * bool :=
  loadSegment Unmarshal SegmentSize
    (inr (mkRows (run_query db (buildSegmentQuery SegmentSize sid types) begin) None)) sid begin.

(** A consumer's next action: the consumer, unless it stops, and the database. *)
Definition advance (SegmentSize : Z) (env : TxEnv) (w : World) (c : consumer) (db : DB)
    : go (option consumer * DB) :=
  match c with
  | Reading cp begin =>
      match load SegmentSize db begin with
      | inl _ => Ret (None, db)
      | inr (seg, _) =>
          if decide (seg_end seg > seg_begin seg)
          then Ret (Some (Consuming cp (seg_end seg) (seg_envelopes seg)), db)
          else Ret (Some (Reading cp begin), db)
      end
  | Consuming cp hi [] =>
      if decide (cp < hi) then
        match consume key outbound env w sid cp hi None db with
        | (next, true, None, db') => Ret (Some (Reading next hi), db')
        | (_, _, _, db') => Ret (None, db')
        end
      else Ret (Some (Reading cp hi), db)
  | Consuming cp hi (e :: es) =>
      offset ← offsetOf e;
      if decide (offset < cp) then Ret (Some (Consuming cp hi es), db)
      else
        match consume key outbound env w sid cp (u64 (offset + 1)) (Some e) db with
        | (next, true, None, db') => Ret (Some (Consuming next hi es), db')
        | (_, _, _, db') => Ret (None, db')
        end
  end.

(** ** The system *)

(** Every transaction of the engine but those by which the handler consumes the stream. *)
Definition elsewhere : relation DB := transaction A A_outbound (fun k s => (k, s) <> (key, sid)).

(** The database and the consumers. *)
Record pipeline := mkPipeline {
  pl_db : DB;
  pl_consumers : gmap nat consumer;
}.

Definition initial : pipeline := mkPipeline empty_db ∅.

Inductive step : pipeline -> pipeline -> Prop :=
| pl_other db db' cs : elsewhere db db' -> step (mkPipeline db cs) (mkPipeline db' cs)
| pl_start i cp db cs :
    cs !! i = None -> CheckpointOffset key None sid db = inr cp ->
    step (mkPipeline db cs) (mkPipeline db (<[i := Reading cp cp]> cs))
| pl_advance i SegmentSize env w c c' db db' cs :
    0 < SegmentSize -> cs !! i = Some c -> advance SegmentSize env w c db = Ret (c', db') ->
    step (mkPipeline db cs) (mkPipeline db' (partial_alter (fun _ => c') i cs))
| pl_stop i db cs :
    step (mkPipeline db cs) (mkPipeline db (delete i cs)).

(** What a consumer has is of the stream, and its checkpoint is not ahead. *)
Definition consumer_ok (db : DB) (c : consumer) : Prop :=
  match c with
  | Reading cp begin => 0 <= begin <= cp /\ cp <= checkpoint key sid db
  | Consuming cp hi es =>
      cp <= checkpoint key sid db /\
      exists lo, 0 <= lo <= cp /\ lo <= hi <= end_of db sid /\ es = between types lo hi (history db sid)
  end.

Definition pipeline_ok (s : pipeline) : Prop :=
  engine_wf A (pl_db s) /\ 0 <= checkpoint key sid (pl_db s) <= end_of (pl_db s) sid /\
  map_Forall (fun _ => consumer_ok (pl_db s)) (pl_consumers s).

(** ** The invariant *)

Lemma between_stable db db' lo hi :
  engine_wf A db -> engine_wf A db' -> grows db db' -> hi <= end_of db sid ->
  between types lo hi (history db' sid) = between types lo hi (history db sid).
Proof.
  intros Hwf Hwf' Hg Hhi. destruct (EventLog.history_grows A db db' sid Hwf Hwf' Hg) as (rest & -> & Hr).
  by apply (between_extend sid _ _ _ (end_of db sid) (end_of db' sid)).
Qed.

Lemma end_of_grows db db' : grows db db' -> engine_wf A db' -> end_of db sid <= end_of db' sid.
Proof.
  intros (_ & Hs & _) Hwf. unfold end_of. destruct (streams db !! sid) as [n|] eqn:Hn.
  - destruct (Hs sid n Hn) as (n' & -> & ?). cbn. lia.
  - apply (in_range_le sid _ _ (history db' sid)). by apply (EventLog.history_bounds A).
Qed.

Lemma consumer_ok_grows db db' c :
  engine_wf A db -> engine_wf A db' -> grows db db' -> checkpoint key sid db <= checkpoint key sid db' ->
  consumer_ok db c -> consumer_ok db' c.
Proof.
  intros Hwf Hwf' Hg Hck. destruct c as [cp begin|cp hi es]; cbn; [lia|].
  intros (Hcp & lo & Hlo & Hhi & ->). split; [lia|]. exists lo. pose proof (end_of_grows db db' Hg Hwf').
  split_and!; try lia. symmetry. apply between_stable; try done. lia.
Qed.

(** A transaction of a consumer, for the whole system. *)
Lemma consume_step env w cp next ev db r db' :
  engine_wf A db -> consume key outbound env w sid cp next ev db = (r, db') ->
  engine_step A A_outbound db db' /\ engine_wf A db' /\ grows db db' /\
  end_of db' sid = end_of db sid /\ history db' sid = history db sid.
Proof.
  intros Hwf Hc. assert (Hs : engine_step A A_outbound db db') by (by eapply System.sys_event).
  destruct (System.engine_step_ok A A_outbound _ _ Hwf Hs) as [Hwf' Hg].
  apply System.consume_frame in Hc as [(He & Hst & _) _]. split_and!; try done.
  - unfold end_of. by rewrite Hst.
  - unfold history, stream_events. by rewrite He.
Qed.

Lemma load_ok SegmentSize db begin seg ex :
  0 < SegmentSize -> engine_wf A db -> fits db -> 0 <= begin ->
  load SegmentSize db begin = inr (seg, ex) ->
  seg_begin seg = begin /\ faithful (history db sid) types seg /\ seg_end seg <= end_of db sid /\
  (seg_end seg <= begin -> begin = end_of db sid).
Proof.
  intros Hsize Hwf Hfit Hb Hl. unfold end_of. destruct (streams db !! sid) as [n|] eqn:Hn; last first.
  { unfold load in Hl. by rewrite (EventLog.run_query_unknown A db sid) in Hl. }
  assert (Hst : Local.stored Unmarshal sid (history db sid) n db).
  { apply (EventLog.stored_earlier A); try done. by eapply Hfit. }
  pose proof (Local.loadSegment_stored Unmarshal SegmentSize sid types (history db sid) Hsize begin n db Hst Hb)
    as Hs. cbn zeta in Hs. fold (load SegmentSize db begin) in Hs. rewrite Hl in Hs.
  case_decide as Hgt; [by destruct Hs|]. destruct Hs as (seg' & ex' & [= <- <-] & Hld).
  destruct Hld as (_ & Hbg & Hle & Hf & Hex). split_and!; try done. intros Hend. cbn.
  destruct ex; [lia|]. destruct Hf as [Hle' Hf].
  rewrite Hf, between_empty, len_nil in Hex by lia. lia.
Qed.

(** What an action of a consumer does to the database: nothing, or what applying the next
    event does. *)
Definition moves (h : list Envelope) (db db' : DB) : Prop :=
  db' = db \/ forall E log, exists log', apply_step key outbound sid h types E (db, log) (db', log').

(** What it keeps. *)
Definition kept (db db' : DB) : Prop :=
  (db' = db \/ engine_step A A_outbound db db') /\ engine_wf A db' /\ grows db db' /\
  checkpoint key sid db <= checkpoint key sid db' <= end_of db sid /\ moves (history db sid) db db'.

Definition log_ok (db : DB) : Prop :=
  engine_wf A db /\ 0 <= checkpoint key sid db <= end_of db sid.

Lemma kept_unchanged db : log_ok db -> kept db db.
Proof. intros [Hwf Hck]. split_and!; try (done || lia); by left. Qed.

(** The outcome of a transaction for the event [ev], which is the only one before [next] and
    not before [cp]. *)
Lemma consume_kept env w cp next ev db r ok err db' :
  log_ok db -> next <= end_of db sid -> cp <= next ->
  between types cp next (history db sid) = option_list ev ->
  (forall e, ev = Some e -> next = off e + 1) ->
  consume key outbound env w sid cp next ev db = (r, ok, err, db') ->
  kept db db' /\ (ok = true -> err = None /\ r = next /\ checkpoint key sid db' = next).
Proof.
  intros [Hwf Hck] Hnext Hcp Hb Hoff Hc.
  destruct (consume_step _ _ _ _ _ _ _ _ Hwf Hc) as (Hs & Hwf' & Hg & He & Hh). unfold kept.
  apply Process.consume_cases in Hc as [(-> & -> & -> & Hc & _ & db1 & -> & Hd)|(-> & Hc & _)].
  - rewrite Process.checkpoint_set. split_and!; try (done || lia); [by right|]. right. intros E log.
    destruct ev as [e|].
    + exists (log ++ [e]). rewrite (Hoff e eq_refl) in *. eapply Process.apply_event; [|exact Hd].
      by rewrite Hc.
    + exists log. subst db1. apply Process.apply_skip; rewrite Hc; done.
  - split; [|done]. destruct Hc as [->| ->]; [by apply kept_unchanged|].
    rewrite Process.checkpoint_set. split_and!; try (done || lia); [by right|]. right. intros E log. exists log.
    apply Process.apply_skip; [lia|]. apply between_empty. lia.
Qed.

Lemma advance_ok SegmentSize env w c db :
  0 < SegmentSize -> fits db -> log_ok db -> consumer_ok db c ->
  exists c' db', advance SegmentSize env w c db = Ret (c', db') /\ kept db db' /\
    forall c1, c' = Some c1 -> consumer_ok db' c1.
Proof.
  intros Hsize Hfit Hok. pose proof (kept_unchanged _ Hok) as Hrefl. pose proof Hok as [Hwf Hck].
  pose proof (EventLog.history_bounds A db sid Hwf) as Hr.
  destruct c as [cp begin|cp hi [|e es]]; cbn [consumer_ok advance].
  - intros [Hb Hcp]. destruct (load SegmentSize db begin) as [err|[seg ex]] eqn:Hl.
    { eexists _, _. by split_and!. }
    destruct (load_ok _ _ _ _ _ Hsize Hwf Hfit (proj1 Hb) Hl) as (Hbg & [_ Hf] & Hend & _).
    case_decide; (eexists _, _; split_and!; [done|done|]); intros c1 [= <-]; [|done].
    split; [done|]. exists begin. subst begin. split_and!; (done || lia).
  - intros (Hcp & lo & Hlo & Hhi & Hes). case_decide as Hlt; last first.
    { eexists _, _. split_and!; [done..|]. intros c1 [= <-]. cbn. lia. }
    destruct (consume _ _ _ _ _ _ _ _ _) as [[[r ok] err] db'] eqn:Hc.
    assert (Hle : cp <= hi) by lia.
    assert (Hnone : between types cp hi (history db sid) = [])
      by (by rewrite <- (between_sub types lo hi), <- Hes by lia).
    destruct (consume_kept _ _ _ _ None _ _ _ _ _ Hok (proj2 Hhi) Hle Hnone ltac:(done) Hc) as [Hk Hyes].
    destruct ok; [destruct (Hyes eq_refl) as (-> & -> & Hck')|]; (eexists _, _; split_and!; [done|done|]); [|done].
    intros c1 [= <-]. cbn. lia.
  - intros (Hcp & lo & Hlo & Hhi & Hes).
    destruct (between_head sid types 0 _ lo hi _ e es Hr ltac:(lia) (eq_sym Hes))
      as (Hoff & Hpos & _ & _ & Hrest & Hhead).
    rewrite (offsetOf_positioned _ _ Hpos). cbn [mbind go_bind]. case_decide as Hlt.
    { eexists _, _. split_and!; [done..|]. intros c1 [= <-]. split; [done|]. exists (off e + 1).
      split_and!; try lia. exact Hrest. }
    assert (Hmax : off e + 1 < u64_modulus).
    { unfold end_of in Hhi. destruct (streams db !! sid) as [n|] eqn:Hn; cbn in Hhi; [|lia].
      pose proof (Hfit _ _ Hn). lia. }
    rewrite u64_id by (unfold is_u64; lia). destruct (consume _ _ _ _ _ _ _ _ _) as [[[r ok] err] db'] eqn:Hc.
    assert (Hle : off e + 1 <= end_of db sid) by lia. assert (Hge : cp <= off e + 1) by lia.
    destruct (consume_kept _ _ _ _ (Some e) _ _ _ _ _ Hok Hle Hge (Hhead cp ltac:(lia))
      ltac:(by intros ? [= <-]) Hc) as [Hk Hyes].
    destruct ok; [destruct (Hyes eq_refl) as (-> & -> & Hck')|]; (eexists _, _; split_and!; [done|done|]); [|done].
    intros c1 [= <-]. cbn. split; [lia|]. destruct (consume_step _ _ _ _ _ _ _ _ Hwf Hc) as (_ & _ & _ & He & Hh).
    exists (off e + 1). rewrite He, Hh. split_and!; try lia. exact Hrest.
Qed.

Lemma elsewhere_checkpoint db db' : elsewhere db db' -> checkpoint key sid db' = checkpoint key sid db.
Proof.
  intros Hs. unfold checkpoint. apply (System.transaction_checkpoint _ _ _ key sid) in Hs; [by rewrite Hs|].
  intros Hn. by apply Hn.
Qed.

Lemma step_db s s' : step s s' -> engine_wf A (pl_db s) ->
  rtc (engine_step A A_outbound) (pl_db s) (pl_db s').
Proof.
  intros Hs Hwf. destruct Hs as [db db' cs He| |i SegmentSize env w c c' db db' cs _ _ Ha|]; cbn in *;
    try apply rtc_refl; [by eapply rtc_once, System.transaction_engine_step|].
  assert (Hc : forall cp next ev r ok err, consume key outbound env w sid cp next ev db = (r, ok, err, db') ->
    rtc (engine_step A A_outbound) db db').
  { intros cp next ev r ok err Hc. apply rtc_once. by eapply System.sys_event. }
  unfold advance in Ha. destruct c as [cp begin|cp hi [|e es']].
  - destruct (load _ _ _) as [|[seg ex]]; [|case_decide]; injection Ha as <- <-; apply rtc_refl.
  - case_decide; [|injection Ha as <- <-; apply rtc_refl].
    destruct (consume _ _ _ _ _ _ _ _ _) as [[[r [|]] [?|]] db1] eqn:E; injection Ha as <- <-; by eapply Hc.
  - destruct (offsetOf e); cbn in Ha; [|done]. case_decide; [injection Ha as <- <-; apply rtc_refl|].
    destruct (consume _ _ _ _ _ _ _ _ _) as [[[r [|]] [?|]] db1] eqn:E; injection Ha as <- <-; by eapply Hc.
Qed.

Lemma pipeline_ok_consumers db cs cs' :
  pipeline_ok (mkPipeline db cs) -> map_Forall (fun _ => consumer_ok db) cs' ->
  pipeline_ok (mkPipeline db cs').
Proof. intros (Hwf & Hck & _) Hcs. exact (conj Hwf (conj Hck Hcs)). Qed.

(** The database moves on and the consumers stay as they are. *)
Lemma pipeline_ok_grows db db' cs :
  engine_wf A db' -> grows db db' -> checkpoint key sid db <= checkpoint key sid db' <= end_of db' sid ->
  pipeline_ok (mkPipeline db cs) -> pipeline_ok (mkPipeline db' cs).
Proof.
  intros Hwf' Hg Hck' (Hwf & Hck & Hcs). cbn in *. split; [done|]. split; [cbn; lia|].
  intros i c Hi. apply (consumer_ok_grows db); [done..|cbn; lia|by apply (Hcs i)].
Qed.

Lemma step_ok s s' : fits (pl_db s) -> pipeline_ok s -> step s s' -> pipeline_ok s'.
Proof.
  intros Hfit Hok Hs. destruct Hs as [db db' cs He|i cp db cs Hi Hcp|
    i SegmentSize env w c c' db db' cs Hsize Hi Ha|i db cs].
  - pose proof Hok as (Hwf & Hck & _). cbn in *.
    pose proof (elsewhere_checkpoint _ _ He) as Hc. apply System.transaction_engine_step in He.
    destruct (System.engine_step_ok A A_outbound _ _ Hwf He) as [Hwf' Hg].
    pose proof (end_of_grows _ _ Hg Hwf'). apply (pipeline_ok_grows db); try done. rewrite Hc. lia.
  - apply (pipeline_ok_consumers _ cs); [done|]. destruct Hok as (_ & Hck & Hcs). cbn in *.
    apply map_Forall_insert_2; [|done].
    assert (cp = checkpoint key sid db) as ->; [|cbn; lia]. unfold CheckpointOffset, checkpoint in *.
    by destruct (checkpoints db !! _); injection Hcp as <-.
  - pose proof Hok as (Hwf & Hck & Hcs).
    destruct (advance_ok SegmentSize env w c db Hsize Hfit (conj Hwf Hck) (Hcs _ _ Hi))
      as (c1 & db1 & Ha' & (_ & Hwf1 & Hg & Hck1 & _) & Hc1).
    rewrite Ha in Ha'. injection Ha' as <- <-. pose proof (end_of_grows _ _ Hg Hwf1).
    assert (Hnew : pipeline_ok (mkPipeline db' cs)) by (apply (pipeline_ok_grows db); try done; lia).
    eapply pipeline_ok_consumers; [exact Hnew|].
    destruct Hnew as (_ & _ & Hcs'). intros j cj. destruct (decide (j = i)) as [->|Hne].
    + rewrite lookup_partial_alter_eq. by apply Hc1.
    + rewrite lookup_partial_alter_ne by done. by apply Hcs'.
  - apply (pipeline_ok_consumers _ cs); [done|]. apply map_Forall_delete. by apply Hok.
Qed.

Lemma initial_ok : pipeline_ok initial.
Proof. split; [apply System.empty_engine_wf|]. split; [by vm_compute|]. apply map_Forall_empty. Qed.

Lemma steps_db s s' : rtc step s s' -> engine_wf A (pl_db s) ->
  rtc (engine_step A A_outbound) (pl_db s) (pl_db s') /\ engine_wf A (pl_db s') /\ grows (pl_db s) (pl_db s').
Proof.
  intros Hr Hwf. cut (rtc (engine_step A A_outbound) (pl_db s) (pl_db s')).
  { intros Hs. split; [done|]. by apply (System.engine_steps_ok A A_outbound). }
  revert Hwf. induction Hr as [s|s1 s2 s3 Hs _ IH]; intros Hwf; [apply rtc_refl|].
  pose proof (step_db _ _ Hs Hwf) as Hdb. etransitivity; [exact Hdb|]. apply IH.
  by apply (System.engine_steps_ok A A_outbound _ _ Hwf).
Qed.

Lemma reachable_pipeline_ok s s' :
  rtc step s s' -> pipeline_ok s -> fits (pl_db s') -> pipeline_ok s'.
Proof.
  induction 1 as [s|s1 s2 s3 Hs Hr IH]; intros Hok Hfit; [done|].
  assert (Hwf2 : engine_wf A (pl_db s2)).
  { pose proof (step_db _ _ Hs (proj1 Hok)) as Hdb.
    by apply (System.engine_steps_ok A A_outbound _ _ (proj1 Hok)) in Hdb as [? _]. }
  destruct (steps_db _ _ Hr Hwf2) as (_ & _ & Hg2).
  pose proof (step_db _ _ Hs (proj1 Hok)) as Hdb.
  destruct (System.engine_steps_ok A A_outbound _ _ (proj1 Hok) Hdb) as [_ Hg1].
  apply IH; [|done]. eapply step_ok; [|done..]. eapply EventLog.fits_earlier; [exact Hg1|].
  by eapply EventLog.fits_earlier.
Qed.

Lemma reachable_ok s : rtc step initial s -> fits (pl_db s) -> pipeline_ok s.
Proof. intros Hr. apply (reachable_pipeline_ok initial); [done|apply initial_ok]. Qed.

(** ** The refinement *)

(** What a history says of the events before the end of the stream, a longer one does. *)
Lemma moves_later db db' final E log :
  engine_wf A db -> engine_wf A final -> grows db final ->
  checkpoint key sid db' <= end_of db sid ->
  moves (history db sid) db db' ->
  exists log', rtc (apply_step key outbound sid (history final sid) types E) (db, log) (db', log').
Proof.
  intros Hwf Hwf' Hg Hck [->|Hm]; [exists log; apply rtc_refl|]. destruct (Hm (fun _ _ => False) log) as [log' Hs].
  exists log'. apply rtc_once.
  inversion Hs as [? ? ? []|w e ? db1 ? Hn He|next ? ? Hle Hb]; subst; rewrite Process.checkpoint_set in Hck.
  - eapply Process.apply_event; [|exact He]. unfold Process.next_event in *. rewrite <- Hn. by apply between_stable.
  - apply Process.apply_skip; [done|]. rewrite <- Hb. by apply between_stable.
Qed.

Lemma step_refines s s' final log :
  fits (pl_db s) -> pipeline_ok s -> step s s' -> engine_wf A final -> grows (pl_db s') final ->
  exists log', rtc (apply_step key outbound sid (history final sid) types elsewhere)
    (pl_db s, log) (pl_db s', log').
Proof.
  intros Hfit (Hwf & Hck & Hcs) Hs Hwf' Hg.
  destruct Hs as [db db' cs He|i cp db cs Hi Hcp|i SegmentSize env w c c' db db' cs Hsize Hi Ha|i db cs]; cbn in *;
    try (exists log; apply rtc_refl).
  - exists log. apply rtc_once, Process.apply_elsewhere; [done|by apply elsewhere_checkpoint].
  - destruct (advance_ok SegmentSize env w c db Hsize Hfit (conj Hwf Hck) (Hcs _ _ Hi))
      as (c1 & db1 & Ha' & (_ & _ & Hg1 & Hck1 & Hm) & _).
    rewrite Ha in Ha'. injection Ha' as <- <-. apply moves_later; try done; [by etransitivity|lia].
Qed.

(** What the system does to the database is a history of transactions of the rest of the
    engine and of applications of events of the stream. *)
Lemma steps_refine s s' final log :
  rtc step s s' -> pipeline_ok s -> fits (pl_db s') -> engine_wf A final -> grows (pl_db s') final ->
  exists log', rtc (apply_step key outbound sid (history final sid) types elsewhere)
    (pl_db s, log) (pl_db s', log').
Proof.
  intros Hr. revert log. induction Hr as [s|s1 s2 s3 Hs Hr IH]; intros log Hok Hfit Hwf Hg.
  { exists log. apply rtc_refl. }
  pose proof (step_db _ _ Hs (proj1 Hok)) as Hdb.
  destruct (System.engine_steps_ok A A_outbound _ _ (proj1 Hok) Hdb) as [Hwf2 Hg1].
  destruct (steps_db _ _ Hr Hwf2) as (_ & _ & Hg2).
  assert (Hfit2 : fits (pl_db s2)) by (by eapply EventLog.fits_earlier).
  assert (Hfit1 : fits (pl_db s1)) by (by eapply EventLog.fits_earlier).
  destruct (step_refines s1 s2 final log) as [log2 Hs2]; try done; [by etransitivity|].
  destruct (IH log2) as [log3 Hs3]; try done; [by eapply step_ok|]. exists log3. by etransitivity.
Qed.

(** In every state the events applied are those before the checkpoint. *)
Lemma reachable_applied s :
  rtc step initial s -> fits (pl_db s) ->
  exists log, rtc (apply_step key outbound sid (history (pl_db s) sid) types elsewhere)
      (empty_db, []) (pl_db s, log) /\
    log = between types 0 (checkpoint key sid (pl_db s)) (history (pl_db s) sid).
Proof.
  intros Hr Hfit. destruct (reachable_ok s Hr Hfit) as (Hwf & _).
  destruct (steps_refine initial s (pl_db s) [] Hr initial_ok Hfit Hwf ltac:(reflexivity)) as [log Hs].
  exists log. split; [exact Hs|].
  eapply (Process.apply_steps_applied key outbound sid _ types _ 0 (end_of (pl_db s) sid)) in Hs as [[_ Hlog] _].
  - exact Hlog.
  - by apply (EventLog.history_bounds A).
  - split; [by vm_compute|]. cbn. symmetry. apply between_empty. by vm_compute.
Qed.

(** ** A call of [ConsumeSegment] is a sequence of turns *)

(** What happens between the transactions of consumer [i] leaves it alone. *)
Definition between_turns (i : nat) (turns : nat -> Process.turn) : Prop :=
  forall n db cs c, cs !! i = Some c ->
    exists cs', rtc step (mkPipeline db cs) (mkPipeline (Process.others (turns n) db) cs') /\
      cs' !! i = Some c.

Lemma turn_step i env w c c' db db' cs :
  cs !! i = Some c -> advance 1 env w c db = Ret (c', db') ->
  exists cs', step (mkPipeline db cs) (mkPipeline db' cs') /\ cs' !! i = c'.
Proof.
  intros Hi Ha. exists (partial_alter (fun _ => c') i cs).
  split; [by eapply (pl_advance i 1)|]. by rewrite lookup_partial_alter_eq.
Qed.

Lemma ConsumeSegment_turns i hi es turns cp db cs r ok err db' :
  between_turns i turns -> cs !! i = Some (Consuming cp hi es) ->
  Process.ConsumeSegment_loop key outbound turns sid cp hi es db = Ret (r, ok, err, db') ->
  exists cs', rtc step (mkPipeline db cs) (mkPipeline db' cs') /\
    cs' !! i = if ok then Some (Reading r hi) else None.
Proof.
  revert turns cp db cs. induction es as [|e es IH]; intros turns cp db cs Ht Hi;
    cbn [Process.ConsumeSegment_loop].
  - case_decide as Hlt; intros Hc; injection Hc as Hc; last first.
    { subst. destruct (turn_step i no_faults (Process.world (turns O)) (Consuming r hi []) (Some (Reading r hi))
        db' db' cs Hi) as (cs' & Hs & Hi').
      { cbn. by rewrite decide_False. }
      exists cs'. split; [by apply rtc_once|done]. }
    destruct (Ht O db cs _ Hi) as (cs1 & Hs1 & Hi1).
    pose proof (Process.consume_cases key outbound sid _ _ _ _ _ _ _ _ _ _ Hc) as Hcases.
    destruct (turn_step i (Process.tx_env (turns O)) (Process.world (turns O)) (Consuming cp hi [])
      (if ok then Some (Reading r hi) else None) (Process.others (turns O) db) db' cs1 Hi1)
      as (cs' & Hs & Hi').
    { cbn. rewrite decide_True by done. rewrite Hc.
      destruct Hcases as [(-> & -> & _)|(-> & _)]; [done|]. by destruct err. }
    exists cs'. split; [|done]. by eapply rtc_r.
  - destruct (offsetOf e) as [o|] eqn:Ho; cbn [mbind go_bind]; [|done]. case_decide as Hlt.
    + intros Hc. destruct (turn_step i no_faults (Process.world (turns O)) (Consuming cp hi (e :: es))
        (Some (Consuming cp hi es)) db db cs Hi) as (cs1 & Hs1 & Hi1).
      { cbn. rewrite Ho. cbn. by rewrite decide_True. }
      destruct (IH turns cp db cs1 Ht Hi1 Hc) as (cs' & Hs & Hi').
      exists cs'. split; [by eapply rtc_l|done].
    + destruct (Ht O db cs _ Hi) as (cs1 & Hs1 & Hi1).
      destruct (consume _ _ _ _ _ _ _ _ _) as [[[r1 ok1] err1] db1] eqn:Hc1.
      pose proof (Process.consume_cases key outbound sid _ _ _ _ _ _ _ _ _ _ Hc1) as Hcases. intros Hc.
      destruct (turn_step i (Process.tx_env (turns O)) (Process.world (turns O)) (Consuming cp hi (e :: es))
        (if ok1 then Some (Consuming r1 hi es) else None) (Process.others (turns O) db) db1 cs1 Hi1)
        as (cs2 & Hs2 & Hi2).
      { cbn. rewrite Ho. cbn. rewrite decide_False by done. rewrite Hc1.
        destruct Hcases as [(-> & -> & _)|(-> & _)]; [done|]. by destruct err1. }
      assert (Hs : rtc step (mkPipeline db cs) (mkPipeline db1 cs2)) by (by eapply rtc_r).
      destruct Hcases as [(-> & -> & _)|(-> & _)].
      * destruct (IH (fun n => turns (S n)) r1 db1 cs2 (fun n => Ht (S n)) Hi2 Hc) as (cs' & Hs' & Hi').
        exists cs'. split; [by etransitivity|done].
      * assert (db1 = db' /\ ok = false) as [-> ->] by (by destruct err1; injection Hc as <- <- <- <-).
        by exists cs2.
Qed.

(** ** Catching up *)

(** The transactions of a consumer without contention or faults, in the worlds [ws]. *)
Definition undisturbed (ws : nat -> World) : nat -> Process.turn :=
  fun n => Process.mkTurn id no_faults (ws n).

Lemma undisturbed_turns i ws : between_turns i (undisturbed ws).
Proof. intros n db cs c Hi. exists cs. split; [apply rtc_refl|done]. Qed.

(** Consuming a segment leaves the event log alone. *)
Lemma consume_loop_log ws hi es cp db r ok err db' :
  Process.ConsumeSegment_loop key outbound (undisturbed ws) sid cp hi es db = Ret (r, ok, err, db') ->
  streams db' = streams db /\ events db' = events db.
Proof.
  revert ws cp db. induction es as [|e es IH]; intros ws cp db; cbn [Process.ConsumeSegment_loop].
  - case_decide; intros [= Hc]; [|by subst]. by apply System.consume_frame in Hc as [(? & ? & _) _].
  - destruct (offsetOf e); cbn [mbind go_bind]; [|done]. case_decide; [apply IH|].
    destruct (consume _ _ _ _ _ _ _ _ _) as [[[r1 ok1] err1] db1] eqn:Hc.
    apply System.consume_frame in Hc as [(He & Hs & _) _]. cbn in He, Hs. rewrite <- Hs, <- He.
    destruct ok1, err1; intros Hr; try (by injection Hr as <- <- <- <-).
    by apply (IH (fun n => ws (S n))) in Hr.
Qed.

(** The handler can not handle the event that is next, in one of the worlds. *)
Definition stuck (ws : Z -> nat -> World) (db : DB) : Prop :=
  let cp := checkpoint key sid db in
  exists e err b n, between types cp (off e + 1) (history db sid) = [e] /\
    (dispatch key outbound (ws b n) e (set_checkpoint key sid cp db)).2 = inl err.

(** The first event of a segment from the checkpoint on. *)
Lemma first_from h cp lo hi e_h e :
  in_range sid 0 e_h h -> lo <= cp -> e ∈ between types lo hi h -> cp <= off e ->
  (forall e', e' ∈ between types lo hi h -> off e' < off e -> off e' < cp) ->
  between types cp (off e + 1) h = [e].
Proof.
  intros Hh Hlo He Hcp Hfirst.
  assert (Hin : e ∈ between types cp hi h /\ cp <= hi).
  { unfold between in *. apply list_elem_of_filter in He as [Hb He].
    split; [apply list_elem_of_filter; split; [|done]|]; naive_solver lia. }
  destruct Hin as [Hin Hle]. destruct (between types cp hi h) as [|e0 es] eqn:Hb; [by apply not_elem_of_nil in Hin|].
  destruct (between_head sid types 0 e_h cp hi h e0 es Hh Hle Hb) as (Ho & _ & Hm & Ht & Hes & Hhead).
  assert (H0 : e0 ∈ between types lo hi h).
  { unfold between. apply list_elem_of_filter. split; [|done]. split; [lia|done]. }
  apply elem_of_cons in Hin as [->|Hin]; [apply Hhead; lia|].
  rewrite Hes in Hin. unfold between in Hin. apply list_elem_of_filter in Hin as [[Hin _] _].
  specialize (Hfirst e0 H0). lia.
Qed.

(** Nothing but applications of the events of [h]. *)
Definition applying (h : list Envelope) (db db' : DB) : Prop :=
  rtc (apply_step key outbound sid h types (fun _ _ => False))
    (db, between types 0 (checkpoint key sid db) h) (db', between types 0 (checkpoint key sid db') h).

(** One segment: the checkpoint moves, or the handler fails. *)
Lemma next_segment SegmentSize ws s :
  0 < SegmentSize -> fits (pl_db s) -> end_of (pl_db s) sid < 2 ^ 63 -> pipeline_ok s ->
  checkpoint key sid (pl_db s) < end_of (pl_db s) sid ->
  exists s', rtc step s s' /\ streams (pl_db s') = streams (pl_db s) /\
    events (pl_db s') = events (pl_db s) /\ applying (history (pl_db s) sid) (pl_db s) (pl_db s') /\
    (checkpoint key sid (pl_db s) < checkpoint key sid (pl_db s') \/ stuck ws (pl_db s')).
Proof.
  intros Hsize Hfit Hmax (Hwf & Hck & _) Hlt. destruct s as [db cs]. cbn in *.
  set (cp := checkpoint key sid db) in *. set (i := fresh (dom cs)).
  assert (Hi : cs !! i = None) by (apply not_elem_of_dom, is_fresh).
  assert (Hcp : forall d, CheckpointOffset key None sid d = inr (checkpoint key sid d)).
  { intros d. unfold CheckpointOffset, checkpoint. by destruct (checkpoints d !! _). }
  pose proof (EventLog.history_bounds A db sid Hwf) as Hh.
  destruct (streams db !! sid) as [n|] eqn:Hn; last first.
  { unfold end_of in Hlt. rewrite Hn in Hlt. cbn in Hlt. lia. }
  assert (Hst : Local.stored Unmarshal sid (history db sid) n db).
  { apply (EventLog.stored_earlier A); try done. by eapply Hfit. }
  pose proof (Local.loadSegment_stored Unmarshal SegmentSize sid types (history db sid) Hsize cp n db Hst ltac:(lia))
    as Hl. cbn zeta in Hl. fold (load SegmentSize db cp) in Hl.
  assert (He : end_of db sid = n) by (unfold end_of; by rewrite Hn).
  rewrite decide_False in Hl by lia. destruct Hl as (seg & ex & Hl & Hss & _).
  destruct (load_ok _ _ _ _ _ Hsize Hwf Hfit (proj1 Hck) Hl) as (Hbg & [Hle Hf] & Hend & Hadv).
  assert (Hgt : seg_end seg > seg_begin seg) by lia.
  destruct (Process.ConsumeSegment_loop_quiet key outbound sid (seg_end seg) (seg_envelopes seg)
    (undisturbed (ws cp)) cp cp db) as ([[[r ok] err] db'] & Hr & Hck' & Hcpr & Hres); try (done || lia).
  { rewrite Hf, Hbg. eapply between_in_range; [done|lia]. }
  { apply Hwf. }
  destruct (consume_loop_log _ _ _ _ _ _ _ _ _ Hr) as [Hs' He'].
  set (cs1 := <[i := Consuming cp (seg_end seg) (seg_envelopes seg)]> cs).
  destruct (ConsumeSegment_turns i (seg_end seg) (seg_envelopes seg) (undisturbed (ws cp)) cp db cs1
    r ok err db' (undisturbed_turns i _)) as (cs' & Hsteps & _); [apply lookup_insert_eq|done|].
  exists (mkPipeline db' cs'). cbn. split; [|split; [done|split; [done|split]]].
  - eapply rtc_l; [by apply (pl_start i cp); [|apply Hcp]|].
    eapply rtc_l; [|exact Hsteps].
    pose proof (pl_advance i SegmentSize no_faults (ws cp O) (Reading cp cp)
      (Some (Consuming cp (seg_end seg) (seg_envelopes seg))) db db (<[i := Reading cp cp]> cs)) as Hstep.
    assert (Hcs : partial_alter (fun _ => Some (Consuming cp (seg_end seg) (seg_envelopes seg))) i
      (<[i := Reading cp cp]> cs) = cs1)
      by exact (insert_insert_eq cs i _ (Reading cp cp)).
    rewrite Hcs in Hstep. apply Hstep; [done|apply lookup_insert_eq|].
    unfold advance. rewrite Hl. by rewrite decide_True.
  - assert (Happ : Process.applied key sid (history db sid) types db (between types 0 cp (history db sid)))
      by (split; [lia|done]).
    destruct (Process.ConsumeSegment_loop_applies key outbound sid (history db sid) types (fun _ _ => False)
      0 (end_of db sid) Hh (seg_end seg) (seg_envelopes seg) (undisturbed (ws cp)) (seg_begin seg) cp db
      (between types 0 cp (history db sid))) as ([[[r' ok'] err'] db1] & Hr1 & (log' & Hs1) & _);
      try (done || lia).
    { intros k d log _. exists log. apply rtc_refl. }
    rewrite Hr in Hr1. injection Hr1 as <- <- <- <-.
    destruct (Process.apply_steps_applied _ _ _ _ _ _ _ _ Hh _ _ Hs1 Happ) as [[_ Hlog] _]. cbn in Hlog.
    unfold applying. rewrite <- Hlog. exact Hs1.
  - destruct err as [err|].
    + right. destruct Hres as (_ & k & e & Hin & Hoff & Hfirst & Hd). exists e, err, cp, k. cbn. rewrite Hck'.
      split; [|exact Hd]. assert (Hhist : history db' sid = history db sid) by (unfold history, stream_events; by rewrite He').
      rewrite Hhist. rewrite Hf, Hbg in Hin, Hfirst.
      by eapply (first_from _ r cp (seg_end seg)); [done|lia|..].
    + left. destruct Hres as [_ Hres]. rewrite Hck'. lia.
Qed.

Lemma catch_up SegmentSize ws m s :
  0 < SegmentSize -> fits (pl_db s) -> end_of (pl_db s) sid < 2 ^ 63 -> pipeline_ok s ->
  end_of (pl_db s) sid - checkpoint key sid (pl_db s) <= Z.of_nat m ->
  exists s', rtc step s s' /\ streams (pl_db s') = streams (pl_db s) /\
    events (pl_db s') = events (pl_db s) /\ applying (history (pl_db s) sid) (pl_db s) (pl_db s') /\
    (checkpoint key sid (pl_db s') = end_of (pl_db s') sid \/ stuck ws (pl_db s')).
Proof.
  intros Hsize. revert s. induction m as [|m IH]; intros s Hfit Hmax Hok Hm.
  { exists s. split; [apply rtc_refl|]. split_and!; try done; [apply rtc_refl|]. left. destruct Hok as (_ & Hck & _). lia. }
  destruct (decide (checkpoint key sid (pl_db s) < end_of (pl_db s) sid)) as [Hlt|Hge]; last first.
  { exists s. split; [apply rtc_refl|]. split_and!; try done; [apply rtc_refl|]. left. destruct Hok as (_ & Hck & _). lia. }
  destruct (next_segment SegmentSize ws s Hsize Hfit Hmax Hok Hlt) as (s1 & Hs1 & Hst & Hev & Hap & [Hadv|Hstuck]);
    [|by exists s1; auto 10].
  assert (Hfit1 : fits (pl_db s1)) by (unfold fits; by rewrite Hst).
  assert (Hend : end_of (pl_db s1) sid = end_of (pl_db s) sid) by (unfold end_of; by rewrite Hst).
  pose proof (reachable_pipeline_ok _ _ Hs1 Hok Hfit1) as Hok1.
  destruct (IH s1 Hfit1 ltac:(lia) Hok1 ltac:(lia)) as (s' & Hs' & Hst' & Hev' & Hap' & Hres).
  assert (Hh : history (pl_db s1) sid = history (pl_db s) sid) by (unfold history, stream_events; by rewrite Hev).
  rewrite Hh in Hap'. exists s'. split; [by etransitivity|]. split_and!; [congruence..| |done].
  unfold applying in *. by etransitivity.
Qed.

(** At the end of the stream, the events before the checkpoint are all there are. *)
Lemma before_end db :
  engine_wf A db -> checkpoint key sid db = end_of db sid ->
  between types 0 (checkpoint key sid db) (history db sid) = filter (matches types) (history db sid).
Proof.
  intros Hwf ->. apply filter_ext_elem. intros e He.
  pose proof (in_range_elem _ _ _ _ _ (EventLog.history_bounds A _ sid Hwf) He). intuition lia.
Qed.
End pipeline.

(** ** Properties *)

(** C1: what the handlers record is applied by a process exactly once.  However the
    transactions of all handlers and of any number of consumers of a stream, on any node,
    are interleaved, and whichever of them fail or stop, the database has a history, from
    the empty one, that consists of nothing but transactions of the rest of the engine,
    checkpoints past ranges without events, and applications of events, each of which is
    all the effects of the next event on the tables as they are, in one transaction with
    the checkpoint past it ([Process.event_effects]); the events applied are exactly the events
    of the process's types that the stream holds before the checkpoint, in order; the
    checkpoint is never past the end of the stream, so once it is there every event of the
    stream that is of its types has been applied once; and no consumer panics. *)
Theorem recorded_events_are_applied_once `{P : Process.ProcessMessageHandler} A A_outbound key outbound
    sid types s :
  rtc (step A A_outbound key outbound sid types) initial s -> fits (pl_db s) ->
  rtc (engine_step A A_outbound) empty_db (pl_db s) /\
  (exists log,
    rtc (apply_step key outbound sid (history (pl_db s) sid) types (elsewhere A A_outbound key sid))
      (empty_db, []) (pl_db s, log) /\
    log = between types 0 (checkpoint key sid (pl_db s)) (history (pl_db s) sid) /\
    (checkpoint key sid (pl_db s) = end_of (pl_db s) sid ->
      log = filter (matches types) (history (pl_db s) sid))) /\
  0 <= checkpoint key sid (pl_db s) <= end_of (pl_db s) sid /\
  (forall i c SegmentSize env w, pl_consumers s !! i = Some c -> 0 < SegmentSize ->
    exists r, advance key outbound sid types SegmentSize env w c (pl_db s) = Ret r).
Proof.
  intros Hr Hfit. pose proof (reachable_ok _ _ _ _ _ _ s Hr Hfit) as (Hwf & Hck & Hcs).
  split; [|split; [|split; [done|]]].
  - by apply (steps_db A A_outbound key outbound sid types _ _ Hr), System.empty_engine_wf.
  - destruct (reachable_applied _ _ _ _ _ _ s Hr Hfit) as (log & Hs & Hlog). exists log. split_and!; [done..|].
    intros Hend. rewrite Hlog. by eapply before_end.
  - intros i c SegmentSize env w Hi Hsize.
    destruct (advance_ok A A_outbound key outbound sid types SegmentSize env w c _ Hsize Hfit
      (conj Hwf Hck) (Hcs _ _ Hi)) as (c' & db' & Ha & _). by eexists.
Qed.


(** ** An example

    The process that [Process] has as its example consumes the event that the aggregate
    of [System] records. *)

Definition example_step : relation pipeline :=
  step (P := Process.counter) (fun _ => Aggregate.account) (fun _ => {[28%N]}) 9 Process.example_outbound
    40 None.

Definition example_advance (c : consumer) (db : DB) : option consumer * DB :=
  match advance (P := Process.counter) 9 Process.example_outbound 40 None 10 no_faults
    ((0, 300%N) : World (Messaging := Example.messaging)) c db with
  | Ret r => r
  | Panic _ => (None, db)
  end.

(** The state with the consumer at its start, after it has loaded a segment, and after it
    has consumed its event. *)
Definition example_start : pipeline := mkPipeline System.example_recorded {[0%nat := Reading 0 0]}.

Definition example_next (s : pipeline) : pipeline :=
  match pl_consumers s !! 0%nat with
  | Some c =>
      let '(c', db') := example_advance c (pl_db s) in
      mkPipeline db' (partial_alter (fun _ => c') 0%nat (pl_consumers s))
  | None => s
  end.

Definition example_applied : pipeline := example_next (example_next example_start).

(** Consumer 0 is there, and its next action does not panic. *)
Definition example_can_advance (s : pipeline) : bool :=
  match pl_consumers s !! 0%nat with
  | Some c =>
      match advance (P := Process.counter) 9 Process.example_outbound 40 None 10 no_faults
        ((0, 300%N) : World (Messaging := Example.messaging)) c (pl_db s) with
      | Ret _ => true
      | Panic _ => false
      end
  | None => false
  end.

Lemma example_next_step s : example_can_advance s = true -> example_step s (example_next s).
Proof.
  unfold example_can_advance, example_next, example_advance.
  destruct (pl_consumers s !! 0%nat) as [c|] eqn:Hc; [|done].
  destruct (advance _ _ _ _ _ _ _ _ _) as [[c' db']|] eqn:Ha; [|done]. intros _.
  destruct s as [db cs]. cbn in *. by eapply (pl_advance _ _ _ _ _ _ 0 10).
Qed.

Lemma example_starts : rtc example_step initial example_start.
Proof.
  eapply rtc_l; [apply pl_other, System.example_executes|].
  eapply rtc_l; [apply pl_other, System.example_records|].
  apply rtc_once. apply (pl_start _ _ _ _ _ _ 0 0); vm_compute; reflexivity.
Qed.

Lemma example_applies : rtc example_step initial example_applied.
Proof.
  eapply rtc_r; [eapply rtc_r; [exact example_starts|]|].
  - apply example_next_step. vm_compute. reflexivity.
  - apply example_next_step. vm_compute. reflexivity.
Qed.

Lemma example_fits s : streams (pl_db s) = {[40%N := 1]} -> fits (pl_db s).
Proof.
  intros Hs sid n. rewrite Hs. intros [_ <-]%lookup_singleton_Some. reflexivity.
Qed.

(** The event is applied: its effects, and no other process's, are a command and a deadline. *)
Lemma recorded_events_are_applied_once_witness :
  exists log,
    rtc (apply_step (H0 := Process.counter) 9 Process.example_outbound 40
      (history (M := Example.messaging) (pl_db example_applied) 40) None
      (elsewhere (fun _ => Aggregate.account) (fun _ => {[28%N]}) 9 40)) (empty_db, []) (pl_db example_applied, log) /\
    log = filter (matches None) (history (M := Example.messaging) (pl_db example_applied) 40) /\
    length log = 1%nat /\ size (commands (pl_db example_applied)) = 1%nat /\
    size (deadlines (pl_db example_applied)) = 1%nat.
Proof.
  destruct (recorded_events_are_applied_once (P := Process.counter) _ _ _ _ _ _ _ example_applies)
    as (_ & (log & Hs & Hlog & Hall) & _).
  - apply example_fits. vm_compute. reflexivity.
  - exists log. split; [exact Hs|]. split; [apply Hall; vm_compute; reflexivity|]. rewrite Hlog.
    split_and!; vm_compute; reflexivity.
Defined.

