(* ===== verification/Waiting.v ===== *)
(** * What tests wait for and expect

    Models [internal/x/xtesting/sync.go], [context.go], [expect.go] and the assertions
    about queries of [database.go].  A helper fails its test by [t.Fatal], which does not
    return: [FailNow].  What a helper polls is an input, one element for each iteration of
    its loop, with whether the select that follows chooses the timeout; a loop whose
    inputs are used up is still waiting, which is [None]. *)

From S2P Require Import Prelude Errors.

Inductive verdict (A : Type) : Type :=
| Pass (a : A)
| FailNow (msg : string).
Arguments Pass {A} a.
Arguments FailNow {A} msg.

#[global] Instance verdict_ret : MRet verdict := fun A a => Pass a.
#[global] Instance verdict_bind : MBind verdict := fun A B f m =>
  match m with Pass a => f a | FailNow msg => FailNow msg end.

(** ** Latches *)

(** When a latch is set, if ever, and what a select chooses if that is just as the timeout
    is reached. *)
Record latch := mkLatch { set_at : option Z; tie : bool }.

(** The select of one goroutine: whether it sees the latch. *)
Definition sees_latch (timeout : Z) (l : latch) : bool :=
  match set_at l with
  | None => false
  | Some t => if decide (t < timeout) then true else if decide (t = timeout) then tie l else false
  end.

Definition u32 (z : Z) : Z := z mod 2 ^ 32.

(** [WaitForLatches], [timeout] after which the context is done; [count] is a uint32. *)
Definition WaitForLatches (timeout : Z) (latches : list latch) : verdict unit :=
  let got := foldl (fun count l => if sees_latch timeout l then u32 (count + 1) else count) 0 latches in
  let want := u32 (len latches) in
  if decide (got <> want) then FailNow "timeout waiting for latches" else Pass tt.

(** ** Polling *)

(** [WaitFor] *)
Fixpoint WaitFor (polls : list (bool * bool)) : option (verdict unit) :=
  match polls with
  | [] => None
  | (cond, timeout) :: polls' =>
      if (cond : bool) then Some (Pass tt)
      else if (timeout : bool) then Some (FailNow "timeout waiting") else WaitFor polls'
  end.

(** [WaitForObservable], for the values that [o.Load] returns; the most recent one is
    reported. *)
Fixpoint WaitForObservable {T} (show : T -> string) (ok : T -> bool) (loads : list (T * bool))
    : option (verdict unit) :=
  match loads with
  | [] => None
  | (v, timeout) :: loads' =>
      if ok v then Some (Pass tt)
      else if (timeout : bool) then Some (FailNow ("timeout waiting: got " +:+ show v))
      else WaitForObservable show ok loads'
  end.

Section query.
Context {T : Type} `{!EqDecision T} (show_error : error -> string).

(** [ExpectQueryResult]; [row] is what [row.Scan] yields. *)
Definition ExpectQueryResult (want : T) (row : error + T) : verdict unit :=
  match row with
  | inl err =>
      if Is err ErrNoRows then FailNow "expectation failed: got no rows"
      else FailNow ("expectation failed: unable to scan row: " +:+ show_error err)
  | inr got => if decide (got <> want) then FailNow "expectation failed" else Pass tt
  end.

(** [WaitForQueryResult]; [lastErr] is the variable of that name. *)
Fixpoint WaitForQueryResult (want : T) (polls : list ((error + T) * bool)) (lastErr : option error)
    : option (verdict unit) :=
  match polls with
  | [] => None
  | (row, timeout) :: polls' =>
      let continue lastErr :=
        if (timeout : bool) then
          Some (match lastErr with
                | Some err => FailNow ("expectation failed: " +:+ show_error err)
                | None => FailNow "expectation failed: timed out waiting for value"
                end)
        else WaitForQueryResult want polls' lastErr in
      match row with
      | inr got => if decide (got = want) then Some (Pass tt) else continue None
      | inl err => if Is err ErrNoRows then continue lastErr else continue (Some err)
      end
  end.
End query.

(** ** Channels *)

(** [Expect], with [dapper.Format] and [myers.ComputeEdits]. *)
Definition Expect {T Edit : Type} (Format : T -> string) (ComputeEdits : string -> string -> list Edit)
    (got want : T) : verdict unit :=
  let gotString := Format got in
  let wantString := Format want in
  match ComputeEdits wantString gotString with
  | [] => Pass tt
  | _ => FailNow "expectation failed"
  end.

Section channel.
Context {T : Type} (Format : list T -> string) {Edit : Type} (ComputeEdits : string -> string -> list Edit).

(** [ExpectN] *)
Definition ExpectN (got want : list T) : verdict unit := Expect Format ComputeEdits got want.

(** The loop of [ExpectToReceiveN]; [None] is a timeout. *)
Fixpoint receive_n (n : nat) (receives : list (option T)) (collected : list T)
    : option (verdict (list T)) :=
  match n with
  | O => Some (Pass collected)
  | S n' =>
      match receives with
      | [] => None
      | None :: _ => Some (FailNow "timeout waiting")
      | Some v :: receives' => receive_n n' receives' (collected ++ [v])
      end
  end.

Definition ExpectToReceiveN (receives : list (option T)) (want : list T) : option (verdict unit) :=
  match receive_n (length want) receives [] with
  | None => None
  | Some (FailNow msg) => Some (FailNow msg)
  | Some (Pass collected) => Some (Expect Format ComputeEdits collected want)
  end.

(** [ExpectNoReceive] *)
Definition ExpectNoReceive (receive : option T) : verdict unit :=
  match receive with Some _ => FailNow "unexpected value" | None => Pass tt end.
End channel.

(** ** Goroutines *)

(** What happens to a goroutine of [GoE]: its function returns, it is stopped, or the test
    ends, which cancels the test's context before it stops anything. *)
Inductive go_event : Type :=
| FnReturns (err : option error)
| StopCalled
| TestEnds.

(** Whether the goroutine's context, and the test's, are canceled, whether [stopped] is
    closed, and the calls of [t.Error]. *)
Record goroutine := mkGoroutine {
  ctx_done : bool;
  test_done : bool;
  stopped : bool;
  reported : list error;
}.

Definition GoE : goroutine := mkGoroutine false false false [].

Definition go_step (g : goroutine) (ev : go_event) : goroutine :=
  match ev with
  | StopCalled => mkGoroutine true (test_done g) (stopped g) (reported g)
  | TestEnds => mkGoroutine (ctx_done g) true (stopped g) (reported g)
  | FnReturns err =>
      if stopped g then g
      else
        mkGoroutine (ctx_done g) (test_done g) true
          (match err with
           | Some err => if ctx_done g || test_done g then reported g else reported g ++ [err]
           | None => reported g
           end)
  end.

(** Whether the function that [GoE] returns can return. *)
Definition stop_returns (g : goroutine) : bool := ctx_done g && stopped g.

(** [Go], whose function returns no error. *)
Definition Go_event (ev : go_event) : go_event :=
  match ev with FnReturns _ => FnReturns None | _ => ev end.

(** ** Contexts with a manual deadline *)

(** [manualDeadlineContext]: the error of the parent, whether [done] is closed, and
    whether [once] was used. *)
Record manualDeadlineContext := mkManual {
  parent_err : option error;
  done : bool;
  once : bool;
}.

Definition ContextWithManualDeadline : manualDeadlineContext := mkManual None false false.

(** [close(ctx.done)] *)
Definition close_done (c : manualDeadlineContext) : go manualDeadlineContext :=
  if done c then Panic "close of closed channel" else Ret (mkManual (parent_err c) true (once c)).

(** [expire] *)
Definition expire (c : manualDeadlineContext) : go manualDeadlineContext :=
  if once c then Ret c else close_done (mkManual (parent_err c) (done c) true).

(** [Err] *)
Definition Err (c : manualDeadlineContext) : option error :=
  match parent_err c with
  | Some err => Some err
  | None => if done c then Some (Sentinel DeadlineExceeded) else None
  end.

(** [expire] is called, by the test or by [context.AfterFunc] once the parent is canceled,
    or the parent is canceled. *)
Inductive context_step : manualDeadlineContext -> manualDeadlineContext -> Prop :=
| ctx_expire c c' : expire c = Ret c' -> context_step c c'
| ctx_cancel_parent err c : parent_err c = None ->
    context_step c (mkManual (Some err) (done c) (once c)).

(** ** Latches *)

Lemma WaitForLatches_count timeout latches :
  len latches < 2 ^ 32 ->
  foldl (fun count l => if sees_latch timeout l then u32 (count + 1) else count) 0 latches
  = len (filter (fun l => sees_latch timeout l = true) latches).
Proof.
  induction latches as [|l latches IH] using rev_ind; [done|]. rewrite len_app. intros Hlen.
  change (len [l]) with 1 in Hlen. rewrite foldl_app, filter_app, len_app, IH by lia. cbn [foldl].
  rewrite filter_cons. pose proof (len_nonneg (filter (fun l => sees_latch timeout l = true) latches)).
  assert (Hle : len (filter (fun l => sees_latch timeout l = true) latches) <= len latches).
  { unfold len. pose proof (length_filter (fun l => sees_latch timeout l = true) latches). lia. }
  case_decide as Hd; [rewrite Hd|rewrite (not_true_is_false _ Hd), filter_nil, Z.add_0_r; done].
  unfold u32. rewrite Z.mod_small by lia. done.
Qed.

(** [WaitForLatches] passes exactly if every latch is set in time. *)
Theorem WaitForLatches_spec timeout latches :
  len latches < 2 ^ 32 ->
  (WaitForLatches timeout latches = Pass tt <-> Forall (fun l => sees_latch timeout l = true) latches).
Proof.
  intros Hlen. unfold WaitForLatches. rewrite WaitForLatches_count by done.
  unfold u32. rewrite Z.mod_small by (split; [apply len_nonneg|done]).
  assert (Hall : len (filter (fun l => sees_latch timeout l = true) latches) = len latches <->
    Forall (fun l => sees_latch timeout l = true) latches).
  { clear Hlen. induction latches as [|l latches IH]; [split; [constructor|done]|].
    rewrite filter_cons, Forall_cons, <- IH.
    pose proof (length_filter (fun l => sees_latch timeout l = true) latches).
    unfold len in *. case_decide as Hd; rewrite ?Hd; cbn [length]; split.
    - intros Heq. split; [done|lia].
    - intros [_ Heq]. lia.
    - intros Heq. lia.
    - by intros [? _]. }
  rewrite <- Hall. case_decide as Hd; split; intros; done || (exfalso; by apply Hd) || by apply dec_stable.
Qed.

(** ** Polling *)

Section polling.
Context {T : Type} `{!EqDecision T} (show_error : error -> string) (want : T).

(** A poll after which the loop goes on, and one after which it ends. *)
Definition goes_on (p : (error + T) * bool) : Prop := p.1 <> inr want /\ p.2 = false.

(** A poll that yields a row, or an error other than that there is none. *)
Definition answered (row : error + T) : bool :=
  match row with inr _ => true | inl err => negb (Is err ErrNoRows) end.

(** The error that is reported at a timeout: that of the last answer, if it was one. *)
Definition last_error (lastErr : option error) (rows : list (error + T)) : option error :=
  match last (filter (fun r => answered r = true) rows) with
  | None => lastErr
  | Some (inl err) => Some err
  | Some (inr _) => None
  end.

Lemma last_error_cons lastErr row rows :
  last_error lastErr (row :: rows) =
  last_error (match row with
              | inr _ => None
              | inl err => if Is err ErrNoRows then lastErr else Some err
              end) rows.
Proof.
  unfold last_error. rewrite filter_cons. destruct row as [err|v]; cbn [answered].
  - destruct (Is err ErrNoRows); cbn [negb]; [by rewrite decide_False|]. rewrite decide_True, last_cons by done.
    by destruct (last (filter (fun r => answered r = true) rows)).
  - rewrite decide_True, last_cons by done. by destruct (last (filter (fun r => answered r = true) rows)).
Qed.

Lemma WaitForQueryResult_loop polls : forall lastErr,
  match WaitForQueryResult show_error want polls lastErr with
  | None => Forall goes_on polls
  | Some v => exists pre p post, polls = pre ++ p :: post /\ Forall goes_on pre /\
      ((p.1 = inr want /\ v = Pass tt) \/
       (p.1 <> inr want /\ p.2 = true /\
        v = match last_error lastErr (fst <$> pre ++ [p]) with
            | Some err => FailNow ("expectation failed: " +:+ show_error err)
            | None => FailNow "expectation failed: timed out waiting for value"
            end))
  end.
Proof.
  induction polls as [|[row timeout] polls IH]; intros lastErr; [constructor|]. cbn [WaitForQueryResult].
  set (lastErr' := match row with
              | inr _ => None
              | inl err => if Is err ErrNoRows then lastErr else Some err
              end).
  assert (Hcase : (row = inr want /\ exists v, inr v = row /\ v = want) \/ row <> inr want).
  { destruct row as [err|v]; [by right|]. destruct (decide (v = want)) as [->|Hne]; [left; eauto|right; congruence]. }
  destruct Hcase as [[-> _]|Hne].
  { rewrite decide_True by done. exists [], (inr want, timeout), polls. split_and!; [done|constructor|by left]. }
  match goal with |- match ?X with Some _ => _ | None => _ end =>
    assert (Hx : X = if timeout then
          Some (match lastErr' with
                | Some err => FailNow ("expectation failed: " +:+ show_error err)
                | None => FailNow "expectation failed: timed out waiting for value"
                end)
        else WaitForQueryResult show_error want polls lastErr') end.
  { subst lastErr'. destruct row as [err|v]; [by destruct (Is err ErrNoRows)|].
    rewrite decide_False by congruence. done. }
  rewrite Hx. destruct timeout.
  - exists [], (row, true), polls. split_and!; [done|constructor|]. right. split_and!; [done..|].
    cbn [app fmap list_fmap fst]. rewrite last_error_cons. fold lastErr'. done.
  - specialize (IH lastErr'). assert (Hg : goes_on (row, false)) by (by split).
    destruct (WaitForQueryResult show_error want polls lastErr') as [v|]; [|by constructor].
    destruct IH as (pre & p & post & -> & Hpre & Hres). exists ((row, false) :: pre), p, post.
    split_and!; [done|by constructor|]. destruct Hres as [|(H1 & H2 & ->)]; [by left|right].
    split_and!; [done..|]. cbn [app fmap list_fmap fst]. rewrite (last_error_cons lastErr). done.
Qed.
End polling.

(** A wait for the result of a query goes on exactly while every row differs from
    the wanted one and the timeout is not reached; it passes at the first row that is
    wanted, even if the timeout is reached by then; and at the timeout it fails, with
    the error of the last query that yielded anything else than no row, if that was an
    error. *)
Theorem WaitForQueryResult_spec {T} `{!EqDecision T} show_error (want : T) polls :
  match WaitForQueryResult show_error want polls None with
  | None => Forall (goes_on want) polls
  | Some v => exists pre p post, polls = pre ++ p :: post /\ Forall (goes_on want) pre /\
      ((p.1 = inr want /\ v = Pass tt) \/
       (p.1 <> inr want /\ p.2 = true /\
        v = match last (filter (fun r => answered r = true) (fst <$> pre ++ [p])) with
            | Some (inl err) => FailNow ("expectation failed: " +:+ show_error err)
            | _ => FailNow "expectation failed: timed out waiting for value"
            end))
  end.
Proof.
  pose proof (WaitForQueryResult_loop show_error want polls None) as Hl.
  destruct (WaitForQueryResult show_error want polls None) as [v|]; [|done].
  destruct Hl as (pre & p & post & Hp & Hpre & Hres). exists pre, p, post. split_and!; [done..|].
  destruct Hres as [|(H1 & H2 & ->)]; [by left|right]. split_and!; [done..|]. unfold last_error.
  by destruct (last _) as [[err|]|].
Qed.

(** ** Channels *)

Lemma receive_n_pass {T} n receives (collected got : list T) :
  receive_n n receives collected = Some (Pass got) <->
  exists vs rest, receives = (Some <$> vs) ++ rest /\ length vs = n /\ got = collected ++ vs.
Proof.
  revert receives collected. induction n as [|n IH]; intros receives collected; cbn [receive_n].
  { split.
    - intros [= <-]. exists [], receives. by rewrite app_nil_r.
    - intros (vs & rest & _ & Hvs & ->). apply length_zero_iff_nil in Hvs as ->. by rewrite app_nil_r. }
  destruct receives as [|[v|] receives].
  - split; [done|]. intros ([|v vs] & rest & Hr & Hvs & _); done.
  - rewrite IH. split.
    + intros (vs & rest & -> & <- & ->). exists (v :: vs), rest. by rewrite <- app_assoc.
    + intros ([|v' vs] & rest & Hr & Hvs & ->); [done|]. injection Hr as <- ->. injection Hvs as <-.
      exists vs, rest. by rewrite <- app_assoc.
  - split; [done|]. intros ([|v vs] & rest & Hr & Hvs & _); done.
Qed.

(** [ExpectToReceiveN] passes exactly if the first values that are received, as many as
    are wanted, look like those; it takes no more of them. *)
Theorem ExpectToReceiveN_spec {T Edit} (Format : list T -> string)
    (ComputeEdits : string -> string -> list Edit) receives want :
  (forall a b, ComputeEdits a b = [] <-> a = b) ->
  (ExpectToReceiveN Format ComputeEdits receives want = Some (Pass tt) <->
   exists vs rest, receives = (Some <$> vs) ++ rest /\ length vs = length want /\ Format vs = Format want).
Proof.
  intros Hedits. unfold ExpectToReceiveN.
  assert (Hexp : forall got, Expect Format ComputeEdits got want = Pass tt <-> Format got = Format want).
  { intros got. unfold Expect. specialize (Hedits (Format want) (Format got)).
    destruct (ComputeEdits _ _); [|]; split; naive_solver. }
  pose proof (receive_n_pass (length want) receives []) as Hn. split.
  - destruct (receive_n (length want) receives []) as [[got|msg]|]; [|done..].
    intros [= Hp]. apply Hexp in Hp. destruct (proj1 (Hn got) eq_refl) as (vs & rest & ? & ? & ->).
    by exists vs, rest.
  - intros (vs & rest & Hr & Hvs & Hf). assert (Hx : receive_n (length want) receives [] = Some (Pass vs)).
    { apply Hn. by exists vs, rest. }
    rewrite Hx. f_equal. by apply Hexp.
Qed.

(** ** Goroutines *)

(** [GoE] reports the error of its function exactly if the function returns it before it
    is stopped and before the test ends, and then once. *)
Theorem GoE_reports evs :
  reported (foldl go_step GoE evs) = match evs with FnReturns (Some err) :: _ => [err] | _ => [] end.
Proof.
  assert (Hquiet : forall l g, stopped g = true \/ ctx_done g = true \/ test_done g = true ->
    reported (foldl go_step g l) = reported g).
  { intros l. induction l as [|ev l IH]; intros g Hg; [done|]. cbn [foldl]. rewrite IH.
    - destruct ev as [[err|]| |]; cbn; [destruct (stopped g) eqn:E..| |]; cbn; try done.
      destruct Hg as [?|[-> | ->]]; [done|done|]. by rewrite orb_true_r.
    - destruct ev as [[err|]| |]; cbn; [destruct (stopped g) eqn:E..| |]; cbn; intuition. }
  destruct evs as [|[[err|]| |] evs]; cbn [foldl]; [done|..]; rewrite Hquiet; cbn; by auto.
Qed.

(** ** Contexts with a manual deadline *)

Lemma expire_total c : done c = once c -> exists c', expire c = Ret c' /\ done c' = true /\ once c' = true /\
  parent_err c' = parent_err c.
Proof.
  destruct c as [p d o]. cbn. intros ->. unfold expire, close_done. cbn.
  destruct o; cbn; by eexists.
Qed.

Lemma context_step_once c c' : done c = once c -> context_step c c' ->
  done c' = once c' /\ (done c = true -> done c' = true) /\ (is_Some (parent_err c) -> parent_err c' = parent_err c).
Proof.
  intros Hc Hs. destruct Hs as [c c' He|err c Hp]; [|cbn; rewrite Hp; split_and!; try done; by intros []].
  destruct (expire_total c Hc) as (c1 & He1 & Hd & Ho & Hp). rewrite He in He1. injection He1 as <-.
  rewrite Hd, Ho, Hp. done.
Qed.

(** Whatever the order in which the parent is canceled and the deadline expires, the
    channel is closed once and the context, once it is done or has an error, keeps having
    one. *)
Theorem manual_deadline_stays_done c c' :
  rtc context_step ContextWithManualDeadline c -> rtc context_step c c' ->
  (exists c1, expire c' = Ret c1) /\ (done c = true -> done c' = true) /\
  (done c' = true -> is_Some (Err c')) /\ (is_Some (Err c) -> is_Some (Err c')).
Proof.
  intros Hr Hs. assert (Hc : done c = once c).
  { revert c Hr Hs. refine (rtc_ind_r (fun c => rtc context_step c c' -> done c = once c) _ _ _); [done|].
    intros y z _ Hyz IH Hs. eapply context_step_once; [|exact Hyz]. apply IH. by eapply rtc_l. }
  assert (Hkeep : done c' = once c' /\ (done c = true -> done c' = true) /\
    (is_Some (parent_err c) -> is_Some (parent_err c'))).
  { clear Hr. induction Hs as [c|c c1 c' Hs _ IH]; [done|].
    destruct (context_step_once _ _ Hc Hs) as (Hc1 & Hd & Hp). destruct (IH Hc1) as (H1 & H2 & H3).
    split_and!; [done|auto|]. intros Hp'. apply H3. by rewrite Hp. }
  destruct Hkeep as (Hc' & Hd & Hp). split_and!; [|done| |].
  - destruct (expire_total c' Hc') as (c1 & He & _). by exists c1.
  - intros Hdone. unfold Err. rewrite Hdone. by destruct (parent_err c').
  - unfold Err. destruct (parent_err c) as [e|].
    + destruct Hp as [e' ->]; eauto.
    + destruct (done c); [|by intros []]. rewrite Hd by done. by destruct (parent_err c').
Qed.

(** The error of the context may change from [DeadlineExceeded] to that of the parent. *)
Example manual_deadline_error_changes :
  exists c c', rtc context_step ContextWithManualDeadline c /\ context_step c c' /\
    Err c = Some (Sentinel DeadlineExceeded) /\ Err c' = Some (Sentinel Canceled).
Proof.
  exists (mkManual None true true), (mkManual (Some (Sentinel Canceled)) true true). split_and!; try done.
  - apply rtc_once. by apply ctx_expire.
  - apply (ctx_cancel_parent (Sentinel Canceled) (mkManual None true true)). done.
Qed.
