(* ===== verification/Fixtures.v ===== *)
(** * What tests put into the database and find in it

    Models [internal/x/xtesting/eventstream.go], [commandqueue.go] and [deadline.go]: the
    helpers that create event streams, append events to them and queue commands, and
    those that assert what the tables hold.  Generated IDs and the times at which they are
    used are inputs: [gen n] is the n'th message ID with its time.

    They are proved against the rest of the development: what a helper appends is what the
    local source serves, and a test that sees no unconsumed events sees a process that has
    applied them all ([Pipeline]). *)

From S2P Require Import Prelude Errors Stream Database Handler MessagePump Waiting.
From S2P Require Local Aggregate Process System EventLog Pipeline.
Import Local (scan_u64).

(** A helper: the state that it leaves, and whether it fails the test. *)
Definition fixture (A : Type) : Type := DB -> DB * verdict A.

#[global] Instance fixture_ret : MRet fixture := fun A a db => (db, Pass a).
#[global] Instance fixture_bind : MBind fixture := fun A B f m db =>
  match m db with (db', Pass a) => f a db' | (db', FailNow msg) => (db', FailNow msg) end.

(** A verdict without an effect. *)
Definition lift {A} (v : verdict A) : fixture A := fun db => (db, v).

(** A statement whose error fails the test. *)
Definition must {A} (m : sql A) : fixture A := fun db =>
  match m db with inl _ => (db, FailNow "unable to execute query") | inr (a, db') => (db', Pass a) end.

(** What the helpers use of the messages: [dogma.RegisteredMessageTypeOf], the message's
    own [MarshalBinary], [env.Validate], and [reflect.DeepEqual].  Unpacking an
    envelope yields the message that was marshaled into it. *)
Class TestMessages `{Messaging} := {
  DeepEqual :: EqDecision Message;
  RegisteredMessageTypeOf : Message -> option UUID;
  MarshalMessage : Message -> error + bytes;
  ValidateEnvelope : Envelope -> option error;
  Unpack_marshaled env m :
    RegisteredMessageTypeOf m = Some (type_of env) -> MarshalMessage m = inr (body_data (env_body env)) ->
    Unpack env = Ret (inr m);
}.

(** ** The test database *)

(** [Transact] of the tests, whose function can not return an error. *)
Definition TestTransact (env : TxEnv) (fn : DB -> DB) : fixture unit := fun db =>
  match Transact env (fun db => inr (tt, fn db)) db with
  | (inl _, db') => (db', FailNow "unable to execute transaction")
  | (inr _, db') => (db', Pass tt)
  end.

(** [ExecOne] of the tests. *)
Definition TestExecOne (m : sql nat) : fixture unit := must (ExecOne m).

(** [queryFailer.TraceQueryStart]: the error of the context that the query runs with. *)
Definition TraceQueryStart {Query : Type} (fail : Query -> bool) (q : Query) (ctx_err : option error)
    : option error :=
  if negb (fail q) then ctx_err
  else match ctx_err with Some e => Some e | None => Some (Sentinel Canceled) end.

(** [getContainer]: [state] is [containerState.container], which the mutex guards, and
    [run] what [postgres.Run] would return; the result says whether it was called. *)
Definition getContainer {C : Type} (run : error + C) (state : option C) : option C * bool * verdict C :=
  match state with
  | Some container => (state, false, Pass container)
  | None =>
      match run with
      | inl _ => (None, true, FailNow "unable to start PostgreSQL container")
      | inr container => (Some container, true, Pass container)
      end
  end.

(** The tests that use the container, one after the other. *)
Fixpoint get_containers {C : Type} (runs : list (error + C)) (state : option C) : list (bool * verdict C) :=
  match runs with
  | [] => []
  | run :: runs' =>
      let '(state, called, v) := getContainer run state in (called, v) :: get_containers runs' state
  end.

Section fixtures.
Context `{TestMessages}.

(** ** Event streams *)

(** INSERT INTO eventstream.streams *)
Definition insert_stream (sid : UUID) : sql unit := fun db =>
  match streams db !! sid with
  | Some _ => inl (Opaque "duplicate key value violates unique constraint")
  | None => inr (tt, set_streams db (<[sid := 0]> (streams db)))
  end.

(** [CreateEventStreams], for the IDs that are generated. *)
Fixpoint CreateEventStreams (ids : list UUID) : fixture (list UUID) :=
  match ids with
  | [] => mret []
  | sid :: ids' =>
      _ ← must (insert_stream sid);
      rest ← CreateEventStreams ids';
      mret (sid :: rest)
  end.

Definition CreateEventStream (id : UUID) : fixture UUID :=
  streamIDs ← CreateEventStreams [id];
  lift (match streamIDs with sid :: _ => Pass sid | [] => FailNow "index out of range" end).

(** [packTestEvent], and [packTestCommand], which has the same body.  (The description of the
    message, and the site, application and handler that are its source, are not part of the
    model of envelopes.) *)
Definition packTestEvent (g : UUID * Z) (m : Message) : verdict Envelope :=
  let '(id, now) := g in
  match RegisteredMessageTypeOf m with
  | None => FailNow "not a registered message type"
  | Some tid =>
      match MarshalMessage m with
      | inl _ => FailNow "unable to marshal"
      | inr data =>
          let env := mkEnvelope (mkHeader id 0 "") (mkBody id tid "" now 0 data NoPosition) in
          match ValidateEnvelope env with
          | Some _ => FailNow "invalid envelope"
          | None => Pass env
          end
      end
  end.

Definition packTestCommand (g : UUID * Z) (m : Message) : verdict Envelope := packTestEvent g m.

(** The call of eventstream.append with one event. *)
Definition append_one (sid : UUID) (env : Envelope) : sql (option Z) :=
  match Marshal env with
  | inl e => fail e
  | inr data =>
      append sid (hdr_correlation_id (env_header env)) None None
        [mkEventArg (body_message_id (env_body env)) (type_of env) data]
  end.

(** Scanning its result, which is NULL for a stream that does not exist, into a uint64. *)
Definition scan_offset (r : option Z) : verdict Z :=
  match r with
  | None => FailNow "converting NULL to uint64 is unsupported"
  | Some z => match scan_u64 z with inl _ => FailNow "value out of range" | inr n => Pass n end
  end.

(** [AppendToEventStream], whose i'th event gets the ID [gen i]. *)
Fixpoint AppendToEventStream (gen : nat -> UUID * Z) (sid : UUID) (events : list Message)
    : fixture (list Envelope) :=
  match events with
  | [] => mret []
  | event :: events' =>
      env ← lift (packTestEvent (gen O) event);
      r ← must (append_one sid env);
      nextOffset ← lift (scan_offset r);
      rest ← AppendToEventStream (fun i => gen (S i)) sid events';
      mret (set_position (mkPosition sid (u64 (nextOffset - 1))) env :: rest)
  end.

(** [AppendToNewEventStream] *)
Definition AppendToNewEventStream (id : UUID) (gen : nat -> UUID * Z) (events : list Message)
    : fixture (UUID * list Envelope) :=
  streamID ← CreateEventStream id;
  envelopes ← AppendToEventStream gen streamID events;
  mret (streamID, envelopes).

(** A stream that [PopulateEventStreams] fills: its ID, and the elements of [counts] and
    of [offsets]. *)
Record slot := mkSlot { slot_stream : UUID; slot_count : Z; slot_offset : Z }.

(** The inner loop of [PopulateEventStreams]: the streams with their new offsets,
    whether there was progress, and how many IDs are used. *)
Fixpoint populate_pass (fn : UUID -> Z -> Message) (gen : nat -> UUID * Z) (slots : list slot)
    (progress : bool) (n : nat) : fixture (list slot * bool * nat) :=
  match slots with
  | [] => mret ([], progress, n)
  | s :: slots' =>
      if decide (slot_offset s >= slot_count s) then
        r ← populate_pass fn gen slots' progress n;
        let '(rest, progress, n) := r in
        mret (s :: rest, progress, n)
      else
        let event := fn (slot_stream s) (slot_offset s) in
        env ← lift (packTestEvent (gen n) event);
        _ ← must (append_one (slot_stream s) env);
        r ← populate_pass fn gen slots' true (S n);
        let '(rest, progress, n) := r in
        mret (mkSlot (slot_stream s) (slot_count s) (u64 (slot_offset s + 1)) :: rest, progress, n)
  end.

(** Its outer loop; [None] if it is still running after [fuel] passes. *)
Fixpoint populate_loop (fuel : nat) (fn : UUID -> Z -> Message) (gen : nat -> UUID * Z)
    (slots : list slot) (n : nat) (db : DB) : option (DB * verdict unit) :=
  match fuel with
  | O => None
  | S fuel =>
      match populate_pass fn gen slots false n db with
      | (db', FailNow msg) => Some (db', FailNow msg)
      | (db', Pass (slots', progress, n')) =>
          if (progress : bool) then populate_loop fuel fn gen slots' n' db' else Some (db', Pass tt)
      end
  end.

(** [PopulateEventStreams]; [ids] are the generated IDs of the streams. *)
Definition PopulateEventStreams (fuel : nat) (fn : UUID -> Z -> Message) (ids : list UUID)
    (gen : nat -> UUID * Z) (counts : list Z) (db : DB) : option (DB * verdict (list UUID)) :=
  match CreateEventStreams (take (length counts) ids) db with
  | (db1, FailNow msg) => Some (db1, FailNow msg)
  | (db1, Pass streamIDs) =>
      match populate_loop fuel fn gen (zip_with (fun sid c => mkSlot sid c 0) streamIDs counts) 0 db1 with
      | None => None
      | Some (db2, FailNow msg) => Some (db2, FailNow msg)
      | Some (db2, Pass _) => Some (db2, Pass streamIDs)
      end
  end.

(** The query of [ExpectEventCount]. *)
Definition event_count (db : DB) : Z := len (events db).

Definition ExpectEventCount (show_error : error -> string) (want : Z) (query_err : option error) (db : DB)
    : verdict unit :=
  ExpectQueryResult show_error want (match query_err with Some e => inl e | None => inr (event_count db) end).

(** The rows of the query of [ExpectContiguousEvents]. *)
Definition contiguous_rows (sid : UUID) (offset : Z) (limit : nat) (db : DB) : list EventRow :=
  take limit (order_by ev_offset
    (filter (fun r => ev_stream r = sid /\ offset <= ev_offset r) (events db))).

(** Its loop over the rows. *)
Fixpoint expect_rows (rows : list EventRow) (wantOffset : Z) (want : list Message) : go (verdict unit) :=
  match rows with
  | [] =>
      match want with
      | [] => Ret (Pass tt)
      | _ => Ret (FailNow "missing event(s)")
      end
  | row :: rows' =>
      match scan_u64 (ev_offset row), Unmarshal (ev_envelope row) with
      | inl _, _ | _, inl _ => Ret (FailNow "unable to scan event")
      | inr gotOffset, inr env =>
          if decide (gotOffset <> wantOffset) then Ret (FailNow "unexpected event stream offset")
          else
            r ← Unpack env;
            match r with
            | inl _ => Ret (FailNow "unable to unpack event")
            | inr got =>
                match want with
                | [] => Panic "index out of range"
                | wantEvent :: want' =>
                    if decide (got <> wantEvent) then Ret (FailNow "unexpected event")
                    else expect_rows rows' (u64 (wantOffset + 1)) want'
                end
            end
      end
  end.

Definition ExpectContiguousEvents (query_err : option error) (sid : UUID) (offset : Z) (want : list Message)
    (db : DB) : go (verdict unit) :=
  match query_err with
  | Some _ => Ret (FailNow "unable to query events")
  | None => expect_rows (contiguous_rows sid offset (length want) db) offset want
  end.

(** The query of [WaitForHandlerToConsumeAllEvents]: the streams of which the handler has
    not consumed everything. *)
Definition unconsumed (key : UUID) (db : DB) : Z :=
  Z.of_nat (size (filter (fun '(sid, next) => default 0 (checkpoints db !! (key, sid)) < next) (streams db))).

(** What one poll of a query sees: an error, or the state of the database; and whether the
    timeout is reached. *)
Definition WaitForCount (show_error : error -> string) (want : Z) (query : DB -> Z)
    (polls : list ((error + DB) * bool)) : option (verdict unit) :=
  WaitForQueryResult show_error want
    ((fun '(view, timeout) => (match view with inl e => inl e | inr db => inr (query db) end, timeout)) <$> polls)
    None.

Definition WaitForHandlerToConsumeAllEvents (show_error : error -> string) (key : UUID) :=
  WaitForCount show_error 0 (unconsumed key).

(** ** The command queue *)

Definition WaitForEmptyCommandQueue (show_error : error -> string) :=
  WaitForCount show_error 0 (fun db => Z.of_nat (size (commands db))).

(** SELECT COUNT of the commands with the given ID for which [P] holds. *)
Definition commands_where (mid : UUID) (P : CommandRow -> bool) (db : DB) : Z :=
  match commands db !! mid with Some c => if P c then 1 else 0 | None => 0 end.

Definition ExpectCommandIDToBeQueued (show_error : error -> string) (mid : UUID) (query_err : option error)
    (db : DB) : verdict unit :=
  ExpectQueryResult show_error 1
    (match query_err with Some e => inl e | None => inr (commands_where mid (fun _ => true) db) end).

Definition ExpectCommandToBeUnattempted (show_error : error -> string) (mid : UUID)
    (query_err : option error) (db : DB) : verdict unit :=
  ExpectQueryResult show_error 1
    (match query_err with
     | Some e => inl e
     | None => inr (commands_where mid (fun c => bool_decide (cmd_failures c = 0)) db)
     end).

Definition WaitForCommandToBeRemovedFromQueue (show_error : error -> string) (mid : UUID) :=
  WaitForCount show_error 0 (commands_where mid (fun _ => true)).

(** The loop of [ExpectCommandToBeQueued] over the rows, which come in any order. *)
Fixpoint expect_command (rows : list bytes) (want : Message) : go (verdict unit) :=
  match rows with
  | [] => Ret (FailNow "command is not on the queue")
  | row :: rows' =>
      match Unmarshal row with
      | inl _ => Ret (FailNow "unable to scan event")
      | inr env =>
          r ← Unpack env;
          match r with
          | inl _ => Ret (FailNow "unable to unpack command")
          | inr got => if decide (got = want) then Ret (Pass tt) else expect_command rows' want
          end
      end
  end.

Definition ExpectCommandToBeQueued (rows : error + list bytes) (want : Message) : go (verdict unit) :=
  match rows with
  | inl _ => Ret (FailNow "unable to query events")
  | inr rows => expect_command rows want
  end.

(** The rows of its query. *)
Definition command_rows (db : DB) (rows : list bytes) : Prop :=
  rows ≡ₚ (fun '(_, c) => cmd_envelope c) <$> map_to_list (commands db).

(** 24 hours, in nanoseconds. *)
Definition postponement : Z := 24 * 3600 * 10 ^ 9.

(** The INSERT of [EnqueuePostponedCommand], at time [now]. *)
Definition insert_postponed (now : Z) (env : Envelope) : sql unit := fun db =>
  match Marshal env with
  | inl e => inl e
  | inr data =>
      match commands db !! body_message_id (env_body env) with
      | Some _ => inl (Opaque "duplicate key value violates unique constraint")
      | None =>
          inr (tt, set_commands db (<[body_message_id (env_body env) :=
            mkCommandRow (type_of env) data 0 (now + postponement)]> (commands db)))
      end
  end.

Definition EnqueuePostponedCommand (g : UUID * Z) (now : Z) (command : Message) : fixture Envelope :=
  env ← lift (packTestCommand g command);
  _ ← must (insert_postponed now env);
  mret env.

(** ** Deadlines *)

Definition WaitForNoPendingDeadlines (show_error : error -> string) :=
  WaitForCount show_error 0 (fun db => Z.of_nat (size (deadlines db))).

(** ** What the tables hold *)

(** The message of a row, and the messages of a stream. *)
Definition row_message (r : EventRow) : option Message :=
  match Unmarshal (ev_envelope r) with
  | inr env => match Unpack env with Ret (inr m) => Some m | _ => None end
  | inl _ => None
  end.

Definition stream_messages (db : DB) (sid : UUID) : list (option Message) :=
  row_message <$> stream_events db sid.

(** A message that the helpers can pack, whatever the ID. *)
Definition packable (m : Message) : Prop :=
  forall g, exists env data, packTestEvent g m = Pass env /\ Marshal env = inr data.

Lemma packTestEvent_pass g m env :
  packTestEvent g m = Pass env ->
  body_message_id (env_body env) = g.1 /\ hdr_correlation_id (env_header env) = g.1 /\
  Unpack env = Ret (inr m).
Proof.
  destruct g as [id now]. unfold packTestEvent.
  destruct (RegisteredMessageTypeOf m) as [tid|] eqn:Ht; [|done].
  destruct (MarshalMessage m) as [e|data] eqn:Hm; [done|].
  destruct (ValidateEnvelope _); [done|]. intros [= <-]. split_and!; [done..|].
  by apply Unpack_marshaled.
Qed.

(** The state after an event was appended. *)
Definition appended (sid : UUID) (base : Z) (id : UUID) (m : Message) (env : Envelope) (db db' : DB) : Prop :=
  streams db' = <[sid := base + 1]> (streams db) /\ events_wf db' /\
  exists r, events db' = events db ++ [r] /\ ev_stream r = sid /\ ev_offset r = base /\
    ev_message_id r = id /\ row_message r = Some m /\ Unmarshal (ev_envelope r) = inr env.

Definition message_ids (db : DB) : list UUID := ev_message_id <$> events db.

Lemma append_one_ok g m env data sid base db :
  packTestEvent g m = Pass env -> Marshal env = inr data ->
  events_wf db -> streams db !! sid = Some base -> g.1 ∉ message_ids db ->
  exists db', append_one sid env db = inr (Some (base + 1), db') /\ appended sid base g.1 m env db db'.
Proof.
  intros Hp Hm Hwf Hs Hid. destruct (packTestEvent_pass _ _ _ Hp) as (Hmid & _ & Hu).
  assert (Ha : exists db', append_one sid env db = inr (Some (base + 1), db')).
  { unfold append_one, append. rewrite Hm, Hs, decide_False by done. cbn [fmap list_fmap ea_message_id].
    rewrite decide_True; [by eexists|]. rewrite Hmid. apply NoDup_app. split_and!; [apply Hwf| |apply NoDup_singleton].
    intros x Hx ->%list_elem_of_singleton. done. }
  destruct Ha as [db' Ha]. exists db'. split; [done|]. unfold append_one in Ha. rewrite Hm in Ha.
  pose proof (append_wf _ _ _ _ _ _ _ _ Hwf Ha) as Hwf'.
  apply append_inr in Ha as [(_ & [=] & _)|(b & Hb & Hr & _ & ->)]. rewrite Hs in Hb. injection Hb as <-.
  split_and!; [done|done|]. eexists. split; [done|]. cbn. rewrite Z.add_0_r. split_and!; try done.
  - unfold row_message. cbn. by rewrite (Unmarshal_Marshal _ _ Hm), Hu.
  - by apply Unmarshal_Marshal.
Qed.

Lemma appended_stream_events sid base id m env db db' sid' :
  appended sid base id m env db db' ->
  exists r, stream_events db' sid' = stream_events db sid' ++ (if decide (sid' = sid) then [r] else []) /\
    ev_offset r = base /\ row_message r = Some m /\ Unmarshal (ev_envelope r) = inr env.
Proof.
  intros (_ & _ & r & He & Hs & Ho & _ & Hm & Hu). exists r. split_and!; [|done..].
  unfold stream_events. rewrite He, filter_app. f_equal. rewrite filter_cons, filter_nil, Hs.
  by rewrite (decide_ext (sid = sid') (sid' = sid)).
Qed.

Lemma appended_ids sid base id m env db db' : appended sid base id m env db db' -> message_ids db' = message_ids db ++ [id].
Proof. intros (_ & _ & r & He & _ & _ & <- & _). unfold message_ids. by rewrite He, fmap_app. Qed.

(** Appending, with the envelopes as the local source would serve them. *)
Lemma AppendToEventStream_ok gen sid es : forall n db,
  events_wf db -> streams db !! sid = Some n -> n + len es < u64_modulus -> 0 <= n ->
  Forall packable es -> NoDup ((fun i => (gen i).1) <$> seq 0 (length es)) ->
  (forall i, (i < length es)%nat -> (gen i).1 ∉ message_ids db) ->
  exists db' envs, AppendToEventStream gen sid es db = (db', Pass envs) /\ events_wf db' /\
    streams db' = <[sid := n + len es]> (streams db) /\
    stream_messages db' sid = stream_messages db sid ++ (Some <$> es) /\
    EventLog.history db' sid = EventLog.history db sid ++ envs /\
    forall sid', sid' <> sid -> stream_events db' sid' = stream_events db sid'.
Proof.
  revert gen. induction es as [|m es IH]; intros gen n db Hwf Hs Hmax Hn Hp Hnd Hfresh; cbn [AppendToEventStream].
  { exists db, []. rewrite len_nil, Z.add_0_r, insert_id, !app_nil_r by done. done. }
  apply Forall_cons in Hp as [Hm Hp]. destruct (Hm (gen O)) as (env & data & Hpack & Hmar).
  rewrite len_cons in *. pose proof (len_nonneg es).
  destruct (append_one_ok _ _ _ _ sid n db Hpack Hmar Hwf Hs) as (db1 & Ha & Happ).
  { apply Hfresh. cbn. lia. }
  cbn [fmap list_fmap seq length] in Hnd. apply NoDup_cons in Hnd as [Hhd Hnd].
  rewrite <- (fmap_S_seq 0), <- list_fmap_compose in Hnd, Hhd.
  destruct (IH (fun i => gen (S i)) (n + 1) db1) as (db' & envs & Hr & Hwf' & Hst & Hmsg & Hh & Hoth); try done.
  { apply Happ. }
  { destruct Happ as [-> _]. by rewrite lookup_insert_eq. }
  { lia. }
  { lia. }
  { intros i Hi. rewrite (appended_ids _ _ _ _ _ _ _ Happ), elem_of_app, list_elem_of_singleton.
    intros [Hx|Hx]; [apply (Hfresh (S i)); [cbn; lia|done]|]. apply Hhd. rewrite <- Hx.
    apply list_elem_of_fmap. exists i. split; [done|]. apply elem_of_seq. lia. }
  exists db', (set_position (mkPosition sid n) env :: envs). split_and!.
  - unfold mbind, fixture_bind, lift. rewrite Hpack. unfold must. rewrite Ha. cbn [scan_offset].
    unfold scan_u64. rewrite decide_True by lia. rewrite Hr. unfold mret, fixture_ret.
    by rewrite Z.add_simpl_r, u64_id by (unfold is_u64; lia).
  - done.
  - rewrite Hst. destruct Happ as [-> _]. rewrite insert_insert_eq. f_equal. lia.
  - destruct (appended_stream_events _ _ _ _ _ _ _ sid Happ) as (r & He & _ & Hrm & _).
    rewrite Hmsg. unfold stream_messages at 1. rewrite He, decide_True, fmap_app, <- app_assoc by done. cbn.
    by rewrite Hrm.
  - destruct (appended_stream_events _ _ _ _ _ _ _ sid Happ) as (r & He & Ho & _ & Hu).
    rewrite Hh. unfold EventLog.history at 1. rewrite He, decide_True, omap_app, <- app_assoc by done.
    do 2 f_equal. cbn. unfold EventLog.decode. by rewrite Hu, Ho.
  - intros sid' Hne. rewrite Hoth by done.
    destruct (appended_stream_events _ _ _ _ _ _ _ sid' Happ) as (r & He & _).
    by rewrite He, decide_False, app_nil_r by done.
Qed.

(** ** Contiguous events *)

Lemma filter_offsets_drop (l : list EventRow) m n o :
  ev_offset <$> l = seqZ m n -> m <= o ->
  filter (fun r => o <= ev_offset r) l = drop (Z.to_nat (o - m)) l.
Proof.
  revert m n. induction l as [|r l IH]; intros m n Hl Ho; [by rewrite drop_nil|].
  destruct (decide (0 < n)); [|by rewrite seqZ_nil in Hl by lia].
  rewrite seqZ_cons in Hl by done. injection Hl as Hr Hl. change (ev_offset <$> l = seqZ (Z.succ m) (Z.pred n)) in Hl.
  rewrite filter_cons. destruct (decide (o = m)) as [->|Hne].
  - rewrite decide_True, Z.sub_diag by lia. change (Z.to_nat 0) with O. rewrite drop_0. f_equal.
    apply filter_all. intros x Hx.
    apply (list_elem_of_fmap_2 ev_offset) in Hx. rewrite Hl in Hx. apply elem_of_seqZ in Hx. lia.
  - rewrite decide_False, (IH (Z.succ m) (Z.pred n)) by (done || lia).
    by replace (Z.to_nat (o - m)) with (S (Z.to_nat (o - Z.succ m))) by lia.
Qed.

(** The rows from an offset on are the events of the stream without the first ones. *)
Lemma contiguous_rows_drop sid offset limit db :
  events_wf db -> 0 <= offset ->
  contiguous_rows sid offset limit db = take limit (drop (Z.to_nat offset) (stream_events db sid)).
Proof.
  intros [_ Hwf] Ho. unfold contiguous_rows. f_equal.
  assert (Hf : filter (fun r => ev_stream r = sid /\ offset <= ev_offset r) (events db)
    = filter (fun r => offset <= ev_offset r) (stream_events db sid)).
  { unfold stream_events. rewrite list_filter_filter. apply list_filter_iff. intros r. tauto. }
  rewrite Hf. specialize (Hwf sid).
  assert (Hseq : exists n, ev_offset <$> stream_events db sid = seqZ 0 n).
  { destruct (streams db !! sid) as [n|]; [exists n; apply Hwf|exists 0; by rewrite Hwf]. }
  destruct Hseq as [n Hseq]. rewrite order_by_id.
  - rewrite (filter_offsets_drop _ 0 n) by done. by rewrite Z.sub_0_r.
  - by eapply StronglySorted_filter, seqZ_sorted.
Qed.

Lemma expect_rows_spec rows : forall o want,
  ev_offset <$> rows = seqZ o (len rows) -> 0 <= o -> o + len rows < u64_modulus ->
  (length rows <= length want)%nat ->
  (expect_rows rows o want = Ret (Pass tt) <-> row_message <$> rows = Some <$> want).
Proof.
  induction rows as [|r rows IH]; intros o want Ho H0o Hmax Hlen; cbn [expect_rows].
  { destruct want; split; done. }
  rewrite len_cons in *. pose proof (len_nonneg rows). rewrite seqZ_cons in Ho by lia.
  injection Ho as Hr Ho. change (ev_offset <$> rows = seqZ (Z.succ o) (Z.pred (1 + len rows))) in Ho.
  replace (Z.pred (1 + len rows)) with (len rows) in Ho by lia. unfold scan_u64. rewrite decide_True by lia.
  destruct want as [|w want]; [cbn in Hlen; lia|]. cbn [fmap list_fmap]. unfold row_message at 1.
  destruct (Unmarshal (ev_envelope r)) as [e|env]; [split; [done|by intros [= ?]]|].
  rewrite decide_False by (by rewrite Hr; intros []).
  destruct (Unpack env) as [[e|got]|v]; cbn [mbind go_bind]; [split; [done|by intros [= ?]]| |split; [done|by intros [= ?]]].
  case_decide as Hg; [split; [done|by intros [= ?]]|]. subst got.
  rewrite u64_id by (unfold is_u64; lia). rewrite (IH (o + 1) want); [|done|lia|lia|cbn in Hlen; lia].
  split; [by intros ->|by intros [= ->]].
Qed.

(** What [ExpectContiguousEvents] asserts. *)
Lemma ExpectContiguousEvents_messages sid offset want db :
  events_wf db -> 0 <= offset -> offset + len want < u64_modulus ->
  (ExpectContiguousEvents None sid offset want db = Ret (Pass tt) <->
   take (length want) (drop (Z.to_nat offset) (stream_messages db sid)) = Some <$> want).
Proof.
  intros Hwf Ho Hmax. unfold ExpectContiguousEvents, stream_messages.
  rewrite contiguous_rows_drop, <- fmap_drop, <- fmap_take by done. set (rows := take _ _).
  assert (Hle : (length rows <= length want)%nat) by (unfold rows; rewrite length_take; lia).
  apply expect_rows_spec; [|done|unfold len in *; lia|done].
  destruct Hwf as [_ Hwf]. specialize (Hwf sid).
  destruct (streams db !! sid) as [n|] eqn:Hs; last first.
  { unfold rows. by rewrite Hwf, drop_nil, take_nil. }
  destruct Hwf as [Hseq Hn]. apply list_eq. intros i. unfold rows at 1.
  rewrite fmap_take, fmap_drop, Hseq.
  assert (Hlen : Z.of_nat (length (stream_events db sid)) = n).
  { apply (f_equal length) in Hseq. rewrite length_fmap, length_seqZ in Hseq. lia. }
  destruct (decide (i < length rows)%nat) as [Hi|Hi].
  - unfold rows in Hi. rewrite length_take, length_drop in Hi.
    rewrite lookup_take, decide_True, lookup_drop by lia.
    rewrite !lookup_seqZ_lt by (unfold len, rows; rewrite ?length_take, ?length_drop; lia). f_equal. lia.
  - assert (Hlrow : length rows = (length want `min` (length (stream_events db sid) - Z.to_nat offset))%nat)
      by (unfold rows; by rewrite length_take, length_drop).
    rewrite (lookup_seqZ_ge offset (len rows)) by (unfold len; lia).
    apply lookup_ge_None. rewrite length_take, length_drop, length_seqZ. lia.
Qed.

(** ** Populating streams *)

Lemma CreateEventStreams_ok sids : forall db,
  events_wf db -> NoDup sids -> (forall sid, sid ∈ sids -> streams db !! sid = None) ->
  exists db', CreateEventStreams sids db = (db', Pass sids) /\ events_wf db' /\ events db' = events db /\
    (forall sid, sid ∈ sids -> streams db' !! sid = Some 0) /\
    (forall sid, sid ∉ sids -> streams db' !! sid = streams db !! sid).
Proof.
  induction sids as [|sid sids IH]; intros db Hwf Hnd Hnew; cbn [CreateEventStreams].
  { exists db. split_and!; try done. by intros sid ?%not_elem_of_nil. }
  apply NoDup_cons in Hnd as [Hhd Hnd]. assert (Hs : streams db !! sid = None) by (apply Hnew; left).
  set (db1 := set_streams db (<[sid := 0]> (streams db))).
  assert (Hwf1 : events_wf db1).
  { assert (Ha : acquire_for_write sid db = inr (sid, db1)) by (unfold acquire_for_write; by rewrite Hs).
    by destruct (acquire_for_write_wf _ _ _ _ Hwf Ha). }
  destruct (IH db1 Hwf1 Hnd) as (db' & Hr & Hwf' & He & Hin & Hout).
  { intros sid' Hs'. cbn. rewrite lookup_insert_ne; [apply Hnew; by right|]. by intros <-. }
  exists db'. split_and!; [|done|done| |].
  - unfold mbind, fixture_bind, must, insert_stream. rewrite Hs. fold db1. by rewrite Hr.
  - intros sid' [->|Hs']%elem_of_cons; [|by apply Hin]. rewrite (Hout sid Hhd). cbn. by rewrite lookup_insert_eq.
  - intros sid' [Hne Hs']%not_elem_of_cons. rewrite Hout by done. cbn. by rewrite lookup_insert_ne.
Qed.

Section populate.
Context (fn : UUID -> Z -> Message) (gen : nat -> UUID * Z).
Context (Hpack : forall sid o, packable (fn sid o)) (Hgen : forall i j, (gen i).1 = (gen j).1 -> i = j).

(** A stream that holds what it should up to its offset. *)
Definition slot_ok (db : DB) (s : slot) : Prop :=
  0 <= slot_offset s <= slot_count s /\ slot_count s < u64_modulus /\
  streams db !! slot_stream s = Some (slot_offset s) /\
  stream_messages db (slot_stream s) = (fun o => Some (fn (slot_stream s) o)) <$> seqZ 0 (slot_offset s).

(** The IDs from the n'th on are unused. *)
Definition unused (n : nat) (db : DB) : Prop := forall i, (n <= i)%nat -> (gen i).1 ∉ message_ids db.

(** What a pass does to a stream. *)
Definition bump (s : slot) : slot :=
  if decide (slot_offset s >= slot_count s) then s
  else mkSlot (slot_stream s) (slot_count s) (slot_offset s + 1).

Definition unfinished (slots : list slot) : bool :=
  existsb (fun s => bool_decide (slot_offset s < slot_count s)) slots.

Lemma appended_other sid base id m env db db' s :
  appended sid base id m env db db' -> slot_stream s <> sid -> slot_ok db s -> slot_ok db' s.
Proof.
  intros Ha Hne (Ho & Hc & Hs & Hm). pose proof (appended_stream_events _ _ _ _ _ _ _ (slot_stream s) Ha)
    as (r & He & _). rewrite decide_False, app_nil_r in He by done. split_and!; try (done || lia).
  - destruct Ha as [-> _]. by rewrite lookup_insert_ne.
  - unfold stream_messages. by rewrite He.
Qed.

Lemma appended_bump id s env db db' :
  slot_offset s < slot_count s -> slot_ok db s ->
  appended (slot_stream s) (slot_offset s) id (fn (slot_stream s) (slot_offset s)) env db db' ->
  slot_ok db' (mkSlot (slot_stream s) (slot_count s) (slot_offset s + 1)).
Proof.
  intros Hlt (Ho & Hc & Hs & Hm) Ha.
  pose proof (appended_stream_events _ _ _ _ _ _ _ (slot_stream s) Ha) as (r & He & _ & Hr & _).
  rewrite decide_True in He by done. split_and!; cbn; try (done || lia).
  - destruct Ha as [-> _]. by rewrite lookup_insert_eq.
  - unfold stream_messages in *. rewrite He, fmap_app, Hm. cbn. rewrite Hr.
    by rewrite (seqZ_app 0 (slot_offset s) 1), fmap_app by lia.
Qed.

Lemma populate_pass_ok slots : forall done progress n db,
  events_wf db -> NoDup (slot_stream <$> done ++ slots) -> Forall (slot_ok db) (done ++ slots) -> unused n db ->
  exists db' n', populate_pass fn gen slots progress n db
      = (db', Pass (bump <$> slots, progress || unfinished slots, n')) /\
    events_wf db' /\ Forall (slot_ok db') (done ++ (bump <$> slots)) /\ unused n' db'.
Proof using Hpack Hgen.
  induction slots as [|s slots IH]; intros ds progress n db Hwf Hnd Hok Hun; cbn [populate_pass].
  { exists db, n. rewrite orb_false_r. split_and!; done. }
  change (bump <$> s :: slots) with (bump s :: (bump <$> slots)). cbn [unfinished existsb]. case_decide as Hge.
  - assert (bump s = s) as -> by (unfold bump; by rewrite decide_True).
    rewrite (bool_decide_eq_false_2 (slot_offset s < slot_count s)) by lia. cbn [orb].
    destruct (IH (ds ++ [s]) progress n db Hwf) as (db' & n' & Hr & Hwf' & Hok' & Hun').
    { by rewrite <- app_assoc. }
    { by rewrite <- app_assoc. }
    { done. }
    rewrite <- app_assoc in Hok'. exists db', n'. split_and!; try done.
    unfold mbind, fixture_bind. by rewrite Hr.
  - set (s1 := mkSlot (slot_stream s) (slot_count s) (slot_offset s + 1)).
    assert (bump s = s1) as -> by (unfold bump; by rewrite decide_False).
    rewrite (bool_decide_eq_true_2 (slot_offset s < slot_count s)) by lia. cbn [orb].
    assert (Hs : slot_ok db s) by (rewrite Forall_forall in Hok; apply Hok; set_solver).
    destruct (Hpack (slot_stream s) (slot_offset s) (gen n)) as (env & data & Hp & Hm).
    destruct (append_one_ok _ _ _ _ (slot_stream s) (slot_offset s) db Hp Hm Hwf) as (db1 & Ha & Happ).
    { apply Hs. }
    { by apply Hun. }
    rewrite fmap_app in Hnd. cbn [fmap list_fmap] in Hnd.
    assert (Hother : forall s', s' ∈ ds ++ slots -> slot_stream s' <> slot_stream s).
    { intros s' Hs' Heq. apply NoDup_app in Hnd as (_ & Hx & [Hnin _]%NoDup_cons).
      apply elem_of_app in Hs' as [Hs'|Hs']; apply (list_elem_of_fmap_2 slot_stream) in Hs'; rewrite Heq in Hs'.
      - apply (Hx _ Hs'). left.
      - done. }
    assert (Hok1 : Forall (slot_ok db1) ((ds ++ [s1]) ++ slots)).
    { rewrite Forall_forall in *. intros x. rewrite <- app_assoc. intros Hx.
      assert (Hc : x = s1 \/ x ∈ ds ++ slots) by set_solver. destruct Hc as [->|Hx'].
      - apply (appended_bump (gen n).1 s env db); [lia|done|done].
      - eapply appended_other; [exact Happ|by apply Hother|]. apply Hok. set_solver. }
    destruct (IH (ds ++ [s1]) true (S n) db1) as (db' & n' & Hr & Hwf' & Hok' & Hun'); try done.
    { apply Happ. }
    { rewrite <- app_assoc, fmap_app. exact Hnd. }
    { intros i Hi. rewrite (appended_ids _ _ _ _ _ _ _ Happ), elem_of_app, list_elem_of_singleton.
      intros [Hx|Hx]; [apply (Hun i); [lia|done]|]. apply Hgen in Hx. lia. }
    exists db', n'. rewrite orb_true_r. split_and!; try done.
    + unfold mbind, fixture_bind, lift. rewrite Hp. unfold must. rewrite Ha, Hr. cbn [orb].
      rewrite u64_id by (destruct Hs; unfold is_u64; lia). done.
    + by rewrite <- app_assoc in Hok'.
Qed.

(** The number of passes that still append an event. *)
Definition remaining (slots : list slot) : nat :=
  foldr (fun s n => (Z.to_nat (slot_count s - slot_offset s) `max` n)%nat) O slots.

Lemma remaining_bump slots : remaining (bump <$> slots) = pred (remaining slots).
Proof.
  induction slots as [|s slots IH]; [done|].
  change (remaining (bump <$> s :: slots)) with
    (Z.to_nat (slot_count (bump s) - slot_offset (bump s)) `max` remaining (bump <$> slots))%nat.
  rewrite IH. cbn [remaining foldr]. fold (remaining slots). unfold bump. case_decide; cbn; lia.
Qed.

Lemma unfinished_remaining slots : unfinished slots = true <-> (0 < remaining slots)%nat.
Proof.
  induction slots as [|s slots IH]; cbn; [split; [done|lia]|].
  rewrite orb_true_iff, IH, bool_decide_eq_true. fold (remaining slots). lia.
Qed.

(** A stream with all of its events. *)
Definition filled (s : slot) : slot := mkSlot (slot_stream s) (slot_count s) (slot_count s).

Lemma filled_bump s : filled (bump s) = filled s.
Proof. unfold bump. by case_decide. Qed.

Lemma populate_loop_ok fuel : forall slots n db,
  events_wf db -> NoDup (slot_stream <$> slots) -> Forall (slot_ok db) slots -> unused n db ->
  (remaining slots < fuel)%nat ->
  exists db', populate_loop fuel fn gen slots n db = Some (db', Pass tt) /\ events_wf db' /\
    Forall (slot_ok db') (filled <$> slots).
Proof using Hpack Hgen.
  induction fuel as [|fuel IH]; intros slots n db Hwf Hnd Hok Hun Hfuel; [lia|]. cbn [populate_loop].
  destruct (populate_pass_ok slots [] false n db Hwf Hnd Hok Hun) as (db1 & n1 & Hr & Hwf1 & Hok1 & Hun1).
  cbn [app] in Hok1. rewrite Hr. cbn [orb]. destruct (unfinished slots) eqn:Hu.
  - apply unfinished_remaining in Hu. destruct (IH (bump <$> slots) n1 db1) as (db' & Hl & Hwf' & Hok'); try done.
    + rewrite <- list_fmap_compose. erewrite list_fmap_ext; [exact Hnd|].
      intros i s _. unfold compose, bump. by case_decide.
    + rewrite remaining_bump. lia.
    + exists db'. split_and!; [done|done|]. rewrite <- list_fmap_compose in Hok'.
      erewrite list_fmap_ext; [exact Hok'|]. intros i s _. symmetry. apply filled_bump.
  - exists db1. split_and!; [done|done|].
    assert (Hz : remaining slots = O) by (destruct (remaining slots) eqn:E; [done|];
      assert (unfinished slots = true) by (apply unfinished_remaining; lia); congruence).
    erewrite list_fmap_ext; [exact Hok1|]. intros i s Hs. unfold filled, bump.
    assert (Hge : slot_offset s >= slot_count s).
    { clear -Hz Hs. revert i Hs. induction slots as [|s0 slots IH]; intros i Hs; [done|].
      cbn in Hz. destruct i as [|i]; [injection Hs as ->; lia|]. apply (IH ltac:(fold (remaining slots) in *; lia) i Hs). }
    rewrite decide_True by done. apply list_elem_of_lookup_2 in Hs. rewrite Forall_forall in Hok.
    destruct (Hok s Hs) as (Ho & _). destruct s as [sid c o]. cbn in *. f_equal. lia.
Qed.
End populate.
End fixtures.

(** ** Handlers that have consumed everything *)

Lemma unconsumed_zero key db :
  unconsumed key db = 0 <->
  forall sid n, streams db !! sid = Some n -> n <= default 0 (checkpoints db !! (key, sid)).
Proof.
  unfold unconsumed. split.
  - intros Hz sid n Hn. destruct (decide (default 0 (checkpoints db !! (key, sid)) < n)) as [Hlt|]; [|lia].
    exfalso. assert (Hz' : size (filter (fun '(sid, next) =>
      default 0 (checkpoints db !! (key, sid)) < next) (streams db)) = 0%nat) by lia.
    apply map_size_empty_inv in Hz'. assert (Hs : filter (fun '(sid, next) =>
      default 0 (checkpoints db !! (key, sid)) < next) (streams db) !! sid = Some n)
      by (apply map_lookup_filter_Some; by split).
    by rewrite Hz', lookup_empty in Hs.
  - intros Hall. assert (Hnone : filter (fun '(sid, next) =>
      default 0 (checkpoints db !! (key, sid)) < next) (streams db) = ∅); [|by rewrite Hnone].
    apply map_empty. intros sid. apply map_lookup_filter_None. right. intros n Hn Hlt.
    specialize (Hall sid n Hn). lia.
Qed.

(** A wait for a count that passes has seen a state in which the query yields it. *)
Lemma WaitForCount_seen show_error want query polls :
  WaitForCount show_error want query polls = Some (Pass tt) ->
  exists db t, (inr db, t) ∈ polls /\ query db = want.
Proof.
  unfold WaitForCount. intros Hw. set (rows := _ <$> polls) in Hw.
  pose proof (WaitForQueryResult_loop show_error want rows None) as Hl. rewrite Hw in Hl.
  destruct Hl as (pre & p & post & Hrows & _ & [[Hp _]|(_ & _ & Hv)]).
  - assert (Hin : p ∈ rows) by (rewrite Hrows; set_solver).
    apply list_elem_of_fmap in Hin as ([view t] & -> & Hin). destruct view as [e|db]; [done|].
    injection Hp as Hq. by exists db, t.
  - by destruct (last_error _ _) in Hv.
Qed.

(** ** Properties *)

(** The container is shared: once a test got one, no other is started, and every test
    gets that one. *)
Theorem container_is_shared {C} (runs : list (error + C)) (c : C) called i :
  get_containers runs None !! i = Some (called, Pass c) ->
  forall j r, (i < j)%nat -> get_containers runs None !! j = Some r -> r = (false, Pass c).
Proof.
  assert (Hshared : forall runs' (c' : C), Forall (fun r => r = (false, Pass c')) (get_containers runs' (Some c'))).
  { intros runs' c'. induction runs' as [|run runs' IH]; cbn; constructor; done. }
  revert i. induction runs as [|run runs IH]; intros i Hi j r Hij Hj; [done|]. cbn in Hi, Hj.
  destruct run as [e|c1]; cbn in Hi, Hj.
  - destruct i as [|i]; [done|]. destruct j as [|j]; [lia|]. apply (IH i Hi j); [lia|done].
  - destruct j as [|j]; [lia|]. pose proof (Hshared runs c1) as Hall. rewrite Forall_lookup in Hall.
    rewrite (Hall j r Hj). destruct i as [|i]; [by injection Hi as _ ->|].
    by injection (Hall i _ Hi) as _ ->.
Qed.

(** C37: what a test appends to a stream is there, as the source would serve it.  Events
    that can be packed are appended at the end of the stream, in order; the envelopes
    that the helper returns are exactly those by which the history of the stream grows,
    with their positions; the stream passes the assertion that it holds those events
    from its previous end on; and no other stream changes. *)
Theorem appended_events_are_expected `{TestMessages} gen sid es n db :
  events_wf db -> streams db !! sid = Some n -> 0 <= n -> n + len es < u64_modulus ->
  Forall packable es -> NoDup ((fun i => (gen i).1) <$> seq 0 (length es)) ->
  (forall i, (i < length es)%nat -> (gen i).1 ∉ message_ids db) ->
  exists db' envs, AppendToEventStream gen sid es db = (db', Pass envs) /\ events_wf db' /\
    streams db' !! sid = Some (n + len es) /\
    EventLog.history db' sid = EventLog.history db sid ++ envs /\
    ExpectContiguousEvents None sid n es db' = Ret (Pass tt) /\
    forall sid', sid' <> sid -> EventLog.history db' sid' = EventLog.history db sid'.
Proof.
  intros Hwf Hs Hn Hmax Hp Hnd Hfresh.
  destruct (AppendToEventStream_ok gen sid es n db) as (db' & envs & Hr & Hwf' & Hst & Hmsg & Hh & Hoth); try done.
  exists db', envs. split_and!; try done.
  - by rewrite Hst, lookup_insert_eq.
  - apply ExpectContiguousEvents_messages; [done|lia|done|]. rewrite Hmsg.
    assert (Hlen : length (stream_messages db sid) = Z.to_nat n).
    { destruct Hwf as [_ Hwf]. specialize (Hwf sid). rewrite Hs in Hwf. destruct Hwf as [Hseq _].
      apply (f_equal length) in Hseq. rewrite length_fmap, length_seqZ in Hseq.
      unfold stream_messages. by rewrite length_fmap. }
    rewrite <- Hlen, drop_app_length, take_ge; [done|]. rewrite length_fmap. lia.
  - intros sid' Hne. unfold EventLog.history. by rewrite Hoth.
Qed.

(** [ExpectContiguousEvents] asserts exactly what it says: the stream holds the events,
    from the offset on, without gaps. *)
Theorem ExpectContiguousEvents_spec `{TestMessages} sid offset want db :
  events_wf db -> 0 <= offset -> offset + len want < u64_modulus ->
  (ExpectContiguousEvents None sid offset want db = Ret (Pass tt) <->
   take (length want) (drop (Z.to_nat offset) (stream_messages db sid)) = Some <$> want).
Proof. apply ExpectContiguousEvents_messages. Qed.

(** C38: the loop that populates streams ends, after one pass more than the largest of the
    counts, and leaves each of the new streams with as many events as it should have,
    those that the given function yields for its offsets, in order. *)
Theorem PopulateEventStreams_fills `{TestMessages} fuel fn ids gen counts db :
  events_wf db -> (forall sid o, packable (fn sid o)) -> (forall i j, (gen i).1 = (gen j).1 -> i = j) ->
  (forall i, (gen i).1 ∉ message_ids db) ->
  length ids = length counts -> NoDup ids -> (forall sid, sid ∈ ids -> streams db !! sid = None) ->
  Forall is_u64 counts -> Forall (fun c => (Z.to_nat c < fuel)%nat) counts -> (0 < fuel)%nat ->
  exists db', PopulateEventStreams fuel fn ids gen counts db = Some (db', Pass ids) /\ events_wf db' /\
    forall i sid c, ids !! i = Some sid -> counts !! i = Some c ->
      streams db' !! sid = Some c /\
      stream_messages db' sid = (fun o => Some (fn sid o)) <$> seqZ 0 c.
Proof.
  intros Hwf Hp Hgen Hun Hlen Hnd Hnew Hu64 Hfuel Hpos. unfold PopulateEventStreams.
  rewrite take_ge by lia.
  destruct (CreateEventStreams_ok ids db Hwf Hnd Hnew) as (db1 & Hc & Hwf1 & He1 & Hin & _). rewrite Hc.
  set (slots := zip_with (fun sid c => mkSlot sid c 0) ids counts).
  assert (Hslots : forall s, s ∈ slots -> slot_offset s = 0 /\ slot_stream s ∈ ids /\ slot_count s ∈ counts).
  { intros s Hs. apply elem_of_lookup_zip_with in Hs as (i & sid & c & -> & Hi & Hci). cbn.
    split_and!; [done|by eapply list_elem_of_lookup_2..]. }
  assert (Hstreams : slot_stream <$> slots = ids).
  { unfold slots. rewrite fmap_zip_with_l; [done|done|lia]. }
  destruct (populate_loop_ok fn gen Hp Hgen fuel slots 0 db1) as (db' & Hl & Hwf' & Hok).
  - done.
  - by rewrite Hstreams.
  - apply Forall_forall. intros s Hs. destruct (Hslots s Hs) as (Ho & Hsid & Hcnt).
    rewrite Forall_forall in Hu64. pose proof (Hu64 _ Hcnt) as Hc64. unfold is_u64 in Hc64.
    split_and!; [lia|lia|lia|rewrite Ho; by apply Hin|]. rewrite Ho. cbn.
    assert (Hnone : stream_events db (slot_stream s) = []).
    { destruct Hwf as [_ Hw]. specialize (Hw (slot_stream s)). by rewrite (Hnew _ Hsid) in Hw. }
    unfold stream_messages, stream_events in *. by rewrite He1, Hnone.
  - intros i _. unfold message_ids. rewrite He1. apply Hun.
  - assert (Hall : Forall (fun s => (Z.to_nat (slot_count s - slot_offset s) < fuel)%nat) slots).
    { apply Forall_forall. intros s Hs. destruct (Hslots s Hs) as (-> & _ & Hcnt).
      rewrite Forall_forall in Hfuel. rewrite Z.sub_0_r. by apply Hfuel. }
    clear -Hall Hpos. induction Hall as [|s l Hs _ IH]; [done|]. cbn. fold (remaining l). lia.
  - exists db'. rewrite Hl. split_and!; [done|done|]. intros i sid c Hi Hci.
    rewrite Forall_forall in Hok. destruct (Hok (mkSlot sid c c)) as (_ & _ & Hs & Hm); [|done].
    apply list_elem_of_fmap. exists (mkSlot sid c 0). split; [done|].
    apply elem_of_lookup_zip_with. by exists i, sid, c.
Qed.

(** C39: when a test has waited for a handler to consume all events, the process has
    applied them: if the wait passes while the transactions of all handlers and of any
    consumers go on, then a state of the database that it saw has a history in which the
    effects of every event of the process's types that the stream held were applied exactly
    once, in order, each in the transaction that moved the checkpoint past it, and nothing
    else happened but other transactions of the engine. *)
Theorem consumed_events_are_applied `{P : Process.ProcessMessageHandler} A A_outbound key outbound sid types
    show_error polls :
  (forall db t, (inr db, t) ∈ polls ->
    exists s, rtc (Pipeline.step A A_outbound key outbound sid types) Pipeline.initial s /\
      Pipeline.pl_db s = db /\ EventLog.fits db) ->
  WaitForHandlerToConsumeAllEvents show_error key polls = Some (Pass tt) ->
  exists db t log, (inr db, t) ∈ polls /\
    rtc (Process.apply_step key outbound sid (EventLog.history db sid) types
      (Pipeline.elsewhere A A_outbound key sid)) (empty_db, []) (db, log) /\
    log = filter (matches types) (EventLog.history db sid).
Proof.
  intros Hseen (db & t & Hin & Hz)%WaitForCount_seen. destruct (Hseen db t Hin) as (s & Hr & <- & Hfit).
  destruct (Pipeline.reachable_applied _ _ _ _ _ _ s Hr Hfit) as (log & Hs & Hlog).
  exists (Pipeline.pl_db s), t, log. split_and!; [done|done|]. rewrite Hlog.
  pose proof (Pipeline.reachable_ok _ _ _ _ _ _ s Hr Hfit) as (Hwf & Hck & _).
  eapply (Pipeline.before_end A A_outbound); [exact Hwf|].
  pose proof (proj1 (unconsumed_zero key _) Hz sid) as Hall.
  unfold EventLog.end_of in *. destruct (streams (Pipeline.pl_db s) !! sid) as [n|] eqn:Hn; cbn in *; [|lia].
  specialize (Hall n eq_refl). unfold Process.checkpoint in *. lia.
Qed.

Lemma expect_command_found `{TestMessages} rows want :
  (forall row, row ∈ rows -> exists env m, Unmarshal row = inr env /\ Unpack env = Ret (inr m)) ->
  (expect_command rows want = Ret (Pass tt) <->
   exists row env, row ∈ rows /\ Unmarshal row = inr env /\ Unpack env = Ret (inr want)).
Proof.
  induction rows as [|row rows IH]; intros Hall; cbn [expect_command].
  { split; [done|]. by intros (row & env & ?%not_elem_of_nil & _). }
  destruct (Hall row) as (env & m & Hu & Hm); [left|]. rewrite Hu, Hm. cbn [mbind go_bind].
  case_decide as Heq.
  - subst m. split; [|done]. intros _. exists row, env. split_and!; [left|done|done].
  - rewrite IH by (intros r Hr; apply Hall; by right). split.
    + intros (r & e & Hr & He). exists r, e. split; [by right|done].
    + intros (r & e & [->|Hr]%elem_of_cons & Hur & Hmr); [|by exists r, e].
      rewrite Hu in Hur. injection Hur as <-. rewrite Hm in Hmr. congruence.
Qed.

(** A command that a test queues for later is on the queue, and stays there.  It has not
    been attempted, the assertion that the queue contains it passes if the commands on
    the queue can be read at all, no other command changes, and no handler acquires it
    within 24 hours. *)
Theorem postponed_command_is_queued `{TestMessages} show_error g now m db :
  packable m -> commands db !! g.1 = None ->
  exists env db', EnqueuePostponedCommand g now m db = (db', Pass env) /\
    ExpectCommandIDToBeQueued show_error g.1 None db' = Pass tt /\
    ExpectCommandToBeUnattempted show_error g.1 None db' = Pass tt /\
    (forall id, id <> g.1 -> commands db' !! id = commands db !! id) /\
    (forall rows, command_rows db' rows ->
      (forall row, row ∈ rows -> exists env m, Unmarshal row = inr env /\ Unpack env = Ret (inr m)) ->
      ExpectCommandToBeQueued (inr rows) m = Ret (Pass tt)) /\
    (forall at_ locked types del, at_ < now + postponement ->
      AcquireCommandDelivery at_ locked types db' = inr (Some del) -> MessageID del <> g.1).
Proof.
  intros Hp Hnone. destruct (Hp g) as (env & data & Hpack & Hmar).
  destruct (packTestEvent_pass _ _ _ Hpack) as (Hid & _ & Hun).
  set (c := mkCommandRow (type_of env) data 0 (now + postponement)).
  exists env, (set_commands db (<[g.1 := c]> (commands db))). split_and!.
  - unfold EnqueuePostponedCommand, mbind, fixture_bind, lift, packTestCommand, must, insert_postponed.
    by rewrite Hpack, Hmar, Hid, Hnone.
  - unfold ExpectCommandIDToBeQueued, commands_where. cbn. by rewrite lookup_insert_eq.
  - unfold ExpectCommandToBeUnattempted, commands_where. cbn. by rewrite lookup_insert_eq.
  - intros id Hne. cbn. by rewrite lookup_insert_ne.
  - intros rows Hrows Hall. apply expect_command_found; [done|]. exists data, env.
    split_and!; [|by apply Unmarshal_Marshal|done]. rewrite Hrows. cbn [commands set_commands].
    apply list_elem_of_fmap. exists (g.1, c). split; [done|]. apply elem_of_map_to_list, lookup_insert_eq.
  - intros at_ locked types del Hlt. unfold AcquireCommandDelivery.
    destruct (filter _ (pending at_ types _)) as [|[id c'] rest] eqn:Hf; [done|].
    assert (Hin : (id, c') ∈ pending at_ types (set_commands db (<[g.1 := c]> (commands db)))).
    { assert (Hx : (id, c') ∈ (id, c') :: rest) by left. rewrite <- Hf in Hx.
      by apply list_elem_of_filter in Hx as [_ ?]. }
    unfold pending in Hin. rewrite order_by_Permutation in Hin.
    apply list_elem_of_filter in Hin as [[_ Hdue] Hin]. apply elem_of_map_to_list in Hin. cbn in Hin.
    case_decide; [|done]. intros [= <-] Hg. cbn in Hg. subst id.
    rewrite lookup_insert_eq in Hin. injection Hin as <-. cbn in Hdue. lia.
Qed.

(** ** An example *)

#[refine] Instance example_messages : TestMessages (H := Example.messaging) := {
  DeepEqual := N.eq_dec;
  RegisteredMessageTypeOf m := Some m;
  MarshalMessage _ := inr "";
  ValidateEnvelope _ := None;
}.
Proof. cbn. intros env m [= ->] _. done. Defined.

Lemma example_packable m : packable (H0 := example_messages) m.
Proof. intros [id now]. by eexists _, _. Qed.

Definition example_gen (i : nat) : UUID * Z := (N.of_nat (100 + i), 0).

(** A database with the empty stream 50. *)
Definition example_created : DB :=
  (CreateEventStreams [50%N] empty_db).1.

Lemma example_created_wf : events_wf example_created.
Proof.
  destruct (CreateEventStreams_ok [50%N] empty_db) as (db & Hr & Hwf & _).
  - apply (Aggregate.empty_aggregate_wf (H0 := Aggregate.account) 0).
  - apply NoDup_singleton.
  - done.
  - unfold example_created. by rewrite Hr.
Qed.

Lemma appended_events_are_expected_witness :
  exists db' envs, AppendToEventStream (H0 := example_messages) example_gen 50 [7%N; 8%N] example_created
      = (db', Pass envs) /\ length envs = 2%nat /\
    ExpectContiguousEvents (H0 := example_messages) None 50 0 [7%N; 8%N] db' = Ret (Pass tt).
Proof.
  destruct (appended_events_are_expected (H0 := example_messages) example_gen 50 [7%N; 8%N] 0 example_created)
    as (db' & envs & Hr & _ & _ & _ & He & _).
  - exact example_created_wf.
  - reflexivity.
  - lia.
  - reflexivity.
  - repeat constructor; apply example_packable.
  - vm_compute. repeat constructor; set_solver.
  - intros i _. apply not_elem_of_nil.
  - exists db', envs. split; [exact Hr|]. split; [|exact He]. vm_compute in Hr. injection Hr as <- <-. reflexivity.
Defined.

Lemma PopulateEventStreams_fills_witness :
  exists db', PopulateEventStreams (H0 := example_messages) 4 (fun _ o => Z.to_N o) [60%N; 61%N] example_gen
      [3; 1] empty_db = Some (db', Pass [60%N; 61%N]) /\
    streams db' !! 60%N = Some 3 /\ streams db' !! 61%N = Some 1.
Proof.
  destruct (PopulateEventStreams_fills (H0 := example_messages) 4 (fun _ o => Z.to_N o) [60%N; 61%N]
    example_gen [3; 1] empty_db) as (db' & Hr & _ & Hs).
  - apply (Aggregate.empty_aggregate_wf (H0 := Aggregate.account) 0).
  - intros sid o. apply example_packable.
  - unfold example_gen. cbn. intros i j Hij. lia.
  - intros i. apply not_elem_of_nil.
  - reflexivity.
  - repeat constructor; set_solver.
  - intros sid _. reflexivity.
  - repeat constructor; vm_compute; done.
  - repeat constructor.
  - lia.
  - exists db'. split; [exact Hr|]. split; [by apply (Hs 0%nat)|by apply (Hs 1%nat)].
Defined.

(** The process of [Pipeline] that has applied its event. *)
Lemma consumed_events_are_applied_witness :
  exists db t log, (inr db, t) ∈ [(inr (Pipeline.pl_db Pipeline.example_applied), false)
      : (error + DB) * bool] /\
    rtc (Process.apply_step (H0 := Process.counter) 9 Process.example_outbound 40
      (EventLog.history (M := Example.messaging) db 40) None
      (Pipeline.elsewhere (fun _ => Aggregate.account) (fun _ => {[28%N]}) 9 40)) (empty_db, []) (db, log) /\
    log = filter (matches None) (EventLog.history (M := Example.messaging) db 40).
Proof.
  destruct (consumed_events_are_applied (P := Process.counter) (fun _ => Aggregate.account)
    (fun _ => {[28%N]}) 9 Process.example_outbound 40 None (fun _ => "")
    [(inr (Pipeline.pl_db Pipeline.example_applied), false)]) as (db & t & log & Hin & Hs & Hlog).
  - intros db t Hdb. apply list_elem_of_singleton in Hdb. injection Hdb as -> ->.
    exists Pipeline.example_applied. split; [exact Pipeline.example_applies|]. split; [reflexivity|].
    apply Pipeline.example_fits. vm_compute. reflexivity.
  - vm_compute. reflexivity.
  - exists db, t, log. split; [exact Hin|]. split; [exact Hs|exact Hlog].
Defined.

Lemma postponed_command_is_queued_witness :
  exists env db', EnqueuePostponedCommand (H0 := example_messages) (5%N, 0) 0 8%N empty_db = (db', Pass env) /\
    ExpectCommandIDToBeQueued (fun _ => "") 5 None db' = Pass tt.
Proof.
  destruct (postponed_command_is_queued (H0 := example_messages) (fun _ => "") (5%N, 0) 0 8%N empty_db)
    as (env & db' & Hr & Hq & _).
  - apply example_packable.
  - reflexivity.
  - exists env, db'. split; [exact Hr|exact Hq].
Defined.
