(* ===== verification/TestCluster.v ===== *)
(** * Clusters of engines in tests

    Models [internal/x/xtesting/cluster.go], a set of nodes that a test starts and stops,
    and the helpers of [engine.go] that execute commands.  An engine is known by the
    number under which it was started; what its [Run] returns, and when, is an input. *)

From S2P Require Import Prelude Errors Stream Database Handler MessagePump Waiting Fixtures.
From S2P Require Cluster Execute.

(** ** The cluster *)

(** [clusterMember]: whether [Stop] was called, and whether [Stopped] is closed. *)
Record clusterMember := mkMember { stop_called : bool; member_stopped : bool }.

(** [Cluster]; [nodes] are the goroutines of all nodes that were ever started, [members]
    those that were not stopped by [StopNode], [reports] the calls of [t.Errorf]. *)
Record TestCluster := mkCluster {
  stopping : bool;                    (* c.ctx is canceled *)
  nodes : gmap nat clusterMember;
  members : gset nat;
  started : nat;
  failed : bool;
  reports : list nat;
}.

Definition empty_cluster : TestCluster := mkCluster false ∅ ∅ 0 false [].

(** [start]; the result is the new engine, whose context is derived from that of the
    cluster. *)
Definition start (c : TestCluster) : nat * TestCluster :=
  let idx := started c in
  (idx, mkCluster (stopping c) (<[idx := mkMember (stopping c) false]> (nodes c)) ({[idx]} ∪ members c) (S idx)
    (failed c) (reports c)).

(** The goroutine of a node, when [e.Run] returns. *)
Definition run_returns (idx : nat) (err : option error) (c : TestCluster) : TestCluster :=
  match nodes c !! idx with
  | Some (mkMember called false) =>
      let nodes' := <[idx := mkMember called true]> (nodes c) in
      if IsOpt err Canceled then mkCluster (stopping c) nodes' (members c) (started c) (failed c) (reports c)
      else mkCluster (stopping c) nodes' (members c) (started c) true (reports c ++ [idx])
  | _ => c
  end.

(** Cancels the context of a node. *)
Definition cancel_node (idx : nat) (c : TestCluster) : TestCluster :=
  mkCluster (stopping c) (alter (fun m => mkMember true (member_stopped m)) idx (nodes c)) (members c) (started c) (failed c)
    (reports c).

(** [StopNode], up to where it waits for the node. *)
Definition StopNode (idx : nat) (c : TestCluster) : go TestCluster :=
  if decide (idx ∈ members c) then
    Ret (cancel_node idx (mkCluster (stopping c) (nodes c) (members c ∖ {[idx]}) (started c) (failed c) (reports c)))
  else Panic "engine is not running on a node of the cluster".

(** [Stop] cancels the context that those of all nodes are derived from. *)
Definition Stop (c : TestCluster) : TestCluster :=
  mkCluster true ((fun m => mkMember true (member_stopped m)) <$> nodes c) (members c) (started c) (failed c)
    (reports c).

(** [Nodes], in the order in which the map is iterated. *)
Definition Nodes (c : TestCluster) (order : list nat) : Prop := order ≡ₚ elements (members c).

(** [ExecuteCommand] of the cluster: the node that executes the command, where [rand] is
    what [rand.N] returns. *)
Definition choose_node (order : list nat) (rand : nat) : error + nat :=
  match order with
  | [] => inl (Opaque "the cluster has no running nodes")
  | _ => match order !! rand with Some e => inr e | None => inl (Opaque "index out of range") end
  end.

(** *** Convergence *)

(** What the select and [m.Node.WaitContext] yield for a node. *)
Inductive readiness : Type :=
| ClusterFailed
| NotReady
| NotJoined
| Joined (id : UUID).

(** What follows a load of a node's membership: the latch, the timeout, or a change. *)
Inductive wakeup : Type := LatchSet | TimedOut | Changed.

(** The first loop of [converge]; [None] if it returns because the cluster failed. *)
Fixpoint converge_ready (rs : list readiness) (ids : list UUID) : verdict (option (list UUID)) :=
  match rs with
  | [] => Pass (Some ids)
  | ClusterFailed :: _ => Pass None
  | NotReady :: _ => FailNow "timeout waiting for nodes to become ready"
  | NotJoined :: _ => FailNow "timeout waiting for nodes to join the cluster"
  | Joined id :: rs' => converge_ready rs' (ids ++ [id])
  end.

(** The inner loop of the second: whether the node sees the peers that it should; [None]
    if the loads are used up. *)
Fixpoint converge_node (want : gset UUID) (loads : list (option Cluster.Membership * wakeup))
    : option (verdict bool) :=
  match loads with
  | [] => None
  | (membership, w) :: loads' =>
      if decide (want = Cluster.Peers membership) then Some (Pass true)
      else
        match w with
        | LatchSet => Some (Pass false)
        | TimedOut => Some (FailNow "timeout waiting for nodes to see each other")
        | Changed => converge_node want loads'
        end
  end.

(** The second loop. *)
Fixpoint converge_nodes (nodeIDs : gset UUID) (ids : list UUID)
    (loads : UUID -> list (option Cluster.Membership * wakeup)) : option (verdict bool) :=
  match ids with
  | [] => Some (Pass true)
  | id :: ids' =>
      match converge_node (nodeIDs ∖ {[id]}) (loads id) with
      | Some (Pass true) => converge_nodes nodeIDs ids' loads
      | r => r
      end
  end.

(** [converge]; the result is whether the nodes converged, rather than failed. *)
Definition converge (rs : list readiness) (loads : UUID -> list (option Cluster.Membership * wakeup))
    : option (verdict bool) :=
  match converge_ready rs [] with
  | FailNow msg => Some (FailNow msg)
  | Pass None => Some (Pass false)
  | Pass (Some ids) => converge_nodes (list_to_set ids) ids loads
  end.

(** [StartCluster] and [AddNode]: [n] nodes are started, which then converge. *)
Fixpoint start_n (n : nat) (c : TestCluster) : TestCluster :=
  match n with O => c | S n' => start_n n' (start c).2 end.

Definition StartCluster (n : nat) (rs : list readiness)
    (loads : UUID -> list (option Cluster.Membership * wakeup)) : TestCluster * option (verdict bool) :=
  (start_n n empty_cluster, converge rs loads).

Definition AddNode (rs : list readiness) (loads : UUID -> list (option Cluster.Membership * wakeup))
    (c : TestCluster) : nat * TestCluster * option (verdict bool) :=
  (start c, converge rs loads).

(** ** Lifetimes of nodes *)

Inductive cluster_step : TestCluster -> TestCluster -> Prop :=
| cs_start c : cluster_step c (start c).2
| cs_returns idx err c : cluster_step c (run_returns idx err c)
| cs_stop_node idx c c' : StopNode idx c = Ret c' -> cluster_step c c'
| cs_stop c : cluster_step c (Stop c).

(** A started node that was not stopped by [StopNode] is a member; the latch is set
    exactly if a node was reported. *)
Definition cluster_ok (c : TestCluster) : Prop :=
  (forall idx, is_Some (nodes c !! idx) <-> (idx < started c)%nat) /\
  (forall idx, idx ∈ members c -> (idx < started c)%nat) /\
  (forall idx m, nodes c !! idx = Some m -> stop_called m = false -> idx ∈ members c) /\
  (failed c = true <-> reports c <> []) /\
  NoDup (reports c) /\
  (forall idx, idx ∈ reports c -> exists b, nodes c !! idx = Some (mkMember b true)).

Lemma start_ok c : cluster_ok c -> cluster_ok (start c).2.
Proof.
  intros (Hn & Hm & Hr & Hf & Hnd & Hrep).
  assert (Hnew : nodes c !! started c = None).
  { destruct (nodes c !! started c) eqn:E; [|done]. assert (is_Some (nodes c !! started c)) as Hs by (by rewrite E).
    apply Hn in Hs. lia. }
  split_and!; cbn [nodes members started failed reports start snd]; try done.
  - intros idx. destruct (decide (idx = started c)) as [->|Hne].
    + rewrite lookup_insert_eq. split; [lia|eauto].
    + rewrite lookup_insert_ne, Hn by done. lia.
  - intros idx [ ->%elem_of_singleton | Hi%Hm ]%elem_of_union; lia.
  - intros idx m. destruct (decide (idx = started c)) as [->|Hne]; [set_solver|].
    rewrite lookup_insert_ne by done. intros Hi Hs. apply elem_of_union_r. by eapply Hr.
  - intros idx Hi. destruct (Hrep idx Hi) as [b Hb]. exists b. rewrite lookup_insert_ne; [done|].
    intros <-. by rewrite Hnew in Hb.
Qed.

Lemma run_returns_ok idx err c : cluster_ok c -> cluster_ok (run_returns idx err c).
Proof.
  intros (Hn & Hm & Hr & Hf & Hnd & Hrep). unfold run_returns.
  destruct (nodes c !! idx) as [[called []]|] eqn:Hi; [by split_and!| |by split_and!].
  assert (Hdom : forall i, is_Some (<[idx := mkMember called true]> (nodes c) !! i) <-> (i < started c)%nat).
  { intros i. rewrite <- Hn. destruct (decide (i = idx)) as [->|Hne].
    - rewrite lookup_insert_eq, Hi. split; eauto.
    - by rewrite lookup_insert_ne. }
  assert (Hcalled : forall i m, <[idx := mkMember called true]> (nodes c) !! i = Some m -> stop_called m = false ->
    i ∈ members c).
  { intros i m [[<- <-]|[_ Hm']]%lookup_insert_Some Hs; [by apply (Hr idx _ Hi)|by apply (Hr i m)]. }
  assert (Hnotin : idx ∉ reports c).
  { intros Hx. destruct (Hrep idx Hx) as [b Hb]. congruence. }
  assert (Hkeep : forall i, i ∈ reports c -> exists b, <[idx := mkMember called true]> (nodes c) !! i = Some (mkMember b true)).
  { intros i Hx. destruct (Hrep i Hx) as [b Hb]. exists b. rewrite lookup_insert_ne; [done|]. by intros <-. }
  destruct (IsOpt err Canceled); split_and!; cbn; try done.
  - by destruct (reports c).
  - apply NoDup_app. split_and!; [done| |apply NoDup_singleton]. set_solver.
  - intros i [Hx| ->%list_elem_of_singleton ]%elem_of_app; [by apply Hkeep|]. exists called. by rewrite lookup_insert_eq.
Qed.

(** Cancelling nodes keeps what is known of them. *)
Lemma canceled_ok c stopping' nodes' members' :
  cluster_ok c ->
  (forall i, nodes' !! i = nodes c !! i \/ nodes' !! i = (fun m => mkMember true (member_stopped m)) <$> nodes c !! i) ->
  members' ⊆ members c ->
  (forall i, i ∈ members c -> i ∈ members' \/ nodes' !! i = (fun m => mkMember true (member_stopped m)) <$> nodes c !! i) ->
  cluster_ok (mkCluster stopping' nodes' members' (started c) (failed c) (reports c)).
Proof.
  intros (Hn & Hm & Hr & Hf & Hnd & Hrep) Hnodes Hsub Hmem. split_and!; cbn; try done.
  - intros i. rewrite <- Hn. destruct (Hnodes i) as [-> | ->]; [done|]. by rewrite fmap_is_Some.
  - intros i Hi. apply Hm. by apply Hsub.
  - intros i m Hi Hs. assert (Hold : nodes' !! i = nodes c !! i).
    { destruct (Hnodes i) as [Heq|Heq]; [done|]. rewrite Heq in Hi. by apply fmap_Some in Hi as (m' & _ & ->). }
    rewrite Hold in Hi. destruct (Hmem i (Hr i m Hi Hs)) as [|Heq]; [done|].
    rewrite <- Hold, Heq in Hi. by apply fmap_Some in Hi as (m' & _ & ->).
  - intros i Hi. destruct (Hrep i Hi) as [b Hb]. destruct (Hnodes i) as [-> | ->]; [by exists b|].
    rewrite Hb. by exists true.
Qed.

Lemma cluster_step_ok c c' : cluster_ok c -> cluster_step c c' -> cluster_ok c'.
Proof.
  intros Hok Hs. destruct Hs as [c|idx err c|idx c c' Hstop|c].
  - by apply start_ok.
  - by apply run_returns_ok.
  - unfold StopNode in Hstop. case_decide as Hin; [|done]. injection Hstop as <-.
    unfold cancel_node. cbn. apply canceled_ok; [done| |set_solver|].
    + intros i. destruct (decide (i = idx)) as [->|Hne]; [right; by rewrite lookup_alter_eq|left].
      by rewrite lookup_alter_ne.
    + intros i Hi. destruct (decide (i = idx)) as [->|Hne]; [right; by rewrite lookup_alter_eq|left]. set_solver.
  - apply canceled_ok; [done| |done|by left]. intros i. right. by rewrite lookup_fmap.
Qed.

Lemma empty_cluster_ok : cluster_ok empty_cluster.
Proof.
  split_and!; cbn; try done.
  - intros idx. rewrite lookup_empty. split; [by intros []|lia].
  - by constructor.
  - by intros idx ?%not_elem_of_nil.
Qed.

(** A cluster that has failed has reported each node that stopped unexpectedly once, and
    the nodes that still run and were not told to stop are the ones that execute
    commands. *)
Theorem cluster_reports_failures c :
  rtc cluster_step empty_cluster c ->
  (failed c = true <-> reports c <> []) /\ NoDup (reports c) /\
  (forall idx, idx ∈ reports c -> exists b, nodes c !! idx = Some (mkMember b true)) /\
  (forall idx, nodes c !! idx = Some (mkMember false false) -> idx ∈ members c) /\
  (forall order rand e, Nodes c order -> choose_node order rand = inr e -> e ∈ members c).
Proof.
  intros Hr. assert (Hok : cluster_ok c).
  { revert c Hr. apply (rtc_ind_r cluster_ok); [apply empty_cluster_ok|]. intros y z _ Hs Hy.
    by eapply cluster_step_ok. }
  destruct Hok as (_ & _ & Hrun & Hf & Hnd & Hrep). split_and!; try done; [apply Hf..| |].
  - intros idx Hi. by eapply Hrun.
  - intros order rand e Ho Hc. unfold choose_node in Hc. destruct order as [|x order]; [done|].
    destruct ((x :: order) !! rand) as [y|] eqn:Hx; [|done]. injection Hc as <-.
    apply list_elem_of_lookup_2 in Hx. rewrite Ho in Hx. by apply elem_of_elements.
Qed.

Lemma converge_ready_pass rs : forall ids ids',
  converge_ready rs ids = Pass (Some ids') -> exists new, ids' = ids ++ new /\ rs = Joined <$> new.
Proof.
  induction rs as [|r rs IH]; intros ids ids'; cbn; [intros [= <-]; exists []; by rewrite app_nil_r|].
  destruct r as [| | |id]; try done. intros (new & -> & ->)%IH. exists (id :: new). by rewrite <- app_assoc.
Qed.

Lemma converge_node_pass want loads :
  converge_node want loads = Some (Pass true) -> exists m w, (m, w) ∈ loads /\ Cluster.Peers m = want.
Proof.
  induction loads as [|[m w] loads IH]; cbn; [done|]. case_decide as Hd.
  - intros _. exists m, w. split; [left|done].
  - destruct w; [done|done|]. intros (m' & w' & Hin & Hp)%IH. exists m', w'. split; [by right|done].
Qed.

(** A cluster that has converged was one.  If the wait of a test for its nodes to
    converge passes without a failure, every node had joined, and each was seen with
    exactly the other nodes as its peers. *)
Theorem converge_spec rs loads :
  converge rs loads = Some (Pass true) ->
  exists ids, rs = Joined <$> ids /\
    forall id, id ∈ ids -> exists m w, (m, w) ∈ loads id /\ Cluster.Peers m = list_to_set ids ∖ {[id]}.
Proof.
  unfold converge. destruct (converge_ready rs []) as [[ids|]|msg] eqn:Hr; [|done..].
  apply converge_ready_pass in Hr as (new & Hids & ->). cbn in Hids. subst new. intros Hc. exists ids.
  split; [done|]. set (all := list_to_set ids : gset UUID) in *. clearbody all.
  induction ids as [|id ids IH]; intros i Hi; [by apply not_elem_of_nil in Hi|]. cbn in Hc.
  destruct (converge_node (all ∖ {[id]}) (loads id)) as [[[]|]|] eqn:Hn; try done.
  apply elem_of_cons in Hi as [->|Hi]; [by apply converge_node_pass|by apply IH].
Qed.

(** Three nodes, the last of which sees the others only after a change. *)
Lemma converge_spec_witness :
  exists ids, Joined <$> [1%N; 2%N] = Joined <$> ids /\
    forall id, id ∈ ids -> exists (m : option Cluster.Membership) w,
      (m, w) ∈ [(None, Changed); (Some (Cluster.mkMembership id true (if decide (id = 1%N) then {[2%N]} else {[1%N]})),
        Changed)] /\ Cluster.Peers m = list_to_set ids ∖ {[id]}.
Proof.
  apply (converge_spec (Joined <$> [1%N; 2%N]) (fun id =>
    [(None, Changed); (Some (Cluster.mkMembership id true (if decide (id = 1%N) then {[2%N]} else {[1%N]})),
        Changed)])).
  vm_compute. reflexivity.
Defined.

(** ** Executing commands in tests *)

Section commands.
Context `{Messaging} {AppState : Type}.

(** The envelope with which [Engine.ExecuteCommand] invokes the hooks of ctx, if it gets that
    far. *)
Definition hooked (e : Execute.Engine) (c : Execute.call) (command : Message)
    (options : list (Execute.ExecuteCommandOption (AppState := AppState))) : option Envelope :=
  match Execute.ready c, Execute.resolveExecuteCommandOptions options [] ∅ [] with
  | None, Ret (packOptions, _, _) => Some (Execute.PackCommand e (Execute.call_world c) command packOptions)
  | _, _ => None
  end.

(** [ExecuteCommandWithHook]: the envelope that the hook kept, or nil. *)
Definition ExecuteCommandWithHook (e : Execute.Engine) (c : Execute.call) (command : Message)
    (options : list Execute.ExecuteCommandOption) (st : AppState) (db : DB)
    : go (AppState * DB * verdict (option Envelope)) :=
  let commandEnvelope := hooked e c command options in
  r ← Execute.ExecuteCommand e c command options st db;
  let '(st, err, db) := r in
  match err with
  | Some _ => Ret (st, db, FailNow "unable to execute command")
  | None => Ret (st, db, Pass commandEnvelope)
  end.

(** [ExecuteCommand], with a hook that does nothing. *)
Definition ExecuteCommand := ExecuteCommandWithHook.

(** [ExecuteCommandAndWait]; [None] while it is waiting.  [GetMessageId] of nil is nil. *)
Definition ExecuteCommandAndWait (show_error : error -> string) (e : Execute.Engine) (c : Execute.call)
    (command : Message) (options : list Execute.ExecuteCommandOption) (polls : list ((error + DB) * bool))
    (st : AppState) (db : DB) : go (AppState * DB * option (verdict (option Envelope))) :=
  r ← ExecuteCommand e c command options st db;
  let '(st, db, v) := r in
  match v with
  | FailNow msg => Ret (st, db, Some (FailNow msg))
  | Pass env =>
      let mid := match env with Some env => body_message_id (env_body env) | None => 0%N end in
      match WaitForCommandToBeRemovedFromQueue show_error mid polls with
      | None => Ret (st, db, None)
      | Some (FailNow msg) => Ret (st, db, Some (FailNow msg))
      | Some (Pass _) => Ret (st, db, Some (Pass env))
      end
  end.

(** [ExecuteCommandsSequentially]; each command comes with the call that executes it, the
    state of the database by then, and what its wait polls. *)
Fixpoint ExecuteCommandsSequentially (show_error : error -> string) (e : Execute.Engine)
    (commands : list (Message * Execute.call * DB * list ((error + DB) * bool))) (st : AppState)
    : go (AppState * option (verdict (list (option Envelope)))) :=
  match commands with
  | [] => Ret (st, Some (Pass []))
  | (command, c, db, polls) :: commands' =>
      r ← ExecuteCommandAndWait show_error e c command [] polls st db;
      let '(st, _, v) := r in
      match v with
      | None => Ret (st, None)
      | Some (FailNow msg) => Ret (st, Some (FailNow msg))
      | Some (Pass env) =>
          r ← ExecuteCommandsSequentially show_error e commands' st;
          let '(st, v) := r in
          match v with
          | Some (Pass rest) => Ret (st, Some (Pass (env :: rest)))
          | v => Ret (st, v)
          end
      end
  end.

(** A wait that passes has seen the command's absence. *)
Lemma removed_seen show_error mid polls :
  WaitForCommandToBeRemovedFromQueue show_error mid polls = Some (Pass tt) ->
  exists db t, (inr db, t) ∈ polls /\ commands db !! mid = None.
Proof.
  intros (db & t & Hin & Hz)%WaitForCount_seen. exists db, t. split; [done|].
  unfold commands_where in Hz. by destruct (commands db !! mid).
Qed.

Lemma ExecuteCommand_queued e c command st db st' db' env :
  ExecuteCommand e c command [] st db = Ret (st', db', Pass env) ->
  exists env', env = Some env' /\ env' = Execute.PackCommand e (Execute.call_world c) command [] /\
    (body_idempotency_key (env_body env') = "" -> exists row,
      commands db' !! body_message_id (env_body env') = Some row /\
      Unmarshal (cmd_envelope row) = inr env').
Proof.
  unfold ExecuteCommand, ExecuteCommandWithHook, hooked, Execute.ExecuteCommand.
  destruct (Execute.ready c); [cbn; congruence|]. cbn [Execute.resolveExecuteCommandOptions mbind go_bind].
  rewrite decide_False by (by intros [? _]). set (env' := Execute.PackCommand e _ _ _).
  destruct (Validate command true env') as [[err|]|]; cbn [mbind go_bind]; [congruence| |done].
  case_decide; cbn [mbind go_bind]; [congruence|].
  destruct (Transact _ _ db) as [[err|[mid b]] db1] eqn:Ht; cbn [mbind go_bind]; [congruence|].
  intros [= <- <- <-]. exists env'. split_and!; [done|done|]. intros Hk.
  unfold Transact in Ht. destruct (begin_err _); [done|].
  destruct (Execute.enqueue _ env' db) as [err|[[mid' b'] db2]] eqn:He; [done|].
  destruct (commit_err _); [done|]. injection Ht as <- <- <-.
  unfold Execute.enqueue, wrap in He. destruct (Marshal env') as [err|data] eqn:Hm; [done|].
  unfold commandqueue_add in He. rewrite decide_False in He by (by intros []).
  destruct (commands db !! _); [done|]. injection He as _ _ <-. cbn.
  rewrite lookup_insert_eq. eexists. split; [done|]. cbn. by apply Unmarshal_Marshal.
Qed.
End commands.

(** Commands that a test executes in sequence are executed one after the other: if the
    helper passes, it returns the envelopes with which they were queued, in order, and has
    seen each of them gone from the queue before it executed the next. *)
Theorem sequential_commands_are_done `{Messaging} {AppState} show_error e cmds (st st' : AppState) envs :
  ExecuteCommandsSequentially show_error e cmds st = Ret (st', Some (Pass envs)) ->
  envs = (fun '(command, c, _, _) => Some (Execute.PackCommand e (Execute.call_world c) command [])) <$> cmds /\
  Forall (fun '(command, c, _, polls) => exists db t, (inr db, t) ∈ polls /\
    commands db !! body_message_id (env_body (Execute.PackCommand e (Execute.call_world c) command [])) = None) cmds.
Proof.
  revert st envs. induction cmds as [|[[[command c] db] polls] cmds IH]; intros st envs;
    cbn [ExecuteCommandsSequentially]; [intros [= <- <-]; split; [done|constructor]|].
  unfold ExecuteCommandAndWait.
  destruct (ExecuteCommand e c command [] st db) as [[[st1 db1] v]|] eqn:He; cbn [mbind go_bind]; [|done].
  destruct v as [env|msg]; cbn [mbind go_bind]; [|done].
  apply ExecuteCommand_queued in He as (env' & -> & -> & _).
  destruct (WaitForCommandToBeRemovedFromQueue _ _ _) as [[[]|msg]|] eqn:Hw; cbn [mbind go_bind]; [|done..].
  destruct (ExecuteCommandsSequentially show_error e cmds st1) as [[st2 [[rest|]|]]|] eqn:Hr;
    cbn [mbind go_bind]; try done.
  intros [= <- <-]. destruct (IH _ _ Hr) as [-> Hall]. split; [done|]. constructor; [|done].
  by apply removed_seen in Hw.
Qed.
